(* ===== verification/_CoqProject ===== *)
-Q . S2P
Prelude.v
GoInt.v
GoStrings.v
GoIO.v
Pool.v
VarInt.v
Types.v
Compress.v
Packet.v
Cfb8.v
Hash.v
KeyExchange.v
Handshake.v
Auth.v
Socks5.v
Proxy.v
Priority.v
PrioritySys.v
Flow.v
Metrics.v
Batch.v
MineConn.v
Mux.v
MuxSys.v
MuxLink.v
Relay.v
RelaySys.v
Transport.v
ProxyServer.v
ClassFile.v
Mappings.v
Extract.v
Protocol.v
