(* ===== verification/Prelude.v ===== *)
(** * minegate: a verification development

    minegate is a Go library for Minecraft connections: it frames, compresses and
    encrypts packets, multiplexes streams, relays connections and forwards player
    information.  This development models its code as executable Rocq functions and
    proves what they do.

    ** How the code is modelled

    - Integers are [Z] with the width of the Go type written out: [s32], [s64], [u16]
      and the like reduce to the range of the type, [is_int w] and [is_uint w] say that
      a number is in it ([GoInt.v]).  Bytes are [Byte.byte], strings and slices of
      bytes are lists of bytes.
    - A call returns an [outcome]: a value, an error, a run-time panic, or [Block] when it
      waits in the present state.  Code with effects is in the monad [M S] of a state
      [S]: the state survives errors and panics ([Prelude.v]).
    - An [io.Reader] is a list of chunks, one per [Read], and a final error; an [io.Writer]
      is a log of the calls and a plan of failures ([GoIO.v]).  Theorems over all readers
      hence cover every fragmentation of a stream.
    - A pooled slice is an array identifier, the array's bytes and a length ([Pool.v]), so
      that sharing of memory is visible.
    - Loops are structural recursions, or take a fuel that the definition computes from
      its input; lemmas show that it is enough, and the theorems state that the code
      returns.
    - Code outside the repository is a parameter with laws: [Zlib] and [ZlibOk]
      (compression), [BlockCipher] and [BlockCipherOk] (AES), [RSA], [NetLib] and [NetLibOk]
      (sockets, TLS, websockets, KCP, QUIC), [Web] (HTTP, JSON, ZIP), [MapOrder] (the order
      in which Go walks a map).  Witnesses use concrete instances ([stored_zlib],
      [toy_cipher], [sim_net], [one_page], [some_order]).
    - Goroutines are transition systems: a program counter per goroutine, one step per
      action on shared state, and any interleaving of the steps.
    - SHA-1, SHA-256, HMAC, the address functions of the Go library, the [strings] package
      and [bufio.Scanner] are defined as their standards and documentation say ([Hash.v],
      [Auth.v], [Socks5.v], [GoStrings.v]) and tested on examples.

    ** Files

    - [Prelude.v], [GoInt.v], [GoStrings.v], [GoIO.v]: outcomes and monad, machine integers,
      text, streams.
    - [Pool.v]: [internal/pool.go].  State [Pool], the free arrays.
    - [VarInt.v]: [packet/varint.go], [internal/varint.go], [internal/reader.go].
    - [Types.v]: [packet/types.go], the [WriteTo] and [ReadFrom] of every type, each packed
      with its laws in a [Codec].
    - [Compress.v]: [compress/*.go].  State [ZPools], the pooled writers and readers.
    - [Packet.v]: [packet/packet.go].  State [World]: pool, zlib pools, input, output.
    - [Cfb8.v], [KeyExchange.v]: [crypto/*.go].  State [CFB8]; source and destination live
      in one memory [Mem], which may alias them.
    - [Handshake.v], [Auth.v], [Proxy.v]: [proxy/*.go] and the wrapper of the tunnel's
      dialer and listener.
    - [ProxyServer.v]: [Start], [Stop], [SetHandler] and the client goroutines of
      [proxy/proxy.go] as the transition system [srv_step]; the default handler.
    - [Socks5.v]: [transport/socks5.go] on a connection [Sock].
    - [Transport.v]: the other transports, the factory, the tunnel's dialer and listener.  A
      connection is a value of [Conn], a transport a record of the operations of the Go
      interface; [triple] reasons about the handles that are open.  The websocket listener
      is also the transition system [ws_step].
    - [Priority.v], [Flow.v], [Batch.v], [Metrics.v], [MineConn.v]: [conn/*.go].  [MineConn]
      combines packets, cipher, flow control and priorities.  The flow controller is
      also a transition system [flow_step] whose steps are the atomic actions of the
      goroutines.
    - [PrioritySys.v]: the callers of [PopBlock] beside producers, the transition system
      [pop_step].
    - [Mux.v]: [tunnel/mux.go].  State [Mux], a heap of streams and a table of references;
      every method is one step.
    - [MuxSys.v]: the two goroutines of a multiplexer and any number of callers as the
      transition system [mux_step], whose steps are the single actions of the methods.
    - [MuxLink.v]: two multiplexers on one connection.
    - [Relay.v]: one direction of the relays of [tunnel/relay.go], against the interface
      [PacketRW], which [MineConn] implements.
    - [RelaySys.v]: both directions of the byte relays ([relay_sys_step]) and of the packet
      relay ([packet_step]) as transition systems.
    - [ClassFile.v]: [tools/mcproto/classfile.go] and the choice of the identifier.
    - [Mappings.v]: [tools/mcproto/jar.go].  State [Disk], the cache of downloads.
    - [Extract.v]: [tools/mcproto/extract.go], [main.go], [fallback.go] and the generated
      [protocol/packetid/v1_21_4/types.go].
    - [Protocol.v]: [protocol/state.go], [protocol/direction.go].

    ** What is proved

    - Encodings: the unrolled VarInt encoders equal a base-128 reference, all decoders agree
      and invert them, every wire type round-trips, and what is read from any input is in
      the range of its type ([VarInt.v], [Types.v]).
    - Packets: reading refines a pure parser for every threshold, input, fragmentation and
      pool content, and returns for all of them; writing emits exactly the frame;
      sequences of packets round-trip; the inputs on which the reader panics are
      characterised ([Packet.v]).
    - Memory: buffers of the pool are never shared while clients return what they hold,
      once ([Pool.v]); decompression is bounded ([Compress.v]).
    - Cryptography: the two paths of the cipher equal one reference mode and decryption
      inverts encryption over any sequence of messages; the server hash is the signed
      hexadecimal digest ([Cfb8.v], [KeyExchange.v]).
    - Proxy: handshakes round-trip, parsing is safe on all packets, rewriting changes the
      host only; forwarding round-trips and validates; one client connection leads to at
      most one call of the handler and one close ([Handshake.v], [Auth.v], [Proxy.v]).
      The server's wait group is exact and a client's goroutine closes it once, under every
      interleaving, also on a listener that delivers after it was closed ([ProxyServer.v]).
    - Transport: what the SOCKS5 exchange sends decodes as the RFCs say ([Socks5.v]);
      a failed dial leaves no handle open and closing a connection gives back all of them,
      except for QUIC and TLS over QUIC, where the theorem says how many stay; websocket
      listeners account for every connection ([Transport.v]).
    - Connections: encrypted sessions are transparent, errors close once and hand the
      buffers back, queues keep their order, batching keeps the stream while the writes fit
      the buffer, the counters of flow control are exact under every interleaving, latency
      statistics are exact ([MineConn.v], [Priority.v],
      [Batch.v], [Flow.v], [Metrics.v]); packets through a batch writer round-trip, and a
      single blocking consumer of the queue is always woken ([Batch.v], [PrioritySys.v]).
    - Tunnels: frames round-trip, the stream table is consistent, channels stay within their
      capacities and are closed by exactly one goroutine under every interleaving, data
      reaches the stream it names, end to end; the byte relays are transparent in both directions,
      the end of one direction ends the other, and the packet relay closes each connection
      once ([Mux.v], [MuxSys.v], [MuxLink.v], [Relay.v], [RelaySys.v]).
    - Tools: class files are read back, the identifier is the least candidate, mappings are
      parsed exactly, the extraction returns the identifiers of exactly the packets whose
      class files have one, in order, and the constants of a generated file are those of the
      definitions ([ClassFile.v], [Mappings.v], [Extract.v],
      [Protocol.v]).
    - Some theorems state behaviour that the code's documentation does not announce: the
      reader's panic on a negative length, a wake-up that is lost, a relay that changes the
      packet, messages that share a keystream, data lost before a stream is accepted, handles
      that stay open, a [Stop] that misses a client, a relay that cuts off an answer.

    ** Bounds

    The packet limits are the code's own (2097152 bytes, framed and inflated).
    [ReadFull] runs at most one turn more than there are chunks; [PopBlock] needs two
    turns; [copy_loop] one per byte and chunk; [read_pool] one per constant; [itoa] writes
    at most 20 digits.  The interleavings of [flow_step] assume that the requests of all
    goroutines together stay below 2^63.

    ** What is not modelled

    The libraries behind [NetLib] and [Web], timers other than the tick of the batch writer,
    log output, [Utilization] (a floating-point quotient), the address and deadline methods
    of multiplexed streams and of [MineConn], which call the connection's, and the examples,
    which print and sleep.  Operations that hold a mutex are single steps.  Each connection
    has its own pool here; the code shares one.  What the receiver of a [ReadFrom] holds after
    an error is not modelled.  A panic of the packet relay is a final state of its goroutine,
    without the deferred calls.  The handles of [Transport.v] are those of
    one call by itself.

    ** Plan

    Next: opening and closing of streams in the end-to-end theorem of the multiplexer;
    encrypted sessions over the transports; one pool shared by several connections. *)

From stdpp Require Export base numbers option strings gmap list.

(** ** Errors, outcomes and the monad of effectful code *)

(** The error values of the program: the sixteen variables of
    [internal/errors.go], the [io] and [net] errors the code compares with or
    returns, and [ErrOther] for an error that only carries a message. *)
Inductive error :=
| ErrPacketTooLarge
| ErrInvalidPacketID
| ErrConnectionClosed
| ErrBufferOverflow
| ErrCompressionFailed
| ErrEncryptionFailed
| ErrHandshakeFailed
| ErrUnsupportedState
| ErrPacketTooShort
| ErrMalformedVarInt
| ErrMalformedVarLong
| ErrQueueFull
| ErrQueueEmpty
| ErrTimeout
| ErrInvalidTransport
| ErrProxyRejected
| EOF
| ErrUnexpectedEOF
| ErrClosed
| ErrOther (msg : string).

#[export] Instance error_eq_dec : EqDecision error.
Proof. solve_decision. Defined.

(** Run-time panics of Go. *)
Inductive panic :=
| IndexOutOfRange
| SliceOutOfRange
| MakeSliceLen
| ClosedChannel
| TypeAssertion
| PanicMsg (msg : string).

#[export] Instance panic_eq_dec : EqDecision panic.
Proof. solve_decision. Defined.

(** What a call does: return, return a non-nil error, panic, or block in the
    current state (a full channel, a held mutex, a condition not yet true). *)
Inductive outcome (A : Type) :=
| Ret (a : A)
| Err (e : error)
| Panic (p : panic)
| Block.
Arguments Ret {A} a.
Arguments Err {A} e.
Arguments Panic {A} p.
Arguments Block {A}.

#[export] Instance outcome_eq_dec `{EqDecision A} : EqDecision (outcome A).
Proof. solve_decision. Defined.

#[export] Instance outcome_ret : MRet outcome := λ A a, Ret a.
#[export] Instance outcome_bind : MBind outcome := λ A B f m,
  match m with
  | Ret a => f a
  | Err e => Err e
  | Panic p => Panic p
  | Block => Block
  end.

(** State passing with outcomes: the state survives errors, panics and
    blocking, as mutated memory does. *)
Definition M (S A : Type) : Type := S → outcome A * S.

#[export] Instance M_ret {S} : MRet (M S) := λ A a s, (Ret a, s).
#[export] Instance M_bind {S} : MBind (M S) := λ A B f m s,
  match m s with
  | (Ret a, s') => f a s'
  | (Err e, s') => (Err e, s')
  | (Panic p, s') => (Panic p, s')
  | (Block, s') => (Block, s')
  end.

Section primitives.
Context {S : Type}.

Definition get : M S S := λ s, (Ret s, s).
Definition put (s' : S) : M S () := λ _, (Ret (), s').
Definition gets {A} (f : S → A) : M S A := λ s, (Ret (f s), s).
Definition modify (f : S → S) : M S () := λ s, (Ret (), f s).
Definition fail {A} (e : error) : M S A := λ s, (Err e, s).
Definition crash {A} (p : panic) : M S A := λ s, (Panic p, s).
Definition block {A} : M S A := λ s, (Block, s).
Definition liftO {A} (o : outcome A) : M S A := λ s, (o, s).

(** [on_error m h]: the pattern [if err := m; err != nil { h; return err }]. *)
Definition on_error {A} (m : M S A) (h : M S ()) : M S A := λ s,
  match m s with
  | (Err e, s') =>
      match h s' with
      | (Ret _, s'') => (Err e, s'')
      | (Err e', s'') => (Err e', s'')
      | (Panic p, s'') => (Panic p, s'')
      | (Block, s'') => (Block, s'')
      end
  | r => r
  end.

(** [attempt m] gives the error back as a value, as Go's second result does. *)
Definition attempt {A} (m : M S A) : M S (A + error) := λ s,
  match m s with
  | (Ret a, s') => (Ret (inl a), s')
  | (Err e, s') => (Ret (inr e), s')
  | (Panic p, s') => (Panic p, s')
  | (Block, s') => (Block, s')
  end.
End primitives.

(** Running a computation on a part of a larger state. *)
Definition zoom {S T A} (proj : T → S) (upd : S → T → T) (m : M S A) : M T A := λ t,
  match m (proj t) with (o, s') => (o, upd s' t) end.

Definition returns {A} (o : outcome A) : bool :=
  match o with Ret _ => true | _ => false end.

(** ** Lemmas on the monad *)

Section bind_lemmas.
Context {S A B : Type}.
Implicit Types (m : M S A) (k : A → M S B).

Lemma bind_ret m k s a s' : m s = (Ret a, s') → (m ≫= k) s = k a s'.
Proof. intros H. unfold mbind, M_bind. by rewrite H. Qed.

Lemma bind_err m k s e s' : m s = (Err e, s') → (m ≫= k) s = (Err e, s').
Proof. intros H. unfold mbind, M_bind. by rewrite H. Qed.

Lemma bind_panic m k s p s' : m s = (Panic p, s') → (m ≫= k) s = (Panic p, s').
Proof. intros H. unfold mbind, M_bind. by rewrite H. Qed.

Lemma bind_block m k s s' : m s = (Block, s') → (m ≫= k) s = (Block, s').
Proof. intros H. unfold mbind, M_bind. by rewrite H. Qed.

Lemma bind_ret_inv m k s b s'' :
  (m ≫= k) s = (Ret b, s'') → ∃ a s', m s = (Ret a, s') ∧ k a s' = (Ret b, s'').
Proof. unfold mbind, M_bind. destruct (m s) as [[] s']; naive_solver. Qed.

Lemma on_error_ret (m : M S A) h s a s' : m s = (Ret a, s') → on_error m h s = (Ret a, s').
Proof. intros H. unfold on_error. by rewrite H. Qed.

Lemma on_error_err (m : M S A) h s e s' s'' :
  m s = (Err e, s') → h s' = (Ret (), s'') → on_error m h s = (Err e, s'').
Proof. intros H1 H2. unfold on_error. by rewrite H1, H2. Qed.
End bind_lemmas.

Lemma get_bind {S A} (k : S → M S A) s : (get ≫= k) s = k s s.
Proof. done. Qed.

Lemma bind_assoc {S A B C} (m : M S A) (f : A → M S B) (g : B → M S C) s :
  ((m ≫= f) ≫= g) s = (m ≫= (λ a, f a ≫= g)) s.
Proof. unfold mbind, M_bind. by destruct (m s) as [[] ?]. Qed.

(** [mstep] evaluates the next bind of a goal [(m ≫= k) s = _] whose head has a
    known result in the context or by computation. *)
Ltac mstep :=
  first
    [ erewrite bind_ret; [ | first [eassumption | reflexivity] ]
    | erewrite bind_err; [ | first [eassumption | reflexivity] ]
    | erewrite bind_panic; [ | first [eassumption | reflexivity] ] ].

(** ** Lists *)

Create Rewrite HintDb golist.
#[export] Hint Rewrite @length_app @length_take @length_drop @length_replicate
  @length_insert @length_fmap @length_nil @length_cons : golist.

(** [llia]: linear arithmetic after the length equations. *)
Ltac llia := autorewrite with golist in *; simpl length in *; lia.

Section lists.
Context {A : Type}.
Implicit Types l k : list A.

Lemma take_app_exact l k n : n = length l → take n (l ++ k) = l.
Proof. intros ->. apply take_app_length. Qed.

Lemma drop_app_exact l k n : n = length l → drop n (l ++ k) = k.
Proof. intros ->. apply drop_app_length. Qed.

Lemma take_take_length l n : take (length (take n l)) l = take n l.
Proof. rewrite length_take. rewrite <- take_take. by rewrite firstn_all. Qed.

Lemma drop_take_length l n : drop (length (take n l)) l = drop n l.
Proof.
  rewrite length_take. destruct (decide (n ≤ length l)); [f_equal; lia|].
  by rewrite !drop_ge by lia.
Qed.

Lemma length_concat_app (ls : list (list A)) l :
  length (concat (ls ++ [l])) = length (concat ls) + length l.
Proof. rewrite concat_app. simpl. rewrite app_nil_r. apply length_app. Qed.

Lemma concat_snoc (ls : list (list A)) l : concat (ls ++ [l]) = concat ls ++ l.
Proof. rewrite concat_app. simpl. by rewrite app_nil_r. Qed.
End lists.

(** ** Sums over lists *)

Section sums.
#[local] Open Scope Z_scope.

Definition zsum {A} (f : A → Z) (l : list A) : Z := foldr (λ x a, f x + a) 0 l.

Lemma zsum_insert {A} (f : A → Z) l i x y :
  l !! i = Some x → zsum f (<[i := y]> l) = zsum f l - f x + f y.
Proof.
  revert i. induction l as [|z l IH]; intros [|i] Hi; simplify_eq/=; [lia|].
  rewrite IH by done. lia.
Qed.

Lemma zsum_range {A} (f : A → Z) l S :
  Forall (λ x, 0 ≤ f x ≤ S) l → 0 ≤ zsum f l ≤ Z.of_nat (length l) * S.
Proof. induction 1 as [|x l Hx _ IH]; cbn [zsum foldr length] in *; [lia|]. unfold zsum in IH. lia. Qed.

Lemma zsum_elem {A} (f : A → Z) l i x :
  Forall (λ x, 0 ≤ f x) l → l !! i = Some x → f x ≤ zsum f l.
Proof.
  intros Hl. revert i. induction Hl as [|z l Hz Hl IH]; intros i Hi; [done|].
  assert (0 ≤ zsum f l) by (clear -Hl; induction Hl; simpl; lia).
  destruct i as [|i]; simplify_eq/=; [lia|]. apply IH in Hi. lia.
Qed.

Lemma zsum_elem2 {A} (f : A → Z) l i j x y :
  Forall (λ x, 0 ≤ f x) l → i ≠ j → l !! i = Some x → l !! j = Some y → f x + f y ≤ zsum f l.
Proof.
  intros Hl. revert i j. induction Hl as [|z l Hz Hl IH]; intros i j Hne Hi Hj; [done|].
  destruct i as [|i], j as [|j]; simplify_eq/=; try done.
  - pose proof (zsum_elem f l j y Hl Hj). lia.
  - pose proof (zsum_elem f l i x Hl Hi). lia.
  - specialize (IH i j ltac:(lia) Hi Hj). lia.
Qed.

Lemma zsum_app {A} (f : A → Z) l k : zsum f (l ++ k) = zsum f l + zsum f k.
Proof. unfold zsum. induction l as [|x l IH]; cbn [foldr app]; [lia|]. rewrite IH. lia. Qed.

Lemma zsum_snoc (l : list Z) n : zsum id (l ++ [n]) = zsum id l + n.
Proof. rewrite zsum_app. change (zsum id [n]) with (n + 0). lia. Qed.
End sums.

(** [splitM]: case analysis on every match of the goal or the context. *)
Ltac case_all := repeat (case_match; simplify_eq/=).
