(* ===== verification/GoInt.v ===== *)
(** * Bytes and machine integers of Go

    [byte] is the 256-valued type of the standard library; the other integer
    types are [Z] with the wrap-around of their width written out: [uwrap w] for
    the unsigned types, [swrap w] for the signed ones.  The last part models the
    [encoding/binary] big-endian accessors. *)

From Stdlib Require Export Strings.Byte ZArith.
From S2P Require Export Prelude.
#[local] Open Scope Z_scope.

(** ** Bytes *)

(** Conversion [T(b)] of a byte to a wider integer type. *)
Definition ubyte (b : byte) : Z := Z.of_N (Byte.to_N b).

(** Conversion [byte(x)], which keeps the low eight bits. *)
Definition to_byte (z : Z) : byte :=
  match Byte.of_N (Z.to_N (z mod 256)) with
  | Some b => b
  | None => x00
  end.

#[export] Instance byte_eq_dec : EqDecision byte := Byte.byte_eq_dec.
#[export] Instance byte_inhabited : Inhabited byte := populate x00.

(** ** Integers of a given width *)

Definition uwrap (w z : Z) : Z := z mod 2 ^ w.
Definition swrap (w z : Z) : Z := (z + 2 ^ (w - 1)) mod 2 ^ w - 2 ^ (w - 1).

Abbreviation u8 := (uwrap 8).
Abbreviation u16 := (uwrap 16).
Abbreviation u32 := (uwrap 32).
Abbreviation u64 := (uwrap 64).
Abbreviation s8 := (swrap 8).
Abbreviation s16 := (swrap 16).
Abbreviation s32 := (swrap 32).
Abbreviation s64 := (swrap 64).

Definition is_uint (w z : Z) : Prop := 0 ≤ z < 2 ^ w.
Definition is_int (w z : Z) : Prop := - 2 ^ (w - 1) ≤ z < 2 ^ (w - 1).

#[export] Instance is_uint_dec w z : Decision (is_uint w z).
Proof. unfold is_uint. apply _. Defined.
#[export] Instance is_int_dec w z : Decision (is_int w z).
Proof. unfold is_int. apply _. Defined.

(** ** Big-endian accessors of [encoding/binary] *)

(** [PutUint16/32/64]: [n] bytes, the most significant first. *)
Fixpoint be_put (n : nat) (z : Z) : list byte :=
  match n with
  | O => []
  | S n' => to_byte (Z.shiftr z (8 * Z.of_nat n')) :: be_put n' z
  end.

(** [Uint16/32/64] on a slice of exactly that many bytes. *)
Definition be_get (l : list byte) : Z :=
  foldl (λ acc b, Z.lor (Z.shiftl acc 8) (ubyte b)) 0 l.

(** ** Lemmas *)

Lemma ubyte_range b : 0 ≤ ubyte b < 256.
Proof.
  unfold ubyte. pose proof (Byte.to_N_bounded b). lia.
Qed.

Lemma ubyte_to_byte z : ubyte (to_byte z) = z mod 256.
Proof.
  unfold to_byte, ubyte. pose proof (Z.mod_pos_bound z 256 eq_refl).
  destruct (Byte.of_N _) as [b|] eqn:E.
  - apply Byte.to_of_N in E. rewrite E. lia.
  - apply Byte.of_N_None_iff in E. lia.
Qed.

Lemma to_byte_ubyte b : to_byte (ubyte b) = b.
Proof.
  unfold to_byte. rewrite Z.mod_small by apply ubyte_range.
  unfold ubyte. rewrite N2Z.id. by rewrite Byte.of_to_N.
Qed.

#[export] Instance ubyte_inj : Inj (=) (=) ubyte.
Proof. intros a b E. by rewrite <- (to_byte_ubyte a), E, to_byte_ubyte. Qed.

Lemma to_byte_eq z1 z2 : z1 mod 256 = z2 mod 256 → to_byte z1 = to_byte z2.
Proof. intros E. apply (inj ubyte). by rewrite !ubyte_to_byte. Qed.

Lemma ubyte_to_byte_small z : 0 ≤ z < 256 → ubyte (to_byte z) = z.
Proof. intros. rewrite ubyte_to_byte. by apply Z.mod_small. Qed.

Section widths.
Context (w : Z) (Hw : 0 < w).

Lemma pow_half : 2 ^ w = 2 * 2 ^ (w - 1).
Proof. rewrite <- Z.pow_succ_r by lia. f_equal. lia. Qed.

Lemma pow_half_pos : 0 < 2 ^ (w - 1).
Proof. apply Z.pow_pos_nonneg; lia. Qed.

Lemma uwrap_range z : is_uint w (uwrap w z).
Proof. apply Z.mod_pos_bound. lia. Qed.

Lemma uwrap_id z : is_uint w z → uwrap w z = z.
Proof. apply Z.mod_small. Qed.

Lemma swrap_range z : is_int w (swrap w z).
Proof.
  unfold is_int, swrap. pose proof pow_half. pose proof pow_half_pos.
  pose proof (Z.mod_pos_bound (z + 2 ^ (w - 1)) (2 ^ w)). lia.
Qed.

Lemma swrap_id z : is_int w z → swrap w z = z.
Proof.
  unfold is_int, swrap. intros. pose proof pow_half.
  rewrite Z.mod_small by lia. lia.
Qed.

Lemma swrap_uwrap z : swrap w (uwrap w z) = swrap w z.
Proof. unfold swrap, uwrap. by rewrite Zplus_mod_idemp_l. Qed.

Lemma uwrap_swrap z : uwrap w (swrap w z) = uwrap w z.
Proof.
  unfold swrap, uwrap. rewrite Zminus_mod_idemp_l. f_equal. lia.
Qed.

Lemma uwrap_inj_int a b : is_int w a → is_int w b → uwrap w a = uwrap w b → a = b.
Proof.
  intros Ha Hb E. rewrite <- (swrap_id a), <- (swrap_id b) by done.
  by rewrite <- (swrap_uwrap a), E, swrap_uwrap.
Qed.

Lemma swrap_mod z : swrap w z = uwrap w z ∨ swrap w z = uwrap w z - 2 ^ w.
Proof.
  pose proof (swrap_range z) as [? ?]. pose proof (uwrap_range z) as [? ?].
  pose proof (uwrap_swrap z) as E. pose proof pow_half. pose proof pow_half_pos.
  destruct (decide (0 ≤ swrap w z)).
  - left. rewrite <- E. symmetry. apply uwrap_id. unfold is_uint; lia.
  - right. rewrite <- E. unfold uwrap.
    rewrite <- (Z.mod_unique (swrap w z) (2 ^ w) (-1) (swrap w z + 2 ^ w)); lia.
Qed.
End widths.

(** Bits of the wrapped values. *)
Lemma testbit_uwrap w z i :
  0 ≤ w → 0 ≤ i → Z.testbit (uwrap w z) i = (i <? w) && Z.testbit z i.
Proof.
  intros Hw Hi. unfold uwrap. destruct (Z.ltb_spec i w).
  - by apply Z.mod_pow2_bits_low.
  - by apply Z.mod_pow2_bits_high; lia.
Qed.

Lemma uwrap_lor w a b : 0 ≤ w → uwrap w (Z.lor a b) = Z.lor (uwrap w a) (uwrap w b).
Proof.
  intros Hw. apply Z.bits_inj'. intros i Hi.
  rewrite Z.lor_spec, !testbit_uwrap, Z.lor_spec by done. by destruct (i <? w).
Qed.

(** A value fits in a signed type when all bits from the sign bit on agree. *)
Lemma is_int_shiftr w z :
  0 < w → is_int w z ↔ Z.shiftr z (w - 1) = 0 ∨ Z.shiftr z (w - 1) = -1.
Proof.
  intros Hw. unfold is_int. rewrite Z.shiftr_div_pow2 by lia.
  pose proof (pow_half_pos w Hw).
  pose proof (Z.div_mod z (2 ^ (w - 1)) ltac:(lia)).
  pose proof (Z.mod_pos_bound z (2 ^ (w - 1)) ltac:(lia)). nia.
Qed.

Lemma is_int_lor w a b : 0 < w → is_int w a → is_int w b → is_int w (Z.lor a b).
Proof.
  intros Hw. rewrite !is_int_shiftr, Z.shiftr_lor by done.
  intros [-> | ->] [-> | ->]; simpl; auto.
Qed.

(** [|=] on a signed type is [|=] on the untruncated values followed by one
    truncation. *)
Lemma swrap_lor w a b : 0 < w → swrap w (Z.lor a b) = Z.lor (swrap w a) (swrap w b).
Proof.
  intros Hw. apply (uwrap_inj_int w Hw).
  - by apply swrap_range.
  - apply is_int_lor; [done| |]; by apply swrap_range.
  - rewrite (uwrap_lor w (swrap w a)) by lia. rewrite !uwrap_swrap by done.
    by apply uwrap_lor; lia.
Qed.

(** [|] of a low part and a shifted high part is their sum. *)
Lemma lor_shiftl_add a b k :
  0 ≤ k → 0 ≤ a < 2 ^ k → Z.lor a (Z.shiftl b k) = a + b * 2 ^ k.
Proof.
  intros Hk Ha. rewrite <- Z.shiftl_mul_pow2 by done.
  rewrite <- Z.add_lor_land.
  enough (Z.land a (Z.shiftl b k) = 0) as -> by lia.
  apply Z.bits_inj'. intros i Hi. rewrite Z.land_spec, Z.bits_0.
  destruct (Z_lt_dec i k).
  - rewrite (Z.shiftl_spec_low b) by lia. apply andb_false_r.
  - rewrite <- (Z.mod_small a (2 ^ k)) by done.
    by rewrite Z.mod_pow2_bits_high by lia.
Qed.

Lemma land_ones_mod z k m : 0 ≤ k → m = 2 ^ k - 1 → Z.land z m = z mod 2 ^ k.
Proof. intros Hk ->. rewrite <- Z.land_ones by done. by rewrite Z.ones_equiv. Qed.

Lemma land_127 z : Z.land z 127 = z mod 128.
Proof. by rewrite (land_ones_mod z 7). Qed.

(** ** Big-endian round trips *)

Lemma length_be_put n z : length (be_put n z) = n.
Proof. induction n; simpl; auto. Qed.

Lemma be_get_snoc l b : be_get (l ++ [b]) = be_get l * 256 + ubyte b.
Proof.
  unfold be_get. rewrite foldl_app. cbn [foldl]. pose proof (ubyte_range b) as Hb.
  rewrite Z.lor_comm, lor_shiftl_add by (try change (2 ^ 8) with 256; lia).
  change (2 ^ 8) with 256. lia.
Qed.

Lemma be_get_app l1 l2 :
  be_get (l1 ++ l2) = be_get l1 * 2 ^ (8 * Z.of_nat (length l2)) + be_get l2
  ∧ 0 ≤ be_get l2 < 2 ^ (8 * Z.of_nat (length l2)).
Proof.
  induction l2 as [|b l2 [IH1 IH2]] using rev_ind.
  - rewrite app_nil_r. change (2 ^ (8 * Z.of_nat (length []))) with 1.
    change (be_get []) with 0. lia.
  - rewrite app_assoc, !be_get_snoc, IH1, length_app. simpl length.
    pose proof (ubyte_range b) as Hb.
    replace (8 * Z.of_nat (length l2 + 1)) with (8 * Z.of_nat (length l2) + 8) by lia.
    rewrite Z.pow_add_r by lia. lia.
Qed.

Lemma be_get_range l : is_uint (8 * Z.of_nat (length l)) (be_get l).
Proof. apply (be_get_app [] l). Qed.

Lemma be_get_cons b l :
  be_get (b :: l) = ubyte b * 2 ^ (8 * Z.of_nat (length l)) + be_get l.
Proof. apply (be_get_app [b] l). Qed.

Lemma be_get_put n z : be_get (be_put n z) = z mod 2 ^ (8 * Z.of_nat n).
Proof.
  induction n as [|n IH]; [by rewrite Z.mod_1_r|].
  cbn [be_put]. rewrite be_get_cons, IH, length_be_put, ubyte_to_byte.
  replace (8 * Z.of_nat (S n)) with (8 * Z.of_nat n + 8) by lia.
  rewrite Z.pow_add_r, Z.shiftr_div_pow2, Z.rem_mul_r by lia. change (2 ^ 8) with 256. lia.
Qed.

(** Bits above the encoded width are ignored. *)
Lemma be_put_high n m h z :
  (n ≤ m)%nat → be_put n (h * 2 ^ (8 * Z.of_nat m) + z) = be_put n z.
Proof.
  intros Hm. induction n as [|n IH]; [done|]. cbn [be_put]. f_equal; [|apply IH; lia].
  apply to_byte_eq. rewrite !Z.shiftr_div_pow2 by lia.
  replace (8 * Z.of_nat m) with (8 * Z.of_nat (m - S n) + 8 + 8 * Z.of_nat n) by lia.
  rewrite !Z.pow_add_r by lia. change (2 ^ 8) with 256.
  rewrite Z.mul_assoc, Z.div_add_l, Z.mul_assoc by lia.
  by rewrite Z.add_comm, Z_mod_plus_full.
Qed.

Lemma be_put_get l n : length l = n → be_put n (be_get l) = l.
Proof.
  intros <-. induction l as [|b l IH]; [done|]. simpl length. cbn [be_put].
  rewrite be_get_cons. pose proof (be_get_range l) as Hr. unfold is_uint in Hr.
  f_equal.
  - rewrite Z.shiftr_div_pow2, Z.div_add_l, Z.div_small by lia.
    rewrite Z.add_0_r. apply to_byte_ubyte.
  - by rewrite be_put_high.
Qed.

(** The signed reading of an unsigned field, as in [int64(binary.BigEndian.Uint64(b))]. *)
Lemma swrap_be_get_put w n z :
  w = 8 * Z.of_nat n → 0 < w → is_int w z → swrap w (be_get (be_put n z)) = z.
Proof.
  intros -> Hw Hz. rewrite be_get_put. fold (uwrap (8 * Z.of_nat n) z).
  rewrite swrap_uwrap by done. by apply swrap_id.
Qed.

Lemma be_put_uwrap n z : be_put n (uwrap (8 * Z.of_nat n) z) = be_put n z.
Proof.
  rewrite <- (be_put_get (be_put n z) n) by apply length_be_put.
  by rewrite be_get_put.
Qed.

#[global] Arguments be_put : simpl never.

(** ** Exclusive or of bytes *)

Definition bxor (a b : byte) : byte := to_byte (Z.lxor (ubyte a) (ubyte b)).

Lemma lxor_range a b : 0 ≤ a < 256 → 0 ≤ b < 256 → 0 ≤ Z.lxor a b < 256.
Proof.
  intros Ha Hb. assert (0 ≤ Z.lxor a b) by (apply Z.lxor_nonneg; lia). split; [done|].
  destruct (decide (Z.lxor a b = 0)) as [->|]; [lia|]. apply (Z.log2_lt_pow2 _ 8); [lia|].
  pose proof (Z.log2_lxor a b). pose proof (Z.log2_lt_pow2 a 8). pose proof (Z.log2_lt_pow2 b 8).
  destruct (decide (a = 0)) as [->|]; destruct (decide (b = 0)) as [->|]; simpl in *; lia.
Qed.

Lemma bxor_cancel a b : bxor (bxor a b) b = a.
Proof.
  unfold bxor. rewrite ubyte_to_byte_small by (apply lxor_range; apply ubyte_range).
  by rewrite Z.lxor_assoc, Z.lxor_nilpotent, Z.lxor_0_r, to_byte_ubyte.
Qed.

Lemma bxor_comm a b : bxor a b = bxor b a.
Proof. unfold bxor. by rewrite Z.lxor_comm. Qed.

Lemma bxor_assoc a b c : bxor (bxor a b) c = bxor a (bxor b c).
Proof.
  unfold bxor. rewrite !ubyte_to_byte_small by (apply lxor_range; apply ubyte_range).
  by rewrite Z.lxor_assoc.
Qed.

Lemma bxor_inj a b c : bxor a b = bxor a c → b = c.
Proof. intros E. by rewrite <- (bxor_cancel b a), (bxor_comm b), E, (bxor_comm a), bxor_cancel. Qed.
