(* ===== verification/GoStrings.v ===== *)
(** * Text: the [strings] package and [bufio.Scanner]

    Strings are lists of bytes, as Go's are.  The functions of the [strings] package
    the program calls, with the separators it passes (single bytes for [Split] and
    [ReplaceAll]), and the line scanner with its limit on the length of a line. *)

From S2P Require Export GoInt.

(** ASCII text as bytes. *)
Definition str (s : string) : list byte := String.list_byte_of_string s.

#[export] Instance byte_countable : Countable byte.
Proof.
  apply (inj_countable' Byte.to_N (λ n, default x00 (Byte.of_N n))). intros b. by rewrite Byte.of_to_N.
Defined.

(** ** Prefixes, suffixes and substrings *)

Definition HasPrefix (s p : list byte) : bool := bool_decide (take (length p) s = p).
Definition HasSuffix (s p : list byte) : bool := bool_decide (drop (length s - length p) s = p).
Definition TrimPrefix (s p : list byte) : list byte := if HasPrefix s p then drop (length p) s else s.
Definition TrimSuffix (s p : list byte) : list byte := if HasSuffix s p then take (length s - length p) s else s.

(** [strings.Index], [None] for -1. *)
Fixpoint Index (s sub : list byte) : option nat :=
  if HasPrefix s sub then Some O
  else match s with [] => None | _ :: s' => S <$> Index s' sub end.

Definition Contains (s sub : list byte) : bool := bool_decide (is_Some (Index s sub)).

(** [strings.Split(s, sep)] for a separator of one byte: never empty. *)
Fixpoint Split (s : list byte) (sep : byte) : list (list byte) :=
  match s with
  | [] => [[]]
  | b :: s' =>
      if decide (b = sep) then [] :: Split s' sep
      else match Split s' sep with [] => [[b]] | p :: ps => (b :: p) :: ps end
  end.

(** [strings.ReplaceAll(s, old, new)] for single bytes. *)
Definition ReplaceAll (s : list byte) (old new : byte) : list byte :=
  (λ b, if decide (b = old) then new else b) <$> s.

(** ** Lines *)

(** [bufio.MaxScanTokenSize] *)
Definition MaxScanTokenSize : nat := Z.to_nat 65536.

Definition dropCR (l : list byte) : list byte :=
  match last l with Some x0d => take (length l - 1) l | _ => l end.

(** The bytes up to the first newline and, when there is one, the rest. *)
Fixpoint cut_line (s : list byte) : list byte * option (list byte) :=
  match s with
  | [] => ([], None)
  | b :: s' => if decide (b = x0a) then ([], Some s') else let '(l, r) := cut_line s' in (b :: l, r)
  end.

(** The tokens [Scan] delivers with [ScanLines], and whether it stops because a line and its
    newline do not fit the buffer. Each turn takes a byte at least. *)
Fixpoint scan_lines (fuel : nat) (s : list byte) : list (list byte) * bool :=
  match fuel, s with
  | O, _ => ([], false)
  | _, [] => ([], false)
  | S fuel', _ =>
      match cut_line s with
      | (l, Some rest) =>
          if (length l <? MaxScanTokenSize)%nat
          then let '(ls, e) := scan_lines fuel' rest in (dropCR l :: ls, e) else ([], true)
      | (l, None) => if (length l <? MaxScanTokenSize)%nat then ([dropCR l], false) else ([], true)
      end
  end.

Definition Lines (s : list byte) : list (list byte) * bool := scan_lines (S (length s)) s.

(** ** Numbers *)

(** The digits of [n] in a base, at most [k], without leading zeros. *)
Fixpoint digits_of (alphabet : list byte) (base : Z) (k : nat) (n : Z) : list byte :=
  match k with
  | O => []
  | S k' => (if (n <? base)%Z then [] else digits_of alphabet base k' (n / base)%Z)
            ++ [alphabet !!! Z.to_nat (n mod base)%Z]
  end.

(** The verb [%02X] on a 32-bit integer. *)
Definition fmt_02X (n : Z) : list byte :=
  let d := digits_of (str "0123456789ABCDEF") 16 8 (Z.abs n) in
  let d := if (n <? 0)%Z then x2d :: d else d in
  if (length d <? 2)%nat then x30 :: d else d.

(** ** Lemmas *)

Section text.
Implicit Types (s p r : list byte).

Lemma HasPrefix_app p r : HasPrefix (p ++ r) p = true.
Proof. unfold HasPrefix. rewrite take_app_length. by apply bool_decide_eq_true. Qed.

Lemma HasPrefix_true s p : HasPrefix s p = true → ∃ r, s = p ++ r.
Proof.
  unfold HasPrefix. rewrite bool_decide_eq_true. intros H. exists (drop (length p) s). by rewrite <- H at 1; rewrite take_drop.
Qed.

Lemma HasSuffix_app s p : HasSuffix (s ++ p) p = true.
Proof.
  unfold HasSuffix. apply bool_decide_eq_true. rewrite length_app, Nat.add_sub. apply drop_app_length.
Qed.

Lemma HasSuffix_true s p : HasSuffix s p = true → ∃ r, s = r ++ p.
Proof.
  unfold HasSuffix. rewrite bool_decide_eq_true. intros H. exists (take (length s - length p) s). by rewrite <- H at 2; rewrite take_drop.
Qed.

Lemma TrimPrefix_app p r : TrimPrefix (p ++ r) p = r.
Proof. unfold TrimPrefix. rewrite HasPrefix_app. apply drop_app_length. Qed.

Lemma TrimSuffix_app s p : TrimSuffix (s ++ p) p = s.
Proof. unfold TrimSuffix. rewrite HasSuffix_app, length_app, Nat.add_sub. apply take_app_length. Qed.

Lemma HasPrefix_head b s c p : b ≠ c → HasPrefix (b :: s) (c :: p) = false.
Proof. intros H. unfold HasPrefix. apply bool_decide_eq_false. cbn. congruence. Qed.

(** The first byte of the pattern does not occur before the place. *)
Lemma Index_skip a c p r : c ∉ a → Index (a ++ (c :: p) ++ r) (c :: p) = Some (length a).
Proof.
  induction a as [|b a IH]; intros Hc.
  - cbn [app length]. change (c :: p ++ r) with ((c :: p) ++ r). cbn [Index app].
    change (c :: p ++ r) with ((c :: p) ++ r). by rewrite HasPrefix_app.
  - apply not_elem_of_cons in Hc as [Hb Ha]. cbn [app Index]. rewrite HasPrefix_head by congruence.
    change (c :: p ++ r) with ((c :: p) ++ r). by rewrite IH.
Qed.

Lemma Index_none s c p : c ∉ s → Index s (c :: p) = None.
Proof.
  induction s as [|b s IH]; intros Hc; [done|]. apply not_elem_of_cons in Hc as [Hb Hs].
  cbn [Index]. rewrite HasPrefix_head by congruence. by rewrite IH.
Qed.

Lemma Contains_head b s c p : b ≠ c → Contains (b :: s) (c :: p) = Contains s (c :: p).
Proof.
  intros H. unfold Contains. cbn [Index]. rewrite HasPrefix_head by done. apply bool_decide_ext. by rewrite fmap_is_Some.
Qed.

Lemma Contains_prefix p r : Contains (p ++ r) p = true.
Proof.
  unfold Contains. apply bool_decide_eq_true. destruct (p ++ r) as [|b s] eqn:E; cbn [Index]; rewrite <- E, HasPrefix_app; by eexists.
Qed.

Lemma Split_none s c : c ∉ s → Split s c = [s].
Proof.
  induction s as [|b s IH]; intros Hc; [done|]. apply not_elem_of_cons in Hc as [Hb Hs].
  cbn [Split]. rewrite decide_False by congruence. by rewrite IH.
Qed.

Lemma Split_app s c r : c ∉ s → Split (s ++ c :: r) c = s :: Split r c.
Proof.
  induction s as [|b s IH]; intros Hc; cbn [app Split]; [by rewrite decide_True|].
  apply not_elem_of_cons in Hc as [Hb Hs]. rewrite decide_False by congruence. by rewrite IH.
Qed.

Lemma cut_line_app l r : x0a ∉ l → cut_line (l ++ x0a :: r) = (l, Some r).
Proof.
  induction l as [|b l IH]; intros Hl; cbn [app cut_line]; [by rewrite decide_True|].
  apply not_elem_of_cons in Hl as [Hb Hl]. rewrite decide_False by congruence. by rewrite IH.
Qed.

Lemma dropCR_id l : last l ≠ Some x0d → dropCR l = l.
Proof. unfold dropCR. intros H. destruct (last l) as [[]|]; done. Qed.

(** The lines of a text in which every line ends in a newline. *)
Definition line_ok l : Prop := (x0a ∉ l) ∧ last l ≠ Some x0d ∧ (length l < MaxScanTokenSize)%nat.

Definition unlines (ls : list (list byte)) : list byte := concat ((λ l, l ++ [x0a]) <$> ls).

Lemma scan_unlines ls : ∀ fuel, Forall line_ok ls → (length (unlines ls) < fuel)%nat → scan_lines fuel (unlines ls) = (ls, false).
Proof.
  induction ls as [|l ls IH]; intros fuel Hok Hf; [by destruct fuel|].
  apply Forall_cons_1 in Hok as [(Hn&Hcr&Hlen) Hok]. unfold unlines in *. rewrite fmap_cons in *. cbn [concat] in *.
  rewrite <- app_assoc in *. cbn [app] in *. rewrite length_app in Hf. cbn [length] in Hf.
  destruct fuel as [|fuel]; [lia|]. destruct (l ++ x0a :: _) as [|b s] eqn:E; [by destruct l|]. cbn [scan_lines].
  rewrite <- E, cut_line_app by done. rewrite (proj2 (Nat.ltb_lt _ _)) by done.
  rewrite IH by (done || lia). by rewrite dropCR_id.
Qed.

(** A line that does not fit the buffer ends the scan. *)
Lemma scan_too_long ls long rest : ∀ fuel,
  Forall line_ok ls → x0a ∉ long → (MaxScanTokenSize ≤ length long)%nat →
  (length (unlines ls) < fuel)%nat → scan_lines fuel (unlines ls ++ long ++ rest) = (ls, true).
Proof.
  assert (Hpos : (0 < MaxScanTokenSize)%nat) by (unfold MaxScanTokenSize; lia).
  induction ls as [|l ls IH]; intros fuel Hok Hn Hlen Hf.
  - destruct fuel as [|fuel]; [simpl in Hf; lia|]. change (unlines []) with ([] : list byte). cbn [app].
    destruct long as [|b long]; [simpl in Hlen; lia|]. cbn [scan_lines app]. change (b :: long ++ rest) with ((b :: long) ++ rest).
    assert (Hge : (MaxScanTokenSize ≤ length (cut_line ((b :: long) ++ rest)).1)%nat).
    { transitivity (length (b :: long)); [done|]. clear Hlen. generalize dependent (b :: long). intros l Hl.
      induction l as [|c l IHl]; cbn [app cut_line length]; [lia|]. apply not_elem_of_cons in Hl as [Hc Hl].
      rewrite decide_False by congruence. specialize (IHl Hl). destruct (cut_line (l ++ rest)). simpl in *. lia. }
    destruct (cut_line _) as [l [r|]]; simpl in Hge; by rewrite (proj2 (Nat.ltb_ge _ _)).
  - apply Forall_cons_1 in Hok as [(Hnl&Hcr&Hll) Hok]. unfold unlines in *. rewrite fmap_cons in *. cbn [concat] in *.
    rewrite <- !app_assoc in *. cbn [app] in *. rewrite length_app in Hf. cbn [length] in Hf.
    destruct fuel as [|fuel]; [lia|]. destruct (l ++ (x0a :: _)) as [|b s] eqn:E; [by destruct l|]. cbn [scan_lines].
    rewrite <- E, cut_line_app by done. rewrite (proj2 (Nat.ltb_lt _ _)) by done.
    rewrite IH by (done || lia). by rewrite dropCR_id.
Qed.

Lemma Contains_weaken s p q : Contains s (p ++ q) = true → Contains s p = true.
Proof.
  unfold Contains. rewrite !bool_decide_eq_true.
  assert (Hp : ∀ s, HasPrefix s (p ++ q) = true → HasPrefix s p = true).
  { intros s0 [r ->]%HasPrefix_true. rewrite <- app_assoc. apply HasPrefix_app. }
  induction s as [|b s IH]; cbn [Index].
  - destruct (HasPrefix [] (p ++ q)) eqn:E; [by rewrite (Hp _ E)|by intros []].
  - destruct (HasPrefix (b :: s) (p ++ q)) eqn:E; [by rewrite (Hp _ E)|].
    destruct (HasPrefix (b :: s) p); [by eexists|]. by rewrite !fmap_is_Some.
Qed.

Lemma Lines_unlines ls : Forall line_ok ls → Lines (unlines ls) = (ls, false).
Proof. intros H. apply scan_unlines; [done|lia]. Qed.
End text.
