(* ===== verification/GoIO.v ===== *)
(** * Readers and writers of the [io] package

    A [Reader] is the remaining input, cut into the chunks the successive
    [Read] calls will see, and the error that follows it; a [Writer] is the log
    of the [Write] calls with the outcomes planned for the next ones.  The
    equivalence [≡] on readers forgets the chunking; [respects] says that a
    computation cannot see it, [reads] that it consumes exactly some bytes,
    [writes] that it emits some bytes, on error a prefix of them. *)

From S2P Require Export GoInt.

(** ** Readers *)

Record Reader := mkReader {
  chunks : list (list byte);   (* what the next [Read] calls deliver *)
  rend : error;                (* the error after the last byte *)
  is_reader : bool;            (* whether the dynamic type has [Read] *)
}.

Definition rflat (r : Reader) : list byte := concat (chunks r).

Definition set_chunks (r : Reader) (cs : list (list byte)) : Reader :=
  mkReader cs (rend r) (is_reader r).

(** [Read(buf)] with [len(buf) = n]: at most one chunk, the error when none is left. *)
Definition Read (n : nat) : M Reader (list byte) := λ r,
  match chunks r with
  | [] => (Err (rend r), r)
  | c :: cs =>
      (Ret (take n c),
       set_chunks r (match drop n c with [] => cs | d => d :: cs end))
  end.

(** [ReadByte()] of an [io.ByteReader]. *)
Fixpoint pop_byte (cs : list (list byte)) : option (byte * list (list byte)) :=
  match cs with
  | [] => None
  | [] :: cs' => pop_byte cs'
  | (b :: c) :: cs' => Some (b, c :: cs')
  end.

Definition ReadByte : M Reader byte := λ r,
  match pop_byte (chunks r) with
  | Some (b, cs) => (Ret b, set_chunks r cs)
  | None => (Err (rend r), set_chunks r [])
  end.

(** The loop of [io.ReadAtLeast]: [need] bytes to go, [acc] the bytes so far. *)
Fixpoint read_loop (fuel need : nat) (acc : list byte) : M Reader (list byte) := λ r,
  match need, fuel with
  | O, _ => (Ret acc, r)
  | _, O => (Block, r)
  | _, S fuel' =>
      match Read need r with
      | (Ret bs, r') => read_loop fuel' (need - length bs) (acc ++ bs) r'
      | (Err e, r') =>
          (Err (match acc, e with [], _ => e | _, EOF => ErrUnexpectedEOF | _, _ => e end), r')
      | (Panic p, r') => (Panic p, r')
      | (Block, r') => (Block, r')
      end
  end.

(** [io.ReadFull(r, buf)] with [len(buf) = n]. Every [Read] but the last uses up
    a chunk, so one more step than there are chunks is enough. *)
Definition ReadFull (n : nat) : M Reader (list byte) := λ r,
  read_loop (S (length (chunks r))) n [] r.

(** [r.(io.Reader)] followed by [io.ReadFull]. *)
Definition ReadFullDyn (n : nat) : M Reader (list byte) := λ r,
  if is_reader r then ReadFull n r else (Panic TypeAssertion, r).

(** The error of a [ReadFull] that finds [got] bytes only. *)
Definition short_error (got : list byte) (e : error) : error :=
  match got, e with [], _ => e | _, EOF => ErrUnexpectedEOF | _, _ => e end.

#[export] Instance reader_equiv : Equiv Reader := λ r1 r2,
  rflat r1 = rflat r2 ∧ rend r1 = rend r2 ∧ is_reader r1 = is_reader r2.

(** The reader over [bs] in one piece, as [bytes.NewReader(bs)]. *)
Definition reader_of (bs : list byte) : Reader := mkReader [bs] EOF true.

Definition rest_of (r : Reader) (bs : list byte) : Reader :=
  set_chunks r [bs].

Definition respects {A} (m : M Reader A) : Prop :=
  ∀ r1 r2, r1 ≡ r2 → (m r1).1 = (m r2).1 ∧ (m r1).2 ≡ (m r2).2.

(** [reads m bs v]: from any input that starts with [bs], [m] returns [v] and
    leaves what follows [bs]. *)
Definition reads {A} (m : M Reader A) (bs : list byte) (v : A) : Prop :=
  ∀ r rest, is_reader r = true → rflat r = bs ++ rest →
    ∃ r', m r = (Ret v, r') ∧ r' ≡ rest_of r rest.

(** [stops m bs e]: on the input [bs] and nothing after it, [m] returns the
    error [e end], where [end] is the reader's own error. *)
Definition stops {A} (m : M Reader A) (bs : list byte) (e : error → error) : Prop :=
  ∀ r, is_reader r = true → rflat r = bs →
    ∃ r', m r = (Err (e (rend r)), r').

(** ** Writers *)

(** A planned failure [(k, e)] accepts at most [k] bytes and returns [e]. *)
Record Writer := mkWriter {
  wlog : list (list byte);                 (* the bytes of each call, oldest first *)
  wplan : list (option (nat * error));     (* the coming calls; exhausted: success *)
}.

Definition wout (w : Writer) : list byte := concat (wlog w).

Definition Write (bs : list byte) : M Writer (Z * option error) := λ w,
  match wplan w with
  | [] => (Ret (Z.of_nat (length bs), None), mkWriter (wlog w ++ [bs]) [])
  | None :: p => (Ret (Z.of_nat (length bs), None), mkWriter (wlog w ++ [bs]) p)
  | Some (k, e) :: p =>
      (Ret (Z.of_nat (length (take k bs)), Some e), mkWriter (wlog w ++ [take k bs]) p)
  end.

(** [writes m bs]: [m] reports the number of bytes it emitted, which are a prefix
    of [bs], all of it when it reports no error; and it reports none when no
    failure is planned. *)
Definition writes (m : M Writer (Z * option error)) (bs : list byte) : Prop :=
  ∀ w, ∃ n err w',
    m w = (Ret (Z.of_nat n, err), w')
    ∧ wout w' = wout w ++ take n bs
    ∧ (n ≤ length bs)%nat
    ∧ (err = None → n = length bs)
    ∧ (wplan w = [] → err = None ∧ wplan w' = []).

(** Two writes in a row, stopping at the first error and adding the counts. *)
Definition write_then (m1 m2 : M Writer (Z * option error)) : M Writer (Z * option error) :=
  '(n1, err1) ← m1;
  match err1 with
  | Some e => mret (n1, Some e)
  | None => '(n2, err2) ← m2; mret ((n1 + n2)%Z, err2)
  end.

(** ** Lemmas on readers *)

#[export] Instance reader_equivalence : Equivalence (≡@{Reader}).
Proof.
  split.
  - by intros r.
  - by intros r1 r2 (?&?&?).
  - intros r1 r2 r3 (?&?&?) (?&?&?). split_and!; by etrans.
Qed.

Lemma rflat_rest r bs : rflat (rest_of r bs) = bs.
Proof. unfold rflat. simpl. apply app_nil_r. Qed.

Lemma rest_of_equiv r r' bs :
  rflat r' = bs → rend r' = rend r → is_reader r' = is_reader r → r' ≡ rest_of r bs.
Proof. intros. split_and!; [by rewrite rflat_rest|done..]. Qed.

Lemma Read_spec n r c cs :
  chunks r = c :: cs →
  ∃ r', Read n r = (Ret (take n c), r')
    ∧ rflat r' = drop n c ++ concat cs
    ∧ (length (chunks r') ≤ length (c :: cs))%nat
    ∧ ((length c ≤ n)%nat → chunks r' = cs)
    ∧ rend r' = rend r ∧ is_reader r' = is_reader r.
Proof.
  intros H. unfold Read. rewrite H. eexists; split; [done|].
  destruct (drop n c) eqn:E; simpl; split_and!; try done; try lia.
  intros. by rewrite drop_ge in E.
Qed.

Lemma read_loop_spec fuel need acc r :
  (length (chunks r) < fuel)%nat →
  ∃ o r', read_loop fuel need acc r = (o, r')
    ∧ rend r' = rend r ∧ is_reader r' = is_reader r
    ∧ rflat r' = drop need (rflat r)
    ∧ o = if decide (need ≤ length (rflat r))%nat
          then Ret (acc ++ take need (rflat r))
          else Err (short_error (acc ++ rflat r) (rend r)).
Proof.
  revert need acc r. induction fuel as [|fuel IH]; intros need acc r Hf; [lia|].
  destruct need as [|need]; cbn [read_loop].
  { eexists _, r. split_and!; [done..|]. rewrite decide_True by lia.
    by rewrite take_0, app_nil_r. }
  destruct (chunks r) as [|c cs] eqn:Hc.
  { unfold Read. rewrite Hc. eexists _, r.
    assert (rflat r = []) as -> by (unfold rflat; by rewrite Hc).
    split_and!; [done..|]. rewrite decide_False by (simpl; lia).
    by rewrite app_nil_r. }
  destruct (Read_spec (S need) r c cs Hc) as (r'&->&Hflat&Hlen&Hall&He&Hi).
  assert (rflat r = c ++ concat cs) as Hr by (unfold rflat; by rewrite Hc).
  destruct (decide (length c ≤ S need)%nat) as [Hle|Hgt].
  - destruct (IH (S need - length (take (S need) c))%nat (acc ++ take (S need) c) r')
      as (o&r''&->&He'&Hi'&Hf'&Ho); [rewrite Hall by done; simpl in *; lia|].
    exists o, r''. split_and!; [done|congruence|congruence|..].
    + rewrite Hf', Hflat, Hr. rewrite (take_ge c), (drop_ge c) by done. simpl app.
      by rewrite drop_app_ge by done.
    + subst o. rewrite Hflat, Hr, He. rewrite (take_ge c), (drop_ge c) by done. simpl app.
      rewrite length_app. case_decide; case_decide; try lia.
      * f_equal. rewrite <- app_assoc. f_equal. by rewrite take_app_ge by done.
      * by rewrite <- app_assoc.
  - assert (Hl : length (take (S need) c) = S need) by (rewrite length_take; lia).
    rewrite Hl, Nat.sub_diag. eexists _, r'. split; [by destruct fuel|].
    split_and!; [done|done|rewrite Hflat, Hr; by rewrite drop_app_le by lia|].
    rewrite decide_True by (rewrite Hr, length_app; lia).
    rewrite Hr. by rewrite take_app_le by lia.
Qed.

(** [io.ReadFull] on the flat input. *)
Lemma ReadFull_spec n r :
  ∃ r', ReadFull n r =
      (if decide (n ≤ length (rflat r))%nat then Ret (take n (rflat r))
       else Err (short_error (rflat r) (rend r)), r')
    ∧ rflat r' = drop n (rflat r)
    ∧ rend r' = rend r ∧ is_reader r' = is_reader r.
Proof.
  unfold ReadFull.
  destruct (read_loop_spec (S (length (chunks r))) n [] r) as (o&r'&->&?&?&?&->); [lia|].
  exists r'. by case_decide.
Qed.

Lemma pop_byte_spec cs :
  match pop_byte cs with
  | Some (b, cs') => concat cs = b :: concat cs'
  | None => concat cs = []
  end.
Proof. induction cs as [|[|b c] cs IH]; simpl; [done|done|done]. Qed.

Lemma ReadByte_spec r :
  ∃ r', ReadByte r =
      (match rflat r with b :: _ => Ret b | [] => Err (rend r) end, r')
    ∧ rflat r' = drop 1 (rflat r)
    ∧ rend r' = rend r ∧ is_reader r' = is_reader r.
Proof.
  unfold ReadByte, rflat. pose proof (pop_byte_spec (chunks r)) as Hp.
  destruct (pop_byte (chunks r)) as [[b cs]|]; rewrite Hp;
    eexists; split_and!; try done; by rewrite drop_0.
Qed.

Lemma ReadFull_respects n : respects (ReadFull n).
Proof.
  intros r1 r2 (Hf&He&Hi).
  destruct (ReadFull_spec n r1) as (r1'&->&?&?&?).
  destruct (ReadFull_spec n r2) as (r2'&->&?&?&?). simpl.
  rewrite Hf, He. split; [done|]. split_and!; congruence.
Qed.

Lemma ReadFullDyn_respects n : respects (ReadFullDyn n).
Proof.
  intros r1 r2 Hr. unfold ReadFullDyn. pose proof Hr as (?&?&->).
  destruct (is_reader r2); [by apply ReadFull_respects|done].
Qed.

Lemma ReadByte_respects : respects ReadByte.
Proof.
  intros r1 r2 (Hf&He&Hi).
  destruct (ReadByte_spec r1) as (r1'&->&?&?&?).
  destruct (ReadByte_spec r2) as (r2'&->&?&?&?). simpl.
  rewrite Hf, He. split; [done|]. split_and!; congruence.
Qed.

Lemma ret_respects {A} (a : A) : respects (mret a).
Proof. by intros r1 r2. Qed.

Lemma fail_respects {A} e : respects (fail e : M Reader A).
Proof. by intros r1 r2. Qed.

Lemma crash_respects {A} p : respects (crash p : M Reader A).
Proof. by intros r1 r2. Qed.

Lemma bind_respects {A B} (m : M Reader A) (k : A → M Reader B) :
  respects m → (∀ a, respects (k a)) → respects (m ≫= k).
Proof.
  intros Hm Hk r1 r2 Hr. destruct (Hm r1 r2 Hr) as [H1 H2].
  unfold mbind, M_bind. destruct (m r1) as [o1 s1], (m r2) as [o2 s2]. simpl in *.
  subst o2. destruct o1; [by apply Hk|done..].
Qed.

Create HintDb respects.
#[export] Hint Resolve ReadFull_respects ReadFullDyn_respects ReadByte_respects ret_respects
  fail_respects crash_respects bind_respects : respects.

Lemma reads_ret {A} (v : A) : reads (mret v) [] v.
Proof.
  intros r rest Hi Hf. exists r. split; [done|]. by apply rest_of_equiv.
Qed.

Lemma reads_bind {A B} (m : M Reader A) (k : A → M Reader B) bs1 bs2 a b :
  reads m bs1 a → reads (k a) bs2 b → reads (m ≫= k) (bs1 ++ bs2) b.
Proof.
  intros Hm Hk r rest Hi Hf. rewrite <- app_assoc in Hf.
  destruct (Hm r _ Hi Hf) as (r1&Hr1&(Hf1&He1&Hi1)). rewrite rflat_rest in Hf1.
  simpl in *. destruct (Hk r1 rest) as (r2&Hr2&(Hf2&He2&Hi2)); [congruence|done|].
  exists r2. split; [by rewrite (bind_ret _ _ _ _ _ Hr1)|].
  rewrite rflat_rest in Hf2. simpl in *. apply rest_of_equiv; congruence.
Qed.

(** The last action of a reader, once its input is consumed. *)
Lemma reads_bind_nil {A B} (m : M Reader A) (k : A → M Reader B) bs a b :
  reads m bs a → reads (k a) [] b → reads (m ≫= k) bs b.
Proof. intros. rewrite <- (app_nil_r bs). by eapply reads_bind. Qed.

Lemma reads_ReadFull bs n : n = length bs → reads (ReadFull n) bs bs.
Proof.
  intros -> r rest Hi Hf. destruct (ReadFull_spec (length bs) r) as (r'&Hr&Hd&He&Hi').
  rewrite Hf in *. exists r'. rewrite Hr. rewrite length_app, decide_True by lia.
  rewrite take_app_length. split; [done|].
  apply rest_of_equiv; [|done..]. by rewrite Hd, drop_app_length.
Qed.

Lemma reads_ReadFullDyn bs n : n = length bs → reads (ReadFullDyn n) bs bs.
Proof.
  intros Hn r rest Hi Hf. unfold ReadFullDyn. rewrite Hi. by apply reads_ReadFull.
Qed.

Lemma reads_ReadByte b : reads ReadByte [b] b.
Proof.
  intros r rest Hi Hf. destruct (ReadByte_spec r) as (r'&Hr&Hd&He&Hi').
  rewrite Hf in *. exists r'. split; [done|]. by apply rest_of_equiv.
Qed.

(** Reading from a fresh reader over [bs ++ rest]. *)
Lemma reads_reader_of {A} (m : M Reader A) bs v :
  reads m bs v → (m (reader_of bs)).1 = Ret v ∧ rflat (m (reader_of bs)).2 = [].
Proof.
  intros H. destruct (H (reader_of bs) []) as (r'&->&(Hf&_)); [done|..].
  { unfold rflat. simpl. by rewrite !app_nil_r. }
  split; [done|]. by rewrite rflat_rest in Hf.
Qed.

(** ** Lemmas on writers *)

Lemma wout_snoc w bs p : wout (mkWriter (wlog w ++ [bs]) p) = wout w ++ bs.
Proof. apply concat_snoc. Qed.

Lemma writes_Write bs : writes (Write bs) bs.
Proof.
  intros w. unfold Write. destruct (wplan w) as [|[[k e]|] p].
  - exists (length bs), None. eexists. split; [done|].
    rewrite wout_snoc, firstn_all. by split_and!.
  - exists (length (take k bs)), (Some e). eexists. split; [done|].
    rewrite wout_snoc, take_take_length. split_and!; [done|rewrite length_take; lia|done|done].
  - exists (length bs), None. eexists. split; [done|].
    rewrite wout_snoc, firstn_all. by split_and!.
Qed.

Lemma writes_nil err : err = None → writes (mret (0%Z, err)) [].
Proof.
  intros -> w. exists O, None, w. split; [done|]. by rewrite app_nil_r.
Qed.

Lemma writes_then m1 m2 bs1 bs2 :
  writes m1 bs1 → writes m2 bs2 → writes (write_then m1 m2) (bs1 ++ bs2).
Proof.
  intros H1 H2 w. destruct (H1 w) as (n1&e1&w1&Hm1&Ho1&Hl1&He1&Hp1).
  unfold write_then. rewrite (bind_ret _ _ _ _ _ Hm1). destruct e1 as [e|].
  - exists n1, (Some e), w1. split; [done|]. rewrite length_app.
    split_and!; [by rewrite take_app_le|lia|done|]. intros Hp. by apply Hp1 in Hp as [??].
  - destruct (H2 w1) as (n2&e2&w2&Hm2&Ho2&Hl2&He2&Hp2).
    specialize (He1 eq_refl). subst n1.
    exists (length bs1 + n2)%nat, e2, w2.
    rewrite (bind_ret _ _ _ _ _ Hm2). split; [by rewrite Nat2Z.inj_add|].
    rewrite length_app, take_app_add'  by done. split_and!.
    + by rewrite Ho2, Ho1, firstn_all, app_assoc.
    + lia.
    + intros ->. by rewrite He2.
    + intros Hp. apply Hp1 in Hp as [_ Hp]. by apply Hp2.
Qed.

Create HintDb writes.
#[export] Hint Resolve writes_Write writes_nil writes_then : writes.
