(* ===== verification/Pool.v ===== *)
(** * The buffer pool ([internal/pool.go])

    A buffer is a slice that starts at its backing array: the identity of the
    array, the bytes of its whole capacity and the slice length.  The pool is the
    channel [bufPool]; buffers taken out of it still hold the bytes of their
    last use, so what a client does with them must not depend on the content. *)

From S2P Require Export GoIO.

Record Buf := mkBuf {
  arr : nat;          (* identity of the backing array *)
  mem : list byte;    (* the array, [cap] bytes *)
  blen : nat;         (* [len] *)
}.

Definition bcap (b : Buf) : nat := length (mem b).
Definition bytes (b : Buf) : list byte := take (blen b) (mem b).

(** Overwriting the bytes from offset [off] on. *)
Definition fill_at (b : Buf) (off : nat) (l : list byte) : Buf :=
  mkBuf (arr b) (take off (mem b) ++ l ++ drop (off + length l) (mem b)) (blen b).

(** [copy(b[off:], l)] *)
Definition copy_at (b : Buf) (off : nat) (l : list byte) : Buf :=
  fill_at b off (take (blen b - off) l).

(** [b[:n]] *)
Definition reslice (b : Buf) (n : Z) : outcome Buf :=
  if decide (0 ≤ n ≤ Z.of_nat (bcap b))%Z
  then Ret (mkBuf (arr b) (mem b) (Z.to_nat n)) else Panic SliceOutOfRange.

Definition DefaultBufferSize : Z := 1024.
Definition MaxPacketSize : Z := 0x200000.
Definition MaxCompressedSize : Z := 0x200000.
Definition BufferPoolMax : Z := Z.shiftl 1 20.
Definition bufPoolCap : nat := 64.

Record Pool := mkPool {
  free : list Buf;    (* the channel [bufPool], oldest first *)
  next : nat;         (* the next array identity *)
}.

Definition empty_pool : Pool := mkPool [] 0.

(** [make([]byte, n)] *)
Definition make_bytes (n : Z) : M Pool Buf := λ p,
  if decide (0 ≤ n)%Z
  then (Ret (mkBuf (next p) (replicate (Z.to_nat n) x00) (Z.to_nat n)),
        mkPool (free p) (S (next p)))
  else (Panic MakeSliceLen, p).

Definition GetBuffer (size : Z) : M Pool Buf := λ p,
  if decide (BufferPoolMax < size)%Z then make_bytes size p
  else match free p with
       | b :: rest =>
           if decide (size ≤ Z.of_nat (bcap b))%Z
           then (reslice b size, mkPool rest (next p))
           else make_bytes size (mkPool rest (next p))
       | [] => make_bytes size p
       end.

Definition PutBuffer (b : Buf) : M Pool () := λ p,
  if decide (BufferPoolMax < Z.of_nat (bcap b))%Z then (Ret (), p)
  else if decide (bcap b = 0) then (Ret (), p)
  else if decide (length (free p) < bufPoolCap)
       then (Ret (), mkPool (free p ++ [mkBuf (arr b) (mem b) (bcap b)]) (next p))
       else (Ret (), p).

(** [PooledBuffer]: [Buf] is nil after [Release]. *)
Record PooledBuffer := mkPooled { pbuf : option Buf }.

Definition NewPooledBuffer (size : Z) : M Pool PooledBuffer :=
  b ← GetBuffer size; mret (mkPooled (Some b)).

Definition PooledBuffer_Release (pb : PooledBuffer) : M Pool PooledBuffer :=
  match pbuf pb with
  | Some b => PutBuffer b;; mret (mkPooled None)
  | None => mret pb
  end.

(** ** Invariant and ownership *)

(** A pooled buffer is full length, of a capacity the pool accepts. *)
Definition pooled (b : Buf) : Prop :=
  blen b = bcap b ∧ (0 < Z.of_nat (bcap b) ≤ BufferPoolMax)%Z.

Definition pool_wf (p : Pool) : Prop :=
  length (free p) ≤ bufPoolCap
  ∧ Forall pooled (free p)
  ∧ NoDup (arr <$> free p)
  ∧ Forall (λ i, i < next p) (arr <$> free p).

(** [b] belongs to a client: allocated, and not in the pool. *)
Definition owned (p : Pool) (b : Buf) : Prop :=
  arr b < next p ∧ (arr b ∉ (arr <$> free p)).

Lemma empty_pool_wf : pool_wf empty_pool.
Proof. split_and!; simpl; [unfold bufPoolCap; lia|constructor..]. Qed.

Lemma pool_wf_cons b bs n :
  pool_wf (mkPool (b :: bs) n) →
  pooled b ∧ pool_wf (mkPool bs n) ∧ owned (mkPool bs n) b.
Proof.
  intros (Hl&Hp&Hd&Hn). cbn [free next] in *. rewrite fmap_cons in Hd, Hn.
  apply Forall_cons_1 in Hp as [??]. apply NoDup_cons in Hd as [??].
  apply Forall_cons_1 in Hn as [??]. unfold pool_wf, owned. simpl in *.
  split_and!; auto; lia.
Qed.

Lemma make_bytes_spec n p :
  (0 ≤ n)%Z → pool_wf p →
  ∃ b p', make_bytes n p = (Ret b, p')
    ∧ Z.of_nat (blen b) = n ∧ blen b ≤ bcap b ∧ pool_wf p' ∧ owned p' b
    ∧ (∀ b0, owned p b0 → owned p' b0 ∧ arr b0 ≠ arr b).
Proof.
  intros Hn (Hl&Hp&Hd&Hi). unfold make_bytes. rewrite decide_True by done.
  eexists _, _. split; [done|]. unfold bcap, owned, pool_wf. simpl. rewrite length_replicate.
  split_and!; try done; try lia.
  - eapply Forall_impl; [exact Hi|]. simpl. lia.
  - intros Hin. rewrite Forall_forall in Hi. specialize (Hi _ Hin). lia.
  - intros b0 [? ?]. split_and!; [lia|done|lia].
Qed.

(** A buffer obtained from the pool has the length that was asked for, whatever
    the pool holds, belongs to the caller alone, and differs from every buffer
    still in use. *)
Lemma GetBuffer_spec size p :
  (0 ≤ size)%Z → pool_wf p →
  ∃ b p', GetBuffer size p = (Ret b, p')
    ∧ Z.of_nat (blen b) = size ∧ blen b ≤ bcap b ∧ pool_wf p' ∧ owned p' b
    ∧ (∀ b0, owned p b0 → owned p' b0 ∧ arr b0 ≠ arr b).
Proof.
  intros Hs Hp. unfold GetBuffer. case_decide; [by apply make_bytes_spec|].
  destruct p as [[|b rest] n]; simpl; [by apply make_bytes_spec|].
  apply pool_wf_cons in Hp as (Hb&Hw&Ho).
  assert (Hsub : ∀ b0, owned (mkPool (b :: rest) n) b0 →
    owned (mkPool rest n) b0 ∧ arr b0 ≠ arr b).
  { intros b0 [? Hnin]. unfold owned. simpl in *. apply not_elem_of_cons in Hnin as [? ?]. done. }
  case_decide.
  - unfold reslice. rewrite decide_True by lia. eexists _, _. split; [done|].
    unfold bcap in *. simpl. split_and!; try done; try lia.
  - destruct (make_bytes_spec size (mkPool rest n)) as (b'&p'&->&?&?&?&?&Hn); [done..|].
    eexists _, _. split_and!; try done. intros b0 Hb0. by apply Hn, Hsub.
Qed.

(** A negative size is a panic, never an error. *)
Lemma GetBuffer_negative size p :
  (size < 0)%Z → pool_wf p → ∃ pc p', GetBuffer size p = (Panic pc, p') ∧ pool_wf p'
    ∧ (∀ b0, owned p b0 → owned p' b0).
Proof.
  intros Hs Hp. unfold GetBuffer, make_bytes. change BufferPoolMax with 1048576%Z. case_decide; [lia|].
  destruct p as [[|b rest] n]; simpl; [rewrite decide_False by lia; eauto|].
  apply pool_wf_cons in Hp as (_&Hw&_).
  assert (∀ b0, owned (mkPool (b :: rest) n) b0 → owned (mkPool rest n) b0).
  { intros b0 [? Hnin]. split; [done|]. by apply not_elem_of_cons in Hnin as [_ ?]. }
  case_decide; [|rewrite decide_False by lia; eauto].
  unfold reslice. rewrite decide_False by lia. eauto.
Qed.

(** Returning a buffer one owns keeps the pool well formed and other owners' buffers. *)
Lemma PutBuffer_spec b p :
  pool_wf p → owned p b →
  ∃ p', PutBuffer b p = (Ret (), p') ∧ pool_wf p' ∧ next p' = next p
    ∧ (∀ b0, owned p b0 → arr b0 ≠ arr b → owned p' b0).
Proof.
  intros Hp [Hb1 Hb2]. unfold PutBuffer.
  case_decide; [by exists p|]. case_decide; [by exists p|].
  case_decide; [|by exists p].
  eexists. split; [done|]. destruct Hp as (Hl&Hpl&Hd&Hi).
  unfold pool_wf, owned. simpl. rewrite fmap_app, length_app. simpl.
  unfold bufPoolCap in *. split_and!; try lia.
  - apply Forall_app. split; [done|]. apply Forall_singleton.
    unfold pooled, bcap in *. simpl. lia.
  - apply NoDup_app. split_and!; [done| |apply NoDup_singleton].
    intros i Hi1 ->%list_elem_of_singleton. by apply Hb2.
  - apply Forall_app. split; [done|]. by apply Forall_singleton.
  - intros b0 [? ?] Hne. split; [done|].
    by rewrite elem_of_app, list_elem_of_singleton; intros [?|?].
Qed.

(** [GetBuffer] takes at most the head of the pool, and hands out a buffer the pool
    accepts back exactly when the size asked for is within its limit. *)
Definition drawn (p : Pool) (b : Buf) (p' : Pool) : Prop :=
  ((Z.of_nat (blen b) ≤ BufferPoolMax)%Z
   ∧ (Z.of_nat (bcap b) ≤ BufferPoolMax)%Z ∧ free p' = tail (free p))
  ∨ ((BufferPoolMax < Z.of_nat (blen b))%Z ∧ free p' = free p).

Lemma make_bytes_exact n p b p' :
  make_bytes n p = (Ret b, p') → Z.of_nat (blen b) = n ∧ bcap b = blen b ∧ free p' = free p.
Proof.
  unfold make_bytes. case_decide; intros [= <- <-]. unfold bcap. simpl.
  rewrite length_replicate. split_and!; [lia|done..].
Qed.

Lemma GetBuffer_drawn size p b p' : pool_wf p → GetBuffer size p = (Ret b, p') → drawn p b p'.
Proof.
  intros (_&Hf&_). unfold GetBuffer, drawn. case_decide as Hs.
  { intros (?&?&?)%make_bytes_exact. right. split; [lia|done]. }
  destruct (free p) as [|b0 rest] eqn:E.
  { intros (?&?&Hfr)%make_bytes_exact. left. rewrite Hfr, E. split_and!; [lia..|done]. }
  apply Forall_cons_1 in Hf as [[_ ?] _]. case_decide.
  - unfold reslice. case_decide; intros [= <- <-]. unfold bcap in *. left. simpl in *. split_and!; [lia..|done].
  - intros (?&?&Hfr)%make_bytes_exact. left. rewrite Hfr. split_and!; [lia..|done].
Qed.

(** A buffer within the limits goes to the end of a pool that has room. *)
Lemma PutBuffer_back b p :
  (0 < bcap b) → (Z.of_nat (bcap b) ≤ BufferPoolMax)%Z → length (free p) < bufPoolCap →
  PutBuffer b p = (Ret (), mkPool (free p ++ [mkBuf (arr b) (mem b) (bcap b)]) (next p)).
Proof.
  intros. unfold PutBuffer. rewrite decide_False by lia. rewrite decide_False by lia.
  by rewrite decide_True by done.
Qed.

(** What a client that takes a buffer, fills its front with [l] and hands it back
    leaves of the pool: no pooled buffer is lost, and a buffer within the limit is
    back, at the end of the list, with [l] still in it. *)
Definition recycled (l : list byte) (p p' : Pool) : Prop :=
  length (free p) ≤ length (free p')
  ∧ ((0 < Z.of_nat (length l) ≤ BufferPoolMax)%Z →
     ∃ b, last (free p') = Some b ∧ l `prefix_of` mem b).

Lemma drawn_put l p b0 p1 b p2 :
  pool_wf p → drawn p b0 p1 → bcap b = bcap b0 → blen b0 ≤ bcap b0 → blen b0 = length l →
  0 < length l → l `prefix_of` mem b → PutBuffer b p1 = (Ret (), p2) → recycled l p p2.
Proof.
  intros (Hl&_) Hd Hc Hb Hn Hpos Hp Hput. unfold recycled. destruct Hd as [(?&?&Ht)|(?&Hf)].
  - assert (Hr : length (free p1) < bufPoolCap ∧ length (free p) ≤ S (length (free p1))).
    { rewrite Ht. unfold bufPoolCap in *. destruct (free p); simpl in *; lia. }
    rewrite PutBuffer_back in Hput by lia. injection Hput as <-. cbn [free].
    rewrite length_app. cbn [length]. split; [lia|]. intros _.
    rewrite last_snoc. eexists. by split.
  - split; [|lia]. revert Hput. unfold PutBuffer. rewrite decide_True by lia.
    intros [= <-]. by rewrite Hf.
Qed.

Lemma recycled_trans l p1 p2 p3 :
  length (free p1) ≤ length (free p2) → recycled l p2 p3 → recycled l p1 p3.
Proof. intros ? [? ?]. split; [lia|done]. Qed.

Lemma length_bytes b : blen b ≤ bcap b → length (bytes b) = blen b.
Proof. unfold bytes, bcap. rewrite length_take. lia. Qed.

Lemma bcap_fill b off l : off + length l ≤ bcap b → bcap (fill_at b off l) = bcap b.
Proof.
  unfold bcap, fill_at. simpl. rewrite !length_app, length_take, length_drop. lia.
Qed.

(** The visible bytes after a fill that stays inside the slice. *)
Lemma bytes_fill b off l :
  blen b ≤ bcap b → off + length l ≤ blen b →
  bytes (fill_at b off l) = take off (bytes b) ++ l ++ drop (off + length l) (bytes b).
Proof.
  unfold bytes, bcap, fill_at. simpl. intros H1 H2.
  rewrite take_app_ge, length_take by (rewrite length_take; lia).
  rewrite Nat.min_l by lia. rewrite take_app_ge by lia.
  rewrite take_take, Nat.min_l by lia. f_equal. f_equal.
  rewrite take_drop_commute. f_equal. f_equal. lia.
Qed.

Lemma owned_arr p b b' : arr b = arr b' → owned p b → owned p b'.
Proof. unfold owned. by intros ->. Qed.

(** ** Clients of the pool

    The pool together with the buffers its clients hold.  A client takes a
    buffer, writes into one it holds, hands one back, or drops one. *)
Record Client := mkClient { cpool : Pool; in_use : list Buf }.

Inductive client_step : Client → Client → Prop :=
| client_get size b p p' l :
    GetBuffer size p = (Ret b, p') → client_step (mkClient p l) (mkClient p' (b :: l))
| client_write b b' p l1 l2 :
    arr b' = arr b → bcap b' = bcap b → blen b' ≤ bcap b' →
    client_step (mkClient p (l1 ++ b :: l2)) (mkClient p (l1 ++ b' :: l2))
| client_put b p p' l1 l2 :
    PutBuffer b p = (Ret (), p') →
    client_step (mkClient p (l1 ++ b :: l2)) (mkClient p' (l1 ++ l2))
| client_drop b p l1 l2 :
    client_step (mkClient p (l1 ++ b :: l2)) (mkClient p (l1 ++ l2)).

Definition client_inv (c : Client) : Prop :=
  pool_wf (cpool c) ∧ Forall (owned (cpool c)) (in_use c)
  ∧ NoDup (arr <$> in_use c) ∧ Forall (λ b, blen b ≤ bcap b) (in_use c).

Lemma Forall_middle {A} (P : A → Prop) l1 x l2 :
  Forall P (l1 ++ x :: l2) ↔ P x ∧ Forall P (l1 ++ l2).
Proof. rewrite !Forall_app, Forall_cons. tauto. Qed.

Lemma NoDup_middle {A} l1 (x : A) l2 : NoDup (l1 ++ x :: l2) ↔ (x ∉ (l1 ++ l2)) ∧ NoDup (l1 ++ l2).
Proof. by rewrite <- Permutation_middle, NoDup_cons. Qed.

Lemma client_step_inv c c' : client_step c c' → client_inv c → client_inv c'.
Proof.
  destruct 1 as [size b p p' l Hg|b b' p l1 l2 Ha Hc Hb|b p p' l1 l2 Hp|b p l1 l2];
    intros (Hw&Ho&Hd&Hl); simpl in *.
  - destruct (decide (0 ≤ size)%Z) as [Hs|Hs].
    2:{ destruct (GetBuffer_negative size p) as (?&?&E&_); [lia|done|]. congruence. }
    destruct (GetBuffer_spec size p Hs Hw) as (b0&p0&E&_&?&?&?&Hf). rewrite Hg in E. simplify_eq.
    split_and!; simpl; [done| | |by constructor].
    + constructor; [done|]. eapply Forall_impl; [exact Ho|]. intros b1 Hb1. by apply Hf.
    + apply NoDup_cons. split; [|done]. intros (b1&E1&Hin)%list_elem_of_fmap.
      rewrite Forall_forall in Ho. destruct (Hf b1 (Ho _ Hin)) as [_ ?]. congruence.
  - rewrite fmap_app, fmap_cons in Hd. apply Forall_middle in Ho as [? ?], Hl as [? ?].
    split_and!; simpl; [done| | |].
    + apply Forall_middle. split; [|done]. by eapply owned_arr.
    + rewrite fmap_app, fmap_cons. by rewrite Ha.
    + by apply Forall_middle.
  - apply Forall_middle in Ho as [Hb ?], Hl as [? ?].
    rewrite fmap_app, fmap_cons in Hd. apply NoDup_middle in Hd as [Hn Hd]. rewrite <- fmap_app in Hn, Hd.
    destruct (PutBuffer_spec b p Hw Hb) as (p0&E&?&_&Hf). rewrite Hp in E. simplify_eq.
    split_and!; simpl; [done| |done|done].
    rewrite Forall_forall in *. intros b1 Hin. apply Hf; [auto|].
    intros E1. apply Hn. rewrite <- E1. by apply list_elem_of_fmap_2.
  - apply Forall_middle in Ho as [? ?], Hl as [? ?].
    rewrite fmap_app, fmap_cons in Hd. apply NoDup_middle in Hd as [? ?]. rewrite <- fmap_app in *.
    by split_and!.
Qed.

Lemma client_reach c c' : rtc client_step c c' → client_inv c → client_inv c'.
Proof. induction 1; eauto using client_step_inv. Qed.

(** ** The properties of the component *)

(** C11. No aliasing through the pool: as long as every client hands back only buffers
    it holds, and each once, at any time the buffers in use are pairwise distinct
    arrays, none of them is in the pool, the pool never exceeds its 64 slots, and
    the buffer the next [GetBuffer(size)] returns has length [size] and shares its
    array with none of them. *)
Theorem pool_no_alias c size :
  rtc client_step (mkClient empty_pool []) c → (0 ≤ size)%Z →
  NoDup (arr <$> in_use c) ∧ length (free (cpool c)) ≤ 64
  ∧ ∃ b p', GetBuffer size (cpool c) = (Ret b, p') ∧ Z.of_nat (length (bytes b)) = size
      ∧ (arr b ∉ (arr <$> in_use c)) ∧ (arr b ∉ (arr <$> free p')).
Proof.
  intros Hc Hs. assert (client_inv c) as (Hw&Ho&Hd&Hl).
  { apply (client_reach _ _ Hc). split_and!; [apply empty_pool_wf|constructor..]. }
  split_and!; [done|apply Hw|].
  destruct (GetBuffer_spec size _ Hs Hw) as (b&p'&Hg&Hb&Hcap&_&[_ Hfree]&Hf).
  exists b, p'. split_and!; [done|by rewrite length_bytes| |done].
  intros (b0&E&Hin)%list_elem_of_fmap. rewrite Forall_forall in Ho. destruct (Hf b0 (Ho _ Hin)). congruence.
Qed.

Lemma pool_no_alias_witness :
  let c := mkClient (mkPool [] 2) [mkBuf 0 (replicate 4 x00) 3; mkBuf 1 (replicate 9 x00) 9] in
  rtc client_step (mkClient empty_pool []) c ∧ NoDup (arr <$> in_use c).
Proof.
  intros c. assert (rtc client_step (mkClient empty_pool []) c) as Hc.
  { eapply rtc_l; [by apply (client_get 4)|]. eapply rtc_l; [by apply (client_get 9)|].
    eapply rtc_l; [by apply (client_put _ _ (mkPool [mkBuf 0 (replicate 4 x00) 4] 2) [_] [])|]. eapply rtc_l; [by apply (client_get 3)|].
    apply rtc_refl. }
  split; [exact Hc|]. by apply (pool_no_alias c 1).
Defined.

(** Handing a buffer back twice breaks this: the pool then holds the array twice,
    and two later [GetBuffer] calls return the same memory to two clients. *)
Theorem double_put_aliases b size p :
  free p = [] → (0 < Z.of_nat (bcap b) ≤ BufferPoolMax)%Z → (0 ≤ size ≤ Z.of_nat (bcap b))%Z →
  ∃ b1 b2 p', (PutBuffer b;; PutBuffer b;; b1 ← GetBuffer size; b2 ← GetBuffer size; mret (b1, b2)) p
      = (Ret (b1, b2), p') ∧ arr b1 = arr b2 ∧ blen b1 = Z.to_nat size.
Proof.
  destruct p as [fr nx]. simpl. intros -> Hc Hs.
  assert (Hput : ∀ fr, length fr < bufPoolCap →
    PutBuffer b (mkPool fr nx) = (Ret (), mkPool (fr ++ [mkBuf (arr b) (mem b) (bcap b)]) nx)).
  { intros fr Hl. unfold PutBuffer. rewrite !decide_False by lia. by rewrite decide_True. }
  assert (Hget : ∀ rest, GetBuffer size (mkPool (mkBuf (arr b) (mem b) (bcap b) :: rest) nx)
    = (Ret (mkBuf (arr b) (mem b) (Z.to_nat size)), mkPool rest nx)).
  { intros rest. unfold GetBuffer. rewrite decide_False by lia. simpl.
    unfold reslice, bcap in *. simpl. by rewrite !decide_True by lia. }
  eexists _, _, _. split.
  - rewrite (bind_ret _ _ _ _ _ (Hput [] ltac:(unfold bufPoolCap; simpl; lia))). cbn [app].
    rewrite (bind_ret _ _ _ _ _ (Hput [_] ltac:(unfold bufPoolCap; simpl; lia))). cbn [app].
    by rewrite (bind_ret _ _ _ _ _ (Hget _)), (bind_ret _ _ _ _ _ (Hget _)).
  - done.
Qed.

Lemma double_put_aliases_witness :
  ∃ b1 b2 p', (PutBuffer (mkBuf 0 [x00; x00] 2);; PutBuffer (mkBuf 0 [x00; x00] 2);;
      b1 ← GetBuffer 2; b2 ← GetBuffer 2; mret (b1, b2)) (mkPool [] 1)
      = (Ret (b1, b2), p') ∧ arr b1 = arr b2 ∧ blen b1 = 2.
Proof. apply (double_put_aliases (mkBuf 0 [x00; x00] 2) 2 (mkPool [] 1)); by vm_compute. Defined.
