(* ===== verification/VarInt.v ===== *)
(** * Variable-length integers ([packet/varint.go], [internal/varint.go],
    [internal/reader.go])

    The four unrolled or looping codecs of the source, and the reference they are
    compared with: base-128 groups, least significant first ([leb]). *)

From S2P Require Export GoIO.
#[local] Open Scope Z_scope.

Definition MaxVarIntLen : nat := 5.
Definition MaxVarLongLen : nat := 10.

(** ** Encoding *)

Definition VarIntLen (num : Z) : nat :=
  let u := u32 num in
  if u <? 0x80 then 1
  else if u <? 0x4000 then 2
  else if u <? 0x200000 then 3
  else if u <? 0x10000000 then 4
  else 5.

Definition VarLongLen (num : Z) : nat :=
  let u := u64 num in
  if u <? 0x80 then 1
  else if u <? 0x4000 then 2
  else if u <? 0x200000 then 3
  else if u <? 0x10000000 then 4
  else if u <? 0x800000000 then 5
  else if u <? 0x40000000000 then 6
  else if u <? 0x2000000000000 then 7
  else if u <? 0x100000000000000 then 8
  else if u <? 0x8000000000000000 then 9
  else 10.

(** [buf[i] = b] *)
Definition put_at (buf : list byte) (i : nat) (b : byte) : outcome (list byte) :=
  if decide (i < length buf)%nat then Ret (<[i := b]> buf) else Panic IndexOutOfRange.

(** [buf[i] = b0; buf[i+1] = b1; ...] *)
Fixpoint puts (buf : list byte) (i : nat) (bs : list byte) : outcome (list byte) :=
  match bs with
  | [] => Ret buf
  | b :: bs' => buf' ← put_at buf i b; puts buf' (S i) bs'
  end.

(** [byte(x) | 0x80] and [byte(x)]: a group with and without continuation. *)
Definition more (x : Z) : byte := to_byte (Z.lor (ubyte (to_byte x)) 0x80).
Definition last_group (x : Z) : byte := to_byte x.

(** The new content of the buffer and the number of bytes written. *)
Definition PutVarInt (buf : list byte) (num : Z) : outcome (list byte * nat) :=
  let u := u32 num in
  let sh k := Z.shiftr u k in
  if u <? 0x80 then
    b ← puts buf 0 [last_group u]; mret (b, 1%nat)
  else if u <? 0x4000 then
    b ← puts buf 0 [more u; last_group (sh 7)]; mret (b, 2%nat)
  else if u <? 0x200000 then
    b ← puts buf 0 [more u; more (sh 7); last_group (sh 14)]; mret (b, 3%nat)
  else if u <? 0x10000000 then
    b ← puts buf 0 [more u; more (sh 7); more (sh 14); last_group (sh 21)];
    mret (b, 4%nat)
  else
    b ← puts buf 0 [more u; more (sh 7); more (sh 14); more (sh 21); last_group (sh 28)];
    mret (b, 5%nat).

Definition PutVarLong (buf : list byte) (num : Z) : outcome (list byte * nat) :=
  let u := u64 num in
  let sh k := Z.shiftr u k in
  if u <? 0x80 then
    b ← puts buf 0 [last_group u]; mret (b, 1%nat)
  else if u <? 0x4000 then
    b ← puts buf 0 [more u; last_group (sh 7)]; mret (b, 2%nat)
  else if u <? 0x200000 then
    b ← puts buf 0 [more u; more (sh 7); last_group (sh 14)]; mret (b, 3%nat)
  else if u <? 0x10000000 then
    b ← puts buf 0 [more u; more (sh 7); more (sh 14); last_group (sh 21)];
    mret (b, 4%nat)
  else if u <? 0x800000000 then
    b ← puts buf 0 [more u; more (sh 7); more (sh 14); more (sh 21); last_group (sh 28)];
    mret (b, 5%nat)
  else if u <? 0x40000000000 then
    b ← puts buf 0 [more u; more (sh 7); more (sh 14); more (sh 21); more (sh 28);
                    last_group (sh 35)];
    mret (b, 6%nat)
  else if u <? 0x2000000000000 then
    b ← puts buf 0 [more u; more (sh 7); more (sh 14); more (sh 21); more (sh 28);
                    more (sh 35); last_group (sh 42)];
    mret (b, 7%nat)
  else if u <? 0x100000000000000 then
    b ← puts buf 0 [more u; more (sh 7); more (sh 14); more (sh 21); more (sh 28);
                    more (sh 35); more (sh 42); last_group (sh 49)];
    mret (b, 8%nat)
  else if u <? 0x8000000000000000 then
    b ← puts buf 0 [more u; more (sh 7); more (sh 14); more (sh 21); more (sh 28);
                    more (sh 35); more (sh 42); more (sh 49); last_group (sh 56)];
    mret (b, 9%nat)
  else
    b ← puts buf 0 [more u; more (sh 7); more (sh 14); more (sh 21); more (sh 28);
                    more (sh 35); more (sh 42); more (sh 49); more (sh 56);
                    last_group (sh 63)];
    mret (b, 10%nat).

Definition WriteVarIntToBytes (buf : list byte) (v : Z) : outcome (list byte * nat) :=
  PutVarInt buf v.

(** [VarInt.WriteTo] and [VarLong.WriteTo] *)
Definition VarInt_WriteTo (v : Z) : M Writer (Z * option error) :=
  '(buf, n) ← liftO (PutVarInt (replicate MaxVarIntLen x00) v);
  Write (take n buf).

Definition VarLong_WriteTo (v : Z) : M Writer (Z * option error) :=
  '(buf, n) ← liftO (PutVarLong (replicate MaxVarLongLen x00) v);
  Write (take n buf).

Definition VarInt_Len (v : Z) : nat := VarIntLen v.
Definition VarLong_Len (v : Z) : nat := VarLongLen v.

(** ** Decoding *)

(** [b & 0x7F] at its place, in a signed type of width [w]. *)
Definition group (w : Z) (b : byte) (shift : Z) : Z :=
  swrap w (Z.shiftl (Z.land (ubyte b) 0x7F) shift).

(** [b & 0x80 == 0] *)
Definition final (b : byte) : bool := Z.land (ubyte b) 0x80 =? 0.

(** [internal.DiscardVarInt]: up to [n] bytes, errors ignored. *)
Fixpoint discard (n : nat) : M Reader () :=
  match n with
  | O => mret ()
  | S n' =>
      x ← attempt ReadByte;
      match x with
      | inr _ => mret ()
      | inl b => if final b then mret () else discard n'
      end
  end.

Definition DiscardVarInt : M Reader () := discard 10.

(** The loop of [ReadVarInt], [ReadVarLong] and [PacketReader.readVarInt]: [rd]
    reads a byte, [w] is the width of [val], [limit] the bound on [shift]; past it
    [bad] runs and [e] is returned. *)
Fixpoint ReadVar_loop (rd : M Reader byte) (bad : M Reader ()) (w limit : Z) (e : error)
    (fuel : nat) (val shift : Z) : M Reader Z :=
  match fuel with
  | O => block
  | S fuel' =>
      b ← rd;
      let val := Z.lor val (group w b shift) in
      if final b then mret val
      else
        let shift := shift + 7 in
        if limit <=? shift then bad;; fail e
        else ReadVar_loop rd bad w limit e fuel' val shift
  end.

Definition ReadVarInt : M Reader Z := ReadVar_loop ReadByte DiscardVarInt 32 35 ErrMalformedVarInt 5 0 0.
Definition ReadVarLong : M Reader Z := ReadVar_loop ReadByte DiscardVarInt 64 70 ErrMalformedVarLong 10 0 0.

Definition VarInt_ReadFrom : M Reader Z := ReadVarInt.
Definition VarLong_ReadFrom : M Reader Z := ReadVarLong.

(** The loop over the bytes read by [ReadVarIntN]; no bound on the shift. *)
Fixpoint varint_of (val : Z) (i : nat) (buf : list byte) : Z :=
  match buf with
  | [] => val
  | b :: buf' =>
      let val := Z.lor val (group 32 b (7 * Z.of_nat i)) in
      if final b then val else varint_of val (S i) buf'
  end.

Definition ReadVarIntN (n : Z) : M Reader Z :=
  if decide (0 ≤ n) then
    buf ← ReadFull (Z.to_nat n);
    mret (varint_of 0 0 buf)
  else crash MakeSliceLen.

Definition PeekVarIntSize (b : byte) : nat :=
  if final b then 1 else MaxVarIntLen.

(** The loop of [ReadVarIntFromBytes]: the value and the remaining slice. *)
Fixpoint from_bytes_loop (val shift : Z) (data : list byte) : outcome (Z * list byte) :=
  match data with
  | [] => Err ErrPacketTooShort
  | b :: rest =>
      let val := Z.lor val (group 32 b shift) in
      if final b then Ret (val, rest)
      else
        let shift := shift + 7 in
        if 35 <=? shift then Err ErrMalformedVarInt
        else from_bytes_loop val shift rest
  end.

Definition ReadVarIntFromBytes (data : list byte) : outcome (Z * list byte) :=
  if decide (length data = 0)%nat then Err ErrPacketTooShort
  else from_bytes_loop 0 0 data.

(** ** UUID conversions *)

Definition UuidToInts (uuid : list byte) : Z * Z :=
  (s64 (be_get (take 8 uuid)), s64 (be_get (drop 8 uuid))).

Definition IntsToUUID (hi lo : Z) : list byte :=
  be_put 8 (u64 hi) ++ be_put 8 (u64 lo).

(** ** [internal.ByteReader] *)

Module ByteReader.
Record t := mk { data : list byte; pos : nat }.

Definition NewByteReader (d : list byte) : t := mk d 0.

Definition ReadByte : M t byte := λ br,
  match data br !! pos br with
  | None => (Err EOF, br)
  | Some b => (Ret b, mk (data br) (S (pos br)))
  end.

(** [Read(p)] with [len(p) = n] *)
Definition Read (n : nat) : M t (list byte) := λ br,
  if decide (length (data br) ≤ pos br)%nat then (Err EOF, br)
  else
    let bs := take n (drop (pos br) (data br)) in
    (Ret bs, mk (data br) (pos br + length bs)).

(** The abstract reader a [ByteReader] stands for. *)
Definition view (br : t) : Reader :=
  mkReader (match drop (pos br) (data br) with [] => [] | d => [d] end) EOF true.
End ByteReader.

(** ** The reference encoding *)

(** [leb n u]: the base-128 groups of [u], at most [n] of them. *)
Fixpoint leb (n : nat) (u : Z) : list byte :=
  match n with
  | O => []
  | S n' => if u <? 128 then [to_byte u] else to_byte (128 + u mod 128) :: leb n' (u / 128)
  end.

(** The number the groups of [l] spell. *)
Fixpoint leb_val (l : list byte) : Z :=
  match l with
  | [] => 0
  | b :: l' => ubyte b mod 128 + 128 * leb_val l'
  end.

Definition varint (v : Z) : list byte := leb 5 (u32 v).
Definition varlong (v : Z) : list byte := leb 10 (u64 v).

(** A complete encoding: continuation groups, then a final one. *)
Definition encoding (l : list byte) : Prop :=
  ∃ pre b, l = pre ++ [b] ∧ Forall (λ c, final c = false) pre ∧ final b = true.

(** Exactly [k] groups with continuation, then the rest of [u]. *)
Fixpoint leb_fixed (k : nat) (u : Z) : list byte :=
  match k with
  | O => [to_byte u]
  | S k' => to_byte (128 + u mod 128) :: leb_fixed k' (u / 128)
  end.

(** What [DiscardVarInt] leaves of the input. *)
Fixpoint skip (n : nat) (l : list byte) : list byte :=
  match n, l with
  | O, _ => l
  | _, [] => []
  | S n', b :: l' => if final b then l' else skip n' l'
  end.

(** ** Lemmas: bytes and groups *)

Lemma lor_128 b : Z.lor (ubyte b) 0x80 = 128 + ubyte b mod 128.
Proof. by destruct b. Qed.

Lemma final_spec b : final b = (ubyte b <? 128).
Proof. by destruct b. Qed.

Lemma more_eq x : more x = to_byte (128 + x mod 128).
Proof.
  unfold more. rewrite lor_128, ubyte_to_byte. f_equal. f_equal.
  change 256 with (128 * 2). rewrite Z.rem_mul_r by lia.
  rewrite Z.mul_comm, Z_mod_plus_full, Z.mod_mod by lia. done.
Qed.

Lemma ubyte_more u : ubyte (to_byte (128 + u mod 128)) = 128 + u mod 128.
Proof. apply ubyte_to_byte_small. pose proof (Z.mod_pos_bound u 128). lia. Qed.

Lemma puts_spec bs buf i :
  (i + length bs ≤ length buf)%nat →
  puts buf i bs = Ret (take i buf ++ bs ++ drop (i + length bs) buf).
Proof.
  revert buf i. induction bs as [|b bs IH]; intros buf i Hl; simpl.
  { by rewrite Nat.add_0_r, take_drop. }
  unfold put_at. simpl in Hl. rewrite decide_True by lia. simpl.
  rewrite IH by (rewrite length_insert; lia). f_equal.
  rewrite (take_S_r _ i b) by (apply list_lookup_insert_eq; lia).
  rewrite take_insert_ge, drop_insert_lt by lia. rewrite <- app_assoc. simpl.
  by rewrite Nat.add_succ_r.
Qed.

Lemma leb_fixed_leb k n u :
  (k < n)%nat → 0 ≤ u < 128 ^ (Z.of_nat k + 1) → (k = 0%nat ∨ 128 ^ Z.of_nat k ≤ u) →
  leb n u = leb_fixed k u.
Proof.
  revert n u. induction k as [|k IH]; intros n u Hn Hu Hlow;
    (destruct n as [|n]; [lia|]); cbn [leb leb_fixed].
  - rewrite (proj2 (Z.ltb_lt _ _)); [done|]. change (128 ^ (Z.of_nat 0 + 1)) with 128 in Hu. lia.
  - destruct Hlow as [|Hlow]; [lia|].
    rewrite Nat2Z.inj_succ, <- Z.add_1_r in Hu, Hlow.
    rewrite Z.pow_add_r in Hu, Hlow by lia. change (128 ^ 1) with 128 in *.
    assert (0 < 128 ^ Z.of_nat k) by (apply Z.pow_pos_nonneg; lia).
    rewrite (proj2 (Z.ltb_ge _ _)) by nia. f_equal. apply IH; [lia| |].
    + rewrite Z.pow_add_r in * by lia. change (128 ^ 1) with 128 in *.
      split; [apply Z.div_pos; lia|]. apply Z.div_lt_upper_bound; lia.
    + destruct k; [by left|right]. apply Z.div_le_lower_bound; lia.
Qed.

Lemma length_leb_fixed k u : length (leb_fixed k u) = S k.
Proof. revert u. induction k; intros; simpl; auto. Qed.

Lemma leb_fixed_shift k u : leb_fixed (S k) u = more u :: leb_fixed k (Z.shiftr u 7).
Proof. cbn [leb_fixed]. by rewrite more_eq, Z.shiftr_div_pow2. Qed.

(** The unrolled stores write [leb_fixed], whatever follows in the buffer. *)
Lemma puts_fixed buf k u bs :
  bs = leb_fixed k u → (k < length buf)%nat →
  (b ← puts buf 0 bs; mret (b, S k)) = Ret (leb_fixed k u ++ drop (S k) buf, S k).
Proof.
  intros -> Hl. rewrite puts_spec by (rewrite length_leb_fixed; lia).
  simpl. by rewrite length_leb_fixed.
Qed.

(** The list of stores is [leb_fixed] after merging the shifts. *)
Ltac fixed_list :=
  rewrite ?leb_fixed_shift; cbn [leb_fixed]; unfold last_group;
  rewrite ?Z.shiftr_shiftr by lia; reflexivity.

(** One branch of the size switch, with [k] continuation groups. *)
Ltac put_case k :=
  rewrite (leb_fixed_leb k) by lia; apply (puts_fixed _ k); [fixed_list|lia].

(** Case analysis on the comparisons of a size switch. *)
Ltac switch :=
  repeat match goal with |- context [?a <? ?b] => destruct (Z.ltb_spec a b) end.

Lemma PutVarInt_spec buf v :
  (VarIntLen v ≤ length buf)%nat →
  PutVarInt buf v = Ret (varint v ++ drop (VarIntLen v) buf, VarIntLen v).
Proof.
  intros Hl. unfold PutVarInt, VarIntLen, varint in *.
  pose proof (uwrap_range 32 eq_refl v) as [H0 H1]. change (2 ^ 32) with 4294967296 in H1.
  set (u := u32 v) in *. clearbody u.
  switch.
  - put_case 0%nat.
  - put_case 1%nat.
  - put_case 2%nat.
  - put_case 3%nat.
  - put_case 4%nat.
Qed.

Lemma PutVarLong_spec buf v :
  (VarLongLen v ≤ length buf)%nat →
  PutVarLong buf v = Ret (varlong v ++ drop (VarLongLen v) buf, VarLongLen v).
Proof.
  intros Hl. unfold PutVarLong, VarLongLen, varlong in *.
  pose proof (uwrap_range 64 eq_refl v) as [H0 H1].
  change (2 ^ 64) with 18446744073709551616 in H1.
  set (u := u64 v) in *. clearbody u.
  switch.
  - put_case 0%nat.
  - put_case 1%nat.
  - put_case 2%nat.
  - put_case 3%nat.
  - put_case 4%nat.
  - put_case 5%nat.
  - put_case 6%nat.
  - put_case 7%nat.
  - put_case 8%nat.
  - put_case 9%nat.
Qed.

(** The reference encoding has the length the size switch says. *)
Ltac len_case k := by rewrite (leb_fixed_leb k) by lia.

Lemma length_varint v : length (varint v) = VarIntLen v.
Proof.
  unfold VarIntLen, varint. pose proof (uwrap_range 32 eq_refl v) as [H0 H1].
  change (2 ^ 32) with 4294967296 in H1. set (u := u32 v) in *. clearbody u. switch.
  - len_case 0%nat.
  - len_case 1%nat.
  - len_case 2%nat.
  - len_case 3%nat.
  - len_case 4%nat.
Qed.

Lemma length_varlong v : length (varlong v) = VarLongLen v.
Proof.
  unfold VarLongLen, varlong. pose proof (uwrap_range 64 eq_refl v) as [H0 H1].
  change (2 ^ 64) with 18446744073709551616 in H1. set (u := u64 v) in *. clearbody u. switch.
  - len_case 0%nat.
  - len_case 1%nat.
  - len_case 2%nat.
  - len_case 3%nat.
  - len_case 4%nat.
  - len_case 5%nat.
  - len_case 6%nat.
  - len_case 7%nat.
  - len_case 8%nat.
  - len_case 9%nat.
Qed.

Lemma VarIntLen_bounds v : (1 ≤ VarIntLen v ≤ 5)%nat.
Proof. unfold VarIntLen. switch; lia. Qed.

Lemma VarLongLen_bounds v : (1 ≤ VarLongLen v ≤ 10)%nat.
Proof. unfold VarLongLen. switch; lia. Qed.

(** ** Lemmas: the value of an encoding *)

Lemma leb_val_bound l : 0 ≤ leb_val l < 128 ^ Z.of_nat (length l).
Proof.
  induction l as [|b l IH]; [done|]. cbn [leb_val length].
  rewrite Nat2Z.inj_succ, Z.pow_succ_r by lia.
  pose proof (Z.mod_pos_bound (ubyte b) 128). lia.
Qed.

Lemma leb_encodes n u : 0 ≤ u < 128 ^ Z.of_nat n → (0 < n)%nat →
  encoding (leb n u) ∧ leb_val (leb n u) = u.
Proof.
  revert u. induction n as [|n IH]; intros u Hu Hn; [lia|].
  rewrite Nat2Z.inj_succ, Z.pow_succ_r in Hu by lia. cbn [leb].
  destruct (Z.ltb_spec u 128) as [Hlt|Hge].
  - split.
    + exists [], (to_byte u). split_and!; [done|constructor|].
      rewrite final_spec, ubyte_to_byte_small by lia. lia.
    + cbn [leb_val]. rewrite ubyte_to_byte_small, Z.mod_small by lia. lia.
  - destruct n as [|n]; [change (128 ^ Z.of_nat 0) with 1 in Hu; lia|].
    destruct (IH (u / 128)) as ((pre&b&->&Hpre&Hb)&Hv); [|lia|].
    { split; [apply Z.div_pos; lia|]. apply Z.div_lt_upper_bound; lia. }
    split.
    + eexists (_ :: pre), b. split_and!; [done| |done]. constructor; [|done].
      rewrite final_spec, ubyte_more. pose proof (Z.mod_pos_bound u 128). lia.
    + cbn [leb_val]. rewrite Hv, ubyte_more.
      replace (128 + u mod 128) with (u mod 128 + 1 * 128) by lia.
      rewrite Z_mod_plus_full, Z.mod_mod by lia.
      pose proof (Z.div_mod u 128). lia.
Qed.

Lemma varint_encodes v : encoding (varint v) ∧ leb_val (varint v) = u32 v.
Proof.
  apply leb_encodes; [|lia]. pose proof (uwrap_range 32 eq_refl v) as [? ?].
  change (2 ^ 32) with 4294967296 in *. change (128 ^ Z.of_nat 5) with 34359738368. lia.
Qed.

Lemma varlong_encodes v : encoding (varlong v) ∧ leb_val (varlong v) = u64 v.
Proof.
  apply leb_encodes; [|lia]. pose proof (uwrap_range 64 eq_refl v) as [? ?].
  change (2 ^ 64) with 18446744073709551616 in *.
  change (128 ^ Z.of_nat 10) with 1180591620717411303424. lia.
Qed.

Lemma swrap_leb_varint v : is_int 32 v → s32 (leb_val (varint v)) = v.
Proof.
  intros Hv. rewrite (proj2 (varint_encodes v)), swrap_uwrap by done. by apply swrap_id.
Qed.

Lemma swrap_leb_varlong v : is_int 64 v → s64 (leb_val (varlong v)) = v.
Proof.
  intros Hv. rewrite (proj2 (varlong_encodes v)), swrap_uwrap by done. by apply swrap_id.
Qed.

(** One iteration of every decoding loop: [acc] is the value of the groups read so
    far, which fit below [shift]. *)
Lemma lor_group w acc b shift :
  0 < w → 0 ≤ shift → 0 ≤ acc < 2 ^ shift →
  Z.lor (swrap w acc) (group w b shift) = swrap w (acc + ubyte b mod 128 * 2 ^ shift)
  ∧ 0 ≤ acc + ubyte b mod 128 * 2 ^ shift < 2 ^ (shift + 7).
Proof.
  intros Hw Hs Ha. unfold group. rewrite land_127. split.
  - by rewrite <- swrap_lor, lor_shiftl_add.
  - rewrite Z.pow_add_r by lia. change (2 ^ 7) with 128.
    pose proof (Z.mod_pos_bound (ubyte b) 128). nia.
Qed.

(** ** Lemmas: decoding from a slice *)

(** What [from_bytes_loop] returns after [k] groups worth [acc]. *)
Lemma from_bytes_loop_ok pre b rest acc k :
  Forall (λ c, final c = false) pre → final b = true →
  0 ≤ acc < 2 ^ (7 * Z.of_nat k) → (k + length pre < 5)%nat →
  from_bytes_loop (s32 acc) (7 * Z.of_nat k) (pre ++ b :: rest)
  = Ret (s32 (acc + 2 ^ (7 * Z.of_nat k) * leb_val (pre ++ [b])), rest).
Proof.
  intros Hpre Hb. revert acc k. induction Hpre as [|c pre Hc Hpre IH]; intros acc k Ha Hk;
    cbn [app from_bytes_loop].
  - destruct (lor_group 32 acc b (7 * Z.of_nat k)) as [E _]; [lia..|].
    rewrite E, Hb. do 2 f_equal. cbn [leb_val]. f_equal. lia.
  - destruct (lor_group 32 acc c (7 * Z.of_nat k)) as [E Hr]; [lia..|].
    cbn [length] in Hk. rewrite E, Hc. rewrite (proj2 (Z.leb_gt _ _)) by lia.
    replace (7 * Z.of_nat k + 7) with (7 * Z.of_nat (S k)) in * by lia.
    rewrite IH by lia. do 2 f_equal. f_equal. cbn [leb_val].
    replace (7 * Z.of_nat (S k)) with (7 * Z.of_nat k + 7) by lia.
    rewrite Z.pow_add_r by lia. change (2 ^ 7) with 128. lia.
Qed.

(** Too few groups: the slice ends before a final one. *)
Lemma from_bytes_loop_short data val k :
  Forall (λ c, final c = false) data → (k + length data < 5)%nat →
  from_bytes_loop val (7 * Z.of_nat k) data = Err ErrPacketTooShort.
Proof.
  intros Hd. revert val k. induction Hd as [|c data Hc Hd IH]; intros val k Hk; [done|].
  cbn [from_bytes_loop length] in *. rewrite Hc, (proj2 (Z.leb_gt _ _)) by lia.
  replace (7 * Z.of_nat k + 7) with (7 * Z.of_nat (S k)) by lia. apply IH. lia.
Qed.

(** Five continuation groups: malformed, whatever follows. *)
Lemma from_bytes_loop_malformed pre rest val k :
  Forall (λ c, final c = false) pre → (k + length pre = 5)%nat → (0 < length pre)%nat →
  from_bytes_loop val (7 * Z.of_nat k) (pre ++ rest) = Err ErrMalformedVarInt.
Proof.
  intros Hd. revert val k. induction Hd as [|c pre Hc Hd IH]; intros val k Hk Hl;
    [simpl in *; lia|].
  cbn [app from_bytes_loop length] in *. rewrite Hc. destruct (Z.leb_spec 35 (7 * Z.of_nat k + 7)).
  - done.
  - replace (7 * Z.of_nat k + 7) with (7 * Z.of_nat (S k)) by lia. apply IH; lia.
Qed.

(** Every slice falls in exactly one of the three cases. *)
Inductive varint_shape : list byte → Prop :=
| shape_complete pre b rest :
    Forall (λ c, final c = false) pre → final b = true → (length pre < 5)%nat →
    varint_shape (pre ++ b :: rest)
| shape_short data :
    Forall (λ c, final c = false) data → (length data < 5)%nat → varint_shape data
| shape_malformed pre rest :
    Forall (λ c, final c = false) pre → length pre = 5%nat → varint_shape (pre ++ rest).

Lemma varint_shape_total data : varint_shape data.
Proof.
  assert (∀ n, (∃ pre b rest, take n data = pre ++ b :: rest
              ∧ Forall (λ c, final c = false) pre ∧ final b = true)
    ∨ Forall (λ c, final c = false) (take n data)) as H.
  { intros n. generalize (take n data). clear. induction l as [|b l IH]; [by right|].
    destruct (final b) eqn:Hb; [left; by exists [], b, l|].
    destruct IH as [(pre&b'&rest&->&?&?)|?]; [left|right; by constructor].
    exists (b :: pre), b', rest. split_and!; [done|by constructor|done]. }
  rewrite <- (take_drop 5 data).
  assert (length (take 5 data) ≤ 5)%nat by (rewrite length_take; lia).
  destruct (H 5%nat) as [(pre&b&rest&E&?&?)|?].
  - rewrite E in *. rewrite <- app_assoc, <- app_comm_cons. constructor; [done..|].
    rewrite length_app in *. cbn [length] in *. lia.
  - destruct (decide (5 ≤ length data)%nat).
    + apply shape_malformed; [done|]. rewrite length_take. lia.
    + rewrite take_drop. rewrite take_ge in * by lia. apply shape_short; [done|lia].
Qed.

(** ** Lemmas: decoding from a stream *)

Lemma discard_spec n r :
  ∃ r', discard n r = (Ret (), r') ∧ rflat r' = skip n (rflat r)
    ∧ rend r' = rend r ∧ is_reader r' = is_reader r.
Proof.
  revert r. induction n as [|n IH]; intros r; [by exists r|].
  cbn [discard skip]. destruct (ReadByte_spec r) as (r'&Hr&Hfl&He&Hi).
  unfold mbind, M_bind, attempt. rewrite Hr. destruct (rflat r) as [|b l]; [by exists r'|].
  simpl in Hfl. rewrite drop_0 in Hfl. destruct (final b); [by exists r'|].
  destruct (IH r') as (r''&->&?&?&?). exists r''. rewrite Hfl in *. split_and!; congruence.
Qed.

Lemma DiscardVarInt_respects : respects DiscardVarInt.
Proof.
  intros r1 r2 Hr. destruct (discard_spec 10 r1) as (r1'&E1&?&?&?).
  destruct (discard_spec 10 r2) as (r2'&E2&?&?&?).
  unfold DiscardVarInt. rewrite E1, E2. destruct Hr as (Hf&?&?). split; [done|].
  rewrite Hf in *. split_and!; simpl; congruence.
Qed.


(** An action that reads one byte, like [ReadByte]. *)
Definition byte_action (rd : M Reader byte) : Prop :=
  ∀ r, ∃ r', rd r = (match rflat r with b :: _ => Ret b | [] => Err (rend r) end, r')
    ∧ rflat r' = drop 1 (rflat r) ∧ rend r' = rend r ∧ is_reader r' = is_reader r.

Lemma ReadByte_action : byte_action ReadByte.
Proof. intros r. apply ReadByte_spec. Qed.

Section stream.
Context (rd : M Reader byte) (bad : M Reader ()) (Hrd : byte_action rd).
Context (w limit : Z) (e : error) (groups : nat).
Context (Hw : 0 < w) (Hlimit : limit = 7 * Z.of_nat groups).

Lemma ReadVar_loop_ok r pre b rest acc k fuel :
  rflat r = pre ++ b :: rest →
  Forall (λ c, final c = false) pre → final b = true →
  0 ≤ acc < 2 ^ (7 * Z.of_nat k) → (k + length pre < groups)%nat → (length pre < fuel)%nat →
  ∃ r', ReadVar_loop rd bad w limit e fuel (swrap w acc) (7 * Z.of_nat k) r
      = (Ret (swrap w (acc + 2 ^ (7 * Z.of_nat k) * leb_val (pre ++ [b]))), r')
    ∧ rflat r' = rest ∧ rend r' = rend r ∧ is_reader r' = is_reader r.
Proof.
  intros Hfl Hpre Hb. revert r acc k fuel Hfl.
  induction Hpre as [|c pre Hc Hpre IH]; intros r acc k fuel Hfl Ha Hk Hf;
    (destruct fuel as [|fuel]; [lia|]); cbn [app ReadVar_loop length] in *;
    destruct (Hrd r) as (r'&Hr&Hf'&He&Hi); rewrite Hfl in *;
    rewrite (bind_ret _ _ _ _ _ Hr); simpl in Hf'; rewrite drop_0 in Hf'.
  - destruct (lor_group w acc b (7 * Z.of_nat k)) as [E _]; [lia..|].
    rewrite E, Hb. cbn [leb_val]. exists r'. split_and!; [|done..].
    unfold mret, M_ret. do 3 f_equal. lia.
  - destruct (lor_group w acc c (7 * Z.of_nat k)) as [E Hrc]; [lia..|].
    rewrite E, Hc. rewrite (proj2 (Z.leb_gt _ _)) by lia.
    replace (7 * Z.of_nat k + 7) with (7 * Z.of_nat (S k)) in * by lia.
    destruct (IH r' (acc + ubyte c mod 128 * 2 ^ (7 * Z.of_nat k)) (S k) fuel)
      as (r''&->&?&?&?); [done|lia..|].
    exists r''. split_and!; [|congruence..]. do 3 f_equal. cbn [leb_val].
    replace (7 * Z.of_nat (S k)) with (7 * Z.of_nat k + 7) by lia.
    rewrite Z.pow_add_r by lia. change (2 ^ 7) with 128. lia.
Qed.

(** From the start of the loop. *)
Lemma ReadVar_loop_start r pre b rest fuel :
  rflat r = pre ++ b :: rest →
  Forall (λ c, final c = false) pre → final b = true →
  (length pre < groups)%nat → (length pre < fuel)%nat →
  ∃ r', ReadVar_loop rd bad w limit e fuel 0 0 r = (Ret (swrap w (leb_val (pre ++ [b]))), r')
    ∧ rflat r' = rest ∧ rend r' = rend r ∧ is_reader r' = is_reader r.
Proof.
  intros Hfl Hpre Hb Hg Hf.
  destruct (ReadVar_loop_ok r pre b rest 0 0 fuel) as (r'&Hr&?&?&?); [done|done|done|done|lia|done|].
  exists r'. split_and!; [|done..].
  change (7 * Z.of_nat 0) with 0 in Hr. rewrite Z.pow_0_r, Z.mul_1_l, Z.add_0_l in Hr.
  rewrite <- Hr. f_equal. symmetry. apply swrap_id; [done|]. unfold is_int.
  pose proof (pow_half_pos w Hw). lia.
Qed.

Lemma reads_ReadVar_loop l fuel :
  encoding l → (length l ≤ groups)%nat → (length l ≤ fuel)%nat →
  reads (ReadVar_loop rd bad w limit e fuel 0 0) l (swrap w (leb_val l)).
Proof.
  intros (pre&b&->&Hpre&Hb) Hg Hf r rest Hi Hfl. rewrite length_app in *. simpl in *.
  rewrite <- app_assoc in Hfl.
  destruct (ReadVar_loop_start r pre b rest fuel) as (r'&?&?&?&?); [done|done|done|lia|lia|].
  exists r'. split; [done|]. by apply rest_of_equiv.
Qed.

(** The input ends inside the encoding: the reader's own error, also mid-value. *)
Lemma ReadVar_loop_eof r val k fuel :
  Forall (λ c, final c = false) (rflat r) → (k + length (rflat r) < groups)%nat →
  (length (rflat r) < fuel)%nat →
  ∃ r', ReadVar_loop rd bad w limit e fuel val (7 * Z.of_nat k) r = (Err (rend r), r')
    ∧ rflat r' = [] ∧ rend r' = rend r ∧ is_reader r' = is_reader r.
Proof.
  revert r val k. induction fuel as [|fuel IH]; intros r val k Hall Hk Hf; [lia|].
  cbn [ReadVar_loop]. destruct (Hrd r) as (r'&Hr&Hfl&He&Hi).
  destruct (rflat r) as [|c data] eqn:E.
  - exists r'. rewrite (bind_err _ _ _ _ _ Hr). by split_and!.
  - rewrite (bind_ret _ _ _ _ _ Hr). apply Forall_cons_1 in Hall as [Hc Hall].
    simpl in Hfl. rewrite drop_0 in Hfl.
    cbn [length] in *. rewrite Hc, (proj2 (Z.leb_gt _ _)) by lia.
    replace (7 * Z.of_nat k + 7) with (7 * Z.of_nat (S k)) by lia.
    destruct (IH r' (Z.lor val (group w c (7 * Z.of_nat k))) (S k)) as (r''&->&?&?&?);
      rewrite ?Hfl; [done|lia|lia|].
    exists r''. rewrite He. split_and!; congruence.
Qed.

(** Past the limit: [bad] runs after the continuation bytes. *)
Lemma ReadVar_loop_malformed r pre rest val k fuel :
  rflat r = pre ++ rest → Forall (λ c, final c = false) pre →
  (k + length pre = groups)%nat → (0 < length pre ≤ fuel)%nat →
  ∃ r', ReadVar_loop rd bad w limit e fuel val (7 * Z.of_nat k) r = (bad;; fail e) r'
    ∧ rflat r' = rest ∧ rend r' = rend r ∧ is_reader r' = is_reader r.
Proof.
  intros Hfl Hpre. revert r val k fuel Hfl.
  induction Hpre as [|c pre Hc Hpre IH]; intros r val k fuel Hfl Hk Hl; [simpl in *; lia|].
  destruct fuel as [|fuel]; [cbn [length] in *; lia|]. cbn [ReadVar_loop length app] in *.
  destruct (Hrd r) as (r'&Hr&Hf&He&Hi). rewrite Hfl in *.
  rewrite (bind_ret _ _ _ _ _ Hr), Hc. simpl in Hf. rewrite drop_0 in Hf.
  destruct (Z.leb_spec limit (7 * Z.of_nat k + 7)).
  - exists r'. destruct pre; [|cbn [length] in *; lia]. by split_and!.
  - replace (7 * Z.of_nat k + 7) with (7 * Z.of_nat (S k)) by lia.
    destruct (IH r' (Z.lor val (group w c (7 * Z.of_nat k))) (S k) fuel) as (r''&->&?&?&?);
      [done|lia|lia|]. exists r''. split_and!; congruence.
Qed.

Lemma ReadVar_loop_respects fuel val shift :
  respects bad → respects (ReadVar_loop rd bad w limit e fuel val shift).
Proof.
  intros Hbad. revert val shift.
  induction fuel as [|fuel IH]; intros; cbn [ReadVar_loop]; [by intros ??|].
  apply bind_respects.
  - intros r1 r2 (Hf&He&Hi). destruct (Hrd r1) as (r1'&->&?&?&?).
    destruct (Hrd r2) as (r2'&->&?&?&?). rewrite Hf, He. split; [done|].
    split_and!; simpl; congruence.
  - intros b. destruct (final b); [auto with respects|].
    destruct (_ <=? _); [|apply IH]. auto with respects.
Qed.
End stream.

Lemma encoding_pre l n : encoding l → (length l ≤ n)%nat →
  ∃ pre b, l = pre ++ [b] ∧ Forall (λ c, final c = false) pre ∧ final b = true
    ∧ (length pre < n)%nat.
Proof.
  intros (pre&b&->&?&?) Hl. exists pre, b. rewrite length_app in Hl. simpl in Hl.
  split_and!; [done..|lia].
Qed.

(** The decoders on a complete encoding of at most 5 (10) bytes. *)
Lemma FromBytes_encoding l rest :
  encoding l → (length l ≤ 5)%nat → ReadVarIntFromBytes (l ++ rest) = Ret (s32 (leb_val l), rest).
Proof.
  intros He Hl. destruct (encoding_pre l 5 He Hl) as (pre&b&->&?&?&?).
  unfold ReadVarIntFromBytes. rewrite decide_False by (rewrite !length_app; simpl; lia).
  rewrite <- app_assoc. pose proof (from_bytes_loop_ok pre b rest 0 0) as E.
  change (2 ^ (7 * Z.of_nat 0)) with 1 in E. rewrite Z.mul_1_l in E. by apply E.
Qed.

Lemma reads_ReadVarInt l : encoding l → (length l ≤ 5)%nat → reads ReadVarInt l (s32 (leb_val l)).
Proof. intros. by apply (reads_ReadVar_loop _ DiscardVarInt ReadByte_action 32 35 ErrMalformedVarInt 5). Qed.

Lemma reads_ReadVarLong l : encoding l → (length l ≤ 10)%nat → reads ReadVarLong l (s64 (leb_val l)).
Proof. intros. by apply (reads_ReadVar_loop _ DiscardVarInt ReadByte_action 64 70 ErrMalformedVarLong 10). Qed.

Lemma length_varint_le v : (length (varint v) ≤ 5)%nat.
Proof. rewrite length_varint. pose proof (VarIntLen_bounds v). lia. Qed.

Lemma leb_length n u : (length (leb n u) ≤ n)%nat.
Proof. revert u. induction n; intros; cbn [leb]; [done|]. case_match; simpl; [lia|]. specialize (IHn (u / 128)). lia. Qed.

Lemma FromBytes_varint v rest :
  is_int 32 v → ReadVarIntFromBytes (varint v ++ rest) = Ret (v, rest).
Proof.
  intros Hv. rewrite FromBytes_encoding by (apply varint_encodes || apply length_varint_le).
  by rewrite swrap_leb_varint.
Qed.

Lemma reads_varint v : is_int 32 v → reads ReadVarInt (varint v) v.
Proof.
  intros Hv. rewrite <- (swrap_leb_varint v Hv) at 2.
  apply reads_ReadVarInt; [apply varint_encodes|apply length_varint_le].
Qed.

Lemma reads_varlong v : is_int 64 v → reads ReadVarLong (varlong v) v.
Proof.
  intros Hv. rewrite <- (swrap_leb_varlong v Hv) at 2.
  apply reads_ReadVarLong; [apply varlong_encodes|apply leb_length].
Qed.

Lemma ReadVarInt_respects : respects ReadVarInt.
Proof. apply ReadVar_loop_respects; [apply ReadByte_action|apply DiscardVarInt_respects]. Qed.

Lemma ReadVarLong_respects : respects ReadVarLong.
Proof. apply ReadVar_loop_respects; [apply ReadByte_action|apply DiscardVarInt_respects]. Qed.
#[export] Hint Resolve ReadVarInt_respects ReadVarLong_respects : respects.

Lemma writes_VarInt v : writes (VarInt_WriteTo v) (varint v).
Proof.
  unfold VarInt_WriteTo. rewrite PutVarInt_spec.
  - intros w. unfold mbind, M_bind, liftO. rewrite <- length_varint, take_app_length.
    apply writes_Write.
  - rewrite length_replicate. apply VarIntLen_bounds.
Qed.

Lemma writes_VarLong v : writes (VarLong_WriteTo v) (varlong v).
Proof.
  unfold VarLong_WriteTo. rewrite PutVarLong_spec.
  - intros w. unfold mbind, M_bind, liftO. rewrite <- length_varlong, take_app_length.
    apply writes_Write.
  - rewrite length_replicate. apply VarLongLen_bounds.
Qed.

(** ** Lemmas: the remaining operations *)

Lemma puts_short bs buf i :
  (i ≤ length buf < i + length bs)%nat → puts buf i bs = Panic IndexOutOfRange.
Proof.
  revert buf i. induction bs as [|b bs IH]; intros buf i Hl; simpl in *; [lia|].
  unfold put_at. case_decide; [|done]. simpl. apply IH. rewrite length_insert. lia.
Qed.

Lemma PutVarInt_short buf v :
  (length buf < VarIntLen v)%nat → PutVarInt buf v = Panic IndexOutOfRange.
Proof.
  unfold PutVarInt, VarIntLen. intros Hl. switch; rewrite puts_short by (cbn [length]; lia); done.
Qed.

Lemma PutVarLong_short buf v :
  (length buf < VarLongLen v)%nat → PutVarLong buf v = Panic IndexOutOfRange.
Proof.
  unfold PutVarLong, VarLongLen. intros Hl. switch; rewrite puts_short by (cbn [length]; lia); done.
Qed.

Lemma varint_of_ok pre b rest acc k :
  Forall (λ c, final c = false) pre → final b = true → 0 ≤ acc < 2 ^ (7 * Z.of_nat k) →
  varint_of (s32 acc) k (pre ++ b :: rest)
  = s32 (acc + 2 ^ (7 * Z.of_nat k) * leb_val (pre ++ [b])).
Proof.
  intros Hpre Hb. revert acc k. induction Hpre as [|c pre Hc Hpre IH]; intros acc k Ha;
    cbn [app varint_of].
  - destruct (lor_group 32 acc b (7 * Z.of_nat k)) as [E _]; [lia..|].
    rewrite E, Hb. cbn [leb_val]. f_equal. lia.
  - destruct (lor_group 32 acc c (7 * Z.of_nat k)) as [E Hr]; [lia..|].
    rewrite E, Hc. replace (7 * Z.of_nat k + 7) with (7 * Z.of_nat (S k)) in * by lia.
    rewrite IH by lia. f_equal. cbn [leb_val].
    replace (7 * Z.of_nat (S k)) with (7 * Z.of_nat k + 7) by lia.
    rewrite Z.pow_add_r by lia. change (2 ^ 7) with 128. lia.
Qed.

Lemma reads_ReadVarIntN l : encoding l → reads (ReadVarIntN (Z.of_nat (length l))) l (s32 (leb_val l)).
Proof.
  intros (pre&b&->&Hpre&Hb). unfold ReadVarIntN. rewrite decide_True by lia. rewrite Nat2Z.id.
  eapply reads_bind_nil; [by apply reads_ReadFull|].
  pose proof (varint_of_ok pre b [] 0 0 Hpre Hb) as E.
  change (2 ^ (7 * Z.of_nat 0)) with 1 in E. rewrite Z.mul_1_l in E.
  change (varint_of 0 0 (pre ++ [b])) with (varint_of (s32 0) 0 (pre ++ [b])).
  rewrite E by lia. apply reads_ret.
Qed.

Lemma reads_varintN v :
  is_int 32 v → reads (ReadVarIntN (Z.of_nat (VarIntLen v))) (varint v) v.
Proof.
  intros Hv. pose proof (reads_ReadVarIntN (varint v) (proj1 (varint_encodes v))) as H.
  by rewrite swrap_leb_varint, length_varint in H.
Qed.

(** A [ByteReader] behaves as the abstract reader over its unread bytes. *)
Lemma ByteReader_ReadByte br :
  ∃ br', ByteReader.ReadByte br = ((ReadByte (ByteReader.view br)).1, br')
    ∧ ByteReader.view br' ≡ (ReadByte (ByteReader.view br)).2.
Proof.
  destruct br as [d p]. unfold ByteReader.ReadByte, ByteReader.view. simpl.
  destruct (d !! p) as [b|] eqn:E.
  - rewrite (drop_S d b p E). eexists. split; [done|].
    cbn [ByteReader.pos ByteReader.data]. by destruct (drop (S p) d); repeat split.
  - apply lookup_ge_None in E. rewrite drop_ge by done. eexists; split; [done|].
    simpl. by rewrite drop_ge by done.
Qed.

Lemma ByteReader_Read n br :
  ∃ br', ByteReader.Read n br = ((Read n (ByteReader.view br)).1, br')
    ∧ ByteReader.view br' ≡ (Read n (ByteReader.view br)).2.
Proof.
  destruct br as [d p]. unfold ByteReader.Read, ByteReader.view. simpl.
  case_decide.
  - rewrite drop_ge by done. eexists; split; [done|]. simpl. by rewrite drop_ge.
  - destruct (drop p d) as [|b l] eqn:E.
    { apply (f_equal length) in E. rewrite length_drop in E. simpl in E. lia. }
    eexists; split; [done|]. cbn [ByteReader.pos ByteReader.data].
    rewrite <- drop_drop, E, drop_take_length. unfold Read, set_chunks. simpl chunks.
    cbn [chunks rend is_reader snd]. by destruct (drop n (b :: l)); repeat split.
Qed.

(** The three cases of the slice decoder. *)
Lemma from_bytes_shape data :
  (∃ pre b rest, data = pre ++ b :: rest ∧ Forall (λ c, final c = false) pre
     ∧ final b = true ∧ (length pre < 5)%nat
     ∧ ReadVarIntFromBytes data = Ret (s32 (leb_val (pre ++ [b])), rest))
  ∨ (Forall (λ c, final c = false) data ∧ (length data < 5)%nat
     ∧ ReadVarIntFromBytes data = Err ErrPacketTooShort)
  ∨ (∃ pre rest, data = pre ++ rest ∧ Forall (λ c, final c = false) pre
     ∧ length pre = 5%nat ∧ ReadVarIntFromBytes data = Err ErrMalformedVarInt).
Proof.
  destruct (varint_shape_total data) as [pre b rest Hp Hb Hl|data Hp Hl|pre rest Hp Hl].
  - left. exists pre, b, rest. split_and!; [done..|].
    rewrite cons_middle, app_assoc. apply FromBytes_encoding; [by exists pre, b|].
    rewrite length_app. simpl. lia.
  - right; left. split_and!; [done..|]. unfold ReadVarIntFromBytes. case_decide; [done|].
    by apply (from_bytes_loop_short data 0 0).
  - right; right. exists pre, rest. split_and!; [done..|]. unfold ReadVarIntFromBytes.
    rewrite decide_False by (rewrite length_app; lia).
    by apply (from_bytes_loop_malformed pre rest 0 0); [..|lia].
Qed.

Lemma from_bytes_cases data :
  (∃ v rest, ReadVarIntFromBytes data = Ret (v, rest) ∧ is_int 32 v)
  ∨ (∃ e, ReadVarIntFromBytes data = Err e).
Proof.
  destruct (from_bytes_shape data) as [(pre&b&rest&_&_&_&_&->)|[(_&_&->)|(pre&rest&_&_&_&->)]];
    [left|right..]; eauto using swrap_range.
  eexists _, _. split; [done|]. by apply swrap_range.
Qed.

(** ** The properties of the component *)

(** C6. The unrolled encoders [PutVarInt] and [PutVarLong] agree with the reference
    base-128 encoding of the two's complement value: with room for
    [VarIntLen]/[VarLongLen] bytes they write exactly it at the front, leave the
    rest of the buffer alone and return its length; with less room they panic. *)
Theorem put_var_reference buf v :
  PutVarInt buf v =
    (if decide (VarIntLen v ≤ length buf)%nat
     then Ret (varint v ++ drop (length (varint v)) buf, length (varint v))
     else Panic IndexOutOfRange)
  ∧ PutVarLong buf v =
    (if decide (VarLongLen v ≤ length buf)%nat
     then Ret (varlong v ++ drop (length (varlong v)) buf, length (varlong v))
     else Panic IndexOutOfRange).
Proof.
  rewrite length_varint, length_varlong. split; case_decide.
  - by apply PutVarInt_spec.
  - apply PutVarInt_short. lia.
  - by apply PutVarLong_spec.
  - apply PutVarLong_short. lia.
Qed.

(** C7. Round trip: what [VarInt.WriteTo] emits for a 32-bit number is read back as the
    same number by every VarInt decoder of the package, and what [VarLong.WriteTo]
    emits for a 64-bit number by [ReadVarLong]; the stream decoders leave the input
    after it untouched. *)
Theorem var_roundtrip v l rest :
  is_int 32 v → is_int 64 l →
  writes (VarInt_WriteTo v) (varint v)
  ∧ ReadVarIntFromBytes (varint v ++ rest) = Ret (v, rest)
  ∧ reads ReadVarInt (varint v) v
  ∧ reads (ReadVarIntN (Z.of_nat (VarIntLen v))) (varint v) v
  ∧ writes (VarLong_WriteTo l) (varlong l)
  ∧ reads ReadVarLong (varlong l) l.
Proof.
  intros Hv Hl. split_and!.
  - apply writes_VarInt.
  - by apply FromBytes_varint.
  - by apply reads_varint.
  - by apply reads_varintN.
  - apply writes_VarLong.
  - by apply reads_varlong.
Qed.

Lemma var_roundtrip_witness :
  is_int 32 (-559038737) ∧ is_int 64 (-81985529216486896) ∧
  ReadVarIntFromBytes (varint (-559038737) ++ [x01]) = Ret (-559038737, [x01]) ∧
  reads ReadVarLong (varlong (-81985529216486896)) (-81985529216486896).
Proof.
  split; [by vm_compute|]. split; [by vm_compute|].
  split; by apply (var_roundtrip (-559038737) (-81985529216486896) [x01]); vm_compute.
Defined.

(** [ReadVarIntFromBytes] on every slice: a final group within five bytes gives
    the 32-bit value of the groups and the rest of the slice; five continuation
    bytes are malformed whatever follows; otherwise the slice is too short. *)
Theorem from_bytes_total data :
  (∃ pre b rest, data = pre ++ b :: rest ∧ Forall (λ c, final c = false) pre
     ∧ final b = true ∧ (length pre < 5)%nat
     ∧ ReadVarIntFromBytes data = Ret (s32 (leb_val (pre ++ [b])), rest))
  ∨ (Forall (λ c, final c = false) data ∧ (length data < 5)%nat
     ∧ ReadVarIntFromBytes data = Err ErrPacketTooShort)
  ∨ (∃ pre rest, data = pre ++ rest ∧ Forall (λ c, final c = false) pre
     ∧ length pre = 5%nat ∧ ReadVarIntFromBytes data = Err ErrMalformedVarInt).
Proof. apply from_bytes_shape. Qed.

(** C8. The stream decoder computes what the slice decoder does on the bytes to
    come: it always returns, with the same value and the same rest; where the slice
    is too short it returns the stream's own error; and on a malformed value it
    also skips the rest of the over-long encoding (at most ten more bytes). *)
Theorem ReadVarInt_from_bytes r :
  match ReadVarIntFromBytes (rflat r) with
  | Ret (v, rest) => ∃ r', ReadVarInt r = (Ret v, r') ∧ rflat r' = rest
  | Err ErrPacketTooShort => ∃ r', ReadVarInt r = (Err (rend r), r')
  | Err e => ∃ r', ReadVarInt r = (Err e, r') ∧ rflat r' = skip 10 (drop 5 (rflat r))
  | _ => False
  end.
Proof.
  destruct (from_bytes_shape (rflat r)) as [(pre&b&rest&E&Hp&Hb&Hl&->)|[(Hp&Hl&->)|(pre&rest&E&Hp&Hl&->)]].
  - destruct (ReadVar_loop_start _ DiscardVarInt ReadByte_action 32 35 ErrMalformedVarInt 5 eq_refl eq_refl r pre b rest 5)
      as (r'&?&?&_); [done..|]. by exists r'.
  - destruct (ReadVar_loop_eof _ DiscardVarInt ReadByte_action 32 35 ErrMalformedVarInt 5 eq_refl r 0 0 5)
      as (r'&?&_); [done|lia|lia|]. by exists r'.
  - destruct (ReadVar_loop_malformed _ DiscardVarInt ReadByte_action 32 35 ErrMalformedVarInt 5
      eq_refl r pre rest 0 0 5) as (r1&Hm&Hs&_); [done|done|lia|lia|].
    destruct (discard_spec 10 r1) as (r'&Hd&Hs'&_). exists r'. rewrite E, drop_app_exact by done.
    split; [|congruence]. unfold ReadVarInt. change 0 with (7 * Z.of_nat 0) at 2.
    rewrite Hm. unfold DiscardVarInt. by rewrite (bind_ret _ _ _ _ _ Hd).
Qed.

(** The encoder is optimal: no byte sequence of at most five groups that the
    decoder reads as [v] is shorter than [VarIntLen v], and there is one of that
    length. *)
Theorem varint_shortest v l :
  encoding l → (length l ≤ 5)%nat → ReadVarIntFromBytes l = Ret (v, []) →
  (VarIntLen v ≤ length l)%nat ∧ length (varint v) = VarIntLen v.
Proof.
  intros He Hl Hd. split; [|apply length_varint].
  pose proof (FromBytes_encoding l [] He Hl) as Hd'. rewrite app_nil_r, Hd in Hd'.
  injection Hd' as ->. pose proof (leb_val_bound l) as Hb.
  unfold VarIntLen. rewrite uwrap_swrap by done.
  assert (Hsmall : (length l < 5)%nat → u32 (leb_val l) = leb_val l).
  { intros. apply uwrap_id. unfold is_uint. split; [lia|].
    eapply Z.lt_le_trans; [apply Hb|]. transitivity (128 ^ 4); [|done].
    apply Z.pow_le_mono_r; lia. }
  destruct (decide (length l = 5)%nat) as [->|]; [switch; lia|].
  rewrite Hsmall by lia.
  destruct l as [|? [|? [|? [|? [|? ?]]]]]; cbn [length] in *; try lia;
    [by destruct He as ([]&?&?&?)|..]; simpl Z.of_nat in Hb; switch; lia.
Qed.

Lemma varint_shortest_witness :
  ReadVarIntFromBytes [xac; x82; x00] = Ret (300, []) ∧ (VarIntLen 300 ≤ 3)%nat.
Proof.
  split; [by vm_compute|].
  apply (varint_shortest 300 [xac; x82; x00]); [|simpl; lia|by vm_compute].
  exists [xac; x82], x00. split_and!; [done| |done]. repeat constructor.
Defined.
