(* ===== verification/Types.v ===== *)
(** * Protocol data types ([packet/types.go])

    Every type has its [WriteTo] and [ReadFrom]; the record [Codec] states what they
    promise to the rest of the package: [WriteTo] emits a fixed encoding and counts
    it, [ReadFrom] reads exactly that encoding back, and cannot see how the stream
    was cut into chunks.  A float is its bit pattern, a string its bytes. *)

From S2P Require Export VarInt.
#[local] Open Scope Z_scope.

(** ** The codec interface *)

Record Codec (A : Type) := mkCodec {
  wire_ok : A → Prop;                                  (* the values that survive the wire *)
  wire : A → list byte;                                (* the encoding *)
  write_to : A → M Writer (Z * option error);
  read_from : M Reader A;
  codec_writes : ∀ a, writes (write_to a) (wire a);
  codec_reads : ∀ a, wire_ok a → reads read_from (wire a) a;
  codec_respects : respects read_from;
}.
Arguments wire_ok {A} c.
Arguments wire {A} c.
Arguments write_to {A} c.
Arguments read_from {A} c.

(** ** One-byte types *)

Definition Byte_WriteTo (b : Z) : M Writer (Z * option error) := Write [to_byte b].
Definition Byte_ReadFrom : M Reader Z := val ← ReadByte; mret (s8 (ubyte val)).

Definition UnsignedByte_WriteTo (ub : Z) : M Writer (Z * option error) := Write [to_byte ub].
Definition UnsignedByte_ReadFrom : M Reader Z := val ← ReadByte; mret (ubyte val).

Definition Angle_WriteTo (a : Z) : M Writer (Z * option error) := Write [to_byte a].
Definition Angle_ReadFrom : M Reader Z := val ← ReadByte; mret (ubyte val).

Definition Boolean_WriteTo (b : bool) : M Writer (Z * option error) :=
  let val := if b then x01 else x00 in Write [val].
Definition Boolean_ReadFrom : M Reader bool :=
  val ← ReadByte; mret (negb (ubyte val =? 0)).

(** ** Big-endian fixed-width types *)

Definition Short_WriteTo (s : Z) : M Writer (Z * option error) := Write (be_put 2 (u16 s)).
Definition Short_ReadFrom : M Reader Z := buf ← ReadFullDyn 2; mret (s16 (be_get buf)).

Definition UnsignedShort_WriteTo (us : Z) : M Writer (Z * option error) := Write (be_put 2 (u16 us)).
Definition UnsignedShort_ReadFrom : M Reader Z := buf ← ReadFullDyn 2; mret (be_get buf).

Definition Int_WriteTo (i : Z) : M Writer (Z * option error) := Write (be_put 4 (u32 i)).
Definition Int_ReadFrom : M Reader Z := buf ← ReadFullDyn 4; mret (s32 (be_get buf)).

Definition Long_WriteTo (l : Z) : M Writer (Z * option error) := Write (be_put 8 (u64 l)).
Definition Long_ReadFrom : M Reader Z := buf ← ReadFullDyn 8; mret (s64 (be_get buf)).

(** A [float32]/[float64] is its bit pattern, so [math.Float32bits] and
    [math.Float32frombits] are the identity. *)
Definition Float_WriteTo (bits : Z) : M Writer (Z * option error) := Write (be_put 4 bits).
Definition Float_ReadFrom : M Reader Z := buf ← ReadFullDyn 4; mret (be_get buf).

Definition Double_WriteTo (bits : Z) : M Writer (Z * option error) := Write (be_put 8 bits).
Definition Double_ReadFrom : M Reader Z := buf ← ReadFullDyn 8; mret (be_get buf).

(** ** Strings and byte arrays *)

Definition MaxInt16 : Z := 32767.

Definition String_WriteTo (s : list byte) : M Writer (Z * option error) :=
  let length_ := s32 (Z.of_nat (length s)) in
  write_then (VarInt_WriteTo length_) (Write s).

Definition String_ReadFrom : M Reader (list byte) :=
  length_ ← VarInt_ReadFrom;
  if (length_ <? 0) || (MaxInt16 <? length_) then fail ErrPacketTooLarge
  else ReadFullDyn (Z.to_nat length_).

Definition UUID_WriteTo (u : list byte) : M Writer (Z * option error) := Write u.
Definition UUID_ReadFrom : M Reader (list byte) := ReadFullDyn 16.

Definition ByteArray_WriteTo (ba : list byte) : M Writer (Z * option error) := Write ba.
Definition ByteArray_ReadFrom (length_ : Z) : M Reader (list byte) :=
  if decide (0 ≤ length_) then ReadFullDyn (Z.to_nat length_) else crash MakeSliceLen.

(** ** Block positions *)

Record Position := mkPosition { posX : Z; posY : Z; posZ : Z }.

Definition Position_val (p : Position) : Z :=
  Z.lor
    (Z.lor (u64 (Z.shiftl (Z.land (u64 (posX p)) 0x3FFFFFF) 38))
           (u64 (Z.shiftl (Z.land (u64 (posZ p)) 0x3FFFFFF) 12)))
    (Z.land (u64 (posY p)) 0xFFF).

Definition Position_WriteTo (p : Position) : M Writer (Z * option error) :=
  Write (be_put 8 (Position_val p)).

Definition Position_of (val : Z) : Position :=
  let X := Z.shiftr val 38 in
  let Y := Z.land val 0xFFF in
  let Z' := Z.land (Z.shiftr val 12) 0x3FFFFFF in
  mkPosition
    (if 0x2000000 <=? X then X - 0x4000000 else X)
    (if 0x800 <=? Y then Y - 0x1000 else Y)
    (if 0x2000000 <=? Z' then Z' - 0x4000000 else Z').

Definition Position_ReadFrom : M Reader Position :=
  buf ← ReadFullDyn 8; mret (Position_of (be_get buf)).

(** ** NBT data and inventory slots *)

(** [NBT] is its [Data]. *)
Definition NBT_WriteTo (nbt : list byte) : M Writer (Z * option error) := Write nbt.

(** The loop of [NBT.ReadFrom]: append bytes until two zero bytes in a row. *)
Fixpoint NBT_loop (fuel : nat) (buf : list byte) : M Reader (list byte) :=
  match fuel with
  | O => block
  | S fuel' =>
      b ← ReadByte;
      let buf := buf ++ [b] in
      if (ubyte b =? 0) && (1 <? length buf)%nat
         && bool_decide (buf !! (length buf - 2)%nat = Some x00)
      then mret buf else NBT_loop fuel' buf
  end.

(** Each turn consumes a byte: one more turn than there are bytes is enough. *)
Definition NBT_ReadFrom : M Reader (list byte) := λ r,
  NBT_loop (S (length (rflat r))) [] r.

Record Slot := mkSlot {
  Present : bool;
  ItemID : Z;
  Count : Z;
  SlotNBT : list byte;
}.

Definition Slot_WriteTo (s : Slot) : M Writer (Z * option error) :=
  if Present s then
    write_then (Boolean_WriteTo true)
      (write_then (VarInt_WriteTo (ItemID s))
        (write_then (Byte_WriteTo (Count s)) (NBT_WriteTo (SlotNBT s))))
  else Boolean_WriteTo false.

(** [s] is the slot before the call; an absent slot keeps its other fields.  When a field
    cannot be read the code has already set the ones before it; the result is an error then,
    and what the receiver holds is not modelled. *)
Definition Slot_ReadFrom (s : Slot) : M Reader Slot :=
  present ← Boolean_ReadFrom;
  if (present : bool) then
    item ← VarInt_ReadFrom;
    count ← Byte_ReadFrom;
    nbt ← NBT_ReadFrom;
    mret (mkSlot true item count nbt)
  else mret (mkSlot false (ItemID s) (Count s) (SlotNBT s)).

(** ** Bit sets *)

Fixpoint BitSet_words (bs : list Z) : M Writer (Z * option error) :=
  match bs with
  | [] => mret (0, None)
  | v :: bs' => write_then (Write (be_put 8 v)) (BitSet_words bs')
  end.

Definition BitSet_WriteTo (bs : list Z) : M Writer (Z * option error) :=
  write_then (VarInt_WriteTo (s32 (Z.of_nat (length bs)))) (BitSet_words bs).

Fixpoint BitSet_read (n : nat) : M Reader (list Z) :=
  match n with
  | O => mret []
  | S n' => buf ← ReadFullDyn 8; rest ← BitSet_read n'; mret (be_get buf :: rest)
  end.

(** The words are read into a slice that the receiver has from the start; what it holds when
    one of them cannot be read is not modelled. *)
Definition BitSet_ReadFrom : M Reader (list Z) :=
  length_ ← VarInt_ReadFrom;
  if decide (0 ≤ length_) then BitSet_read (Z.to_nat length_) else crash MakeSliceLen.

(** ** Reference definitions *)

(** The bytes up to and including the first two zero bytes in a row. *)
Fixpoint nbt_take (prev_zero : bool) (l : list byte) : option (list byte) :=
  match l with
  | [] => None
  | b :: l' =>
      if (ubyte b =? 0) && prev_zero then Some [b]
      else cons b <$> nbt_take (ubyte b =? 0) l'
  end.

Definition nbt_ok (d : list byte) : Prop := nbt_take false d = Some d.

Definition bitset (bs : list Z) : list byte :=
  varint (s32 (Z.of_nat (length bs))) ++ concat (be_put 8 <$> bs).

Definition slot (s : Slot) : list byte :=
  if Present s then [x01] ++ varint (ItemID s) ++ [to_byte (Count s)] ++ SlotNBT s else [x00].

(** ** Lemmas *)

Lemma reads_byte_with {A} (f : byte → A) b v :
  f b = v → reads (val ← ReadByte; mret (f val)) [b] v.
Proof. intros <-. eapply reads_bind_nil; [apply reads_ReadByte|apply reads_ret]. Qed.

Lemma reads_full_with {A} (f : list byte → A) n l v :
  length l = n → f l = v → reads (buf ← ReadFullDyn n; mret (f buf)) l v.
Proof. intros <- <-. eapply reads_bind_nil; [by apply reads_ReadFullDyn|apply reads_ret]. Qed.

Lemma respects_byte_with {A} (f : byte → A) : respects (val ← ReadByte; mret (f val)).
Proof. auto with respects. Qed.

Lemma respects_full_with {A} (f : list byte → A) n :
  respects (buf ← ReadFullDyn n; mret (f buf)).
Proof. auto with respects. Qed.
#[export] Hint Resolve respects_byte_with respects_full_with : respects.

(** Signed and unsigned fixed-width integers. *)
Lemma s_be_get_put w n z :
  w = 8 * Z.of_nat n → 0 < w → is_int w z → swrap w (be_get (be_put n (uwrap w z))) = z.
Proof. intros -> Hw Hz. rewrite be_put_uwrap. by apply swrap_be_get_put. Qed.

Lemma u_be_get_put w n z :
  w = 8 * Z.of_nat n → is_uint w z → be_get (be_put n z) = z.
Proof. intros -> Hz. rewrite be_get_put. by apply uwrap_id. Qed.

Lemma s8_to_byte z : is_int 8 z → s8 (ubyte (to_byte z)) = z.
Proof.
  intros Hz. rewrite ubyte_to_byte. change (z mod 256) with (u8 z).
  rewrite swrap_uwrap by done. by apply swrap_id.
Qed.

Lemma u8_to_byte z : is_uint 8 z → ubyte (to_byte z) = z.
Proof. intros Hz. by apply ubyte_to_byte_small. Qed.

(** Strings. *)
Lemma reads_String (s : list byte) :
  Z.of_nat (length s) ≤ MaxInt16 →
  reads String_ReadFrom (varint (s32 (Z.of_nat (length s))) ++ s) s.
Proof.
  unfold MaxInt16. intros Hs. rewrite swrap_id by (unfold is_int; simpl; lia).
  eapply reads_bind; [apply reads_varint; unfold is_int; simpl; lia|].
  unfold MaxInt16. rewrite (proj2 (Z.ltb_ge _ _)) by lia. rewrite (proj2 (Z.ltb_ge _ _)) by lia.
  simpl. apply reads_ReadFullDyn. lia.
Qed.

(** A string past the limit is written, and refused by the reader. *)
Lemma String_too_large (s : list byte) r rest :
  MaxInt16 < Z.of_nat (length s) < 2 ^ 31 → is_reader r = true →
  rflat r = varint (s32 (Z.of_nat (length s))) ++ rest →
  ∃ r', String_ReadFrom r = (Err ErrPacketTooLarge, r').
Proof.
  intros Hs Hi Hf. rewrite swrap_id in Hf by (unfold is_int, MaxInt16 in *; lia).
  destruct (reads_varint (Z.of_nat (length s))
    ltac:(unfold is_int, MaxInt16 in *; simpl in *; lia) r rest Hi Hf) as (r'&Hr&_).
  unfold String_ReadFrom. exists r'. rewrite (bind_ret _ _ _ _ _ Hr).
  rewrite (proj2 (Z.ltb_lt MaxInt16 _)) by lia. by rewrite orb_true_r.
Qed.

(** Positions. *)
Lemma sign_adjust w v h m : 0 < w → h = 2 ^ (w - 1) → m = 2 ^ w → 0 ≤ v < 2 ^ w →
  (if h <=? v then v - m else v) = swrap w v.
Proof.
  intros Hw -> -> Hv. unfold swrap. pose proof (pow_half w Hw).
  pose proof (pow_half_pos w Hw). destruct (Z.leb_spec (2 ^ (w - 1)) v).
  - rewrite <- (Z.mod_unique (v + 2 ^ (w - 1)) (2 ^ w) 1 (v - 2 ^ (w - 1))); lia.
  - rewrite Z.mod_small; lia.
Qed.

Lemma Position_val_eq p :
  Position_val p =
    (posX p mod 2 ^ 26) * 2 ^ 38 + (posZ p mod 2 ^ 26) * 2 ^ 12 + posY p mod 2 ^ 12.
Proof.
  unfold Position_val.
  rewrite !(land_ones_mod _ 26 0x3FFFFFF), (land_ones_mod _ 12 0xFFF) by done.
  assert (Hm : ∀ z k, 0 ≤ k ≤ 64 → u64 z mod 2 ^ k = z mod 2 ^ k).
  { intros z k Hk. unfold uwrap. replace 64 with (k + (64 - k)) by lia.
    rewrite Z.pow_add_r by lia. rewrite Z.rem_mul_r by lia.
    by rewrite Z.mul_comm, Z_mod_plus_full, Z.mod_mod by lia. }
  rewrite !Hm by lia. clear Hm.
  pose proof (Z.mod_pos_bound (posX p) (2 ^ 26) eq_refl).
  pose proof (Z.mod_pos_bound (posY p) (2 ^ 12) eq_refl).
  pose proof (Z.mod_pos_bound (posZ p) (2 ^ 26) eq_refl).
  set (x := posX p mod 2 ^ 26) in *. set (y := posY p mod 2 ^ 12) in *.
  set (z := posZ p mod 2 ^ 26) in *. clearbody x y z.
  rewrite !uwrap_id by (unfold is_uint; rewrite Z.shiftl_mul_pow2 by lia; lia).
  rewrite (Z.shiftl_mul_pow2 z) by lia.
  rewrite (Z.lor_comm (Z.shiftl x 38)), lor_shiftl_add by lia.
  replace (z * 2 ^ 12 + x * 2 ^ 38) with ((z + x * 2 ^ 26) * 2 ^ 12) by lia.
  rewrite <- Z.shiftl_mul_pow2 by lia. rewrite Z.lor_comm, lor_shiftl_add by lia. lia.
Qed.

Lemma Position_of_val p :
  Position_of (be_get (be_put 8 (Position_val p)))
  = mkPosition (swrap 26 (posX p)) (swrap 12 (posY p)) (swrap 26 (posZ p)).
Proof.
  pose proof (Z.mod_pos_bound (posX p) (2 ^ 26) eq_refl).
  pose proof (Z.mod_pos_bound (posY p) (2 ^ 12) eq_refl).
  pose proof (Z.mod_pos_bound (posZ p) (2 ^ 26) eq_refl).
  rewrite Position_val_eq, (u_be_get_put 64) by (done || (unfold is_uint; lia)).
  rewrite <- (swrap_uwrap 26 (posX p)), <- (swrap_uwrap 12 (posY p)),
    <- (swrap_uwrap 26 (posZ p)). unfold uwrap.
  set (x := posX p mod 2 ^ 26) in *. set (y := posY p mod 2 ^ 12) in *.
  set (z := posZ p mod 2 ^ 26) in *. clearbody x y z.
  unfold Position_of. rewrite !(land_ones_mod _ 26 0x3FFFFFF), !(land_ones_mod _ 12 0xFFF) by done.
  rewrite !Z.shiftr_div_pow2 by lia.
  assert ((x * 2 ^ 38 + z * 2 ^ 12 + y) / 2 ^ 38 = x) as ->.
  { symmetry. apply (Z.div_unique _ _ _ (z * 2 ^ 12 + y)); lia. }
  assert ((x * 2 ^ 38 + z * 2 ^ 12 + y) mod 2 ^ 12 = y) as ->.
  { symmetry. apply (Z.mod_unique _ _ (x * 2 ^ 26 + z)); lia. }
  assert ((x * 2 ^ 38 + z * 2 ^ 12 + y) / 2 ^ 12 = x * 2 ^ 26 + z) as ->.
  { symmetry. apply (Z.div_unique _ _ _ y); lia. }
  assert ((x * 2 ^ 26 + z) mod 2 ^ 26 = z) as ->.
  { symmetry. apply (Z.mod_unique _ _ x); lia. }
  f_equal; by apply sign_adjust.
Qed.

(** NBT: the loop takes the bytes up to the first double zero. *)
Lemma NBT_loop_spec r buf fuel pz :
  (length (rflat r) < fuel)%nat →
  pz = bool_decide (last buf = Some x00) →
  match nbt_take pz (rflat r) with
  | Some d => ∃ r', NBT_loop fuel buf r = (Ret (buf ++ d), r')
      ∧ rflat r' = drop (length d) (rflat r) ∧ rend r' = rend r ∧ is_reader r' = is_reader r
  | None => ∃ r', NBT_loop fuel buf r = (Err (rend r), r')
      ∧ rflat r' = [] ∧ rend r' = rend r ∧ is_reader r' = is_reader r
  end.
Proof.
  revert r buf pz. induction fuel as [|fuel IH]; intros r buf pz Hf Hpz; [lia|].
  cbn [NBT_loop]. destruct (ReadByte_spec r) as (r1&Hr&Hfl&He&Hi).
  destruct (rflat r) as [|b l] eqn:El.
  { exists r1. rewrite (bind_err _ _ _ _ _ Hr). by split_and!. }
  rewrite (bind_ret _ _ _ _ _ Hr). simpl in Hfl. rewrite drop_0 in Hfl.
  assert (Hcond : (ubyte b =? 0) && (1 <? length (buf ++ [b]))%nat
      && bool_decide ((buf ++ [b]) !! (length (buf ++ [b]) - 2)%nat = Some x00)
    = (ubyte b =? 0) && pz).
  { subst pz. rewrite <- andb_assoc. f_equal. rewrite length_app. simpl.
    destruct buf as [|c buf] using rev_ind; [done|]. clear IHbuf.
    rewrite last_snoc, length_app. simpl.
    replace (1 <? length buf + 1 + 1)%nat with true by (symmetry; apply Nat.ltb_lt; lia).
    rewrite andb_true_l, lookup_app_l, lookup_app_r by (rewrite ?length_app; simpl; lia).
    by replace (length buf + 1 + 1 - 2 - length buf)%nat with O by lia. }
  cbv zeta. rewrite Hcond. cbn [nbt_take]. destruct ((ubyte b =? 0) && pz) eqn:Ec.
  { exists r1. by split_and!. }
  assert (Hlast : (ubyte b =? 0) = bool_decide (last (buf ++ [b]) = Some x00)).
  { rewrite last_snoc. clear. by destruct b. }
  specialize (IH r1 (buf ++ [b]) (ubyte b =? 0)). rewrite Hfl in IH.
  specialize (IH ltac:(simpl in Hf; lia) Hlast).
  destruct (nbt_take (ubyte b =? 0) l) as [d|]; simpl.
  - destruct IH as (r'&->&?&?&?). exists r'. rewrite <- app_assoc. split_and!; [done|done|congruence|congruence].
  - destruct IH as (r'&->&?&?&?). exists r'. rewrite He. split_and!; congruence.
Qed.

Lemma NBT_ReadFrom_spec r :
  match nbt_take false (rflat r) with
  | Some d => ∃ r', NBT_ReadFrom r = (Ret d, r')
      ∧ rflat r' = drop (length d) (rflat r) ∧ rend r' = rend r ∧ is_reader r' = is_reader r
  | None => ∃ r', NBT_ReadFrom r = (Err (rend r), r')
      ∧ rflat r' = [] ∧ rend r' = rend r ∧ is_reader r' = is_reader r
  end.
Proof. apply (NBT_loop_spec r [] (S (length (rflat r)))); [lia|done]. Qed.

Lemma nbt_take_app pz d l : nbt_take pz d = Some d → nbt_take pz (d ++ l) = Some d.
Proof.
  revert pz. induction d as [|b d IH]; intros pz; simpl; [done|].
  destruct (_ && _); [by intros [= <-]|].
  destruct (nbt_take _ d) as [d'|] eqn:E; simpl; [|done]. intros [= ->].
  by rewrite (IH _ E).
Qed.

Lemma reads_NBT d : nbt_ok d → reads NBT_ReadFrom d d.
Proof.
  intros Hd r rest Hi Hf. pose proof (NBT_ReadFrom_spec r) as H.
  rewrite Hf, (nbt_take_app _ _ _ Hd) in H. destruct H as (r'&?&Hd'&?&?).
  exists r'. split; [done|]. apply rest_of_equiv; [|done..]. by rewrite Hd', drop_app_length.
Qed.

Lemma NBT_respects : respects NBT_ReadFrom.
Proof.
  intros r1 r2 (Hf&He&Hi). pose proof (NBT_ReadFrom_spec r1) as H1.
  pose proof (NBT_ReadFrom_spec r2) as H2. rewrite Hf in H1.
  destruct (nbt_take false (rflat r2)).
  - destruct H1 as (r1'&->&?&?&?), H2 as (r2'&->&?&?&?). split; [done|]. split_and!; simpl; congruence.
  - destruct H1 as (r1'&->&?&?&?), H2 as (r2'&->&?&?&?). rewrite He.
    split; [done|]. split_and!; simpl; congruence.
Qed.

Lemma VarInt_ReadFrom_respects : respects VarInt_ReadFrom.
Proof. apply ReadVarInt_respects. Qed.
#[export] Hint Resolve NBT_respects VarInt_ReadFrom_respects : respects.

(** Slots. *)
Lemma writes_slot s : writes (Slot_WriteTo s) (slot s).
Proof.
  unfold Slot_WriteTo, slot. destruct (Present s); [|apply writes_Write].
  repeat apply writes_then; first [apply writes_VarInt | apply writes_Write].
Qed.

Lemma reads_slot s s0 :
  Present s = true → is_int 32 (ItemID s) → is_int 8 (Count s) → nbt_ok (SlotNBT s) →
  reads (Slot_ReadFrom s0) (slot s) s.
Proof.
  intros Hp Hi Hc Hn. unfold Slot_ReadFrom, slot. rewrite Hp.
  eapply reads_bind; [by apply (reads_byte_with _ x01 true)|]. simpl.
  eapply reads_bind; [by apply reads_varint|].
  change (to_byte (Count s) :: SlotNBT s) with ([to_byte (Count s)] ++ SlotNBT s).
  eapply reads_bind; [by apply (reads_byte_with (λ b, s8 (ubyte b))), s8_to_byte|].
  eapply reads_bind_nil; [by apply reads_NBT|]. destruct s; simpl in *; subst. apply reads_ret.
Qed.

Lemma reads_slot_absent s0 :
  reads (Slot_ReadFrom s0) [x00] (mkSlot false (ItemID s0) (Count s0) (SlotNBT s0)).
Proof.
  unfold Slot_ReadFrom. eapply reads_bind_nil; [by apply (reads_byte_with _ x00 false)|].
  apply reads_ret.
Qed.

Lemma Slot_respects s0 : respects (Slot_ReadFrom s0).
Proof.
  apply bind_respects; [apply respects_byte_with|]. intros []; [|apply ret_respects].
  apply bind_respects; [auto with respects|]. intros item.
  apply bind_respects; [apply respects_byte_with|]. intros count.
  apply bind_respects; [auto with respects|]. intros nbt. apply ret_respects.
Qed.

(** Bit sets. *)
Lemma writes_bitset bs : writes (BitSet_WriteTo bs) (bitset bs).
Proof.
  apply writes_then; [apply writes_VarInt|]. induction bs as [|v bs IH].
  - by apply writes_nil.
  - rewrite fmap_cons. cbn [BitSet_words concat]. apply writes_then; [apply writes_Write|done].
Qed.

Lemma reads_bitset_words bs :
  Forall (is_uint 64) bs → reads (BitSet_read (length bs)) (concat (be_put 8 <$> bs)) bs.
Proof.
  induction 1 as [|v bs Hv Hbs IH]; [apply reads_ret|].
  cbn [length BitSet_read]. rewrite fmap_cons. cbn [concat].
  eapply reads_bind; [by apply reads_ReadFullDyn; rewrite length_be_put|].
  eapply reads_bind_nil; [exact IH|].
  rewrite (u_be_get_put 64) by done. apply reads_ret.
Qed.

Lemma reads_bitset bs :
  Z.of_nat (length bs) < 2 ^ 31 → Forall (is_uint 64) bs → reads BitSet_ReadFrom (bitset bs) bs.
Proof.
  intros Hl Hbs. unfold bitset. rewrite swrap_id by (unfold is_int; simpl in *; lia).
  eapply reads_bind; [apply reads_varint; unfold is_int; simpl in *; lia|].
  rewrite decide_True, Nat2Z.id by lia. by apply reads_bitset_words.
Qed.

Lemma BitSet_respects : respects BitSet_ReadFrom.
Proof.
  apply bind_respects; [auto with respects|]. intros n. case_decide; [|apply crash_respects].
  generalize (Z.to_nat n). clear. induction n as [|n IH]; [apply ret_respects|]. cbn [BitSet_read].
  auto with respects.
Qed.

Lemma String_respects : respects String_ReadFrom.
Proof.
  apply bind_respects; [auto with respects|]. intros n. destruct (_ || _); auto with respects.
Qed.

(** ** The codecs of the package *)

Lemma bool_byte (b : bool) : negb (ubyte (if b then x01 else x00) =? 0) = b.
Proof. by destruct b. Qed.

Definition byte_codec : Codec Z := {|
  wire_ok := is_int 8; wire z := [to_byte z];
  write_to := Byte_WriteTo; read_from := Byte_ReadFrom;
  codec_writes z := writes_Write _;
  codec_reads z Hz := reads_byte_with _ _ _ (s8_to_byte z Hz);
  codec_respects := respects_byte_with _ |}.

Definition ubyte_codec : Codec Z := {|
  wire_ok := is_uint 8; wire z := [to_byte z];
  write_to := UnsignedByte_WriteTo; read_from := UnsignedByte_ReadFrom;
  codec_writes z := writes_Write _;
  codec_reads z Hz := reads_byte_with _ _ _ (u8_to_byte z Hz);
  codec_respects := respects_byte_with _ |}.

Definition angle_codec : Codec Z := {|
  wire_ok := is_uint 8; wire z := [to_byte z];
  write_to := Angle_WriteTo; read_from := Angle_ReadFrom;
  codec_writes z := writes_Write _;
  codec_reads z Hz := reads_byte_with _ _ _ (u8_to_byte z Hz);
  codec_respects := respects_byte_with _ |}.

Definition boolean_codec : Codec bool := {|
  wire_ok _ := True; wire (b : bool) := [if b then x01 else x00];
  write_to := Boolean_WriteTo; read_from := Boolean_ReadFrom;
  codec_writes b := writes_Write _;
  codec_reads b _ := reads_byte_with _ _ _ (bool_byte b);
  codec_respects := respects_byte_with _ |}.

Definition short_codec : Codec Z := {|
  wire_ok := is_int 16; wire z := be_put 2 (u16 z);
  write_to := Short_WriteTo; read_from := Short_ReadFrom;
  codec_writes z := writes_Write _;
  codec_reads z Hz := reads_full_with _ _ _ _ (length_be_put _ _) (s_be_get_put 16 2 z eq_refl eq_refl Hz);
  codec_respects := respects_full_with _ _ |}.

Definition int_codec : Codec Z := {|
  wire_ok := is_int 32; wire z := be_put 4 (u32 z);
  write_to := Int_WriteTo; read_from := Int_ReadFrom;
  codec_writes z := writes_Write _;
  codec_reads z Hz := reads_full_with _ _ _ _ (length_be_put _ _) (s_be_get_put 32 4 z eq_refl eq_refl Hz);
  codec_respects := respects_full_with _ _ |}.

Definition long_codec : Codec Z := {|
  wire_ok := is_int 64; wire z := be_put 8 (u64 z);
  write_to := Long_WriteTo; read_from := Long_ReadFrom;
  codec_writes z := writes_Write _;
  codec_reads z Hz := reads_full_with _ _ _ _ (length_be_put _ _) (s_be_get_put 64 8 z eq_refl eq_refl Hz);
  codec_respects := respects_full_with _ _ |}.

Lemma ushort_bits z : is_uint 16 z → be_get (be_put 2 (u16 z)) = z.
Proof. intros Hz. rewrite uwrap_id by done. by apply (u_be_get_put 16 2). Qed.

Definition ushort_codec : Codec Z := {|
  wire_ok := is_uint 16; wire z := be_put 2 (u16 z);
  write_to := UnsignedShort_WriteTo; read_from := UnsignedShort_ReadFrom;
  codec_writes z := writes_Write _;
  codec_reads z Hz := reads_full_with _ _ _ _ (length_be_put _ _) (ushort_bits z Hz);
  codec_respects := respects_full_with _ _ |}.

Definition float_codec : Codec Z := {|
  wire_ok := is_uint 32; wire z := be_put 4 z;
  write_to := Float_WriteTo; read_from := Float_ReadFrom;
  codec_writes z := writes_Write _;
  codec_reads z Hz := reads_full_with _ _ _ _ (length_be_put _ _) (u_be_get_put 32 4 z eq_refl Hz);
  codec_respects := respects_full_with _ _ |}.

Definition double_codec : Codec Z := {|
  wire_ok := is_uint 64; wire z := be_put 8 z;
  write_to := Double_WriteTo; read_from := Double_ReadFrom;
  codec_writes z := writes_Write _;
  codec_reads z Hz := reads_full_with _ _ _ _ (length_be_put _ _) (u_be_get_put 64 8 z eq_refl Hz);
  codec_respects := respects_full_with _ _ |}.

Definition varint_codec : Codec Z := {|
  wire_ok := is_int 32; wire := varint;
  write_to := VarInt_WriteTo; read_from := VarInt_ReadFrom;
  codec_writes := writes_VarInt; codec_reads := reads_varint;
  codec_respects := ReadVarInt_respects |}.

Definition varlong_codec : Codec Z := {|
  wire_ok := is_int 64; wire := varlong;
  write_to := VarLong_WriteTo; read_from := VarLong_ReadFrom;
  codec_writes := writes_VarLong; codec_reads := reads_varlong;
  codec_respects := ReadVarLong_respects |}.

Definition string_codec : Codec (list byte) := {|
  wire_ok (s : list byte) := Z.of_nat (length s) ≤ MaxInt16;
  wire (s : list byte) := varint (s32 (Z.of_nat (length s))) ++ s;
  write_to := String_WriteTo; read_from := String_ReadFrom;
  codec_writes s := writes_then _ _ _ _ (writes_VarInt _) (writes_Write _);
  codec_reads := reads_String; codec_respects := String_respects |}.

Definition uuid_codec : Codec (list byte) := {|
  wire_ok (u : list byte) := 16%nat = length u; wire u := u;
  write_to := UUID_WriteTo; read_from := UUID_ReadFrom;
  codec_writes u := writes_Write _;
  codec_reads u Hu := reads_ReadFullDyn u 16 Hu;
  codec_respects := ReadFullDyn_respects 16 |}.

Definition position_ok (p : Position) : Prop :=
  is_int 26 (posX p) ∧ is_int 12 (posY p) ∧ is_int 26 (posZ p).

Lemma Position_roundtrip p :
  position_ok p → Position_of (be_get (be_put 8 (Position_val p))) = p.
Proof.
  intros (Hx&Hy&Hz). rewrite Position_of_val, !swrap_id by done. by destruct p.
Qed.

Definition position_codec : Codec Position := {|
  wire_ok := position_ok; wire p := be_put 8 (Position_val p);
  write_to := Position_WriteTo; read_from := Position_ReadFrom;
  codec_writes p := writes_Write _;
  codec_reads p Hp := reads_full_with _ _ _ _ (length_be_put _ _) (Position_roundtrip p Hp);
  codec_respects := respects_full_with _ _ |}.

Definition nbt_codec : Codec (list byte) := {|
  wire_ok := nbt_ok; wire d := d;
  write_to := NBT_WriteTo; read_from := NBT_ReadFrom;
  codec_writes d := writes_Write d; codec_reads := reads_NBT;
  codec_respects := NBT_respects |}.

Definition zero_slot : Slot := mkSlot false 0 0 [].

(** An absent slot is read into the zero value, so only that one survives. *)
Definition slot_ok (s : Slot) : Prop :=
  if Present s then is_int 32 (ItemID s) ∧ is_int 8 (Count s) ∧ nbt_ok (SlotNBT s)
  else s = zero_slot.

Lemma reads_slot_ok s : slot_ok s → reads (Slot_ReadFrom zero_slot) (slot s) s.
Proof.
  unfold slot_ok. destruct (Present s) eqn:Hp.
  - intros (?&?&?). by apply reads_slot.
  - intros ->. apply (reads_slot_absent zero_slot).
Qed.

Definition slot_codec : Codec Slot := {|
  wire_ok := slot_ok; wire := slot;
  write_to := Slot_WriteTo; read_from := Slot_ReadFrom zero_slot;
  codec_writes := writes_slot; codec_reads := reads_slot_ok;
  codec_respects := Slot_respects zero_slot |}.

Definition bitset_ok (bs : list Z) : Prop :=
  Z.of_nat (length bs) < 2 ^ 31 ∧ Forall (is_uint 64) bs.

Definition bitset_codec : Codec (list Z) := {|
  wire_ok := bitset_ok; wire := bitset;
  write_to := BitSet_WriteTo; read_from := BitSet_ReadFrom;
  codec_writes := writes_bitset;
  codec_reads bs H := reads_bitset bs (proj1 H) (proj2 H);
  codec_respects := BitSet_respects |}.

(** ** Sequences of fields *)

Inductive kind :=
| KByte | KUnsignedByte | KAngle | KBoolean | KShort | KUnsignedShort | KInt | KLong
| KFloat | KDouble | KVarInt | KVarLong | KString | KUUID | KPosition | KNBT | KSlot | KBitSet.

Definition carrier (k : kind) : Type :=
  match k with
  | KBoolean => bool
  | KString | KUUID | KNBT => list byte
  | KPosition => Position
  | KSlot => Slot
  | KBitSet => list Z
  | _ => Z
  end.

Definition codec_of (k : kind) : Codec (carrier k) :=
  match k with
  | KByte => byte_codec | KUnsignedByte => ubyte_codec | KAngle => angle_codec
  | KBoolean => boolean_codec | KShort => short_codec | KUnsignedShort => ushort_codec
  | KInt => int_codec | KLong => long_codec | KFloat => float_codec | KDouble => double_codec
  | KVarInt => varint_codec | KVarLong => varlong_codec | KString => string_codec
  | KUUID => uuid_codec | KPosition => position_codec | KNBT => nbt_codec
  | KSlot => slot_codec | KBitSet => bitset_codec
  end.

Definition field : Type := { k : kind & carrier k }.
Definition field_kind (f : field) : kind := projT1 f.
Definition field_ok (f : field) : Prop := wire_ok (codec_of (projT1 f)) (projT2 f).
Definition field_wire (f : field) : list byte := wire (codec_of (projT1 f)) (projT2 f).

(** [f1.WriteTo(w); f2.WriteTo(w); ...] and the matching reads. *)
Fixpoint write_fields (fs : list field) : M Writer (Z * option error) :=
  match fs with
  | [] => mret (0, None)
  | f :: fs' => write_then (write_to (codec_of (projT1 f)) (projT2 f)) (write_fields fs')
  end.

Fixpoint read_fields (ks : list kind) : M Reader (list field) :=
  match ks with
  | [] => mret []
  | k :: ks' =>
      v ← read_from (codec_of k);
      rest ← read_fields ks';
      mret (existT k v :: rest)
  end.

(** ** What is read is in the range of its type *)

(** The values a reading computation can return. *)
Definition returns_only {A} (m : M Reader A) (P : A → Prop) : Prop := ∀ r a r', m r = (Ret a, r') → P a.

Lemma returns_ret {A} (a : A) (P : A → Prop) : P a → returns_only (mret a) P.
Proof. by intros ? r a' r' [= <- _]. Qed.

Lemma returns_fail {A} e (P : A → Prop) : returns_only (fail e) P.
Proof. by intros r a r'. Qed.

Lemma returns_crash {A} p (P : A → Prop) : returns_only (crash p) P.
Proof. by intros r a r'. Qed.

Lemma returns_block {A} (P : A → Prop) : returns_only block P.
Proof. by intros r a r'. Qed.

Lemma returns_bind {A B} (m : M Reader A) (k : A → M Reader B) Q P :
  returns_only m Q → (∀ a, Q a → returns_only (k a) P) → returns_only (m ≫= k) P.
Proof. intros Hm Hk r b r' (a&r1&H1&H2)%bind_ret_inv. by eapply Hk; [eapply Hm|]. Qed.

Lemma returns_full n : returns_only (ReadFullDyn n) (λ bs, length bs = n).
Proof.
  intros r bs r'. unfold ReadFullDyn. destruct (is_reader r); [|done].
  destruct (ReadFull_spec n r) as (r1&->&_). case_decide; [|done]. intros [= <- _]. rewrite length_take. lia.
Qed.

Lemma returns_any {A} (m : M Reader A) : returns_only m (λ _, True).
Proof. done. Qed.

Create HintDb returns.
#[export] Hint Resolve returns_ret returns_fail returns_crash returns_block returns_full returns_any : returns.

Lemma returns_byte_with {A} (f : byte → A) (P : A → Prop) : (∀ b, P (f b)) → returns_only (val ← ReadByte; mret (f val)) P.
Proof. intros H. eapply returns_bind; [apply returns_any|]. intros b _. by apply returns_ret. Qed.

Lemma returns_full_with {A} (f : list byte → A) n (P : A → Prop) :
  (∀ bs, length bs = n → P (f bs)) → returns_only (buf ← ReadFullDyn n; mret (f buf)) P.
Proof. intros H. eapply returns_bind; [apply returns_full|]. intros bs Hb. by apply returns_ret, H. Qed.

Lemma returns_ReadVar rd bad w limit e fuel : ∀ val shift,
  0 < w → is_int w val → returns_only (ReadVar_loop rd bad w limit e fuel val shift) (is_int w).
Proof.
  induction fuel as [|fuel IH]; intros val shift Hw Hv; cbn [ReadVar_loop]; [apply returns_block|].
  eapply returns_bind; [apply returns_any|]. intros b _.
  assert (Hl : is_int w (Z.lor val (group w b shift))).
  { unfold group. rewrite <- (swrap_id w Hw val Hv), <- swrap_lor by done. by apply swrap_range. }
  destruct (final b); [by apply returns_ret|]. destruct (_ <=? _); [|by apply IH].
  eapply returns_bind; [apply returns_any|]. intros _ _. apply returns_fail.
Qed.

Lemma returns_VarInt : returns_only VarInt_ReadFrom (is_int 32).
Proof. by apply returns_ReadVar. Qed.
Lemma returns_VarLong : returns_only VarLong_ReadFrom (is_int 64).
Proof. by apply returns_ReadVar. Qed.

Lemma be_get_uint n bs : length bs = n → is_uint (8 * Z.of_nat n) (be_get bs).
Proof. intros <-. apply be_get_range. Qed.

Lemma ubyte_uint b : is_uint 8 (ubyte b).
Proof. pose proof (ubyte_range b). unfold is_uint. change (2 ^ 8) with 256. lia. Qed.

Lemma Position_of_ok v : is_uint 64 v → position_ok (Position_of v).
Proof.
  intros [H0 H1]. unfold Position_of, position_ok. cbn [posX posY posZ].
  rewrite !(land_ones_mod _ 26 0x3FFFFFF), !(land_ones_mod _ 12 0xFFF), !Z.shiftr_div_pow2 by done.
  assert (Hx : 0 ≤ v / 2 ^ 38 < 2 ^ 26) by (split; [apply Z.div_pos; lia|apply Z.div_lt_upper_bound; lia]).
  pose proof (Z.mod_pos_bound v (2 ^ 12) eq_refl). pose proof (Z.mod_pos_bound (v / 2 ^ 12) (2 ^ 26) eq_refl).
  rewrite (sign_adjust 26 (v / 2 ^ 38)), (sign_adjust 12), (sign_adjust 26 (_ mod _)) by done. split_and!; by apply swrap_range.
Qed.

Lemma nbt_take_ok pz l d : nbt_take pz l = Some d → nbt_take pz d = Some d.
Proof.
  revert pz d. induction l as [|b l IH]; intros pz d; cbn [nbt_take]; [done|].
  destruct ((ubyte b =? 0) && pz) eqn:E; [intros [= <-]; cbn [nbt_take]; by rewrite E|].
  destruct (nbt_take (ubyte b =? 0) l) as [d'|] eqn:E'; [|done]. intros [= <-]. cbn [nbt_take]. by rewrite E, (IH _ _ E').
Qed.

Lemma returns_NBT : returns_only NBT_ReadFrom nbt_ok.
Proof.
  intros r d r' Hd. pose proof (NBT_ReadFrom_spec r) as H. unfold nbt_ok.
  destruct (nbt_take false (rflat r)) as [d'|] eqn:E.
  - destruct H as (r1&H&_). rewrite Hd in H. injection H as -> _. by eapply nbt_take_ok.
  - destruct H as (r1&H&_). by rewrite Hd in H.
Qed.

Lemma returns_Slot : returns_only (Slot_ReadFrom zero_slot) slot_ok.
Proof.
  unfold Slot_ReadFrom. eapply returns_bind; [apply returns_any|]. intros [] _; [|by apply returns_ret].
  eapply returns_bind; [apply returns_VarInt|]. intros item Hi.
  eapply returns_bind; [apply returns_byte_with; intros b; by apply (swrap_range 8)|]. intros cnt Hc.
  eapply returns_bind; [apply returns_NBT|]. intros nbt Hn. by apply returns_ret.
Qed.

Lemma returns_BitSet : returns_only BitSet_ReadFrom bitset_ok.
Proof.
  assert (Hw : ∀ n, returns_only (BitSet_read n) (λ bs, length bs = n ∧ Forall (is_uint 64) bs)).
  { induction n as [|n IH]; cbn [BitSet_read]; [by apply returns_ret|]. eapply returns_bind; [apply returns_full|]. intros buf Hb.
    eapply returns_bind; [exact IH|]. intros bs [Hl Hf]. apply returns_ret. split; [simpl; lia|].
    constructor; [by apply (be_get_uint 8)|done]. }
  eapply returns_bind; [apply returns_VarInt|]. intros n [_ Hn]. case_decide; [|apply returns_crash].
  intros r bs r' H1. destruct (Hw _ _ _ _ H1) as [Hl Hf]. split; [|done]. rewrite Hl. change (2 ^ (32 - 1)) with (2 ^ 31) in Hn. lia.
Qed.

Lemma returns_String : returns_only String_ReadFrom (λ s, Z.of_nat (length s) ≤ MaxInt16).
Proof.
  eapply returns_bind; [apply returns_any|]. intros n _. destruct (Z.ltb_spec n 0); [apply returns_fail|].
  destruct (Z.ltb_spec MaxInt16 n); [apply returns_fail|]. intros r bs r' Hb%returns_full. lia.
Qed.

Lemma codec_typed k : returns_only (read_from (codec_of k)) (wire_ok (codec_of k)).
Proof.
  destruct k; cbn [codec_of read_from wire_ok byte_codec ubyte_codec angle_codec boolean_codec short_codec ushort_codec int_codec
    long_codec float_codec double_codec varint_codec varlong_codec string_codec uuid_codec position_codec nbt_codec slot_codec bitset_codec].
  - apply returns_byte_with. intros b. by apply swrap_range.
  - apply returns_byte_with, ubyte_uint.
  - apply returns_byte_with, ubyte_uint.
  - by apply returns_byte_with.
  - apply returns_full_with. intros. by apply swrap_range.
  - apply returns_full_with. intros. by apply (be_get_uint 2).
  - apply returns_full_with. intros. by apply swrap_range.
  - apply returns_full_with. intros. by apply swrap_range.
  - apply returns_full_with. intros. by apply (be_get_uint 4).
  - apply returns_full_with. intros. by apply (be_get_uint 8).
  - apply returns_VarInt.
  - apply returns_VarLong.
  - apply returns_String.
  - intros r u r' H. symmetry. by eapply returns_full.
  - apply returns_full_with. intros. by apply Position_of_ok, (be_get_uint 8).
  - apply returns_NBT.
  - apply returns_Slot.
  - apply returns_BitSet.
Qed.

(** ** The properties of the component *)

(** C9. Round trip of every protocol type at once: any sequence of values of the
    eighteen types, each in the range of its type, is written by the [WriteTo]
    methods as the concatenation of the encodings (on a write error, a counted
    prefix of it) and read back, in order, by the [ReadFrom] methods. *)
Theorem fields_roundtrip fs :
  Forall field_ok fs →
  writes (write_fields fs) (concat (field_wire <$> fs))
  ∧ reads (read_fields (field_kind <$> fs)) (concat (field_wire <$> fs)) fs.
Proof.
  induction 1 as [|[k v] fs Hf Hfs [IHw IHr]]; [split; [by apply writes_nil|apply reads_ret]|].
  rewrite !fmap_cons. cbn [concat]. split.
  - apply writes_then; [apply codec_writes|done].
  - eapply reads_bind; [by apply (codec_reads _ (codec_of k))|].
    eapply reads_bind_nil; [exact IHr|apply reads_ret].
Qed.

Lemma fields_roundtrip_witness :
  let fs : list field := [existT KVarInt 773; existT KString [x68; x69];
    existT KPosition (mkPosition 100 64 (-200))] in
  Forall field_ok fs ∧ reads (read_fields (field_kind <$> fs)) (concat (field_wire <$> fs)) fs.
Proof.
  intros fs. assert (Forall field_ok fs) as H.
  { repeat constructor; vm_compute; intros; congruence. }
  split; [exact H|]. by apply fields_roundtrip.
Defined.

(** C10. What comes off the wire is well typed: whatever the input, hostile or not, the values the
    [ReadFrom] methods return are in the range of their types (integers of their width,
    coordinates of 26 and 12 bits, strings of at most 32767 bytes, bit sets of 64-bit
    words), one per type asked for, in order; hence writing them back gives bytes that
    read as the same values. *)
Theorem read_values_typed ks r fs r' :
  read_fields ks r = (Ret fs, r') →
  field_kind <$> fs = ks ∧ Forall field_ok fs
  ∧ reads (read_fields ks) (concat (field_wire <$> fs)) fs.
Proof.
  revert r fs r'. induction ks as [|k ks IH]; intros r fs r'; cbn [read_fields].
  - intros [= <- _]. split_and!; [done|constructor|apply reads_ret].
  - intros (v&r1&Hv&(rest&r2&Hr&[= <- _])%bind_ret_inv)%bind_ret_inv. destruct (IH _ _ _ Hr) as (H1&H2&H3).
    assert (Hok : wire_ok (codec_of k) v) by (by eapply codec_typed). split_and!.
    + rewrite fmap_cons, H1. done.
    + constructor; done.
    + rewrite fmap_cons. cbn [concat]. eapply reads_bind; [by apply (codec_reads _ (codec_of k))|].
      eapply reads_bind_nil; [exact H3|apply reads_ret].
Qed.

Lemma read_values_typed_witness :
  let r := reader_of [x2a; xff; xff; xff; xff; xff; xff; xff; xff] in
  ∃ fs r', read_fields [KVarInt; KPosition] r = (Ret fs, r') ∧ Forall field_ok fs.
Proof.
  intros r. destruct (read_fields [KVarInt; KPosition] r) as [[fs| | |] r'] eqn:E; [|vm_compute in E; discriminate E..].
  exists fs, r'. split; [reflexivity|]. exact (proj1 (proj2 (read_values_typed [KVarInt; KPosition] r fs r' E))).
Defined.

(** [Position] packs two 26-bit and one 12-bit signed coordinate: whatever the
    64-bit coordinates written, reading gives each of them reduced to its field,
    hence the same position when they fit. *)
Theorem Position_wire p :
  reads Position_ReadFrom (wire position_codec p)
    (mkPosition (swrap 26 (posX p)) (swrap 12 (posY p)) (swrap 26 (posZ p)))
  ∧ (position_ok p →
     mkPosition (swrap 26 (posX p)) (swrap 12 (posY p)) (swrap 26 (posZ p)) = p).
Proof.
  split.
  - apply reads_full_with; [apply length_be_put|apply Position_of_val].
  - intros (?&?&?). rewrite !swrap_id by done. by destruct p.
Qed.

(** [NBT.ReadFrom] terminates on every input and returns the bytes up to the
    first pair of zero bytes, or the reader's error when there is none; so an item
    slot written with an empty NBT value is not read back. *)
Theorem NBT_stops r :
  match nbt_take false (rflat r) with
  | Some d => ∃ r', NBT_ReadFrom r = (Ret d, r') ∧ rflat r' = drop (length d) (rflat r)
  | None => ∃ r', NBT_ReadFrom r = (Err (rend r), r')
  end
  ∧ (Slot_ReadFrom zero_slot (reader_of (slot (mkSlot true 42 10 [])))).1 = Err EOF.
Proof.
  split; [|by vm_compute]. pose proof (NBT_ReadFrom_spec r) as H.
  destruct (nbt_take false (rflat r)).
  - destruct H as (r'&?&?&_). by exists r'.
  - destruct H as (r'&?&_). by exists r'.
Qed.

(** Length prefixes from the wire: [String.ReadFrom] refuses lengths outside
    0..32767 with an error, although [String.WriteTo] writes such strings;
    [BitSet.ReadFrom] has no such check and panics on a negative length. *)
Theorem length_prefixes n rest r :
  is_int 32 n → is_reader r = true → rflat r = varint n ++ rest →
  ((n < 0 ∨ MaxInt16 < n) → ∃ r', String_ReadFrom r = (Err ErrPacketTooLarge, r'))
  ∧ (n < 0 → ∃ r', BitSet_ReadFrom r = (Panic MakeSliceLen, r')).
Proof.
  intros Hn Hi Hf. destruct (reads_varint n Hn r rest Hi Hf) as (r'&Hr&_).
  unfold String_ReadFrom, BitSet_ReadFrom, VarInt_ReadFrom.
  rewrite !(bind_ret _ _ _ _ _ Hr). split.
  - intros H. exists r'. unfold MaxInt16 in *.
    destruct (Z.ltb_spec n 0); [done|]. destruct (Z.ltb_spec 32767 n); [done|lia].
  - intros H. exists r'. by rewrite decide_False by lia.
Qed.

Lemma length_prefixes_witness :
  (∃ r', BitSet_ReadFrom (reader_of (varint (-1))) = (Panic MakeSliceLen, r')).
Proof.
  apply (length_prefixes (-1) [] (reader_of (varint (-1)))); [by vm_compute|done|by vm_compute|lia].
Defined.
