(* ===== verification/Compress.v ===== *)
(** * Compression ([compress/zlib.go], [compress/pool.go], [compress/threshold.go])

    The DEFLATE codec itself (the [klauspost/compress] writer and the [zlib]
    reader) is not part of the repository: it is the parameter [Zlib], and
    [ZlibOk] collects what the code relies on. *)

From S2P Require Export GoIO.
#[local] Open Scope Z_scope.

(** What a zlib writer and reader do. [z_open] is [zlib.NewReader] or [Reset] on a
    compressed stream: an error, or the bytes it will deliver and the error after
    them ([EOF] at the proper end). *)
Class Zlib := {
  z_new : Z → option error;               (* [NewWriterLevel], by level *)
  z_write : list byte → option error;     (* [Write] to a buffer *)
  z_close : list byte → option error;     (* [Close] after that [Write] *)
  z_deflate : list byte → list byte;      (* what both put in the buffer *)
  z_open : list byte → (list byte * error) + error;
}.

(** Writing to an in-memory buffer does not fail, and the reader returns what the
    writer was given. *)
Class ZlibOk (Z0 : Zlib) : Prop := {
  z_new_ok : z_new (-1) = None;
  z_write_ok : ∀ d, z_write d = None;
  z_close_ok : ∀ d, z_close d = None;
  z_roundtrip : ∀ d, z_open (z_deflate d) = inl (d, EOF);
}.

(** [writerPool] and [readerPool]: how many idle objects they hold.  A [sync.Pool] may
    also drop idle objects at any time, so statements are made for every count. *)
Record ZPools := mkZPools { writers : nat; readers : nat }.

Definition kzlib_DefaultCompression : Z := -1.

Section zlib.
Context `{Zlib}.

Definition getWriter : M ZPools () := λ s,
  match writers s with
  | S n => (Ret (), mkZPools n (readers s))
  | O => match z_new kzlib_DefaultCompression with
         | None => (Ret (), s)
         | Some e => (Err e, s)
         end
  end.

Definition putWriter : M ZPools () := λ s, (Ret (), mkZPools (S (writers s)) (readers s)).

Definition getReader (data : list byte) : M ZPools (list byte * error) := λ s,
  match readers s with
  | S n => match z_open data with
           | inl out => (Ret out, mkZPools (writers s) n)
           | inr e => (Err e, mkZPools (writers s) n)
           end
  | O => match z_open data with
         | inl out => (Ret out, s)
         | inr e => (Err e, s)
         end
  end.

Definition putReader : M ZPools () := λ s, (Ret (), mkZPools (writers s) (S (readers s))).

(** [defer put; ...]: the deferred call runs whatever the outcome. *)
Definition deferring {A} (d : M ZPools ()) (m : M ZPools A) : M ZPools A := λ s,
  match m s with (o, s') => (o, (d s').2) end.

Definition Compress (data : list byte) : M ZPools (list byte) :=
  getWriter;;
  deferring putWriter
    match z_write data with
    | Some _ => fail ErrCompressionFailed
    | None => match z_close data with
              | Some _ => fail ErrCompressionFailed
              | None => mret (z_deflate data)
              end
    end.

(** [io.CopyN(&buf, r, n)]: the bytes copied and the error. *)
Definition CopyN (out : list byte) (e : error) (n : Z) : list byte * option error :=
  let k := Z.to_nat n in
  if (k <=? length out)%nat then (take k out, None)
  else (out, Some e).

Definition Decompress (data : list byte) (maxSize : Z) : M ZPools (list byte) :=
  x ← attempt (getReader data);
  match x with
  | inr _ => fail ErrCompressionFailed
  | inl (out, e) =>
      deferring putReader
        match CopyN out e maxSize with
        | (bs, None) => mret bs
        | (bs, Some EOF) => mret bs
        | (_, Some _) => fail ErrCompressionFailed
        end
  end.

(** The new content of [dst]. *)
Definition CompressBuffer (src dst : list byte) : M ZPools (list byte) :=
  getWriter;;
  deferring putWriter
    match z_write src with
    | Some _ => fail ErrCompressionFailed
    | None => match z_close src with
              | Some _ => fail ErrCompressionFailed
              | None => mret (dst ++ z_deflate src)
              end
    end.

Definition DecompressBuffer (src dst : list byte) : M ZPools (list byte) :=
  x ← attempt (getReader src);
  match x with
  | inr _ => fail ErrCompressionFailed
  | inl (out, e) =>
      deferring putReader
        match e with
        | EOF => mret (dst ++ out)
        | _ => fail ErrCompressionFailed
        end
  end.

(** [ZlibWriterPool.Get] and [Put], with the number of idle writers. *)
Definition ZlibWriterPool_Get (level : Z) : M nat () := λ n,
  match n with
  | S k => (Ret (), k)
  | O => match z_new level with None => (Ret (), O) | Some e => (Err e, O) end
  end.

Definition ZlibWriterPool_Put : M nat () := λ n, (Ret (), S n).

Definition ZlibReaderPool_Get (data : list byte) : M nat (list byte * error) := λ n,
  match z_open data with
  | inl out => (Ret out, pred n)
  | inr e => (Err e, pred n)
  end.

Definition ZlibReaderPool_Put : M nat () := λ n, (Ret (), S n).
End zlib.

(** ** The threshold *)

Record ThresholdManager := mkThreshold { tm_threshold : Z }.

Definition NewThresholdManager (threshold : Z) : ThresholdManager := mkThreshold threshold.
Definition Threshold (tm : ThresholdManager) : Z := tm_threshold tm.
Definition TM_SetThreshold (t : Z) (tm : ThresholdManager) : ThresholdManager := mkThreshold t.
Definition ShouldCompress (tm : ThresholdManager) (dataLength : Z) : bool :=
  if tm_threshold tm <? 0 then false else tm_threshold tm <=? dataLength.
Definition IsEnabled (tm : ThresholdManager) : bool := 0 <=? tm_threshold tm.

(** ** Lemmas *)

Section zlib_lemmas.
Context `{Z0 : Zlib}.

(** The output never exceeds the size asked for, whatever the input says. *)
Lemma Decompress_length data maxSize s out s' :
  Decompress data maxSize s = (Ret out, s') → (length out ≤ Z.to_nat maxSize)%nat.
Proof.
  unfold Decompress. intros (x&s1&_&Hx)%bind_ret_inv.
  destruct x as [[o e]|e]; [|done]. unfold deferring in Hx.
  unfold CopyN in Hx. destruct (Nat.leb_spec (Z.to_nat maxSize) (length o)).
  - simpl in Hx. injection Hx as <- _. rewrite length_take. lia.
  - destruct e; simpl in Hx; try discriminate. injection Hx as <- _. lia.
Qed.

Lemma Decompress_safe data maxSize s :
  ∃ o s', Decompress data maxSize s = (o, s')
    ∧ ((∃ out, o = Ret out) ∨ o = Err ErrCompressionFailed).
Proof.
  unfold Decompress, attempt, mbind, M_bind, getReader, deferring, CopyN.
  destruct (readers s), (z_open data) as [[out e]|e]; try (by eauto 10);
    destruct (_ <=? _)%nat; try (by eauto 10); destruct e; by eauto 10.
Qed.

Context `{!ZlibOk Z0}.

Lemma Compress_ok d s : ∃ s', Compress d s = (Ret (z_deflate d), s').
Proof.
  unfold Compress, mbind, M_bind, getWriter, deferring.
  rewrite z_write_ok, z_close_ok. destruct (writers s); [|by eexists].
  unfold kzlib_DefaultCompression. rewrite z_new_ok. by eexists.
Qed.

Lemma Decompress_deflate d n s :
  ∃ s', Decompress (z_deflate d) n s = (Ret (take (Z.to_nat n) d), s').
Proof.
  unfold Decompress, attempt, mbind, M_bind, getReader, deferring, CopyN.
  rewrite z_roundtrip.
  destruct (readers s); destruct (Nat.leb_spec (Z.to_nat n) (length d));
    rewrite ?take_ge by lia; by eexists.
Qed.
End zlib_lemmas.

(** A concrete codec, for examples: no compression, one marker byte. *)
Definition stored_zlib : Zlib := {|
  z_new _ := None; z_write _ := None; z_close _ := None;
  z_deflate d := x78 :: d;
  z_open c := match c with x78 :: d => inl (d, EOF) | _ => inr (ErrOther "zlib: invalid header") end |}.

Lemma stored_zlib_ok : ZlibOk stored_zlib.
Proof. by split. Qed.

(** ** The properties of the component *)

(** Compression round trip: [Compress] returns the deflated bytes and hands its
    writer back to the pool; [Decompress] with a limit of [n] gives back the first
    [n] bytes of the data, all of it from its length on; the buffer variants append
    the same bytes to their destination. *)
Theorem compress_roundtrip `{Z0 : Zlib} `{!ZlibOk Z0} d dst n s :
  ∃ c s1 s2, Compress d s = (Ret c, s1) ∧ writers s1 = Nat.max 1 (writers s)
    ∧ Decompress c n s1 = (Ret (take (Z.to_nat n) d), s2) ∧ readers s2 = Nat.max 1 (readers s1)
    ∧ (Z.of_nat (length d) ≤ n → (Decompress c n s1).1 = Ret d)
    ∧ (CompressBuffer d dst s).1 = Ret (dst ++ c)
    ∧ (DecompressBuffer c dst s).1 = Ret (dst ++ d).
Proof.
  destruct (Compress_ok d s) as (s1&H1). destruct (Decompress_deflate d n s1) as (s2&H2).
  exists (z_deflate d), s1, s2. rewrite H1, H2.
  split_and!; [done| |done| |by intros; simpl; rewrite take_ge by lia|..].
  - revert H1. unfold Compress, mbind, M_bind, getWriter, deferring, putWriter.
    rewrite z_write_ok, z_close_ok. unfold kzlib_DefaultCompression. rewrite z_new_ok.
    destruct (writers s) eqn:E; simpl; intros [= <-]; simpl; lia.
  - revert H2. unfold Decompress, attempt, mbind, M_bind, getReader, deferring, putReader, CopyN.
    rewrite z_roundtrip. destruct (readers s1) eqn:E, (_ <=? _)%nat; simpl;
      intros ?; simplify_eq/=; lia.
  - unfold CompressBuffer, mbind, M_bind, getWriter, deferring. rewrite z_write_ok, z_close_ok.
    unfold kzlib_DefaultCompression. rewrite z_new_ok. by destruct (writers s).
  - unfold DecompressBuffer, attempt, mbind, M_bind, getReader, deferring. rewrite z_roundtrip.
    by destruct (readers s).
Qed.

Lemma compress_roundtrip_witness :
  ∃ c, (Compress (H := stored_zlib) [x41; x42; x43] (mkZPools 0 0)).1 = Ret c
    ∧ (Decompress (H := stored_zlib) c 2 (mkZPools 1 0)).1 = Ret [x41; x42].
Proof.
  destruct (compress_roundtrip (Z0 := stored_zlib) (ZlibOk0 := stored_zlib_ok) [x41; x42; x43] [] 2 (mkZPools 0 0))
    as (c&s1&s2&Hc&_&_&_&_&_&Hd). exists c. vm_compute in Hc. injection Hc as <- _. by vm_compute.
Defined.

(** [Decompress] on any input, hostile ones included: it returns at most [maxSize]
    bytes, or [ErrCompressionFailed]; no other error, panic or blocking. *)
Theorem decompress_bounded `{Zlib} data maxSize s :
  match (Decompress data maxSize s).1 with
  | Ret out => (length out ≤ Z.to_nat maxSize)%nat
  | Err e => e = ErrCompressionFailed
  | _ => False
  end.
Proof.
  destruct (Decompress_safe data maxSize s) as (o&s'&E&[(out&->)| ->]); rewrite E; [|done].
  by eapply Decompress_length.
Qed.
