(* ===== verification/Packet.v ===== *)
(** * Packet framing ([packet/packet.go])

    The reader and the writer work on a [World]: the buffer pool, the zlib pools,
    the input and the output of the connection.  Buffers come from the pool with
    the bytes of their last use, go through the same stores and copies as in the
    source, and are handed back on every path on which the source does so. *)

From S2P Require Export Pool VarInt Compress.
#[local] Open Scope Z_scope.

Record Packet := mkPacket { ID : Z; Data : list byte }.

#[export] Instance Packet_eq_dec : EqDecision Packet.
Proof. solve_decision. Defined.

(** [RawPacket]: [Buf] is nil after [Release]. *)
Record RawPacket := mkRaw { rbuf : option Buf }.

Record World := mkWorld {
  wpool : Pool;
  wz : ZPools;
  wsrc : Reader;
  wdst : Writer;
}.

Definition on_pool {A} : M Pool A → M World A :=
  zoom wpool (λ p w, mkWorld p (wz w) (wsrc w) (wdst w)).
Definition on_z {A} : M ZPools A → M World A :=
  zoom wz (λ z w, mkWorld (wpool w) z (wsrc w) (wdst w)).
Definition on_src {A} : M Reader A → M World A :=
  zoom wsrc (λ r w, mkWorld (wpool w) (wz w) r (wdst w)).
Definition on_dst {A} : M Writer A → M World A :=
  zoom wdst (λ d w, mkWorld (wpool w) (wz w) (wsrc w) d).

(** ** Raw packets *)

Definition RawPacket_bytes (rp : RawPacket) : list byte :=
  match rbuf rp with Some b => bytes b | None => [] end.

Definition RawPacket_Len (rp : RawPacket) : nat := length (RawPacket_bytes rp).

Definition RawPacket_PacketID (rp : RawPacket) : outcome Z :=
  let buf := RawPacket_bytes rp in
  if decide (length buf = 0)%nat then Err ErrPacketTooShort
  else
    '(_, afterLen) ← ReadVarIntFromBytes buf;
    '(id, _) ← ReadVarIntFromBytes afterLen;
    mret id.

Definition RawPacket_Release (rp : RawPacket) : M Pool RawPacket :=
  match rbuf rp with
  | Some b => PutBuffer b;; mret (mkRaw None)
  | None => mret rp
  end.

(** ** Reading *)

(** [io.ReadFull(src, b[off:off+n])]: the buffer after the call and the error; a
    short read has stored everything there was. *)
Definition read_into (b : Buf) (off n : nat) : M Reader (Buf * option error) := λ r,
  match ReadFull n r with
  | (Ret bs, r') => (Ret (fill_at b off bs, None), r')
  | (Err e, r') => (Ret (fill_at b off (rflat r), Some e), r')
  | (Panic p, r') => (Panic p, r')
  | (Block, r') => (Block, r')
  end.

(** [PacketReader.readVarInt]: one-byte reads, no resynchronisation. *)
Definition readVarInt : M Reader Z :=
  ReadVar_loop (buf ← ReadFull 1; mret (buf !!! 0%nat)) (mret ()) 32 35 ErrMalformedVarInt 5 0 0.

(** The loop of [readUntilVarInt], [n] turns before giving up. *)
Fixpoint until_loop (n i : nat) (buf : Buf) : M Reader (Buf * (nat + error)) :=
  match n with
  | O => mret (buf, inr ErrMalformedVarInt)
  | S n' =>
      '(buf, err) ← read_into buf i 1;
      match err with
      | Some e => mret (buf, inr e)
      | None => if final (mem buf !!! i) then mret (buf, inl (S i)) else until_loop n' (S i) buf
      end
  end.

Definition readUntilVarInt (buf : Buf) : M Reader (Buf * (nat + error)) :=
  until_loop MaxVarIntLen 0 buf.

(** [if err != nil { PutBuffer(b)...; return err }] on a pure decoding step. *)
Definition or_release {A} (bs : list Buf) (o : outcome A) : M World A :=
  match o with
  | Err e => foldr (λ b k, on_pool (PutBuffer b);; k) (fail e) bs
  | o => liftO o
  end.

Section with_zlib.
Context `{Zlib}.

(** [decompressPayload(src, dst)]: the content of [dst] after the call. *)
Definition decompressPayload (src : list byte) (dst : Buf) : M World Buf :=
  result ← on_z (Decompress src (Z.of_nat (blen dst)));
  let n := Nat.min (length result) (blen dst) in
  mret (fill_at (copy_at dst 0 result) n (replicate (blen dst - n) x00)).

Definition readCompressed (body : Buf) : M World Packet :=
  '(dataLen, remaining) ← or_release [body] (ReadVarIntFromBytes (bytes body));
  if dataLen =? 0 then
    '(id, data) ← or_release [body] (ReadVarIntFromBytes remaining);
    on_pool (PutBuffer body);; mret (mkPacket id data)
  else if MaxCompressedSize <? dataLen then
    on_pool (PutBuffer body);; fail ErrPacketTooLarge
  else
    decompressed ← on_pool (GetBuffer dataLen);
    x ← attempt (decompressPayload remaining decompressed);
    match x with
    | inr e => on_pool (PutBuffer body);; on_pool (PutBuffer decompressed);; fail e
    | inl decompressed =>
        '(id, rawData) ← or_release [body; decompressed] (ReadVarIntFromBytes (bytes decompressed));
        on_pool (PutBuffer body);; on_pool (PutBuffer decompressed);;
        mret (mkPacket id rawData)
    end.

Definition ReadPacket (threshold : Z) : M World Packet :=
  packetLen ← on_src readVarInt;
  if (packetLen <? 0) || (MaxPacketSize <? packetLen) then fail ErrPacketTooLarge
  else
    body ← on_pool (GetBuffer packetLen);
    '(body, err) ← on_src (read_into body 0 (blen body));
    match err with
    | Some e => on_pool (PutBuffer body);; fail e
    | None =>
        if 0 <=? threshold then readCompressed body
        else
          '(id, remaining) ← or_release [body] (ReadVarIntFromBytes (bytes body));
          on_pool (PutBuffer body);; mret (mkPacket id remaining)
    end.

Definition ReadRawPacket : M World RawPacket :=
  buf ← on_pool (GetBuffer (Z.of_nat MaxVarIntLen));
  '(buf, res) ← on_src (readUntilVarInt buf);
  match res with
  | inr e => on_pool (PutBuffer buf);; fail e
  | inl n =>
      let packetLen := varint_of 0 0 (take n (bytes buf)) in
      if (packetLen <? 0) || (MaxPacketSize <? packetLen) then
        on_pool (PutBuffer buf);; fail ErrPacketTooLarge
      else
        let total := Z.of_nat n + packetLen in
        fullBuf ← on_pool (GetBuffer total);
        let fullBuf := copy_at fullBuf 0 (take n (bytes buf)) in
        on_pool (PutBuffer buf);;
        '(fullBuf, err) ← on_src (read_into fullBuf n (blen fullBuf - n));
        match err with
        | Some e => on_pool (PutBuffer fullBuf);; fail e
        | None => mret (mkRaw (Some fullBuf))
        end
  end.

(** ** Writing *)

(** [n += PutVarInt(buf[off:], num)]: the buffer and the new offset. *)
Definition put_varint (b : Buf) (off : nat) (num : Z) : outcome (Buf * nat) :=
  if decide (off ≤ blen b)%nat then
    '(l, n) ← PutVarInt (drop off (bytes b)) num;
    mret (fill_at b off l, (off + n)%nat)
  else Panic SliceOutOfRange.

(** [_, err := dst.Write(buf[:n]); PutBuffer(buf); return err] *)
Definition write_release (b : Buf) (n : nat) : M World () :=
  b' ← liftO (reslice b (Z.of_nat n));
  '(_, err) ← on_dst (Write (bytes b'));
  on_pool (PutBuffer b);;
  match err with Some e => fail e | None => mret () end.

Definition writeCompressed (threshold : Z) (p : Packet) (idLen totalLen : Z) : M World () :=
  if totalLen <? threshold then
    let dataLen := 0 in
    let lenLen := 1 in
    let pktLen := lenLen + idLen + Z.of_nat (length (Data p)) in
    let lenOfLen := Z.of_nat (VarIntLen (s32 pktLen)) in
    buf ← on_pool (GetBuffer (lenOfLen + pktLen));
    '(buf, n) ← liftO (put_varint buf 0 (s32 pktLen));
    '(buf, n) ← liftO (put_varint buf n (s32 dataLen));
    '(buf, n) ← liftO (put_varint buf n (ID p));
    write_release (copy_at buf n (Data p)) (n + length (Data p))
  else
    payload ← on_pool (GetBuffer totalLen);
    '(payload, m) ← liftO (put_varint payload 0 (ID p));
    let payload := copy_at payload m (Data p) in
    src ← liftO (reslice payload (Z.of_nat (m + length (Data p))));
    x ← attempt (on_z (Compress (bytes src)));
    on_pool (PutBuffer payload);;
    match x with
    | inr e => fail e
    | inl compressed =>
        let dataLen := totalLen in
        let dataLenLen := Z.of_nat (VarIntLen (s32 dataLen)) in
        let bodyLen := dataLenLen + Z.of_nat (length compressed) in
        let packetLenLen := Z.of_nat (VarIntLen (s32 bodyLen)) in
        let totalBufLen := packetLenLen + bodyLen in
        buf ← on_pool (GetBuffer totalBufLen);
        '(buf, n) ← liftO (put_varint buf 0 (s32 bodyLen));
        '(buf, n) ← liftO (put_varint buf n (s32 dataLen));
        write_release (copy_at buf n compressed) (n + length compressed)
    end.

Definition WritePacket (threshold : Z) (p : Packet) : M World () :=
  let idLen := Z.of_nat (VarInt_Len (ID p)) in
  let totalLen := idLen + Z.of_nat (length (Data p)) in
  if 0 <=? threshold then writeCompressed threshold p idLen totalLen
  else
    let lenLen := Z.of_nat (VarIntLen (s32 totalLen)) in
    let pktLen := lenLen + totalLen in
    buf ← on_pool (GetBuffer pktLen);
    '(buf, n) ← liftO (put_varint buf 0 (s32 totalLen));
    '(buf, n) ← liftO (put_varint buf n (ID p));
    write_release (copy_at buf n (Data p)) (n + length (Data p)).
End with_zlib.

(** ** Readers, writers and codecs as objects *)

Record PacketReader := mkPacketReader { pr_threshold : Z }.
Record PacketWriter := mkPacketWriter { pw_threshold : Z }.
Record PacketCodec := mkPacketCodec {
  pc_reader : PacketReader;
  pc_writer : PacketWriter;
  pc_threshold : Z;
}.

Definition NewPacketReader (threshold : Z) : PacketReader := mkPacketReader threshold.
Definition NewPacketWriter (threshold : Z) : PacketWriter := mkPacketWriter threshold.
Definition NewPacketCodec (threshold : Z) : PacketCodec :=
  mkPacketCodec (NewPacketReader threshold) (NewPacketWriter threshold) threshold.
Definition PacketCodec_SetThreshold (t : Z) (pc : PacketCodec) : PacketCodec :=
  mkPacketCodec (mkPacketReader t) (mkPacketWriter t) t.

(** ** The wire format *)

(** [varint(len) varint(id) data] *)
Definition payload (p : Packet) : list byte := varint (ID p) ++ Data p.
Definition framed (body : list byte) : list byte :=
  varint (s32 (Z.of_nat (length body))) ++ body.

Definition body_of `{Zlib} (threshold : Z) (p : Packet) : list byte :=
  if threshold <? 0 then payload p
  else if Z.of_nat (length (payload p)) <? threshold then varint 0 ++ payload p
  else varint (s32 (Z.of_nat (length (payload p)))) ++ z_deflate (payload p).

Definition frame `{Zlib} (threshold : Z) (p : Packet) : list byte := framed (body_of threshold p).

(** ** The reference parser

    [parse_packet] is the reader as a pure function of the bytes to come: the
    outcome and the bytes left. *)

Definition inflated `{Zlib} (src : list byte) (n : Z) : outcome (list byte) :=
  match z_open src with
  | inr _ => Err ErrCompressionFailed
  | inl (out, e) =>
      match CopyN out e n with
      | (bs, None) | (bs, Some EOF) => Ret (bs ++ replicate (Z.to_nat n - length bs) x00)
      | _ => Err ErrCompressionFailed
      end
  end.

Definition parse_payload (l : list byte) : outcome Packet :=
  '(id, data) ← ReadVarIntFromBytes l; mret (mkPacket id data).

Definition parse_body `{Zlib} (t : Z) (body : list byte) : outcome Packet :=
  if t <? 0 then parse_payload body
  else
    '(dataLen, remaining) ← ReadVarIntFromBytes body;
    if dataLen =? 0 then parse_payload remaining
    else if MaxCompressedSize <? dataLen then Err ErrPacketTooLarge
    else if dataLen <? 0 then Panic SliceOutOfRange
    else inflated remaining dataLen ≫= parse_payload.

Definition parse_packet `{Zlib} (t : Z) (eof : error) (inp : list byte) : outcome Packet * list byte :=
  match ReadVarIntFromBytes inp with
  | Ret (n, rest) =>
      if (n <? 0) || (MaxPacketSize <? n) then (Err ErrPacketTooLarge, rest)
      else if (Z.to_nat n <=? length rest)%nat
           then (parse_body t (take (Z.to_nat n) rest), drop (Z.to_nat n) rest)
           else (Err (short_error rest eof), [])
  | Err ErrPacketTooShort => (Err eof, [])
  | Err e => (Err e, drop 5 inp)
  | Panic p => (Panic p, inp)
  | Block => (Block, inp)
  end.

(** Equal outcomes, except that which run-time check panics may depend on the pool. *)
Definition same_outcome {A} (o1 o2 : outcome A) : Prop :=
  match o1, o2 with Panic _, Panic _ => True | _, _ => o1 = o2 end.

(** Reading packets until one fails, at most [n]. *)
Fixpoint ReadPackets `{Zlib} (t : Z) (n : nat) : M World (list Packet) :=
  match n with
  | O => mret []
  | S n' => p ← ReadPacket t; ps ← ReadPackets t n'; mret (p :: ps)
  end.

Fixpoint WritePackets `{Zlib} (t : Z) (ps : list Packet) : M World () :=
  match ps with
  | [] => mret ()
  | p :: ps' => WritePacket t p;; WritePackets t ps'
  end.

(** What a packet must satisfy to be read back under threshold [t]. *)
Definition packet_ok `{Zlib} (t : Z) (p : Packet) : Prop :=
  is_int 32 (ID p)
  ∧ Z.of_nat (length (body_of t p)) ≤ MaxPacketSize
  ∧ Z.of_nat (length (payload p)) ≤ MaxCompressedSize.

(** ** Lemmas: single steps *)

Definition same_io (w w' : World) : Prop := wsrc w' = wsrc w ∧ wdst w' = wdst w.

(** Every buffer in use stays in use, except the arrays [ids] that are handed back. *)
Definition keeps (ids : list nat) (w w' : World) : Prop :=
  ∀ b0, owned (wpool w) b0 → arr b0 ∉ ids → owned (wpool w') b0.

Lemma step_get size w :
  0 ≤ size → pool_wf (wpool w) →
  ∃ b w', on_pool (GetBuffer size) w = (Ret b, w')
    ∧ Z.of_nat (blen b) = size ∧ (blen b ≤ bcap b)%nat ∧ pool_wf (wpool w')
    ∧ owned (wpool w') b ∧ same_io w w' ∧ wz w' = wz w
    ∧ (∀ b0, owned (wpool w) b0 → owned (wpool w') b0 ∧ arr b0 ≠ arr b).
Proof.
  intros Hs Hw. destruct (GetBuffer_spec size _ Hs Hw) as (b&p'&Hg&?&?&?&?&?).
  unfold on_pool, zoom. rewrite Hg. eexists b, _. split; [done|]. by split_and!.
Qed.

Lemma step_put b w :
  pool_wf (wpool w) → owned (wpool w) b →
  ∃ w', on_pool (PutBuffer b) w = (Ret (), w')
    ∧ pool_wf (wpool w') ∧ same_io w w' ∧ wz w' = wz w
    ∧ (∀ b0, owned (wpool w) b0 → arr b0 ≠ arr b → owned (wpool w') b0).
Proof.
  intros Hw Ho. destruct (PutBuffer_spec b _ Hw Ho) as (p'&Hp&?&?&?).
  unfold on_pool, zoom. rewrite Hp. eexists. split; [done|]. by split_and!.
Qed.

Lemma step_get_drawn size w b w' :
  pool_wf (wpool w) → on_pool (GetBuffer size) w = (Ret b, w') → drawn (wpool w) b (wpool w').
Proof.
  intros Hw. unfold on_pool, zoom. destruct (GetBuffer size (wpool w)) as [o p'] eqn:E.
  intros [= -> <-]. by eapply GetBuffer_drawn.
Qed.

(** [b] is the buffer [b0] being written: [l] is at its front. *)
Definition holds (b b0 : Buf) (l : list byte) : Prop :=
  arr b = arr b0 ∧ bcap b = bcap b0 ∧ blen b = blen b0 ∧ (blen b0 ≤ bcap b0)%nat
  ∧ l `prefix_of` mem b.

Lemma put_varint_holds b b0 l v :
  holds b b0 l → (length l + VarIntLen v ≤ blen b0)%nat →
  ∃ b', put_varint b (length l) v = Ret (b', length (l ++ varint v)) ∧ holds b' b0 (l ++ varint v).
Proof.
  intros (Ha&Hcc&Hn&Hc&[tl Hm]) Hl. unfold put_varint. rewrite decide_True by lia.
  assert (Hlen : length (bytes b) = blen b0) by (rewrite length_bytes; lia).
  rewrite PutVarInt_spec by (rewrite length_drop; lia). simpl. eexists. split.
  { unfold mret, outcome_ret. do 2 f_equal. by rewrite length_app, length_varint. }
  set (L := varint v ++ _).
  assert (HL : (length l + length L)%nat = blen b0).
  { unfold L. rewrite length_app, length_drop, length_varint, length_drop. lia. }
  split_and!; [done|rewrite bcap_fill; lia|done|done|]. unfold fill_at. simpl.
  rewrite Hm, take_app_length. unfold L. eexists. by rewrite <- !app_assoc.
Qed.

(** The first store into a fresh buffer. *)
Lemma put_varint_first b v :
  (blen b ≤ bcap b)%nat → (VarIntLen v ≤ blen b)%nat →
  ∃ b', put_varint b 0 v = Ret (b', length (varint v)) ∧ holds b' b (varint v).
Proof.
  intros Hc Hv. apply (put_varint_holds b b []); [|done].
  split_and!; [done..|apply prefix_nil].
Qed.

Lemma copy_at_holds b b0 l d :
  holds b b0 l → (length l + length d ≤ blen b0)%nat → holds (copy_at b (length l) d) b0 (l ++ d).
Proof.
  intros (Ha&Hcc&Hn&Hc&[tl Hm]) Hl. unfold copy_at. rewrite take_ge by lia.
  split_and!; [done|rewrite bcap_fill; lia|done|done|]. unfold fill_at. simpl.
  rewrite Hm, take_app_length. eexists. by rewrite <- !app_assoc.
Qed.

Lemma reslice_holds b b0 l :
  holds b b0 l → ∃ b', reslice b (Z.of_nat (length l)) = Ret b' ∧ bytes b' = l.
Proof.
  intros (Ha&Hcc&Hn&Hc&[tl Hm]). unfold reslice. rewrite decide_True.
  - eexists. split; [done|]. unfold bytes. simpl. rewrite Nat2Z.id, Hm. apply take_app_length.
  - unfold bcap. rewrite Hm, length_app. lia.
Qed.

(** The result of a [Write] whose byte count is dropped. *)
Definition wrote (bs : list byte) (w : World) (o : outcome ()) (w' : World) : Prop :=
  (∃ n err, Write bs (wdst w) = (Ret (n, err), wdst w')
     ∧ o = match err with Some e => Err e | None => Ret () end)
  ∧ wsrc w' = wsrc w ∧ pool_wf (wpool w') ∧ recycled bs (wpool w) (wpool w').

(** [b0] was taken from the pool of [w0], whose reader and writer [w] still has. *)
Lemma write_release_spec b b0 l w0 w :
  holds b b0 l → length l = blen b0 → (0 < length l)%nat →
  same_io w0 w → pool_wf (wpool w0) → drawn (wpool w0) b0 (wpool w) →
  pool_wf (wpool w) → owned (wpool w) b →
  ∃ o w', write_release b (length l) w = (o, w') ∧ wrote l w0 o w'.
Proof.
  intros Hh Hlen Hpos [Hs0 Hd0] Hw0 Hdr Hw Ho. destruct (reslice_holds b b0 l Hh) as (b'&Hb&Hl).
  unfold write_release. rewrite Hb. unfold mbind at 1, M_bind at 1, liftO.
  rewrite Hl. destruct (writes_Write l (wdst w)) as (k&err&d'&Hd&_).
  set (w1 := mkWorld (wpool w) (wz w) (wsrc w) d').
  assert (on_dst (Write l) w = (Ret (Z.of_nat k, err), w1)) as Hw1.
  { unfold on_dst, zoom. by rewrite Hd. }
  rewrite (bind_ret _ _ _ _ _ Hw1).
  destruct (step_put b w1 Hw Ho) as (w2&Hw2&Hp&[Hs Hdst]&_).
  rewrite (bind_ret _ _ _ _ _ Hw2).
  exists (match err with Some e => Err e | None => Ret () end), w2.
  split; [by destruct err|]. split_and!; [|by rewrite Hs|done|].
  - exists (Z.of_nat k), err. by rewrite <- Hd0, Hd, Hdst.
  - destruct Hh as (_&Hcc&_&Hc&Hpre). eapply drawn_put; [done|exact Hdr|done..|].
    revert Hw2. unfold on_pool, zoom. destruct (PutBuffer b (wpool w1)) as [o2 p2] eqn:E.
    by intros [= -> <-].
Qed.

Lemma liftO_bind {S A B} (a : A) (k : A → M S B) s : (liftO (Ret a) ≫= k) s = k a s.
Proof. done. Qed.

Lemma length_payload p : length (payload p) = (VarIntLen (ID p) + length (Data p))%nat.
Proof. unfold payload. by rewrite length_app, length_varint. Qed.

Lemma VarIntLen_0 : VarIntLen (s32 0) = 1%nat.
Proof. done. Qed.

(** The last steps of every writer: copy [d] behind [l], write, release. *)
Lemma finish_spec b b0 l d w0 w :
  holds b b0 l → (length l + length d = blen b0)%nat → (0 < length l)%nat →
  same_io w0 w → pool_wf (wpool w0) → drawn (wpool w0) b0 (wpool w) →
  pool_wf (wpool w) → owned (wpool w) b0 →
  ∃ o w', write_release (copy_at b (length l) d) (length l + length d) w = (o, w')
    ∧ wrote (l ++ d) w0 o w'.
Proof.
  intros Hh Hl Hpos Hio Hw0 Hdr Hw Ho.
  pose proof (copy_at_holds b b0 l d Hh ltac:(lia)) as H'. rewrite <- length_app.
  apply (write_release_spec _ b0 _ w0 w H'); rewrite ?length_app; try done; [lia|].
  eapply owned_arr; [|exact Ho]. symmetry. apply H'.
Qed.

Lemma wrote_before l w0 w1 o w2 :
  same_io w0 w1 → (length (free (wpool w0)) ≤ length (free (wpool w1)))%nat →
  wrote l w1 o w2 → wrote l w0 o w2.
Proof.
  intros [Hs Hd] Hf ((n&err&Hw&Ho)&Hsrc&Hp&Hr). split_and!; [|congruence|done|by eapply recycled_trans].
  exists n, err. by rewrite <- Hd.
Qed.

(** ** Lemmas: writing *)

(** The bounds the stores need, from the sizes computed before. *)
Ltac sizes := rewrite ?length_app, ?length_varint, ?VarIntLen_0 in *;
  repeat match goal with |- context [VarIntLen ?v] =>
    lazymatch goal with H : (1 ≤ VarIntLen v ≤ 5)%nat |- _ => fail | _ => pose proof (VarIntLen_bounds v) end
  end; lia.

Section writing.
Context `{Z0 : Zlib}.

Lemma WritePacket_plain p w :
  pool_wf (wpool w) →
  ∃ o w', WritePacket (-1) p w = (o, w') ∧ wrote (framed (payload p)) w o w'.
Proof.
  intros Hw. unfold WritePacket, framed. change (0 <=? -1) with false. cbv zeta iota.
  rewrite length_payload. unfold VarInt_Len. rewrite Nat2Z.inj_add.
  set (tl := Z.of_nat (VarIntLen (ID p)) + Z.of_nat (length (Data p))).
  destruct (step_get (Z.of_nat (VarIntLen (s32 tl)) + tl) w) as (b&w1&Hg&Hb&Hc&Hw1&Ho&Hio&_&_);
    [lia|done|].
  rewrite (bind_ret _ _ _ _ _ Hg).
  destruct (put_varint_first b (s32 tl) Hc) as (b1&->&H1); [lia|]. rewrite liftO_bind.
  destruct (put_varint_holds b1 _ _ (ID p) H1) as (b2&->&H2); [sizes|]. rewrite liftO_bind.
  unfold payload. rewrite (app_assoc (varint (s32 tl))).
  apply (finish_spec _ _ _ _ w w1 H2); try done; [sizes|sizes|by eapply step_get_drawn].
Qed.

(** Below the threshold: the data length 0 marks an uncompressed body. *)
Lemma WritePacket_small t p w :
  pool_wf (wpool w) → 0 ≤ t → Z.of_nat (length (payload p)) < t →
  ∃ o w', WritePacket t p w = (o, w') ∧ wrote (framed (varint 0 ++ payload p)) w o w'.
Proof.
  intros Hw Ht Hlt. rewrite length_payload, Nat2Z.inj_add in Hlt. unfold WritePacket, framed.
  rewrite (proj2 (Z.leb_le 0 t)) by done. unfold writeCompressed, VarInt_Len.
  rewrite (proj2 (Z.ltb_lt _ _)) by done. cbv zeta.
  rewrite length_app, length_payload, length_varint, !Nat2Z.inj_add.
  change (Z.of_nat (VarIntLen 0)) with 1. rewrite (Z.add_assoc 1).
  set (pl := 1 + Z.of_nat (VarIntLen (ID p)) + Z.of_nat (length (Data p))).
  destruct (step_get (Z.of_nat (VarIntLen (s32 pl)) + pl) w) as (b&w1&Hg&Hb&Hc&Hw1&Ho&Hio&_&_);
    [lia|done|].
  rewrite (bind_ret _ _ _ _ _ Hg).
  destruct (put_varint_first b (s32 pl) Hc) as (b1&->&H1); [lia|]. rewrite liftO_bind.
  destruct (put_varint_holds b1 _ _ (s32 0) H1) as (b2&->&H2); [sizes|]. rewrite liftO_bind.
  destruct (put_varint_holds b2 _ _ (ID p) H2) as (b3&->&H3); [sizes|]. rewrite liftO_bind.
  unfold payload. change (varint 0) with (varint (s32 0)). rewrite !app_assoc.
  apply (finish_spec _ _ _ _ w w1 H3); try done; [sizes|sizes|by eapply step_get_drawn].
Qed.

Context `{!ZlibOk Z0}.

(** From the threshold on: the compressed payload behind its uncompressed length. *)
Lemma WritePacket_large t p w :
  pool_wf (wpool w) → 0 ≤ t → t ≤ Z.of_nat (length (payload p)) →
  ∃ o w', WritePacket t p w = (o, w')
    ∧ wrote (framed (varint (s32 (Z.of_nat (length (payload p)))) ++ z_deflate (payload p))) w o w'.
Proof.
  intros Hw Ht Hge. rewrite length_payload, Nat2Z.inj_add in *. unfold WritePacket, framed.
  rewrite (proj2 (Z.leb_le 0 t)) by done. unfold writeCompressed, VarInt_Len.
  rewrite (proj2 (Z.ltb_ge _ _)) by done. cbv zeta.
  set (tl := Z.of_nat (VarIntLen (ID p)) + Z.of_nat (length (Data p))) in *.
  destruct (step_get tl w) as (b&w1&Hg&Hb&Hc&Hw1&Ho&Hio1&_&_); [lia|done|].
  rewrite (bind_ret _ _ _ _ _ Hg).
  destruct (put_varint_first b (ID p) Hc) as (b1&->&H1); [lia|]. rewrite liftO_bind.
  assert (H2 := copy_at_holds b1 _ _ (Data p) H1 ltac:(sizes)). fold (payload p) in H2.
  rewrite <- length_app. fold (payload p).
  destruct (reslice_holds _ _ _ H2) as (b2&->&Hb2). rewrite liftO_bind, Hb2.
  destruct (Compress_ok (payload p) (wz w1)) as (z'&Hz).
  assert (attempt (on_z (Compress (payload p))) w1 =
    (Ret (inl (z_deflate (payload p))), mkWorld (wpool w1) z' (wsrc w1) (wdst w1))) as Hcomp.
  { unfold attempt, on_z, zoom. by rewrite Hz. }
  rewrite (bind_ret _ _ _ _ _ Hcomp). set (w2 := mkWorld _ z' _ _).
  destruct (step_put (copy_at b1 (length (varint (ID p))) (Data p)) w2) as (w3&Hput&Hw3&Hio3&_&_).
  { done. }
  { eapply owned_arr; [|exact Ho]. symmetry. apply H2. }
  rewrite (bind_ret _ _ _ _ _ Hput). set (c := z_deflate (payload p)).
  rewrite length_app, length_varint, Nat2Z.inj_add.
  set (bl := Z.of_nat (VarIntLen (s32 tl)) + Z.of_nat (length c)).
  destruct (step_get (Z.of_nat (VarIntLen (s32 bl)) + bl) w3)
    as (b4&w4&Hg4&Hb4&Hc4&Hw4&Ho4&Hio4&_&_); [lia|done|].
  rewrite (bind_ret _ _ _ _ _ Hg4).
  destruct (put_varint_first b4 (s32 bl) Hc4) as (b5&->&H5); [lia|]. rewrite liftO_bind.
  destruct (put_varint_holds b5 _ _ (s32 tl) H5) as (b6&->&H6); [sizes|]. rewrite liftO_bind.
  rewrite app_assoc.
  destruct (finish_spec _ _ _ c w3 w4 H6) as (o&w'&Hr&Hwr); try done; [sizes|sizes|by eapply step_get_drawn|].
  exists o, w'. split; [exact Hr|]. eapply wrote_before; [| |exact Hwr].
  - destruct Hio1, Hio3. split; simpl in *; congruence.
  - eapply (drawn_put (payload p) _ b _ _ (wpool w3)); [done|by eapply step_get_drawn|apply H2|done|..].
    + unfold payload. sizes.
    + unfold payload. sizes.
    + apply H2.
    + revert Hput. unfold on_pool, zoom. destruct (PutBuffer _ (wpool w2)) as [o2 p2] eqn:E.
      intros [= -> <-]. exact E.
Qed.

Lemma WritePacket_frame t p w :
  pool_wf (wpool w) → ∃ o w', WritePacket t p w = (o, w') ∧ wrote (frame t p) w o w'.
Proof.
  intros Hw. unfold frame, body_of. destruct (Z.ltb_spec t 0).
  - replace (WritePacket t p w) with (WritePacket (-1) p w); [by apply WritePacket_plain|].
    unfold WritePacket. by rewrite !(proj2 (Z.leb_gt 0 _)) by lia.
  - destruct (Z.ltb_spec (Z.of_nat (length (payload p))) t).
    + by apply WritePacket_small.
    + by apply WritePacket_large.
Qed.
End writing.

(** ** Lemmas: reading *)

Lemma ReadFull1_action : byte_action (buf ← ReadFull 1; mret (buf !!! 0%nat)).
Proof.
  intros r. destruct (ReadFull_spec 1 r) as (r'&Hr&Hf&He&Hi). exists r'.
  unfold mbind, M_bind. rewrite Hr. destruct (rflat r) as [|b l] eqn:E.
  - rewrite decide_False by (simpl; lia). by split_and!.
  - rewrite decide_True by (simpl; lia). by split_and!.
Qed.

Lemma readVarInt_spec r :
  match ReadVarIntFromBytes (rflat r) with
  | Ret (v, rest) => ∃ r', readVarInt r = (Ret v, r')
      ∧ rflat r' = rest ∧ rend r' = rend r ∧ is_reader r' = is_reader r
  | Err ErrPacketTooShort => ∃ r', readVarInt r = (Err (rend r), r') ∧ rflat r' = []
      ∧ rend r' = rend r ∧ is_reader r' = is_reader r
  | Err e => ∃ r', readVarInt r = (Err e, r') ∧ rflat r' = drop 5 (rflat r)
      ∧ rend r' = rend r ∧ is_reader r' = is_reader r
  | _ => False
  end.
Proof.
  destruct (from_bytes_shape (rflat r)) as [(pre&b&rest&E&Hp&Hb&Hl&->)|[(Hp&Hl&->)|(pre&rest&E&Hp&Hl&->)]].
  - by apply (ReadVar_loop_start _ (mret ()) ReadFull1_action 32 35 ErrMalformedVarInt 5
      eq_refl eq_refl r pre b rest 5).
  - by apply (ReadVar_loop_eof _ (mret ()) ReadFull1_action 32 35 ErrMalformedVarInt 5 eq_refl r 0 0 5).
  - destruct (ReadVar_loop_malformed _ (mret ()) ReadFull1_action 32 35 ErrMalformedVarInt 5
      eq_refl r pre rest 0 0 5) as (r1&Hm&?&?&?); [done|done|lia|lia|].
    exists r1. rewrite E, drop_app_exact by done. by split_and!.
Qed.

Lemma read_into_spec b off n r :
  (blen b ≤ bcap b)%nat →
  ∃ b' r', read_into b off n r =
      (Ret (b', if decide (n ≤ length (rflat r))%nat then None
                else Some (short_error (rflat r) (rend r))), r')
    ∧ b' = fill_at b off (take n (rflat r))
    ∧ rflat r' = drop n (rflat r) ∧ rend r' = rend r ∧ is_reader r' = is_reader r.
Proof.
  intros Hb. unfold read_into. destruct (ReadFull_spec n r) as (r'&->&?&?&?).
  case_decide; eexists _, r'; split_and!; try done. by rewrite take_ge by lia.
Qed.

Section reading.
Context `{Z0 : Zlib}.

Lemma Decompress_inflated src n z :
  ∃ z', Decompress src n z = ((match inflated src n with
     | Ret _ => match z_open src with inl (out, e) => Ret (CopyN out e n).1 | inr _ => Block end
     | Err e => Err e | Panic p => Panic p | Block => Block end), z').
Proof.
  unfold Decompress, attempt, inflated, mbind, M_bind, getReader.
  destruct (readers z), (z_open src) as [[out e]|e]; try (by eexists);
    unfold deferring; destruct (CopyN out e n) as [bs [[]|]]; by eexists.
Qed.

Lemma CopyN_length out e n : (length (CopyN out e n).1 ≤ Z.to_nat n)%nat.
Proof.
  unfold CopyN. destruct (Nat.leb_spec (Z.to_nat n) (length out)); simpl; [|lia].
  rewrite length_take. lia.
Qed.

(** The buffer after [decompressPayload] holds the inflated bytes, zero-padded:
    nothing of its previous content is left. *)
Lemma decompressPayload_spec src b w :
  (blen b ≤ bcap b)%nat →
  ∃ o w', decompressPayload src b w = (o, w')
    ∧ wpool w' = wpool w ∧ same_io w w'
    ∧ match inflated src (Z.of_nat (blen b)) with
      | Ret l => ∃ b', o = Ret b' ∧ bytes b' = l ∧ arr b' = arr b ∧ (blen b' ≤ bcap b')%nat
      | Err e => o = Err e
      | _ => False
      end.
Proof.
  intros Hb. unfold decompressPayload.
  destruct (Decompress_inflated src (Z.of_nat (blen b)) (wz w)) as (z'&Hz).
  set (w1 := mkWorld (wpool w) z' (wsrc w) (wdst w)).
  unfold mbind, M_bind, on_z, zoom. rewrite Hz. fold w1.
  unfold inflated. destruct (z_open src) as [[out e]|e]; [|by eexists _, w1; split_and!].
  pose proof (CopyN_length out e (Z.of_nat (blen b))) as Hlen. rewrite Nat2Z.id in Hlen.
  assert (Hok : ∀ bs, (length bs ≤ blen b)%nat →
    bytes (fill_at (copy_at b 0 bs) (Nat.min (length bs) (blen b))
      (replicate (blen b - Nat.min (length bs) (blen b)) x00))
    = bs ++ replicate (Z.to_nat (Z.of_nat (blen b)) - length bs) x00).
  { intros bs Hbs. rewrite Nat.min_l, Nat2Z.id by done. unfold copy_at.
    rewrite Nat.sub_0_r, take_ge by done.
    rewrite bytes_fill; [|rewrite bcap_fill; simpl; lia|rewrite length_replicate; simpl; lia].
    rewrite bytes_fill by (simpl; lia). rewrite length_replicate, take_0, app_nil_l, Nat.add_0_l.
    rewrite take_app_length, drop_ge; [|rewrite length_app, length_drop, length_bytes; lia].
    by rewrite app_nil_r. }
  assert (Hcap : ∀ bs, (length bs ≤ blen b)%nat →
    let b' := fill_at (copy_at b 0 bs) (Nat.min (length bs) (blen b))
      (replicate (blen b - Nat.min (length bs) (blen b)) x00) in (blen b' ≤ bcap b')%nat).
  { intros bs Hbs b'. unfold b', copy_at. rewrite Nat.sub_0_r, take_ge by done.
    assert (bcap (fill_at b 0 bs) = bcap b) as E by (apply bcap_fill; lia).
    rewrite bcap_fill by (rewrite length_replicate; lia). simpl. lia. }
  destruct (CopyN out e (Z.of_nat (blen b))) as [bs [[]|]]; simpl in Hlen;
    eexists _, w1; (split_and!; [done|done|done|]); try done;
    (eexists; split_and!; [done|by apply Hok|done|by apply Hcap]).
Qed.
(** Handing buffers back, then going on with [k]. *)
Abbreviation release bs k := (foldr (λ b m, on_pool (PutBuffer b);; m) k bs).

Lemma release_spec {A} bs (k : M World A) w :
  pool_wf (wpool w) → Forall (owned (wpool w)) bs → NoDup (arr <$> bs) →
  ∃ w', release bs k w = k w' ∧ pool_wf (wpool w') ∧ same_io w w' ∧ keeps (arr <$> bs) w w'.
Proof.
  revert w. induction bs as [|b bs IH]; intros w Hw Ho Hd.
  { exists w. split_and!; try done. by intros b0. }
  apply Forall_cons_1 in Ho as [Hb Ho]. rewrite fmap_cons in Hd. apply NoDup_cons in Hd as [Hn Hd].
  destruct (step_put b w Hw Hb) as (w1&Hp&Hw1&Hio&_&Hf). cbn [foldr].
  rewrite (bind_ret _ _ _ _ _ Hp). destruct (IH w1) as (w'&->&?&Hio'&Hk); [done| |done|].
  - rewrite Forall_forall in *. intros b0 Hb0. apply Hf; [by apply Ho|].
    intros E. apply Hn. rewrite <- E. by apply list_elem_of_fmap_2.
  - exists w'. split_and!; [done|done| |].
    + destruct Hio, Hio'. split; congruence.
    + intros b0 Hb0 [Hne Hni]%not_elem_of_cons. apply Hk; [by apply Hf|done].
Qed.

Lemma or_release_bind {A B} bs (a : A) (k : A → M World B) w : (or_release bs (Ret a) ≫= k) w = k a w.
Proof. done. Qed.

Lemma or_release_err {A} bs e : or_release bs (Err e : outcome A) = release bs (fail e).
Proof. done. Qed.

Lemma decode_release bs l w :
  pool_wf (wpool w) → Forall (owned (wpool w)) bs → NoDup (arr <$> bs) →
  ∃ w', ('(id, data) ← or_release bs (ReadVarIntFromBytes l); release bs (mret (mkPacket id data))) w
      = (parse_payload l, w')
    ∧ pool_wf (wpool w') ∧ same_io w w' ∧ keeps (arr <$> bs) w w'.
Proof.
  intros Hw Ho Hd. unfold parse_payload.
  destruct (from_bytes_cases l) as [(id&data&->&_)|(e&->)].
  - rewrite or_release_bind.
    destruct (release_spec bs (mret (mkPacket id data)) w) as (w'&->&?&?&?); [done..|]. by exists w'.
  - destruct (release_spec bs (fail e : M World (Z * list byte)) w) as (w'&Hr&?&?&?); [done..|].
    exists w'. rewrite or_release_err. by rewrite (bind_err _ _ _ _ _ Hr).
Qed.

Lemma same_outcome_refl {A} (o : outcome A) : same_outcome o o.
Proof. by destruct o. Qed.

Lemma same_io_trans w1 w2 w3 : same_io w1 w2 → same_io w2 w3 → same_io w1 w3.
Proof. intros [] []. split; congruence. Qed.

Lemma readCompressed_spec t b w :
  0 ≤ t → pool_wf (wpool w) → owned (wpool w) b →
  ∃ o w', readCompressed b w = (o, w') ∧ same_outcome o (parse_body t (bytes b))
    ∧ pool_wf (wpool w') ∧ same_io w w' ∧ keeps [arr b] w w'.
Proof.
  intros Ht Hw Ho. unfold readCompressed, parse_body. rewrite (proj2 (Z.ltb_ge t 0)) by done.
  assert (H1 : Forall (owned (wpool w)) [b]) by (by constructor).
  pose proof (NoDup_singleton (arr b)) as H2.
  destruct (from_bytes_cases (bytes b)) as [(n&rem&->&_)|(e&->)].
  2:{ destruct (release_spec [b] (fail e : M World (Z * list byte)) w) as (w'&Hr&?&?&?); [done..|].
      eexists _, w'. rewrite or_release_err, (bind_err _ _ _ _ _ Hr). by split_and!. }
  rewrite or_release_bind. cbn [mbind outcome_bind]. destruct (n =? 0).
  { destruct (decode_release [b] rem w) as (w'&Hr&?&?&?); [done..|].
    eexists _, w'. split_and!; [exact Hr|apply same_outcome_refl|done..]. }
  destruct (MaxCompressedSize <? n).
  { destruct (release_spec [b] (fail ErrPacketTooLarge : M World Packet) w) as (w'&Hr&?&?&?); [done..|].
    eexists _, w'. by split_and!. }
  destruct (Z.ltb_spec n 0) as [Hneg|Hpos].
  { destruct (GetBuffer_negative n _ Hneg Hw) as (pc&p'&Hg&Hp'&Hk').
    eexists (Panic pc), (mkWorld p' (wz w) (wsrc w) (wdst w)). split_and!; [|done..|].
    { apply bind_panic. unfold on_pool, zoom. by rewrite Hg. }
    intros b0 Hb0 _. by apply Hk'. }
  destruct (step_get n w Hpos Hw) as (d&w1&Hg&Hd&Hc&Hw1&Hod&Hio1&_&Hf).
  destruct (Hf b Ho) as [Hob Hne]. rewrite (bind_ret _ _ _ _ _ Hg).
  destruct (decompressPayload_spec rem d w1 Hc) as (o&w2&Hdec&Hpool&Hio2&Hinf). rewrite Hd in Hinf.
  destruct (inflated rem n) as [l|e|pc|]; [|..|done|done].
  - destruct Hinf as (d'&->&<-&Ha&_). rewrite (bind_ret _ _ _ (inl d') w2) by (unfold attempt; by rewrite Hdec).
    destruct (decode_release [b; d'] (bytes d') w2) as (w3&Hr&?&?&Hk3); [by rewrite Hpool|..].
    { rewrite Hpool. repeat constructor; [apply Hob|apply Hob|..]; by eapply owned_arr. }
    { rewrite !fmap_cons. simpl. rewrite Ha. apply NoDup_cons.
      split; [by rewrite list_elem_of_singleton|apply NoDup_singleton]. }
    eexists _, w3. split_and!; [exact Hr|apply same_outcome_refl|done| |].
    { by eapply same_io_trans; [|eapply same_io_trans]. }
    intros b0 Hb0 Hne0. destruct (Hf b0 Hb0) as [Hb1 Hne1]. apply Hk3; [by rewrite Hpool|].
    rewrite !fmap_cons. simpl. rewrite Ha, not_elem_of_cons, list_elem_of_singleton.
    by rewrite list_elem_of_singleton in Hne0.
  - subst o. rewrite (bind_ret _ _ _ (inr e) w2) by (unfold attempt; by rewrite Hdec).
    destruct (release_spec [b; d] (fail e : M World Packet) w2) as (w3&Hr&?&?&Hk3); [by rewrite Hpool|..].
    { rewrite Hpool. repeat constructor; (apply Hob || apply Hod). }
    { rewrite !fmap_cons. simpl. apply NoDup_cons.
      split; [by rewrite list_elem_of_singleton|apply NoDup_singleton]. }
    eexists _, w3. split_and!; [exact Hr|done|done| |].
    { by eapply same_io_trans; [|eapply same_io_trans]. }
    intros b0 Hb0 Hne0. destruct (Hf b0 Hb0) as [Hb1 Hne1]. apply Hk3; [by rewrite Hpool|].
    rewrite !fmap_cons. simpl. rewrite not_elem_of_cons, list_elem_of_singleton.
    by rewrite list_elem_of_singleton in Hne0.
Qed.
(** The length prefix cannot be read. *)
Lemma parse_header_error t r e :
  ReadVarIntFromBytes (rflat r) = Err e →
  ∃ e' r', readVarInt r = (Err e', r')
    ∧ parse_packet t (rend r) (rflat r) = (Err e', rflat r')
    ∧ r' ≡ rest_of r (rflat r').
Proof.
  intros E. pose proof (readVarInt_spec r) as Hv. unfold parse_packet. rewrite E in *.
  destruct e; destruct Hv as (r'&Hr&Hf&He&Hi); eexists _, r'; rewrite Hf;
    (split_and!; [exact Hr|done|by apply rest_of_equiv]).
Qed.

(** The part of [ReadPacket] after the body has been read into [b]. *)
Definition decode_body (t : Z) (b : Buf) : M World Packet :=
  if 0 <=? t then readCompressed b
  else
    '(id, remaining) ← or_release [b] (ReadVarIntFromBytes (bytes b));
    on_pool (PutBuffer b);; mret (mkPacket id remaining).

Lemma decode_body_spec t b w :
  pool_wf (wpool w) → owned (wpool w) b →
  ∃ o w', decode_body t b w = (o, w') ∧ same_outcome o (parse_body t (bytes b))
    ∧ pool_wf (wpool w') ∧ same_io w w' ∧ keeps [arr b] w w'.
Proof.
  intros Hw Ho. unfold decode_body. destruct (Z.leb_spec 0 t) as [Ht|Ht].
  - by apply readCompressed_spec.
  - destruct (decode_release [b] (bytes b) w) as (w'&Hr&?&?&?); [done|by constructor| |].
    { apply NoDup_singleton. }
    eexists _, w'. split_and!; [exact Hr| |done|done|done].
    unfold parse_body. rewrite (proj2 (Z.ltb_lt t 0)) by done. apply same_outcome_refl.
Qed.

(** Reading a body of [n] bytes into a pooled buffer. *)
Lemma read_body n w :
  0 ≤ n → pool_wf (wpool w) →
  ∃ b w' err,
    (b ← on_pool (GetBuffer n); on_src (read_into b 0 (blen b))) w = (Ret (b, err), w')
    ∧ err = (if decide (Z.to_nat n ≤ length (rflat (wsrc w)))%nat then None
             else Some (short_error (rflat (wsrc w)) (rend (wsrc w))))
    ∧ (err = None → bytes b = take (Z.to_nat n) (rflat (wsrc w)))
    ∧ wsrc w' ≡ rest_of (wsrc w) (drop (Z.to_nat n) (rflat (wsrc w)))
    ∧ wdst w' = wdst w ∧ pool_wf (wpool w') ∧ owned (wpool w') b
    ∧ (∀ b0, owned (wpool w) b0 → owned (wpool w') b0 ∧ arr b0 ≠ arr b).
Proof.
  intros Hn Hw. destruct (step_get n w Hn Hw) as (b&w1&Hg&Hb&Hc&Hw1&Ho&[Hs Hd]&_&Hfr).
  destruct (read_into_spec b 0 (blen b) (wsrc w1) Hc) as (b'&r'&Hr&Hb'&Hf&He&Hi).
  rewrite Hs in *. replace (Z.to_nat n) with (blen b) by lia.
  eexists b', (mkWorld (wpool w1) (wz w1) r' (wdst w1)), _. split_and!.
  - rewrite (bind_ret _ _ _ _ _ Hg). unfold on_src, zoom. rewrite Hs, Hr. done.
  - done.
  - case_decide; [|done]. intros _. subst b'.
    rewrite bytes_fill by (rewrite ?length_take; simpl; lia).
    rewrite drop_ge by (rewrite length_bytes, length_take; lia). by rewrite take_0, app_nil_r.
  - by apply rest_of_equiv.
  - done.
  - done.
  - subst b'. by eapply owned_arr.
  - subst b'. done.
Qed.

(** The reader refines the reference parser. *)
Lemma ReadPacket_refines t w :
  pool_wf (wpool w) →
  ∃ o w', ReadPacket t w = (o, w')
    ∧ same_outcome o (parse_packet t (rend (wsrc w)) (rflat (wsrc w))).1
    ∧ wsrc w' ≡ rest_of (wsrc w) (parse_packet t (rend (wsrc w)) (rflat (wsrc w))).2
    ∧ wdst w' = wdst w ∧ pool_wf (wpool w') ∧ keeps [] w w'.
Proof.
  intros Hw. destruct (from_bytes_cases (rflat (wsrc w))) as [(n&rest&E&_)|(e&E)].
  2:{ destruct (parse_header_error t (wsrc w) e E) as (e'&r'&Hr&->&Hr').
      exists (Err e'), (mkWorld (wpool w) (wz w) r' (wdst w)). split_and!; [|done..|by intros b0].
      apply bind_err. unfold on_src, zoom. by rewrite Hr. }
  unfold ReadPacket, parse_packet. pose proof (readVarInt_spec (wsrc w)) as Hv. rewrite E in *.
  destruct Hv as (r1&Hr&Hf1&He1&Hi1). set (w1 := mkWorld (wpool w) (wz w) r1 (wdst w)).
  rewrite (bind_ret _ _ _ n w1) by (unfold on_src, zoom; by rewrite Hr).
  destruct (_ || _) eqn:Hbound.
  { eexists _, w1. split_and!; [done|done|by apply rest_of_equiv|done|done|by intros b0]. }
  apply orb_false_iff in Hbound as [Hn0%Z.ltb_ge Hn1%Z.ltb_ge].
  destruct (read_body n w1 Hn0 Hw) as (b&w2&err&Hb&Herr&Hbytes&Hs2&Hd2&Hw2&Ho2&Hfr).
  rewrite <- bind_assoc, (bind_ret _ _ _ _ _ Hb). simpl in Herr, Hbytes, Hs2. rewrite Hf1 in *.
  assert (Hsrc : ∀ l, rest_of r1 l ≡ rest_of (wsrc w) l) by (intros l; by apply rest_of_equiv; rewrite ?rflat_rest).
  destruct (Nat.leb_spec (Z.to_nat n) (length rest)) as [Hle|Hgt].
  - rewrite decide_True in Herr by done. subst err. simpl. rewrite <- Hbytes by done.
    destruct (decode_body_spec t b w2 Hw2 Ho2) as (o&w3&Hdec&Ho&Hw3&[Hs3 Hd3]&Hk3).
    exists o, w3. split_and!; [exact Hdec|done| |by rewrite Hd3|done|].
    { rewrite Hs3. by etrans; [exact Hs2|]. }
    intros b0 Hb0 _. destruct (Hfr b0 Hb0). apply Hk3; [done|]. by rewrite list_elem_of_singleton.
  - rewrite decide_False in Herr by lia. subst err. simpl.
    destruct (release_spec [b] (fail (short_error rest (rend r1)) : M World Packet) w2)
      as (w3&Hr3&Hw3&[Hs3 Hd3]&Hk3); [done|by constructor|apply NoDup_singleton|].
    eexists _, w3. split_and!; [exact Hr3|by rewrite He1| |by rewrite Hd3|done|].
    { rewrite Hs3. etrans; [exact Hs2|]. rewrite drop_ge by lia. apply Hsrc. }
    intros b0 Hb0 _. destruct (Hfr b0 Hb0). apply Hk3; [done|]. change (arr <$> [b]) with [arr b]. by rewrite list_elem_of_singleton.
Qed.
End reading.

(** ** Lemmas: streams of packets *)

(** The reference parser, [n] times. *)
Fixpoint parse_packets `{Zlib} (t : Z) (eof : error) (n : nat) (inp : list byte)
    : outcome (list Packet) * list byte :=
  match n with
  | O => (Ret [], inp)
  | S n' =>
      match parse_packet t eof inp with
      | (Ret p, rest) =>
          match parse_packets t eof n' rest with
          | (Ret ps, rest') => (Ret (p :: ps), rest')
          | r => r
          end
      | (Err e, rest) => (Err e, rest)
      | (Panic p, rest) => (Panic p, rest)
      | (Block, rest) => (Block, rest)
      end
  end.

Lemma s32_small n : 0 ≤ n ≤ MaxPacketSize → s32 n = n ∧ is_int 32 (s32 n).
Proof.
  unfold MaxPacketSize. intros Hn. assert (is_int 32 n) by (unfold is_int; simpl; lia).
  split; [by apply swrap_id|by rewrite swrap_id].
Qed.

Section streams.
Context `{Z0 : Zlib}.

Lemma ReadPackets_refines t n w :
  pool_wf (wpool w) →
  ∃ o w', ReadPackets t n w = (o, w')
    ∧ same_outcome o (parse_packets t (rend (wsrc w)) n (rflat (wsrc w))).1
    ∧ wsrc w' ≡ rest_of (wsrc w) (parse_packets t (rend (wsrc w)) n (rflat (wsrc w))).2
    ∧ wdst w' = wdst w ∧ pool_wf (wpool w').
Proof.
  revert w. induction n as [|n IH]; intros w Hw; cbn [ReadPackets parse_packets].
  { eexists _, w. split_and!; [done|done| |done|done]. by apply rest_of_equiv. }
  destruct (ReadPacket_refines t w Hw) as (o&w1&Hr&Ho&Hs&Hd&Hw1&_).
  destruct (parse_packet t _ _) as [o' rest]. simpl in Ho, Hs. destruct Hs as (Hf&He&Hi).
  rewrite rflat_rest in Hf. simpl in He, Hi. unfold mbind, M_bind. rewrite Hr.
  destruct o as [p|e|pc|], o' as [p'|e'|pc'|]; try discriminate Ho; simplify_eq/=.
  2,3,4: eexists _, w1; split_and!; [done|done|by apply rest_of_equiv|done|done].
  destruct (IH w1 Hw1) as (o2&w2&Hr2&Ho2&Hs2&Hd2&Hw2). rewrite He in *.
  change (ReadPackets t n w1) with (ReadPackets t n w1). rewrite Hr2.
  destruct (parse_packets t _ n _) as [o2' rest2]. simpl in Ho2, Hs2. destruct Hs2 as (Hf2&He2&Hi2).
  rewrite rflat_rest in Hf2. simpl in He2, Hi2.
  destruct o2 as [ps|e2|pc2|], o2' as [ps'|e2'|pc2'|]; try discriminate Ho2; simplify_eq/=;
    eexists _, w2; split_and!; try done; try congruence; apply rest_of_equiv; congruence.
Qed.

Lemma parse_payload_ok p : is_int 32 (ID p) → parse_payload (payload p) = Ret p.
Proof.
  intros Hp. unfold parse_payload, payload. rewrite FromBytes_varint by done. by destruct p.
Qed.

Context `{!ZlibOk Z0}.

Lemma parse_body_ok t p : packet_ok t p → parse_body t (body_of t p) = Ret p.
Proof.
  intros (Hid&_&Hlen). unfold parse_body, body_of. destruct (t <? 0); [by apply parse_payload_ok|].
  destruct (_ <? t).
  - rewrite FromBytes_varint by done. by apply parse_payload_ok.
  - destruct (s32_small (Z.of_nat (length (payload p)))) as [E Hi]; [by split; [lia|]|].
    rewrite FromBytes_varint by done. rewrite E. cbn [mbind outcome_bind].
    assert (0 < Z.of_nat (length (payload p))).
    { rewrite length_payload. pose proof (VarIntLen_bounds (ID p)). lia. }
    rewrite (proj2 (Z.eqb_neq _ 0)), (proj2 (Z.ltb_ge _ _)), (proj2 (Z.ltb_ge _ 0)) by lia.
    unfold inflated. rewrite z_roundtrip. unfold CopyN. rewrite Nat2Z.id, Nat.leb_refl, firstn_all.
    rewrite Nat.sub_diag, app_nil_r. by apply parse_payload_ok.
Qed.

Lemma parse_frame t e p rest : packet_ok t p → parse_packet t e (frame t p ++ rest) = (Ret p, rest).
Proof.
  intros Hp. pose proof Hp as (_&Hlen&_). unfold parse_packet, frame, framed.
  destruct (s32_small (Z.of_nat (length (body_of t p)))) as [E Hi]; [by split; [lia|]|].
  rewrite <- app_assoc, FromBytes_varint by done. rewrite E.
  rewrite (proj2 (Z.ltb_ge _ 0)), (proj2 (Z.ltb_ge _ _)) by lia. cbn [orb].
  rewrite Nat2Z.id, (proj2 (Nat.leb_le _ _)) by (rewrite length_app; lia).
  by rewrite take_app_length, drop_app_length, parse_body_ok.
Qed.

Lemma parse_frames t e ps rest :
  Forall (packet_ok t) ps →
  parse_packets t e (length ps) (concat (frame t <$> ps) ++ rest) = (Ret ps, rest).
Proof.
  induction 1 as [|p ps Hp _ IH]; [done|]. rewrite fmap_cons. cbn [concat length parse_packets].
  by rewrite <- app_assoc, parse_frame, IH by done.
Qed.

Lemma WritePackets_frames t ps w :
  pool_wf (wpool w) → wplan (wdst w) = [] →
  ∃ w', WritePackets t ps w = (Ret (), w')
    ∧ wout (wdst w') = wout (wdst w) ++ concat (frame t <$> ps)
    ∧ wsrc w' = wsrc w ∧ pool_wf (wpool w').
Proof.
  revert w. induction ps as [|p ps IH]; intros w Hw Hp.
  { exists w. split_and!; [done| |done|done]. by rewrite app_nil_r. }
  destruct (WritePacket_frame t p w Hw) as (o&w1&Hr&(n&err&Hd&Ho)&Hs&Hw1&_).
  unfold Write in Hd. rewrite Hp in Hd. injection Hd as _ <- Hd. subst o.
  destruct (IH w1 Hw1) as (w2&Hr2&Hout&Hs2&Hw2); [by rewrite <- Hd|].
  exists w2. split_and!; [|..|congruence|done].
  - cbn [WritePackets]. by rewrite (bind_ret _ _ _ _ _ Hr).
  - rewrite Hout, <- Hd, fmap_cons. cbn [concat]. rewrite wout_snoc. by rewrite app_assoc.
Qed.
End streams.

(** ** Lemmas: raw packets *)

(** The raw reader as a function of the bytes to come: the whole frame, length
    prefix included. *)
Definition parse_raw (eof : error) (inp : list byte) : outcome (list byte) * list byte :=
  match ReadVarIntFromBytes inp with
  | Ret (n, rest) =>
      if (n <? 0) || (MaxPacketSize <? n) then (Err ErrPacketTooLarge, rest)
      else if (Z.to_nat n <=? length rest)%nat
           then (Ret (take (length inp - length rest + Z.to_nat n) inp), drop (Z.to_nat n) rest)
           else (Err (short_error rest eof), [])
  | Err ErrPacketTooShort => (Err eof, [])
  | Err e => (Err e, drop 5 inp)
  | Panic p => (Panic p, inp)
  | Block => (Block, inp)
  end.

Lemma mem_fill_1 b i c :
  (i < bcap b)%nat →
  mem (fill_at b i [c]) !!! i = c ∧ take (S i) (mem (fill_at b i [c])) = take i (mem b) ++ [c].
Proof.
  intros Hi. unfold bcap, fill_at in *. simpl.
  assert (length (take i (mem b)) = i) as Hl by (rewrite length_take; lia).
  rewrite lookup_total_app_r, Hl, Nat.sub_diag by lia. split; [done|].
  rewrite take_app_ge, Hl by lia. by replace (S i - i)%nat with 1%nat by lia.
Qed.

(** What [readUntilVarInt] finds, with [n] turns left at offset [i]. *)
Lemma until_loop_spec n i b r :
  (i + n ≤ blen b)%nat → (blen b ≤ bcap b)%nat →
  ∃ b' res r', until_loop n i b r = (Ret (b', res), r')
    ∧ arr b' = arr b ∧ blen b' = blen b ∧ bcap b' = bcap b
    ∧ rend r' = rend r ∧ is_reader r' = is_reader r
    ∧ match res with
      | inl k => ∃ pre c rest, rflat r = pre ++ c :: rest ∧ Forall (λ c, final c = false) pre
          ∧ final c = true ∧ (length pre < n)%nat ∧ k = (i + S (length pre))%nat
          ∧ take k (mem b') = take i (mem b) ++ pre ++ [c] ∧ rflat r' = rest
      | inr e =>
          (Forall (λ c, final c = false) (rflat r) ∧ (length (rflat r) < n)%nat
           ∧ e = rend r ∧ rflat r' = [])
          ∨ (∃ pre rest, rflat r = pre ++ rest ∧ Forall (λ c, final c = false) pre
             ∧ length pre = n ∧ e = ErrMalformedVarInt ∧ rflat r' = rest)
      end.
Proof.
  revert i b r. induction n as [|n IH]; intros i b r Hn Hb; cbn [until_loop].
  { eexists b, _, r. split_and!; try done. right. by exists [], (rflat r). }
  destruct (read_into_spec b i 1 r Hb) as (b1&r1&Hr&Hb1&Hf&He&Hi).
  rewrite (bind_ret _ _ _ _ _ Hr). destruct (rflat r) as [|c l] eqn:E; simpl in *.
  { eexists b1, _, r1. rewrite Hb1. split_and!; try done; [rewrite bcap_fill; simpl; lia|].
    left. split_and!; [constructor|lia|done|done]. }
  rewrite take_0 in Hb1. rewrite drop_0 in Hf. destruct (mem_fill_1 b i c) as [Hc Ht]; [lia|].
  rewrite Hb1, Hc. assert (bcap (fill_at b i [c]) = bcap b) as Hcap by (apply bcap_fill; simpl; lia).
  destruct (final c) eqn:Hfin.
  { eexists _, _, r1. split_and!; try done. exists [], c, l. simpl.
    split_and!; [done|constructor|done|lia|lia|done|done]. }
  destruct (IH (S i) (fill_at b i [c]) r1) as (b'&res&r'&->&Ha&Hl&Hc'&He'&Hi'&Hres);
    [simpl; lia|rewrite Hcap; done|].
  eexists b', res, r'. split_and!; try done; try congruence. destruct res as [k|e].
  - destruct Hres as (pre&c'&rest&Hrf&Hp&Hc2&Hlp&->&Ht'&Hr'). exists (c :: pre), c', rest. simpl.
    split_and!; [by rewrite <- Hf, Hrf|by constructor|done|lia|lia| |done].
    etrans; [exact Ht'|]. rewrite Ht. by rewrite <- app_assoc.
  - destruct Hres as [(Hp&Hlp&->&?)|(pre&rest&Hrf&Hp&Hlp&->&?)]; [left|right].
    + rewrite <- Hf. split_and!; [by constructor|lia|congruence|done].
    + exists (c :: pre), rest. simpl. split_and!; [by rewrite <- Hf, Hrf|by constructor|lia|done|done].
Qed.

Lemma FromBytes_prefix pre c rest :
  Forall (λ c, final c = false) pre → final c = true → (length pre < 5)%nat →
  ReadVarIntFromBytes (pre ++ c :: rest) = Ret (s32 (leb_val (pre ++ [c])), rest)
  ∧ varint_of 0 0 (pre ++ [c]) = s32 (leb_val (pre ++ [c])).
Proof.
  intros Hp Hc Hl. split.
  - rewrite cons_middle, app_assoc. apply FromBytes_encoding; [by exists pre, c|].
    rewrite length_app. simpl. lia.
  - pose proof (varint_of_ok pre c [] 0 0 Hp Hc) as E. change (s32 0) with 0 in E.
    rewrite E by (simpl; lia). f_equal. simpl Z.of_nat. lia.
Qed.

Lemma FromBytes_bad data :
  (Forall (λ c, final c = false) data → (length data < 5)%nat →
    ReadVarIntFromBytes data = Err ErrPacketTooShort)
  ∧ (∀ pre rest, data = pre ++ rest → Forall (λ c, final c = false) pre → length pre = 5%nat →
    ReadVarIntFromBytes data = Err ErrMalformedVarInt).
Proof.
  split.
  - intros Hp Hl. unfold ReadVarIntFromBytes. case_decide; [done|].
    by apply (from_bytes_loop_short data 0 0).
  - intros pre rest -> Hp Hl. unfold ReadVarIntFromBytes.
    rewrite decide_False by (rewrite length_app; lia).
    by apply (from_bytes_loop_malformed pre rest 0 0); [..|lia].
Qed.

(** The second half of [ReadRawPacket]: the prefix [hd] is known, [n] bytes follow. *)
Lemma raw_body hd n b w :
  0 ≤ n → pool_wf (wpool w) → owned (wpool w) b →
  ∃ o w', (fullBuf ← on_pool (GetBuffer (Z.of_nat (length hd) + n));
           let fullBuf := copy_at fullBuf 0 hd in
           on_pool (PutBuffer b);;
           '(fullBuf, err) ← on_src (read_into fullBuf (length hd) (blen fullBuf - length hd));
           match err with
           | Some e => on_pool (PutBuffer fullBuf);; fail e
           | None => mret (mkRaw (Some fullBuf))
           end) w = (o, w')
    ∧ wdst w' = wdst w ∧ pool_wf (wpool w')
    ∧ wsrc w' ≡ rest_of (wsrc w) (drop (Z.to_nat n) (rflat (wsrc w)))
    ∧ if decide (Z.to_nat n ≤ length (rflat (wsrc w)))%nat
      then ∃ f, o = Ret (mkRaw (Some f)) ∧ owned (wpool w') f
           ∧ bytes f = hd ++ take (Z.to_nat n) (rflat (wsrc w))
      else o = Err (short_error (rflat (wsrc w)) (rend (wsrc w))).
Proof.
  intros Hn Hw Ho. destruct (step_get (Z.of_nat (length hd) + n) w) as (f&w1&Hg&Hf&Hc&Hw1&Hof&[Hs1 Hd1]&_&Hfr);
    [lia|done|].
  destruct (Hfr b Ho) as [Hob Hne]. rewrite (bind_ret _ _ _ _ _ Hg). cbv zeta.
  destruct (step_put b w1 Hw1 Hob) as (w2&Hp&Hw2&[Hs2 Hd2]&_&Hk). rewrite (bind_ret _ _ _ _ _ Hp).
  assert (Hof2 : owned (wpool w2) f) by (apply Hk; done).
  set (f1 := copy_at f 0 hd). assert (Hb1 : bytes f1 = hd ++ drop (length hd) (bytes f)).
  { unfold f1, copy_at. rewrite take_ge by lia. by rewrite bytes_fill by lia. }
  assert (Hc1 : bcap f1 = bcap f) by (unfold f1, copy_at; rewrite take_ge by lia; apply bcap_fill; lia).
  assert (Hl1 : blen f1 = (length hd + Z.to_nat n)%nat) by (change (blen f1) with (blen f); lia).
  destruct (read_into_spec f1 (length hd) (blen f1 - length hd) (wsrc w2)) as (f2&r2&Hr&Hf2&Hfl&He&Hi).
  { rewrite Hc1. done. }
  replace (blen f1 - length hd)%nat with (Z.to_nat n) in * by lia.
  rewrite (bind_ret _ _ _ (f2, if decide (Z.to_nat n ≤ length (rflat (wsrc w2)))%nat then None
     else Some (short_error (rflat (wsrc w2)) (rend (wsrc w2)))) (mkWorld (wpool w2) (wz w2) r2 (wdst w2)))
    by (unfold on_src, zoom; by rewrite Hr).
  rewrite Hs2, Hs1 in *. assert (Hof3 : owned (wpool w2) f2) by (rewrite Hf2; by eapply owned_arr; [|exact Hof2]).
  case_decide as Hdec.
  - eexists _, _. split_and!; [done|simpl; congruence|done|by apply rest_of_equiv|].
    exists f2. split_and!; [done|done|]. rewrite Hf2.
    rewrite bytes_fill by (rewrite ?length_take; lia). rewrite Hb1, take_app_length.
    rewrite (drop_ge (hd ++ _)), app_nil_r; [done|].
    rewrite length_app, length_drop, length_bytes, length_take by lia. lia.
  - destruct (release_spec [f2] (fail (short_error (rflat (wsrc w)) (rend (wsrc w))) : M World RawPacket)
      (mkWorld (wpool w2) (wz w2) r2 (wdst w2))) as (w3&Hr3&Hw3&[Hs3 Hd3]&_);
      [done|by constructor|apply NoDup_singleton|].
    eexists _, w3. split_and!; [exact Hr3|rewrite Hd3; simpl; congruence|done| |done].
    rewrite Hs3. by apply rest_of_equiv.
Qed.

Lemma ReadRawPacket_refines w :
  pool_wf (wpool w) →
  ∃ o w', ReadRawPacket w = (o, w')
    ∧ (o ≫= λ rp, Ret (RawPacket_bytes rp)) = (parse_raw (rend (wsrc w)) (rflat (wsrc w))).1
    ∧ wsrc w' ≡ rest_of (wsrc w) (parse_raw (rend (wsrc w)) (rflat (wsrc w))).2
    ∧ wdst w' = wdst w ∧ pool_wf (wpool w')
    ∧ (∀ rp, o = Ret rp → ∃ f, rp = mkRaw (Some f) ∧ owned (wpool w') f).
Proof.
  intros Hw. destruct (step_get (Z.of_nat MaxVarIntLen) w) as (b&w1&Hg&Hb&Hc&Hw1&Ho&[Hs1 Hd1]&_&_); [lia|done|].
  unfold ReadRawPacket. rewrite (bind_ret _ _ _ _ _ Hg).
  destruct (until_loop_spec MaxVarIntLen 0 b (wsrc w1)) as (b'&res&r'&Hu&Ha&Hl&Hcap&He&Hi&Hres); [lia|done|].
  set (w2 := mkWorld (wpool w1) (wz w1) r' (wdst w1)).
  rewrite (bind_ret _ _ _ (b', res) w2) by (unfold on_src, zoom, readUntilVarInt; by rewrite Hu).
  assert (Ho2 : owned (wpool w2) b') by (by eapply owned_arr; [|exact Ho]).
  rewrite Hs1 in *. destruct (FromBytes_bad (rflat (wsrc w))) as [Hshort Hmal].
  assert (Hrel : ∀ e, ∃ w3, (on_pool (PutBuffer b');; fail e : M World RawPacket) w2 = (Err e, w3)
    ∧ wsrc w3 = r' ∧ wdst w3 = wdst w ∧ pool_wf (wpool w3)).
  { intros e. destruct (release_spec [b'] (fail e : M World RawPacket) w2) as (w3&Hr3&Hw3&[Hs3 Hd3]&_);
      [done|by constructor|apply NoDup_singleton|].
    exists w3. split_and!; [exact Hr3|done|rewrite Hd3; simpl; congruence|done]. }
  unfold parse_raw. destruct res as [k|e].
  2:{ destruct (Hrel e) as (w3&Hr3&Hs3&Hd3&Hw3). exists (Err e), w3.
      destruct Hres as [(Hp&Hlen&->&Hr')|(pre&rest&Hrf&Hp&Hlen&->&Hr')].
      - rewrite Hshort by done. split_and!; [exact Hr3|done| |done|done|done].
        rewrite Hs3. by apply rest_of_equiv.
      - rewrite (Hmal pre rest) by done. split_and!; [exact Hr3|done| |done|done|done].
        rewrite Hs3. apply rest_of_equiv; [|done..]. by rewrite Hrf, drop_app_exact. }
  destruct Hres as (pre&c&rest&Hrf&Hp&Hfin&Hlen&->&Htake&Hr'). rewrite Hrf.
  destruct (FromBytes_prefix pre c rest Hp Hfin Hlen) as [-> Hv].
  assert (Hhd : take (0 + S (length pre)) (bytes b') = pre ++ [c]).
  { unfold bytes. rewrite take_take, Nat.min_l by (unfold MaxVarIntLen in *; lia). done. }
  rewrite Hhd, Hv. set (n := s32 _). destruct (_ || _) eqn:Hbd.
  { destruct (Hrel ErrPacketTooLarge) as (w3&Hr3&Hs3&Hd3&Hw3). eexists _, w3.
    split_and!; [exact Hr3|done| |done|done|done]. rewrite Hs3. by apply rest_of_equiv. }
  apply orb_false_iff in Hbd as [Hn0%Z.ltb_ge Hn1%Z.ltb_ge].
  assert (Hhl : (0 + S (length pre))%nat = length (pre ++ [c])) by (rewrite length_app; simpl; lia).
  rewrite Hhl. destruct (raw_body (pre ++ [c]) n b' w2 Hn0 Hw1 Ho2) as (o&w3&Hr3&Hd3&Hw3&Hs3&Hres).
  exists o, w3. split; [exact Hr3|]. simpl wsrc in Hres, Hs3. rewrite Hr' in *. simpl in Hd3.
  destruct (Nat.leb_spec (Z.to_nat n) (length rest)) as [Hle|Hgt].
  - rewrite decide_True in Hres by done. destruct Hres as (f&->&Hof&Hbf).
    split_and!; [| |congruence|done|intros rp [= <-]; eauto].
    + cbn [mbind outcome_bind fst]. unfold RawPacket_bytes. cbn [rbuf]. rewrite Hbf.
      f_equal. rewrite (cons_middle c pre rest), (app_assoc pre [c] rest).
      rewrite (length_app (pre ++ [c])). rewrite take_app_ge by lia. do 2 f_equal. lia.
    + etrans; [exact Hs3|]. by apply rest_of_equiv; rewrite ?rflat_rest.
  - rewrite decide_False in Hres by lia. subst o.
    split_and!; [by rewrite He| |congruence|done|done].
    etrans; [exact Hs3|]. rewrite drop_ge by lia. by apply rest_of_equiv.
Qed.

(** The slice decoder on the bytes of a longer input. *)
Lemma FromBytes_rest data v rest :
  ReadVarIntFromBytes data = Ret (v, rest) →
  ∃ hd, data = hd ++ rest ∧ hd ≠ [] ∧ ∀ k, ReadVarIntFromBytes (hd ++ k) = Ret (v, k).
Proof.
  intros E. destruct (from_bytes_shape data) as [(pre&b&rest'&->&Hp&Hb&Hl&E')|[(_&_&E')|(?&?&_&_&_&E')]];
    rewrite E' in E; simplify_eq.
  exists (pre ++ [b]). split_and!; [by rewrite <- app_assoc|by destruct pre|].
  intros k. rewrite <- app_assoc. by apply FromBytes_prefix.
Qed.

(** Raw and decoded reading cut the input at the same place. *)
Lemma parse_raw_packet `{Zlib} t e inp :
  (parse_raw e inp).2 = (parse_packet t e inp).2
  ∧ match (parse_raw e inp).1 with
    | Ret bs => inp = bs ++ (parse_raw e inp).2
        ∧ ∀ f, bytes f = bs →
          RawPacket_PacketID (mkRaw (Some f)) = (parse_packet (-1) e inp).1 ≫= λ p, Ret (ID p)
    | Err e' => (parse_packet t e inp).1 = Err e'
    | _ => False
    end.
Proof.
  unfold parse_raw, parse_packet. destruct (from_bytes_cases inp) as [(n&rest&E&_)|(e'&E)];
    rewrite E; [|by destruct e'].
  destruct (_ || _); [done|]. destruct (Nat.leb_spec (Z.to_nat n) (length rest)) as [Hle|]; [|done].
  split; [done|]. destruct (FromBytes_rest inp n rest E) as (hd&->&Hne&Hhd). simpl.
  rewrite length_app, take_app_ge by lia.
  replace (length hd + length rest - length rest + Z.to_nat n - length hd)%nat with (Z.to_nat n) by lia.
  split; [by rewrite <- app_assoc, take_drop|]. intros f Hf.
  unfold RawPacket_PacketID, RawPacket_bytes. cbn [rbuf]. rewrite Hf, decide_False.
  - rewrite Hhd. cbn [mbind outcome_bind]. unfold parse_body, parse_payload.
    change (-1 <? 0) with true. cbv iota.
    by destruct (from_bytes_cases (take (Z.to_nat n) rest)) as [(v&r&->&_)|(?&->)].
  - destruct hd; [done|]. simpl. lia.
Qed.

Lemma parse_payload_cases l :
  (∃ p, parse_payload l = Ret p ∧ (length (Data p) ≤ length l)%nat) ∨ (∃ e, parse_payload l = Err e).
Proof.
  unfold parse_payload. destruct (from_bytes_cases l) as [(v&r&E&_)|(e&->)]; [|by right; eexists].
  left. destruct (FromBytes_rest l v r E) as (hd&->&_&_). rewrite E.
  eexists. split; [done|]. simpl. rewrite length_app. lia.
Qed.

Lemma inflated_cases `{Zlib} src n :
  (∃ l, inflated src n = Ret l ∧ (length l ≤ Z.to_nat n)%nat) ∨ (∃ e, inflated src n = Err e).
Proof.
  unfold inflated. destruct (z_open src) as [[out e]|?]; [|by right; eexists].
  pose proof (CopyN_length out e n) as Hl.
  destruct (CopyN out e n) as [bs [[]|]]; simpl in Hl; try (by right; eexists);
    left; eexists; (split; [done|]); rewrite length_app, length_replicate; lia.
Qed.

(** The frames that crash the reader: a body whose data length is negative. *)
Definition hostile (t : Z) (inp : list byte) : Prop :=
  0 ≤ t ∧ ∃ n rest m rem, ReadVarIntFromBytes inp = Ret (n, rest)
    ∧ 0 ≤ n ≤ MaxPacketSize ∧ (Z.to_nat n ≤ length rest)%nat
    ∧ ReadVarIntFromBytes (take (Z.to_nat n) rest) = Ret (m, rem) ∧ m < 0.

Lemma parse_body_cases `{Zlib} t body :
  Z.of_nat (length body) ≤ MaxPacketSize →
  (∃ p, parse_body t body = Ret p ∧ Z.of_nat (length (Data p)) ≤ MaxPacketSize)
  ∨ (∃ e, parse_body t body = Err e)
  ∨ (parse_body t body = Panic SliceOutOfRange ∧ 0 ≤ t
     ∧ ∃ m rem, ReadVarIntFromBytes body = Ret (m, rem) ∧ m < 0).
Proof.
  intros Hb. unfold parse_body. destruct (Z.ltb_spec t 0).
  { destruct (parse_payload_cases body) as [(p&->&?)|(?&->)]; [left|right; left]; eexists; [|done].
    split; [done|lia]. }
  destruct (from_bytes_cases body) as [(m&rem&E&_)|(?&->)]; [|by right; left; eexists].
  rewrite E. cbn [mbind outcome_bind]. destruct (FromBytes_rest _ _ _ E) as (hd&->&_&_).
  rewrite length_app in Hb. destruct (Z.eqb_spec m 0).
  { destruct (parse_payload_cases rem) as [(p&->&?)|(?&->)]; [left|right; left]; eexists; [|done].
    split; [done|lia]. }
  destruct (Z.ltb_spec MaxCompressedSize m) as [|Hm]; [by right; left; eexists|].
  destruct (Z.ltb_spec m 0); [by right; right; eauto 10|].
  destruct (inflated_cases rem m) as [(l&->&Hl)|(?&->)]; [|by right; left; eexists].
  cbn [mbind outcome_bind].
  destruct (parse_payload_cases l) as [(p&->&?)|(?&->)]; [left|right; left]; eexists; [|done].
  split; [done|]. unfold MaxPacketSize, MaxCompressedSize in *. lia.
Qed.

Lemma parse_body_negative `{Zlib} t body m rem :
  0 ≤ t → ReadVarIntFromBytes body = Ret (m, rem) → m < 0 → parse_body t body = Panic SliceOutOfRange.
Proof.
  intros Ht E Hm. unfold parse_body. rewrite (proj2 (Z.ltb_ge t 0)), E by done.
  cbn [mbind outcome_bind]. rewrite (proj2 (Z.eqb_neq m 0)) by lia.
  unfold MaxCompressedSize. rewrite (proj2 (Z.ltb_ge _ m)), (proj2 (Z.ltb_lt m 0)) by lia. done.
Qed.

Lemma parse_packet_cases `{Zlib} t e inp :
  match (parse_packet t e inp).1 with
  | Ret p => Z.of_nat (length (Data p)) ≤ MaxPacketSize ∧ ¬ hostile t inp
  | Err _ => ¬ hostile t inp
  | Panic _ => hostile t inp
  | Block => False
  end.
Proof.
  assert (Hbad : ∀ e', ReadVarIntFromBytes inp = Err e' → ¬ hostile t inp).
  { intros e' E (_&n&rest&m&rem&E2&_). congruence. }
  unfold parse_packet. destruct (from_bytes_cases inp) as [(n&rest&E&_)|(e'&E)];
    rewrite E; [|by destruct e'; eapply Hbad].
  destruct (_ || _) eqn:Hbd.
  { intros (_&?&?&?&?&E2&?&_). rewrite E in E2. simplify_eq. apply orb_true_iff in Hbd.
    rewrite !Z.ltb_lt in Hbd. lia. }
  apply orb_false_iff in Hbd as [Hn0%Z.ltb_ge Hn1%Z.ltb_ge].
  destruct (Nat.leb_spec (Z.to_nat n) (length rest)) as [Hle|Hgt].
  2:{ intros (_&?&?&?&?&E2&?&?&_). rewrite E in E2. simplify_eq. lia. }
  assert (Hno : hostile t inp → parse_body t (take (Z.to_nat n) rest) = Panic SliceOutOfRange).
  { intros (Ht&?&?&m&rem&E2&_&_&Em&?). rewrite E in E2. simplify_eq.
    by apply (parse_body_negative t _ m rem). }
  destruct (parse_body_cases t (take (Z.to_nat n) rest)) as [(p&Hr&?)|[(e'&Hr)|(Hr&Ht&m&rem&Em&?)]].
  - rewrite length_take. lia.
  - simpl. rewrite Hr in *. split; [done|]. by intros ?%Hno.
  - simpl. rewrite Hr in *. by intros ?%Hno.
  - simpl. rewrite Hr. split; [done|]. by exists n, rest, m, rem.
Qed.

(** ** The properties of the component *)

(** C1. The packet reader refines the reference parser: for every threshold, every
    content of the buffer pool and of the zlib pools and every way the transport
    cuts the input into reads, reading [n] packets gives the outcome of the pure
    parser on the flat input (the packets, or the first error, or a panic), and
    leaves exactly the input the parser leaves. Nothing of a buffer's earlier
    content reaches a packet. *)
Theorem reader_refines `{Zlib} t n w :
  pool_wf (wpool w) →
  ∃ o w', ReadPackets t n w = (o, w')
    ∧ same_outcome o (parse_packets t (rend (wsrc w)) n (rflat (wsrc w))).1
    ∧ wsrc w' ≡ rest_of (wsrc w) (parse_packets t (rend (wsrc w)) n (rflat (wsrc w))).2
    ∧ wdst w' = wdst w ∧ pool_wf (wpool w').
Proof. apply ReadPackets_refines. Qed.

(** A world with a used buffer in the pool, reading [cs]. *)
Definition demo_world (cs : list (list byte)) : World :=
  mkWorld (mkPool [mkBuf 0 [xde; xad; xbe; xef; xff; xff; xff; xff] 8] 1) (mkZPools 1 1)
          (mkReader cs EOF true) (mkWriter [] []).

Lemma demo_world_wf cs : pool_wf (wpool (demo_world cs)).
Proof.
  split_and!; simpl; [unfold bufPoolCap; lia| | |].
  - repeat constructor; vm_compute; congruence.
  - apply NoDup_singleton.
  - repeat constructor.
Qed.

Lemma reader_refines_witness :
  ∃ o w', ReadPackets (H := stored_zlib) 256 2 (demo_world [[x04; x00]; [x07; x41; x42; x02]; [x00]]) = (o, w')
    ∧ same_outcome o (Err ErrUnexpectedEOF).
Proof.
  destruct (reader_refines (H := stored_zlib) 256 2 _ (demo_world_wf [[x04; x00]; [x07; x41; x42; x02]; [x00]]))
    as (o&w'&Hr&Ho&_).
  exists o, w'. split; [exact Hr|]. vm_compute in Ho. exact Ho.
Defined.

(** C5. The packet writer: for every threshold and every pool content, one [Write] of
    exactly the frame of the packet (length prefix, then the payload, or the
    zero data length and the payload, or the data length and the compressed
    payload), whose error is the result.  The pool stays well formed and holds at
    least as many buffers as before, and when the frame is within the size the pool
    keeps, the buffer it was built in is back in the pool: the last one, with the
    frame still in it; whether the write succeeded or not. *)
Theorem writer_emits_frame `{Z0 : Zlib} `{!ZlibOk Z0} t p w :
  pool_wf (wpool w) →
  ∃ n err w',
    WritePacket t p w = (match err with Some e => Err e | None => Ret () end, w')
    ∧ Write (frame t p) (wdst w) = (Ret (n, err), wdst w')
    ∧ wsrc w' = wsrc w ∧ pool_wf (wpool w')
    ∧ (length (free (wpool w)) ≤ length (free (wpool w')))%nat
    ∧ (Z.of_nat (length (frame t p)) ≤ BufferPoolMax →
       ∃ b, last (free (wpool w')) = Some b ∧ frame t p `prefix_of` mem b).
Proof.
  intros Hw. destruct (WritePacket_frame t p w Hw) as (o&w'&Hr&(n&err&Hd&->)&?&?&Hf&Hb).
  exists n, err, w'. split_and!; try done. intros Hmax. apply Hb. split; [|done].
  unfold frame, framed. rewrite length_app, length_varint.
  pose proof (VarIntLen_bounds (s32 (Z.of_nat (length (body_of t p))))). lia.
Qed.

Lemma writer_emits_frame_witness :
  (WritePacket (H := stored_zlib) 3 (mkPacket 300 [x41; x42]) (demo_world [])).1 = Ret ()
  ∧ frame (H := stored_zlib) 3 (mkPacket 300 [x41; x42]) = [x06; x04; x78; xac; x02; x41; x42].
Proof.
  split; [|by vm_compute].
  destruct (writer_emits_frame (Z0 := stored_zlib) (ZlibOk0 := stored_zlib_ok) 3 (mkPacket 300 [x41; x42]) _
    (demo_world_wf [])) as (n&err&w'&Hr&Hd&_). rewrite Hr.
  unfold Write in Hd. injection Hd as _ <- _. done.
Defined.

(** C2. Round trip of a packet stream: packets that fit the limits, written one after
    the other under threshold [t], are read back as the same packets in the same
    order by a reader with that threshold, whatever pools the two ends have, however
    the bytes are cut into reads and whatever follows them, which is left unread. *)
Theorem packets_roundtrip `{Z0 : Zlib} `{!ZlibOk Z0} t ps w wr rest :
  Forall (packet_ok t) ps →
  pool_wf (wpool w) → wdst w = mkWriter [] [] →
  pool_wf (wpool wr) → rflat (wsrc wr) = wout (wdst (WritePackets t ps w).2) ++ rest →
  (WritePackets t ps w).1 = Ret ()
  ∧ ∃ wr', ReadPackets t (length ps) wr = (Ret ps, wr') ∧ wsrc wr' ≡ rest_of (wsrc wr) rest.
Proof.
  intros Hps Hw Hd Hwr Hin.
  destruct (WritePackets_frames t ps w Hw) as (w'&HW&Hout&_); [by rewrite Hd|].
  rewrite HW in *. split; [done|]. simpl in Hin. rewrite Hout, Hd in Hin. simpl in Hin.
  destruct (ReadPackets_refines t (length ps) wr Hwr) as (o&wr'&Hr&Ho&Hs&_).
  rewrite Hin, parse_frames in Ho, Hs by done. exists wr'. split; [|done].
  destruct o; simpl in Ho; congruence.
Qed.

Lemma packets_roundtrip_witness :
  let ps := [mkPacket 0 []; mkPacket 300 [x41; x42; x43]; mkPacket (-1) [x00]] in
  let out := wout (wdst (WritePackets (H := stored_zlib) 4 ps (demo_world [])).2) in
  (WritePackets (H := stored_zlib) 4 ps (demo_world [])).1 = Ret ()
  ∧ ∃ wr', ReadPackets (H := stored_zlib) 4 3 (demo_world [take 3 out; drop 3 out; [x09]]) = (Ret ps, wr')
     ∧ wsrc wr' ≡ rest_of (wsrc (demo_world [take 3 out; drop 3 out; [x09]])) [x09].
Proof.
  intros ps out.
  apply (packets_roundtrip (Z0 := stored_zlib) (ZlibOk0 := stored_zlib_ok) 4 ps (demo_world [])
    (demo_world [take 3 out; drop 3 out; [x09]]) [x09]).
  - repeat constructor; by vm_compute.
  - apply demo_world_wf.
  - done.
  - apply demo_world_wf.
  - by vm_compute.
Defined.

(** C4. What a peer can do to the reader: it always returns; a packet it returns has
    at most 2 MiB of data, whatever the compressed stream expands to; and it panics
    exactly on a complete frame within the limits whose data length is negative,
    with compression on. *)
Theorem reader_safety `{Zlib} t w :
  pool_wf (wpool w) →
  match (ReadPacket t w).1 with
  | Ret p => Z.of_nat (length (Data p)) ≤ MaxPacketSize ∧ ¬ hostile t (rflat (wsrc w))
  | Err _ => ¬ hostile t (rflat (wsrc w))
  | Panic _ => hostile t (rflat (wsrc w))
  | Block => False
  end.
Proof.
  intros Hw. destruct (ReadPacket_refines t w Hw) as (o&w'&->&Ho&_).
  pose proof (parse_packet_cases t (rend (wsrc w)) (rflat (wsrc w))) as Hc.
  destruct o, (parse_packet t _ _) as [[] ?]; simpl in *; simplify_eq; done.
Qed.

(** Six bytes: length 5, data length -1. *)
Lemma reader_safety_witness :
  hostile 256 [x05; xff; xff; xff; xff; x0f]
  ∧ match (ReadPacket (H := stored_zlib) 256 (demo_world [[x05; xff; xff; xff; xff; x0f]])).1 with
    | Panic _ => True | _ => False end.
Proof.
  assert (Hh : hostile 256 [x05; xff; xff; xff; xff; x0f]).
  { split; [lia|]. exists 5, [xff; xff; xff; xff; x0f], (-1), []. by vm_compute. }
  split; [done|].
  pose proof (reader_safety (H := stored_zlib) 256 _ (demo_world_wf [[x05; xff; xff; xff; xff; x0f]])) as Hs.
  destruct (ReadPacket 256 _).1; [by apply Hs in Hh|by apply Hs in Hh|done|done].
Defined.

(** C12. [ReadRawPacket] takes the same bytes off the input as [ReadPacket] and fails
    where the frame itself is bad; the buffer it returns holds the frame verbatim,
    length prefix included, and belongs to the caller; and [PacketID] of it is the
    packet ID the uncompressed reader finds, its errors included. *)
Theorem raw_packet_verbatim `{Zlib} t w :
  pool_wf (wpool w) →
  ∃ o w', ReadRawPacket w = (o, w')
    ∧ wsrc w' ≡ rest_of (wsrc w) (parse_packet t (rend (wsrc w)) (rflat (wsrc w))).2
    ∧ pool_wf (wpool w')
    ∧ match o with
      | Ret rp => rflat (wsrc w) = RawPacket_bytes rp ++ rflat (wsrc w')
          ∧ (∃ f, rp = mkRaw (Some f) ∧ owned (wpool w') f)
          ∧ RawPacket_PacketID rp
            = (parse_packet (-1) (rend (wsrc w)) (rflat (wsrc w))).1 ≫= λ p, Ret (ID p)
      | Err e => (parse_packet t (rend (wsrc w)) (rflat (wsrc w))).1 = Err e
      | _ => False
      end.
Proof.
  intros Hw. destruct (ReadRawPacket_refines w Hw) as (o&w'&Hr&Ho&Hs&Hd&Hw'&Hown).
  exists o, w'. destruct (parse_raw_packet t (rend (wsrc w)) (rflat (wsrc w))) as [Hrest Hc].
  split_and!; [done|by rewrite <- Hrest|done|]. rewrite <- Ho in Hc.
  destruct Hs as (Hs&_). rewrite rflat_rest in Hs.
  destruct o as [rp|e|pc|]; [|done..]. destruct (Hown rp) as (f&->&Hf); [done|].
  destruct Hc as [Hin Hid]. rewrite Hs. split_and!; [done|by eauto|by apply Hid].
Qed.

Lemma raw_packet_verbatim_witness :
  ∃ o w', ReadRawPacket (demo_world [[x03; xac]; [x02; x41; x09]]) = (o, w')
    ∧ match o with Ret rp => RawPacket_PacketID rp = Ret 300 | _ => False end.
Proof.
  destruct (raw_packet_verbatim (H := stored_zlib) (-1) _ (demo_world_wf [[x03; xac]; [x02; x41; x09]]))
    as (o&w'&Hr&_&_&Ho).
  exists o, w'. split; [exact Hr|]. destruct o; [|by vm_compute in Ho..].
  destruct Ho as (_&_&->). by vm_compute.
Defined.

(** The writer and [ThresholdManager] agree: the body is compressed exactly when
    [ShouldCompress] says so for the payload length, and carries a data length
    exactly when [IsEnabled]. *)
Theorem threshold_agrees `{Zlib} tm p :
  body_of (Threshold tm) p =
    if ShouldCompress tm (Z.of_nat (length (payload p)))
    then varint (s32 (Z.of_nat (length (payload p)))) ++ z_deflate (payload p)
    else (if IsEnabled tm then varint 0 else []) ++ payload p.
Proof.
  unfold body_of, ShouldCompress, IsEnabled, Threshold.
  destruct (Z.ltb_spec (tm_threshold tm) 0), (Z.leb_spec 0 (tm_threshold tm)); try lia; [done|].
  destruct (Z.ltb_spec (Z.of_nat (length (payload p))) (tm_threshold tm)),
    (Z.leb_spec (tm_threshold tm) (Z.of_nat (length (payload p)))); done || lia.
Qed.
