(* ===== verification/Cfb8.v ===== *)
(** * The stream cipher ([crypto/cfb8.go])

    [XORKeyStream] works on two slices that are disjoint or the same memory, as
    the contract of [cipher.Stream] demands; which of the two matters, because
    the feedback is read back from the slices after they were written.  The block
    cipher is the parameter [BlockCipher]. *)

From S2P Require Export GoIO.

(** [cipher.Block]. [Encrypt] panics on an input shorter than a block and
    otherwise uses its first block. *)
Class BlockCipher := {
  BlockSize : nat;
  Encrypt : list byte → list byte;
}.

Class BlockCipherOk (B : BlockCipher) : Prop := {
  BlockSize_pos : 0 < BlockSize;
  Encrypt_length : ∀ x, length (Encrypt x) = BlockSize;
}.

Definition xorl (l k : list byte) : list byte := zip_with bxor l k.

(** [copy(dst, src)] *)
Definition copy_into (dst src : list byte) : list byte :=
  take (length dst) src ++ drop (length src) dst.

Record CFB8 := mkCFB8 { iv : list byte; tmp : list byte; de : bool }.

(** The memory of one call: [alias = None] when [src] is [dst] itself. *)
Record Mem := mkMem { dst : list byte; alias : option (list byte) }.

Definition rd (m : Mem) (i : nat) : byte :=
  match alias m with Some src => src !!! i | None => dst m !!! i end.
Definition wr (m : Mem) (i : nat) (b : byte) : Mem := mkMem (<[i := b]> (dst m)) (alias m).
Definition src_slice (m : Mem) (start n : nat) : list byte :=
  take n (drop start (match alias m with Some src => src | None => dst m end)).
Definition dst_slice (m : Mem) (start n : nat) : list byte := take n (drop start (dst m)).

Section cfb8.
Context `{BlockCipher}.

Definition NewCFB8Encrypt (iv : list byte) : CFB8 :=
  mkCFB8 (copy_into (replicate (length iv) x00) iv) (replicate BlockSize x00) false.
Definition NewCFB8Decrypt (iv : list byte) : CFB8 :=
  mkCFB8 (copy_into (replicate (length iv) x00) iv) (replicate BlockSize x00) true.

(** [s.block.Encrypt(s.tmp, x)]: the new [tmp]. *)
Definition block_Encrypt (x : list byte) : outcome (list byte) :=
  if decide (length x < BlockSize) then Panic (PanicMsg "input not full block")
  else Ret (Encrypt (take BlockSize x)).

(** [for j := ...: dst[start+j] = src[start+j] ^ s.tmp[j]], [n] turns. *)
Fixpoint xor_span (t : list byte) (start j n : nat) (m : Mem) : Mem :=
  match n with
  | O => m
  | S n' => xor_span t start (S j) n' (wr m (start + j) (bxor (rd m (start + j)) (t !!! j)))
  end.

(** The loop over whole blocks of [bulkXOR], from block [i]. *)
Fixpoint bulk_blocks (n i : nat) (s : CFB8) (m : Mem) : outcome (CFB8 * Mem) :=
  match n with
  | O => mret (s, m)
  | S n' =>
      let start := i * BlockSize in
      t ← block_Encrypt (iv s);
      let m := xor_span t start 0 BlockSize m in
      let fb := if de s then src_slice m start BlockSize else dst_slice m start BlockSize in
      bulk_blocks n' (S i) (mkCFB8 (copy_into (iv s) fb) t (de s)) m
  end.

(** The loop over the remainder, storing into [iv] as it goes. *)
Fixpoint bulk_rest (start j n : nat) (s : CFB8) (m : Mem) : CFB8 * Mem :=
  match n with
  | O => (s, m)
  | S n' =>
      let m := wr m (start + j) (bxor (rd m (start + j)) (tmp s !!! j)) in
      let fb := if de s then rd m (start + j) else dst m !!! (start + j) in
      bulk_rest start (S j) n' (mkCFB8 (<[j := fb]> (iv s)) (tmp s) (de s)) m
  end.

Definition bulkXOR (n : nat) (s : CFB8) (m : Mem) : outcome (CFB8 * Mem) :=
  let blocks := n / BlockSize in
  let remainder := n mod BlockSize in
  '(s, m) ← bulk_blocks blocks 0 s m;
  if decide (0 < remainder) then
    t ← block_Encrypt (iv s);
    mret (bulk_rest (blocks * BlockSize) 0 remainder (mkCFB8 (iv s) t (de s)) m)
  else mret (s, m).

(** The loop of [byteByByteXOR] from index [i], [n] turns. *)
Fixpoint byte_loop (n i : nat) (overflow : list byte) (s : CFB8) (m : Mem)
    : outcome (list byte * CFB8 * Mem) :=
  match n with
  | O => mret (overflow, s, m)
  | S n' =>
      let k := i mod BlockSize in
      t ← (if decide (k = 0) then block_Encrypt (take BlockSize overflow) else mret (tmp s));
      let m := wr m i (bxor (rd m i) (t !!! k)) in
      let fb := if de s then rd m i else dst m !!! i in
      let overflow := <[k + BlockSize := fb]> overflow in
      let overflow := if decide (k = BlockSize - 1) then copy_into overflow (drop BlockSize overflow)
                      else overflow in
      byte_loop n' (S i) overflow (mkCFB8 (iv s) t (de s)) m
  end.

Definition byteByByteXOR (n : nat) (s : CFB8) (m : Mem) : outcome (CFB8 * Mem) :=
  let overflow := copy_into (replicate (BlockSize * 2) x00) (iv s) in
  '(overflow, s, m) ← byte_loop n 0 overflow s m;
  mret (mkCFB8 (copy_into (iv s) overflow) (tmp s) (de s), m).

(** [n] is [len(src)]. *)
Definition XORKeyStream (n : nat) (s : CFB8) (m : Mem) : outcome (CFB8 * Mem) :=
  if decide (n = 0) then mret (s, m)
  else if decide (length (dst m) < n) then Panic (PanicMsg "crypto/cfb8: dst smaller than src")
  else if decide (BlockSize * 2 ≤ n) then bulkXOR n s m
  else byteByByteXOR n s m.

(** [dst := make([]byte, len(src)); XORKeyStream(dst, src)] *)
Definition crypt (s : CFB8) (src : list byte) : outcome (CFB8 * list byte) :=
  '(s, m) ← XORKeyStream (length src) s (mkMem (replicate (length src) x00) (Some src));
  mret (s, dst m).

(** [XORKeyStream(buf, buf)] *)
Definition crypt_in_place (s : CFB8) (buf : list byte) : outcome (CFB8 * list byte) :=
  '(s, m) ← XORKeyStream (length buf) s (mkMem buf None);
  mret (s, dst m).

(** ** Reference: cipher feedback by whole blocks

    [fb] tells whether the input is fed back (decryption) or the output. *)

Fixpoint cfb_blocks (fb : bool) (n : nat) (v src : list byte) : list byte * list byte :=
  match n with
  | O => ([], v)
  | S n' =>
      let b := take BlockSize src in
      let o := xorl b (Encrypt v) in
      let '(os, v') := cfb_blocks fb n' (if fb then b else o) (drop BlockSize src) in
      (o ++ os, v')
  end.

(** The output, and the register afterwards: a rest of less than a block enters it
    only when the input was at least two blocks long. *)
Definition cfb (fb : bool) (v src : list byte) : list byte * list byte :=
  let n := length src / BlockSize in
  let '(os, v') := cfb_blocks fb n v src in
  let r := drop (n * BlockSize) src in
  let o := xorl r (Encrypt v') in
  (os ++ o,
   if decide (BlockSize * 2 ≤ length src) then (if fb then r else o) ++ drop (length r) v' else v').

(** Whether the source ends up feeding the input back. *)
Definition feeds_input (s : CFB8) (m : Mem) : bool := de s && bool_decide (is_Some (alias m)).

(** ** Lemmas: memory *)

(** [m] holds the outputs [o] for the inputs [past], the inputs [fut] are to come. *)
Definition view (m : Mem) (past o fut : list byte) (tl : list byte) : Prop :=
  length past = length o
  ∧ match alias m with
    | Some l => l = past ++ fut ∧ dst m = o ++ tl ∧ length fut ≤ length tl
    | None => dst m = o ++ fut ++ tl
    end.

Lemma insert_at_length (o : list byte) x l v : <[length o := v]> (o ++ x :: l) = o ++ v :: l.
Proof. by rewrite insert_app_r_alt, Nat.sub_diag by lia. Qed.

Lemma view_step m past o a fut tl v :
  view m past o (a :: fut) tl →
  rd m (length o) = a
  ∧ rd (wr m (length o) v) (length o) = (if bool_decide (is_Some (alias m)) then a else v)
  ∧ dst (wr m (length o) v) !!! length o = v
  ∧ ∃ tl', view (wr m (length o) v) (past ++ [a]) (o ++ [v]) fut tl'.
Proof.
  unfold view, rd, wr. intros [Hl Hm]. simpl. destruct (alias m) as [l|].
  - destruct Hm as (->&->&Hf). destruct tl as [|t tl]; simpl in *; [lia|].
    rewrite insert_at_length, !list_lookup_total_middle by done.
    split_and!; [done..|]. exists tl. rewrite !length_app, <- !app_assoc. simpl. split_and!; try done; lia.
  - rewrite Hm. simpl. rewrite insert_at_length, !list_lookup_total_middle by done.
    split_and!; [done..|]. exists tl. rewrite !length_app, <- !app_assoc. simpl. split_and!; try done; lia.
Qed.

Lemma alias_wr m i v : alias (wr m i v) = alias m.
Proof. done. Qed.

Lemma view_slices m past o fut tl p q k :
  view m (p ++ past) (q ++ o) fut tl → length p = length q → length past = k → k = length o →
  src_slice m (length q) k = (if bool_decide (is_Some (alias m)) then past else o) ∧ dst_slice m (length q) k = o.
Proof.
  unfold view, src_slice, dst_slice. intros [Hl Hm] Hpq Hk Ho. destruct (alias m) as [l|].
  - destruct Hm as (->&->&_). rewrite <- Hpq at 1. rewrite <- !app_assoc, !drop_app_length.
    split; [subst k; by rewrite take_app_length|by rewrite Ho, take_app_length].
  - rewrite Hm. rewrite <- !app_assoc, !drop_app_length. by rewrite Ho, take_app_length.
Qed.

Lemma length_xorl l k : length l ≤ length k → length (xorl l k) = length l.
Proof. unfold xorl. intros ?. rewrite length_zip_with. lia. Qed.

Lemma xorl_cons a b t j :
  j < length t → xorl (a :: b) (drop j t) = bxor a (t !!! j) :: xorl b (drop (S j) t).
Proof. intros Hj. by rewrite (drop_S t (t !!! j) j) by (by apply list_lookup_lookup_total_lt). Qed.

Lemma copy_into_same l k : length k = length l → copy_into l k = k.
Proof. intros Hk. unfold copy_into. by rewrite take_ge, drop_ge, app_nil_r by lia. Qed.

Context `{!BlockCipherOk H}.

Lemma block_Encrypt_ok x : length x = BlockSize → block_Encrypt x = Ret (Encrypt x).
Proof. intros Hx. unfold block_Encrypt. by rewrite decide_False, take_ge by lia. Qed.

(** One span of key stream. *)
Lemma xor_span_view t start b : ∀ j m past o fut tl,
  view m past o (b ++ fut) tl → length o = start + j → j + length b ≤ length t →
  alias (xor_span t start j (length b) m) = alias m
  ∧ ∃ tl', view (xor_span t start j (length b) m) (past ++ b) (o ++ xorl b (drop j t)) fut tl'.
Proof.
  induction b as [|a b IH]; intros j m past o fut tl Hv Ho Ht; simpl length in *; cbn [xor_span].
  { split; [done|]. exists tl. unfold xorl. simpl. by rewrite !app_nil_r. }
  rewrite <- Ho. destruct (view_step m past o a (b ++ fut) tl (bxor (rd m (length o)) (t !!! j)) Hv)
    as (Ha&_&_&tl1&Hv1). rewrite Ha in *.
  destruct (IH (S j) _ _ _ _ _ Hv1) as (Hal&tl'&Hv'); [rewrite length_app; simpl; lia|lia|].
  split; [by rewrite Hal|]. exists tl'. rewrite xorl_cons by lia. by rewrite <- !app_assoc in Hv'.
Qed.

(** The whole blocks of [bulkXOR]. *)
Lemma bulk_blocks_view n : ∀ i s m past o src fut tl,
  view m past o (src ++ fut) tl → length o = i * BlockSize → length src = n * BlockSize →
  length (iv s) = BlockSize →
  ∃ s' m' tl', bulk_blocks n i s m = Ret (s', m')
    ∧ view m' (past ++ src) (o ++ (cfb_blocks (feeds_input s m) n (iv s) src).1) fut tl'
    ∧ iv s' = (cfb_blocks (feeds_input s m) n (iv s) src).2
    ∧ length (iv s') = BlockSize ∧ de s' = de s ∧ alias m' = alias m.
Proof.
  induction n as [|n IH]; intros i s m past o src fut tl Hv Ho Hs Hi; cbn [bulk_blocks cfb_blocks].
  { destruct src; [|done]. exists s, m, tl. simpl. rewrite !app_nil_r. by split_and!. }
  rewrite block_Encrypt_ok by done. cbn [mbind outcome_bind]. rewrite <- Ho.
  set (b := take BlockSize src). set (t := Encrypt (iv s)).
  assert (Hb : length b = BlockSize) by (unfold b; rewrite length_take; lia).
  assert (Ht : length t = BlockSize) by apply Encrypt_length.
  rewrite <- (take_drop BlockSize src) in Hv. fold b in Hv. rewrite <- app_assoc in Hv.
  destruct (xor_span_view t (length o) b 0 m past o _ tl Hv) as (Hal&tl1&Hv1); [lia|lia|].
  rewrite Hb in *. set (m1 := xor_span _ _ _ _ _) in *. rewrite drop_0 in Hv1.
  assert (Hx : length (xorl b t) = BlockSize) by (rewrite length_xorl; lia).
  destruct (view_slices m1 b (xorl b t) _ tl1 past o BlockSize Hv1) as [-> ->]; [apply Hv|lia|lia|].
  set (fb := if de s then _ else _).
  assert (Hfb : fb = if feeds_input s m then b else xorl b t).
  { unfold fb, feeds_input. rewrite Hal. by destruct (de s), (bool_decide _). }
  assert (Hlfb : length fb = BlockSize) by (rewrite Hfb; by destruct (feeds_input s m)).
  rewrite copy_into_same by lia.
  destruct (IH (S i) (mkCFB8 fb t (de s)) m1 _ _ (drop BlockSize src) fut tl1 Hv1)
    as (s'&m'&tl'&Hr&Hv'&Hiv&Hli&Hde&Hal'); [rewrite length_app; lia|rewrite length_drop; lia|done|].
  assert (Hfi : feeds_input (mkCFB8 fb t (de s)) m1 = feeds_input s m)
    by (unfold feeds_input; simpl; by rewrite Hal).
  rewrite Hfi in *. simpl in Hv', Hiv. rewrite Hfb in *.
  destruct (cfb_blocks (feeds_input s m) n _ _) as [os v'] eqn:E. simpl in *.
  exists s', m', tl'. split_and!; [done| |done|done|done|congruence].
  rewrite <- !app_assoc in Hv'. unfold b in Hv' at 1. by rewrite take_drop in Hv'.
Qed.

(** What a step feeds back: the input byte, or the output byte. *)
Lemma fed_back s m i a v :
  rd m i = (if bool_decide (is_Some (alias m)) then a else v) → dst m !!! i = v →
  (if de s then rd m i else dst m !!! i) = (if feeds_input s m then a else v).
Proof. intros -> ->. unfold feeds_input. by destruct (de s), (bool_decide _). Qed.

Lemma insert_splice (l x : list byte) j v :
  j < length l →
  take (S j) (<[j := v]> l) ++ x = take j l ++ v :: x ∧ drop (S j) (<[j := v]> l) = drop (S j) l.
Proof.
  intros Hj. rewrite drop_insert_lt by lia. split; [|done].
  rewrite (take_S_r _ _ v) by (by apply list_lookup_insert_eq). rewrite take_insert_ge by lia.
  by rewrite <- app_assoc.
Qed.

(** Bytes [x] stored from position [j] on. *)
Definition splice (l : list byte) (j : nat) (x : list byte) : list byte :=
  take j l ++ x ++ drop (j + length x) l.

Lemma splice_cons l j v x :
  j < length l → splice (<[j := v]> l) (S j) x = splice l j (v :: x).
Proof.
  intros Hj. unfold splice. destruct (insert_splice l (x ++ drop (S j + length x) l) j v Hj) as [E1 E2].
  rewrite <- drop_drop, E2, drop_drop, E1. simpl. by replace (j + S (length x)) with (S j + length x) by lia.
Qed.

Lemma length_splice l j x : j + length x ≤ length l → length (splice l j x) = length l.
Proof. unfold splice. intros ?. rewrite !length_app, length_take, length_drop. lia. Qed.

(** The remainder loop of [bulkXOR]. *)
Lemma bulk_rest_view start b : ∀ j s m past o fut tl,
  view m past o (b ++ fut) tl → length o = start + j → j + length b ≤ length (tmp s) →
  j + length b ≤ length (iv s) →
  let x := xorl b (drop j (tmp s)) in
  let '(s', m') := bulk_rest start j (length b) s m in
  (∃ tl', view m' (past ++ b) (o ++ x) fut tl')
  ∧ iv s' = splice (iv s) j (if feeds_input s m then b else x).
Proof.
  induction b as [|a b IH]; intros j s m past o fut tl Hv Ho Ht Hi; cbn [length bulk_rest] in *.
  { unfold xorl, splice. simpl. split; [exists tl; by rewrite !app_nil_r|].
    by destruct (feeds_input s m); simpl; rewrite Nat.add_0_r, take_drop. }
  rewrite <- Ho. destruct (view_step m past o a (b ++ fut) tl (bxor (rd m (length o)) (tmp s !!! j)) Hv)
    as (Ha&Hrd&Hd&tl1&Hv1). rewrite Ha in *.
  set (v := bxor a (tmp s !!! j)) in *. set (m1 := wr m (length o) v) in *.
  rewrite (fed_back s m1 (length o) a v) by done.
  set (s1 := mkCFB8 (<[j := if feeds_input s m1 then a else v]> (iv s)) (tmp s) (de s)).
  specialize (IH (S j) s1 m1 _ _ _ _ Hv1). destruct (bulk_rest start (S j) (length b) s1 m1) as [s' m'].
  destruct IH as ((tl'&Hv')&Hiv); [rewrite length_app; simpl; lia|simpl; lia|simpl; rewrite length_insert; lia|].
  split.
  - exists tl'. rewrite xorl_cons by lia. by rewrite <- !app_assoc in Hv'.
  - rewrite Hiv. change (feeds_input s1 m1) with (feeds_input s m). simpl iv. simpl tmp.
    change (feeds_input s m1) with (feeds_input s m). rewrite splice_cons by lia.
    rewrite xorl_cons by lia. by destruct (feeds_input s m).
Qed.

(** The register half of [overflow] after [b] bytes of a block. *)
Definition turned (v w : list byte) (j n : nat) : list byte :=
  if decide (j + n = BlockSize) then w ++ w else v ++ w.

(** At most one block of [byteByByteXOR], from position [j] in the block. *)
Lemma byte_run b : ∀ j n q s m past o v w fut tl,
  view m past o (b ++ fut) tl → length o = q * BlockSize + j → j + length b ≤ BlockSize →
  length v = BlockSize → length w = BlockSize → (j = 0 ∨ tmp s = Encrypt v) → b ≠ [] →
  let x := xorl b (drop j (Encrypt v)) in
  let w' := splice w j (if feeds_input s m then b else x) in
  ∃ s' m' tl', byte_loop (length b + n) (length o) (v ++ w) s m
      = byte_loop n (length o + length b) (turned v w' j (length b)) s' m'
    ∧ view m' (past ++ b) (o ++ x) fut tl'
    ∧ iv s' = iv s ∧ de s' = de s ∧ alias m' = alias m.
Proof.
  induction b as [|a b IH]; intros j n q s m past o v w fut tl Hv Ho Hj Hlv Hlw Ht Hne; [done|].
  cbn [length] in *. pose proof (Encrypt_length v) as HE. cbn [Nat.add byte_loop]. cbv zeta.
  assert (Hk : length o mod BlockSize = j).
  { rewrite Ho, Nat.add_comm, Nat.Div0.mod_add. apply Nat.mod_small. lia. }
  rewrite Hk, take_app_length' by done.
  assert ((if decide (j = 0) then block_Encrypt v else mret (tmp s)) = Ret (Encrypt v)) as ->.
  { case_decide; [by apply block_Encrypt_ok|]. destruct Ht as [?| ->]; [lia|done]. }
  cbn [mbind outcome_bind].
  destruct (view_step m past o a (b ++ fut) tl (bxor (rd m (length o)) (Encrypt v !!! j)) Hv)
    as (Ha&Hrd&Hd&tl1&Hv1). rewrite Ha in *.
  set (x := bxor a (Encrypt v !!! j)) in *. set (m1 := wr m (length o) x) in *.
  rewrite (fed_back s m1 (length o) a x) by done. change (feeds_input s m1) with (feeds_input s m).
  set (f := if feeds_input s m then a else x).
  rewrite insert_app_r_alt by lia. replace (j + BlockSize - length v) with j by lia.
  destruct b as [|a' b].
  - set (s1 := mkCFB8 (iv s) (Encrypt v) (de s)). exists s1, m1, tl1. split_and!; try done.
    2:{ unfold xorl at 1. rewrite (drop_S _ (Encrypt v !!! j)) by (apply list_lookup_lookup_total_lt; lia). done. }
    cbn [length]. rewrite Nat.add_1_r. f_equal. unfold turned.
    assert (Hw : <[j:=f]> w = splice w j (if feeds_input s m then [a] else xorl [a] (drop j (Encrypt v)))).
    { rewrite xorl_cons by lia. transitivity (splice w j [f]).
      - rewrite <- splice_cons by lia. unfold splice. simpl. by rewrite Nat.add_0_r, take_drop.
      - unfold f. by destruct (feeds_input s m). }
    rewrite <- Hw. destruct (decide (j = BlockSize - 1)), (decide (j + 1 = BlockSize)); try lia; [|done].
    rewrite drop_app_length' by done. unfold copy_into.
    rewrite take_ge by (rewrite length_app, length_insert; lia).
    rewrite length_insert, drop_app_length' by lia. done.
  - rewrite decide_False by (simpl in Hj; lia). cbn [length] in *.
    set (s1 := mkCFB8 (iv s) (Encrypt v) (de s)).
    destruct (IH (S j) n q s1 m1 (past ++ [a]) (o ++ [x]) v (<[j:=f]> w) fut tl1) as (s'&m'&tl'&Hr&Hv'&?&?&?);
      [done|rewrite length_app; simpl; lia|lia|done|by rewrite length_insert|by right|done|].
    exists s', m', tl'. rewrite length_app in Hr. cbn [length] in Hr.
    rewrite Nat.add_1_r in Hr. rewrite Hr. split_and!; try done.
    + f_equal; [lia|]. change (feeds_input s1 m1) with (feeds_input s m).
      rewrite splice_cons by lia. rewrite (xorl_cons a) by lia. unfold turned.
      replace (S j + S (length b)) with (j + S (S (length b))) by lia.
      unfold f. by destruct (feeds_input s m).
    + rewrite (xorl_cons a) by lia. by rewrite <- !app_assoc in Hv'.
Qed.

Lemma cfb_blocks_take fb n : ∀ v src, n * BlockSize ≤ length src →
  cfb_blocks fb n v (take (n * BlockSize) src) = cfb_blocks fb n v src.
Proof.
  induction n as [|n IH]; intros v src Hs; [done|]. cbn [cfb_blocks].
  rewrite take_take, Nat.min_l by (simpl; lia).
  rewrite <- (IH _ (drop BlockSize src)) by (rewrite length_drop; simpl in Hs; lia).
  by rewrite take_drop_commute.
Qed.

Lemma cfb_blocks_length fb n : ∀ v src, n * BlockSize ≤ length src → length v = BlockSize →
  length (cfb_blocks fb n v src).1 = n * BlockSize ∧ length (cfb_blocks fb n v src).2 = BlockSize.
Proof.
  induction n as [|n IH]; intros v src Hs Hv; [done|]. cbn [cfb_blocks].
  assert (Hb : length (take BlockSize src) = BlockSize) by (rewrite length_take; simpl in Hs; lia).
  assert (Hx : length (xorl (take BlockSize src) (Encrypt v)) = BlockSize)
    by (rewrite length_xorl; rewrite ?Encrypt_length; lia).
  specialize (IH (if fb then take BlockSize src else xorl (take BlockSize src) (Encrypt v)) (drop BlockSize src)).
  destruct (cfb_blocks fb n _ _) as [os v'] eqn:E. simpl in *. rewrite length_app.
  destruct IH; [rewrite length_drop; lia|by destruct fb|]. lia.
Qed.

Definition starts (m : Mem) (src : list byte) : Prop := ∃ tl, view m [] [] src tl.
Definition ends (m : Mem) (src out : list byte) : Prop := ∃ tl, view m src out [] tl.

(** The path for at least two blocks. *)
Lemma bulkXOR_cfb s m src :
  starts m src → length (iv s) = BlockSize → BlockSize * 2 ≤ length src →
  ∃ s' m', bulkXOR (length src) s m = Ret (s', m')
    ∧ ends m' src (cfb (feeds_input s m) (iv s) src).1
    ∧ iv s' = (cfb (feeds_input s m) (iv s) src).2 ∧ de s' = de s.
Proof.
  intros (tl&Hv) Hi Hlen. pose proof BlockSize_pos as Hpos. unfold bulkXOR, cfb. cbv zeta.
  set (n := length src / BlockSize). set (fi := feeds_input s m).
  assert (Hn : length src = n * BlockSize + length src mod BlockSize).
  { unfold n. rewrite (Nat.mul_comm (_ / _)). apply Nat.div_mod_eq. }
  assert (Hfull : length (take (n * BlockSize) src) = n * BlockSize) by (rewrite length_take; lia).
  rewrite <- (take_drop (n * BlockSize) src) in Hv. set (r := drop (n * BlockSize) src) in *.
  assert (Hr : length r = length src mod BlockSize) by (unfold r; rewrite length_drop; lia).
  destruct (bulk_blocks_view n 0 s m [] [] _ r tl Hv) as (s1&m1&tl1&Hb&Hv1&Hiv1&Hl1&Hde1&Hal1); [done..|].
  rewrite Hb. cbn [mbind outcome_bind]. fold fi in Hv1, Hiv1. rewrite cfb_blocks_take in Hv1, Hiv1 by lia.
  destruct (cfb_blocks_length fi n (iv s) src) as [Hlo _]; [lia|done|].
  destruct (cfb_blocks fi n (iv s) src) as [os v'] eqn:E. simpl in Hv1, Hiv1, Hlo. cbn [fst snd].
  rewrite (decide_True (P := BlockSize * 2 ≤ length src)) by done.
  case_decide as Hrem.
  - rewrite block_Encrypt_ok by congruence. cbn [mbind outcome_bind]. rewrite <- Hr.
    rewrite <- (app_nil_r r) in Hv1.
    pose proof (bulk_rest_view (n * BlockSize) r 0 (mkCFB8 (iv s1) (Encrypt (iv s1)) (de s1)) m1 _ _ _ _ Hv1) as Hrest.
    destruct (bulk_rest _ _ _ _ _) as [s2 m2] eqn:E2. exists s2, m2.
    pose proof (Nat.mod_upper_bound (length src) BlockSize).
    destruct Hrest as ((tl2&Hv2)&Hiv2); simpl; rewrite ?Encrypt_length; [lia..|].
    assert (Hde2 : ∀ b j s m, de (bulk_rest (n * BlockSize) j b s m).1 = de s).
    { clear. induction b; intros; simpl; [done|]. by rewrite IHb. }
    split_and!; [done| | |].
    + exists tl2. simpl tmp in Hv2. rewrite drop_0, Hiv1 in Hv2. unfold r in Hv2 at 1. by rewrite take_drop in Hv2.
    + rewrite Hiv2. unfold splice. simpl iv. simpl tmp. rewrite drop_0, Hiv1.
      assert (length (xorl r (Encrypt v')) = length r) by (rewrite length_xorl; rewrite ?Encrypt_length; lia).
      change (feeds_input _ m1) with (de s1 && bool_decide (is_Some (alias m1))).
      rewrite Hde1, Hal1. fold (feeds_input s m). fold fi. simpl.
      destruct fi; [done|]. congruence.
    + specialize (Hde2 (length r) 0 (mkCFB8 (iv s1) (Encrypt (iv s1)) (de s1)) m1). by rewrite E2 in Hde2; simpl in Hde2; congruence.
  - assert (Hr0 : r = []) by (apply nil_length_inv; lia). rewrite Hr0 in *.
    exists s1, m1. split_and!; [done| | |done].
    + exists tl1. unfold xorl. simpl. rewrite app_nil_r. by rewrite take_ge in Hv1 by lia.
    + rewrite Hiv1. unfold xorl. simpl. by destruct fi; rewrite drop_0.
Qed.

Lemma overflow_init v : length v = BlockSize →
  copy_into (replicate (BlockSize * 2) x00) v = v ++ replicate BlockSize x00.
Proof.
  intros Hv. unfold copy_into. rewrite length_replicate, take_ge by lia. f_equal.
  rewrite drop_replicate. f_equal. lia.
Qed.

Lemma splice_all w x : length x = length w → splice w 0 x = x.
Proof. intros Hx. unfold splice. simpl. by rewrite drop_ge, app_nil_r by lia. Qed.

(** The path for less than two blocks. *)
Lemma copy_into_full (v0 v w : list byte) : length v0 = BlockSize → length v = BlockSize → copy_into v0 (v ++ w) = v.
Proof.
  intros H0 Hv. unfold copy_into. rewrite take_app_length' by lia.
  by rewrite drop_ge, app_nil_r by (rewrite length_app; lia).
Qed.

(** Less than a block. *)
Lemma byteByByteXOR_short s m src :
  starts m src → length (iv s) = BlockSize → src ≠ [] → length src < BlockSize →
  ∃ s' m', byteByByteXOR (length src) s m = Ret (s', m')
    ∧ ends m' src (cfb (feeds_input s m) (iv s) src).1
    ∧ iv s' = (cfb (feeds_input s m) (iv s) src).2 ∧ de s' = de s.
Proof.
  intros (tl&Hv) Hi Hne Hlen. pose proof BlockSize_pos as Hpos. unfold byteByByteXOR, cfb. cbv zeta.
  rewrite overflow_init by done. set (w := replicate BlockSize x00).
  assert (Hw : length w = BlockSize) by apply length_replicate.
  rewrite Nat.div_small by done. cbn [cfb_blocks fst snd]. rewrite Nat.mul_0_l, drop_0. cbn [app].
  rewrite (decide_False (P := BlockSize * 2 ≤ length src)) by lia. rewrite <- (app_nil_r src) in Hv.
  destruct (byte_run src 0 0 0 s m [] [] (iv s) w [] tl Hv) as (s'&m'&tl'&Hr&Hv'&Hiv'&Hde'&Hal');
    [done|lia|done|done|by left|done|].
  rewrite Nat.add_0_r in Hr. simpl length in Hr. rewrite Hr. cbn [byte_loop mbind outcome_bind].
  eexists _, m'. split; [done|]. rewrite drop_0 in Hv'. split_and!; [by exists tl'| |done].
  simpl. rewrite Hiv'. unfold turned. rewrite decide_False by (simpl; lia). by apply copy_into_full.
Qed.

(** One block and less than another one. *)
Lemma byteByByteXOR_long s m src :
  starts m src → length (iv s) = BlockSize → BlockSize ≤ length src < BlockSize * 2 →
  ∃ s' m', byteByByteXOR (length src) s m = Ret (s', m')
    ∧ ends m' src (cfb (feeds_input s m) (iv s) src).1
    ∧ iv s' = (cfb (feeds_input s m) (iv s) src).2 ∧ de s' = de s.
Proof.
  intros (tl&Hv) Hi Hlen. pose proof BlockSize_pos as Hpos. unfold byteByByteXOR, cfb. cbv zeta.
  rewrite overflow_init by done. set (w := replicate BlockSize x00).
  assert (Hw : length w = BlockSize) by apply length_replicate.
  rewrite <- (Nat.div_unique (length src) BlockSize 1 (length src - BlockSize)) by lia.
  rewrite Nat.mul_1_l. cbn [cfb_blocks fst snd]. rewrite app_nil_r.
  rewrite (decide_False (P := BlockSize * 2 ≤ length src)) by lia.
  set (b := take BlockSize src). set (r := drop BlockSize src). set (fi := feeds_input s m).
  assert (Hb : length b = BlockSize) by (unfold b; rewrite length_take; lia).
  assert (Hrl : length r < BlockSize) by (unfold r; rewrite length_drop; lia).
  set (x := xorl b (Encrypt (iv s))).
  assert (Hx : length x = BlockSize) by (unfold x; rewrite length_xorl; rewrite ?Encrypt_length; lia).
  assert (Hsrc : src = b ++ r) by (unfold b, r; by rewrite take_drop). rewrite Hsrc in Hv.
  assert (Hbne : b ≠ []) by (intros E; rewrite E in Hb; simpl in Hb; lia).
  destruct (byte_run b 0 (length r) 0 s m [] [] (iv s) w r tl Hv) as (s1&m1&tl1&Hr1&Hv1&Hiv1&Hde1&Hal1);
    [done|lia|done|done|by left|done|].
  rewrite drop_0 in Hr1, Hv1. fold x fi in Hr1, Hv1. set (fb := if fi then b else x) in *.
  assert (Hfb : length fb = BlockSize) by (unfold fb; by destruct fi).
  rewrite splice_all in Hr1 by congruence. unfold turned in Hr1. rewrite decide_True in Hr1 by lia.
  assert (Hls : length src = length b + length r) by (unfold b, r; rewrite length_take, length_drop; lia).
  rewrite Hls. simpl length in Hr1. rewrite Hr1. simpl in Hv1. destruct (decide (r = [])) as [Hr0|Hr0].
  - rewrite Hr0 in *. cbn [length byte_loop mbind outcome_bind]. eexists _, m1. split; [done|].
    change (xorl [] (Encrypt fb)) with ([] : list byte). rewrite !app_nil_r in *.
    split_and!; [exists tl1; by rewrite Hsrc|simpl; by rewrite Hiv1, copy_into_full|done].
  - rewrite <- (app_nil_r r) in Hv1.
    destruct (byte_run r 0 0 1 s1 m1 b x fb fb [] tl1 Hv1) as (s2&m2&tl2&Hr2&Hv2&Hiv2&Hde2&Hal2);
      [lia|lia|done|done|by left|done|].
    rewrite Nat.add_0_r in Hr2. rewrite Hb, <- Hx, Nat.add_0_l, Hr2. cbn [byte_loop mbind outcome_bind].
    eexists _, m2. split; [done|]. rewrite drop_0 in Hv2. split_and!; [exists tl2; by rewrite Hsrc| |simpl; congruence].
    simpl. rewrite Hiv2, Hiv1. unfold turned. rewrite decide_False by lia. by apply copy_into_full.
Qed.

Lemma byteByByteXOR_cfb s m src :
  starts m src → length (iv s) = BlockSize → src ≠ [] → length src < BlockSize * 2 →
  ∃ s' m', byteByByteXOR (length src) s m = Ret (s', m')
    ∧ ends m' src (cfb (feeds_input s m) (iv s) src).1
    ∧ iv s' = (cfb (feeds_input s m) (iv s) src).2 ∧ de s' = de s.
Proof.
  intros. destruct (decide (length src < BlockSize)); [by apply byteByByteXOR_short|apply byteByByteXOR_long; [done|done|lia]].
Qed.

Lemma XORKeyStream_cfb s m src :
  starts m src → length (iv s) = BlockSize →
  ∃ s' m', XORKeyStream (length src) s m = Ret (s', m')
    ∧ ends m' src (cfb (feeds_input s m) (iv s) src).1
    ∧ iv s' = (cfb (feeds_input s m) (iv s) src).2 ∧ de s' = de s.
Proof.
  intros Hs Hi. unfold XORKeyStream. pose proof BlockSize_pos.
  destruct src as [|a src'] eqn:E.
  { exists s, m. simpl. unfold cfb. simpl. rewrite Nat.Div0.div_0_l. simpl.
    rewrite decide_False by lia. by split_and!. }
  rewrite <- E in *. rewrite decide_False by (subst; simpl; lia).
  rewrite decide_False.
  - case_decide; [by apply bulkXOR_cfb|]. apply byteByByteXOR_cfb; [done|done|by subst|lia].
  - destruct Hs as (tl&_&Hm). destruct (alias m) as [l|].
    + destruct Hm as (_&->&?). simpl. lia.
    + rewrite Hm, !length_app. lia.
Qed.

(** No loop changes the length of [dst], or what it shares. *)
Definition same_shape (m m' : Mem) : Prop := alias m' = alias m ∧ length (dst m') = length (dst m).

Lemma wr_shape m m' i v : same_shape m m' → same_shape m (wr m' i v).
Proof. intros [? ?]. split; [done|]. simpl. by rewrite length_insert. Qed.

Lemma xor_span_shape t start n : ∀ j m m', same_shape m m' → same_shape m (xor_span t start j n m').
Proof. induction n as [|n IH]; intros j m m' Hm; [done|]. by apply IH, wr_shape. Qed.

Lemma bulk_blocks_shape n : ∀ i s m m' s1 m1, same_shape m m' →
  bulk_blocks n i s m' = Ret (s1, m1) → same_shape m m1.
Proof.
  induction n as [|n IH]; intros i s m m' s1 m1 Hm; cbn [bulk_blocks]; [by intros [= _ <-]|].
  destruct (block_Encrypt (iv s)) as [t| | |]; [|done..]. cbn [mbind outcome_bind].
  apply IH. by apply xor_span_shape.
Qed.

Lemma bulk_rest_shape start n : ∀ j s m m', same_shape m m' → same_shape m (bulk_rest start j n s m').2.
Proof. induction n as [|n IH]; intros j s m m' Hm; [done|]. cbn [bulk_rest]. by apply IH, wr_shape. Qed.

Lemma byte_loop_shape n : ∀ i ov s m m' ov1 s1 m1, same_shape m m' →
  byte_loop n i ov s m' = Ret (ov1, s1, m1) → same_shape m m1.
Proof.
  induction n as [|n IH]; intros i ov s m m' ov1 s1 m1 Hm; cbn [byte_loop]; [by intros [= _ _ <-]|].
  destruct (if decide _ then _ else _) as [t| | |]; [|done..]. cbn [mbind outcome_bind].
  apply IH. by apply wr_shape.
Qed.

Lemma XORKeyStream_shape n s m s1 m1 : XORKeyStream n s m = Ret (s1, m1) → same_shape m m1.
Proof.
  assert (Hm : same_shape m m) by done.
  unfold XORKeyStream. case_decide; [by intros [= _ <-]|]. case_decide; [done|]. case_decide.
  - unfold bulkXOR. destruct (bulk_blocks _ 0 s m) as [[s2 m2]| | |] eqn:E; [|done..].
    apply (bulk_blocks_shape _ _ _ m) in E; [|done]. cbn [mbind outcome_bind].
    case_decide; [|by intros [= _ <-]]. destruct (block_Encrypt (iv s2)) as [t| | |]; [|done..].
    cbn [mbind outcome_bind]. destruct (bulk_rest _ 0 _ _ m2) as [s3 m3] eqn:E3.
    intros [= _ <-]. change m3 with (s3, m3).2. rewrite <- E3. by apply bulk_rest_shape.
  - unfold byteByByteXOR. destruct (byte_loop n 0 _ s m) as [[[ov s2] m2]| | |] eqn:E; [|done..].
    apply (byte_loop_shape _ _ _ _ m) in E; [|done]. by intros [= _ <-].
Qed.

Lemma cfb_length fb v src : length v = BlockSize →
  length (cfb fb v src).1 = length src ∧ length (cfb fb v src).2 = BlockSize.
Proof.
  intros Hv. pose proof BlockSize_pos. unfold cfb. set (n := length src / BlockSize).
  pose proof (Nat.div_mod_eq (length src) BlockSize) as Hn. fold n in Hn.
  pose proof (Nat.mod_upper_bound (length src) BlockSize).
  destruct (cfb_blocks_length fb n v src) as [Ho Hv']; [lia|done|].
  destruct (cfb_blocks fb n v src) as [os v']. simpl in *. rewrite length_app.
  assert (Hr : length (drop (n * BlockSize) src) = length src - n * BlockSize) by apply length_drop.
  assert (Hx : length (xorl (drop (n * BlockSize) src) (Encrypt v')) = length (drop (n * BlockSize) src)).
  { rewrite length_xorl; rewrite ?Encrypt_length; lia. }
  split; [lia|]. case_decide; [|done]. rewrite length_app, length_drop. destruct fb; lia.
Qed.

Lemma crypt_cfb s src :
  length (iv s) = BlockSize →
  ∃ s', crypt s src = Ret (s', (cfb (de s) (iv s) src).1)
    ∧ iv s' = (cfb (de s) (iv s) src).2 ∧ de s' = de s.
Proof.
  intros Hi. unfold crypt. set (m := mkMem _ (Some src)).
  destruct (XORKeyStream_cfb s m src) as (s'&m'&Hx&(tl&Hl&He)&Hiv&Hde); [|done|].
  { exists (replicate (length src) x00). split; [done|]. by rewrite length_replicate. }
  destruct (XORKeyStream_shape _ _ _ _ _ Hx) as [Hal Hlen]. rewrite Hx, Hal in *.
  assert (Hf : feeds_input s m = de s) by (unfold feeds_input; simpl; by rewrite andb_true_r).
  rewrite Hf in *. destruct He as (_&He&_). exists s'. split; [|done]. cbn [mbind outcome_bind].
  unfold mret, outcome_ret. do 2 f_equal. rewrite He. destruct (cfb_length (de s) (iv s) src Hi) as [Hc _].
  simpl in Hlen. rewrite He, length_app, length_replicate in Hlen.
  destruct tl; [by rewrite app_nil_r|simpl in Hlen; lia].
Qed.

Lemma crypt_in_place_cfb s buf :
  length (iv s) = BlockSize →
  ∃ s', crypt_in_place s buf = Ret (s', (cfb false (iv s) buf).1)
    ∧ iv s' = (cfb false (iv s) buf).2 ∧ de s' = de s.
Proof.
  intros Hi. unfold crypt_in_place. set (m := mkMem _ None).
  destruct (XORKeyStream_cfb s m buf) as (s'&m'&Hx&(tl&Hl&He)&Hiv&Hde); [|done|].
  { exists []. split; [done|]. simpl. by rewrite app_nil_r. }
  destruct (XORKeyStream_shape _ _ _ _ _ Hx) as [Hal Hlen]. rewrite Hx, Hal in *.
  assert (Hf : feeds_input s m = false) by (unfold feeds_input; simpl; by rewrite andb_false_r).
  rewrite Hf in *. exists s'. split; [|done]. cbn [mbind outcome_bind].
  unfold mret, outcome_ret. do 2 f_equal. simpl in He, Hlen. rewrite He in *.
  destruct (cfb_length false (iv s) buf Hi) as [Hc _]. rewrite length_app in Hlen.
  destruct tl; [by rewrite app_nil_r|simpl in Hlen; lia].
Qed.

Lemma xorl_cancel l k : length l ≤ length k → xorl (xorl l k) k = l.
Proof.
  unfold xorl. revert k. induction l as [|a l IH]; intros [|b k] Hl; simpl in *; try done; [lia|].
  rewrite bxor_cancel, IH by lia. done.
Qed.

Lemma cfb_blocks_inverse n : ∀ v src rest, length src = n * BlockSize →
  cfb_blocks true n v ((cfb_blocks false n v src).1 ++ rest) = (src, (cfb_blocks false n v src).2).
Proof.
  induction n as [|n IH]; intros v src rest Hs; [by destruct src|]. cbn [cfb_blocks].
  set (o := xorl (take BlockSize src) (Encrypt v)).
  assert (Hb : length (take BlockSize src) = BlockSize) by (rewrite length_take; simpl in Hs; lia).
  assert (Ho : length o = BlockSize) by (unfold o; rewrite length_xorl; rewrite ?Encrypt_length; lia).
  specialize (IH o (drop BlockSize src) rest). destruct (cfb_blocks false n o _) as [os v'] eqn:E.
  simpl in *. rewrite <- app_assoc, take_app_length', drop_app_length' by done.
  rewrite IH by (rewrite length_drop; lia). f_equal.
  unfold o. rewrite xorl_cancel by (rewrite Encrypt_length; lia). apply take_drop.
Qed.

(** Decryption undoes encryption and leaves the same register. *)
Lemma cfb_inverse v src : length v = BlockSize →
  cfb true v (cfb false v src).1 = (src, (cfb false v src).2).
Proof.
  intros Hv. pose proof BlockSize_pos. destruct (cfb_length false v src Hv) as [Hl _].
  unfold cfb at 1. rewrite Hl. unfold cfb in *. set (n := length src / BlockSize) in *.
  pose proof (Nat.div_mod_eq (length src) BlockSize) as Hn. fold n in Hn.
  pose proof (Nat.mod_upper_bound (length src) BlockSize).
  destruct (cfb_blocks_length false n v src) as [Ho Hv']; [lia|done|].
  pose proof (cfb_blocks_inverse n v (take (n * BlockSize) src)) as Hinv.
  rewrite cfb_blocks_take in Hinv by lia.
  destruct (cfb_blocks false n v src) as [os v'] eqn:E. cbn [fst snd] in *.
  set (r := drop (n * BlockSize) src). set (o := xorl r (Encrypt v')).
  rewrite Hinv by (rewrite length_take; lia). rewrite drop_app_length' by done.
  assert (Hr : length r ≤ length (Encrypt v')) by (unfold r; rewrite Encrypt_length, length_drop; lia).
  assert (Hro : length o = length r) by (by apply length_xorl).
  unfold o at 1. rewrite xorl_cancel by done. unfold r at 1. rewrite take_drop. f_equal.
  by rewrite Hro.
Qed.
End cfb8.

(** ** Streams of messages *)

(** Each message through [crypt], the register carried along. *)
Fixpoint crypt_all `{BlockCipher} (s : CFB8) (msgs : list (list byte)) : outcome (CFB8 * list (list byte)) :=
  match msgs with
  | [] => mret (s, [])
  | msg :: msgs' =>
      '(s, out) ← crypt s msg;
      '(s, outs) ← crypt_all s msgs';
      mret (s, out :: outs)
  end.

Lemma crypt_all_roundtrip `{B : BlockCipher} `{!BlockCipherOk B} msgs : ∀ se sd,
  de se = false → de sd = true → iv se = iv sd → length (iv se) = BlockSize →
  ∃ cs se' sd', crypt_all se msgs = Ret (se', cs) ∧ crypt_all sd cs = Ret (sd', msgs)
    ∧ iv se' = iv sd' ∧ (length <$> cs) = (length <$> msgs).
Proof.
  induction msgs as [|msg msgs IH]; intros se sd He Hd Hi Hl; [by exists [], se, sd|].
  destruct (crypt_cfb se msg Hl) as (se1&Hc1&Hi1&Hde1). rewrite He in *.
  destruct (cfb_length false (iv se) msg Hl) as [Hlo Hlv].
  destruct (crypt_cfb sd (cfb false (iv se) msg).1) as (sd1&Hc2&Hi2&Hde2); [congruence|].
  rewrite Hd, <- Hi, cfb_inverse in Hc2, Hi2 by done. simpl in Hi2.
  destruct (IH se1 sd1) as (cs&se'&sd'&H1&H2&H3&H4); [congruence|congruence|congruence|congruence|].
  eexists (_ :: cs), se', sd'. cbn [crypt_all]. rewrite Hc1. cbn [mbind outcome_bind]. rewrite H1.
  split; [done|]. cbn [crypt_all]. rewrite Hc2. cbn [mbind outcome_bind]. rewrite H2.
  split_and!; [done|done|]. rewrite !fmap_cons, Hlo. by f_equal.
Qed.

Lemma bxor_common a b k : bxor (bxor a k) (bxor b k) = bxor a b.
Proof.
  rewrite (bxor_comm b k), <- bxor_assoc, bxor_cancel. done.
Qed.

Lemma xorl_common p q k :
  length p = length q → length p ≤ length k → xorl (xorl p k) (xorl q k) = xorl p q.
Proof.
  unfold xorl. revert q k. induction p as [|a p IH]; intros [|b q] [|c k] Hq Hk; simpl in *; try done; try lia.
  by rewrite bxor_common, IH by lia.
Qed.

(** The 8-bit cipher feedback mode of the standard: one block per byte, the
    register shifted by the output byte. *)
Fixpoint cfb8_standard `{BlockCipher} (v src : list byte) : list byte :=
  match src with
  | [] => []
  | a :: src' => let c := bxor a (Encrypt v !!! 0) in c :: cfb8_standard (drop 1 v ++ [c]) src'
  end.

(** A toy cipher of block size 4, for examples. *)
Definition toy_cipher : BlockCipher := {|
  BlockSize := 4;
  Encrypt x := [to_byte (ubyte (x !!! 3%nat) * 7 + 1); to_byte (ubyte (x !!! 0%nat) * 5 + 2);
                to_byte (ubyte (x !!! 1%nat) * 3 + 3); to_byte (ubyte (x !!! 2%nat) + 4)]%Z |}.

Lemma toy_cipher_ok : BlockCipherOk toy_cipher.
Proof. split; [simpl; lia|done]. Qed.

(** ** The properties of the component *)

(** C13. Both paths of [XORKeyStream], the bulk one from two blocks on and the
    byte-wise one below, compute block-wise cipher feedback, and neither panics:
    into a separate destination the input is fed back when decrypting and the output
    when encrypting; in place, where the source has been overwritten by the time it
    is read back, decryption feeds the output back and so computes the encryption
    function. *)
Theorem xorkeystream_reference `{B : BlockCipher} `{!BlockCipherOk B} s src :
  length (iv s) = BlockSize →
  (∃ s', crypt s src = Ret (s', (cfb (de s) (iv s) src).1)
     ∧ iv s' = (cfb (de s) (iv s) src).2 ∧ de s' = de s)
  ∧ (∃ s', crypt_in_place s src = Ret (s', (cfb false (iv s) src).1)
     ∧ iv s' = (cfb false (iv s) src).2 ∧ de s' = de s).
Proof. intros Hi. split; [by apply crypt_cfb|by apply crypt_in_place_cfb]. Qed.

(** Decrypting a nine-byte ciphertext in place does not give the plaintext back. *)
Lemma xorkeystream_reference_witness :
  let B := toy_cipher in
  let key := [x01; x02; x03; x04] in
  let plain := [x10; x20; x30; x40; x50; x60; x70; x80; x90] in
  let c := (cfb false key plain).1 in
  (∃ s', crypt_in_place (NewCFB8Decrypt key) c = Ret (s', (cfb false key c).1))
  ∧ (cfb true key c).1 = plain ∧ (cfb false key c).1 ≠ plain.
Proof.
  intros B key plain c. split; [|split; [by vm_compute|by vm_compute]].
  destruct (xorkeystream_reference (BlockCipherOk0 := toy_cipher_ok) (NewCFB8Decrypt key) c eq_refl)
    as [_ (s'&Hc&_)].
  exists s'. exact Hc.
Defined.

(** C14. Round trip over a connection: any sequence of messages, of any lengths,
    encrypted one by one by [NewCFB8Encrypt(block, iv)] and decrypted one by one
    into fresh buffers by [NewCFB8Decrypt(block, iv)], comes out unchanged, and the
    two ends stay synchronised after every message. *)
Theorem cipher_stream_roundtrip `{B : BlockCipher} `{!BlockCipherOk B} key msgs :
  length key = BlockSize →
  ∃ cs se sd, crypt_all (NewCFB8Encrypt key) msgs = Ret (se, cs)
    ∧ crypt_all (NewCFB8Decrypt key) cs = Ret (sd, msgs)
    ∧ iv se = iv sd ∧ (length <$> cs) = (length <$> msgs).
Proof.
  intros Hk. apply crypt_all_roundtrip; try done.
  simpl. by rewrite copy_into_same by (by rewrite length_replicate).
Qed.

Lemma cipher_stream_roundtrip_witness :
  let B := toy_cipher in
  ∃ cs se sd, crypt_all (NewCFB8Encrypt [x01; x02; x03; x04]) [[x41]; replicate 11 x42; []; replicate 5 x43]
      = Ret (se, cs)
    ∧ crypt_all (NewCFB8Decrypt [x01; x02; x03; x04]) cs = Ret (sd, [[x41]; replicate 11 x42; []; replicate 5 x43]).
Proof.
  intros B. destruct (cipher_stream_roundtrip (BlockCipherOk0 := toy_cipher_ok) [x01; x02; x03; x04]
    [[x41]; replicate 11 x42; []; replicate 5 x43] eq_refl) as (cs&se&sd&H1&H2&_).
  exists cs, se, sd. split; [exact H1|exact H2].
Defined.

(** Messages shorter than a block do not advance the cipher: each is XORed with
    the same key stream and the register stays, so two such messages in a row have
    ciphertexts whose difference is the difference of the plaintexts. *)
Theorem short_messages_reuse_keystream `{B : BlockCipher} `{!BlockCipherOk B} s p q :
  length (iv s) = BlockSize → length p = length q → length p < BlockSize →
  ∃ s' cp cq, crypt_all s [p; q] = Ret (s', [cp; cq])
    ∧ iv s' = iv s ∧ cp = xorl p (Encrypt (iv s)) ∧ cq = xorl q (Encrypt (iv s))
    ∧ xorl cp cq = xorl p q.
Proof.
  intros Hi Hpq Hp. pose proof BlockSize_pos.
  assert (Hc : ∀ fb l, length l < BlockSize → cfb fb (iv s) l = (xorl l (Encrypt (iv s)), iv s)).
  { intros fb l Hl. unfold cfb. rewrite Nat.div_small by done. simpl.
    by rewrite drop_0, decide_False by lia. }
  destruct (crypt_cfb s p Hi) as (s1&H1&Hi1&Hd1). rewrite Hc in H1, Hi1 by done. simpl in H1, Hi1.
  destruct (crypt_cfb s1 q) as (s2&H2&Hi2&_); [congruence|].
  rewrite Hi1, Hc in H2, Hi2 by lia. simpl in H2, Hi2.
  eexists s2, _, _. split_and!; [|done|done|done|].
  - cbn [crypt_all]. rewrite H1. cbn [mbind outcome_bind]. by rewrite H2.
  - apply xorl_common; rewrite ?Encrypt_length; lia.
Qed.

Lemma short_messages_reuse_keystream_witness :
  let B := toy_cipher in
  ∃ s' cp cq, crypt_all (NewCFB8Encrypt [x01; x02; x03; x04]) [[x41; x42]; [x43; x44]] = Ret (s', [cp; cq])
    ∧ xorl cp cq = xorl [x41; x42] [x43; x44].
Proof.
  intros B. destruct (short_messages_reuse_keystream (BlockCipherOk0 := toy_cipher_ok)
    (NewCFB8Encrypt [x01; x02; x03; x04]) [x41; x42] [x43; x44]) as (s'&cp&cq&H1&_&_&_&H2);
    [done|done|simpl; lia|].
  exists s', cp, cq. split; [exact H1|exact H2].
Defined.

(** The mode is not the 8-bit cipher feedback of the standard: the first byte of
    a message agrees with it, and the second one does only if the second key stream
    byte happens to equal the first one of the shifted register. *)
Theorem differs_from_cfb8 `{B : BlockCipher} `{!BlockCipherOk B} key a b :
  length key = BlockSize → 2 < BlockSize →
  ∃ s' c0 c1, crypt (NewCFB8Encrypt key) [a; b] = Ret (s', [c0; c1])
    ∧ take 1 (cfb8_standard key [a; b]) = [c0]
    ∧ (cfb8_standard key [a; b] = [c0; c1] ↔ Encrypt key !!! 1 = Encrypt (drop 1 key ++ [c0]) !!! 0).
Proof.
  intros Hk HB. assert (Hiv : iv (NewCFB8Encrypt key) = key).
  { simpl. by rewrite copy_into_same by (by rewrite length_replicate). }
  destruct (crypt_cfb (NewCFB8Encrypt key) [a; b]) as (s'&Hc&_); [congruence|]. rewrite Hiv in Hc.
  pose proof (Encrypt_length key) as HE. unfold cfb in Hc. rewrite Nat.div_small in Hc by (simpl; lia).
  simpl in Hc. destruct (Encrypt key) as [|k0 [|k1 ks]] eqn:E; [simpl in HE; lia..|].
  simpl in Hc. exists s', (bxor a k0), (bxor b k1). split_and!; [done|..].
  - simpl. by rewrite E.
  - cbn [cfb8_standard]. rewrite E. simpl. split.
    + intros [= Hb]. symmetry. by apply bxor_inj in Hb.
    + by intros <-.
Qed.

Lemma differs_from_cfb8_witness :
  let B := toy_cipher in
  ∃ s' c, crypt (NewCFB8Encrypt [x01; x02; x03; x04]) [x41; x42] = Ret (s', c)
    ∧ c ≠ cfb8_standard [x01; x02; x03; x04] [x41; x42].
Proof.
  intros B. destruct (differs_from_cfb8 (BlockCipherOk0 := toy_cipher_ok) [x01; x02; x03; x04] x41 x42)
    as (s'&c0&c1&H1&H2&H3); [done|simpl; lia|].
  exists s', [c0; c1]. split; [exact H1|]. intros E. symmetry in E. apply H3 in E.
  vm_compute in H2. injection H2 as <-. by vm_compute in E.
Defined.
