(* ===== verification/Hash.v ===== *)
(** * SHA-1, SHA-256 and HMAC ([crypto/sha1], [crypto/sha256], [crypto/hmac])

    The hash functions of the Go standard library the program calls, as
    executable functions on byte lists: the round functions of FIPS 180-4 and
    the construction of RFC 2104. *)

From S2P Require Export GoStrings.
#[local] Open Scope Z_scope.

Definition add32 (a b : Z) : Z := u32 (a + b).
Definition rotl (n x : Z) : Z := Z.lor (u32 (Z.shiftl x n)) (Z.shiftr x (32 - n)).
Definition rotr (n x : Z) : Z := rotl (32 - n) x.
Definition not32 (x : Z) : Z := 4294967295 - x.

(** Padding: a 1 bit, zeros up to 56 modulo 64, the bit length in eight bytes. *)
Definition pad (m : list byte) : list byte :=
  m ++ x80 :: replicate (Z.to_nat ((55 - Z.of_nat (length m)) mod 64)) x00
    ++ be_put 8 (8 * Z.of_nat (length m)).

(** The big-endian words of a block, [n] of them. *)
Fixpoint words (n : nat) (l : list byte) : list Z :=
  match n with
  | O => []
  | S n' => be_get (take 4 l) :: words n' (drop 4 l)
  end.

(** The blocks of a padded message, at most [n] of them. *)
Fixpoint blocks (n : nat) (l : list byte) : list (list byte) :=
  match n, l with
  | O, _ | _, [] => []
  | S n', _ => take 64 l :: blocks n' (drop 64 l)
  end.

Definition msg_blocks (m : list byte) : list (list byte) :=
  let p := pad m in blocks (S (length p / 64)) p.

(** The message schedule, newest word first; [n] further words. *)
Fixpoint extend (f : list Z → Z) (n : nat) (w : list Z) : list Z :=
  match n with
  | O => w
  | S n' => extend f n' (f w :: w)
  end.

Definition schedule (f : list Z → Z) (n : nat) (block : list byte) : list Z :=
  rev (extend f n (rev (words 16 block))).

Module SHA1.
Record st := mk { a : Z; b : Z; c : Z; d : Z; e : Z }.

Definition init : st := mk 0x67452301 0xefcdab89 0x98badcfe 0x10325476 0xc3d2e1f0.

Definition step (s : st) (t : nat) (w : Z) : st :=
  let '(f, k) :=
    if (t <? 20)%nat then (Z.lor (Z.land (b s) (c s)) (Z.land (not32 (b s)) (d s)), 0x5a827999)
    else if (t <? 40)%nat then (Z.lxor (Z.lxor (b s) (c s)) (d s), 0x6ed9eba1)
    else if (t <? 60)%nat then
      (Z.lor (Z.lor (Z.land (b s) (c s)) (Z.land (b s) (d s))) (Z.land (c s) (d s)), 0x8f1bbcdc)
    else (Z.lxor (Z.lxor (b s) (c s)) (d s), 0xca62c1d6) in
  mk (u32 (rotl 5 (a s) + f + e s + k + w)) (a s) (rotl 30 (b s)) (c s) (d s).

Fixpoint rounds (t : nat) (ws : list Z) (s : st) : st :=
  match ws with
  | [] => s
  | w :: ws' => rounds (S t) ws' (step s t w)
  end.

Definition next (w : list Z) : Z :=
  rotl 1 (Z.lxor (Z.lxor (w !!! 2%nat) (w !!! 7%nat)) (Z.lxor (w !!! 13%nat) (w !!! 15%nat))).

Definition block (s : st) (blk : list byte) : st :=
  let r := rounds 0 (schedule next 64 blk) s in
  mk (add32 (a s) (a r)) (add32 (b s) (b r)) (add32 (c s) (c r)) (add32 (d s) (d r)) (add32 (e s) (e r)).

Definition sum (m : list byte) : list byte :=
  let s := fold_left block (msg_blocks m) init in
  concat (be_put 4 <$> [a s; b s; c s; d s; e s]).
End SHA1.

Module SHA256.
(** The primes below 312, by trial division. *)
Definition is_prime (p : Z) : bool :=
  forallb (λ d, negb (p mod d =? 0)) (Z.of_nat <$> seq 2 (Z.to_nat (Z.sqrt p) - 1)).
Definition primes : list Z := List.filter is_prime (Z.of_nat <$> seq 2 310).

(** The largest [r] with [r^3 <= n], bit by bit from bit [k - 1] down. *)
Fixpoint cbrt (k : nat) (r n : Z) : Z :=
  match k with
  | O => r
  | S k' => let r' := r + 2 ^ Z.of_nat k' in cbrt k' (if r' ^ 3 <=? n then r' else r) n
  end.

(** The first 32 bits of the fractional parts of the cube roots of the first 64 primes. *)
Definition K : list Z := Eval vm_compute in (λ p, u32 (cbrt 36 0 (p * 2 ^ 96))) <$> take 64 primes.

Record st := mk { a : Z; b : Z; c : Z; d : Z; e : Z; f : Z; g : Z; h : Z }.

(** The same of the square roots of the first 8 primes. *)
Definition init : st := Eval vm_compute in
  let r i := u32 (Z.sqrt (primes !!! i * 2 ^ 64)) in
  mk (r 0%nat) (r 1%nat) (r 2%nat) (r 3%nat) (r 4%nat) (r 5%nat) (r 6%nat) (r 7%nat).

Definition step (s : st) (k w : Z) : st :=
  let S1 := Z.lxor (Z.lxor (rotr 6 (e s)) (rotr 11 (e s))) (rotr 25 (e s)) in
  let ch := Z.lxor (Z.land (e s) (f s)) (Z.land (not32 (e s)) (g s)) in
  let t1 := u32 (h s + S1 + ch + k + w) in
  let S0 := Z.lxor (Z.lxor (rotr 2 (a s)) (rotr 13 (a s))) (rotr 22 (a s)) in
  let maj := Z.lxor (Z.lxor (Z.land (a s) (b s)) (Z.land (a s) (c s))) (Z.land (b s) (c s)) in
  mk (u32 (t1 + S0 + maj)) (a s) (b s) (c s) (add32 (d s) t1) (e s) (f s) (g s).

Fixpoint rounds (ks ws : list Z) (s : st) : st :=
  match ks, ws with
  | k :: ks', w :: ws' => rounds ks' ws' (step s k w)
  | _, _ => s
  end.

Definition next (w : list Z) : Z :=
  let w15 := w !!! 14%nat in
  let w2 := w !!! 1%nat in
  let s0 := Z.lxor (Z.lxor (rotr 7 w15) (rotr 18 w15)) (Z.shiftr w15 3) in
  let s1 := Z.lxor (Z.lxor (rotr 17 w2) (rotr 19 w2)) (Z.shiftr w2 10) in
  u32 (w !!! 15%nat + s0 + w !!! 6%nat + s1).

Definition block (s : st) (blk : list byte) : st :=
  let r := rounds K (schedule next 48 blk) s in
  mk (add32 (a s) (a r)) (add32 (b s) (b r)) (add32 (c s) (c r)) (add32 (d s) (d r))
     (add32 (e s) (e r)) (add32 (f s) (f r)) (add32 (g s) (g r)) (add32 (h s) (h r)).

Definition sum (m : list byte) : list byte :=
  let s := fold_left block (msg_blocks m) init in
  concat (be_put 4 <$> [a s; b s; c s; d s; e s; f s; g s; h s]).
End SHA256.

(** [hmac.New(sha256.New, key)] *)
Definition hmac_sha256 (key m : list byte) : list byte :=
  let key := if (64 <? length key)%nat then SHA256.sum key else key in
  let key := key ++ replicate (64 - length key) x00 in
  let ipad := bxor x36 <$> key in
  let opad := bxor x5c <$> key in
  SHA256.sum (opad ++ SHA256.sum (ipad ++ m)).

Lemma length_sha1 m : length (SHA1.sum m) = 20%nat.
Proof. unfold SHA1.sum. cbn [fmap list_fmap concat]. by rewrite !length_app, !length_be_put. Qed.

Lemma length_sha256 m : length (SHA256.sum m) = 32%nat.
Proof. unfold SHA256.sum. cbn [fmap list_fmap concat]. by rewrite !length_app, !length_be_put. Qed.

Lemma length_hmac key m : length (hmac_sha256 key m) = 32%nat.
Proof. apply length_sha256. Qed.

(** Test vectors of FIPS 180 and RFC 4231. *)
Example sha1_abc : be_get (SHA1.sum (str "abc")) = 0xa9993e364706816aba3e25717850c26c9cd0d89d.
Proof. by vm_compute. Qed.

Example sha256_abc :
  be_get (SHA256.sum (str "abc")) = 0xba7816bf8f01cfea414140de5dae2223b00361a396177a9cb410ff61f20015ad.
Proof. by vm_compute. Qed.

Example hmac_jefe :
  be_get (hmac_sha256 (str "Jefe") (str "what do ya want for nothing?"))
  = 0x5bdcc146bf60754e6a042426089575c75a003f089d2739839dec58b964ec3843.
Proof. by vm_compute. Qed.
