(* ===== verification/KeyExchange.v ===== *)
(** * Key exchange ([crypto/keyexchange.go])

    The server hash is computed on the bytes of the SHA-1 digest as in the
    source: two's complement by inverting and adding one from the last byte on,
    then two hexadecimal digits per byte.  AES, RSA and the key parsers are the
    parameters [AES] and [RSA]. *)

From S2P Require Export Hash Cfb8.
#[local] Open Scope Z_scope.

(** ** The server hash *)

Definition hex_alphabet : list byte := str "0123456789abcdef".

(** [hash[i] = ^hash[i]] for all [i]. *)
Definition flip_bits (b : byte) : byte := to_byte (Z.lnot (ubyte b)).
Definition invert (h : list byte) : list byte := flip_bits <$> h.

(** [for i := len-1; i >= 0; i-- { hash[i]++; if hash[i] != 0 { break } }], on the
    bytes with the last one first. *)
Fixpoint incr_rev (h : list byte) : list byte :=
  match h with
  | [] => []
  | b :: h' =>
      let b' := to_byte (ubyte b + 1) in
      if ubyte b' =? 0 then b' :: incr_rev h' else b' :: h'
  end.

Definition hex_of (h : list byte) : list byte :=
  concat ((λ b, [hex_alphabet !!! Z.to_nat (Z.shiftr (ubyte b) 4);
                 hex_alphabet !!! Z.to_nat (Z.land (ubyte b) 15)]) <$> h).

Definition ComputeServerHash (serverID publicKey secretKey : list byte) : list byte :=
  let hash := SHA1.sum (serverID ++ secretKey ++ publicKey) in
  if forallb (λ b, ubyte b =? 0) hash then []
  else
    let negative := negb (Z.land (ubyte (hash !!! 0%nat)) 128 =? 0) in
    let hash := if negative then rev (incr_rev (rev (invert hash))) else hash in
    let hex := hex_of hash in
    if negative then x2d :: hex else hex.

Definition VerifyHash (serverHash computedHash : list byte) : bool :=
  bool_decide (serverHash = computedHash).

(** ** Keys and ciphers *)

Inductive PublicKey := RsaKey (k : Z * Z) | OtherKey.

Class RSA := {
  ParsePKIXPublicKey : list byte → PublicKey + error;
  ParsePKCS1PublicKey : list byte → (Z * Z) + error;
  EncryptPKCS1v15 : list byte → Z * Z → list byte → list byte + error;  (* randomness, key, message *)
}.

Definition EncryptKey `{RSA} (rnd key publicKey : list byte) : outcome (list byte) :=
  pub ← match ParsePKIXPublicKey publicKey with
        | inl pub => Ret pub
        | inr _ => match ParsePKCS1PublicKey publicKey with
                   | inl k => Ret (RsaKey k)
                   | inr _ => Err ErrEncryptionFailed
                   end
        end;
  match pub with
  | RsaKey k =>
      match EncryptPKCS1v15 rnd k key with
      | inl encrypted => Ret encrypted
      | inr _ => Err ErrEncryptionFailed
      end
  | OtherKey => Err ErrEncryptionFailed
  end.

Definition EncryptToken `{RSA} (rnd token publicKey : list byte) : outcome (list byte) :=
  EncryptKey rnd token publicKey.

(** [rand.Read] fills the key from the random source. *)
Definition GenerateKey : M Reader (list byte) := ReadFull 16.

(** [aes.NewCipher]: a block cipher for keys of 16, 24 or 32 bytes. *)
Class AES := aes_NewCipher : list byte → BlockCipher + error.

Definition CreateCipher `{AES} (key : list byte) : outcome (BlockCipher * CFB8 * CFB8) :=
  match aes_NewCipher key with
  | inr e => Err e
  | inl block => Ret (block, NewCFB8Encrypt key, NewCFB8Decrypt key)
  end.

(** ** Reference: the hash as a signed hexadecimal number *)

(** The [k] hexadecimal digits of [z], most significant first. *)
Fixpoint hex_digits (k : nat) (z : Z) : list byte :=
  match k with
  | O => []
  | S k' => hex_digits k' (z / 16) ++ [hex_alphabet !!! Z.to_nat (z mod 16)]
  end.

Definition signed_hash (serverID publicKey secretKey : list byte) : Z :=
  swrap 160 (be_get (SHA1.sum (serverID ++ secretKey ++ publicKey))).

(** The format of the session service: the signed number in hexadecimal, without
    leading zeros. *)
Fixpoint strip_zeros (l : list byte) : list byte :=
  match l with
  | b :: ((_ :: _) as l') => if bool_decide (b = x30) then strip_zeros l' else l
  | _ => l
  end.

Definition session_hex (n : Z) : list byte :=
  (if n <? 0 then [x2d] else []) ++ strip_zeros (hex_digits 40 (Z.abs n)).

(** ** Lemmas *)

Lemma pow256 n : 2 ^ (8 * Z.of_nat (S n)) = 256 * 2 ^ (8 * Z.of_nat n).
Proof. replace (8 * Z.of_nat (S n)) with (8 + 8 * Z.of_nat n) by lia. by rewrite Z.pow_add_r by lia. Qed.

Lemma be_get_invert l : be_get (invert l) = 2 ^ (8 * Z.of_nat (length l)) - 1 - be_get l.
Proof.
  induction l as [|b l IH] using rev_ind; [done|].
  unfold invert in *. rewrite fmap_app. change (flip_bits <$> [b]) with [flip_bits b].
  rewrite !be_get_snoc, IH, length_app, Nat.add_1_r, pow256. unfold flip_bits.
  pose proof (ubyte_range b). unfold Z.lnot. rewrite ubyte_to_byte.
  rewrite <- (Z.mod_unique (Z.pred (- ubyte b)) 256 (-1) (255 - ubyte b)) by lia. lia.
Qed.

Lemma length_incr_rev r : length (incr_rev r) = length r.
Proof. induction r as [|b r IH]; simpl; [done|]. case_match; simpl; lia. Qed.

Lemma be_get_incr r :
  be_get (rev (incr_rev r)) = (be_get (rev r) + 1) mod 2 ^ (8 * Z.of_nat (length r)).
Proof.
  induction r as [|b r IH]; [by rewrite Z.mod_1_r|]. cbn [incr_rev rev length].
  pose proof (ubyte_range b) as Hb. rewrite ubyte_to_byte, pow256.
  assert (H0 : 0 < 2 ^ (8 * Z.of_nat (length r))) by (apply Z.pow_pos_nonneg; lia).
  pose proof (be_get_range (rev r)) as Hr. unfold is_uint in Hr. rewrite length_rev in Hr.
  destruct (Z.eqb_spec ((ubyte b + 1) mod 256) 0) as [E|E]; cbn [rev]; rewrite !be_get_snoc, ubyte_to_byte.
  - assert (Hb' : ubyte b = 255) by (destruct (decide (ubyte b = 255)); [done|]; rewrite Z.mod_small in E; lia).
    rewrite Hb', IH. replace (be_get (rev r) * 256 + 255 + 1) with (256 * (be_get (rev r) + 1)) by lia.
    rewrite Z.mul_mod_distr_l by lia. change ((255 + 1) mod 256) with 0. lia.
  - assert (ubyte b ≠ 255) by (intros E'; by rewrite E' in E). rewrite !Z.mod_small by lia. lia.
Qed.

Lemma hex_of_digits l : hex_of l = hex_digits (2 * length l) (be_get l).
Proof.
  induction l as [|b l IH] using rev_ind; [done|].
  unfold hex_of in *. rewrite fmap_app, concat_app, IH, length_app, be_get_snoc. cbn [length].
  replace (2 * (length l + 1))%nat with (S (S (2 * length l))) by lia. cbn [hex_digits].
  pose proof (ubyte_range b). rewrite Z.div_div by lia. change (16 * 16) with 256.
  rewrite Z.div_add_l, (Z.div_small (ubyte b)), Z.add_0_r by lia. rewrite <- app_assoc. f_equal.
  cbn [fmap list_fmap concat app]. rewrite (land_ones_mod _ 4) by lia. rewrite Z.shiftr_div_pow2 by lia.
  change (2 ^ 4) with 16.
  replace (be_get l * 256 + ubyte b) with (ubyte b + (be_get l * 16) * 16) by lia.
  rewrite Z.div_add, !Z.mod_add by lia. rewrite (Z.mod_small (ubyte b / 16)); [done|].
  split; [apply Z.div_pos; lia|apply Z.div_lt_upper_bound; lia].
Qed.

Lemma all_zero l : forallb (λ b, ubyte b =? 0) l = (be_get l =? 0).
Proof.
  induction l as [|b l IH] using rev_ind; [done|]. rewrite forallb_app, IH, be_get_snoc. simpl.
  pose proof (ubyte_range b). pose proof (be_get_range l) as Hr. unfold is_uint in Hr.
  destruct (Z.eqb_spec (be_get l) 0), (Z.eqb_spec (ubyte b) 0), (Z.eqb_spec (be_get l * 256 + ubyte b) 0);
    simpl; lia.
Qed.

Lemma top_bit b : negb (Z.land (ubyte b) 128 =? 0) = (128 <=? ubyte b).
Proof. destruct b; reflexivity. Qed.

(** The two's complement of the digest. *)
Lemma complement_value h :
  be_get h ≠ 0 →
  be_get (rev (incr_rev (rev (invert h)))) = 2 ^ (8 * Z.of_nat (length h)) - be_get h.
Proof.
  intros H0. pose proof (be_get_range h) as Hr. unfold is_uint in Hr.
  rewrite be_get_incr, rev_involutive, length_rev, be_get_invert.
  unfold invert. rewrite length_fmap. rewrite Z.mod_small; lia.
Qed.

Lemma head_bit h : h ≠ [] →
  (128 <=? ubyte (h !!! 0%nat)) = (2 ^ (8 * Z.of_nat (length h) - 1) <=? be_get h).
Proof.
  destruct h as [|b h]; [done|]. intros _. simpl (_ !!! _). rewrite be_get_cons.
  pose proof (be_get_range h) as Hr. unfold is_uint in Hr.
  replace (8 * Z.of_nat (length (b :: h)) - 1) with (7 + 8 * Z.of_nat (length h)) by (simpl length; lia).
  rewrite Z.pow_add_r by lia. change (2 ^ 7) with 128.
  destruct (Z.leb_spec 128 (ubyte b)), (Z.leb_spec (128 * 2 ^ (8 * Z.of_nat (length h)))
    (ubyte b * 2 ^ (8 * Z.of_nat (length h)) + be_get h)); nia.
Qed.

Lemma hex_digits_cons k z :
  hex_digits (S k) z = hex_alphabet !!! Z.to_nat (z / 16 ^ Z.of_nat k mod 16) :: hex_digits k z.
Proof.
  revert z. induction k as [|k IH]; intros z; [cbn; by rewrite Z.div_1_r|].
  change (hex_digits (S (S k)) z)
    with (hex_digits (S k) (z / 16) ++ [hex_alphabet !!! Z.to_nat (z mod 16)]).
  rewrite IH. rewrite Z.div_div by lia. rewrite <- Z.pow_succ_r, <- Nat2Z.inj_succ by lia. done.
Qed.

Lemma alphabet_zero d : 0 ≤ d < 16 → hex_alphabet !!! Z.to_nat d = x30 ↔ d = 0.
Proof.
  intros Hd. assert (Z.to_nat d < 16)%nat as Hn by lia. rewrite <- (Z2Nat.id d) at 2 by lia.
  remember (Z.to_nat d) as n eqn:E. clear E Hd d.
  do 16 (destruct n as [|n]; [split; [discriminate || done|lia || discriminate || done]|]). lia.
Qed.

Lemma strip_zeros_length l : (length (strip_zeros l) ≤ length l)%nat.
Proof.
  induction l as [|b [|c l] IH]; [done|done|]. cbn [strip_zeros].
  case_bool_decide; [etrans; [exact IH|simpl; lia]|done].
Qed.

Lemma strip_zeros_id b c l : strip_zeros (b :: c :: l) = b :: c :: l ↔ b ≠ x30.
Proof.
  cbn [strip_zeros]. case_bool_decide as Hb; [|done]. split; [|done].
  intros E. apply (f_equal length) in E. pose proof (strip_zeros_length (c :: l)) as Hl.
  change (match l with [] => c :: l | _ :: _ => _ end) with (strip_zeros (c :: l)) in E.
  rewrite E in Hl. simpl in Hl. lia.
Qed.

(** The digest as bytes and as a signed number. *)
Lemma ComputeServerHash_value id pub sec :
  let n := signed_hash id pub sec in
  ComputeServerHash id pub sec =
    if n =? 0 then [] else (if n <? 0 then [x2d] else []) ++ hex_digits 40 (Z.abs n).
Proof.
  unfold ComputeServerHash, signed_hash. set (h := SHA1.sum _).
  assert (Hl : length h = 20%nat) by apply length_sha1.
  pose proof (be_get_range h) as Hr. rewrite Hl in Hr. unfold is_uint in Hr.
  change (8 * Z.of_nat 20) with 160 in Hr. cbv zeta.
  rewrite all_zero, top_bit, head_bit by (by destruct h). rewrite Hl.
  change (8 * Z.of_nat 20 - 1) with 159.
  assert (Hp : 2 ^ 160 = 2 * 2 ^ 159) by (rewrite <- Z.pow_succ_r by lia; done).
  assert (Hs : swrap 160 (be_get h) = if 2 ^ 159 <=? be_get h then be_get h - 2 ^ 160 else be_get h).
  { unfold swrap. change (160 - 1) with 159. destruct (Z.leb_spec (2 ^ 159) (be_get h)).
    - rewrite <- (Z.mod_unique (be_get h + 2 ^ 159) (2 ^ 160) 1 (be_get h - 2 ^ 159)) by lia. lia.
    - rewrite Z.mod_small by lia. lia. }
  rewrite Hs. destruct (Z.leb_spec (2 ^ 159) (be_get h)) as [Hneg|Hpos].
  - rewrite (proj2 (Z.eqb_neq (be_get h) 0)), (proj2 (Z.eqb_neq _ 0)), (proj2 (Z.ltb_lt _ 0)) by lia.
    cbn [app]. f_equal. rewrite hex_of_digits, complement_value by lia.
    rewrite length_rev, length_incr_rev, length_rev. unfold invert. rewrite length_fmap, Hl.
    f_equal. change (8 * Z.of_nat 20) with 160. lia.
  - destruct (be_get h =? 0); [done|]. rewrite (proj2 (Z.ltb_ge _ 0)) by lia. cbn [app].
    rewrite hex_of_digits, Hl. f_equal. lia.
Qed.

(** ** The properties of the component *)

(** C15. [ComputeServerHash] is the SHA-1 digest of server ID, secret and public key
    read as a signed 160-bit number and written in hexadecimal with a minus sign
    when negative, always with all forty digits; a zero digest gives the empty
    string. *)
Theorem server_hash_spec id pub sec :
  let n := signed_hash id pub sec in
  ComputeServerHash id pub sec =
    if n =? 0 then [] else (if n <? 0 then [x2d] else []) ++ hex_digits 40 (Z.abs n).
Proof. apply ComputeServerHash_value. Qed.

(** It is the hash of the session service, which has no leading zeros, exactly
    when the first of the forty digits is not a zero. *)
Theorem server_hash_session id pub sec :
  let n := signed_hash id pub sec in
  ComputeServerHash id pub sec = session_hex n ↔ 16 ^ 39 ≤ Z.abs n.
Proof.
  intros n. unfold n. rewrite ComputeServerHash_value. set (v := signed_hash id pub sec). cbv zeta. unfold session_hex.
  assert (Hr : Z.abs v < 16 ^ 40).
  { assert (H : is_int 160 v) by (by apply swrap_range). unfold is_int in H.
    change (16 ^ 40) with (2 * 2 ^ (160 - 1)). lia. }
  change (16 ^ 40) with (16 ^ 39 * 16) in Hr. assert (0 < 16 ^ 39) by done.
  set (d := Z.abs v / 16 ^ 39).
  assert (Hd : 0 ≤ d < 16) by (unfold d; split; [apply Z.div_pos; lia|apply Z.div_lt_upper_bound; lia]).
  assert (Hhex : hex_digits 40 (Z.abs v) = hex_alphabet !!! Z.to_nat d
    :: hex_alphabet !!! Z.to_nat (Z.abs v / 16 ^ 38 mod 16) :: hex_digits 38 (Z.abs v)).
  { rewrite !hex_digits_cons. unfold d. simpl Z.of_nat. by rewrite (Z.mod_small (Z.abs v / 16 ^ 39)) by done. }
  assert (Hd0 : d = 0 ↔ ¬ 16 ^ 39 ≤ Z.abs v).
  { unfold d. rewrite Z.div_small_iff by lia. lia. }
  destruct (Z.eqb_spec v 0) as [->|Hv].
  - split; [|intros Hc; change (Z.abs 0) with 0 in Hc; lia]. intros E. exfalso.
    by vm_compute in E.
  - rewrite Hhex. split.
    + intros E. apply app_inv_head in E. symmetry in E. apply strip_zeros_id in E.
      rewrite alphabet_zero in E by done.
      destruct (decide (16 ^ 39 ≤ Z.abs v)); tauto.
    + intros Hc. f_equal. symmetry. apply strip_zeros_id. rewrite alphabet_zero by done. tauto.
Qed.

(** The known hashes: "Notch" and "jeb_" are right, "simon" has a leading zero. *)
Example server_hash_examples :
  ComputeServerHash (str "Notch") [] [] = str "4ed1f46bbe04bc756bcb17c0c7ce3e4632f06a48"
  ∧ ComputeServerHash (str "jeb_") [] [] = str "-7c9d5b0044c130109a5d7b5fb5c317c02b4e28c1"
  ∧ ComputeServerHash (str "simon") [] [] = str "088e16a1019277b15d58faf0541e11910eb756f6"
  ∧ session_hex (signed_hash (str "simon") [] []) = str "88e16a1019277b15d58faf0541e11910eb756f6".
Proof. by vm_compute. Qed.
