(* ===== verification/Handshake.v ===== *)
(** * The handshake packet ([proxy/handshake.go])

    Strings are their bytes.  [BuildHandshake] and [ModifyHandshakeHost] encode
    into one scratch buffer that is reused, as in the source. *)

From S2P Require Export Packet.
#[local] Open Scope Z_scope.

Definition StateStatus : Z := 1.
Definition StateLogin : Z := 2.
Definition StateTransfer : Z := 3.

(** [n = PutVarInt(buf, v); data = append(data, buf[:n]...)] *)
Definition append_varint (buf data : list byte) (v : Z) : outcome (list byte * list byte) :=
  '(buf, n) ← PutVarInt buf v;
  mret (buf, data ++ take n buf).

Definition ParseHandshake (pkt : Packet) : outcome (list byte * Z * Z) :=
  if (length (Data pkt) <? 2)%nat then Err ErrPacketTooShort
  else
    '(protoVer, remaining) ← ReadVarIntFromBytes (Data pkt);
    '(strLen, remaining) ← ReadVarIntFromBytes remaining;
    if (Z.of_nat (length remaining) <? strLen) || (strLen <? 0) then Err ErrPacketTooShort
    else
      let host := take (Z.to_nat strLen) remaining in
      let remaining := drop (Z.to_nat strLen) remaining in
      if (length remaining <? 2)%nat then Err ErrPacketTooShort
      else
        let port := Z.lor (u16 (Z.shiftl (ubyte (remaining !!! 0%nat)) 8)) (ubyte (remaining !!! 1%nat)) in
        let remaining := drop 2 remaining in
        '(ns, _) ← ReadVarIntFromBytes remaining;
        mret (host, port, ns).

Definition BuildHandshake (protocolVersion : Z) (host : list byte) (port nextState : Z) : outcome Packet :=
  let buf := replicate MaxVarIntLen x00 in
  '(buf, data) ← append_varint buf [] protocolVersion;
  '(buf, data) ← append_varint buf data (s32 (Z.of_nat (length host)));
  let data := data ++ host in
  let data := data ++ [to_byte (Z.shiftr port 8); to_byte port] in
  '(buf, data) ← append_varint buf data nextState;
  mret (mkPacket 0 data).

Definition ModifyHandshakeHost (pkt : Packet) (newHost : list byte) : outcome Packet :=
  _ ← ParseHandshake pkt;
  let data := Data pkt in
  '(_, remaining) ← ReadVarIntFromBytes data;
  let protoLen := (length data - length remaining)%nat in
  '(strLen, remaining2) ← ReadVarIntFromBytes remaining;
  if (strLen <? 0) || (Z.of_nat (length remaining2) <? strLen) then Panic SliceOutOfRange
  else
    let afterHost := drop (Z.to_nat strLen) remaining2 in
    let newData := take protoLen data in
    let buf := replicate MaxVarIntLen x00 in
    '(_, newData) ← append_varint buf newData (s32 (Z.of_nat (length newHost)));
    mret (mkPacket (ID pkt) (newData ++ newHost ++ afterHost)).

(** ** Reference: the layout of the packet *)

Definition handshake_layout (ver : Z) (host : list byte) (port ns : Z) : list byte :=
  varint ver ++ varint (s32 (Z.of_nat (length host))) ++ host ++ be_put 2 port ++ varint ns.

(** ** Lemmas *)

Lemma append_varint_spec buf data v :
  length buf = 5%nat →
  ∃ buf', append_varint buf data v = Ret (buf', data ++ varint v) ∧ length buf' = 5%nat.
Proof.
  intros Hb. unfold append_varint. pose proof (VarIntLen_bounds v).
  rewrite PutVarInt_spec by lia. cbn [mbind outcome_bind].
  rewrite <- length_varint, take_app_length. eexists. split; [done|].
  rewrite length_app, length_drop, length_varint. lia.
Qed.

Lemma BuildHandshake_layout ver host port ns :
  BuildHandshake ver host port ns = Ret (mkPacket 0 (handshake_layout ver host port ns)).
Proof.
  unfold BuildHandshake, handshake_layout.
  destruct (append_varint_spec (replicate MaxVarIntLen x00) [] ver) as (b1&->&H1); [done|]. cbn [mbind outcome_bind].
  destruct (append_varint_spec b1 ([] ++ varint ver) (s32 (Z.of_nat (length host)))) as (b2&->&H2); [done|].
  cbn [mbind outcome_bind].
  destruct (append_varint_spec b2 (((([] ++ varint ver) ++ varint (s32 (Z.of_nat (length host)))) ++ host)
    ++ [to_byte (Z.shiftr port 8); to_byte port]) ns) as (b3&->&H3); [done|].
  cbn [mbind outcome_bind]. cbn [app]. rewrite <- !app_assoc. do 6 f_equal.
Qed.

(** The port bytes. *)
Lemma port_value a b : Z.lor (u16 (Z.shiftl (ubyte a) 8)) (ubyte b) = be_get [a; b].
Proof.
  change [a; b] with (([] ++ [a]) ++ [b]). rewrite !be_get_snoc. change (be_get []) with 0.
  pose proof (ubyte_range a). pose proof (ubyte_range b). assert (2 ^ 8 = 256) by done.
  rewrite uwrap_id, Z.lor_comm, lor_shiftl_add; try lia.
  unfold is_uint. change (2 ^ 16) with 65536. rewrite Z.shiftl_mul_pow2 by lia. lia.
Qed.

(** A handshake in any encoding the parser accepts. *)
Inductive handshake_shape : list byte → list byte → list byte → Z → Z → list byte → Prop :=
| handshake_parts h1 ver h2 host a b h3 ns rest :
    (∀ k, ReadVarIntFromBytes (h1 ++ k) = Ret (ver, k)) →
    (∀ k, ReadVarIntFromBytes (h2 ++ k) = Ret (Z.of_nat (length host), k)) →
    (∀ k, ReadVarIntFromBytes (h3 ++ k) = Ret (ns, k)) → h1 ≠ [] → h2 ≠ [] →
    handshake_shape (h1 ++ h2 ++ host ++ [a; b] ++ h3 ++ rest) h1 host (be_get [a; b]) ns ([a; b] ++ h3 ++ rest).

Lemma length_ge_2 {A} (l k : list A) : l ≠ [] → k ≠ [] → (length (l ++ k) <? 2)%nat = false.
Proof. destruct l, k; try done. intros. rewrite length_app. apply Nat.ltb_ge. simpl. lia. Qed.

Lemma parse_shape_ok data h1 host port ns after :
  handshake_shape data h1 host port ns after → ∀ id, ParseHandshake (mkPacket id data) = Ret (host, port, ns).
Proof.
  destruct 1 as [h1 ver h2 host a b h3 ns rest H1 H2 H3 N1 N2]. intros id. unfold ParseHandshake. simpl Data.
  rewrite length_ge_2 by (try done; by destruct h2).
  rewrite H1. cbn [mbind outcome_bind]. rewrite H2. cbn [mbind outcome_bind].
  rewrite (proj2 (Z.ltb_ge _ _)), (proj2 (Z.ltb_ge _ 0)) by (rewrite ?length_app; lia). cbn [orb].
  rewrite Nat2Z.id, take_app_length, drop_app_length. cbn [app length].
  rewrite (proj2 (Nat.ltb_ge _ _)) by lia. cbn [drop]. rewrite drop_0, H3. cbn [mbind outcome_bind].
  rewrite <- port_value. done.
Qed.

Lemma parse_ok_shape pkt host port ns :
  ParseHandshake pkt = Ret (host, port, ns) → ∃ h1 after, handshake_shape (Data pkt) h1 host port ns after.
Proof.
  unfold ParseHandshake. destruct (_ <? 2)%nat; [done|].
  destruct (from_bytes_cases (Data pkt)) as [(ver&r1&E1&_)|(e&->)]; [|done]. rewrite E1. cbn [mbind outcome_bind].
  destruct (from_bytes_cases r1) as [(n&r2&E2&_)|(e&->)]; [|done]. rewrite E2. cbn [mbind outcome_bind].
  destruct (_ || _) eqn:Hb; [done|]. apply orb_false_iff in Hb as [Hb1%Z.ltb_ge Hb2%Z.ltb_ge].
  destruct (Nat.ltb_spec (length (drop (Z.to_nat n) r2)) 2) as [|Hl]; [done|].
  destruct (drop (Z.to_nat n) r2) as [|a [|b r3]] eqn:Ed; [simpl in Hl; lia..|]. cbn [drop]. rewrite drop_0.
  destruct (from_bytes_cases r3) as [(ns'&r4&E4&_)|(e&->)]; [|done]. rewrite E4. cbn [mbind outcome_bind].
  intros [= <- <- <-]. destruct (FromBytes_rest _ _ _ E1) as (h1&->&N1&F1).
  destruct (FromBytes_rest _ _ _ E2) as (h2&->&N2&F2). destruct (FromBytes_rest _ _ _ E4) as (h3&->&_&F4).
  exists h1, ([a; b] ++ h3 ++ r4). rewrite <- (take_drop (Z.to_nat n) r2), Ed.
  cbn [lookup_total list_lookup_total]. rewrite port_value.
  rewrite take_app_length' by (rewrite length_take; lia).
  apply (handshake_parts h1 ver h2); try done. rewrite length_take, Nat.min_l by lia.
  by rewrite Z2Nat.id by lia.
Qed.

Lemma ParseHandshake_cases pkt :
  (∃ r, ParseHandshake pkt = Ret r)
  ∨ ParseHandshake pkt = Err ErrPacketTooShort ∨ ParseHandshake pkt = Err ErrMalformedVarInt.
Proof.
  assert (Hv : ∀ l, (∃ v r, ReadVarIntFromBytes l = Ret (v, r))
    ∨ ReadVarIntFromBytes l = Err ErrPacketTooShort ∨ ReadVarIntFromBytes l = Err ErrMalformedVarInt).
  { intros l. destruct (from_bytes_shape l) as [(pre&b&rest&_&_&_&_&->)|[(_&_&->)|(?&?&_&_&_&->)]]; eauto. }
  unfold ParseHandshake. destruct (_ <? 2)%nat; [by auto|].
  destruct (Hv (Data pkt)) as [(ver&r1&->)|[->| ->]]; [|by auto..]. cbn [mbind outcome_bind].
  destruct (Hv r1) as [(n&r2&->)|[->| ->]]; [|by auto..]. cbn [mbind outcome_bind].
  destruct (_ || _); [by auto|]. destruct (_ <? 2)%nat; [by auto|].
  destruct (Hv (drop 2 (drop (Z.to_nat n) r2))) as [(ns&r4&->)|[->| ->]]; [|by auto..].
  left. eexists. done.
Qed.

Lemma layout_shape ver host port ns :
  is_int 32 ver → is_uint 16 port → is_int 32 ns → Z.of_nat (length host) < 2 ^ 31 →
  handshake_shape (handshake_layout ver host port ns) (varint ver) host port ns (be_put 2 port ++ varint ns).
Proof.
  intros Hv Hp Hns Hh. assert (Hl : s32 (Z.of_nat (length host)) = Z.of_nat (length host)).
  { apply swrap_id; [done|]. unfold is_int. change (2 ^ (32 - 1)) with (2 ^ 31). lia. }
  assert (Hport : be_get (be_put 2 port) = port) by (rewrite be_get_put; by apply Z.mod_small).
  unfold handshake_layout. rewrite <- Hport at 2. rewrite <- (app_nil_r (varint ns)).
  apply (handshake_parts (varint ver) ver (varint (s32 (Z.of_nat (length host)))) host
    (to_byte (Z.shiftr port 8)) (to_byte (Z.shiftr port 0)) (varint ns) ns []).
  - intros k. by apply FromBytes_varint.
  - intros k. rewrite <- Hl at 2. apply FromBytes_varint. by apply swrap_range.
  - intros k. by apply FromBytes_varint.
  - intros E. apply (f_equal length) in E. rewrite length_varint in E. pose proof (VarIntLen_bounds ver). simpl in E. lia.
  - intros E. apply (f_equal length) in E. rewrite length_varint in E.
    pose proof (VarIntLen_bounds (s32 (Z.of_nat (length host)))). simpl in E. lia.
Qed.

Lemma ModifyHandshakeHost_shape id data h1 host port ns after newHost :
  handshake_shape data h1 host port ns after → Z.of_nat (length newHost) < 2 ^ 31 →
  let data' := h1 ++ varint (Z.of_nat (length newHost)) ++ newHost ++ after in
  ModifyHandshakeHost (mkPacket id data) newHost = Ret (mkPacket id data')
  ∧ handshake_shape data' h1 newHost port ns after.
Proof.
  intros Hs Hn. pose proof (parse_shape_ok _ _ _ _ _ _ Hs id) as Hp.
  assert (Hl : s32 (Z.of_nat (length newHost)) = Z.of_nat (length newHost)).
  { apply swrap_id; [done|]. unfold is_int. change (2 ^ (32 - 1)) with (2 ^ 31). lia. }
  destruct Hs as [h1 ver h2 host a b h3 ns rest H1 H2 H3 N1 N2]. intros data'. split.
  - unfold ModifyHandshakeHost. rewrite Hp. cbn [mbind outcome_bind]. simpl Data. simpl ID.
    rewrite H1. cbn [mbind outcome_bind]. rewrite H2. cbn [mbind outcome_bind].
    rewrite (proj2 (Z.ltb_ge _ 0)), (proj2 (Z.ltb_ge _ _)) by (rewrite ?length_app; lia). cbn [orb].
    rewrite Nat2Z.id, drop_app_length. rewrite length_app, Nat.add_sub, take_app_length.
    destruct (append_varint_spec (replicate MaxVarIntLen x00) h1 (s32 (Z.of_nat (length newHost))))
      as (b1&->&_); [done|]. cbn [mbind outcome_bind]. rewrite Hl, <- !app_assoc. done.
  - apply (handshake_parts h1 ver (varint (Z.of_nat (length newHost)))); try done.
    + intros k. rewrite <- Hl at 1. rewrite FromBytes_varint by (by apply swrap_range). by rewrite Hl.
    + intros E. apply (f_equal length) in E. rewrite length_varint in E.
      pose proof (VarIntLen_bounds (Z.of_nat (length newHost))). simpl in E. lia.
Qed.

(** ** The properties of the component *)

(** C16. [BuildHandshake] lays out version, host with its length, big-endian port and
    next state, and [ParseHandshake] reads host, port and state back, whatever the
    host's bytes and the packet ID. *)
Theorem handshake_roundtrip ver host port ns :
  is_int 32 ver → is_uint 16 port → is_int 32 ns → Z.of_nat (length host) < 2 ^ 31 →
  ∃ pkt, BuildHandshake ver host port ns = Ret pkt
    ∧ Data pkt = handshake_layout ver host port ns
    ∧ ParseHandshake pkt = Ret (host, port, ns).
Proof.
  intros. eexists. split; [apply BuildHandshake_layout|]. split; [done|].
  by apply (parse_shape_ok _ (varint ver) _ _ _ (be_put 2 port ++ varint ns)), layout_shape.
Qed.

Lemma handshake_roundtrip_witness :
  ∃ pkt, BuildHandshake 769 [x6d; x63] 25565 2 = Ret pkt ∧ ParseHandshake pkt = Ret ([x6d; x63], 25565, 2).
Proof.
  destruct (handshake_roundtrip 769 [x6d; x63] 25565 2) as (pkt&H1&_&H2); [by vm_compute..|].
  exists pkt. split; [exact H1|exact H2].
Defined.

(** C17. [ParseHandshake] on any packet, hostile ones included, returns fields or one of
    two errors and never panics; the fields it returns are really at their places in
    the data, behind a host of exactly the announced length. *)
Theorem parse_handshake_sound pkt :
  match ParseHandshake pkt with
  | Ret (host, port, ns) => is_uint 16 port ∧ ∃ h1 after, handshake_shape (Data pkt) h1 host port ns after
  | Err e => e = ErrPacketTooShort ∨ e = ErrMalformedVarInt
  | _ => False
  end.
Proof.
  destruct (ParseHandshake_cases pkt) as [([[host port] ns]&E)|[E|E]]; rewrite E; [|by auto..].
  destruct (parse_ok_shape _ _ _ _ E) as (h1&after&Hs). split; [|eauto].
  destruct Hs as [? ? ? ? a b]. apply (be_get_range [a; b]).
Qed.

(** [ModifyHandshakeHost] fails exactly where parsing fails, with its error, and
    otherwise replaces the host alone: the packet ID, the bytes before the host's
    length and the bytes behind the host stay, and the result parses to the new host
    with the old port and state. *)
Theorem modify_host_spec pkt newHost :
  Z.of_nat (length newHost) < 2 ^ 31 →
  match ParseHandshake pkt with
  | Ret (host, port, ns) => ∃ h1 after pkt', ModifyHandshakeHost pkt newHost = Ret pkt'
      ∧ handshake_shape (Data pkt) h1 host port ns after
      ∧ Data pkt' = h1 ++ varint (Z.of_nat (length newHost)) ++ newHost ++ after
      ∧ ID pkt' = ID pkt ∧ ParseHandshake pkt' = Ret (newHost, port, ns)
  | Err e => ModifyHandshakeHost pkt newHost = Err e
  | _ => False
  end.
Proof.
  intros Hn. destruct (ParseHandshake_cases pkt) as [([[host port] ns]&E)|[E|E]]; rewrite E.
  2,3: unfold ModifyHandshakeHost; by rewrite E.
  destruct (parse_ok_shape _ _ _ _ E) as (h1&after&Hs). destruct pkt as [id data].
  destruct (ModifyHandshakeHost_shape id data h1 host port ns after newHost Hs Hn) as [Hm Hs'].
  eexists h1, after, _. split_and!; [exact Hm|done|done|done|]. by eapply parse_shape_ok.
Qed.

Lemma modify_host_spec_witness :
  ∃ pkt', ModifyHandshakeHost (mkPacket 0 [x04; x01; x61; x63; xdd; x01]) [x62; x63] = Ret pkt'
    ∧ ParseHandshake pkt' = Ret ([x62; x63], 25565, 1).
Proof.
  destruct (modify_host_spec (mkPacket 0 [x04; x01; x61; x63; xdd; x01]) [x62; x63]) as (h1&after&pkt'&H1&_&_&_&H2);
    [done|].
  by exists pkt'.
Defined.
