(* ===== verification/Auth.v ===== *)
(** * Player information forwarding ([proxy/auth.go])

    The legacy and Velocity forwarding formats.  [net.IP.String] is modelled for
    every slice length; HMAC-SHA256 is the executable one of [Hash]. *)

From S2P Require Export Handshake Hash.
#[local] Open Scope Z_scope.

(** ** [net.IP.String] *)

(** Decimal and hexadecimal digits without leading zeros, at most [k] of them. *)
Fixpoint digits (base : Z) (k : nat) (n : Z) : list byte :=
  match k with
  | O => []
  | S k' => (if n <? base then [] else digits base k' (n / base))
            ++ [str "0123456789abcdef" !!! Z.to_nat (n mod base)]
  end.

Definition dec (n : Z) : list byte := digits 10 3 n.
Definition hex16 (n : Z) : list byte := digits 16 4 n.

Fixpoint join (sep : list byte) (ls : list (list byte)) : list byte :=
  match ls with
  | [] => []
  | [l] => l
  | l :: ls' => l ++ sep ++ join sep ls'
  end.

Definition v4_string (ip : list byte) : list byte := join (str ".") ((λ b, dec (ubyte b)) <$> ip).

(** [ip.To4()] *)
Definition To4 (ip : list byte) : option (list byte) :=
  if (length ip =? 4)%nat then Some ip
  else if (length ip =? 16)%nat && bool_decide (take 12 ip = replicate 10 x00 ++ [xff; xff])
       then Some (drop 12 ip) else None.

Definition v6_groups (ip : list byte) : list Z :=
  (λ i, be_get (take 2 (drop (2 * i) ip))) <$> seq 0 8.

(** The length of the run of zero groups at the front. *)
Fixpoint zero_run (gs : list Z) : nat :=
  match gs with
  | 0 :: gs' => S (zero_run gs')
  | _ => O
  end.

(** The first longest run of at least two zero groups: its start and end. *)
Fixpoint longest_run (i : nat) (gs : list Z) (best : option (nat * nat)) : option (nat * nat) :=
  match gs with
  | [] => best
  | g :: gs' =>
      let l := zero_run gs in
      let old := match best with Some (s, e) => (e - s)%nat | None => O end in
      longest_run (S i) gs' (if (2 <=? l)%nat && (old <? l)%nat then Some (i, (i + l)%nat) else best)
  end.

Definition v6_string (ip : list byte) : list byte :=
  let gs := v6_groups ip in
  match longest_run 0 gs None with
  | Some (s, e) =>
      join (str ":") (hex16 <$> take s gs) ++ str "::" ++ join (str ":") (hex16 <$> drop e gs)
  | None => join (str ":") (hex16 <$> gs)
  end.

Definition hex_byte (b : byte) : list byte :=
  [str "0123456789abcdef" !!! Z.to_nat (Z.shiftr (ubyte b) 4);
   str "0123456789abcdef" !!! Z.to_nat (Z.land (ubyte b) 15)].

Definition IP_String (ip : list byte) : list byte :=
  if (length ip =? 0)%nat then str "<nil>"
  else if negb (length ip =? 4)%nat && negb (length ip =? 16)%nat
       then str "?" ++ concat (hex_byte <$> ip)
  else match To4 ip with
       | Some p4 => v4_string p4
       | None => v6_string ip
       end.

Example IP_String_examples :
  IP_String [x7f; x00; x00; x01] = str "127.0.0.1"
  ∧ IP_String (replicate 10 x00 ++ [xff; xff; xc0; xa8; x00; x0a]) = str "192.168.0.10"
  ∧ IP_String (replicate 15 x00 ++ [x01]) = str "::1"
  ∧ IP_String ([x20; x01; x0d; xb8] ++ replicate 4 x00 ++ [x00; x01] ++ replicate 4 x00 ++ [x00; x02])
    = str "2001:db8::1:0:0:2"
  ∧ IP_String [] = str "<nil>" ∧ IP_String [x01; xab] = str "?01ab".
Proof. by vm_compute. Qed.

(** ** [net.ParseIP] *)

Definition is_dot (c : byte) : bool := bool_decide (c = x2e).
Definition is_colon (c : byte) : bool := bool_decide (c = x3a).

(** The four decimal fields: no empty field, no leading zero, at most 255. *)
Fixpoint v4_fields (s : list byte) (start : bool) (val : Z) (digLen : nat) (fields : list byte)
    : option (list byte) :=
  match s with
  | [] => if (length fields <? 3)%nat then None else Some (fields ++ [to_byte val])
  | c :: s' =>
      let d := ubyte c - 48 in
      if (0 <=? d) && (d <=? 9) then
        if (digLen =? 1)%nat && (val =? 0) then None
        else let val := val * 10 + d in
             if 255 <? val then None else v4_fields s' false val (S digLen) fields
      else if is_dot c then
        if start || (length s' =? 0)%nat || (length fields =? 3)%nat then None
        else v4_fields s' true 0 0 (fields ++ [to_byte val])
      else None
  end.

Definition hex_value (c : byte) : option Z :=
  let d := ubyte c in
  if (48 <=? d) && (d <=? 57) then Some (d - 48)
  else if (97 <=? d) && (d <=? 102) then Some (d - 87)
  else if (65 <=? d) && (d <=? 70) then Some (d - 55)
  else None.

(** A group of hexadecimal digits: its value, their number and the rest. *)
Fixpoint hex_group (s : list byte) (off : nat) (acc : Z) : option (Z * nat * list byte) :=
  match s with
  | [] => Some (acc, off, [])
  | c :: s' =>
      match hex_value c with
      | Some d =>
          let acc := Z.shiftl acc 4 + d in
          if (3 <? off)%nat || (65535 <? acc) then None else hex_group s' (S off) acc
      | None => Some (acc, off, s)
      end
  end.

(** The loop over the groups; [ip] holds the bytes so far, [fuel] the groups that
    still have room. *)
Fixpoint v6_loop (fuel : nat) (s ip : list byte) (ellipsis : option nat)
    : option (list byte * list byte * option nat) :=
  match fuel with
  | O => Some (s, ip, ellipsis)
  | S fuel' =>
      '(acc, off, rest) ← hex_group s 0 0;
      if (off =? 0)%nat then None
      else match rest with
      | [] => Some ([], ip ++ be_put 2 acc, ellipsis)
      | c :: r1 =>
          if is_dot c then
            if (bool_decide (ellipsis = None) && negb (length ip =? 12)%nat) || (16 <? length ip + 4)%nat then None
            else fields ← v4_fields s true 0 0 []; Some ([], ip ++ fields, ellipsis)
          else if negb (is_colon c) then None
          else
            let ip := ip ++ be_put 2 acc in
            match r1 with
            | [] => None
            | c2 :: r2 =>
                if is_colon c2 then
                  if bool_decide (ellipsis ≠ None) then None
                  else match r2 with
                       | [] => Some ([], ip, Some (length ip))
                       | _ => v6_loop fuel' r2 ip (Some (length ip))
                       end
                else v6_loop fuel' r1 ip ellipsis
            end
      end
  end.

Definition parse_v6 (s : list byte) : option (list byte) :=
  let '(s, ellipsis) :=
    match s with
    | x3a :: x3a :: s' => (s', Some O)
    | _ => (s, None)
    end in
  if (length s =? 0)%nat && bool_decide (ellipsis = Some O) then Some (replicate 16 x00)
  else
    '(s, ip, ellipsis) ← v6_loop 8 s [] ellipsis;
    if negb (length s =? 0)%nat then None
    else if (length ip <? 16)%nat then
      e ← ellipsis; Some (take e ip ++ replicate (16 - length ip) x00 ++ drop e ip)
    else if bool_decide (ellipsis ≠ None) then None else Some ip.

(** [net.ParseIP]: the 16-byte form, nil on failure and for addresses with a zone. *)
Definition ParseIP (s : list byte) : list byte :=
  match filter (λ c, c = x2e ∨ c = x3a ∨ c = x25) s with
  | x2e :: _ => match v4_fields s true 0 0 [] with
                | Some p4 => replicate 10 x00 ++ [xff; xff] ++ p4
                | None => []
                end
  | x3a :: _ => if bool_decide (x25 ∈ s) then []
                else match parse_v6 s with Some ip => ip | None => [] end
  | _ => []
  end.

Example ParseIP_examples :
  ParseIP (str "192.168.0.10") = replicate 10 x00 ++ [xff; xff; xc0; xa8; x00; x0a]
  ∧ ParseIP (str "01.2.3.4") = [] ∧ ParseIP (str "1.2.3") = [] ∧ ParseIP (str "1.2.3.256") = []
  ∧ ParseIP (str "::1") = replicate 15 x00 ++ [x01]
  ∧ ParseIP (str "2001:db8::1:0:0:2")
    = [x20; x01; x0d; xb8] ++ replicate 4 x00 ++ [x00; x01] ++ replicate 4 x00 ++ [x00; x02]
  ∧ ParseIP (str "::ffff:1.2.3.4") = replicate 10 x00 ++ [xff; xff; x01; x02; x03; x04]
  ∧ ParseIP (str "1::2::3") = [] ∧ ParseIP (str "fe80::1%eth0") = [] ∧ ParseIP (str "<nil>") = [].
Proof. by vm_compute. Qed.

(** ** Forwarding *)

Inductive ForwardingMode := ForwardNone | ForwardLegacy | ForwardModern | ForwardVelocity.

(** [UUID] is an array of 16 bytes. *)
Record ForwardingData := mkForwarding {
  Mode : ForwardingMode;
  UUID : list byte;
  IP : list byte;
  Username : list byte;
  Profile : list byte;
  Secret : list byte;
}.

Definition AppendLegacyForwarding (host clientIP : list byte) : list byte :=
  host ++ [x00] ++ IP_String clientIP ++ [x00].

Definition AppendModernForwarding (pkt : Packet) (data : ForwardingData) : outcome Packet :=
  let extra := UUID data in
  let ipStr := IP_String (IP data) in
  let buf := replicate MaxVarIntLen x00 in
  '(buf, extra) ← append_varint buf extra (s32 (Z.of_nat (length ipStr)));
  let extra := extra ++ ipStr in
  '(buf, extra) ← append_varint buf extra 0;
  mret (mkPacket (ID pkt) (Data pkt ++ extra)).

Definition ParseModernForwarding (extra : list byte) : outcome ForwardingData :=
  if (length extra <? 16)%nat then Err ErrPacketTooShort
  else
    let uuid := take 16 extra in
    let extra := drop 16 extra in
    '(ipLen, remaining) ← ReadVarIntFromBytes extra;
    if (Z.of_nat (length remaining) <? ipLen) || (ipLen <? 0) then Err ErrPacketTooShort
    else mret (mkForwarding ForwardNone uuid (ParseIP (take (Z.to_nat ipLen) remaining)) [] [] []).

Definition buildVelocityPlaintext (data : ForwardingData) : outcome (list byte) :=
  let payload := UUID data ++ Username data ++ [x00] in
  let ipStr := IP_String (IP data) in
  let buf := replicate MaxVarIntLen x00 in
  '(buf, payload) ← append_varint buf payload (s32 (Z.of_nat (length ipStr)));
  mret (payload ++ ipStr ++ be_put 4 0).

Definition VelocityChannel : list byte := str "velocity:player_info".

Definition signVelocityPayload (plaintext secret : list byte) : list byte :=
  hmac_sha256 secret plaintext ++ plaintext.

Definition CreateVelocityForwardingPacket (data : ForwardingData) : outcome Packet :=
  plaintext ← buildVelocityPlaintext data;
  let payload := signVelocityPayload plaintext (Secret data) in
  let channelLen := replicate MaxVarIntLen x00 in
  '(channelLen, result) ← append_varint channelLen [] (s32 (Z.of_nat (length VelocityChannel)));
  mret (mkPacket 0 (result ++ VelocityChannel ++ payload)).

Definition AppendVelocityForwarding (pkt : Packet) (data : ForwardingData) : outcome Packet :=
  plaintext ← buildVelocityPlaintext data;
  let payload := signVelocityPayload plaintext (Secret data) in
  let channelLen := replicate MaxVarIntLen x00 in
  '(channelLen, result) ← append_varint channelLen [] (s32 (Z.of_nat (length VelocityChannel)));
  mret (mkPacket 0 (result ++ VelocityChannel ++ payload)).

Definition ValidateVelocityForwarding (data secret : list byte) : option (list byte) :=
  if (length data <? 32)%nat then None
  else
    let signature := take 32 data in
    let plaintext := drop 32 data in
    if bool_decide (signature = hmac_sha256 secret plaintext) then Some plaintext else None.

(** ** Lemmas *)

Lemma validate_signed secret data p :
  ValidateVelocityForwarding data secret = Some p ↔ data = signVelocityPayload p secret.
Proof.
  unfold ValidateVelocityForwarding, signVelocityPayload. split.
  - destruct (Nat.ltb_spec (length data) 32); [done|]. case_bool_decide as E; [|done].
    intros [= <-]. rewrite <- E. by rewrite take_drop.
  - intros ->. rewrite length_app, length_hmac. rewrite (proj2 (Nat.ltb_ge _ _)) by lia.
    rewrite take_app_length', drop_app_length' by (by rewrite length_hmac). by rewrite bool_decide_true.
Qed.

Definition velocity_layout (data : ForwardingData) : list byte :=
  UUID data ++ Username data ++ [x00] ++ varint (s32 (Z.of_nat (length (IP_String (IP data)))))
    ++ IP_String (IP data) ++ be_put 4 0.

Lemma plaintext_layout data : buildVelocityPlaintext data = Ret (velocity_layout data).
Proof.
  unfold buildVelocityPlaintext, velocity_layout.
  destruct (append_varint_spec (replicate MaxVarIntLen x00) (UUID data ++ Username data ++ [x00])
    (s32 (Z.of_nat (length (IP_String (IP data)))))) as (b&->&_); [done|].
  cbn [mbind outcome_bind]. by rewrite <- !app_assoc.
Qed.

Lemma create_layout data :
  CreateVelocityForwardingPacket data
  = Ret (mkPacket 0 (x14 :: VelocityChannel ++ signVelocityPayload (velocity_layout data) (Secret data))).
Proof.
  unfold CreateVelocityForwardingPacket. rewrite plaintext_layout. cbn [mbind outcome_bind].
  destruct (append_varint_spec (replicate MaxVarIntLen x00) [] (s32 (Z.of_nat (length VelocityChannel))))
    as (b&->&_); done.
Qed.

(** A NUL-terminated string is determined by the bytes that start with it. *)
Lemma nul_terminated u1 u2 r1 r2 :
  x00 ∉ u1 → x00 ∉ u2 → u1 ++ [x00] ++ r1 = u2 ++ [x00] ++ r2 → u1 = u2 ∧ r1 = r2.
Proof.
  revert u2. induction u1 as [|a u1 IH]; intros [|b u2] H1 H2 E; simpl in *; simplify_eq; [done|..];
    rewrite ?not_elem_of_cons in *.
  - by destruct H2.
  - by destruct H1.
  - destruct H1, H2. by destruct (IH u2) as [-> ->].
Qed.

(** One decimal field. *)
Lemma v4_field b rest start fields :
  v4_fields (dec (ubyte b) ++ rest) start 0 0 fields
  = v4_fields rest false (ubyte b) (length (dec (ubyte b))) fields.
Proof. destruct b; reflexivity. Qed.

Lemma v4_dot b d rest fields :
  rest ≠ [] → (length fields < 3)%nat →
  v4_fields (x2e :: rest) false (ubyte b) d fields = v4_fields rest true 0 0 (fields ++ [b]).
Proof.
  intros Hr Hf. cbn [v4_fields]. change (ubyte x2e - 48) with (-2).
  change ((0 <=? -2) && (-2 <=? 9)) with false. change (is_dot x2e) with true. cbv iota.
  rewrite to_byte_ubyte, (proj2 (Nat.eqb_neq (length fields) 3)) by lia. by destruct rest.
Qed.

Lemma dec_ne b rest : dec (ubyte b) ++ rest ≠ [].
Proof. destruct b; discriminate. Qed.

Lemma v4_roundtrip a b c d : v4_fields (v4_string [a; b; c; d]) true 0 0 [] = Some [a; b; c; d].
Proof.
  unfold v4_string. cbn [fmap list_fmap join]. change (str ".") with [x2e]. cbn [app].
  rewrite v4_field, v4_dot by (apply dec_ne || (simpl; lia)).
  rewrite v4_field, v4_dot by (apply dec_ne || (simpl; lia)).
  rewrite v4_field, v4_dot; [|by rewrite <- (app_nil_r (dec _)); apply dec_ne|simpl; lia].
  rewrite <- (app_nil_r (dec (ubyte d))), v4_field. cbn. by rewrite to_byte_ubyte.
Qed.

Lemma filter_dec b rest :
  filter (λ c, c = x2e ∨ c = x3a ∨ c = x25) (dec (ubyte b) ++ rest)
  = filter (λ c, c = x2e ∨ c = x3a ∨ c = x25) rest.
Proof. rewrite filter_app. destruct b; reflexivity. Qed.

Lemma ParseIP_v4 a b c d :
  ParseIP (IP_String [a; b; c; d]) = replicate 10 x00 ++ [xff; xff; a; b; c; d].
Proof.
  change (IP_String [a; b; c; d]) with (v4_string [a; b; c; d]). unfold ParseIP.
  rewrite v4_roundtrip. unfold v4_string at 1. cbn [fmap list_fmap join].
  change (str ".") with [x2e]. cbn [app]. rewrite filter_dec. by rewrite filter_cons_True by auto.
Qed.

(** ** The properties of the component *)

(** C18. [ValidateVelocityForwarding] accepts exactly what [signVelocityPayload] makes
    with the same secret, and returns exactly the signed plaintext; any other data,
    short data included, is refused. *)
Theorem velocity_signature secret data p :
  ValidateVelocityForwarding data secret = Some p ↔ data = signVelocityPayload p secret.
Proof. apply validate_signed. Qed.

(** The Velocity packet: both constructors build the same packet, the channel name
    behind its length followed by a payload that validates, and the validated
    plaintext determines the player: for user names without a NUL byte, equal
    plaintexts mean equal UUID, user name and address. *)
Theorem velocity_packet pkt d1 d2 :
  length (UUID d1) = 16%nat → length (UUID d2) = 16%nat →
  x00 ∉ Username d1 → x00 ∉ Username d2 →
  ∃ out plain, CreateVelocityForwardingPacket d1 = Ret out ∧ AppendVelocityForwarding pkt d1 = Ret out
    ∧ Data out = x14 :: VelocityChannel ++ signVelocityPayload plain (Secret d1)
    ∧ ValidateVelocityForwarding (drop 21 (Data out)) (Secret d1) = Some plain
    ∧ buildVelocityPlaintext d1 = Ret plain
    ∧ (buildVelocityPlaintext d2 = Ret plain →
       UUID d1 = UUID d2 ∧ Username d1 = Username d2 ∧ IP_String (IP d1) = IP_String (IP d2)).
Proof.
  intros Hu1 Hu2 Hn1 Hn2. eexists _, (velocity_layout d1).
  rewrite create_layout, !plaintext_layout. split_and!; [done|by apply create_layout|done| |done|].
  - by apply validate_signed.
  - intros [= E]. unfold velocity_layout in E.
    apply app_inj_1 in E as [Eu E]; [|congruence]. symmetry in E.
    destruct (nul_terminated (Username d1) (Username d2) _ _ Hn1 Hn2 E) as [En Er].
    split_and!; [congruence|done|]. rewrite !app_assoc in Er. apply app_inv_tail in Er.
    set (s1 := IP_String (IP d1)) in *. set (s2 := IP_String (IP d2)) in *.
    pose proof (FromBytes_varint (s32 (Z.of_nat (length s1))) s1 (swrap_range 32 eq_refl _)) as F1.
    pose proof (FromBytes_varint (s32 (Z.of_nat (length s2))) s2 (swrap_range 32 eq_refl _)) as F2.
    rewrite Er in F1. rewrite F1 in F2. congruence.
Qed.

Lemma velocity_packet_witness :
  let d := mkForwarding ForwardVelocity (replicate 16 x01) [x7f; x00; x00; x01] (str "Steve") [] (str "secret") in
  ∃ out plain, CreateVelocityForwardingPacket d = Ret out
    ∧ ValidateVelocityForwarding (drop 21 (Data out)) (str "secret") = Some plain.
Proof.
  intros d. destruct (velocity_packet (mkPacket 0 []) d d) as (out&plain&H1&_&_&H2&_);
    [done|done|by apply (bool_decide_unpack _)|by apply (bool_decide_unpack _)|].
  exists out, plain. split; [exact H1|exact H2].
Defined.

(** Modern forwarding round trip: what [AppendModernForwarding] puts behind the
    packet's data is parsed back to the same UUID and, for an IPv4 client, to the
    16-byte form of its address; the packet's own data stays in front of it. *)
Theorem modern_forwarding_roundtrip pkt data a b c d :
  length (UUID data) = 16%nat → IP data = [a; b; c; d] →
  ∃ out fd, AppendModernForwarding pkt data = Ret out ∧ ID out = ID pkt
    ∧ take (length (Data pkt)) (Data out) = Data pkt
    ∧ ParseModernForwarding (drop (length (Data pkt)) (Data out)) = Ret fd
    ∧ UUID fd = UUID data ∧ IP fd = replicate 10 x00 ++ [xff; xff; a; b; c; d].
Proof.
  intros Hu Hip. unfold AppendModernForwarding. rewrite Hip.
  set (s := IP_String [a; b; c; d]).
  assert (Hs : (length s ≤ 15)%nat).
  { change s with (v4_string [a; b; c; d]). unfold v4_string. cbn [fmap list_fmap join].
    assert (Hd : ∀ x, (length (dec (ubyte x)) ≤ 3)%nat) by (intros x; destruct x; simpl; lia).
    rewrite !length_app. pose proof (Hd a). pose proof (Hd b). pose proof (Hd c). pose proof (Hd d). simpl. lia. }
  assert (Hl : s32 (Z.of_nat (length s)) = Z.of_nat (length s)).
  { apply swrap_id; [done|]. unfold is_int. simpl. lia. }
  destruct (append_varint_spec (replicate MaxVarIntLen x00) (UUID data) (s32 (Z.of_nat (length s)))) as (b1&->&H1); [done|].
  cbn [mbind outcome_bind].
  destruct (append_varint_spec b1 ((UUID data ++ varint (s32 (Z.of_nat (length s)))) ++ s) 0) as (b2&->&H2); [done|].
  cbn [mbind outcome_bind]. eexists _, (mkForwarding ForwardNone (UUID data) (ParseIP s) [] [] []).
  split_and!; [done|done|by apply take_app_length| |done|by apply ParseIP_v4]. simpl Data.
  rewrite drop_app_length. unfold ParseModernForwarding. rewrite <- !app_assoc.
  rewrite (proj2 (Nat.ltb_ge _ _)) by (rewrite length_app; lia).
  rewrite take_app_length', drop_app_length' by done.
  rewrite FromBytes_varint by (by apply swrap_range). cbn [mbind outcome_bind]. rewrite Hl.
  rewrite (proj2 (Z.ltb_ge _ _)), (proj2 (Z.ltb_ge _ 0)) by (rewrite ?length_app; lia). cbn [orb].
  by rewrite Nat2Z.id, take_app_length.
Qed.

Lemma modern_forwarding_roundtrip_witness :
  let data := mkForwarding ForwardModern (replicate 16 x01) [x7f; x00; x00; x01] [] [] [] in
  ∃ out fd, AppendModernForwarding (mkPacket 2 [x41]) data = Ret out
    ∧ ParseModernForwarding (drop 1 (Data out)) = Ret fd ∧ UUID fd = replicate 16 x01.
Proof.
  intros data. destruct (modern_forwarding_roundtrip (mkPacket 2 [x41]) data x7f x00 x00 x01)
    as (out&fd&H1&_&_&H2&H3&_); [done|done|].
  exists out, fd. split_and!; [exact H1|exact H2|exact H3].
Defined.
