(* ===== verification/Socks5.v ===== *)
(** * The SOCKS5 client ([transport/socks5.go])

    The exchange with the proxy on an open connection.  The error values carry the
    message of the source without its arguments; [net.SplitHostPort], [strconv.Atoi]
    and [net.ParseIP] are modelled as the library defines them. *)

From S2P Require Export Auth.
#[local] Open Scope Z_scope.

(** ** The library functions *)

Fixpoint index_byte (c : byte) (s : list byte) : option nat :=
  match s with
  | [] => None
  | b :: s' => if decide (b = c) then Some O else S <$> index_byte c s'
  end.

Definition last_index_byte (c : byte) (s : list byte) : option nat :=
  (λ i, (length s - 1 - i)%nat) <$> index_byte c (reverse s).

Definition missingPort : error := ErrOther "missing port in address".
Definition tooManyColons : error := ErrOther "too many colons in address".

(** [net.SplitHostPort] *)
Definition SplitHostPort (hostport : list byte) : outcome (list byte * list byte) :=
  match last_index_byte x3a hostport with
  | None => Err missingPort
  | Some i =>
      '(host, j, k) ←
        (if decide (head hostport = Some x5b) then
           match index_byte x5d hostport with
           | None => Err (ErrOther "missing ']' in address")
           | Some e =>
               if (S e =? length hostport)%nat then Err missingPort
               else if (S e =? i)%nat then Ret (drop 1 (take e hostport), 1%nat, S e)
               else if decide (hostport !! S e = Some x3a) then Err tooManyColons else Err missingPort
           end
         else if decide (x3a ∈ take i hostport) then Err tooManyColons
         else Ret (take i hostport, 0%nat, 0%nat));
      if decide (x5b ∈ drop j hostport) then Err (ErrOther "unexpected '[' in address")
      else if decide (x5d ∈ drop k hostport) then Err (ErrOther "unexpected ']' in address")
      else Ret (host, drop (S i) hostport)
  end.

Fixpoint decimal (s : list byte) (acc : Z) : option Z :=
  match s with
  | [] => Some acc
  | c :: s' => let d := ubyte c - 48 in if (0 <=? d) && (d <=? 9) then decimal s' (acc * 10 + d) else None
  end.

(** [strconv.Atoi]: an optional sign and at least one digit, in the range of [int]. *)
Definition Atoi (s : list byte) : outcome Z :=
  let '(sign, ds) := match s with x2b :: s' => (1, s') | x2d :: s' => (-1, s') | _ => (1, s) end in
  match ds, decimal ds 0 with
  | _ :: _, Some n => if decide (- 2 ^ 63 ≤ sign * n < 2 ^ 63) then Ret (sign * n) else Err (ErrOther "value out of range")
  | _, _ => Err (ErrOther "invalid syntax")
  end.

Example split_examples :
  SplitHostPort (str "mc.example.org:25565") = Ret (str "mc.example.org", str "25565")
  ∧ SplitHostPort (str "[::1]:80") = Ret (str "::1", str "80") ∧ SplitHostPort (str "::1:80") = Err tooManyColons
  ∧ SplitHostPort (str "host") = Err missingPort ∧ SplitHostPort (str "[::1]") = Err missingPort
  ∧ Atoi (str "25565") = Ret 25565 ∧ Atoi (str "-1") = Ret (-1) ∧ Atoi (str "") = Err (ErrOther "invalid syntax").
Proof. by vm_compute. Qed.

(** ** The connection *)

Record Sock := mkSock { sk_in : Reader; sk_out : Writer; sk_closes : nat }.

(** [conn.Read(buf)] into a slice of [n] bytes: at once when it is empty. *)
Definition sock_Read (n : nat) : M Sock (list byte) :=
  if (n =? 0)%nat then mret [] else zoom sk_in (λ r c, mkSock r (sk_out c) (sk_closes c)) (Read n).

Definition sock_Write (bs : list byte) : M Sock (Z * option error) :=
  zoom sk_out (λ w c, mkSock (sk_in c) w (sk_closes c)) (Write bs).

Definition sock_Close : M Sock () := modify (λ c, mkSock (sk_in c) (sk_out c) (S (sk_closes c))).

(** [if _, err := conn.Write(bs); err != nil { return Errorf(msg) }] *)
Definition write_or (bs : list byte) (msg : string) : M Sock () :=
  '(_, err) ← sock_Write bs;
  match err with Some _ => fail (ErrOther msg) | None => mret () end.

(** [conn.Read(resp)] over the present bytes [resp], likewise: the bytes not read
    keep their value. *)
Definition read_or (resp : list byte) (msg : string) : M Sock (list byte) :=
  x ← attempt (sock_Read (length resp));
  match x with
  | inr _ => fail (ErrOther msg)
  | inl bs => mret (bs ++ drop (length bs) resp)
  end.

(** ** The client *)

Record SOCKS5Transport := mkSOCKS5 {
  ProxyAddr : list byte; Username : list byte; Password : list byte; DialTimeout : Z (* in nanoseconds *) }.

Definition NewSOCKS5Transport (proxyAddr : list byte) : SOCKS5Transport :=
  mkSOCKS5 proxyAddr [] [] (30 * 1000000000).

Definition socks5Version : byte := x05.
Definition socks5AuthNone : byte := x00.
Definition socks5AuthPassword : byte := x02.
Definition socks5CmdConnect : byte := x01.
Definition socks5AddrTypeIPv4 : byte := x01.
Definition socks5AddrTypeDomain : byte := x03.
Definition socks5AddrTypeIPv6 : byte := x04.

Definition byte_len (s : list byte) : byte := to_byte (Z.of_nat (length s)).

Definition auth_message (s : SOCKS5Transport) : list byte :=
  [x01; byte_len (Username s)] ++ Username s ++ [byte_len (Password s)] ++ Password s.

Definition passwordAuth (s : SOCKS5Transport) : M Sock () :=
  write_or (auth_message s) "socks5: auth write failed";;
  resp ← read_or (replicate 2 x00) "socks5: auth read failed";
  if decide (resp !!! 1%nat = x00) then mret () else fail (ErrOther "socks5: auth rejected").

Definition auth_methods (s : SOCKS5Transport) : list byte :=
  match Username s with
  | _ :: _ => [socks5Version; x02; socks5AuthNone; socks5AuthPassword]
  | [] => [socks5Version; x01; socks5AuthNone]
  end.

Definition handshake (s : SOCKS5Transport) : M Sock () :=
  write_or (auth_methods s) "socks5: handshake write failed";;
  resp ← read_or (replicate 2 x00) "socks5: handshake read failed";
  if decide (resp !!! 0%nat ≠ socks5Version) then fail (ErrOther "socks5: unsupported version")
  else if decide (resp !!! 1%nat = socks5AuthPassword) then passwordAuth s
  else if decide (resp !!! 1%nat ≠ socks5AuthNone) then fail (ErrOther "socks5: auth method not supported")
  else mret ().

(** The destination of the request, from the host. *)
Definition dst_addr (host : list byte) : list byte :=
  match ParseIP host with
  | [] => socks5AddrTypeDomain :: byte_len host :: host
  | ip => match To4 ip with
          | Some ip4 => socks5AddrTypeIPv4 :: ip4
          | None => socks5AddrTypeIPv6 :: ip
          end
  end.

Definition connect_message (host : list byte) (port : Z) : list byte :=
  [socks5Version; socks5CmdConnect; x00] ++ dst_addr host ++ be_put 2 port.

(** The buffer for the bound address: [resp[0] + 2] is a sum of bytes. *)
Definition bind_buffer (resp : list byte) : M Sock (list byte) :=
  if decide (resp !!! 3%nat = socks5AddrTypeIPv4) then mret (replicate 6 x00)
  else if decide (resp !!! 3%nat = socks5AddrTypeIPv6) then mret (replicate 18 x00)
  else if decide (resp !!! 3%nat = socks5AddrTypeDomain) then
    one ← read_or (take 1 resp) "socks5: read domain length failed";
    mret (replicate (Z.to_nat (uwrap 8 (ubyte (one !!! 0%nat) + 2))) x00)
  else fail (ErrOther "socks5: unknown address type").

Definition request (targetAddr : list byte) : M Sock () :=
  match SplitHostPort targetAddr with
  | Ret (host, portStr) =>
      match Atoi portStr with
      | Ret port =>
          write_or (connect_message host port) "socks5: request write failed";;
          resp ← read_or (replicate 4 x00) "socks5: request read failed";
          if decide (resp !!! 1%nat ≠ x00) then fail (ErrOther "socks5: request rejected")
          else
            buf ← bind_buffer resp;
            read_or buf "socks5: read bind address failed";;
            mret ()
      | _ => fail (ErrOther "socks5: invalid port")
      end
  | _ => fail (ErrOther "socks5: invalid target address")
  end.

(** [Dial] from the open connection to the proxy on. *)
Definition SOCKS5_Dial (s : SOCKS5Transport) (targetAddr : list byte) : M Sock () :=
  on_error (handshake s) sock_Close;;
  on_error (request targetAddr) sock_Close.

Definition SOCKS5_Listen : outcome () := Err (ErrOther "socks5: listen not supported").

(** ** Reference: the messages as the proxy reads them

    Decoders written from the layouts of RFC 1928 (sections 3 and 4) and RFC 1929
    (section 2). *)

(** VER = 5, NMETHODS, METHODS: the methods offered. *)
Definition rfc_greeting (m : list byte) : option (list byte) :=
  match m with
  | x05 :: n :: methods => if decide (Z.of_nat (length methods) = ubyte n) then Some methods else None
  | _ => None
  end.

(** VER = 1, ULEN, UNAME, PLEN, PASSWD: the name and the password. *)
Definition rfc_userpass (m : list byte) : option (list byte * list byte) :=
  match m with
  | x01 :: ulen :: rest =>
      let n := Z.to_nat (ubyte ulen) in
      match drop n rest with
      | plen :: passwd =>
          if decide (Z.of_nat (length passwd) = ubyte plen) then Some (take n rest, passwd) else None
      | [] => None
      end
  | _ => None
  end.

Inductive rfc_addr := RfcIPv4 (a : list byte) | RfcDomain (name : list byte) | RfcIPv6 (a : list byte).

(** The address and the bytes after it, by ATYP. *)
Definition rfc_address (atyp : byte) (rest : list byte) : option (rfc_addr * list byte) :=
  match atyp, rest with
  | x01, _ => Some (RfcIPv4 (take 4 rest), drop 4 rest)
  | x03, n :: rest => Some (RfcDomain (take (Z.to_nat (ubyte n)) rest), drop (Z.to_nat (ubyte n)) rest)
  | x04, _ => Some (RfcIPv6 (take 16 rest), drop 16 rest)
  | _, _ => None
  end.

(** VER = 5, CMD = CONNECT, RSV = 0, ATYP, DST.ADDR, DST.PORT in network order: the
    address and the port. *)
Definition rfc_connect (m : list byte) : option (rfc_addr * Z) :=
  match m with
  | x05 :: x01 :: x00 :: atyp :: rest =>
      match rfc_address atyp rest with
      | Some (a, [hi; lo]) => Some (a, 256 * ubyte hi + ubyte lo)
      | _ => None
      end
  | _ => None
  end.

(** The address that names [host]: the four bytes of an IPv4 literal (in [net.ParseIP]'s
    form they follow the IPv4-mapped prefix), the sixteen of an IPv6 literal, else the
    name itself. *)
Definition names (host : list byte) (a : rfc_addr) : Prop :=
  match a with
  | RfcIPv4 ip => length ip = 4%nat ∧ ParseIP host = replicate 10 x00 ++ [xff; xff] ++ ip
  | RfcIPv6 ip => length ip = 16%nat ∧ ParseIP host = ip ∧ take 12 ip ≠ replicate 10 x00 ++ [xff; xff]
  | RfcDomain name => ParseIP host = [] ∧ name = host
  end.

(** ** Reference: what the proxy answers *)

(** The next reads of a reader deliver the messages [ms] one by one, each whole. *)
Fixpoint whole (ms : list (list byte)) (r r' : Reader) : Prop :=
  match ms with
  | [] => r = r'
  | m :: ms' => ∃ r1, Read (length m) r = (Ret m, r1) ∧ whole ms' r1 r'
  end.

(** The answers to the greeting: no authentication, or a password and its acceptance. *)
Definition auth_reply (pw : bool) (v : byte) : list (list byte) :=
  if pw then [[x05; x02]; [v; x00]] else [[x05; x00]].

(** The answer to the request: success, with an address of one of the three kinds and
    a port; a domain name of at most 253 bytes. *)
Inductive bound_reply : list (list byte) → Prop :=
| br_v4 v r a : length a = 6%nat → bound_reply [[v; x00; r; x01]; a]
| br_v6 v r a : length a = 18%nat → bound_reply [[v; x00; r; x04]; a]
| br_domain v r n a : Z.of_nat (length a) = ubyte n + 2 → ubyte n ≤ 253 → bound_reply [[v; x00; r; x03]; [n]; a].

(** ** Lemmas *)

Definition sk_read (r : Reader) (c : Sock) : Sock := mkSock r (sk_out c) (sk_closes c).

Lemma write_or_ok bs msg c :
  wplan (sk_out c) = [] →
  write_or bs msg c = (Ret (), mkSock (sk_in c) (mkWriter (wlog (sk_out c) ++ [bs]) []) (sk_closes c)).
Proof. intros Hp. unfold write_or, sock_Write, zoom, mbind, M_bind, Write. by rewrite Hp. Qed.

Lemma write_or_total bs msg c :
  ∃ c', (write_or bs msg c = (Ret (), c') ∨ write_or bs msg c = (Err (ErrOther msg), c')) ∧ sk_closes c' = sk_closes c.
Proof.
  unfold write_or, sock_Write, zoom, mbind, M_bind, Write.
  destruct (wplan (sk_out c)) as [|[[k e]|] p]; eexists; (split; [by (left + right)|done]).
Qed.

Lemma read_or_whole m resp msg c r1 :
  m ≠ [] → length resp = length m → Read (length m) (sk_in c) = (Ret m, r1) → read_or resp msg c = (Ret m, sk_read r1 c).
Proof.
  intros Hne Hl Hr. unfold read_or. rewrite (bind_ret _ _ _ (inl m) (sk_read r1 c)).
  - rewrite drop_ge by lia. by rewrite app_nil_r.
  - unfold attempt, sock_Read. rewrite Hl. destruct m as [|b m]; [done|]. cbn [length Nat.eqb].
    unfold zoom. change (S (length m)) with (length (b :: m)). by rewrite Hr.
Qed.

Lemma read_or_total resp msg c :
  ∃ c', ((∃ l, read_or resp msg c = (Ret l, c')) ∨ read_or resp msg c = (Err (ErrOther msg), c')) ∧ sk_closes c' = sk_closes c.
Proof.
  unfold read_or, sock_Read. destruct (Nat.eqb_spec (length resp) 0).
  { eexists. split; [left; eexists; done|done]. }
  unfold mbind, M_bind, attempt, zoom, Read. destruct (chunks (sk_in c)) as [|ch cs]; eexists.
  - split; [by right|done].
  - split; [left; by eexists|done].
Qed.

Lemma bind_buffer_total resp c :
  ∃ c', ((∃ l, bind_buffer resp c = (Ret l, c')) ∨ ∃ e, bind_buffer resp c = (Err e, c')) ∧ sk_closes c' = sk_closes c.
Proof.
  unfold bind_buffer. repeat case_decide; try (exists c; split; [left; by eexists|done]); [|exists c; split; [right; by eexists|done]].
  destruct (read_or_total (take 1 resp) "socks5: read domain length failed" c) as (c'&[[l Hl]|Hl]&Hc).
  - rewrite (bind_ret _ _ _ _ _ Hl). eexists. split; [left; by eexists|done].
  - rewrite (bind_err _ _ _ _ _ Hl). eexists. split; [right; by eexists|done].
Qed.

(** [m] returns or fails, and closes nothing. *)
Definition tame {A} (m : M Sock A) : Prop := ∀ c, ∃ c',
  ((∃ a, m c = (Ret a, c')) ∨ ∃ e, m c = (Err e, c')) ∧ sk_closes c' = sk_closes c.

Lemma tame_bind {A B} (m : M Sock A) (k : A → M Sock B) : tame m → (∀ a, tame (k a)) → tame (m ≫= k).
Proof.
  intros Hm Hk c. destruct (Hm c) as (c1&[[a Ha]|[e He]]&H1).
  - rewrite (bind_ret _ _ _ _ _ Ha). destruct (Hk a c1) as (c2&H&H2). exists c2. split; [done|congruence].
  - rewrite (bind_err _ _ _ _ _ He). exists c1. split; [right; by exists e|done].
Qed.

Lemma tame_ret {A} (a : A) : tame (mret a).
Proof. intros c. exists c. split; [left; by exists a|done]. Qed.
Lemma tame_fail {A} e : tame (@fail Sock A e).
Proof. intros c. exists c. split; [right; by exists e|done]. Qed.
Lemma tame_write bs msg : tame (write_or bs msg).
Proof. intros c. destruct (write_or_total bs msg c) as (c'&[H|H]&?); exists c'; eauto. Qed.
Lemma tame_read resp msg : tame (read_or resp msg).
Proof. intros c. destruct (read_or_total resp msg c) as (c'&[[l H]|H]&?); exists c'; eauto. Qed.
Lemma tame_buffer resp : tame (bind_buffer resp).
Proof. intros c. apply bind_buffer_total. Qed.

Create HintDb tame.
#[export] Hint Resolve tame_ret tame_fail tame_write tame_read tame_buffer : tame.
#[export] Hint Extern 2 (tame (_ ≫= _)) => apply tame_bind; [|intros ?] : tame.
#[export] Hint Extern 3 (tame (if decide _ then _ else _)) => case_decide : tame.

Lemma handshake_tame s : tame (handshake s).
Proof. unfold handshake, passwordAuth. auto 12 with tame. Qed.

Lemma request_tame t : tame (request t).
Proof.
  unfold request. destruct (SplitHostPort t) as [[host ps]| | |]; [|auto with tame..].
  destruct (Atoi ps); auto 12 with tame.
Qed.

Lemma on_close_total {A} (m : M Sock A) c :
  tame m → ∃ c', (∃ a, on_error m sock_Close c = (Ret a, c') ∧ sk_closes c' = sk_closes c)
                 ∨ (∃ e, on_error m sock_Close c = (Err e, c') ∧ sk_closes c' = S (sk_closes c)).
Proof.
  intros Hm. destruct (Hm c) as (c1&[[a Ha]|[e He]]&H1).
  - exists c1. left. exists a. split; [|done]. by apply on_error_ret.
  - eexists. right. exists e. split; [by eapply on_error_err|]. simpl. by rewrite H1.
Qed.

Definition sk_sent (bs : list byte) (c : Sock) : Sock :=
  mkSock (sk_in c) (mkWriter (wlog (sk_out c) ++ [bs]) []) (sk_closes c).

Lemma passwordAuth_ok s v c r' :
  wplan (sk_out c) = [] → whole [[v; x00]] (sk_in c) r' → passwordAuth s c = (Ret (), sk_read r' (sk_sent (auth_message s) c)).
Proof.
  intros Hp (r1&Hr&<-). unfold passwordAuth. rewrite (bind_ret _ _ _ _ _ (write_or_ok _ _ c Hp)).
  by rewrite (bind_ret _ _ _ _ _ (read_or_whole [v; x00] (replicate 2 x00) _ (sk_sent (auth_message s) c) r1 ltac:(done) eq_refl Hr)).
Qed.

Lemma handshake_ok s pw v c r' :
  wplan (sk_out c) = [] → whole (auth_reply pw v) (sk_in c) r' →
  handshake s c = (Ret (), mkSock r' (mkWriter (wlog (sk_out c) ++ [auth_methods s] ++ (if pw then [auth_message s] else [])) [])
    (sk_closes c)).
Proof.
  intros Hp Hw. unfold handshake. rewrite (bind_ret _ _ _ _ _ (write_or_ok _ _ c Hp)).
  destruct pw; destruct Hw as (r1&Hr&Hw).
  - rewrite (bind_ret _ _ _ _ _ (read_or_whole [x05; x02] (replicate 2 x00) _ (sk_sent (auth_methods s) c) r1 ltac:(done) eq_refl Hr)).
    cbn -[passwordAuth app]. rewrite (passwordAuth_ok s v _ r') by done.
    unfold sk_read, sk_sent. simpl. by rewrite <- app_assoc.
  - destruct Hw. by rewrite (bind_ret _ _ _ _ _ (read_or_whole [x05; x00] (replicate 2 x00) _ (sk_sent (auth_methods s) c) r1 ltac:(done) eq_refl Hr)).
Qed.

Lemma bind_buffer_domain v r n c r1 :
  Read 1 (sk_in c) = (Ret [n], r1) →
  bind_buffer [v; x00; r; x03] c = (Ret (replicate (Z.to_nat (uwrap 8 (ubyte n + 2))) x00), sk_read r1 c).
Proof.
  intros Hr. change (bind_buffer [v; x00; r; x03]) with (read_or (take 1 [v; x00; r; x03]) "socks5: read domain length failed" ≫=
    (λ one, mret (replicate (Z.to_nat (uwrap 8 (ubyte (one !!! 0%nat) + 2))) x00))).
  by rewrite (bind_ret _ _ _ _ _ (read_or_whole [n] [v] _ c r1 ltac:(done) eq_refl Hr)).
Qed.

Lemma bind_buffer_ok v r k ms c r' :
  bound_reply ([v; x00; r; k] :: ms) → whole ms (sk_in c) r' →
  (buf ← bind_buffer [v; x00; r; k]; read_or buf "socks5: read bind address failed";; mret ()) c = (Ret (), sk_read r' c).
Proof.
  intros Hb Hw. inversion Hb as [? ? a Ha|? ? a Ha|? ? n a Ha Hn]; subst.
  - destruct Hw as (r1&Hr&<-). rewrite (bind_ret _ _ _ (replicate 6 x00) c) by done.
    by rewrite (bind_ret _ _ _ _ _ (read_or_whole a (replicate 6 x00) _ c r1 ltac:(by destruct a) (eq_sym Ha) Hr)).
  - destruct Hw as (r1&Hr&<-). rewrite (bind_ret _ _ _ (replicate 18 x00) c) by done.
    by rewrite (bind_ret _ _ _ _ _ (read_or_whole a (replicate 18 x00) _ c r1 ltac:(by destruct a) (eq_sym Ha) Hr)).
  - destruct Hw as (r1&Hr1&r2&Hr2&<-). pose proof (ubyte_range n). set (k := length a) in *.
    assert (Hk : Z.to_nat (uwrap 8 (ubyte n + 2)) = k) by (rewrite uwrap_id by (unfold is_uint; change (2 ^ 8) with 256; lia); lia).
    rewrite (bind_ret _ _ _ _ _ (bind_buffer_domain v r n c r1 Hr1)), Hk.
    by rewrite (bind_ret _ _ _ _ _ (read_or_whole a (replicate k x00) _ (sk_read r1 c) r2
      ltac:(destruct a; [simpl in *; lia|done]) ltac:(by rewrite length_replicate) Hr2)).
Qed.

(** *** The messages sent *)

Lemma v4_fields_length s : ∀ start val dl fields r,
  (length fields ≤ 3)%nat → v4_fields s start val dl fields = Some r → length r = 4%nat.
Proof.
  induction s as [|c s IH]; intros start val dl fields r Hl; cbn [v4_fields].
  - destruct (Nat.ltb_spec (length fields) 3); [done|]. intros [= <-]. rewrite length_app. simpl. lia.
  - cbv zeta. destruct (_ && _).
    { destruct (_ && _); [done|]. destruct (255 <? _); [done|]. by apply IH. }
    destruct (is_dot c); [|done]. destruct (_ || _) eqn:E; [done|].
    apply orb_false_iff in E as [_ ?%Nat.eqb_neq]. apply IH. rewrite length_app. simpl. lia.
Qed.

Lemma v6_loop_length fuel : ∀ s ip el s' ip' el',
  (length ip + 2 * fuel ≤ 16)%nat → v6_loop fuel s ip el = Some (s', ip', el') → (length ip' ≤ 16)%nat.
Proof.
  induction fuel as [|fuel IH]; intros s ip el s' ip' el' Hl; cbn [v6_loop].
  { intros [= <- <- <-]. lia. }
  destruct (hex_group s 0 0) as [[[acc off] rest]|]; [|done]. cbn [mbind option_bind].
  assert (Hb : length (ip ++ be_put 2 acc) = (length ip + 2)%nat) by (by rewrite length_app, length_be_put).
  destruct (off =? 0)%nat; [done|]. destruct rest as [|c r1]; [intros [= <- <- <-]; lia|].
  destruct (is_dot c).
  { destruct (_ || _) eqn:E; [done|]. apply orb_false_iff in E as [_ ?%Nat.ltb_ge].
    destruct (v4_fields s true 0 0 []) as [fs|] eqn:Ef; [|done]. cbn [mbind option_bind]. intros [= <- <- <-].
    apply v4_fields_length in Ef; [|simpl; lia]. rewrite length_app. lia. }
  destruct (negb _); [done|]. destruct r1 as [|c2 r2]; [done|]. destruct (is_colon c2).
  - destruct (bool_decide _); [done|]. destruct r2; [intros [= <- <- <-]; lia|]. apply IH. lia.
  - apply IH. lia.
Qed.

Lemma parse_v6_length s ip : parse_v6 s = Some ip → length ip = 16%nat.
Proof.
  unfold parse_v6. destruct (match s with x3a :: x3a :: s' => _ | _ => _ end) as [s1 el].
  destruct (_ && _); [by intros [= <-]|].
  destruct (v6_loop 8 s1 [] el) as [[[s2 ip2] el2]|] eqn:E; [|done]. cbn [mbind option_bind].
  apply v6_loop_length in E; [|simpl; lia]. destruct (negb _); [done|].
  destruct (Nat.ltb_spec (length ip2) 16).
  - destruct el2 as [e|]; [|done]. cbn [mbind option_bind]. intros [= <-].
    rewrite !length_app, length_replicate, length_take, length_drop. lia.
  - destruct (bool_decide _); [done|]. intros [= <-]. lia.
Qed.

Lemma ParseIP_length s : ParseIP s = [] ∨ length (ParseIP s) = 16%nat.
Proof.
  unfold ParseIP. repeat case_match; auto; right.
  - apply v4_fields_length in H1; [|simpl; lia]. rewrite !length_app. simpl. lia.
  - by eapply parse_v6_length.
Qed.

Lemma greeting_rfc s :
  rfc_greeting (auth_methods s) = Some (match Username s with [] => [x00] | _ => [x00; x02] end).
Proof. unfold auth_methods. by destruct (Username s). Qed.

Lemma ubyte_byte_len l : Z.of_nat (length l) ≤ 255 → ubyte (byte_len l) = Z.of_nat (length l).
Proof. intros. apply ubyte_to_byte_small. lia. Qed.

Lemma userpass_rfc s :
  Z.of_nat (length (Username s)) ≤ 255 → Z.of_nat (length (Password s)) ≤ 255 →
  rfc_userpass (auth_message s) = Some (Username s, Password s).
Proof.
  intros Hu Hp. unfold rfc_userpass, auth_message. cbn [app]. rewrite ubyte_byte_len, Nat2Z.id by done.
  rewrite drop_app_length, take_app_length, ubyte_byte_len by done. by rewrite decide_True.
Qed.

Lemma port_rfc port : 0 ≤ port < 65536 → ∃ hi lo, be_put 2 port = [hi; lo] ∧ 256 * ubyte hi + ubyte lo = port.
Proof.
  intros Hp. eexists _, _. split; [done|]. rewrite !ubyte_to_byte.
  change (8 * Z.of_nat 1) with 8. change (8 * Z.of_nat 0) with 0.
  rewrite Z.shiftr_0_r, Z.shiftr_div_pow2 by lia. change (2 ^ 8) with 256.
  rewrite (Z.mod_small (port / 256)); [|split; [apply Z.div_pos; lia|apply Z.div_lt_upper_bound; lia]].
  symmetry. apply Z.div_mod. lia.
Qed.

Lemma connect_rfc host port :
  Z.of_nat (length host) ≤ 255 → 0 ≤ port < 65536 →
  ∃ a, rfc_connect (connect_message host port) = Some (a, port) ∧ names host a.
Proof.
  intros Hh Hp. destruct (port_rfc port Hp) as (hi&lo&Hport&Hval).
  unfold connect_message. rewrite Hport. unfold dst_addr.
  destruct (ParseIP_length host) as [E|E]; [|destruct (ParseIP host) as [|b ip] eqn:Eip; [done|]; rewrite <- Eip in *; clear Eip b ip].
  - rewrite E. exists (RfcDomain host). split; [|done]. cbn [app rfc_connect]. unfold rfc_address.
    change socks5AddrTypeDomain with x03. cbv iota. rewrite ubyte_byte_len, Nat2Z.id by done.
    rewrite take_app_length, drop_app_length. by rewrite Hval.
  - unfold To4. rewrite E. cbn [Nat.eqb andb]. case_bool_decide as Hpre.
    + set (ip4 := drop 12 (ParseIP host)). assert (Hl : length ip4 = 4%nat) by (unfold ip4; rewrite length_drop; lia).
      exists (RfcIPv4 ip4). split.
      * cbn [app rfc_connect]. unfold rfc_address. change socks5AddrTypeIPv4 with x01. cbv iota.
        rewrite take_app_length' , drop_app_length' by lia. by rewrite Hval.
      * split; [done|]. rewrite app_assoc, <- Hpre. symmetry. apply take_drop.
    + exists (RfcIPv6 (ParseIP host)). split; [|done].
      cbn [app rfc_connect]. unfold rfc_address. change socks5AddrTypeIPv6 with x04. cbv iota.
      rewrite take_app_length' , drop_app_length' by lia. by rewrite Hval.
Qed.

Lemma request_ok target host ps port ms c r' :
  SplitHostPort target = Ret (host, ps) → Atoi ps = Ret port → wplan (sk_out c) = [] →
  bound_reply ms → whole ms (sk_in c) r' →
  request target c = (Ret (), sk_read r' (sk_sent (connect_message host port) c)).
Proof.
  intros Hs Ha Hp Hb Hw. unfold request. rewrite Hs, Ha, (bind_ret _ _ _ _ _ (write_or_ok _ _ c Hp)).
  assert (∃ v r k ms', ms = [v; x00; r; k] :: ms') as (v&r&k&ms'&->) by (destruct Hb; eauto).
  destruct Hw as (r1&Hr&Hw).
  rewrite (bind_ret _ _ _ _ _ (read_or_whole [v; x00; r; k] (replicate 4 x00) _ (sk_sent (connect_message host port) c) r1 ltac:(done) eq_refl Hr)).
  by apply (bind_buffer_ok v r k ms' (sk_read r1 (sk_sent (connect_message host port) c)) r').
Qed.

(** ** The properties of the component *)

(** C21. A successful exchange.  Against a proxy whose answers are those of RFC 1928 and
    1929, each arriving whole in the [Read] that asks for it and a bound domain name
    having at most 253 bytes, [Dial] returns without error and leaves the connection
    open at the first byte after the proxy's last answer.  It has sent, in this order
    and in one write each, a greeting that offers no authentication, and the password
    method exactly when there is a user name; when the proxy asks for it, a message
    with the user name and the password; and a connect request for the port and the
    address that names the host.  The messages are read by decoders of the RFCs'
    layouts; user name, password and host have at most 255 bytes and the port 16 bits. *)
Theorem socks5_connect s target host ps port pw v ms c r1 r' :
  SplitHostPort target = Ret (host, ps) → Atoi ps = Ret port → wplan (sk_out c) = [] →
  Z.of_nat (length (Username s)) ≤ 255 → Z.of_nat (length (Password s)) ≤ 255 →
  Z.of_nat (length host) ≤ 255 → 0 ≤ port < 65536 →
  whole (auth_reply pw v) (sk_in c) r1 → bound_reply ms → whole ms r1 r' →
  ∃ g u q a, SOCKS5_Dial s target c
    = (Ret (), mkSock r' (mkWriter (wlog (sk_out c) ++ [g] ++ (if pw then [u] else []) ++ [q]) []) (sk_closes c))
    ∧ rfc_greeting g = Some (match Username s with [] => [x00] | _ => [x00; x02] end)
    ∧ rfc_userpass u = Some (Username s, Password s)
    ∧ rfc_connect q = Some (a, port) ∧ names host a.
Proof.
  intros Hs Ha Hp Hu Hpw Hh Hport H1 Hb H2. destruct (connect_rfc host port Hh Hport) as (a&Hq&Hn).
  exists (auth_methods s), (auth_message s), (connect_message host port), a.
  split_and!; [|apply greeting_rfc|by apply userpass_rfc|done|done].
  unfold SOCKS5_Dial. rewrite (bind_ret _ _ _ _ _ (on_error_ret _ _ _ _ _ (handshake_ok s pw v c r1 Hp H1))).
  apply on_error_ret. rewrite (request_ok target host ps port ms _ r') by done.
  unfold sk_read, sk_sent. simpl. by rewrite <- !app_assoc.
Qed.

Lemma socks5_connect_witness :
  let s := mkSOCKS5 (str "proxy:1080") (str "joe") (str "pw") 0 in
  let answers := [[x05; x02]; [x01; x00]; [x05; x00; x00; x03; x02; x6d; x63; x63; xdd; x41]] in
  let c := mkSock (mkReader answers EOF true) (mkWriter [] []) 0 in
  ∃ g u q a, SOCKS5_Dial s (str "192.168.0.10:25565") c = (Ret (), mkSock (mkReader [[x41]] EOF true) (mkWriter [g; u; q] []) 0)
    ∧ rfc_userpass u = Some (str "joe", str "pw") ∧ rfc_connect q = Some (a, 25565) ∧ names (str "192.168.0.10") a.
Proof.
  intros s answers c.
  destruct (socks5_connect s (str "192.168.0.10:25565") (str "192.168.0.10") (str "25565") 25565 true x01
    [[x05; x00; x00; x03]; [x02]; [x6d; x63; x63; xdd]] c
    (mkReader [[x05; x00; x00; x03; x02; x6d; x63; x63; xdd; x41]] EOF true) (mkReader [[x41]] EOF true)
    ltac:(by vm_compute) ltac:(by vm_compute) eq_refl ltac:(by vm_compute) ltac:(by vm_compute) ltac:(by vm_compute) ltac:(lia)
    ltac:(eexists; split; [done|]; eexists; split; done)
    (br_domain x05 x00 x02 [x6d; x63; x63; xdd] eq_refl ltac:(by vm_compute))
    ltac:(eexists; split; [done|]; eexists; split; [done|]; eexists; split; done))
    as (g&u&q&a&H1&_&H2&H3&H4).
  exists g, u, q, a. split_and!; [exact H1|exact H2|exact H3|exact H4].
Defined.

(** [Dial] on any proxy, hostile or broken: it returns or fails, never panics, and it
    closes the connection once when, and only when, it fails. *)
Theorem socks5_total s target c :
  ∃ c', (SOCKS5_Dial s target c = (Ret (), c') ∧ sk_closes c' = sk_closes c)
        ∨ ∃ e, SOCKS5_Dial s target c = (Err e, c') ∧ sk_closes c' = S (sk_closes c).
Proof.
  unfold SOCKS5_Dial. destruct (on_close_total _ c (handshake_tame s)) as (c1&[([]&H1&E1)|(e&H1&E1)]).
  - rewrite (bind_ret _ _ _ _ _ H1). destruct (on_close_total _ c1 (request_tame target)) as (c2&[([]&H2&E2)|(e&H2&E2)]).
    + exists c2. left. split; [done|congruence].
    + exists c2. right. exists e. split; [done|congruence].
  - rewrite (bind_err _ _ _ _ _ H1). exists c1. right. by exists e.
Qed.

(** Answers that arrive in pieces are misread: when only the version byte of the
    answer to the greeting has arrived, the method is taken to be 0, no
    authentication, whatever the proxy chose, refusal included, and its byte stays
    in the connection. *)
Theorem socks5_short_read s method rest e c :
  wplan (sk_out c) = [] → sk_in c = mkReader ([socks5Version] :: [method] :: rest) e true →
  ∃ w, handshake s c = (Ret (), mkSock (mkReader ([method] :: rest) e true) w (sk_closes c)).
Proof.
  intros Hp Hr. eexists. unfold handshake. rewrite (bind_ret _ _ _ _ _ (write_or_ok _ _ c Hp)).
  rewrite (bind_ret _ _ _ [x05; x00] (sk_read (mkReader ([method] :: rest) e true) (sk_sent (auth_methods s) c))); [done|].
  unfold read_or, sock_Read, sk_sent, mbind, M_bind, attempt, zoom. cbn [length replicate Nat.eqb sk_in]. by rewrite Hr.
Qed.

Lemma socks5_short_read_witness :
  ∃ w, handshake (NewSOCKS5Transport []) (mkSock (mkReader [[x05]; [xff]] EOF true) (mkWriter [] []) 0)
       = (Ret (), mkSock (mkReader [[xff]] EOF true) w 0).
Proof. exact (socks5_short_read (NewSOCKS5Transport []) xff [] EOF (mkSock (mkReader [[x05]; [xff]] EOF true) (mkWriter [] []) 0) eq_refl eq_refl). Defined.

(** A bound domain name of 254 or 255 bytes: the size of the buffer, a sum of bytes,
    wraps around to 0 or 1, and the rest of the answer is left in the connection as
    if the target had sent it. *)
Theorem socks5_domain_wraps v r n a c e :
  254 ≤ ubyte n → Z.of_nat (length a) = ubyte n + 2 →
  sk_in c = mkReader [n :: a] e true →
  (buf ← bind_buffer [v; x00; r; x03]; read_or buf "socks5: read bind address failed";; mret ()) c
  = (Ret (), sk_read (mkReader [drop (Z.to_nat (ubyte n - 254)) a] e true) c).
Proof.
  intros Hn Ha Hc. pose proof (ubyte_range n). assert (Hu : uwrap 8 (ubyte n + 2) = ubyte n - 254).
  { unfold uwrap. change (2 ^ 8) with 256. symmetry. apply (Z.mod_unique_pos _ _ 1); lia. }
  assert (256 ≤ length a)%nat as Hl by lia. destruct a as [|a0 [|a1 a]]; [simpl in Hl; lia..|].
  pose proof (bind_buffer_domain v r n c (mkReader [a0 :: a1 :: a] e true) ltac:(by rewrite Hc)) as E. rewrite Hu in E.
  rewrite (bind_ret _ _ _ _ _ E).
  assert (Hcase : ubyte n - 254 = 0 ∨ ubyte n - 254 = 1) by lia. destruct Hcase as [-> | ->]; done.
Qed.
