(* ===== verification/Proxy.v ===== *)
(** * The proxy ([proxy/proxy.go], the wrapper of [tunnel/dialer.go] and [tunnel/listener.go])

    What the proxy does with one accepted connection: read the handshake, call the
    handler with its fields, close the connection.  The accept loop, which starts a
    goroutine per connection, is in [ProxyServer.v]. *)

From S2P Require Export Socks5.
#[local] Open Scope Z_scope.

(** ** Connections *)

(** [MineConnWrapper]: a packet reader and a packet writer without compression on a
    connection. [Accept] and [DialMinecraft] build it the same way. *)
Record MineConnWrapper := mkWrapper {
  mw_world : World;
  Reader_ : PacketReader;
  Writer_ : PacketWriter;
  mw_closes : nat;
}.

Definition wrap_conn (w : World) : MineConnWrapper := mkWrapper w (NewPacketReader (-1)) (NewPacketWriter (-1)) 0.

Definition on_mw {A} : M World A → M MineConnWrapper A :=
  zoom mw_world (λ w c, mkWrapper w (Reader_ c) (Writer_ c) (mw_closes c)).

Definition mw_ReadRawPacket : M MineConnWrapper RawPacket := on_mw ReadRawPacket.

Definition mw_Close (c : MineConnWrapper) : MineConnWrapper :=
  mkWrapper (mw_world c) (Reader_ c) (Writer_ c) (S (mw_closes c)).

(** ** [itoa] *)

(** [fuel] is the room left in the array of 20 bytes. *)
Fixpoint itoa_loop (fuel : nat) (n : Z) (acc : list byte) : outcome (list byte) :=
  if 0 <? n then
    match fuel with
    | O => Panic IndexOutOfRange
    | S fuel' => itoa_loop fuel' (Z.quot n 10) (to_byte (48 + Z.rem n 10) :: acc)
    end
  else Ret acc.

Definition itoa (n : Z) : outcome (list byte) := if n =? 0 then Ret [x30] else itoa_loop 20 n [].

(** ** The handler *)

Record HandlerContext := mkContext { Host : list byte; Port : Z; State : Z }.

(** The address [defaultHandler] dials. *)
Definition dial_target (hc : HandlerContext) : outcome (list byte) :=
  p ← itoa (Port hc); Ret (Host hc ++ [x3a] ++ p).

Section proxy.
Context `{Zlib}.
Variable handler : HandlerContext → M MineConnWrapper ().

Definition handle_packets : M MineConnWrapper () :=
  c ← get;
  x ← attempt (on_mw (ReadPacket (pr_threshold (Reader_ c))));
  match x with
  | inr _ => mret ()
  | inl pkt =>
      match ParseHandshake pkt with
      | Ret (host, port, state) => handler (mkContext host port state)
      | Err _ => mret ()
      | Panic p => crash p
      | Block => block
      end
  end.

(** The deferred [Close] runs however the body ends. *)
Definition handleClient : M MineConnWrapper () := λ c,
  let '(o, c') := handle_packets c in (o, match o with Block => c' | _ => mw_Close c' end).
End proxy.

(** ** Lemmas *)

Lemma decimal_app a b : ∀ acc, decimal (a ++ b) acc = (decimal a acc ≫= decimal b).
Proof. induction a as [|c a IH]; intros acc; [done|]. cbn [app decimal]. case_match; [apply IH|done]. Qed.

Lemma digit_decimal d acc : 0 ≤ d < 10 → decimal [to_byte (48 + d)] acc = Some (acc * 10 + d).
Proof.
  intros Hd. cbn [decimal]. rewrite ubyte_to_byte_small by lia.
  replace (48 + d - 48) with d by lia. by rewrite (proj2 (Z.leb_le 0 d)), (proj2 (Z.leb_le d 9)) by lia.
Qed.

(** Digits only, and no leading zero. *)
Definition plain (ds : list byte) : Prop := Forall (λ b, 48 ≤ ubyte b ≤ 57) ds ∧ ∀ b ds', ds = b :: ds' → b ≠ x30.

Lemma itoa_loop_spec fuel : ∀ n acc,
  0 < n < 10 ^ Z.of_nat fuel →
  ∃ ds, itoa_loop fuel n acc = Ret (ds ++ acc) ∧ decimal ds 0 = Some n ∧ plain ds ∧ ds ≠ [].
Proof.
  unfold plain. induction fuel as [|fuel IH]; intros n acc Hn; [simpl in Hn; lia|].
  cbn [itoa_loop]. rewrite (proj2 (Z.ltb_lt 0 n)) by lia. rewrite Z.quot_div_nonneg, Z.rem_mod_nonneg by lia.
  pose proof (Z.mod_pos_bound n 10 ltac:(lia)) as Hm. pose proof (Z.div_mod n 10 ltac:(lia)) as Hdm.
  set (b := to_byte (48 + n mod 10)). assert (Hb : ubyte b = 48 + n mod 10) by (apply ubyte_to_byte_small; lia).
  destruct (Z.eq_dec (n / 10) 0) as [E|E].
  - exists [b]. rewrite E. split_and!; [by destruct fuel| | | |done].
    + unfold b. rewrite digit_decimal by lia. f_equal. lia.
    + constructor; [rewrite Hb; lia|constructor].
    + intros b' ds' [= <- <-] Hx. rewrite Hx in Hb. change (ubyte x30) with 48 in Hb. lia.
  - rewrite Nat2Z.inj_succ, Z.pow_succ_r in Hn by lia.
    destruct (IH (n / 10) (b :: acc)) as (ds&H1&H2&[H3 H4]&H5).
    { split; [pose proof (Z.div_pos n 10); lia|]. apply Z.div_lt_upper_bound; lia. }
    exists (ds ++ [b]). split_and!.
    + by rewrite H1, <- app_assoc.
    + rewrite decimal_app, H2. cbn [mbind option_bind]. unfold b. rewrite digit_decimal by lia. f_equal. lia.
    + apply Forall_app. split; [done|]. constructor; [rewrite Hb; lia|constructor].
    + intros b' ds' Hc. destruct ds as [|d ds]; [done|]. injection Hc as -> _. by apply (H4 b' ds).
    + by destruct ds.
Qed.

Lemma itoa_spec n :
  0 ≤ n < 2 ^ 63 → ∃ ds, itoa n = Ret ds ∧ Atoi ds = Ret n ∧ Forall (λ b, 48 ≤ ubyte b ≤ 57) ds.
Proof.
  intros Hn. unfold itoa. destruct (Z.eqb_spec n 0) as [->|H0].
  { exists [x30]. split_and!; [done|done|]. constructor; [by vm_compute|constructor]. }
  destruct (itoa_loop_spec 20 n []) as (ds&H1&H2&[H3 _]&H4); [split; [lia|]; assert (2 ^ 63 < 10 ^ 20) by done; simpl Z.of_nat; lia|].
  rewrite app_nil_r in H1. exists ds. split_and!; [done| |done]. unfold Atoi.
  destruct ds as [|b ds]; [done|]. pose proof (Forall_inv H3) as Hb. simpl in Hb.
  assert (match b :: ds with x2b :: s' => (1, s') | x2d :: s' => (-1, s') | _ => (1, b :: ds) end = (1, b :: ds)) as ->
    by (destruct b; try done; exfalso; vm_compute in Hb; lia).
  rewrite H2, Z.mul_1_l. by rewrite decide_True by lia.
Qed.

Lemma index_byte_app c l r : c ∉ l → index_byte c (l ++ c :: r) = Some (length l).
Proof.
  induction l as [|b l IH]; intros Hn; cbn [app index_byte length]; [by rewrite decide_True|].
  apply not_elem_of_cons in Hn as [? ?]. by rewrite decide_False, IH.
Qed.

Lemma last_colon host ds : x3a ∉ ds → last_index_byte x3a (host ++ [x3a] ++ ds) = Some (length host).
Proof.
  intros Hn. unfold last_index_byte. cbn [app]. rewrite reverse_app, reverse_cons, <- app_assoc. cbn [app].
  rewrite index_byte_app by (by rewrite elem_of_reverse). cbn. f_equal. rewrite length_reverse, length_app. simpl. lia.
Qed.

Lemma digits_no (ds : list byte) c : Forall (λ b, 48 ≤ ubyte b ≤ 57) ds → ¬ 48 ≤ ubyte c ≤ 57 → c ∉ ds.
Proof. intros Hd Hc Hin. rewrite Forall_forall in Hd. by apply Hc, Hd. Qed.

Lemma plain_reader_returns `{Zlib} e inp : ¬ hostile (-1) inp ∧ (∀ p, (parse_packet (-1) e inp).1 ≠ Panic p) ∧ (parse_packet (-1) e inp).1 ≠ Block.
Proof.
  assert (Hh : ¬ hostile (-1) inp) by (intros [? _]; lia). pose proof (parse_packet_cases (-1) e inp) as Hp.
  split; [done|]. destruct (parse_packet (-1) e inp).1; done.
Qed.

(** ** The properties of the component *)

(** C19. One client connection: the proxy takes one packet off the connection, as the
    reference parser of uncompressed frames reads it; when it is a packet that parses
    as a handshake, the handler runs once, with host, port and state of the
    handshake and the connection positioned behind the packet; in every other case
    no handler runs and the proxy returns. The connection is closed once, also
    when the handler panics. *)
Theorem client_handled `{Zlib} (handler : HandlerContext → M MineConnWrapper ()) w :
  pool_wf (wpool w) →
  let parsed := parse_packet (-1) (rend (wsrc w)) (rflat (wsrc w)) in
  ∃ c, wsrc (mw_world c) ≡ rest_of (wsrc w) parsed.2 ∧ wdst (mw_world c) = wdst w ∧ pool_wf (wpool (mw_world c)) ∧ mw_closes c = O
  ∧ handleClient handler (wrap_conn w) =
      match mbind (M := outcome) ParseHandshake parsed.1 with
      | Ret (host, port, state) =>
          let '(o, c') := handler (mkContext host port state) c in
          (o, match o with Block => c' | _ => mw_Close c' end)
      | _ => (Ret (), mw_Close c)
      end.
Proof.
  intros Hw parsed. destruct (ReadPacket_refines (-1) w Hw) as (o&w'&Hr&Ho&Hs&Hd&Hp&_). fold parsed in Ho, Hs.
  destruct (plain_reader_returns (rend (wsrc w)) (rflat (wsrc w))) as (_&Hnp&Hnb). fold parsed in Hnp, Hnb.
  exists (mkWrapper w' (NewPacketReader (-1)) (NewPacketWriter (-1)) 0). split_and!; [done|done|done|done|].
  assert (E : o = parsed.1) by (destruct o, parsed.1; try done; by destruct (Hnp p0)). rewrite <- E in *.
  unfold handleClient, handle_packets. rewrite get_bind. set (c := mkWrapper w' _ _ _).
  assert (Hz : on_mw (ReadPacket (-1)) (wrap_conn w) = (o, c)) by (unfold on_mw, zoom; cbn; by rewrite Hr).
  destruct o as [pkt|e|p|]; [| |by destruct (Hnp p)|done].
  - rewrite (bind_ret _ _ _ (inl pkt) c) by (unfold attempt; cbn [pr_threshold Reader_ wrap_conn NewPacketReader]; by rewrite Hz).
    cbn [mbind outcome_bind]. destruct (ParseHandshake_cases pkt) as [([[host port] ns]&->)|[-> | ->]]; done.
  - rewrite (bind_ret _ _ _ (inr e) c) by (unfold attempt; cbn [pr_threshold Reader_ wrap_conn NewPacketReader]; by rewrite Hz).
    done.
Qed.

Lemma client_handled_witness :
  let Z0 := stored_zlib in
  let w := demo_world [[x09; x00; x2f]; [x02; x6d; x63; x63; xdd; x02; x41]] in
  let seen hc : M MineConnWrapper () := fail (ErrOther (if decide (Host hc = [x6d; x63] ∧ Port hc = 25565 ∧ State hc = 2) then "yes" else "no")) in
  pool_wf (wpool w) ∧ (handleClient seen (wrap_conn w)).1 = Err (ErrOther "yes").
Proof.
  intros Z0 w seen. split; [exact (demo_world_wf _)|].
  destruct (client_handled (H := Z0) seen w (demo_world_wf _)) as (c&_&_&_&_&E). rewrite E. vm_compute. reflexivity.
Defined.

(** The address the default handler dials: [itoa] of a port is its decimal notation,
    and for a host without colon and brackets [net.SplitHostPort] and [strconv.Atoi]
    take the address apart into the same host and port, as the SOCKS5 dialer does;
    an IPv6 literal makes an address they refuse. *)
Theorem dial_target_splits host port st :
  is_uint 16 port →
  ∃ target ps, dial_target (mkContext host port st) = Ret target ∧ Atoi ps = Ret port
    ∧ (x3a ∉ host → x5b ∉ host → x5d ∉ host → SplitHostPort target = Ret (host, ps))
    ∧ (x3a ∈ host → head host ≠ Some x5b → SplitHostPort target = Err tooManyColons).
Proof.
  intros Hp. assert (2 ^ 16 < 2 ^ 63) by done. destruct (itoa_spec port) as (ps&Hi&Ha&Hd); [unfold is_uint in Hp; lia|].
  assert (Hno : ∀ c, ¬ 48 ≤ ubyte c ≤ 57 → c ∉ ps) by (intros; by apply digits_no).
  assert (N1 : x3a ∉ ps) by (by apply Hno; vm_compute; intros []). assert (N2 : x5b ∉ ps) by (by apply Hno; vm_compute; intros []).
  assert (N3 : x5d ∉ ps) by (by apply Hno; vm_compute; intros []).
  exists (host ++ [x3a] ++ ps), ps. unfold dial_target. cbn [Port Host]. rewrite Hi. split_and!; [done|done| |].
  all: unfold SplitHostPort; rewrite last_colon by done; rewrite take_app_length.
  - intros H1 H2 H3. rewrite decide_False by (destruct host as [|b host]; [done|]; intros [= ->]; by apply H2; left).
    rewrite decide_False by done. cbn [mbind outcome_bind]. rewrite !drop_0.
    rewrite !decide_False by (rewrite elem_of_app, elem_of_app; intros [?|[?%list_elem_of_singleton|?]]; done).
    by rewrite app_assoc, (drop_app_exact (host ++ [x3a])) by (rewrite length_app; simpl; lia).
  - intros H1 H2. rewrite decide_False by (by destruct host). by rewrite decide_True.
Qed.

Lemma dial_target_splits_witness :
  ∃ target ps, dial_target (mkContext (str "mc.example.org") 25565 2) = Ret target
    ∧ SplitHostPort target = Ret (str "mc.example.org", ps) ∧ Atoi ps = Ret 25565.
Proof.
  destruct (dial_target_splits (str "mc.example.org") 25565 2) as (target&ps&H1&H2&H3&_); [by vm_compute|].
  exists target, ps. split; [exact H1|]. split; [|exact H2].
  apply H3; apply (bool_decide_eq_true_1 _); vm_compute; reflexivity.
Defined.
