(* ===== verification/Priority.v ===== *)
(** * The priority queue ([conn/priority.go])

    The queue with its mutex and its notification channel: an operation that
    needs the mutex blocks while it is held, and [PopBlock] blocks on the empty
    channel, so that a deadlock is a state from which nothing returns. *)

From S2P Require Export Packet.
#[local] Open Scope Z_scope.

Definition Urgent : Z := 0.
Definition Normal : Z := 1.
Definition Low : Z := 2.

Record PriorityItem := mkItem { item_data : Packet; priority : Z; item_size : Z }.

Record PriorityQueue := mkPQ {
  levels : list (list PriorityItem);
  pq_cap : list Z;
  locked : bool;        (* [mu] *)
  notify : nat;         (* tokens in the channel, of capacity 1 *)
  pq_closed : bool;     (* [closed], and [notify] closed *)
}.

Definition NewPriorityQueue (n : Z) : outcome PriorityQueue :=
  if n <? 0 then Panic MakeSliceLen
  else Ret (mkPQ (replicate (Z.to_nat n) []) (replicate (Z.to_nat n) 256) false 0 false).

Definition set_locked (b : bool) (q : PriorityQueue) : PriorityQueue :=
  mkPQ (levels q) (pq_cap q) b (notify q) (pq_closed q).
Definition set_levels (ls : list (list PriorityItem)) (q : PriorityQueue) : PriorityQueue :=
  mkPQ ls (pq_cap q) (locked q) (notify q) (pq_closed q).
Definition set_notify (n : nat) (q : PriorityQueue) : PriorityQueue :=
  mkPQ (levels q) (pq_cap q) (locked q) n (pq_closed q).

Definition lock : M PriorityQueue () := λ q,
  if locked q then (Block, q) else (Ret (), set_locked true q).
Definition unlock : M PriorityQueue () := modify (set_locked false).

(** [mu.Lock(); defer mu.Unlock(); m]: the mutex is given back on every exit. *)
Definition unlocking {A} (m : M PriorityQueue A) : M PriorityQueue A := λ q,
  match m q with
  | (Block, q') => (Block, q')
  | (o, q') => (o, set_locked false q')
  end.
Definition with_lock {A} (m : M PriorityQueue A) : M PriorityQueue A := lock;; unlocking m.

Definition Push (item : PriorityItem) : M PriorityQueue () := with_lock (
  q ← get;
  if pq_closed q then fail ErrConnectionClosed
  else
    let level := priority item in
    let level := if Z.of_nat (length (levels q)) <=? level then Z.of_nat (length (levels q)) - 1 else level in
    if level <? 0 then crash IndexOutOfRange
    else
      put (set_levels (alter (λ l, l ++ [item]) (Z.to_nat level) (levels q)) q);;
      modify (λ q, if (notify q <? 1)%nat then set_notify 1 q else q)).

(** The first item of the first level that has one, and the levels without it. *)
Fixpoint take_first (ls : list (list PriorityItem)) : option (PriorityItem * list (list PriorityItem)) :=
  match ls with
  | [] => None
  | [] :: ls' => '(i, ls'') ← take_first ls'; Some (i, [] :: ls'')
  | (i :: l) :: ls' => Some (i, l :: ls')
  end.

Definition all_empty (ls : list (list PriorityItem)) : bool :=
  forallb (λ l, (length l =? 0)%nat) ls.

Definition Pop : M PriorityQueue PriorityItem := with_lock (
  q ← get;
  if pq_closed q && all_empty (levels q) then fail ErrConnectionClosed
  else match take_first (levels q) with
       | Some (i, ls) => put (set_levels ls q);; mret i
       | None => fail ErrQueueEmpty
       end).

Definition PQ_Len : M PriorityQueue nat := with_lock (
  q ← get; mret (list_sum (length <$> levels q))).

(** [<-pq.notify] *)
Definition wait_notify : M PriorityQueue () := λ q,
  if (0 <? notify q)%nat then (Ret (), set_notify 0 q)
  else if pq_closed q then (Ret (), q)
  else (Block, q).

(** The loop of [PopBlock]; without help from another goroutine at most two turns. *)
Fixpoint PopBlock_loop (fuel : nat) : M PriorityQueue PriorityItem :=
  match fuel with
  | O => block
  | S fuel' =>
      lock;;
      q ← get;
      n ← (if pq_closed q then PQ_Len else mret 1%nat);
      if pq_closed q && (n =? 0)%nat then unlock;; fail ErrConnectionClosed
      else match take_first (levels q) with
           | Some (i, ls) => put (set_levels ls q);; unlock;; mret i
           | None => unlock;; wait_notify;; PopBlock_loop fuel'
           end
  end.

Definition PopBlock : M PriorityQueue PriorityItem := PopBlock_loop 2.

Definition PQ_Close : M PriorityQueue () := with_lock (
  q ← get;
  put (mkPQ (levels q) (pq_cap q) (locked q) (notify q) true);;
  if pq_closed q then crash ClosedChannel else mret ()).

(** ** Operations in sequence *)

Inductive pq_op := OpPush (i : PriorityItem) | OpPop.

(** Runs the operations; [Some i] is a successful [Pop], [None] a refused one. *)
Fixpoint run_pq (ops : list pq_op) : M PriorityQueue (list (option PriorityItem)) :=
  match ops with
  | [] => mret []
  | OpPush i :: ops' => Push i;; run_pq ops'
  | OpPop :: ops' =>
      x ← attempt Pop;
      rs ← run_pq ops';
      mret (match x with inl i => Some i | inr _ => None end :: rs)
  end.

(** The level an item belongs to in a queue of [n] levels. *)
Definition level_of (n : nat) (i : PriorityItem) : nat := Z.to_nat (Z.min (priority i) (Z.of_nat n - 1)).

Definition pushed (ops : list pq_op) : list PriorityItem :=
  omap (λ op, match op with OpPush i => Some i | OpPop => None end) ops.

Definition at_level (n k : nat) (items : list PriorityItem) : list PriorityItem :=
  filter (λ i, level_of n i = k) items.

(** Usable: unlocked, at least one level, not closed. *)
Definition pq_ready (n : nat) (q : PriorityQueue) : Prop :=
  locked q = false ∧ pq_closed q = false ∧ length (levels q) = n ∧ (0 < n)%nat.

(** ** Lemmas *)

Lemma Push_ready n i q :
  pq_ready n q → 0 ≤ priority i →
  ∃ q', Push i q = (Ret (), q') ∧ pq_ready n q'
    ∧ levels q' = alter (λ l, l ++ [i]) (level_of n i) (levels q).
Proof.
  intros (Hl&Hc&Hn&H0) Hi. unfold Push, with_lock, unlocking, mbind, M_bind, lock. rewrite Hl. cbn.
  rewrite Hc. cbn. rewrite Hn.
  set (lv := if _ <=? _ then _ else _).
  assert (Hlv : Z.to_nat lv = level_of n i ∧ 0 ≤ lv).
  { unfold lv, level_of. destruct (Z.leb_spec (Z.of_nat n) (priority i)).
    - rewrite Z.min_r by lia. lia.
    - rewrite Z.min_l by lia. lia. }
  destruct Hlv as [Hlv ?]. rewrite (proj2 (Z.ltb_ge lv 0)) by done. rewrite Hlv.
  unfold modify. cbn. destruct (notify q); cbn; eexists; (split; [done|]); split; try done;
    split_and!; try done; cbn; by rewrite length_alter.
Qed.

Lemma take_first_spec ls :
  match take_first ls with
  | Some (i, ls') => ∃ k l, ls !! k = Some (i :: l) ∧ ls' = <[k := l]> ls
      ∧ ∀ j, (j < k)%nat → ls !! j = Some []
  | None => ∀ j l, ls !! j = Some l → l = []
  end.
Proof.
  induction ls as [|[|i l] ls IH]; cbn [take_first].
  - done.
  - destruct (take_first ls) as [[i ls']|]; cbn.
    + destruct IH as (k&l&Hk&->&Hj). exists (S k), l. split_and!; [done|done|].
      intros [|j] Hlt; [done|]. apply Hj. lia.
    + intros [|j] l; [by intros [= <-]|]. apply IH.
  - exists O, l. split_and!; [done|done|lia].
Qed.

Lemma Pop_ready n q :
  pq_ready n q →
  match take_first (levels q) with
  | Some (i, ls) => Pop q = (Ret i, set_levels ls q)
  | None => Pop q = (Err ErrQueueEmpty, q)
  end.
Proof.
  intros (Hl&Hc&_). destruct q as [ls cap lk nf cl]. simpl in *. subst.
  unfold Pop, with_lock, unlocking, mbind, M_bind, lock. cbn.
  by destruct (take_first ls) as [[i ls']|].
Qed.

(** Every item lies in the level of its priority. *)
Definition pq_sorted (n : nat) (q : PriorityQueue) : Prop :=
  ∀ k l, levels q !! k = Some l → Forall (λ i, level_of n i = k) l.

Lemma level_of_lt n i : (0 < n)%nat → (level_of n i < n)%nat.
Proof. unfold level_of. lia. Qed.

Lemma alter_level (ls : list (list PriorityItem)) f m k l :
  alter f m ls !! k = Some l → ∃ l0, ls !! k = Some l0 ∧ l = if decide (k = m) then f l0 else l0.
Proof.
  destruct (decide (k = m)) as [->|Hne].
  - rewrite list_lookup_alter_eq. destruct (ls !! m) as [l0|]; [|done]. intros [= <-]. by exists l0.
  - rewrite list_lookup_alter_ne by done. intros ->. by exists l.
Qed.

Lemma at_level_app n k l1 l2 : at_level n k (l1 ++ l2) = at_level n k l1 ++ at_level n k l2.
Proof. apply filter_app. Qed.

(** Per level: what was popped, then what is queued, is what was queued, then what
    was pushed. *)
Lemma at_level_one n k i : at_level n k [i] = if decide (k = level_of n i) then [i] else [].
Proof.
  unfold at_level. case_decide as Hd; [by rewrite filter_cons_True, filter_nil|].
  rewrite filter_cons_False by congruence. apply filter_nil.
Qed.

(** [Push] appends to the level of the item. *)
Lemma Push_level n i q :
  pq_ready n q → pq_sorted n q → 0 ≤ priority i →
  ∃ q1, Push i q = (Ret (), q1) ∧ pq_ready n q1 ∧ pq_sorted n q1
    ∧ ∀ k l, levels q !! k = Some l → levels q1 !! k = Some (l ++ at_level n k [i]).
Proof.
  intros Hr Hs Hi. destruct (Push_ready n i q Hr Hi) as (q1&Hq1&Hr1&Hl1). exists q1. split_and!; [done|done| |].
  - intros k l. rewrite Hl1. intros (l0&Hk&->)%alter_level. case_decide; [|by eapply Hs].
    apply Forall_app. split; [by eapply Hs|]. by apply Forall_singleton.
  - intros k l Hk. rewrite Hl1, at_level_one. case_decide as Hd.
    + subst k. by rewrite list_lookup_alter_eq, Hk.
    + rewrite list_lookup_alter_ne by congruence. by rewrite app_nil_r.
Qed.

(** [Pop] takes the first item off the level of the item, or changes nothing. *)
Lemma Pop_level n q :
  pq_ready n q → pq_sorted n q →
  (∃ i q1, Pop q = (Ret i, q1) ∧ pq_ready n q1 ∧ pq_sorted n q1
     ∧ ∀ k l, levels q !! k = Some l → ∃ l1, levels q1 !! k = Some l1 ∧ l = at_level n k [i] ++ l1)
  ∨ Pop q = (Err ErrQueueEmpty, q).
Proof.
  intros Hr Hs. pose proof (Pop_ready n q Hr) as Hpop. pose proof (take_first_spec (levels q)) as Ht.
  destruct (take_first (levels q)) as [[i ls]|]; [|by right]. left.
  destruct Ht as (k0&l0&Hk0&->&_). pose proof (lookup_lt_Some _ _ _ Hk0) as Hlt.
  assert (level_of n i = k0) as <- by (apply Hs in Hk0; by apply Forall_cons_1 in Hk0 as [? _]).
  eexists i, _. split; [exact Hpop|]. split_and!.
  - destruct Hr as (?&?&?&?). split_and!; try done. simpl. by rewrite length_insert.
  - intros k l. simpl. rewrite list_lookup_insert. case_decide as Hd; [|by apply Hs].
    destruct Hd as [<- _]. intros [= <-]. apply Hs in Hk0. by apply Forall_cons_1 in Hk0 as [_ ?].
  - intros k l Hk. rewrite at_level_one. simpl. case_decide as Hd.
    + subst k. exists l0. rewrite list_lookup_insert_eq by done. split; [done|]. simpl. congruence.
    + exists l. by rewrite list_lookup_insert_ne by congruence.
Qed.

Lemma run_pq_fifo n ops : ∀ q,
  pq_ready n q → pq_sorted n q → Forall (λ i, 0 ≤ priority i) (pushed ops) →
  ∃ rs q', run_pq ops q = (Ret rs, q') ∧ pq_ready n q' ∧ pq_sorted n q'
    ∧ ∀ k l, levels q !! k = Some l → ∃ l', levels q' !! k = Some l'
        ∧ at_level n k (omap id rs) ++ l' = l ++ at_level n k (pushed ops).
Proof.
  induction ops as [|[i|] ops IH]; intros q Hr Hs Hp; cbn [run_pq].
  - exists [], q. split_and!; [done..|]. intros k l Hk. exists l. split; [done|].
    unfold at_level, pushed. simpl. by rewrite app_nil_r.
  - apply Forall_cons_1 in Hp as [Hi Hp]. destruct (Push_level n i q Hr Hs Hi) as (q1&Hq1&Hr1&Hs1&Hl1).
    destruct (IH q1 Hr1 Hs1 Hp) as (rs&q'&Hrun&Hr'&Hs'&Hf).
    exists rs, q'. split_and!; [by rewrite (bind_ret _ _ _ _ _ Hq1)|done|done|].
    intros k l Hk. destruct (Hf k _ (Hl1 k l Hk)) as (l'&Hl'&E). exists l'. split; [done|].
    change (pushed (OpPush i :: ops)) with ([i] ++ pushed ops). by rewrite E, at_level_app, app_assoc.
  - change (pushed (OpPop :: ops)) with (pushed ops) in *.
    destruct (Pop_level n q Hr Hs) as [(i&q1&Hpop&Hr1&Hs1&Hl1)|Hpop].
    + destruct (IH q1 Hr1 Hs1 Hp) as (rs&q'&Hrun&Hr'&Hs'&Hf). exists (Some i :: rs), q'. split_and!; [|done|done|].
      * rewrite (bind_ret _ _ _ (inl i) q1) by (unfold attempt; by rewrite Hpop). by rewrite (bind_ret _ _ _ _ _ Hrun).
      * intros k l Hk. destruct (Hl1 k l Hk) as (l1&Hk1&->). destruct (Hf k l1 Hk1) as (l'&Hl'&E). exists l'. split; [done|].
        change (omap id (Some i :: rs)) with ([i] ++ omap id rs). by rewrite at_level_app, <- !app_assoc, E.
    + destruct (IH q Hr Hs Hp) as (rs&q'&Hrun&Hr'&Hs'&Hf). exists (None :: rs), q'. split_and!; [|done|done|done].
      rewrite (bind_ret _ _ _ (inr ErrQueueEmpty) q) by (unfold attempt; by rewrite Hpop).
      by rewrite (bind_ret _ _ _ _ _ Hrun).
Qed.

Lemma PopBlock_ready n q fuel :
  pq_ready n q → (2 ≤ fuel)%nat →
  PopBlock_loop fuel q =
    match take_first (levels q) with
    | Some (i, ls) => (Ret i, set_levels ls q)
    | None => (Block, set_notify 0 q)
    end.
Proof.
  intros (Hl&Hc&_) Hf. destruct q as [ls cap lk nf cl]. simpl in *. subst.
  destruct fuel as [|[|fuel]]; [lia..|].
  cbn [PopBlock_loop]. unfold mbind, M_bind, lock, get, unlock, modify, put, wait_notify. cbn.
  destruct (take_first ls) as [[i ls']|] eqn:E; cbn; [done|].
  destruct nf; cbn; [done|]. rewrite E. done.
Qed.

(** ** The properties of the component *)

Definition new_queue (n : nat) : PriorityQueue := mkPQ (replicate n []) (replicate n 256) false 0 false.

Lemma new_queue_ready n : (0 < n)%nat → pq_ready n (new_queue n) ∧ pq_sorted n (new_queue n).
Proof.
  intros Hn. split; [split_and!; try done; simpl; by rewrite length_replicate|].
  intros k l [-> _]%lookup_replicate. constructor.
Qed.

(** [Pop] serves priorities strictly: it takes the oldest item of a level whose
    higher levels are all empty and changes nothing else; it refuses with
    [ErrQueueEmpty] exactly when every level is empty. [PopBlock] takes the same item,
    and on an empty queue waits without holding the mutex; it needs at most two turns
    of its loop. *)
Theorem pop_priority n q fuel :
  pq_ready n q → (2 ≤ fuel)%nat →
  match Pop q with
  | (Ret i, q') => ∃ k l, levels q !! k = Some (i :: l) ∧ q' = set_levels (<[k := l]> (levels q)) q
      ∧ (∀ j, (j < k)%nat → levels q !! j = Some []) ∧ PopBlock_loop fuel q = (Ret i, q')
  | (Err e, q') => e = ErrQueueEmpty ∧ q' = q ∧ (∀ j l, levels q !! j = Some l → l = [])
      ∧ PopBlock_loop fuel q = (Block, set_notify 0 q)
  | _ => False
  end.
Proof.
  intros Hr Hf. pose proof (Pop_ready n q Hr) as Hp. pose proof (take_first_spec (levels q)) as Ht.
  rewrite (PopBlock_ready n q fuel Hr Hf).
  destruct (take_first (levels q)) as [[i ls]|]; rewrite Hp.
  - destruct Ht as (k&l&Hk&->&Hj). by exists k, l.
  - by split_and!.
Qed.

Lemma pop_priority_witness :
  let q := (run_pq [OpPush (mkItem (mkPacket 1 []) Low 0); OpPush (mkItem (mkPacket 2 []) Urgent 0)] (new_queue 3)).2 in
  pq_ready 3 q ∧ PopBlock_loop 2 q = Pop q ∧ returns (Pop q).1 = true.
Proof.
  intros q. assert (Hr : pq_ready 3 q) by (split_and!; [done..|simpl; lia]).
  pose proof (pop_priority 3 q 2 Hr ltac:(lia)) as Hp. split; [done|].
  destruct (Pop q) as [[i|e| |] q'] eqn:E; [|by vm_compute in E..|done|done].
  destruct Hp as (k&l&_&_&_&->). done.
Defined.

(** C24. Nothing is lost, duplicated or reordered within a priority: over any
    interleaving of [Push] (never refused: the capacities are not enforced) and
    [Pop], for every level the items popped followed by the items left are the items
    initially there followed by the items pushed, in order. *)
Theorem queue_fifo_per_level n ops q :
  pq_ready n q → pq_sorted n q → Forall (λ i, 0 ≤ priority i) (pushed ops) →
  ∃ rs q', run_pq ops q = (Ret rs, q')
    ∧ ∀ k l, levels q !! k = Some l → ∃ l', levels q' !! k = Some l'
        ∧ at_level n k (omap id rs) ++ l' = l ++ at_level n k (pushed ops).
Proof.
  intros Hr Hs Hp. destruct (run_pq_fifo n ops q Hr Hs Hp) as (rs&q'&?&_&_&?). by exists rs, q'.
Qed.

Lemma queue_fifo_per_level_witness :
  let a := mkItem (mkPacket 1 []) Low 0 in
  let b := mkItem (mkPacket 2 []) 7 0 in
  ∃ rs q', run_pq [OpPush a; OpPop; OpPush b; OpPush a; OpPop] (new_queue 3) = (Ret rs, q')
    ∧ ∃ l', levels q' !! 2%nat = Some l' ∧ at_level 3 2 (omap id rs) ++ l' = [a; b; a].
Proof.
  intros a b. destruct (new_queue_ready 3 ltac:(lia)) as [Hr Hs].
  destruct (queue_fifo_per_level 3 [OpPush a; OpPop; OpPush b; OpPush a; OpPop] (new_queue 3) Hr Hs)
    as (rs&q'&H1&H2).
  { repeat constructor; simpl; unfold Low; lia. }
  exists rs, q'. split; [done|]. by apply (H2 2%nat []).
Defined.

(** [PopBlock] on a closed queue never returns, items left or not: it asks for the
    length while it holds the mutex, and from then on every operation of the queue
    blocks too. *)
Theorem popblock_closed_deadlock q :
  locked q = false → pq_closed q = true →
  let q' := set_locked true q in
  PopBlock q = (Block, q') ∧ PopBlock q' = (Block, q')
  ∧ (∀ i, Push i q' = (Block, q')) ∧ Pop q' = (Block, q') ∧ PQ_Len q' = (Block, q') ∧ PQ_Close q' = (Block, q').
Proof.
  destruct q as [ls cap lk nf cl]. simpl. intros -> ->. by split_and!.
Qed.

Lemma popblock_closed_deadlock_witness :
  let q := (PQ_Close (new_queue 3)).2 in
  pq_closed q = true ∧ PopBlock q = (Block, set_locked true q).
Proof. split; [done|]. by apply (popblock_closed_deadlock (PQ_Close (new_queue 3)).2). Defined.
