(* ===== verification/PrioritySys.v ===== *)
(** * Blocking consumers of the priority queue ([conn/priority.go])

    Goroutines that call [PopBlock] while others push: a transition system whose steps are the
    critical sections of the operations and the receive on the notification channel, which
    holds at most one token. *)

From S2P Require Export Priority.
#[local] Open Scope Z_scope.

(** ** The system *)

(** A call of [PopBlock]: before the critical section, in [<-pq.notify], returned, or in the
    call of [Len] that never returns because the mutex is held. *)
Inductive pop_pc := BTry | BWait | BGot (i : PriorityItem) | BStuck.

Record PopSys := mkPopSys { ps_q : PriorityQueue; ps_pcs : list pop_pc }.

(** The critical section of a turn of [PopBlock] and where the call goes on. *)
Definition pop_section (q : PriorityQueue) : option (pop_pc * PriorityQueue) :=
  if locked q then None
  else if pq_closed q then Some (BStuck, set_locked true q)
  else match take_first (levels q) with
       | Some (i, ls) => Some (BGot i, set_levels ls q)
       | None => Some (BWait, q)
       end.

(** The next action of consumer [k]. *)
Definition consumer_turn (k : nat) (x : PopSys) : option PopSys :=
  p ← ps_pcs x !! k;
  match p with
  | BTry => '(p', q') ← pop_section (ps_q x); Some (mkPopSys q' (<[k := p']> (ps_pcs x)))
  | BWait =>
      match wait_notify (ps_q x) with
      | (Ret _, q') => Some (mkPopSys q' (<[k := BTry]> (ps_pcs x)))
      | _ => None
      end
  | BGot _ | BStuck => None
  end.

(** [n] turns of consumer [k]. *)
Fixpoint consumer_turns (k n : nat) (x : PopSys) : option PopSys :=
  match n with O => Some x | S n' => y ← consumer_turn k x; consumer_turns k n' y end.

(** Consumers take turns, and return and call again; producers push. *)
Inductive pop_step : PopSys → PopSys → Prop :=
| bs_turn k x y : consumer_turn k x = Some y → pop_step x y
| bs_again k i x : ps_pcs x !! k = Some (BGot i) → pop_step x (mkPopSys (ps_q x) (<[k := BTry]> (ps_pcs x)))
| bs_push i q' x : 0 ≤ priority i → Push i (ps_q x) = (Ret (), q') → pop_step x (mkPopSys q' (ps_pcs x)).

(** [n] consumers on an empty queue with [m] levels. *)
Definition pop_start (m n : nat) : PopSys :=
  mkPopSys (mkPQ (replicate m []) (replicate m 256) false 0 false) (replicate n BTry).

(** ** Lemmas *)

(** The section is what [PopBlock] does in one turn when it returns an item. *)
Lemma pop_section_PopBlock q i q' : pop_section q = Some (BGot i, q') → PopBlock q = (Ret i, q').
Proof.
  unfold pop_section. destruct q as [ls cap lk nf cl]. cbn [locked pq_closed levels]. destruct lk; [done|]. destruct cl; [done|].
  destruct (take_first ls) as [[j ls']|] eqn:Et; [|done]. intros [= -> <-].
  unfold PopBlock. cbn [PopBlock_loop]. unfold mbind, M_bind, lock. cbn. by rewrite Et.
Qed.

Lemma Push_token i q q' : Push i q = (Ret (), q') → locked q = false → notify q' = S (pred (notify q)) ∧ locked q' = false ∧ pq_closed q' = pq_closed q.
Proof.
  intros Hp Hl. unfold Push, with_lock, unlocking, mbind, M_bind, lock in Hp. rewrite Hl in Hp. cbn in Hp.
  destruct (pq_closed q) eqn:Hc; [done|]. cbn in Hp. destruct (_ <? 0) in Hp; [done|]. cbn in Hp.
  unfold modify in Hp. cbn in Hp. destruct (notify q) as [|n] eqn:Hn; cbn in Hp; injection Hp as <-; cbn; rewrite ?Hc, ?Hn; done.
Qed.

(** A single consumer that sleeps beside a non-empty queue has a token to wake it. *)
Definition wake_inv (x : PopSys) : Prop :=
  locked (ps_q x) = false ∧ pq_closed (ps_q x) = false ∧ ∃ p, ps_pcs x = [p]
  ∧ match p with
    | BWait => take_first (levels (ps_q x)) = None ∨ (0 < notify (ps_q x))%nat
    | BStuck => False
    | _ => True
    end.

Lemma wake_step x y : wake_inv x → pop_step x y → wake_inv y.
Proof.
  intros (Hl&Hc&p&Hp&Hw) Hs. unfold wake_inv. destruct Hs as [k x y Ht|k i x Hk|i q' x Hi Hpush].
  - unfold consumer_turn in Ht. rewrite Hp in Ht. destruct k as [|k]; [|done]. cbn in Ht.
    destruct p as [| |i|]; [| |done|done].
    + unfold pop_section in Ht. rewrite Hl, Hc in Ht. destruct (take_first (levels (ps_q x))) as [[i ls]|] eqn:Et; cbn in Ht; injection Ht as <-.
      * cbn. rewrite ?Hp. split_and!; [done|done|]. by eexists.
      * cbn. rewrite ?Hp. split_and!; [done|done|]. eexists. split; [done|]. by left.
    + unfold wait_notify in Ht. rewrite Hc in Ht. destruct (0 <? notify (ps_q x))%nat; [|done]. injection Ht as <-.
      cbn. rewrite ?Hp. split_and!; [done|done|]. by eexists.
  - rewrite Hp in Hk. destruct k as [|k]; [|done]. cbn. rewrite ?Hp. split_and!; [done|done|]. by eexists.
  - destruct (Push_token _ _ _ Hpush Hl) as (Ht&Hl'&Hc'). cbn. rewrite Hc', Hp. split_and!; [done|done|].
    eexists. split; [done|]. destruct p; try done. right. lia.
Qed.

Lemma wake_reachable m x : rtc pop_step (pop_start m 1) x → wake_inv x.
Proof.
  intros Hr. assert (H0 : wake_inv (pop_start m 1)) by (unfold wake_inv; cbn; split_and!; try done; by eexists).
  induction Hr as [|x y z Hxy _ IH]; [done|]. by apply IH, (wake_step x).
Qed.

(** ** The properties of the component *)

(** C25. One blocking consumer misses nothing: however its steps and those of any number of
    producers interleave, when the queue has an item, a call of [PopBlock] that has not
    returned is at most two of its own turns away from returning one, the first of the
    most urgent level. *)
Theorem popblock_wakes m x :
  rtc pop_step (pop_start m 1) x →
  (∀ i ls, take_first (levels (ps_q x)) = Some (i, ls) →
     (∃ j, ps_pcs x = [BGot j])
     ∨ ∃ n y, (n ≤ 2)%nat ∧ consumer_turns 0 n x = Some y ∧ ps_pcs y = [BGot i] ∧ levels (ps_q y) = ls).
Proof.
  intros (Hl&Hc&p&Hp&Hw)%wake_reachable i ls Hf.
  assert (Hgo : ∀ q, locked q = false → pq_closed q = false → levels q = levels (ps_q x) →
    consumer_turn 0 (mkPopSys q [BTry]) = Some (mkPopSys (set_levels ls q) [BGot i])).
  { intros q H1 H2 H3. unfold consumer_turn. cbn. unfold pop_section. by rewrite H1, H2, H3, Hf. }
  destruct x as [q pcs]. cbn [ps_q ps_pcs] in *. subst pcs. destruct p as [| |j|]; [| | |done].
  - right. exists 1%nat. eexists. split; [lia|]. cbn [consumer_turns]. by rewrite (Hgo q).
  - right. destruct Hw as [Hn|Hn]; [congruence|]. exists 2%nat. eexists. split; [lia|]. cbn [consumer_turns].
    assert (Hwt : consumer_turn 0 (mkPopSys q [BWait]) = Some (mkPopSys (set_notify 0 q) [BTry])).
    { unfold consumer_turn. cbn. unfold wait_notify. by rewrite (proj2 (Nat.ltb_lt _ _) Hn). }
    rewrite Hwt. cbn [mbind option_bind]. by rewrite (Hgo (set_notify 0 q)).
  - left. by exists j.
Qed.

Definition demo_item : PriorityItem := mkItem (mkPacket 7 []) 1 0.

Lemma popblock_wakes_witness :
  let q n ls := mkPQ ls (replicate 3 256) false n false in
  let x := mkPopSys (q 1%nat [[]; [demo_item]; []]) [BWait] in
  rtc pop_step (pop_start 3 1) x ∧
  ((∃ j, ps_pcs x = [BGot j])
   ∨ ∃ n y, (n ≤ 2)%nat ∧ consumer_turns 0 n x = Some y ∧ ps_pcs y = [BGot demo_item] ∧ levels (ps_q y) = [[]; []; []]).
Proof.
  intros q x. assert (Hr : rtc pop_step (pop_start 3 1) x).
  { eapply rtc_l; [exact (bs_turn 0 (pop_start 3 1) (mkPopSys (q 0%nat [[]; []; []]) [BWait]) eq_refl)|].
    eapply rtc_l; [exact (bs_push demo_item (q 1%nat [[]; [demo_item]; []]) (mkPopSys (q 0%nat [[]; []; []]) [BWait]) ltac:(by vm_compute) eq_refl)|].
    apply rtc_refl. }
  split; [exact Hr|]. exact (popblock_wakes 3 x Hr demo_item [[]; []; []] eq_refl).
Defined.

(** Two blocking consumers can miss an item: two pushes leave one token, one consumer takes it
    and the first item, and the other sleeps on beside the second item. *)
Theorem two_consumers_sleep :
  ∃ x, rtc pop_step (pop_start 3 2) x ∧ take_first (levels (ps_q x)) ≠ None
    ∧ ps_pcs x = [BGot demo_item; BWait] ∧ consumer_turn 1 x = None.
Proof.
  set (q n ls := mkPQ ls (replicate 3 256) false n false).
  exists (mkPopSys (q 0%nat [[]; [demo_item]; []]) [BGot demo_item; BWait]). split; [|done].
  eapply rtc_l; [exact (bs_turn 0 (pop_start 3 2) (mkPopSys (q 0%nat [[]; []; []]) [BWait; BTry]) eq_refl)|].
  eapply rtc_l; [exact (bs_turn 1 (mkPopSys (q 0%nat [[]; []; []]) [BWait; BTry]) (mkPopSys (q 0%nat [[]; []; []]) [BWait; BWait]) eq_refl)|].
  eapply rtc_l; [exact (bs_push demo_item (q 1%nat [[]; [demo_item]; []]) (mkPopSys (q 0%nat [[]; []; []]) [BWait; BWait]) ltac:(by vm_compute) eq_refl)|].
  eapply rtc_l; [exact (bs_push demo_item (q 1%nat [[]; [demo_item; demo_item]; []]) (mkPopSys (q 1%nat [[]; [demo_item]; []]) [BWait; BWait]) ltac:(by vm_compute) eq_refl)|].
  eapply rtc_l; [exact (bs_turn 0 (mkPopSys (q 1%nat [[]; [demo_item; demo_item]; []]) [BWait; BWait]) (mkPopSys (q 0%nat [[]; [demo_item; demo_item]; []]) [BTry; BWait]) eq_refl)|].
  eapply rtc_l; [exact (bs_turn 0 (mkPopSys (q 0%nat [[]; [demo_item; demo_item]; []]) [BTry; BWait]) (mkPopSys (q 0%nat [[]; [demo_item]; []]) [BGot demo_item; BWait]) eq_refl)|].
  apply rtc_refl.
Qed.
