(* ===== verification/Flow.v ===== *)
(** * Flow control and bounded queues ([conn/flow.go])

    [FlowController] comes twice: its operations run to completion one at a time,
    as a caller sees them, and [flow_step], the interleaving of goroutines inside
    [Acquire], [AcquireNonBlock] and [Release] at the granularity of the mutex,
    the condition variable and the atomic counter. *)

From S2P Require Export GoIO.
#[local] Open Scope Z_scope.

(** ** The flow controller *)

Record FlowController := mkFlow { maxItems : Z; maxBytes : Z; current : Z }.

Definition NewFlowController (items bytes : Z) : FlowController := mkFlow items bytes 0.

Definition set_current (c : Z) (fc : FlowController) : FlowController :=
  mkFlow (maxItems fc) (maxBytes fc) c.

Definition Acquire (size : Z) : M FlowController () := λ fc,
  if maxBytes fc <=? current fc then (Block, fc)
  else (Ret (), set_current (s64 (current fc + size)) fc).

Definition AcquireNonBlock (size : Z) : M FlowController () := λ fc,
  if maxBytes fc <? s64 (current fc + size) then (Err ErrQueueFull, fc)
  else (Ret (), set_current (s64 (current fc + size)) fc).

Definition Release (size : Z) : M FlowController () := λ fc,
  (Ret (), set_current (s64 (current fc + - size)) fc).

Definition Available (fc : FlowController) : Z := s64 (maxBytes fc - current fc).
Definition Used (fc : FlowController) : Z := current fc.

(** ** Interleavings *)

(** Where a goroutine is. *)
Inductive pc :=
| Idle
| AcqLock (size : Z)      (* in [Acquire], before [mu.Lock] *)
| AcqCheck (size : Z)     (* holds [mu], about to load [current] *)
| AcqEnter (size : Z)     (* holds [mu], saw no room, about to call [cond.Wait] *)
| AcqWait (size : Z)      (* on the waiting list, without [mu] *)
| AcqWoken (size : Z)     (* signalled, about to take [mu] again *)
| AcqAdd (size : Z)       (* holds [mu], saw room, about to add *)
| AcqDone (size : Z)      (* has added, about to unlock [mu] *)
| NbAdd (size : Z)        (* in [AcquireNonBlock], the check passed *)
| Holding (size : Z)      (* holds [size] bytes *)
| RelSignal.              (* in [Release], subtracted, about to signal *)

#[export] Instance pc_eq_dec : EqDecision pc.
Proof. solve_decision. Defined.

Record Sys := mkSys {
  cur : Z;                (* [current] *)
  mu : bool;              (* [mu] is held *)
  waitq : list nat;       (* the waiting list of [cond] *)
  threads : list pc;
}.

Definition start_sys (n : nat) : Sys := mkSys 0 false [] (replicate n Idle).

Definition goto (i : nat) (p : pc) (s : Sys) : Sys :=
  mkSys (cur s) (mu s) (waitq s) (<[i := p]> (threads s)).

(** One step of a goroutine [i], with sizes up to [S]; [nb] tells whether the
    goroutines also use [AcquireNonBlock]. *)
Inductive flow_step (nb : bool) (limit S : Z) : Sys → Sys → Prop :=
| st_acquire i size s :
    threads s !! i = Some Idle → 0 ≤ size ≤ S → flow_step nb limit S s (goto i (AcqLock size) s)
| st_lock i size s :
    threads s !! i = Some (AcqLock size) → mu s = false →
    flow_step nb limit S s (goto i (AcqCheck size) (mkSys (cur s) true (waitq s) (threads s)))
| st_full i size s :
    threads s !! i = Some (AcqCheck size) → limit ≤ cur s →
    flow_step nb limit S s (goto i (AcqEnter size) s)
| st_wait i size s :
    threads s !! i = Some (AcqEnter size) →
    flow_step nb limit S s (goto i (AcqWait size) (mkSys (cur s) false (waitq s ++ [i]) (threads s)))
| st_relock i size s :
    threads s !! i = Some (AcqWoken size) → mu s = false →
    flow_step nb limit S s (goto i (AcqCheck size) (mkSys (cur s) true (waitq s) (threads s)))
| st_room i size s :
    threads s !! i = Some (AcqCheck size) → cur s < limit →
    flow_step nb limit S s (goto i (AcqAdd size) s)
| st_add i size s :
    threads s !! i = Some (AcqAdd size) →
    flow_step nb limit S s (goto i (AcqDone size) (mkSys (s64 (cur s + size)) (mu s) (waitq s) (threads s)))
| st_unlock i size s :
    threads s !! i = Some (AcqDone size) →
    flow_step nb limit S s (goto i (Holding size) (mkSys (cur s) false (waitq s) (threads s)))
| st_nb_check i size s :
    nb = true → threads s !! i = Some Idle → 0 ≤ size ≤ S → s64 (cur s + size) ≤ limit →
    flow_step nb limit S s (goto i (NbAdd size) s)
| st_nb_add i size s :
    threads s !! i = Some (NbAdd size) →
    flow_step nb limit S s (goto i (Holding size) (mkSys (s64 (cur s + size)) (mu s) (waitq s) (threads s)))
| st_release i size s :
    threads s !! i = Some (Holding size) →
    flow_step nb limit S s (goto i RelSignal (mkSys (s64 (cur s + - size)) (mu s) (waitq s) (threads s)))
| st_signal_none i s :
    threads s !! i = Some RelSignal → waitq s = [] → flow_step nb limit S s (goto i Idle s)
| st_signal i j size ws s :
    threads s !! i = Some RelSignal → waitq s = j :: ws → threads s !! j = Some (AcqWait size) →
    flow_step nb limit S s
      (goto i Idle (goto j (AcqWoken size) (mkSys (cur s) (mu s) ws (threads s)))).

(** ** The droppable queue *)

Record DroppableQueue (A : Type) := mkDQ { dq_items : list A; dq_max : Z; dq_dropped : Z }.
Arguments mkDQ {A}.
Arguments dq_items {A}.
Arguments dq_max {A}.
Arguments dq_dropped {A}.

Section droppable.
Context {A : Type}.

Definition NewDroppableQueue (maxSize : Z) : outcome (DroppableQueue A) :=
  if maxSize <? 0 then Panic MakeSliceLen else Ret (mkDQ [] maxSize 0).

Definition DQ_Push (item : A) : M (DroppableQueue A) () := λ dq,
  if dq_max dq <=? Z.of_nat (length (dq_items dq)) then
    match dq_items dq with
    | [] => (Panic SliceOutOfRange, dq)
    | _ :: rest => (Ret (), mkDQ (rest ++ [item]) (dq_max dq) (s64 (dq_dropped dq + 1)))
    end
  else (Ret (), mkDQ (dq_items dq ++ [item]) (dq_max dq) (dq_dropped dq)).

Definition DQ_Pop : M (DroppableQueue A) (option A) := λ dq,
  match dq_items dq with
  | [] => (Ret None, dq)
  | item :: rest => (Ret (Some item), mkDQ rest (dq_max dq) (dq_dropped dq))
  end.

Definition DQ_Len (dq : DroppableQueue A) : nat := length (dq_items dq).
Definition Dropped (dq : DroppableQueue A) : Z := dq_dropped dq.
End droppable.

(** ** The bounded queue: a channel *)

Record BoundedQueue (A : Type) := mkBQ { bq_cap : nat; bq_items : list A; bq_closed : bool }.
Arguments mkBQ {A}.
Arguments bq_cap {A}.
Arguments bq_items {A}.
Arguments bq_closed {A}.

Section bounded.
Context {A : Type}.

Definition NewBoundedQueue (capacity : Z) : outcome (BoundedQueue A) :=
  if capacity <? 0 then Panic MakeSliceLen else Ret (mkBQ (Z.to_nat capacity) [] false).

Definition BQ_Push (item : A) : M (BoundedQueue A) () := λ q,
  if bq_closed q then (Panic ClosedChannel, q)
  else if (length (bq_items q) <? bq_cap q)%nat
       then (Ret (), mkBQ (bq_cap q) (bq_items q ++ [item]) false)
       else (Block, q).

Definition BQ_TryPush (item : A) : M (BoundedQueue A) bool := λ q,
  if bq_closed q then (Panic ClosedChannel, q)
  else if (length (bq_items q) <? bq_cap q)%nat
       then (Ret true, mkBQ (bq_cap q) (bq_items q ++ [item]) false)
       else (Ret false, q).

(** [None] is the nil a closed channel delivers. *)
Definition BQ_Pop : M (BoundedQueue A) (option A) := λ q,
  match bq_items q with
  | item :: rest => (Ret (Some item), mkBQ (bq_cap q) rest (bq_closed q))
  | [] => if bq_closed q then (Ret None, q) else (Block, q)
  end.

Definition BQ_TryPop : M (BoundedQueue A) (option A * bool) := λ q,
  match bq_items q with
  | item :: rest => (Ret (Some item, true), mkBQ (bq_cap q) rest (bq_closed q))
  | [] => if bq_closed q then (Ret (None, true), q) else (Ret (None, false), q)
  end.

Definition BQ_Close : M (BoundedQueue A) () := λ q,
  if bq_closed q then (Panic ClosedChannel, q)
  else (Ret (), mkBQ (bq_cap q) (bq_items q) true).
End bounded.

(** ** Lemmas: the invariant of the interleavings *)

(** The bytes a goroutine has added and not yet subtracted. *)
Definition held (p : pc) : Z :=
  match p with AcqDone n | Holding n => n | _ => 0 end.

(** Whether it holds the mutex. *)
Definition crit (p : pc) : Z :=
  match p with AcqCheck _ | AcqEnter _ | AcqAdd _ | AcqDone _ => 1 | _ => 0 end.

Definition size_of (p : pc) : Z :=
  match p with
  | Idle | RelSignal => 0
  | AcqLock n | AcqCheck n | AcqEnter n | AcqWait n | AcqWoken n | AcqAdd n | AcqDone n | NbAdd n | Holding n => n
  end.

Record flow_inv (n : nat) (limit S : Z) (s : Sys) : Prop := {
  inv_len : length (threads s) = n;
  inv_size : Forall (λ p, 0 ≤ size_of p ≤ S) (threads s);
  inv_cur : cur s = zsum held (threads s);
  inv_mu : zsum crit (threads s) = if mu s then 1 else 0;
}.

Lemma held_range S p : 0 ≤ size_of p ≤ S → 0 ≤ held p ≤ S.
Proof. destruct p; simpl; lia. Qed.

Lemma crit_nonneg p : 0 ≤ crit p.
Proof. destruct p; simpl; lia. Qed.

Lemma flow_no_overflow n limit S s p y i :
  Z.of_nat n * S < 2 ^ 63 → flow_inv n limit S s → threads s !! i = Some p → 0 ≤ size_of y ≤ S →
  let v := cur s - held p + held y in s64 v = v ∧ 0 ≤ v.
Proof.
  intros Hn Hs Hi Hy. assert (HS : 0 ≤ S) by lia.
  assert (Hf : Forall (λ q, 0 ≤ held q ≤ S) (<[i := y]> (threads s))).
  { apply Forall_insert; [eapply Forall_impl; [apply (inv_size _ _ _ _ Hs)|]; intros; by apply held_range|].
    by apply held_range. }
  apply zsum_range in Hf. rewrite (zsum_insert _ _ _ p), <- (inv_cur _ _ _ _ Hs), length_insert, (inv_len _ _ _ _ Hs) in Hf by done.
  intros v. split; [|unfold v; lia]. apply swrap_id; [done|]. unfold is_int. change (2 ^ (64 - 1)) with (2 ^ 63).
  unfold v. lia.
Qed.

Lemma inv_goto n limit S s i p p' c m w :
  flow_inv n limit S s → threads s !! i = Some p → 0 ≤ size_of p' ≤ S →
  c = cur s - held p + held p' →
  (if (m : bool) then 1 else 0) = (if mu s then 1 else 0) - crit p + crit p' →
  flow_inv n limit S (goto i p' (mkSys c m w (threads s))).
Proof.
  intros [H1 H2 H3 H4] Hi Hp Hc Hm. split; unfold goto; cbn [threads cur mu].
  - by rewrite length_insert.
  - by apply Forall_insert.
  - by rewrite (zsum_insert held _ _ p), <- H3.
  - by rewrite (zsum_insert crit _ _ p), H4.
Qed.

Lemma crit_locked n limit S s i p :
  flow_inv n limit S s → threads s !! i = Some p → crit p = 1 → mu s = true.
Proof.
  intros Hs Hi Hp. pose proof (zsum_elem crit _ _ _ (Forall_true _ _ crit_nonneg) Hi) as H.
  rewrite (inv_mu _ _ _ _ Hs) in H. destruct (mu s); [done|lia].
Qed.

(** At most one goroutine is inside the critical section. *)
Lemma crit_unique n limit S s i j p q :
  flow_inv n limit S s → threads s !! i = Some p → threads s !! j = Some q →
  crit p = 1 → crit q = 1 → i = j.
Proof.
  intros Hs Hi Hj Hp Hq. destruct (decide (i = j)) as [|Hne]; [done|].
  pose proof (zsum_elem2 crit _ _ _ _ _ (Forall_true _ _ crit_nonneg) Hne Hi Hj) as H.
  rewrite (inv_mu _ _ _ _ Hs) in H. destruct (mu s); lia.
Qed.

Lemma flow_step_inv nb n limit S s s' :
  Z.of_nat n * S < 2 ^ 63 → flow_step nb limit S s s' → flow_inv n limit S s → flow_inv n limit S s'.
Proof.
  intros Hn Hstep Hs.
  assert (Hsz : ∀ i p, threads s !! i = Some p → 0 ≤ size_of p ≤ S).
  { intros i p Hi. pose proof (inv_size _ _ _ _ Hs) as H. rewrite Forall_lookup in H. by eapply H. }
  assert (Hov : ∀ i p y, threads s !! i = Some p → 0 ≤ size_of y ≤ S →
    s64 (cur s - held p + held y) = cur s - held p + held y) by (intros; by eapply flow_no_overflow).
  destruct Hstep as [i size s Hi Hsize|i size s Hi Hmu|i size s Hi Hc|i size s Hi|i size s Hi Hmu|i size s Hi Hc|i size s Hi
    |i size s Hi|i size s _ Hi Hsize Hc|i size s Hi|i size s Hi|i s Hi Hw|i j size ws s Hi Hw Hj];
    try pose proof (Hsz _ _ Hi) as Hsi; simpl in Hsi.
  all: try (destruct s as [c m w ts]; eapply (inv_goto n limit S (mkSys c m w ts)); [exact Hs|exact Hi|simpl; lia|simpl; lia|simpl; lia]).
  - eapply inv_goto; [done|done|simpl; lia|simpl; lia|rewrite Hmu; simpl; lia].
  - pose proof (crit_locked _ _ _ _ _ _ Hs Hi eq_refl) as Hm.
    eapply inv_goto; [done|done|simpl; lia|simpl; lia|rewrite Hm; simpl; lia].
  - eapply inv_goto; [done|done|simpl; lia|simpl; lia|rewrite Hmu; simpl; lia].
  - specialize (Hov i (AcqAdd size) (AcqDone size) Hi Hsi). simpl in Hov. rewrite Z.sub_0_r in Hov.
    eapply inv_goto; [done|done|simpl; lia|rewrite Hov; simpl; lia|simpl; lia].
  - pose proof (crit_locked _ _ _ _ _ _ Hs Hi eq_refl) as Hm.
    eapply inv_goto; [done|done|simpl; lia|simpl; lia|rewrite Hm; simpl; lia].
  - specialize (Hov i (NbAdd size) (Holding size) Hi Hsi). simpl in Hov. rewrite Z.sub_0_r in Hov.
    eapply inv_goto; [done|done|simpl; lia|rewrite Hov; simpl; lia|simpl; lia].
  - specialize (Hov i (Holding size) RelSignal Hi ltac:(simpl; lia)). simpl in Hov.
    replace (cur s + - size) with (cur s - size + 0) by lia.
    eapply inv_goto; [done|done|simpl; lia|rewrite Hov; simpl; lia|simpl; lia].
  - assert (Hne : i ≠ j) by congruence. pose proof (Hsz _ _ Hj) as Hsj. simpl in Hsj.
    assert (H1 : flow_inv n limit S (goto j (AcqWoken size) (mkSys (cur s) (mu s) ws (threads s)))).
    { eapply inv_goto; [done|done|simpl; lia|simpl; lia|simpl; lia]. }
    eapply (inv_goto n limit S (goto j (AcqWoken size) (mkSys (cur s) (mu s) ws (threads s)))); [exact H1| |..].
    { simpl. rewrite list_lookup_insert_ne by done. exact Hi. }
    all: simpl; lia.
Qed.

Lemma lookup_goto i p s j q :
  threads (goto i p s) !! j = Some q → (j = i ∧ q = p) ∨ (j ≠ i ∧ threads s !! j = Some q).
Proof.
  simpl. destruct (decide (j = i)) as [->|Hne]; [|rewrite list_lookup_insert_ne by done; by right].
  rewrite list_lookup_insert. case_decide as Hd; [intros [= <-]; by left|].
  intros Hi. apply lookup_lt_Some in Hi as Hlt. tauto.
Qed.

(** With [Acquire] alone: whoever is about to add has seen room that is still there. *)
Record flow_bound (limit S : Z) (s : Sys) : Prop := {
  fb_nb : ∀ i size, threads s !! i ≠ Some (NbAdd size);
  fb_add : ∀ i size, threads s !! i = Some (AcqAdd size) → cur s < limit;
  fb_cur : cur s ≤ Z.max 0 (limit - 1 + S);
}.

(** A step that adds nothing, to a place that is neither of the adding ones. *)
Lemma bound_goto limit S s i p c m w :
  flow_bound limit S s → c ≤ cur s → (∀ size, p ≠ NbAdd size) →
  (∀ size, p = AcqAdd size → c < limit) →
  flow_bound limit S (goto i p (mkSys c m w (threads s))).
Proof.
  intros [H1 H2 H3] Hc Hp Ha. split.
  - intros j size [[_ E]|E]%lookup_goto; [by eapply Hp|by destruct E as [_ E]; eapply H1].
  - intros j size [[_ E]|E]%lookup_goto; [by eapply Ha|]. destruct E as [_ E]. apply H2 in E. simpl. lia.
  - simpl. lia.
Qed.

Lemma flow_step_bound n limit S s s' :
  Z.of_nat n * S < 2 ^ 63 → flow_step false limit S s s' →
  flow_inv n limit S s → flow_bound limit S s → flow_bound limit S s'.
Proof.
  intros Hn Hstep Hs Hb.
  assert (Hsz : ∀ i p, threads s !! i = Some p → 0 ≤ size_of p ≤ S).
  { intros i p Hi. pose proof (inv_size _ _ _ _ Hs) as H. rewrite Forall_lookup in H. by eapply H. }
  destruct Hstep as [i size s Hi Hsize|i size s Hi Hmu|i size s Hi Hc|i size s Hi|i size s Hi Hmu|i size s Hi Hc|i size s Hi
    |i size s Hi|i size s Hnb Hi Hsize Hc|i size s Hi|i size s Hi|i s Hi Hw|i j size ws s Hi Hw Hj].
  all: try (destruct s as [c m w ts]; apply (bound_goto limit S (mkSys c m w ts)); [done|simpl; lia|done|by intros ? [=]]).
  - destruct (flow_no_overflow n limit S s (AcqAdd size) (AcqDone size) i Hn Hs Hi (Hsz _ _ Hi)) as [Hv _].
    simpl in Hv. rewrite Z.sub_0_r in Hv. rewrite Hv. pose proof (fb_add _ _ _ Hb _ _ Hi).
    pose proof (Hsz _ _ Hi). simpl in *. split.
    + intros j sz [[_ E]|[_ E]]%lookup_goto; [done|by eapply (fb_nb _ _ _ Hb)].
    + intros j sz [[-> E]|[Hne E]]%lookup_goto; [done|]. exfalso. apply Hne. symmetry.
      by apply (crit_unique n limit S s i j (AcqAdd size) (AcqAdd sz) Hs).
    + simpl. lia.
  - by destruct (fb_nb _ _ _ Hb i size).
  - pose proof (Hsz _ _ Hi) as Hsi. simpl in Hsi.
    destruct (flow_no_overflow n limit S s (Holding size) RelSignal i Hn Hs Hi ltac:(simpl; lia)) as [Hv _].
    simpl in Hv. replace (cur s + - size) with (cur s - size + 0) by lia. rewrite Hv.
    apply bound_goto; [done|lia|done|by intros ? [=]].
  - assert (flow_bound limit S (goto j (AcqWoken size) (mkSys (cur s) (mu s) ws (threads s)))) as H1.
    { apply bound_goto; [done|lia|done|by intros ? [=]]. }
    by apply (bound_goto limit S (goto j (AcqWoken size) (mkSys (cur s) (mu s) ws (threads s)))).
Qed.

Lemma start_inv n limit S : 0 ≤ S → flow_inv n limit S (start_sys n) ∧ flow_bound limit S (start_sys n).
Proof.
  intros HS. assert (Hz : ∀ f, f Idle = 0 → zsum f (replicate n Idle) = 0).
  { intros f Hf. induction n; cbn [replicate zsum foldr]; [done|]. unfold zsum in IHn. rewrite Hf, IHn. lia. }
  split; split; cbn [threads cur mu start_sys].
  - apply length_replicate.
  - apply Forall_replicate. simpl. lia.
  - by rewrite Hz.
  - by rewrite Hz.
  - intros i size [? _]%lookup_replicate. done.
  - intros i size [? _]%lookup_replicate. done.
  - lia.
Qed.

Lemma flow_reach nb n limit S s s' :
  Z.of_nat n * S < 2 ^ 63 → rtc (flow_step nb limit S) s s' → flow_inv n limit S s → flow_inv n limit S s'.
Proof. intros Hn. induction 1; eauto using flow_step_inv. Qed.

Lemma flow_reach_bound n limit S s s' :
  Z.of_nat n * S < 2 ^ 63 → rtc (flow_step false limit S) s s' →
  flow_inv n limit S s → flow_bound limit S s → flow_bound limit S s'.
Proof. intros Hn. induction 1; eauto using flow_step_inv, flow_step_bound. Qed.

(** ** The properties of the component *)

(** C26. Accounting under every interleaving, [AcquireNonBlock] included: the counter
    is at any time the sum of the bytes the goroutines hold, at most one of them is
    inside the critical section, and the counter is back at 0 when all are idle. *)
Theorem flow_accounting nb n limit S s :
  0 ≤ S → Z.of_nat n * S < 2 ^ 63 → rtc (flow_step nb limit S) (start_sys n) s →
  cur s = zsum held (threads s) ∧ 0 ≤ cur s
  ∧ (∀ i j p q, threads s !! i = Some p → threads s !! j = Some q → crit p = 1 → crit q = 1 → i = j)
  ∧ (threads s = replicate n Idle → cur s = 0).
Proof.
  intros HS Hn Hr. destruct (start_inv n limit S HS) as [H0 _].
  pose proof (flow_reach nb n limit S _ _ Hn Hr H0) as Hs. rewrite (inv_cur _ _ _ _ Hs).
  split_and!; [done| | |].
  - apply (zsum_range _ _ S). eapply Forall_impl; [apply (inv_size _ _ _ _ Hs)|]. intros. by apply held_range.
  - intros. by eapply crit_unique.
  - intros ->. clear. induction n; cbn [replicate zsum foldr held]; [done|]. unfold zsum in IHn. lia.
Qed.

(** The steps of one [Acquire] that finds room. *)
Lemma acquire_steps nb limit S i size s :
  threads s !! i = Some Idle → 0 ≤ size ≤ S → mu s = false → cur s < limit →
  rtc (flow_step nb limit S) s
    (mkSys (s64 (cur s + size)) false (waitq s) (<[i := Holding size]> (threads s))).
Proof.
  intros Hi Hs Hm Hc. destruct s as [c m w ts]. simpl in *. subst m.
  pose proof (lookup_lt_Some _ _ _ Hi) as Hlt.
  assert (Hl : ∀ p (ts' : list pc), length ts' = length ts → <[i := p]> ts' !! i = Some p)
    by (intros; apply list_lookup_insert_eq; lia).
  eapply rtc_l; [by apply (st_acquire nb limit S i size)|].
  eapply rtc_l; [apply (st_lock nb limit S i size); [by apply Hl|done]|].
  eapply rtc_l; [apply (st_room nb limit S i size); [apply Hl; simpl; by rewrite length_insert|done]|].
  eapply rtc_l; [apply (st_add nb limit S i size), Hl; simpl; by rewrite !length_insert|].
  eapply rtc_l; [apply (st_unlock nb limit S i size), Hl; simpl; by rewrite !length_insert|].
  unfold goto. simpl. rewrite !list_insert_insert_eq. apply rtc_refl.
Qed.

(** C27. With [Acquire] alone the counter never exceeds the limit by as much as one
    request: it stays below [maxBytes] plus the largest size asked for (so the limit
    itself is not a bound). *)
Theorem flow_overshoot n limit S s :
  0 ≤ S → Z.of_nat n * S < 2 ^ 63 → rtc (flow_step false limit S) (start_sys n) s →
  cur s ≤ Z.max 0 (limit - 1 + S).
Proof.
  intros HS Hn Hr. destruct (start_inv n limit S HS) as [H0 H1].
  exact (fb_cur _ _ _ (flow_reach_bound n limit S _ _ Hn Hr H0 H1)).
Qed.

(** The bound is reached. *)
Lemma flow_overshoot_witness :
  let s := mkSys 18 false [] [Holding 9; Holding 9] in
  rtc (flow_step false 10 9) (start_sys 2) s ∧ cur s ≤ Z.max 0 (10 - 1 + 9).
Proof.
  intros s. assert (Hr : rtc (flow_step false 10 9) (start_sys 2) s).
  { etrans; [by apply (acquire_steps false 10 9 0 9 (start_sys 2)); [|lia|..]|].
    etrans; [by apply (acquire_steps false 10 9 1 9); [|lia|..]|]. apply rtc_refl. }
  split; [exact Hr|]. apply (flow_overshoot 2 10 9 s); [lia|lia|exact Hr].
Defined.

Lemma flow_accounting_witness :
  let s := mkSys 18 false [] [Holding 9; Holding 9] in
  rtc (flow_step true 10 9) (start_sys 2) s ∧ cur s = zsum held (threads s).
Proof.
  intros s. assert (Hr : rtc (flow_step true 10 9) (start_sys 2) s).
  { etrans; [by apply (acquire_steps true 10 9 0 9 (start_sys 2)); [|lia|..]|].
    etrans; [by apply (acquire_steps true 10 9 1 9); [|lia|..]|]. apply rtc_refl. }
  split; [exact Hr|]. apply (flow_accounting true 2 10 9 s); [lia|lia|exact Hr].
Defined.

(** C28. A wake-up can be lost: [Release] subtracts and signals without the mutex, so it
    can fall between the check of a waiting [Acquire] and its entry into the waiting
    list. Then the whole budget is free, everyone else is idle, and the waiter still
    sleeps: no step of its own or of the controller wakes it. *)
Theorem flow_lost_wakeup nb limit S size :
  0 < limit ≤ S → limit < 2 ^ 63 → 0 ≤ size ≤ S →
  ∃ s, rtc (flow_step nb limit S) (start_sys 2) s
    ∧ cur s = 0 ∧ mu s = false ∧ threads s = [Idle; AcqWait size]
    ∧ ∀ s', flow_step nb limit S s s' → threads s' !! 1%nat = Some (AcqWait size).
Proof.
  intros Hl H63 Hs. assert (Hv : s64 limit = limit).
  { apply swrap_id; [done|]. unfold is_int. change (2 ^ (64 - 1)) with (2 ^ 63). lia. }
  exists (mkSys 0 false [1%nat] [Idle; AcqWait size]). split_and!; [|done..|].
  - etrans; [apply (acquire_steps nb limit S 0 limit (start_sys 2)); [done|lia|done|simpl; lia]|].
    cbn [cur waitq threads start_sys]. rewrite Z.add_0_l, Hv.
    eapply rtc_l; [by apply (st_acquire nb limit S 1 size)|].
    eapply rtc_l; [by apply (st_lock nb limit S 1 size)|].
    eapply rtc_l; [apply (st_full nb limit S 1 size); [done|simpl; lia]|].
    eapply rtc_l; [by apply (st_release nb limit S 0 limit)|].
    eapply rtc_l; [by apply (st_signal_none nb limit S 0)|].
    eapply rtc_l; [by apply (st_wait nb limit S 1 size)|].
    unfold goto. cbn [cur mu waitq threads]. rewrite Z.add_opp_diag_r. apply rtc_refl.
  - intros s' Hstep. inversion Hstep as [i ? ? Hi|i ? ? Hi|i ? ? Hi|i ? ? Hi|i ? ? Hi|i ? ? Hi|i ? ? Hi
      |i ? ? Hi|i ? ? ? Hi|i ? ? Hi|i ? ? Hi|i ? Hi|i j ? ? ? Hi]; subst; clear Hstep;
      destruct i as [|[|i]]; simplify_eq/=; done.
Qed.

Lemma flow_lost_wakeup_witness :
  ∃ s, rtc (flow_step false 10 10) (start_sys 2) s ∧ cur s = 0 ∧ threads s = [Idle; AcqWait 1].
Proof.
  destruct (flow_lost_wakeup false 10 10 1) as (s&H1&H2&_&H3&_); [lia|lia|lia|].
  exists s. split_and!; [exact H1|exact H2|exact H3].
Defined.

(** [AcquireNonBlock] checks and adds in two steps, so two callers that both saw
    room exceed the limit together, by up to all of it. *)
Theorem nonblock_race limit S :
  0 < limit ≤ S → limit < 2 ^ 62 →
  ∃ s, rtc (flow_step true limit S) (start_sys 2) s ∧ cur s = 2 * limit
    ∧ threads s = [Holding limit; Holding limit].
Proof.
  intros Hl H62. assert (Hv : ∀ z, 0 ≤ z < 2 ^ 63 → s64 z = z).
  { intros z Hz. apply swrap_id; [done|]. unfold is_int. change (2 ^ (64 - 1)) with (2 ^ 63). lia. }
  assert (2 ^ 63 = 2 * 2 ^ 62) by done.
  exists (mkSys (2 * limit) false [] [Holding limit; Holding limit]). split_and!; [|done..].
  eapply rtc_l; [apply (st_nb_check true limit S 0 limit); [done|done|lia|cbn [cur goto start_sys]; rewrite Hv by lia; lia]|].
  eapply rtc_l; [apply (st_nb_check true limit S 1 limit); [done|done|lia|cbn [cur goto start_sys]; rewrite Hv by lia; lia]|].
  eapply rtc_l; [by apply (st_nb_add true limit S 0 limit)|].
  eapply rtc_l; [by apply (st_nb_add true limit S 1 limit)|].
  unfold goto. cbn [cur mu waitq threads start_sys]. rewrite Z.add_0_l, (Hv limit), Hv by lia. replace (limit + limit) with (2 * limit) by lia.
  apply rtc_refl.
Qed.

Lemma nonblock_race_witness :
  ∃ s, rtc (flow_step true 10 10) (start_sys 2) s ∧ cur s = 20.
Proof. destruct (nonblock_race 10 10) as (s&H1&H2&_); [lia|lia|]. exists s. split; [exact H1|exact H2]. Defined.

(** ** The queues *)

Inductive q_op (A : Type) := QPush (x : A) | QPop.
Arguments QPush {A} x.
Arguments QPop {A}.

Section queue_runs.
Context {A : Type}.

Definition q_pushed (ops : list (q_op A)) : list A :=
  omap (λ op, match op with QPush x => Some x | QPop => None end) ops.

(** Runs the operations and collects the items popped. *)
Fixpoint dq_run (ops : list (q_op A)) : M (DroppableQueue A) (list A) :=
  match ops with
  | [] => mret []
  | QPush x :: ops' => DQ_Push x;; dq_run ops'
  | QPop :: ops' =>
      r ← DQ_Pop; rs ← dq_run ops';
      mret (match r with Some x => x :: rs | None => rs end)
  end.

Lemma dq_run_spec ops : ∀ dq,
  0 < dq_max dq → Z.of_nat (length (dq_items dq)) ≤ dq_max dq →
  0 ≤ dq_dropped dq → dq_dropped dq + Z.of_nat (length ops) < 2 ^ 63 →
  ∃ rs dq', dq_run ops dq = (Ret rs, dq') ∧ dq_max dq' = dq_max dq
    ∧ Z.of_nat (length (dq_items dq')) ≤ dq_max dq
    ∧ rs ++ dq_items dq' `sublist_of` dq_items dq ++ q_pushed ops
    ∧ Z.of_nat (length (dq_items dq ++ q_pushed ops))
      = Z.of_nat (length (rs ++ dq_items dq')) + (dq_dropped dq' - dq_dropped dq).
Proof.
  induction ops as [|[x|] ops IH]; intros [items m d] Hm Hl Hd Ho; cbn [dq_max dq_items dq_dropped length] in *.
  - exists [], (mkDQ items m d). simpl. unfold q_pushed. simpl. rewrite app_nil_r.
    split_and!; [done|done|done|done|lia].
  - change (q_pushed (QPush x :: ops)) with ([x] ++ q_pushed ops). rewrite app_assoc. cbn [dq_run].
    unfold mbind at 1, M_bind at 1, DQ_Push. cbn [dq_max dq_items dq_dropped].
    destruct (Z.leb_spec m (Z.of_nat (length items))).
    + destruct items as [|y rest]; [simpl in *; lia|].
      assert (Hw : s64 (d + 1) = d + 1).
      { apply swrap_id; [done|]. unfold is_int. change (2 ^ (64 - 1)) with (2 ^ 63). lia. }
      rewrite Hw. destruct (IH (mkDQ (rest ++ [x]) m (d + 1))) as (rs&dq'&Hr&H1&H2&H3&H4);
        cbn [dq_max dq_items dq_dropped] in *; rewrite ?length_app in *; cbn [length] in *; [lia..|].
      exists rs, dq'. split_and!; [done|done|lia| |].
      * etrans; [exact H3|]. by apply sublist_cons.
      * rewrite !length_app in *. cbn [length] in *. lia.
    + destruct (IH (mkDQ (items ++ [x]) m d)) as (rs&dq'&Hr&H1&H2&H3&H4);
        cbn [dq_max dq_items dq_dropped] in *; rewrite ?length_app in *; cbn [length] in *; [lia..|].
      exists rs, dq'. split_and!; [done|done|lia|done|]. rewrite !length_app in *. cbn [length] in *. lia.
  - change (q_pushed (QPop :: ops)) with (q_pushed ops). cbn [dq_run].
    unfold mbind at 1, M_bind at 1, DQ_Pop. cbn [dq_max dq_items dq_dropped]. destruct items as [|y rest].
    + destruct (IH (mkDQ [] m d)) as (rs&dq'&Hr&H1&H2&H3&H4); cbn [dq_max dq_items dq_dropped length] in *; [lia..|].
      exists rs, dq'. rewrite (bind_ret _ _ _ _ _ Hr). by split_and!.
    + destruct (IH (mkDQ rest m d)) as (rs&dq'&Hr&H1&H2&H3&H4); cbn [dq_max dq_items dq_dropped length] in *; [lia..|].
      exists (y :: rs), dq'. rewrite (bind_ret _ _ _ _ _ Hr). split_and!; [done|done|lia| |].
      * cbn [app]. by apply sublist_skip.
      * cbn [app length]. lia.
Qed.
End queue_runs.

(** The droppable queue over any sequence of [Push] and [Pop]: it never holds more
    than [maxSize] items and never blocks or panics, it delivers items in the order
    they were pushed, and every item is delivered, still queued, or counted in
    [Dropped]. *)
Theorem droppable_queue_accounting {A} (ops : list (q_op A)) dq :
  0 < dq_max dq → Z.of_nat (length (dq_items dq)) ≤ dq_max dq →
  0 ≤ dq_dropped dq → dq_dropped dq + Z.of_nat (length ops) < 2 ^ 63 →
  ∃ rs dq', dq_run ops dq = (Ret rs, dq')
    ∧ Z.of_nat (length (dq_items dq')) ≤ dq_max dq
    ∧ rs ++ dq_items dq' `sublist_of` dq_items dq ++ q_pushed ops
    ∧ Z.of_nat (length (dq_items dq ++ q_pushed ops))
      = Z.of_nat (length (rs ++ dq_items dq')) + (Dropped dq' - Dropped dq).
Proof.
  intros. destruct (dq_run_spec ops dq) as (rs&dq'&?&?&?&?&?); [done..|]. by exists rs, dq'.
Qed.

Lemma droppable_queue_accounting_witness :
  ∃ rs dq', dq_run [QPush 1; QPush 2; QPush 3; QPop; QPush 4] (mkDQ [] 2 0) = (Ret rs, dq')
    ∧ Z.of_nat (length (dq_items dq')) ≤ 2.
Proof.
  destruct (droppable_queue_accounting [QPush 1; QPush 2; QPush 3; QPop; QPush 4] (mkDQ [] 2 0))
    as (rs&dq'&H1&H2&_); simpl; [lia..|].
  exists rs, dq'. split; [exact H1|exact H2].
Defined.
