(* ===== verification/Metrics.v ===== *)
(** * Connection metrics ([conn/metrics.go])

    The counters are 64-bit atomics; [RecordLatency] also keeps a running average and
    a histogram under a mutex.  Each method is one step here. *)

From S2P Require Export Flow.
#[local] Open Scope Z_scope.

(** ** The counters *)

Record Metrics := mkMetrics {
  PacketsRead : Z; PacketsWritten : Z; BytesRead : Z; BytesWritten : Z;
  ReadErrors : Z; WriteErrors : Z; DecodeErrors : Z; EncodeErrors : Z; DroppedPackets : Z;
  lastLatency : Z; averageLatency : Z; sampleCount : Z;
  latencyHist : list Z;
}.

Definition zero_metrics : Metrics := mkMetrics 0 0 0 0 0 0 0 0 0 0 0 0 (replicate 10 0).

Definition RecordRead (bytes : Z) (m : Metrics) : Metrics :=
  mkMetrics (s64 (PacketsRead m + 1)) (PacketsWritten m) (s64 (BytesRead m + bytes)) (BytesWritten m)
    (ReadErrors m) (WriteErrors m) (DecodeErrors m) (EncodeErrors m) (DroppedPackets m)
    (lastLatency m) (averageLatency m) (sampleCount m) (latencyHist m).

Definition RecordWrite (bytes : Z) (m : Metrics) : Metrics :=
  mkMetrics (PacketsRead m) (s64 (PacketsWritten m + 1)) (BytesRead m) (s64 (BytesWritten m + bytes))
    (ReadErrors m) (WriteErrors m) (DecodeErrors m) (EncodeErrors m) (DroppedPackets m)
    (lastLatency m) (averageLatency m) (sampleCount m) (latencyHist m).

(** The [switch] of [RecordLatency]. *)
Definition bucket (ns : Z) : nat :=
  if ns <? 1000 then 0
  else if ns <? 10000 then 1
  else if ns <? 100000 then 2
  else if ns <? 1000000 then 3
  else if ns <? 10000000 then 4
  else if ns <? 100000000 then 5
  else if ns <? 500000000 then 6
  else 7.

(** [RecordLatency], for a duration of [ns] nanoseconds. Go's division truncates. *)
Definition RecordLatency (ns : Z) (m : Metrics) : Metrics :=
  let count := sampleCount m in
  let avg := averageLatency m in
  let newAvg := if count =? 0 then ns else s64 (avg + Z.quot (s64 (ns - avg)) (s64 (count + 1))) in
  mkMetrics (PacketsRead m) (PacketsWritten m) (BytesRead m) (BytesWritten m)
    (ReadErrors m) (WriteErrors m) (DecodeErrors m) (EncodeErrors m) (DroppedPackets m)
    ns newAvg (s64 (count + 1)) (alter (λ n, s64 (n + 1)) (bucket ns) (latencyHist m)).

Definition Latency (m : Metrics) : Z := lastLatency m.
Definition AverageLatency (m : Metrics) : Z := averageLatency m.
Definition LatencyHistogram (m : Metrics) : list Z := latencyHist m.

Record MetricsSnapshot := mkSnapshot {
  snPacketsRead : Z; snPacketsWritten : Z; snBytesRead : Z; snBytesWritten : Z;
  snReadErrors : Z; snWriteErrors : Z; snDroppedPackets : Z; snLatency : Z; snAverageLatency : Z;
}.

Definition Snapshot (m : Metrics) : MetricsSnapshot :=
  mkSnapshot (PacketsRead m) (PacketsWritten m) (BytesRead m) (BytesWritten m)
    (ReadErrors m) (WriteErrors m) (DroppedPackets m) (Latency m) (AverageLatency m).

Definition Metrics_Reset (m : Metrics) : Metrics :=
  mkMetrics 0 0 0 0 0 0 0 0 0 0 0 0 ((λ _, 0) <$> latencyHist m).

Record ConnMetrics := mkConnMetrics { Inbound : Metrics; Outbound : Metrics }.

Definition NewConnMetrics : ConnMetrics := mkConnMetrics zero_metrics zero_metrics.

(** ** Reference: the statistics of a list of samples *)

(** Recorded in the order of the list. *)
Definition record_all (ds : list Z) (m : Metrics) : Metrics := foldl (λ m d, RecordLatency d m) m ds.

(** The ranges of the histogram, in nanoseconds: below a microsecond, one decade per
    bucket up to 100 milliseconds, up to half a second, and the rest; the last two of
    the ten buckets are never used. *)
Definition usec : Z := 1000.
Definition msec : Z := 1000 * usec.
Definition in_range (b : nat) (d : Z) : Prop :=
  match b with
  | 0%nat => d < 1 * usec
  | 1%nat => 1 * usec ≤ d < 10 * usec
  | 2%nat => 10 * usec ≤ d < 100 * usec
  | 3%nat => 100 * usec ≤ d < 1 * msec
  | 4%nat => 1 * msec ≤ d < 10 * msec
  | 5%nat => 10 * msec ≤ d < 100 * msec
  | 6%nat => 100 * msec ≤ d < 500 * msec
  | 7%nat => 500 * msec ≤ d
  | _ => False
  end.

#[export] Instance in_range_dec b d : Decision (in_range b d).
Proof. do 8 (destruct b as [|b]; [cbn [in_range]; apply _|]). apply _. Defined.

Definition in_bucket (b : nat) (ds : list Z) : Z := zsum (λ d, if decide (in_range b d) then 1 else 0) ds.

(** ** Lemmas *)

Lemma in_bucket_le b ds : 0 ≤ in_bucket b ds ≤ Z.of_nat (length ds).
Proof.
  unfold in_bucket. rewrite <- (Z.mul_1_r (Z.of_nat (length ds))). apply zsum_range.
  apply Forall_forall. intros. case_decide; lia.
Qed.

Lemma bucket_lt ns : (bucket ns < 8)%nat.
Proof. unfold bucket. repeat case_match; lia. Qed.

Lemma bucket_in_range d b : in_range b d ↔ bucket d = b.
Proof.
  unfold bucket, in_range, msec, usec.
  do 8 (destruct b as [|b]; [repeat case_match; lia|]). repeat case_match; lia.
Qed.

(** One step of the running average: it moves from [avg] towards [ns] and by less than
    [n + 1] off the exact value. *)
Lemma average_step avg ns n lo hi :
  0 < n → lo ≤ avg ≤ hi → lo ≤ ns ≤ hi →
  let avg' := avg + Z.quot (ns - avg) (n + 1) in
  lo ≤ avg' ≤ hi ∧ Z.abs ((n + 1) * avg' - (n * avg + ns)) ≤ n.
Proof.
  intros Hn Ha Hs avg'. unfold avg'. clear avg'.
  pose proof (Z.quot_rem' (ns - avg) (n + 1)) as E.
  pose proof (Z.rem_bound_abs (ns - avg) (n + 1)) as B.
  set (q := Z.quot (ns - avg) (n + 1)) in *. set (r := Z.rem (ns - avg) (n + 1)) in *.
  assert (Z.abs r ≤ n) by lia. split; [|rewrite Z.abs_le; rewrite Z.abs_le in *; nia].
  destruct (Z.le_gt_cases avg ns).
  - assert (0 ≤ q) by (apply Z.quot_pos; lia).
    assert (0 ≤ r) by (apply Z.rem_nonneg; lia). nia.
  - assert (q ≤ 0) by (unfold q; replace (ns - avg) with (- (avg - ns)) by lia; rewrite Z.quot_opp_l by lia;
      pose proof (Z.quot_pos (avg - ns) (n + 1)); lia).
    assert (r ≤ 0) by (apply Z.rem_nonpos; lia). nia.
Qed.

Definition lat_ok (lo hi : Z) (ds : list Z) (m : Metrics) : Prop :=
  let n := Z.of_nat (length ds) in
  sampleCount m = n
  ∧ (ds ≠ [] → lo ≤ averageLatency m ≤ hi ∧ 2 * Z.abs (n * averageLatency m - zsum id ds) ≤ n * (n - 1))
  ∧ length (latencyHist m) = 10%nat
  ∧ ∀ b, (b < 10)%nat → latencyHist m !! b = Some (in_bucket b ds).

Lemma record_hist ds d h :
  Z.of_nat (length ds) < 2 ^ 63 - 1 → length h = 10%nat →
  (∀ b, (b < 10)%nat → h !! b = Some (in_bucket b ds)) →
  ∀ b, (b < 10)%nat → alter (λ n, s64 (n + 1)) (bucket d) h !! b = Some (in_bucket b (ds ++ [d])).
Proof.
  intros Hn Hl Hh b Hb. unfold in_bucket in *. rewrite zsum_app. cbn [zsum foldr].
  pose proof (in_bucket_le b ds) as Hle. unfold in_bucket in Hle.
  case_decide as E; rewrite bucket_in_range in E.
  - subst b. rewrite list_lookup_alter_eq, Hh by done. simpl. f_equal. rewrite swrap_id; [lia|done|].
    unfold is_int. change (2 ^ (64 - 1)) with (2 ^ 63). lia.
  - rewrite list_lookup_alter_ne by done. rewrite Hh by done. f_equal. lia.
Qed.

Lemma record_step lo hi ds d m :
  is_int 64 lo → is_int 64 hi → hi - lo < 2 ^ 63 → lo ≤ d ≤ hi → Z.of_nat (length ds) < 2 ^ 63 - 1 →
  lat_ok lo hi ds m → lat_ok lo hi (ds ++ [d]) (RecordLatency d m).
Proof.
  intros Hlo Hhi Hw Hd Hn (Hc&Ha&Hl&Hh). unfold is_int in *. change (2 ^ (64 - 1)) with (2 ^ 63) in *.
  assert (Hid : ∀ z, - 2 ^ 63 ≤ z < 2 ^ 63 → s64 z = z) by (intros; apply swrap_id; done).
  assert (Hlen : Z.of_nat (length (ds ++ [d])) = Z.of_nat (length ds) + 1) by (rewrite length_app; simpl; lia).
  unfold lat_ok, RecordLatency. cbn [sampleCount averageLatency latencyHist]. rewrite Hlen, Hc.
  split_and!; [apply Hid; lia| |by rewrite length_alter|by apply record_hist].
  intros _. rewrite zsum_app. change (zsum id [d]) with (d + 0).
  destruct (decide (ds = [])) as [->|Hne]; [cbn [length zsum foldr]; change (Z.of_nat 0 =? 0) with true; cbv iota; lia|].
  destruct (Ha Hne) as [Hav Herr]. set (n := Z.of_nat (length ds)) in *.
  assert (0 < n) by (destruct ds; [done|]; unfold n; simpl length; lia).
  rewrite (proj2 (Z.eqb_neq n 0)) by lia.
  destruct (average_step (averageLatency m) d n lo hi) as [Hr He]; [done|done|done|].
  rewrite (Hid (n + 1)) by lia. rewrite (Hid (d - averageLatency m)) by lia. rewrite Hid by lia. split; [done|]. nia.
Qed.

(** ** The properties of the component *)

(** C31. The statistics of [RecordLatency]: after any fewer than 2^63 samples between
    [lo] and [hi], two 64-bit bounds less than 2^63 apart (so that no difference of
    two samples overflows), the last latency is the last sample, the sample count is
    exact, every bucket of the histogram counts the samples in its range of
    durations, the running average lies between [lo] and [hi], and the truncation of
    its integer steps has put it at most half the sample count off the true mean. *)
Theorem latency_statistics ds lo hi :
  ds ≠ [] → is_int 64 lo → is_int 64 hi → hi - lo < 2 ^ 63 → Forall (λ d, lo ≤ d ≤ hi) ds →
  Z.of_nat (length ds) < 2 ^ 63 →
  let n := Z.of_nat (length ds) in
  let m := record_all ds zero_metrics in
  last ds = Some (Latency m) ∧ sampleCount m = n ∧ lo ≤ AverageLatency m ≤ hi
  ∧ 2 * Z.abs (n * AverageLatency m - zsum id ds) ≤ n * (n - 1)
  ∧ (∀ b, (b < 10)%nat → LatencyHistogram m !! b = Some (in_bucket b ds)).
Proof.
  intros Hne Hlo Hhi Hw Hall Hn n m.
  assert (H : lat_ok lo hi ds m).
  { unfold m, record_all. clear n m Hne. induction ds as [|d ds IH] using rev_ind.
    - split_and!; [done|done|done|]. intros b Hb. by apply (lookup_replicate_2 10 0 b).
    - rewrite foldl_app. cbn [foldl]. apply Forall_app in Hall as [Hall [Hd _]%Forall_cons_1].
      rewrite length_app in Hn. simpl in Hn. apply record_step; [done|done|done|done|lia|]. apply IH; [done|lia]. }
  destruct H as (H1&H2&_&H3). destruct (H2 Hne) as [Ha Hb].
  split; [|exact (conj H1 (conj Ha (conj Hb H3)))]. unfold m, record_all.
  destruct ds as [|d ds' _] using rev_ind; [done|]. by rewrite last_snoc, foldl_app.
Qed.

Lemma latency_statistics_witness :
  let ds := [1500; 900; 2000000; 700000000] in
  let m := record_all ds zero_metrics in
  500 ≤ AverageLatency m ≤ 10 ^ 9 ∧ LatencyHistogram m = [1; 1; 0; 0; 1; 0; 0; 1; 0; 0].
Proof.
  intros ds m. destruct (latency_statistics ds 500 (10 ^ 9)) as (_&_&H&_); [done|done|done|done|repeat constructor; lia|done|].
  split; [exact H|reflexivity].
Defined.

(** [Reset] brings the metrics back to their initial value, whatever was recorded; the
    next samples count as the first ones. *)
Theorem reset_forgets m ds :
  length (latencyHist m) = 10%nat → record_all ds (Metrics_Reset m) = record_all ds zero_metrics.
Proof.
  intros Hl. f_equal. unfold Metrics_Reset, zero_metrics. f_equal.
  rewrite <- Hl. clear Hl. induction (latencyHist m) as [|x h IH]; [done|]. cbn [fmap list_fmap length replicate]. by f_equal.
Qed.
