(* ===== verification/Batch.v ===== *)
(** * The batching writer ([conn/batch.go])

    The buffer comes from the pool and may be longer than was asked for: [bcap]
    and [blen] of [Pool] keep [cap] and [len] apart, as the code does.  A tick of
    [flushLoop] is an operation of its own that the timer may run between any two
    others. *)

From S2P Require Export Packet.
#[local] Open Scope Z_scope.

Record BatchWriter := mkBW {
  bw_buf : Buf;
  buffered : Z;
  bw_threshold : Z;
  flushInt : Z;
  bw_closed : bool;
  timer : bool;            (* the flush timer is running *)
}.

(** The writer with the pool and the destination it works on. *)
Record BatchWorld := mkBatch { bpool : Pool; bdst : Writer; bw : BatchWriter }.

Definition on_bpool {A} : M Pool A → M BatchWorld A :=
  zoom bpool (λ p w, mkBatch p (bdst w) (bw w)).
Definition on_bdst {A} : M Writer A → M BatchWorld A :=
  zoom bdst (λ d w, mkBatch (bpool w) d (bw w)).
Definition put_bw (b : BatchWriter) : M BatchWorld () := modify (λ w, mkBatch (bpool w) (bdst w) b).

Definition set_buffered (n : Z) (b : BatchWriter) : BatchWriter :=
  mkBW (bw_buf b) n (bw_threshold b) (flushInt b) (bw_closed b) (timer b).
Definition set_timer (t : bool) (b : BatchWriter) : BatchWriter :=
  mkBW (bw_buf b) (buffered b) (bw_threshold b) (flushInt b) (bw_closed b) t.

Definition NewBatchWriter (flushInterval bufferSize : Z) : M Pool BatchWriter :=
  buf ← GetBuffer bufferSize;
  mret (mkBW buf 0 (Z.quot bufferSize 2) flushInterval false false).

(** Each operation returns its error as a value. *)
Definition flushLocked : M BatchWorld (option error) :=
  w ← get;
  if buffered (bw w) =? 0 then mret None
  else
    b ← liftO (reslice (bw_buf (bw w)) (buffered (bw w)));
    '(_, err) ← on_bdst (Write (bytes b));
    put_bw (set_timer false (set_buffered 0 (bw w)));;
    mret err.

(** The part of [Write] after room was made: past the buffer, or into it. *)
Definition BW_store (data : list byte) : M BatchWorld (Z * option error) :=
  w ← get;
  let b := bw w in
  if Z.of_nat (bcap (bw_buf b)) <? Z.of_nat (length data) then on_bdst (Write data)
  else if (buffered b <? 0) || (Z.of_nat (blen (bw_buf b)) <? buffered b) then crash SliceOutOfRange
  else
    let off := Z.to_nat (buffered b) in
    let n := Nat.min (blen (bw_buf b) - off) (length data) in
    let b := mkBW (copy_at (bw_buf b) off data) (buffered b + Z.of_nat n)
                  (bw_threshold b) (flushInt b) (bw_closed b) (timer b) in
    put_bw b;;
    if bw_threshold b <=? buffered b then
      err ← flushLocked;
      mret (match err with
            | Some e => (Z.of_nat n, Some e)
            | None => (Z.of_nat (length data), None)
            end)
    else
      put_bw (if 0 <? flushInt b then set_timer true b else b);;
      mret (Z.of_nat (length data), None).

Definition BW_Write (data : list byte) : M BatchWorld (Z * option error) :=
  w ← get;
  if bw_closed (bw w) then mret (0, Some ErrConnectionClosed)
  else
    err ← (if Z.of_nat (bcap (bw_buf (bw w))) - buffered (bw w) <? Z.of_nat (length data)
           then flushLocked else mret None);
    match err with
    | Some e => mret (0, Some e)
    | None => BW_store data
    end.

Definition BW_Flush : M BatchWorld (option error) := flushLocked.

(** One tick of [flushLoop]; the error of the flush is dropped. *)
Definition BW_tick : M BatchWorld () :=
  w ← get;
  if negb (bw_closed (bw w)) && (0 <? buffered (bw w)) then flushLocked;; mret () else mret ().

Definition BW_Close : M BatchWorld (option error) :=
  w ← get;
  let b := bw w in
  put_bw (mkBW (bw_buf b) (buffered b) (bw_threshold b) (flushInt b) true false);;
  err ← flushLocked;
  on_bpool (PutBuffer (bw_buf b));;
  mret err.

(** ** Sequences of operations *)

Inductive bw_op := BWrite (data : list byte) | BFlush | BTick.

(** Runs the operations; stops at the first error that is reported. *)
Fixpoint run_bw (ops : list bw_op) : M BatchWorld () :=
  match ops with
  | [] => mret ()
  | BWrite data :: ops' =>
      '(_, err) ← BW_Write data;
      match err with Some e => fail e | None => run_bw ops' end
  | BFlush :: ops' => err ← BW_Flush; match err with Some e => fail e | None => run_bw ops' end
  | BTick :: ops' => BW_tick;; run_bw ops'
  end.

Definition written (ops : list bw_op) : list byte :=
  concat (omap (λ op, match op with BWrite d => Some d | _ => None end) ops).

(** The bytes accepted and not yet passed on. *)
Definition pending (b : BatchWriter) : list byte := take (Z.to_nat (buffered b)) (mem (bw_buf b)).

(** A usable writer with a buffer of length [n] and capacity [c] and threshold [t], on a
    destination that does not fail: between operations it holds fewer bytes than the
    threshold, or none. *)
Record bw_ok (n c : nat) (t : Z) (w : BatchWorld) : Prop := {
  bo_len : blen (bw_buf (bw w)) = n;
  bo_cap : bcap (bw_buf (bw w)) = c;
  bo_thr : bw_threshold (bw w) = t;
  bo_fit : (n ≤ c)%nat;
  bo_room : 0 ≤ buffered (bw w) ≤ Z.of_nat n;
  bo_few : buffered (bw w) = 0 ∨ buffered (bw w) < t;
  bo_pos : 0 ≤ t;
  bo_open : bw_closed (bw w) = false;
  bo_dst : wplan (bdst w) = [];
}.

(** The writes a buffer of length [n] and capacity [c] takes in full: any, when the two
    are equal; else those that leave room for what may be buffered, and those larger
    than the array, which go past the buffer. *)
Definition fits (n c : nat) (t : Z) (data : list byte) : Prop :=
  n = c ∨ (c < length data)%nat ∨ Z.of_nat (length data) + t ≤ Z.of_nat n.

Definition op_fits (n c : nat) (t : Z) (op : bw_op) : Prop :=
  match op with BWrite data => fits n c t data | _ => True end.

(** ** Lemmas *)

Lemma flush_ok w :
  0 ≤ buffered (bw w) ≤ Z.of_nat (bcap (bw_buf (bw w))) → wplan (bdst w) = [] →
  ∃ w', flushLocked w = (Ret None, w') ∧ bpool w' = bpool w ∧ wplan (bdst w') = []
    ∧ wout (bdst w') = wout (bdst w) ++ pending (bw w)
    ∧ buffered (bw w') = 0 ∧ bw_buf (bw w') = bw_buf (bw w) ∧ bw_closed (bw w') = bw_closed (bw w)
    ∧ bw_threshold (bw w') = bw_threshold (bw w).
Proof.
  destruct w as [p d [b n t f c tm]]. cbn [bw bdst bpool buffered bw_buf]. intros Hn Hp.
  unfold flushLocked, mbind, M_bind, get, liftO. cbn [bw buffered bw_buf].
  destruct (Z.eqb_spec n 0) as [->|Hne].
  { eexists. split; [done|]. unfold pending. cbn [buffered bw bw_buf bdst bpool bw_closed Z.to_nat].
    rewrite take_0, app_nil_r. by split_and!. }
  unfold reslice. rewrite decide_True by lia. unfold on_bdst, zoom, Write. cbn [bdst]. rewrite Hp.
  eexists. split; [done|]. cbn [bdst bpool bw buffered bw_buf bw_closed set_timer set_buffered wplan].
  rewrite wout_snoc. by split_and!.
Qed.

Section usable.
Context (n c : nat) (t : Z).

(** A flush keeps a usable writer usable and moves the pending bytes out. *)
Lemma flush_stream w :
  bw_ok n c t w →
  ∃ w', flushLocked w = (Ret None, w') ∧ bw_ok n c t w' ∧ pending (bw w') = []
    ∧ wout (bdst w') = wout (bdst w) ++ pending (bw w) ∧ buffered (bw w') = 0.
Proof.
  intros [Hl Hca Ht Hf Hn Hfew Hpos Hc Hp].
  destruct (flush_ok w) as (w'&Hfl&Hpl&Hp'&Hout&Hb0&Hbuf&Hcl&Hth); [lia|done|].
  exists w'. unfold pending. rewrite Hb0. split_and!; try done.
  split; rewrite ?Hbuf, ?Hb0, ?Hcl, ?Hth; try done; lia.
Qed.

Lemma store_ok data w :
  bw_ok n c t w →
  ((c < length data)%nat → pending (bw w) = []) →
  ((length data ≤ c)%nat → buffered (bw w) + Z.of_nat (length data) ≤ Z.of_nat n) →
  ∃ w', BW_store data w = (Ret (Z.of_nat (length data), None), w') ∧ bw_ok n c t w'
    ∧ wout (bdst w') ++ pending (bw w') = wout (bdst w) ++ pending (bw w) ++ data.
Proof.
  intros [Hl Hca Ht Hf Hn Hfew Hpos Hc Hp] Hbig Hroom.
  unfold BW_store. unfold mbind at 1, M_bind at 1, get. cbv beta iota zeta. rewrite Hca, Hl.
  destruct (Z.ltb_spec (Z.of_nat c) (Z.of_nat (length data))) as [Hlt|Hge].
  { unfold on_bdst, zoom, Write. rewrite Hp. eexists. split; [done|]. cbn [bdst bw wplan].
    split; [by split|]. rewrite wout_snoc, Hbig by lia. by rewrite !app_nil_r. }
  rewrite (proj2 (Z.ltb_ge _ 0)), (proj2 (Z.ltb_ge _ _)) by lia. cbn [orb].
  specialize (Hroom ltac:(lia)). set (off := Z.to_nat (buffered (bw w))).
  rewrite (Nat.min_r (n - off)) by lia.
  set (b := mkBW _ _ _ _ _ _). set (w1 := mkBatch (bpool w) (bdst w) b).
  assert (Hmem : bcap (bw_buf b) = c).
  { unfold b, copy_at. cbn [bw_buf]. rewrite take_ge by lia. rewrite bcap_fill; lia. }
  assert (Hpend : pending b = pending (bw w) ++ data).
  { unfold pending, b, copy_at, fill_at. cbn [bw_buf buffered mem]. rewrite (take_ge data) by lia.
    fold off. rewrite app_assoc, take_app_length'; [done|].
    rewrite length_app, length_take. unfold bcap in *. lia. }
  rewrite (bind_ret _ _ _ () w1) by done.
  assert (Hth : bw_threshold b = t) by done. rewrite Hth.
  destruct (Z.leb_spec t (buffered b)) as [Hle|Hgt].
  - destruct (flush_ok w1) as (w2&Hfl&_&Hp2&Hout&Hb0&Hbuf&Hcl&Hth2);
      [cbn [w1 bw]; rewrite Hmem; cbn [b buffered]; lia|done|].
    rewrite (bind_ret _ _ _ _ _ Hfl). exists w2. split_and!; [done| |].
    + split; rewrite ?Hbuf, ?Hb0, ?Hcl, ?Hth2; try done; lia.
    + rewrite Hout. unfold pending at 2. rewrite Hb0. cbn [Z.to_nat w1 bw bdst].
      by rewrite take_0, app_nil_r, Hpend.
  - set (b2 := if 0 <? flushInt b then set_timer true b else b).
    exists (mkBatch (bpool w) (bdst w) b2). split; [done|].
    assert (bw_buf b2 = bw_buf b ∧ buffered b2 = buffered b ∧ bw_closed b2 = bw_closed b ∧ bw_threshold b2 = t)
      as (E1&E2&E3&E4) by (unfold b2; by destruct (0 <? flushInt b)).
    unfold pending in *. cbn [bw bdst]. rewrite E1, E2. split; [|by rewrite <- Hpend].
    split; cbn [bw bdst]; rewrite ?E1, ?E2, ?E3, ?E4; try done; [|by right].
    cbn [b buffered] in *. lia.
Qed.

Lemma bw_write_ok data w :
  bw_ok n c t w → fits n c t data →
  ∃ w', BW_Write data w = (Ret (Z.of_nat (length data), None), w') ∧ bw_ok n c t w'
    ∧ wout (bdst w') ++ pending (bw w') = wout (bdst w) ++ pending (bw w) ++ data.
Proof.
  intros Hok Hfit. pose proof Hok as [Hl Hca Ht Hf Hn Hfew Hpos Hc Hp]. unfold fits in Hfit. unfold BW_Write.
  unfold mbind at 1, M_bind at 1, get at 1. cbv beta iota. rewrite Hc, Hca.
  destruct (Z.ltb_spec (Z.of_nat c - buffered (bw w)) (Z.of_nat (length data))).
  - destruct (flush_stream w Hok) as (w1&Hfl&Hok1&Hpe&Hout&Hb0). rewrite (bind_ret _ _ _ _ _ Hfl).
    destruct (store_ok data w1 Hok1) as (w2&Hs&Hok2&Hout2); [done|rewrite Hb0; lia|].
    exists w2. split_and!; [done|done|]. by rewrite Hout2, Hpe, Hout, <- app_assoc.
  - rewrite (bind_ret _ _ _ None w) by done. apply store_ok; [done|lia|lia].
Qed.

Lemma run_bw_stream ops : ∀ w, bw_ok n c t w → Forall (op_fits n c t) ops →
  ∃ w', run_bw ops w = (Ret (), w') ∧ bw_ok n c t w'
    ∧ wout (bdst w') ++ pending (bw w') = wout (bdst w) ++ pending (bw w) ++ written ops.
Proof.
  induction ops as [|op ops IH]; intros w Hok Hfit.
  { exists w. split_and!; [done|done|]. unfold written. simpl. by rewrite app_nil_r. }
  apply Forall_cons_1 in Hfit as [Hop Hfit].
  assert (Hskip : ∀ w1, bw_ok n c t w1 →
    wout (bdst w1) ++ pending (bw w1) = wout (bdst w) ++ pending (bw w) →
    ∃ w', run_bw ops w1 = (Ret (), w') ∧ bw_ok n c t w'
      ∧ wout (bdst w') ++ pending (bw w') = wout (bdst w) ++ pending (bw w) ++ written ops).
  { intros w1 Hok1 E. destruct (IH w1 Hok1 Hfit) as (w'&?&?&Hout). exists w'. split_and!; [done|done|].
    by rewrite Hout, !app_assoc, E. }
  destruct op as [data| |]; cbn [run_bw].
  - destruct (bw_write_ok data w Hok Hop) as (w1&Hw&Hok1&Hout1). rewrite (bind_ret _ _ _ _ _ Hw).
    destruct (IH w1 Hok1 Hfit) as (w'&?&?&Hout). exists w'. split_and!; [done|done|].
    rewrite Hout, app_assoc, Hout1. unfold written. simpl. by rewrite <- !app_assoc.
  - destruct (flush_stream w Hok) as (w1&Hf&Hok1&Hpe&Hout&_). unfold BW_Flush. rewrite (bind_ret _ _ _ _ _ Hf).
    apply Hskip; [done|]. by rewrite Hpe, Hout, app_nil_r.
  - unfold BW_tick. unfold mbind at 2, M_bind at 2, get. cbv beta.
    unfold mbind at 1, M_bind at 1. rewrite (bo_open _ _ _ _ Hok). destruct (_ && _).
    + destruct (flush_stream w Hok) as (w1&Hf&Hok1&Hpe&Hout&_). rewrite (bind_ret _ _ _ _ _ Hf).
      apply Hskip; [done|]. by rewrite Hpe, Hout, app_nil_r.
    + by apply Hskip.
Qed.
End usable.

Lemma close_ok w :
  0 ≤ buffered (bw w) ≤ Z.of_nat (bcap (bw_buf (bw w))) → wplan (bdst w) = [] →
  ∃ w', BW_Close w = (Ret None, w') ∧ wout (bdst w') = wout (bdst w) ++ pending (bw w) ∧ bw_closed (bw w') = true.
Proof.
  intros Hn Hp. unfold BW_Close. unfold mbind at 1, M_bind at 1, get. cbv beta iota zeta.
  set (b1 := mkBW _ _ _ _ _ _). set (w1 := mkBatch (bpool w) (bdst w) b1).
  rewrite (bind_ret _ _ _ () w1) by done.
  destruct (flush_ok w1) as (w2&Hf&_&_&Hout&_&_&Hcl&_); [done|done|]. rewrite (bind_ret _ _ _ _ _ Hf).
  assert (∃ p', PutBuffer (bw_buf (bw w)) (bpool w2) = (Ret (), p')) as (p'&Hput).
  { unfold PutBuffer. repeat case_decide; by eexists. }
  eexists. rewrite (bind_ret _ _ _ () (mkBatch p' (bdst w2) (bw w2))) by (unfold on_bpool, zoom; by rewrite Hput).
  by split_and!.
Qed.

Lemma new_bw_ok fi size p d :
  0 ≤ size → pool_wf p → wplan d = [] →
  ∃ b p', NewBatchWriter fi size p = (Ret b, p') ∧ buffered b = 0
    ∧ bw_ok (Z.to_nat size) (bcap (bw_buf b)) (size / 2) (mkBatch p' d b).
Proof.
  intros Hs Hp Hd. destruct (GetBuffer_spec size p Hs Hp) as (buf&p'&Hg&Hl&Hc&_).
  unfold NewBatchWriter. rewrite (bind_ret _ _ _ _ _ Hg). eexists _, p'. split_and!; [done|done|].
  split; cbn [bw bdst bw_buf bw_threshold buffered bw_closed]; try done; try lia.
  - apply Z.quot_div_nonneg; lia.
  - apply Z.div_pos; lia.
Qed.

(** ** The properties of the component *)

(** C29. Batching, from [NewBatchWriter] with any size on any pool, over any sequence of
    writes, flushes and timer ticks, on a destination that does not fail.  As long as
    each write is at most the part of the buffer above the threshold (half its size,
    rounded up), or larger than the whole array, or the pool's array is exactly as large
    as was asked for, no operation reports an error and at any time the bytes the
    destination has received, followed by those still in the buffer, are the bytes
    written, in order.  [Close] then delivers the rest: the destination has exactly the
    bytes written, and further writes are refused. *)
Theorem batch_stream fi size p d ops :
  0 ≤ size → pool_wf p → wplan d = [] →
  ∃ b p', NewBatchWriter fi size p = (Ret b, p') ∧
    (Forall (op_fits (Z.to_nat size) (bcap (bw_buf b)) (size / 2)) ops →
     ∃ w1 w2, run_bw ops (mkBatch p' d b) = (Ret (), w1)
       ∧ wout (bdst w1) ++ pending (bw w1) = wout d ++ written ops
       ∧ BW_Close w1 = (Ret None, w2) ∧ wout (bdst w2) = wout d ++ written ops
       ∧ ∀ data, BW_Write data w2 = (Ret (0, Some ErrConnectionClosed), w2)).
Proof.
  intros Hs Hp Hd. destruct (new_bw_ok fi size p d Hs Hp Hd) as (b&p'&Hnew&Hb0&Hok).
  exists b, p'. split; [done|]. intros Hfit.
  destruct (run_bw_stream _ _ _ ops _ Hok Hfit) as (w1&Hr&[Hl1 Hc1 _ Hf1 Hn1 _ _ _ Hp1]&Hout).
  assert (Hpe : pending (bw (mkBatch p' d b)) = []) by (unfold pending; cbn [bw]; by rewrite Hb0).
  rewrite Hpe in Hout. cbn [bdst app] in Hout.
  destruct (close_ok w1) as (w2&Hc&Hout2&Hcl); [lia|done|].
  exists w1, w2. split_and!; try done; [by rewrite Hout2|]. intros data. unfold BW_Write, mbind, M_bind, get.
  by rewrite Hcl.
Qed.

Lemma batch_stream_witness :
  let p := mkPool [mkBuf 0 (replicate 12 x00) 12] 1 in
  let ops := [BWrite [x41]; BTick; BWrite [x42; x43]; BWrite (replicate 13 x44); BFlush; BWrite [x45]] in
  ∃ b p' w1 w2, NewBatchWriter 1 8 p = (Ret b, p') ∧ run_bw ops (mkBatch p' (mkWriter [] []) b) = (Ret (), w1)
    ∧ BW_Close w1 = (Ret None, w2) ∧ wout (bdst w2) = written ops.
Proof.
  intros p ops. destruct (batch_stream 1 8 p (mkWriter [] []) ops) as (b&p'&Hb&H).
  - lia.
  - split_and!; [cbn; unfold bufPoolCap; lia|by repeat constructor|apply NoDup_singleton|repeat constructor].
  - done.
  - assert (Hcap : bcap (bw_buf b) = 12%nat) by (vm_compute in Hb; by injection Hb as <- <-).
    destruct H as (w1&w2&H1&_&H2&H3&_).
    { rewrite Hcap. unfold ops. rewrite !Forall_cons. split_and!; try done; first [right; right; by vm_compute | right; left; vm_compute; lia]. }
    exists b, p', w1, w2. split_and!; [exact Hb|exact H1|exact H2|exact H3].
Defined.

(** With a recycled buffer it is not: when the pool hands out an array larger than
    [bufferSize], a write that fits the array but not the slice is cut to the slice,
    reported as complete, and its tail never reaches the destination. *)
Theorem batch_truncates fi size b rest nx d data :
  0 < size < Z.of_nat (length data) → Z.of_nat (length data) ≤ Z.of_nat (bcap b) →
  size ≤ BufferPoolMax → wplan d = [] →
  ∃ b' p' w1 w2, NewBatchWriter fi size (mkPool (b :: rest) nx) = (Ret b', p')
    ∧ BW_Write data (mkBatch p' d b') = (Ret (Z.of_nat (length data), None), w1)
    ∧ BW_Close w1 = (Ret None, w2)
    ∧ wout (bdst w2) = wout d ++ take (Z.to_nat size) data.
Proof.
  intros Hs Hc Hmax Hp. set (b0 := mkBuf (arr b) (mem b) (Z.to_nat size)).
  set (bw0 := mkBW b0 0 (Z.quot size 2) fi false false).
  assert (Hcap : bcap b0 = bcap b) by done.
  assert (Hnew : NewBatchWriter fi size (mkPool (b :: rest) nx) = (Ret bw0, mkPool rest nx)).
  { unfold NewBatchWriter, GetBuffer, mbind, M_bind. rewrite decide_False by lia. cbn [free].
    rewrite decide_True by lia. unfold reslice. by rewrite decide_True by lia. }
  exists bw0, (mkPool rest nx).
  set (b1 := mkBW (copy_at b0 0 data) size (Z.quot size 2) fi false false).
  set (w1 := mkBatch (mkPool rest nx) d b1).
  assert (Hst : BW_Write data (mkBatch (mkPool rest nx) d bw0)
    = (err ← flushLocked; mret (match err with Some e => (size, Some e) | None => (Z.of_nat (length data), None) end)) w1).
  { unfold BW_Write, BW_store. unfold mbind at 1, M_bind at 1, get at 1. cbn [bw bw0 bw_closed bw_buf buffered].
    rewrite Hcap, (proj2 (Z.ltb_ge _ _)) by lia. rewrite (bind_ret _ _ _ None (mkBatch (mkPool rest nx) d bw0)) by done.
    unfold mbind at 1, M_bind at 1, get at 1. cbv beta iota zeta. cbn [bw bw0 bw_buf buffered bw_threshold flushInt bw_closed timer].
    rewrite Hcap, (proj2 (Z.ltb_ge _ _)) by lia. cbn [Z.to_nat b0 blen]. rewrite (proj2 (Z.ltb_ge _ 0)) by lia.
    rewrite (proj2 (Z.ltb_ge (Z.of_nat (Z.to_nat size)) 0)) by lia. cbn [orb].
    rewrite Nat.sub_0_r, Nat.min_l by lia. rewrite Z.add_0_l, Z2Nat.id by lia. fold b0 b1.
    rewrite (bind_ret _ _ _ () w1) by done.
    rewrite (proj2 (Z.leb_le _ _)); [done|]. apply Z.quot_le_upper_bound; lia. }
  assert (Hcap1 : bcap (bw_buf b1) = bcap b).
  { unfold b1, copy_at. cbn [bw_buf]. rewrite bcap_fill; [done|]. rewrite length_take. cbn [b0 blen]. lia. }
  destruct (flush_ok w1) as (w2&Hf&_&Hp2&Hout&Hb0&Hbuf&_&_); [cbn [w1 bw]; rewrite Hcap1; cbn [b1 buffered]; lia|done|].
  rewrite (bind_ret _ _ _ _ _ Hf) in Hst. exists w2.
  destruct (close_ok w2) as (w3&Hcl&Hout3&_); [rewrite Hb0; lia|done|].
  exists w3. split_and!; [done|done|done|]. rewrite Hout3, Hout. unfold pending at 2. rewrite Hb0. cbn [Z.to_nat].
  rewrite take_0, app_nil_r. cbn [bdst w1 bw]. f_equal.
  unfold pending, b1, copy_at, fill_at. cbn [bw_buf buffered mem b0 blen]. rewrite take_0, Nat.sub_0_r. cbn [app].
  rewrite take_app_le by (rewrite length_take; lia). rewrite take_take. f_equal. lia.
Qed.

Lemma batch_truncates_witness :
  ∃ b' p' w1 w2, NewBatchWriter 0 4 (mkPool [mkBuf 0 (replicate 8 x00) 8] 1) = (Ret b', p')
    ∧ BW_Write [x01; x02; x03; x04; x05; x06] (mkBatch p' (mkWriter [] []) b') = (Ret (6, None), w1)
    ∧ BW_Close w1 = (Ret None, w2) ∧ wout (bdst w2) = [x01; x02; x03; x04].
Proof.
  destruct (batch_truncates 0 4 (mkBuf 0 (replicate 8 x00) 8) [] 1 (mkWriter [] []) [x01; x02; x03; x04; x05; x06])
    as (b'&p'&w1&w2&H1&H2&H3&H4); [by vm_compute..|].
  exists b', p', w1, w2. split_and!; [exact H1|exact H2|exact H3|exact H4].
Defined.

(** ** Packets through a batch writer: [NewBatchedPacketWriter] *)

(** [NewBatchWriter(dst, flushInterval, 65536)] and a packet writer on it. *)
Definition NewBatchedPacketWriter (threshold flushInterval : Z) : M Pool (BatchWriter * PacketWriter) :=
  bw ← NewBatchWriter flushInterval 65536; mret (bw, NewPacketWriter threshold).

(** The calls of [Write] in turn, up to the first error. *)
Fixpoint write_calls (calls : list (list byte)) : M BatchWorld () :=
  match calls with
  | [] => mret ()
  | data :: calls' => '(_, err) ← BW_Write data; match err with Some e => fail e | None => write_calls calls' end
  end.

Section batched.
Context `{Z0 : Zlib}.

(** [WritePacket] with the batch writer as its destination: what it writes is what it would
    write to a destination that accepts everything. *)
Definition batched_WritePacket (pw : PacketWriter) (p : Packet) : M (World * BatchWorld) () := λ '(w, b),
  match WritePacket (pw_threshold pw) p (mkWorld (wpool w) (wz w) (wsrc w) (mkWriter [] [])) with
  | (Ret _, w') => let '(o, b') := write_calls (wlog (wdst w')) b in (o, (mkWorld (wpool w') (wz w') (wsrc w') (wdst w), b'))
  | (o, w') => (o, (mkWorld (wpool w') (wz w') (wsrc w') (wdst w), b))
  end.

Fixpoint batched_WritePackets (pw : PacketWriter) (ps : list Packet) : M (World * BatchWorld) () :=
  match ps with
  | [] => mret ()
  | p :: ps' => batched_WritePacket pw p;; batched_WritePackets pw ps'
  end.

Context `{!ZlibOk Z0}.

Lemma batched_WritePacket_ok n t pw p w b :
  pool_wf (wpool w) → bw_ok n n t b →
  ∃ w' b', batched_WritePacket pw p (w, b) = (Ret (), (w', b')) ∧ pool_wf (wpool w') ∧ bw_ok n n t b'
    ∧ wout (bdst b') ++ pending (bw b') = wout (bdst b) ++ pending (bw b) ++ frame (pw_threshold pw) p.
Proof.
  intros Hw Hb. unfold batched_WritePacket. set (w0 := mkWorld _ _ _ _).
  destruct (WritePacket_frame (pw_threshold pw) p w0 Hw) as (o&w1&Hr&(k&err&Hd&->)&Hs&Hp&_). rewrite Hr.
  unfold Write in Hd. cbn [wdst w0 wplan wlog] in Hd. injection Hd as <- <- Hd. rewrite <- Hd. cbn [wlog app write_calls].
  destruct (bw_write_ok n n t (frame (pw_threshold pw) p) b Hb) as (b1&Hwr&Hok&Hout); [by left|]. rewrite (bind_ret _ _ _ _ _ Hwr).
  eexists _, b1. split; [done|]. by split_and!.
Qed.

Lemma batched_WritePackets_ok n t pw ps : ∀ w b,
  pool_wf (wpool w) → bw_ok n n t b →
  ∃ w' b', batched_WritePackets pw ps (w, b) = (Ret (), (w', b')) ∧ bw_ok n n t b'
    ∧ wout (bdst b') ++ pending (bw b') = wout (bdst b) ++ pending (bw b) ++ concat (frame (pw_threshold pw) <$> ps).
Proof.
  induction ps as [|p ps IH]; intros w b Hw Hb.
  { exists w, b. split_and!; [done|done|]. cbn. by rewrite app_nil_r. }
  destruct (batched_WritePacket_ok n t pw p w b Hw Hb) as (w1&b1&Hr&Hw1&Hb1&Ho1). cbn [batched_WritePackets].
  rewrite (bind_ret _ _ _ _ _ Hr). destruct (IH w1 b1 Hw1 Hb1) as (w2&b2&H2&Hb2&Ho2). exists w2, b2. split_and!; [done|done|].
  rewrite Ho2, app_assoc, Ho1, fmap_cons. cbn [concat]. by rewrite <- !app_assoc.
Qed.
End batched.

(** A batched packet writer over a fresh buffer: the packets written through it and closed
    arrive as their frames, whatever is batched together, so that a packet reader with the
    same threshold, over any fragmentation of the bytes, reads the same packets. *)
Theorem batched_packets_roundtrip `{Z0 : Zlib} `{!ZlibOk Z0} t fi ps w wr d nx :
  Forall (packet_ok t) ps → pool_wf (wpool w) → wplan d = [] → wout d = [] → pool_wf (wpool wr) →
  ∃ b0 pw p0 w1 b1 b2, NewBatchedPacketWriter t fi (mkPool [] nx) = (Ret (b0, pw), p0)
    ∧ batched_WritePackets pw ps (w, mkBatch p0 d b0) = (Ret (), (w1, b1)) ∧ BW_Close b1 = (Ret None, b2)
    ∧ (rflat (wsrc wr) = wout (bdst b2) → ∃ wr', ReadPackets t (length ps) wr = (Ret ps, wr')).
Proof.
  intros Hps Hw Hp Ho Hwr. set (b0 := mkBW (mkBuf nx (replicate (Z.to_nat 65536) x00) (Z.to_nat 65536)) 0 (Z.quot 65536 2) fi false false).
  exists b0, (NewPacketWriter t), (mkPool [] (S nx)).
  assert (Hok : bw_ok (Z.to_nat 65536) (Z.to_nat 65536) (Z.quot 65536 2) (mkBatch (mkPool [] (S nx)) d b0)).
  { split; cbn [bw bw_buf b0 blen buffered bw_closed bdst bw_threshold]; try done; try lia. }
  destruct (batched_WritePackets_ok _ _ (NewPacketWriter t) ps w _ Hw Hok) as (w1&b1&H1&Hb1&Hout).
  destruct Hb1 as [_ Hcap1 _ _ Hn1 _ _ _ Hp1].
  destruct (close_ok b1) as (b2&Hc&Hout2&_); [by rewrite Hcap1|done|]. exists w1, b1, b2.
  split_and!; [done|exact H1|exact Hc|]. intros Hin. rewrite Hout2, Hout in Hin. cbn [bdst bw] in Hin. rewrite Ho in Hin.
  unfold pending in Hin. cbn [b0 buffered Z.to_nat] in Hin. rewrite take_0 in Hin. cbn [app pw_threshold NewPacketWriter] in Hin.
  destruct (ReadPackets_refines t (length ps) wr Hwr) as (o&wr'&Hr&Hsame&_). rewrite <- (app_nil_r (concat _)) in Hin.
  rewrite Hin, parse_frames in Hsame by done. exists wr'. rewrite Hr. destruct o; simpl in Hsame; congruence.
Qed.
