(* ===== verification/MineConn.v ===== *)
(** * The connection ([conn/conn.go])

    [MineConn] combines the packet reader and writer, the cipher streams, the flow
    controller and the priority queue.  Its state holds the [World] of [Packet]
    (pools, input, output) and how often the transport was closed. *)

From S2P Require Export Packet Cfb8 KeyExchange Flow Priority.
#[local] Open Scope Z_scope.

Record MineConn := mkMC {
  mc_world : World;
  mc_reader : PacketReader;
  mc_writer : PacketWriter;
  mc_threshold : Z;
  mc_encrypt : option CFB8;
  mc_decrypt : option CFB8;
  readBuf : Buf;
  writeBuf : Buf;
  mc_closed : bool;
  flow : FlowController;
  prio : PriorityQueue;
  conn_closes : nat;          (* calls of [conn.Close] *)
}.

Definition on_world {A} : M World A → M MineConn A :=
  zoom mc_world (λ w c, mkMC w (mc_reader c) (mc_writer c) (mc_threshold c) (mc_encrypt c) (mc_decrypt c)
    (readBuf c) (writeBuf c) (mc_closed c) (flow c) (prio c) (conn_closes c)).
Definition on_flow {A} : M FlowController A → M MineConn A :=
  zoom flow (λ f c, mkMC (mc_world c) (mc_reader c) (mc_writer c) (mc_threshold c) (mc_encrypt c) (mc_decrypt c)
    (readBuf c) (writeBuf c) (mc_closed c) f (prio c) (conn_closes c)).

Definition set_encrypt (s : CFB8) (c : MineConn) : MineConn :=
  mkMC (mc_world c) (mc_reader c) (mc_writer c) (mc_threshold c) (Some s) (mc_decrypt c)
    (readBuf c) (writeBuf c) (mc_closed c) (flow c) (prio c) (conn_closes c).
Definition set_decrypt (s : CFB8) (c : MineConn) : MineConn :=
  mkMC (mc_world c) (mc_reader c) (mc_writer c) (mc_threshold c) (mc_encrypt c) (Some s)
    (readBuf c) (writeBuf c) (mc_closed c) (flow c) (prio c) (conn_closes c).
Definition set_closed (c : MineConn) : MineConn :=
  mkMC (mc_world c) (mc_reader c) (mc_writer c) (mc_threshold c) (mc_encrypt c) (mc_decrypt c)
    (readBuf c) (writeBuf c) true (flow c) (prio c) (conn_closes c).
Definition conn_Close : M MineConn () := modify (λ c,
  mkMC (mc_world c) (mc_reader c) (mc_writer c) (mc_threshold c) (mc_encrypt c) (mc_decrypt c)
    (readBuf c) (writeBuf c) (mc_closed c) (flow c) (prio c) (S (conn_closes c))).

(** The connection on a transport whose pools and streams are in the [World]. *)
Definition NewMineConn : M World MineConn :=
  rb ← on_pool (GetBuffer DefaultBufferSize);
  wb ← on_pool (GetBuffer DefaultBufferSize);
  q ← liftO (NewPriorityQueue 3);
  w ← get;
  mret (mkMC w (NewPacketReader (-1)) (NewPacketWriter (-1)) 0 None None rb wb false
    (NewFlowController 1000 (MaxPacketSize * 100))
    (mkPQ (levels q) [64; 256; 1024] (locked q) (notify q) (pq_closed q)) 0).

Definition MC_SetThreshold (t : Z) : M MineConn () := modify (λ c,
  mkMC (mc_world c) (NewPacketReader t) (NewPacketWriter t) (s32 t) (mc_encrypt c) (mc_decrypt c)
    (readBuf c) (writeBuf c) (mc_closed c) (flow c) (prio c) (conn_closes c)).

Definition MC_Threshold (c : MineConn) : Z := mc_threshold c.

Definition SetCipher (encrypt decrypt : CFB8) : M MineConn () := modify (λ c,
  mkMC (mc_world c) (mc_reader c) (mc_writer c) (mc_threshold c) (Some encrypt) (Some decrypt)
    (readBuf c) (writeBuf c) (mc_closed c) (flow c) (prio c) (conn_closes c)).

Definition IsClosed (c : MineConn) : bool := mc_closed c.

Definition MC_Close : M MineConn () :=
  c ← get;
  if mc_closed c then mret ()
  else
    modify set_closed;;
    on_world (on_pool (PutBuffer (readBuf c)));;
    on_world (on_pool (PutBuffer (writeBuf c)));;
    conn_Close.

Section conn.
Context `{Zlib} `{BlockCipher}.

Definition MC_ReadPacket : M MineConn Packet :=
  c ← get;
  if IsClosed c then fail ErrConnectionClosed
  else
    p ← on_error (on_world (ReadPacket (pr_threshold (mc_reader c)))) MC_Close;
    c ← get;
    match mc_decrypt c with
    | Some s => '(s, dec) ← liftO (crypt s (Data p)); modify (set_decrypt s);; mret (mkPacket (ID p) dec)
    | None => mret p
    end.

(** The buffer of the raw packet is decrypted in place, as a whole. *)
Definition MC_ReadRawPacket : M MineConn RawPacket :=
  c ← get;
  if IsClosed c then fail ErrConnectionClosed
  else
    rp ← on_error (on_world ReadRawPacket) MC_Close;
    c ← get;
    match mc_decrypt c, rbuf rp with
    | Some s, Some b =>
        '(s, dec) ← liftO (crypt_in_place s (bytes b)); modify (set_decrypt s);;
        mret (mkRaw (Some (fill_at b 0 dec)))
    | _, _ => mret rp
    end.

(** [if mc.encrypt != nil { ... }] of the two writers. *)
Definition encrypt_packet (p : Packet) : M MineConn Packet :=
  c ← get;
  match mc_encrypt c with
  | Some s => '(s, enc) ← liftO (crypt s (Data p)); modify (set_encrypt s);; mret (mkPacket (ID p) enc)
  | None => mret p
  end.

(** [defer mc.flow.Release(n); m] *)
Definition releasing {A} (n : Z) (m : M MineConn A) : M MineConn A := λ c,
  match m c with
  | (Block, c') => (Block, c')
  | (o, c') => (o, (on_flow (Release n) c').2)
  end.

Definition MC_WritePacket (p : Packet) : M MineConn () :=
  c ← get;
  if IsClosed c then fail ErrConnectionClosed
  else
    p ← encrypt_packet p;
    on_flow (Acquire (Z.of_nat (length (Data p))));;
    releasing (Z.of_nat (length (Data p))) (
      c ← get;
      on_world (WritePacket (pw_threshold (mc_writer c)) p)).

End conn.

(** ** Sessions *)

Fixpoint write_all `{Zlib} `{BlockCipher} (ps : list Packet) : M MineConn () :=
  match ps with
  | [] => mret ()
  | p :: ps' => MC_WritePacket p;; write_all ps'
  end.

Fixpoint read_all `{Zlib} `{BlockCipher} (n : nat) : M MineConn (list Packet) :=
  match n with
  | O => mret []
  | S n' => p ← MC_ReadPacket; ps ← read_all n'; mret (p :: ps)
  end.

(** The packets with their data through a cipher stream, if there is one. *)
Definition crypt_packets `{BlockCipher} (s : option CFB8) (ps : list Packet) : outcome (option CFB8 * list Packet) :=
  match s with
  | None => mret (None, ps)
  | Some s => '(s, ds) ← crypt_all s (Data <$> ps); mret (Some s, zip_with mkPacket (ID <$> ps) ds)
  end.

(** Open, with a well-formed pool, a transport that does not fail and an idle flow
    controller. *)
Record mc_ready (c : MineConn) : Prop := {
  mr_open : mc_closed c = false;
  mr_pool : pool_wf (wpool (mc_world c));
  mr_dst : wplan (wdst (mc_world c)) = [];
  mr_flow : current (flow c) = 0 ∧ 0 < maxBytes (flow c);
}.

(** ** Lemmas *)

Section conn_lemmas.
Context `{Z0 : Zlib} `{!ZlibOk Z0} `{B : BlockCipher} `{!BlockCipherOk B}.

Lemma encrypt_packet_ok p c s' cs :
  crypt_packets (mc_encrypt c) [p] = Ret (s', cs) →
  ∃ q c', cs = [q] ∧ encrypt_packet p c = (Ret q, c') ∧ mc_encrypt c' = s'
    ∧ mc_world c' = mc_world c ∧ flow c' = flow c ∧ mc_closed c' = mc_closed c ∧ mc_writer c' = mc_writer c.
Proof.
  unfold crypt_packets. destruct (mc_encrypt c) as [s|] eqn:E; intros Hc.
  - cbn [fmap list_fmap crypt_all] in Hc. destruct (crypt s (Data p)) as [[s1 d]| | |] eqn:Ec; [|done..].
    cbn in Hc. injection Hc as <- <-. exists (mkPacket (ID p) d), (set_encrypt s1 c).
    split_and!; try done. unfold encrypt_packet, mbind, M_bind, get, liftO. by rewrite E, Ec.
  - cbn in Hc. injection Hc as <- <-. exists p, c. split_and!; try done.
    unfold encrypt_packet, mbind, M_bind, get. by rewrite E.
Qed.

Lemma crypt_packets_cons s p ps s' cs :
  crypt_packets s (p :: ps) = Ret (s', cs) →
  ∃ s1 q cs', crypt_packets s [p] = Ret (s1, [q]) ∧ crypt_packets s1 ps = Ret (s', cs') ∧ cs = q :: cs'.
Proof.
  destruct s as [s|]; cbn.
  - destruct (crypt s (Data p)) as [[s1 d]| | |]; [|done..]. cbn.
    destruct (crypt_all s1 (Data <$> ps)) as [[s2 ds]| | |] eqn:E; [|done..]. cbn. intros [= <- <-].
    exists (Some s1), (mkPacket (ID p) d), (zip_with mkPacket (ID <$> ps) ds).
    split_and!; [done| |done]. cbn. by rewrite E.
  - intros [= <- <-]. by exists None, p, ps.
Qed.

Lemma payload_size t p : packet_ok t p → Z.of_nat (length (Data p)) < 2 ^ 63.
Proof.
  intros (_&_&Hp). rewrite length_payload in Hp. unfold MaxCompressedSize in Hp. lia.
Qed.

Lemma MC_WritePacket_ok t p c s' q :
  mc_ready c → pw_threshold (mc_writer c) = t → crypt_packets (mc_encrypt c) [p] = Ret (s', [q]) →
  packet_ok t q →
  ∃ c', MC_WritePacket p c = (Ret (), c') ∧ mc_ready c' ∧ mc_encrypt c' = s' ∧ mc_writer c' = mc_writer c
    ∧ wout (wdst (mc_world c')) = wout (wdst (mc_world c)) ++ frame t q.
Proof.
  intros [Ho Hp Hd [Hf Hm]] Ht Hc Hok.
  destruct (encrypt_packet_ok p c s' [q] Hc) as (q'&c1&[= <-]&He&Hs&Hw1&Hf1&Hc1&Hwr1).
  unfold MC_WritePacket. unfold mbind at 1, M_bind at 1, get at 1. cbv beta iota. unfold IsClosed. rewrite Ho.
  rewrite (bind_ret _ _ _ _ _ He). set (n := Z.of_nat (length (Data q))).
  assert (Hn : s64 n = n).
  { apply swrap_id; [done|]. pose proof (payload_size t q Hok). unfold is_int. change (2 ^ (64 - 1)) with (2 ^ 63). unfold n. lia. }
  set (c2 := mkMC (mc_world c1) (mc_reader c1) (mc_writer c1) (mc_threshold c1) (mc_encrypt c1) (mc_decrypt c1)
    (readBuf c1) (writeBuf c1) (mc_closed c1) (set_current n (flow c1)) (prio c1) (conn_closes c1)).
  rewrite (bind_ret _ _ _ () c2).
  2:{ unfold on_flow, zoom, Acquire. rewrite Hf1, Hf. rewrite (proj2 (Z.leb_gt _ _)) by done.
      rewrite Z.add_0_l, Hn. unfold c2. by rewrite Hf1. }
  unfold releasing. unfold mbind at 1, M_bind at 1, get at 1. cbv beta iota. cbn [mc_writer c2]. rewrite Hwr1, Ht.
  destruct (WritePacket_frame t q (mc_world c)) as (o&w'&Hw&(k&err&Hwrite&Ho2)&Hsrc&Hpool&_); [done|].
  unfold Write in Hwrite. rewrite Hd in Hwrite. injection Hwrite as _ <- Hdst. subst o.
  unfold on_world at 1, zoom at 1. cbn [mc_world c2]. rewrite Hw1, Hw.
  eexists. split; [done|]. cbn. rewrite Hf1. split_and!; [|done|done|].
  - split; cbn; [by rewrite Hc1|done|by rewrite <- Hdst|].
    split; [|done]. by rewrite Z.add_opp_diag_r.
  - rewrite <- Hdst. apply wout_snoc.
Qed.

Lemma write_all_ok t ps : ∀ c s' cs,
  mc_ready c → pw_threshold (mc_writer c) = t → crypt_packets (mc_encrypt c) ps = Ret (s', cs) →
  Forall (packet_ok t) cs →
  ∃ c', write_all ps c = (Ret (), c') ∧ mc_ready c' ∧ mc_encrypt c' = s'
    ∧ wout (wdst (mc_world c')) = wout (wdst (mc_world c)) ++ concat (frame t <$> cs).
Proof.
  induction ps as [|p ps IH]; intros c s' cs Hr Ht Hc Hok.
  { assert (cs = [] ∧ s' = mc_encrypt c) as [-> ->] by (destruct (mc_encrypt c); cbn in Hc; by injection Hc as <- <-).
    exists c. split_and!; [done|done|done|]. symmetry. apply app_nil_r. }
  destruct (crypt_packets_cons _ _ _ _ _ Hc) as (s1&q&cs'&Hc1&Hc2&->). apply Forall_cons_1 in Hok as [Hq Hok].
  destruct (MC_WritePacket_ok t p c s1 q Hr Ht Hc1 Hq) as (c1&Hw&Hr1&Hs1&Hwr&Hout).
  destruct (IH c1 s' cs') as (c'&Hw2&Hr'&Hs'&Hout'); [done|congruence|by rewrite Hs1|done|].
  exists c'. cbn [write_all]. rewrite (bind_ret _ _ _ _ _ Hw). split_and!; [done|done|done|].
  rewrite Hout', Hout, fmap_cons. cbn [concat]. by rewrite app_assoc.
Qed.

Lemma MC_ReadPacket_ok t p c s' q rest :
  mc_closed c = false → pool_wf (wpool (mc_world c)) → pr_threshold (mc_reader c) = t →
  rflat (wsrc (mc_world c)) = frame t p ++ rest → packet_ok t p →
  crypt_packets (mc_decrypt c) [p] = Ret (s', [q]) →
  ∃ c', MC_ReadPacket c = (Ret q, c') ∧ mc_closed c' = false ∧ pool_wf (wpool (mc_world c'))
    ∧ mc_reader c' = mc_reader c ∧ mc_decrypt c' = s' ∧ wsrc (mc_world c') ≡ rest_of (wsrc (mc_world c)) rest.
Proof.
  intros Ho Hp Ht Hin Hok Hc. unfold MC_ReadPacket. unfold mbind at 1, M_bind at 1, get at 1. cbv beta iota.
  unfold IsClosed. rewrite Ho, Ht.
  destruct (ReadPacket_refines t (mc_world c) Hp) as (o&w'&Hr&Hout&Hs&_&Hp'&_).
  rewrite Hin, parse_frame in Hout, Hs by done. simpl in Hout, Hs.
  assert (o = Ret p) as -> by (by destruct o).
  set (c1 := mkMC w' (mc_reader c) (mc_writer c) (mc_threshold c) (mc_encrypt c) (mc_decrypt c)
    (readBuf c) (writeBuf c) (mc_closed c) (flow c) (prio c) (conn_closes c)).
  rewrite (bind_ret _ _ _ p c1) by (unfold on_error, on_world, zoom; by rewrite Hr).
  unfold mbind at 1, M_bind at 1, get at 1. cbv beta iota. cbn [mc_decrypt c1].
  unfold crypt_packets in Hc. destruct (mc_decrypt c) as [s|] eqn:E; cbn in Hc.
  - destruct (crypt s (Data p)) as [[s1 d]| | |]; [|done..]. cbn in Hc. injection Hc as <- <-.
    eexists. split; [done|]. by split_and!.
  - injection Hc as <- <-. eexists. split; [done|]. by split_and!.
Qed.

Lemma read_all_ok t cs : ∀ c s' ps rest,
  mc_closed c = false → pool_wf (wpool (mc_world c)) → pr_threshold (mc_reader c) = t →
  rflat (wsrc (mc_world c)) = concat (frame t <$> cs) ++ rest → Forall (packet_ok t) cs →
  crypt_packets (mc_decrypt c) cs = Ret (s', ps) →
  ∃ c', read_all (length cs) c = (Ret ps, c') ∧ wsrc (mc_world c') ≡ rest_of (wsrc (mc_world c)) rest.
Proof.
  induction cs as [|p cs IH]; intros c s' ps rest Ho Hp Ht Hin Hok Hc.
  { exists c. assert (ps = []) as -> by (destruct (mc_decrypt c); cbn in Hc; by injection Hc as <- <-).
    split; [done|]. by apply rest_of_equiv. }
  destruct (crypt_packets_cons _ _ _ _ _ Hc) as (s1&q&ps'&Hc1&Hc2&->). apply Forall_cons_1 in Hok as [Hq Hok].
  rewrite fmap_cons in Hin. cbn [concat] in Hin. rewrite <- app_assoc in Hin.
  destruct (MC_ReadPacket_ok t p c s1 q _ Ho Hp Ht Hin Hq Hc1) as (c1&Hr&Ho1&Hp1&Hrd&Hs1&Hsrc).
  destruct Hsrc as (Hf&He&Hi). rewrite rflat_rest in Hf.
  destruct (IH c1 s' ps' rest) as (c'&Hr2&Hsrc2); [done|done|congruence|done|done|by rewrite Hs1|].
  exists c'. cbn [length read_all]. rewrite (bind_ret _ _ _ _ _ Hr), (bind_ret _ _ _ _ _ Hr2). split; [done|].
  etrans; [exact Hsrc2|]. apply rest_of_equiv; [by rewrite rflat_rest|done|done].
Qed.

Lemma zip_ID_Data ps : zip_with mkPacket (ID <$> ps) (Data <$> ps) = ps.
Proof. induction ps as [|[]]; cbn; by f_equal. Qed.

Lemma crypt_packets_roundtrip key ps :
  length key = BlockSize →
  ∃ se sd cs, crypt_packets (Some (NewCFB8Encrypt key)) ps = Ret (se, cs)
    ∧ crypt_packets (Some (NewCFB8Decrypt key)) cs = Ret (sd, ps) ∧ length cs = length ps
    ∧ (length <$> (Data <$> cs)) = (length <$> (Data <$> ps)).
Proof.
  intros Hk. destruct (crypt_all_roundtrip (Data <$> ps) (NewCFB8Encrypt key) (NewCFB8Decrypt key))
    as (ds&se&sd&He&Hd&_&Hl); [done|done|done|simpl; by rewrite copy_into_same by (by rewrite length_replicate)|].
  assert (Hlen : length ds = length ps) by (apply (f_equal length) in Hl; by rewrite !length_fmap in Hl).
  exists (Some se), (Some sd), (zip_with mkPacket (ID <$> ps) ds).
  assert (HD : Data <$> zip_with mkPacket (ID <$> ps) ds = ds).
  { rewrite fmap_zip_with_r; [done|done|]. rewrite length_fmap. lia. }
  assert (HI : ID <$> zip_with mkPacket (ID <$> ps) ds = ID <$> ps).
  { rewrite fmap_zip_with_l; [done|done|]. rewrite length_fmap. lia. }
  split_and!.
  - cbn. by rewrite He.
  - cbn. rewrite HD, HI, Hd. cbn. by rewrite zip_ID_Data.
  - rewrite length_zip_with, length_fmap. lia.
  - by rewrite HD, Hl.
Qed.
End conn_lemmas.

(** A connection with compression threshold [t] and the ciphers of the shared secret. *)
Definition open_session `{BlockCipher} (t : Z) (key : list byte) : M World MineConn :=
  c ← NewMineConn;
  let c := (MC_SetThreshold t c).2 in
  let c := (SetCipher (NewCFB8Encrypt key) (NewCFB8Decrypt key) c).2 in
  mret c.

(** The two scratch buffers of an open connection: its own, distinct, and of a size
    the pool takes back. *)
Record mc_buffers (c : MineConn) : Prop := {
  mb_read : owned (wpool (mc_world c)) (readBuf c);
  mb_write : owned (wpool (mc_world c)) (writeBuf c);
  mb_distinct : arr (readBuf c) ≠ arr (writeBuf c);
  mb_read_cap : 0 < Z.of_nat (bcap (readBuf c)) ≤ BufferPoolMax;
  mb_write_cap : 0 < Z.of_nat (bcap (writeBuf c)) ≤ BufferPoolMax;
}.

Lemma NewMineConn_ok w :
  pool_wf (wpool w) →
  ∃ c w', NewMineConn w = (Ret c, w') ∧ mc_world c = w' ∧ pool_wf (wpool w') ∧ same_io w w'
    ∧ mc_closed c = false ∧ mc_encrypt c = None ∧ mc_decrypt c = None ∧ conn_closes c = O
    ∧ pr_threshold (mc_reader c) = -1 ∧ pw_threshold (mc_writer c) = -1
    ∧ flow c = NewFlowController 1000 (MaxPacketSize * 100)
    ∧ mc_buffers c.
Proof.
  intros Hw. destruct (step_get DefaultBufferSize w) as (rb&w1&Hg1&Hl1&Hc1&Hw1&Ho1&Hio1&_&_); [done|done|].
  destruct (step_get DefaultBufferSize w1) as (wb&w2&Hg2&Hl2&Hc2&Hw2&Ho2&Hio2&_&Hf); [done|done|].
  destruct (Hf rb Ho1) as [Ho3 Hne]. unfold NewMineConn.
  assert (H1 := step_get_drawn _ _ _ _ Hw Hg1). assert (H2 := step_get_drawn _ _ _ _ Hw1 Hg2).
  rewrite (bind_ret _ _ _ _ _ Hg1), (bind_ret _ _ _ _ _ Hg2). eexists _, w2. split; [done|].
  split_and!; try done; [by eapply same_io_trans|]. unfold drawn in *.
  change DefaultBufferSize with 1024 in *. change BufferPoolMax with 1048576 in *.
  split; try done; cbn; change BufferPoolMax with 1048576; lia.
Qed.

Lemma open_session_ok `{B : BlockCipher} t key w :
  pool_wf (wpool w) → wplan (wdst w) = [] →
  ∃ c w', open_session t key w = (Ret c, w') ∧ mc_ready c ∧ same_io w (mc_world c)
    ∧ mc_encrypt c = Some (NewCFB8Encrypt key) ∧ mc_decrypt c = Some (NewCFB8Decrypt key)
    ∧ pr_threshold (mc_reader c) = t ∧ pw_threshold (mc_writer c) = t.
Proof.
  intros Hw Hd. destruct (NewMineConn_ok w Hw) as (c&w'&Hn&<-&Hp&[Hs Hd']&Ho&_&_&_&_&_&Hf&_).
  unfold open_session. rewrite (bind_ret _ _ _ _ _ Hn). eexists _, _. split; [done|].
  split_and!; try done. split; cbn; [done|done|by rewrite Hd'|]. by rewrite Hf.
Qed.

(** ** The properties of the component *)

(** C3. An encrypted, compressed session: two connections opened with the same
    threshold and the same secret (any pools, any chunking of the transport, any
    bytes to follow) transfer every packet unchanged and in order, as long as the
    encrypted packets fit the size limits; neither flow control nor the cipher
    state ever stops the writer. *)
Theorem session_roundtrip `{Z0 : Zlib} `{!ZlibOk Z0} `{B : BlockCipher} `{!BlockCipherOk B} t key ps wa wb rest :
  length key = BlockSize →
  pool_wf (wpool wa) → wdst wa = mkWriter [] [] → pool_wf (wpool wb) → wplan (wdst wb) = [] →
  ∃ ca cb wa' wb' s' cs,
    open_session t key wa = (Ret ca, wa') ∧ open_session t key wb = (Ret cb, wb')
    ∧ crypt_packets (mc_encrypt ca) ps = Ret (s', cs)
    ∧ (length <$> (Data <$> cs)) = (length <$> (Data <$> ps))
    ∧ (Forall (packet_ok t) cs →
       ∃ ca', write_all ps ca = (Ret (), ca')
         ∧ wout (wdst (mc_world ca')) = concat (frame t <$> cs)
         ∧ (rflat (wsrc wb) = wout (wdst (mc_world ca')) ++ rest →
            ∃ cb', read_all (length ps) cb = (Ret ps, cb') ∧ wsrc (mc_world cb') ≡ rest_of (wsrc wb) rest)).
Proof.
  intros Hk Hwa Hda Hwb Hdb.
  destruct (open_session_ok t key wa Hwa) as (ca&wa'&Ha&Hra&[_ Hda']&Hea&_&_&Hta); [by rewrite Hda|].
  destruct (open_session_ok t key wb Hwb Hdb) as (cb&wb'&Hb&Hrb&[Hsb _]&_&Hdec&Htb&_).
  destruct (crypt_packets_roundtrip key ps Hk) as (se&sd&cs&He&Hd&Hlen&Hl).
  exists ca, cb, wa', wb', se, cs. rewrite Hea. split_and!; [done|done|done|done|]. intros Hok.
  destruct (write_all_ok t ps ca se cs Hra Hta) as (ca'&Hw&_&_&Hout); [by rewrite Hea|done|].
  rewrite Hda', Hda in Hout. exists ca'. split_and!; [done|done|]. rewrite Hout. intros Hin.
  rewrite <- Hlen. rewrite <- Hsb in *.
  apply (read_all_ok t cs cb sd ps rest); [apply Hrb|apply Hrb|done|done|done|by rewrite Hdec].
Qed.

Lemma session_roundtrip_witness :
  let Z0 := stored_zlib in let B := toy_cipher in
  let key := [x01; x02; x03; x04] in
  let ps := [mkPacket 0 [x41]; mkPacket 300 (replicate 13 x42); mkPacket 5 []] in
  ∃ ca wa' s' cs, open_session 4 key (demo_world []) = (Ret ca, wa')
    ∧ crypt_packets (mc_encrypt ca) ps = Ret (s', cs) ∧ Forall (packet_ok 4) cs
    ∧ ∃ ca', write_all ps ca = (Ret (), ca').
Proof.
  intros Z0 B key ps.
  destruct (session_roundtrip (ZlibOk0 := stored_zlib_ok) (BlockCipherOk0 := toy_cipher_ok) 4 key ps
    (demo_world []) (demo_world []) [] eq_refl (demo_world_wf []) eq_refl (demo_world_wf []) eq_refl)
    as (ca&cb&wa'&wb'&s'&cs&H1&_&H2&_&H3).
  exists ca, wa', s', cs.
  assert (Hok : Forall (packet_ok 4) cs).
  { clear H3. vm_compute in H1. injection H1 as <- <-. vm_compute in H2. injection H2 as <- <-.
    repeat constructor; by vm_compute. }
  split_and!; [exact H1|exact H2|exact Hok|]. destruct (H3 Hok) as (ca'&H4&_). exists ca'. exact H4.
Defined.






(** Raw reading and encryption do not fit together: with a cipher set,
    [ReadRawPacket] runs the whole frame, length prefix included, through an in-place
    decryption, which is the encryption function; the peer encrypted the data of the
    packet only. *)
Theorem raw_read_garbles `{Z0 : Zlib} `{B : BlockCipher} `{!BlockCipherOk B} c s fr rest :
  mc_closed c = false → pool_wf (wpool (mc_world c)) → mc_decrypt c = Some s → length (iv s) = BlockSize →
  parse_raw (rend (wsrc (mc_world c))) (rflat (wsrc (mc_world c))) = (Ret fr, rest) →
  ∃ rp c', MC_ReadRawPacket c = (Ret rp, c') ∧ RawPacket_bytes rp = (cfb false (iv s) fr).1
    ∧ wsrc (mc_world c') ≡ rest_of (wsrc (mc_world c)) rest.
Proof.
  intros Ho Hp Hd Hi Hpar.
  destruct (ReadRawPacket_refines (mc_world c) Hp) as (o&w1&Hrd&Hout&Hs&_&Hp1&Hown).
  rewrite Hpar in Hout, Hs. destruct o as [rp| | |]; cbn [mbind outcome_bind fst snd] in Hout, Hs; [|done..].
  destruct (Hown rp eq_refl) as (f&->&Hf). injection Hout as Hb.
  set (c1 := mkMC w1 (mc_reader c) (mc_writer c) (mc_threshold c) (mc_encrypt c) (mc_decrypt c)
    (readBuf c) (writeBuf c) (mc_closed c) (flow c) (prio c) (conn_closes c)).
  unfold RawPacket_bytes in Hb. cbn [rbuf] in Hb.
  destruct (crypt_in_place_cfb s (bytes f) Hi) as (s1&Hc&_&_). destruct (cfb_length false (iv s) (bytes f) Hi) as [Hlen _].
  exists (mkRaw (Some (fill_at f 0 (cfb false (iv s) (bytes f)).1))), (set_decrypt s1 c1).
  split_and!; [|..|done].
  - unfold MC_ReadRawPacket. unfold mbind at 1, M_bind at 1, get at 1. cbv beta iota. unfold IsClosed. rewrite Ho.
    rewrite (bind_ret _ _ _ (mkRaw (Some f)) c1) by (unfold on_error, on_world, zoom; by rewrite Hrd).
    unfold mbind at 1, M_bind at 1, get at 1. cbv beta iota. cbn [mc_decrypt c1 rbuf]. rewrite Hd, Hc. done.
  - unfold RawPacket_bytes. cbn [rbuf]. rewrite <- Hb. unfold bytes at 1, fill_at. cbn [mem blen].
    unfold bytes in Hlen. rewrite take_0. cbn [app]. rewrite length_take in Hlen.
    unfold bytes in *. set (o := (cfb false (iv s) (take (blen f) (mem f))).1) in *.
    destruct (decide (blen f ≤ length (mem f))%nat).
    + by rewrite take_app_length' by lia.
    + rewrite take_ge; [|rewrite length_app, length_drop; lia].
      rewrite drop_ge by lia. apply app_nil_r.
Qed.

Lemma raw_read_garbles_witness :
  let Z0 := stored_zlib in let B := toy_cipher in
  match open_session (-1) [x01; x02; x03; x04] (demo_world [[x02; x07; x41]]) with
  | (Ret c, _) => ∃ rp c', MC_ReadRawPacket c = (Ret rp, c')
      ∧ RawPacket_bytes rp = (cfb false [x01; x02; x03; x04] [x02; x07; x41]).1
  | _ => False
  end.
Proof.
  intros Z0 B. destruct (open_session_ok (-1) [x01; x02; x03; x04] (demo_world [[x02; x07; x41]]) (demo_world_wf _) eq_refl)
    as (c&w'&->&Hr&[Hs _]&_&Hd&_).
  destruct (raw_read_garbles (BlockCipherOk0 := toy_cipher_ok) c (NewCFB8Decrypt [x01; x02; x03; x04]) [x02; x07; x41] [])
    as (rp&c'&H1&H2&_).
  - apply Hr.
  - apply Hr.
  - exact Hd.
  - done.
  - rewrite Hs. by vm_compute.
  - exists rp, c'. split; [exact H1|exact H2].
Defined.
