(* ===== verification/Mux.v ===== *)
(** * The stream multiplexer ([tunnel/mux.go])

    The mux with its channels, its stream table and the stream objects, which are
    shared between the table and the callers: a stream is an index into a heap,
    and the table maps stream identifiers to such indices.  The two goroutines of
    a mux are the operations [readLoop_step] and [writeLoop_step].  Each operation is one
    step here; [MuxSys.v] interleaves their single actions. *)

From S2P Require Export GoIO.
#[local] Open Scope Z_scope.

Definition MuxData : Z := 0.
Definition MuxOpen : Z := 1.
Definition MuxClose : Z := 2.
Definition MuxPing : Z := 3.
Definition MuxPong : Z := 4.
Definition MuxError : Z := 5.

(** [Type] is a byte, [Stream] a 32-bit unsigned number. *)
Record MuxFrame := mkFrame { fType : Z; fStream : Z; fData : list byte }.

#[export] Instance MuxFrame_eq_dec : EqDecision MuxFrame.
Proof. solve_decision. Defined.

(** ** Frames on the wire *)

Definition readFrame : M Reader MuxFrame :=
  header ← ReadFull 5;
  let t := ubyte (header !!! 0%nat) in
  let stream := be_get (take 4 (drop 1 header)) in
  if t =? MuxData then
    lenBuf ← ReadFull 4;
    data ← ReadFull (Z.to_nat (be_get lenBuf));
    mret (mkFrame t stream data)
  else mret (mkFrame t stream []).

Definition writeFrame (frame : MuxFrame) : M Writer (option error) :=
  let header := to_byte (fType frame) :: be_put 4 (fStream frame) in
  '(_, err) ←
    (if fType frame =? MuxData
     then Write (header ++ be_put 4 (u32 (Z.of_nat (length (fData frame)))) ++ fData frame)
     else Write header);
  mret err.

(** ** Streams *)

Definition streamCap : nat := 64.
Definition muxCap : nat := 256.

Record MuxStream := mkStream {
  ms_id : Z;
  ms_ch : list (list byte);      (* [readCh], of capacity 64 *)
  ms_ch_closed : bool;
  ms_closed : bool;
}.

Record Mux := mkMux {
  nextID : Z;
  streams : gmap Z nat;          (* the table, into the heap *)
  heap : list MuxStream;
  mux_closed : bool;
  readCh : list MuxFrame;        (* capacity 256 *)
  writeCh : list MuxFrame;       (* capacity 256 *)
  conn_in : Reader;
  conn_out : Writer;
}.

Definition NewMux (r : Reader) (w : Writer) : Mux := mkMux 0 ∅ [] false [] [] r w.

Definition set_streams (t : gmap Z nat) (m : Mux) : Mux :=
  mkMux (nextID m) t (heap m) (mux_closed m) (readCh m) (writeCh m) (conn_in m) (conn_out m).
Definition set_heap (h : list MuxStream) (m : Mux) : Mux :=
  mkMux (nextID m) (streams m) h (mux_closed m) (readCh m) (writeCh m) (conn_in m) (conn_out m).
Definition set_readCh (l : list MuxFrame) (m : Mux) : Mux :=
  mkMux (nextID m) (streams m) (heap m) (mux_closed m) l (writeCh m) (conn_in m) (conn_out m).
Definition set_writeCh (l : list MuxFrame) (m : Mux) : Mux :=
  mkMux (nextID m) (streams m) (heap m) (mux_closed m) (readCh m) l (conn_in m) (conn_out m).
Definition set_nextID (n : Z) (m : Mux) : Mux :=
  mkMux n (streams m) (heap m) (mux_closed m) (readCh m) (writeCh m) (conn_in m) (conn_out m).
Definition set_mux_closed (m : Mux) : Mux :=
  mkMux (nextID m) (streams m) (heap m) true (readCh m) (writeCh m) (conn_in m) (conn_out m).

Definition on_in {A} : M Reader A → M Mux A :=
  zoom conn_in (λ r m, mkMux (nextID m) (streams m) (heap m) (mux_closed m) (readCh m) (writeCh m) r (conn_out m)).
Definition on_out {A} : M Writer A → M Mux A :=
  zoom conn_out (λ w m, mkMux (nextID m) (streams m) (heap m) (mux_closed m) (readCh m) (writeCh m) (conn_in m) w).

(** [m.writeCh <- frame] *)
Definition send (frame : MuxFrame) : M Mux () := λ m,
  if (length (writeCh m) <? muxCap)%nat then (Ret (), set_writeCh (writeCh m ++ [frame]) m) else (Block, m).

(** [&MuxStream{...}; m.streams.Store(id, stream)]: the reference of the stream. *)
Definition store_stream (id : Z) : M Mux nat := λ m,
  (Ret (length (heap m)),
   set_streams (<[id := length (heap m)]> (streams m)) (set_heap (heap m ++ [mkStream id [] false false]) m)).

Definition OpenStream : M Mux nat :=
  m ← get;
  if mux_closed m then fail ErrConnectionClosed
  else
    let id := u32 (nextID m + 1) in
    modify (set_nextID id);;
    ref ← store_stream id;
    send (mkFrame MuxOpen id []);;
    mret ref.

(** The loop takes frames off [readCh] until an open frame; the channel is never
    closed, so an empty one blocks. *)
Fixpoint accept_loop (frames : list MuxFrame) : M Mux nat :=
  match frames with
  | [] => modify (set_readCh []);; block
  | frame :: rest =>
      if fType frame =? MuxOpen then modify (set_readCh rest);; store_stream (fStream frame)
      else accept_loop rest
  end.

Definition AcceptStream : M Mux nat := m ← get; accept_loop (readCh m).

(** ** Stream operations, by reference *)

Definition nil_stream : panic := PanicMsg "nil stream".

Definition stream_id (ref : nat) (m : Mux) : Z := match heap m !! ref with Some s => ms_id s | None => 0 end.

(** [ms.closed.CompareAndSwap(false, true)] *)
Definition swap_closed (ref : nat) : M Mux bool := λ m,
  match heap m !! ref with
  | Some s =>
      if ms_closed s then (Ret false, m)
      else (Ret true, set_heap (<[ref := mkStream (ms_id s) (ms_ch s) (ms_ch_closed s) true]> (heap m)) m)
  | None => (Panic nil_stream, m)
  end.

(** [close(ms.readCh)]: a closed channel cannot be closed again. *)
Definition close_readCh (ref : nat) : M Mux () := λ m,
  match heap m !! ref with
  | Some s =>
      if ms_ch_closed s then (Panic ClosedChannel, m)
      else (Ret (), set_heap (<[ref := mkStream (ms_id s) (ms_ch s) true (ms_closed s)]> (heap m)) m)
  | None => (Panic nil_stream, m)
  end.

(** [ms.close()] *)
Definition close_stream (ref : nat) : M Mux () :=
  ok ← swap_closed ref;
  if (ok : bool) then close_readCh ref else mret ().

Definition Stream_Read (ref n : nat) : M Mux (list byte) := λ m,
  match heap m !! ref with
  | Some s =>
      match ms_ch s with
      | data :: rest =>
          (Ret (take n data), set_heap (<[ref := mkStream (ms_id s) rest (ms_ch_closed s) (ms_closed s)]> (heap m)) m)
      | [] => if ms_ch_closed s then (Err EOF, m) else (Block, m)
      end
  | None => (Panic nil_stream, m)
  end.

Definition Stream_Write (ref : nat) (b : list byte) : M Mux Z := λ m,
  match heap m !! ref with
  | Some s =>
      if ms_closed s then (Err ErrConnectionClosed, m)
      else (send (mkFrame MuxData (ms_id s) b);; mret (Z.of_nat (length b))) m
  | None => (Panic nil_stream, m)
  end.

(** [m.streams.Delete(id)] *)
Definition delete_stream (id : Z) : M Mux () := modify (λ m, set_streams (delete id (streams m)) m).

Definition Stream_Close (ref : nat) : M Mux () :=
  ok ← swap_closed ref;
  if (ok : bool) then
    m ← get;
    send (mkFrame MuxClose (stream_id ref m) []);;
    delete_stream (stream_id ref m);;
    close_readCh ref
  else mret ().

Fixpoint close_streams (refs : list nat) : M Mux () :=
  match refs with
  | [] => mret ()
  | ref :: refs' => close_stream ref;; close_streams refs'
  end.

(** [Close]: every stream of the table is closed; the table keeps them. *)
Definition Mux_Close : M Mux () :=
  m ← get;
  if mux_closed m then mret ()
  else
    modify set_mux_closed;;
    close_streams (map_to_list (streams m)).*2.

(** ** The goroutines *)

(** [select { case stream.readCh <- data: default: }] *)
Definition offer (ref : nat) (data : list byte) : M Mux () := λ m,
  match heap m !! ref with
  | Some s =>
      if ms_ch_closed s then (Panic ClosedChannel, m)
      else if (length (ms_ch s) <? streamCap)%nat
           then (Ret (), set_heap (<[ref := mkStream (ms_id s) (ms_ch s ++ [data]) false (ms_closed s)]> (heap m)) m)
           else (Ret (), m)
  | None => (Panic nil_stream, m)
  end.

(** The [switch] of [readLoop]. *)
Definition dispatch (frame : MuxFrame) : M Mux () :=
  m ← get;
  if fType frame =? MuxData then
    match streams m !! fStream frame with Some ref => offer ref (fData frame) | None => mret () end
  else if fType frame =? MuxOpen then
    modify (λ m, if (length (readCh m) <? muxCap)%nat then set_readCh (readCh m ++ [frame]) m else m)
  else if fType frame =? MuxClose then
    match streams m !! fStream frame with
    | Some ref => delete_stream (fStream frame);; close_stream ref
    | None => mret ()
    end
  else if fType frame =? MuxPing then send (mkFrame MuxPong 0 [])
  else mret ().

(** One turn of [readLoop]: whether the loop goes on. *)
Definition readLoop_step : M Mux bool :=
  m ← get;
  if mux_closed m then mret false
  else
    x ← attempt (on_in readFrame);
    match x with
    | inr _ => Mux_Close;; mret false
    | inl frame => dispatch frame;; mret true
    end.

(** One turn of [writeLoop] that finds a frame. *)
Definition writeLoop_step : M Mux bool := λ m,
  match writeCh m with
  | [] => (Block, m)
  | frame :: rest =>
      (modify (set_writeCh rest);;
       m ← get;
       if mux_closed m then mret false
       else
         err ← on_out (writeFrame frame);
         match err with
         | Some _ => Mux_Close;; mret false
         | None => mret true
         end) m
  end.

Fixpoint read_turns (n : nat) : M Mux () :=
  match n with
  | O => mret ()
  | S n' => b ← readLoop_step; if (b : bool) then read_turns n' else mret ()
  end.

(** At most [n] turns of [readLoop]; a panic is recovered, and ends the loop. *)
Definition readLoop (n : nat) : M Mux () := λ m,
  match read_turns n m with (Panic _, m') => (Ret (), m') | r => r end.

(** ** Reference: frames as bytes *)

Definition wire (f : MuxFrame) : list byte :=
  to_byte (fType f) :: be_put 4 (fStream f)
  ++ (if fType f =? MuxData then be_put 4 (u32 (Z.of_nat (length (fData f)))) ++ fData f else []).

(** The frames the code makes: payload on data frames only. *)
Definition frame_ok (f : MuxFrame) : Prop :=
  is_uint 8 (fType f) ∧ is_uint 32 (fStream f) ∧ Z.of_nat (length (fData f)) < 2 ^ 32
  ∧ (fType f ≠ MuxData → fData f = []).

(** ** Lemmas: frames *)

Lemma writeFrame_wire f w : writeFrame f w = ('(_, err) ← Write (wire f); mret err) w.
Proof.
  unfold writeFrame, wire. destruct (fType f =? MuxData).
  - unfold mbind, M_bind. by rewrite app_comm_cons.
  - unfold mbind, M_bind. by rewrite app_nil_r.
Qed.

Lemma reads_readFrame f : frame_ok f → reads readFrame (wire f) f.
Proof.
  intros (Ht&Hs&Hd&Hn). destruct f as [t stream data]. cbn [fType fStream fData] in *.
  assert (Hstream : be_get (be_put 4 stream) = stream) by (rewrite be_get_put; by apply Z.mod_small).
  assert (Htype : ubyte (to_byte t) = t) by (apply ubyte_to_byte_small; unfold is_uint in Ht; simpl in Ht; lia).
  set (h := to_byte t :: be_put 4 stream).
  assert (Hh : length h = 5%nat) by (unfold h; cbn [length]; by rewrite length_be_put).
  unfold wire. cbn [fType fStream fData]. rewrite app_comm_cons. fold h. unfold readFrame.
  eapply reads_bind; [by apply reads_ReadFull|]. cbv beta zeta.
  change (h !!! 0%nat) with (to_byte t). change (drop 1 h) with (drop 0 (be_put 4 stream)).
  rewrite drop_0, take_ge by (by rewrite length_be_put). rewrite Htype, Hstream.
  destruct (Z.eqb_spec t MuxData) as [->|Hne].
  - set (n := u32 (Z.of_nat (length data))).
    assert (Hn' : n = Z.of_nat (length data)) by (apply uwrap_id; unfold is_uint; lia).
    assert (Hlen : be_get (be_put 4 n) = n).
    { rewrite be_get_put, Hn'. apply Z.mod_small. change (8 * Z.of_nat 4) with 32. lia. }
    eapply reads_bind; [by apply reads_ReadFull; rewrite length_be_put|]. rewrite Hlen.
    eapply reads_bind_nil; [apply reads_ReadFull; lia|]. apply reads_ret.
  - rewrite Hn by done. apply reads_ret.
Qed.

(** ** Lemmas: the table *)

(** The table points at streams with the right identifier whose channel is open. *)
Record mux_wf (m : Mux) : Prop := {
  wf_table : ∀ id ref, streams m !! id = Some ref → ∃ s, heap m !! ref = Some s ∧ ms_id s = id
               ∧ (mux_closed m = false → ms_ch_closed s = false);
  wf_heap : Forall (λ s, (length (ms_ch s) ≤ streamCap)%nat ∧ (ms_ch_closed s = true → ms_closed s = true)) (heap m);
}.

Lemma wf_inj m id1 id2 ref : mux_wf m → streams m !! id1 = Some ref → streams m !! id2 = Some ref → id1 = id2.
Proof.
  intros Hw H1 H2. destruct (wf_table _ Hw _ _ H1) as (s1&?&?&_). destruct (wf_table _ Hw _ _ H2) as (s2&?&?&_).
  congruence.
Qed.

(** Changing one stream in place. *)
Lemma wf_update m ref s s' :
  mux_wf m → heap m !! ref = Some s → ms_id s' = ms_id s → (length (ms_ch s') ≤ streamCap)%nat →
  (ms_ch_closed s' = true → ms_closed s' = true) →
  (mux_closed m = false → ms_ch_closed s' = true → ∀ id, streams m !! id ≠ Some ref) →
  mux_wf (set_heap (<[ref := s']> (heap m)) m).
Proof.
  intros [Ht Hh] Hs Hid Hl Hc Hout. split; cbn [set_heap heap streams mux_closed].
  - intros id r Hr. destruct (decide (r = ref)) as [->|Hne].
    + destruct (Ht _ _ Hr) as (s0&Hs0&Hid0&_). simplify_eq. exists s'.
      rewrite list_lookup_insert_eq by (by eapply lookup_lt_Some). split_and!; [done|done|].
      intros Hcl. destruct (ms_ch_closed s') eqn:E; [|done]. by destruct (Hout Hcl eq_refl _ Hr).
    + rewrite list_lookup_insert_ne by done. by apply Ht.
  - by apply Forall_insert.
Qed.

Lemma wf_delete m id : mux_wf m → mux_wf (set_streams (delete id (streams m)) m).
Proof.
  intros [Ht Hh]. split; [|done]. cbn [set_streams streams heap mux_closed].
  intros id' ref [_ Hr]%lookup_delete_Some. by apply Ht.
Qed.

Lemma wf_store id m : mux_wf m → ∃ m', store_stream id m = (Ret (length (heap m)), m') ∧ mux_wf m'
  ∧ streams m' = <[id := length (heap m)]> (streams m) ∧ heap m' = heap m ++ [mkStream id [] false false].
Proof.
  intros [Ht Hh]. eexists. split; [done|]. split; [|done]. split; cbn [set_streams set_heap streams heap mux_closed].
  - intros id' ref Hr. destruct (decide (id' = id)) as [->|Hne].
    + rewrite lookup_insert_eq in Hr. injection Hr as <-. exists (mkStream id [] false false).
      rewrite lookup_app_r, Nat.sub_diag by lia. by split_and!.
    + rewrite lookup_insert_ne in Hr by done. destruct (Ht _ _ Hr) as (s&Hs&?&?). exists s.
      rewrite lookup_app_l by (by eapply lookup_lt_Some). by split_and!.
  - apply Forall_app. split; [done|]. apply Forall_singleton. cbn. split; [unfold streamCap; lia|done].
Qed.

(** Fields that do not matter to the invariant. *)
Lemma wf_same m m' :
  streams m' = streams m → heap m' = heap m → (mux_closed m' = false → mux_closed m = false) → mux_wf m → mux_wf m'.
Proof.
  intros E1 E2 E3 [Ht Hh]. split; [|by rewrite E2]. intros id ref. rewrite E1, E2. intros Hr.
  destruct (Ht _ _ Hr) as (s&?&?&Hc). exists s. split_and!; try done. intros. by apply Hc, E3.
Qed.

(** ** Lemmas: the operations keep the invariant *)

(** [m] keeps the invariant and never sends on or closes a closed channel. *)
Definition safe_op {A} (op : M Mux A) : Prop :=
  ∀ m, mux_wf m → mux_wf (op m).2 ∧ (op m).1 ≠ Panic ClosedChannel.

Ltac safe_done := split; [done|discriminate || done].

Lemma safe_ret {A} (a : A) : safe_op (mret a).
Proof. done. Qed.

Lemma safe_fail {A} e : safe_op (fail e : M Mux A).
Proof. intros m Hw. split; [done|discriminate]. Qed.

Lemma safe_block {A} : safe_op (block : M Mux A).
Proof. intros m Hw. split; [done|discriminate]. Qed.

Definition safe_at {A} (op : M Mux A) (m : Mux) : Prop := mux_wf (op m).2 ∧ (op m).1 ≠ Panic ClosedChannel.

Lemma safe_at_bind {A B} (op : M Mux A) (k : A → M Mux B) m :
  safe_at op m → (∀ a, safe_op (k a)) → safe_at (op ≫= k) m.
Proof.
  intros [H1 H2] Hk. unfold safe_at, mbind, M_bind.
  destruct (op m) as [[a|e|p|] m']; simpl in *; [by apply Hk|split; [done|congruence]..].
Qed.

Lemma safe_bind {A B} (op : M Mux A) (k : A → M Mux B) :
  safe_op op → (∀ a, safe_op (k a)) → safe_op (op ≫= k).
Proof. intros Ho Hk m Hw. apply safe_at_bind; [by apply Ho|done]. Qed.

Lemma safe_modify f :
  (∀ m, streams (f m) = streams m ∧ heap (f m) = heap m ∧ mux_closed (f m) = mux_closed m) → safe_op (modify f).
Proof.
  intros Hf m Hw. split; [|done]. destruct (Hf m) as (?&?&E). apply (wf_same m); try done. cbn. by rewrite E.
Qed.

Lemma safe_send f : safe_op (send f).
Proof.
  intros m Hw. unfold send. destruct (_ <? _)%nat; [|safe_done]. split; [|done]. by apply (wf_same m).
Qed.

Lemma safe_store id : safe_op (store_stream id).
Proof. intros m Hw. destruct (wf_store id m Hw) as (m'&->&?&_). done. Qed.

Lemma safe_on_in {A} (r : M Reader A) : (∀ x, (r x).1 ≠ Panic ClosedChannel) → safe_op (on_in r).
Proof.
  intros Hr m Hw. unfold on_in, zoom. specialize (Hr (conn_in m)). destruct (r (conn_in m)) as [o x].
  split; [|done]. by apply (wf_same m).
Qed.

Lemma safe_on_out {A} (w : M Writer A) : (∀ x, (w x).1 ≠ Panic ClosedChannel) → safe_op (on_out w).
Proof.
  intros Hr m Hw. unfold on_out, zoom. specialize (Hr (conn_out m)). destruct (w (conn_out m)) as [o x].
  split; [|done]. by apply (wf_same m).
Qed.

Lemma safe_attempt {A} (op : M Mux A) : safe_op op → safe_op (attempt op).
Proof.
  intros Ho m Hw. destruct (Ho m Hw) as [? H2]. unfold attempt. destruct (op m) as [[] m']; simpl in *; split; (done || congruence).
Qed.

Lemma safe_get {A} (k : Mux → M Mux A) : (∀ m, safe_op (k m)) → safe_op (get ≫= k).
Proof. intros Hk m Hw. by apply (Hk m). Qed.

Create HintDb mux.
#[export] Hint Resolve safe_ret safe_fail safe_block safe_get safe_bind safe_send safe_store safe_attempt : mux.
#[export] Hint Extern 3 (safe_op (modify _)) => apply safe_modify; (by intros ?) : mux.

Lemma OpenStream_safe : safe_op OpenStream.
Proof. apply safe_get. intros m. destruct (mux_closed m); eauto 10 with mux. Qed.

Lemma accept_loop_safe frames : safe_op (accept_loop frames).
Proof.
  induction frames as [|f rest IH]; cbn [accept_loop]; [by eauto with mux|].
  destruct (fType f =? MuxOpen); eauto with mux.
Qed.

Lemma AcceptStream_safe : safe_op AcceptStream.
Proof. apply safe_get. intros m. apply accept_loop_safe. Qed.

Lemma Stream_Read_safe ref n : safe_op (Stream_Read ref n).
Proof.
  intros m Hw. unfold Stream_Read. destruct (heap m !! ref) as [s|] eqn:Hs; [|safe_done].
  destruct (ms_ch s) as [|d rest] eqn:Hc; [by destruct (ms_ch_closed s); safe_done|]. split; [|done].
  pose proof (Forall_lookup_1 _ _ _ _ (wf_heap _ Hw) Hs) as [Hl Hcl]. rewrite Hc in Hl. simpl in Hl.
  apply (wf_update m ref s); try done; [simpl; lia|]. cbn. intros Ho E id Hr.
  destruct (wf_table _ Hw _ _ Hr) as (s0&?&_&Hf). simplify_eq. rewrite Hf in E by done. done.
Qed.

Lemma Stream_Write_safe ref b : safe_op (Stream_Write ref b).
Proof.
  intros m Hw. unfold Stream_Write. destruct (heap m !! ref) as [s|]; [|safe_done]. destruct (ms_closed s); [safe_done|].
  revert m Hw. cut (safe_op (send (mkFrame MuxData (ms_id s) b);; mret (Z.of_nat (length b)))); [done|]. eauto with mux.
Qed.

Lemma swap_closed_open ref s m :
  heap m !! ref = Some s → ms_closed s = false →
  swap_closed ref m = (Ret true, set_heap (<[ref := mkStream (ms_id s) (ms_ch s) (ms_ch_closed s) true]> (heap m)) m).
Proof. intros Hs Hc. unfold swap_closed. by rewrite Hs, Hc. Qed.

Lemma close_readCh_open ref s m :
  heap m !! ref = Some s → ms_ch_closed s = false →
  close_readCh ref m = (Ret (), set_heap (<[ref := mkStream (ms_id s) (ms_ch s) true (ms_closed s)]> (heap m)) m).
Proof. intros Hs Hc. unfold close_readCh. by rewrite Hs, Hc. Qed.

Lemma set_heap_twice h h' m : set_heap h' (set_heap h m) = set_heap h' m.
Proof. done. Qed.

Lemma Stream_Close_safe ref : safe_op (Stream_Close ref).
Proof.
  intros m Hw. unfold Stream_Close. destruct (heap m !! ref) as [s|] eqn:Hs.
  2:{ rewrite (bind_panic _ _ _ nil_stream m) by (unfold swap_closed; by rewrite Hs). safe_done. }
  destruct (ms_closed s) eqn:Hc.
  { rewrite (bind_ret _ _ _ false m) by (unfold swap_closed; by rewrite Hs, Hc). safe_done. }
  pose proof (Forall_lookup_1 _ _ _ _ (wf_heap _ Hw) Hs) as [Hl Hcl].
  assert (Hch : ms_ch_closed s = false) by (destruct (ms_ch_closed s); [rewrite Hcl in Hc by done; done|done]).
  pose proof (lookup_lt_Some _ _ _ Hs) as Hlt.
  set (s1 := mkStream (ms_id s) (ms_ch s) (ms_ch_closed s) true). set (m1 := set_heap (<[ref := s1]> (heap m)) m).
  assert (Hw1 : mux_wf m1) by (apply (wf_update m ref s); try done; cbn; congruence).
  assert (Hs1 : heap m1 !! ref = Some s1) by (cbn; by rewrite list_lookup_insert_eq).
  rewrite (bind_ret _ _ _ true m1) by (by apply swap_closed_open). rewrite get_bind.
  assert (Hid : stream_id ref m1 = ms_id s) by (unfold stream_id; by rewrite Hs1). rewrite Hid.
  destruct (length (writeCh m1) <? muxCap)%nat eqn:Hfull.
  2:{ rewrite (bind_block _ _ _ m1) by (unfold send; by rewrite Hfull). safe_done. }
  set (m2 := set_writeCh (writeCh m1 ++ [mkFrame MuxClose (ms_id s) []]) m1).
  rewrite (bind_ret _ _ _ () m2) by (unfold send; by rewrite Hfull). set (m3 := set_streams (delete (ms_id s) (streams m2)) m2).
  assert (Hw3 : mux_wf m3) by (apply wf_delete; by apply (wf_same m1)).
  rewrite (bind_ret _ _ _ () m3) by done. rewrite (close_readCh_open ref s1 m3) by done. split; [|done].
  apply (wf_update m3 ref s1); try done.
  intros _ _ id Hr. change (delete (ms_id s) (streams m) !! id = Some ref) in Hr.
  apply lookup_delete_Some in Hr as [Hne Hr]. apply Hne.
  destruct (wf_table _ Hw _ _ Hr) as (s0&?&?&_). congruence.
Qed.

(** The stream as [close] leaves it. *)
Definition closed_stream (s : MuxStream) : MuxStream :=
  if ms_closed s then s else mkStream (ms_id s) (ms_ch s) true true.

Lemma close_stream_ok ref s m :
  mux_wf m → heap m !! ref = Some s →
  close_stream ref m = (Ret (), set_heap (<[ref := closed_stream s]> (heap m)) m).
Proof.
  intros Hw Hs. pose proof (Forall_lookup_1 _ _ _ _ (wf_heap _ Hw) Hs) as [_ Hcl].
  unfold close_stream, closed_stream. destruct (ms_closed s) eqn:Hc.
  { rewrite (bind_ret _ _ _ false m) by (unfold swap_closed; by rewrite Hs, Hc). rewrite list_insert_id by done. by destruct m. }
  assert (Hch : ms_ch_closed s = false) by (destruct (ms_ch_closed s); [discriminate Hcl; done|done]).
  rewrite (bind_ret _ _ _ _ _ (swap_closed_open ref s m Hs Hc)).
  rewrite (close_readCh_open ref (mkStream (ms_id s) (ms_ch s) (ms_ch_closed s) true));
    [|cbn; by rewrite list_lookup_insert_eq by (by eapply lookup_lt_Some)|done].
  cbn [ms_id ms_ch ms_closed heap set_heap]. by rewrite list_insert_insert_eq, set_heap_twice.
Qed.

Lemma close_stream_wf ref s m :
  mux_wf m → heap m !! ref = Some s → (mux_closed m = false → ∀ id, streams m !! id ≠ Some ref) →
  mux_wf (set_heap (<[ref := closed_stream s]> (heap m)) m).
Proof.
  intros Hw Hs Ht. pose proof (Forall_lookup_1 _ _ _ _ (wf_heap _ Hw) Hs) as [Hl Hcl].
  apply (wf_update m ref s); unfold closed_stream; destruct (ms_closed s) eqn:E; try done; intros; by apply Ht.
Qed.

Lemma close_streams_safe refs : ∀ m,
  mux_wf m → mux_closed m = true → Forall (λ ref, (ref < length (heap m))%nat) refs → safe_at (close_streams refs) m.
Proof.
  induction refs as [|ref refs IH]; intros m Hw Hc Hrefs; [by split|]. apply Forall_cons_1 in Hrefs as [Hr Hrefs].
  destruct (lookup_lt_is_Some_2 _ _ Hr) as [s Hs]. cbn [close_streams]. unfold safe_at.
  rewrite (bind_ret _ _ _ _ _ (close_stream_ok ref s m Hw Hs)).
  apply IH; [apply close_stream_wf; [done|done|congruence]|done|]. cbn. by rewrite length_insert.
Qed.

Lemma Mux_Close_safe : safe_op Mux_Close.
Proof.
  intros m Hw. unfold Mux_Close. rewrite get_bind. destruct (mux_closed m) eqn:Hc; [safe_done|].
  rewrite (bind_ret _ _ _ () (set_mux_closed m)) by done. apply close_streams_safe; [|done|].
  - apply (wf_same m); [done|done|done|done].
  - apply Forall_forall. intros ref ([id ref']&->&Hin)%list_elem_of_fmap. apply elem_of_map_to_list in Hin.
    destruct (wf_table _ Hw _ _ Hin) as (s&Hs&_). by eapply lookup_lt_Some.
Qed.

Lemma offer_spec m id ref data :
  mux_wf m → mux_closed m = false → streams m !! id = Some ref →
  ∃ s, heap m !! ref = Some s ∧ ms_id s = id ∧
    offer ref data m = (Ret (), set_heap (<[ref := mkStream id (take streamCap (ms_ch s ++ [data])) false (ms_closed s)]> (heap m)) m).
Proof.
  intros Hw Ho Hr. destruct (wf_table _ Hw _ _ Hr) as (s&Hs&Hid&Hc). exists s. split_and!; [done|done|].
  unfold offer. rewrite Hs, Hc by done. subst id.
  pose proof (Forall_lookup_1 _ _ _ _ (wf_heap _ Hw) Hs) as [Hlen _].
  destruct (Nat.ltb_spec (length (ms_ch s)) streamCap) as [Hlt|Hge].
  - by rewrite take_ge by (rewrite length_app; simpl; lia).
  - rewrite take_app_le by lia. rewrite take_ge by lia. f_equal. destruct m; unfold set_heap; cbn in *. f_equal.
    symmetry. apply list_insert_id. rewrite Hs. f_equal. specialize (Hc Ho). destruct s; cbn in *. by rewrite Hc.
Qed.

Lemma dispatch_safe f m :
  mux_wf m → mux_closed m = false → mux_wf (dispatch f m).2 ∧ (dispatch f m).1 ≠ Panic ClosedChannel.
Proof.
  intros Hw Ho. unfold dispatch. rewrite get_bind.
  destruct (_ =? MuxData).
  { destruct (streams m !! fStream f) as [ref|] eqn:Hr; [|safe_done].
    destruct (offer_spec m (fStream f) ref (fData f) Hw Ho Hr) as (s&Hs&Hid&->). split; [|discriminate].
    apply (wf_update m ref s); try done. cbn [ms_ch]. rewrite length_take. lia. }
  destruct (_ =? MuxOpen).
  { apply safe_modify; [|done]. intros m'. by destruct (_ <? _)%nat. }
  destruct (_ =? MuxClose).
  { destruct (streams m !! fStream f) as [ref|] eqn:Hr; [|safe_done].
    destruct (wf_table _ Hw _ _ Hr) as (s&Hs&Hid&_). set (m1 := set_streams (delete (fStream f) (streams m)) m).
    assert (Hw1 : mux_wf m1) by (by apply wf_delete).
    rewrite (bind_ret _ _ _ () m1) by done. rewrite (close_stream_ok ref s m1 Hw1 Hs). split; [|done].
    apply close_stream_wf; [done|done|]. intros _ id Hid'. change (delete (fStream f) (streams m) !! id = Some ref) in Hid'.
    apply lookup_delete_Some in Hid' as [Hne Hid']. apply Hne. by apply (wf_inj m _ _ ref). }
  destruct (_ =? MuxPing); [by apply safe_send|safe_done].
Qed.

Lemma readFrame_no_panic r : (readFrame r).1 ≠ Panic ClosedChannel.
Proof.
  unfold readFrame, mbind, M_bind. destruct (ReadFull_spec 5 r) as (r1&->&_). case_decide; [|done].
  destruct (_ =? MuxData); [|done]. destruct (ReadFull_spec 4 r1) as (r2&->&_). case_decide; [|done].
  destruct (ReadFull_spec (Z.to_nat (be_get (take 4 (rflat r1)))) r2) as (r3&->&_). by case_decide.
Qed.

Lemma readLoop_step_safe : safe_op readLoop_step.
Proof.
  intros m Hw. unfold readLoop_step. rewrite get_bind.
  destruct (mux_closed m) eqn:Ho; [safe_done|].
  pose proof (readFrame_no_panic (conn_in m)) as Hnp. destruct (readFrame (conn_in m)) as [o r'] eqn:Er.
  set (m1 := mkMux (nextID m) (streams m) (heap m) (mux_closed m) (readCh m) (writeCh m) r' (conn_out m)).
  assert (Hw1 : mux_wf m1) by (by apply (wf_same m)).
  assert (Hat : attempt (on_in readFrame) m = (match o with Ret f => Ret (inl f) | Err e => Ret (inr e)
    | Panic p => Panic p | Block => Block end, m1)).
  { unfold attempt, on_in, zoom. rewrite Er. by destruct o. }
  destruct o as [f|e|p|].
  - rewrite (bind_ret _ _ _ _ _ Hat). apply safe_at_bind; [by apply dispatch_safe|auto with mux].
  - rewrite (bind_ret _ _ _ _ _ Hat). apply safe_at_bind; [by apply Mux_Close_safe|auto with mux].
  - rewrite (bind_panic _ _ _ _ _ Hat). split; [done|]. cbn in *. congruence.
  - rewrite (bind_block _ _ _ _ Hat). safe_done.
Qed.

Lemma writeLoop_step_safe : safe_op writeLoop_step.
Proof.
  intros m Hw. unfold writeLoop_step. destruct (writeCh m) as [|f rest]; [safe_done|].
  revert m Hw. cut (safe_op (modify (set_writeCh rest);; m ← get;
    if mux_closed m then mret false
    else err ← on_out (writeFrame f);
         match err with Some _ => Mux_Close;; mret false | None => mret true end)); [done|].
  apply safe_bind; [auto with mux|]. intros _. apply safe_get. intros m. destruct (mux_closed m); [auto with mux|].
  apply safe_bind.
  - apply safe_on_out. intros w. rewrite writeFrame_wire. destruct (writes_Write (wire f) w) as (n&e&w'&Hw&_).
    by rewrite (bind_ret _ _ _ _ _ Hw).
  - intros [e|]; [|auto with mux]. apply safe_bind; [apply Mux_Close_safe|auto with mux].
Qed.

(** ** Lemmas: delivery *)

Definition payloads (id : Z) (fs : list MuxFrame) : list (list byte) :=
  fData <$> filter (λ f, fStream f = id) fs.

Lemma take_take_app {A} n (l k : list A) : take n (take n l ++ k) = take n (l ++ k).
Proof.
  destruct (decide (length l ≤ n)%nat); [by rewrite (take_ge l)|].
  rewrite !take_app_le by (rewrite ?length_take; lia). rewrite take_take. f_equal. lia.
Qed.

(** One turn of the loop, from the bytes of a frame. *)
Lemma readLoop_step_frame f rest m :
  mux_closed m = false → frame_ok f → is_reader (conn_in m) = true → rflat (conn_in m) = wire f ++ rest →
  ∃ r', readLoop_step m = (dispatch f;; mret true)
      (mkMux (nextID m) (streams m) (heap m) (mux_closed m) (readCh m) (writeCh m) r' (conn_out m))
    ∧ r' ≡ rest_of (conn_in m) rest.
Proof.
  intros Ho Hf Hi Hin. destruct (reads_readFrame f Hf (conn_in m) rest Hi Hin) as (r'&Hr&He).
  exists r'. split; [|done]. unfold readLoop_step. rewrite get_bind, Ho.
  set (m1 := mkMux _ _ _ _ _ _ _ _). rewrite (bind_ret _ _ _ (inl f) m1); [done|].
  unfold attempt, on_in, zoom. rewrite Hr. unfold m1. by rewrite Ho.
Qed.

(** A data frame for a registered stream, or for none. *)
Lemma dispatch_data f m :
  mux_wf m → mux_closed m = false → fType f = MuxData →
  ∃ h', dispatch f m = (Ret (), set_heap h' m) ∧ mux_wf (set_heap h' m)
    ∧ ∀ id ref s, streams m !! id = Some ref → heap m !! ref = Some s →
        h' !! ref = Some (mkStream id (take streamCap (ms_ch s ++ payloads id [f])) false (ms_closed s)).
Proof.
  intros Hw Ho Ht. pose proof (dispatch_safe f m Hw Ho) as [Hsafe _]. revert Hsafe.
  unfold dispatch. rewrite get_bind, Ht. change (MuxData =? MuxData) with true. cbv iota.
  assert (Hsame : ∀ id ref s, streams m !! id = Some ref → heap m !! ref = Some s → payloads id [f] = [] →
    heap m !! ref = Some (mkStream id (take streamCap (ms_ch s ++ payloads id [f])) false (ms_closed s))).
  { intros id ref s Hr Hs ->. rewrite app_nil_r. destruct (wf_table _ Hw _ _ Hr) as (s0&Hs0&<-&Hc). simplify_eq.
    pose proof (Forall_lookup_1 _ _ _ _ (wf_heap _ Hw) Hs) as [Hl _]. rewrite take_ge, Hs by done.
    specialize (Hc Ho). destruct s; cbn in *. by rewrite Hc. }
  destruct (streams m !! fStream f) as [ref0|] eqn:Hr0; intros Hsafe.
  - destruct (offer_spec m (fStream f) ref0 (fData f) Hw Ho Hr0) as (s0&Hs0&Hid0&E). rewrite E in *.
    eexists. split_and!; [done|done|]. intros id ref s Hr Hs. destruct (decide (id = fStream f)) as [->|Hne].
    + simplify_eq. rewrite list_lookup_insert_eq by (by eapply lookup_lt_Some). unfold payloads.
      by rewrite filter_cons_True by done.
    + rewrite list_lookup_insert_ne; [|intros ->; by apply Hne, (wf_inj m _ _ ref)].
      apply Hsame; [done|done|]. unfold payloads. by rewrite filter_cons_False.
  - assert (Hm : set_heap (heap m) m = m) by (by destruct m).
    exists (heap m). rewrite Hm. split_and!; [done|done|]. intros id ref s Hr Hs.
    apply Hsame; [done|done|]. unfold payloads. rewrite filter_cons_False; [done|congruence].
Qed.

Lemma readLoop_delivers fs : ∀ m rest,
  mux_wf m → mux_closed m = false → is_reader (conn_in m) = true →
  Forall (λ f, frame_ok f ∧ fType f = MuxData) fs → rflat (conn_in m) = concat (wire <$> fs) ++ rest →
  ∃ m', read_turns (length fs) m = (Ret (), m') ∧ mux_wf m' ∧ streams m' = streams m
    ∧ conn_in m' ≡ rest_of (conn_in m) rest
    ∧ ∀ id ref s, streams m !! id = Some ref → heap m !! ref = Some s →
        heap m' !! ref = Some (mkStream id (take streamCap (ms_ch s ++ payloads id fs)) false (ms_closed s)).
Proof.
  induction fs as [|f fs IH]; intros m rest Hw Ho Hi Hfs Hin.
  - exists m. split_and!; [done|done|done|by apply rest_of_equiv|]. intros id ref s Hr Hs.
    destruct (wf_table _ Hw _ _ Hr) as (s0&Hs0&<-&Hc). simplify_eq. unfold payloads. cbn [filter list_filter fmap list_fmap].
    pose proof (Forall_lookup_1 _ _ _ _ (wf_heap _ Hw) Hs) as [Hl _]. rewrite app_nil_r, take_ge, Hs by done.
    specialize (Hc Ho). destruct s; cbn in *. by rewrite Hc.
  - apply Forall_cons_1 in Hfs as [[Hf Ht] Hfs]. rewrite fmap_cons in Hin. cbn [concat] in Hin. rewrite <- app_assoc in Hin.
    destruct (readLoop_step_frame f _ m Ho Hf Hi Hin) as (r'&Hstep&He).
    set (m1 := mkMux (nextID m) (streams m) (heap m) (mux_closed m) (readCh m) (writeCh m) r' (conn_out m)) in *.
    destruct (dispatch_data f m1) as (h'&Hd&Hw1&Hdel); [by apply (wf_same m)|done|done|].
    destruct He as (Hf1&He1&Hi1). rewrite rflat_rest in Hf1.
    destruct (IH (set_heap h' m1) rest) as (m'&Hr&Hw'&Hst&Hin'&Hdel'); [done|done|etrans; [exact Hi1|done]|done|done|].
    exists m'. split_and!; [|done|done| |].
    + cbn [length read_turns]. rewrite (bind_ret _ _ _ true (set_heap h' m1)); [done|].
      rewrite Hstep. by rewrite (bind_ret _ _ _ _ _ Hd).
    + etrans; [exact Hin'|]. by apply rest_of_equiv; rewrite ?rflat_rest.
    + intros id ref s Hid Hs. rewrite (Hdel' id ref _ Hid (Hdel id ref s Hid Hs)). cbn [ms_ch ms_closed].
      rewrite take_take_app. do 3 f_equal. rewrite <- app_assoc. f_equal. unfold payloads.
      change (f :: fs) with ([f] ++ fs). by rewrite filter_app, fmap_app.
Qed.

(** ** The properties of the component *)

Fixpoint writeFrames (fs : list MuxFrame) : M Writer (option error) :=
  match fs with
  | [] => mret None
  | f :: fs' => err ← writeFrame f; match err with Some e => mret (Some e) | None => writeFrames fs' end
  end.

Fixpoint readFrames (n : nat) : M Reader (list MuxFrame) :=
  match n with
  | O => mret []
  | S n' => f ← readFrame; fs ← readFrames n'; mret (f :: fs)
  end.

Lemma writeFrames_wire fs : ∀ w, wplan w = [] →
  ∃ w', writeFrames fs w = (Ret None, w') ∧ wplan w' = [] ∧ wout w' = wout w ++ concat (wire <$> fs).
Proof.
  induction fs as [|f fs IH]; intros w Hp.
  { exists w. split_and!; [done|done|]. symmetry. apply app_nil_r. }
  set (w1 := mkWriter (wlog w ++ [wire f]) []).
  destruct (IH w1 eq_refl) as (w'&Hw'&Hp'&Hout). exists w'. split_and!; [|done|].
  - cbn [writeFrames]. rewrite (bind_ret _ _ _ None w1); [done|]. rewrite writeFrame_wire.
    unfold mbind, M_bind, Write. by rewrite Hp.
  - rewrite Hout. unfold w1. rewrite wout_snoc, fmap_cons. cbn [concat]. by rewrite app_assoc.
Qed.

Lemma reads_readFrames fs : Forall frame_ok fs → reads (readFrames (length fs)) (concat (wire <$> fs)) fs.
Proof.
  induction 1 as [|f fs Hf _ IH]; [apply reads_ret|]. rewrite fmap_cons. cbn [concat length readFrames].
  eapply reads_bind; [by apply reads_readFrame|]. eapply reads_bind_nil; [exact IH|apply reads_ret].
Qed.

(** Frames survive the wire: any sequence of well-formed frames that [writeFrame]
    sends is what [readFrame] receives at the other end, types, stream identifiers
    and payloads included, however the transport cuts it, with the input after it
    left unread. *)
Theorem mux_frames_roundtrip fs w r rest :
  Forall frame_ok fs → wplan w = [] → wout w = [] →
  is_reader r = true → rflat r = wout (writeFrames fs w).2 ++ rest →
  (writeFrames fs w).1 = Ret None
  ∧ ∃ r', readFrames (length fs) r = (Ret fs, r') ∧ r' ≡ rest_of r rest.
Proof.
  intros Hfs Hp Ho Hi Hin. destruct (writeFrames_wire fs w Hp) as (w'&Hw&_&Hout). rewrite Hw in *.
  split; [done|]. cbn [snd] in Hin. rewrite Hout, Ho in Hin. by apply (reads_readFrames fs Hfs).
Qed.

Lemma mux_frames_roundtrip_witness :
  let fs := [mkFrame MuxOpen 7 []; mkFrame MuxData 7 [x41; x42]; mkFrame MuxPing 0 []] in
  ∃ r', readFrames 3 (mkReader [wout (writeFrames fs (mkWriter [] [])).2; [x09]] EOF true) = (Ret fs, r').
Proof.
  intros fs. destruct (mux_frames_roundtrip fs (mkWriter [] [])
    (mkReader [wout (writeFrames fs (mkWriter [] [])).2; [x09]] EOF true) [x09]) as [_ (r'&Hr&_)].
  - repeat constructor; (by vm_compute) || (intros; done).
  - done.
  - done.
  - done.
  - by vm_compute.
  - exists r'. exact Hr.
Defined.

Inductive mux_op :=
| DoOpen | DoAccept | DoRead (ref n : nat) | DoWrite (ref : nat) (b : list byte) | DoClose (ref : nat)
| DoMuxClose | DoReadLoop | DoWriteLoop.

Definition mux_do (op : mux_op) (m : Mux) : outcome () * Mux :=
  let run {A} (r : outcome A * Mux) : outcome () * Mux :=
    (match r.1 with Ret _ => Ret () | Err e => Err e | Panic p => Panic p | Block => Block end, r.2) in
  match op with
  | DoOpen => run (OpenStream m)
  | DoAccept => run (AcceptStream m)
  | DoRead ref n => run (Stream_Read ref n m)
  | DoWrite ref b => run (Stream_Write ref b m)
  | DoClose ref => run (Stream_Close ref m)
  | DoMuxClose => run (Mux_Close m)
  | DoReadLoop => run (readLoop_step m)
  | DoWriteLoop => run (writeLoop_step m)
  end.

Lemma mux_do_safe op m : mux_wf m → mux_wf (mux_do op m).2 ∧ (mux_do op m).1 ≠ Panic ClosedChannel.
Proof.
  intros Hw.
  assert (∀ A (o : M Mux A), safe_op o → mux_wf (o m).2 ∧
    match (o m).1 with Ret _ => Ret () | Err e => Err e | Panic p => Panic p | Block => Block end ≠ Panic ClosedChannel) as H.
  { intros A o Ho. destruct (Ho m Hw) as [H1 H2]. split; [done|]. destruct (o m).1; congruence. }
  destruct op; cbn; apply H; [apply OpenStream_safe|apply AcceptStream_safe|apply Stream_Read_safe|apply Stream_Write_safe
    |apply Stream_Close_safe|apply Mux_Close_safe|apply readLoop_step_safe|apply writeLoop_step_safe].
Qed.

Definition mux_runs (ops : list mux_op) (m : Mux) : Mux := foldl (λ m op, (mux_do op m).2) m ops.

(** The stream table is consistent: after any sequence of operations of the two
    goroutines and of the streams' users, each taken as one step, in any order and on any
    input from the peer, every entry of the table is a stream with the identifier it is
    filed under, no two identifiers share a stream, no channel exceeds its 64 slots, and
    no operation sends on, or closes, a closed channel. *)
Theorem mux_invariant r w ops op :
  let m := mux_runs ops (NewMux r w) in
  (∀ id ref, streams m !! id = Some ref → ∃ s, heap m !! ref = Some s ∧ ms_id s = id)
  ∧ (∀ id1 id2 ref, streams m !! id1 = Some ref → streams m !! id2 = Some ref → id1 = id2)
  ∧ Forall (λ s, (length (ms_ch s) ≤ 64)%nat) (heap m)
  ∧ (mux_do op m).1 ≠ Panic ClosedChannel.
Proof.
  intros m. assert (Hw : mux_wf m).
  { assert (H0 : mux_wf (NewMux r w)) by (split; [by intros id ref|constructor]).
    unfold m, mux_runs. revert H0. generalize (NewMux r w). induction ops as [|o ops IH]; intros m0 H0; [done|].
    cbn [foldl]. apply IH. by apply mux_do_safe. }
  split_and!.
  - intros id ref Hr. destruct (wf_table _ Hw _ _ Hr) as (s&?&?&_). eauto.
  - intros id1 id2 ref. by apply wf_inj.
  - eapply Forall_impl; [apply (wf_heap _ Hw)|]. by intros s [? _].
  - by apply mux_do_safe.
Qed.

(** Delivery: data frames from the peer reach exactly the stream they name, in
    order, whatever other streams' frames are interleaved; of what does not fit the
    64 slots the newest is dropped; frames for unknown streams change nothing. *)
Theorem mux_delivery fs m rest :
  mux_wf m → mux_closed m = false → is_reader (conn_in m) = true →
  Forall (λ f, frame_ok f ∧ fType f = MuxData) fs → rflat (conn_in m) = concat (wire <$> fs) ++ rest →
  ∃ m', readLoop (length fs) m = (Ret (), m') ∧ conn_in m' ≡ rest_of (conn_in m) rest
    ∧ ∀ id ref s, streams m !! id = Some ref → heap m !! ref = Some s →
        heap m' !! ref = Some (mkStream id (take 64 (ms_ch s ++ payloads id fs)) false (ms_closed s)).
Proof.
  intros Hw Ho Hi Hfs Hin. destruct (readLoop_delivers fs m rest Hw Ho Hi Hfs Hin) as (m'&Ht&_&_&?&?).
  exists m'. unfold readLoop. by rewrite Ht.
Qed.

Lemma mux_delivery_witness :
  let fs := [mkFrame MuxData 1 [x41]; mkFrame MuxData 2 [x42]; mkFrame MuxData 9 [x43]; mkFrame MuxData 1 [x44]] in
  let m := (OpenStream ((OpenStream (NewMux (mkReader [concat (wire <$> fs)] EOF true) (mkWriter [] []))).2)).2 in
  ∃ m', readLoop 4 m = (Ret (), m') ∧ heap m' !! 0%nat = Some (mkStream 1 [[x41]; [x44]] false false).
Proof.
  intros fs m. destruct (mux_delivery fs m []) as (m'&H1&_&H2).
  - apply OpenStream_safe, OpenStream_safe. split; [by intros id ref|constructor].
  - done.
  - done.
  - repeat constructor; (by vm_compute) || (intros; done).
  - by vm_compute.
  - exists m'. split; [exact H1|]. by apply (H2 1 0%nat (mkStream 1 [] false false)).
Defined.

(** Data sent before the peer accepts is lost: [readLoop] files a stream under its
    identifier only once [AcceptStream] has run, so a data frame that follows its
    open frame at once is discarded, and the accepted stream is empty. *)
Theorem data_before_accept_lost id d m :
  mux_wf m → mux_closed m = false → streams m !! id = None → readCh m = [] →
  ∃ m1 m2 ref, (dispatch (mkFrame MuxOpen id []);; dispatch (mkFrame MuxData id d)) m = (Ret (), m1)
    ∧ AcceptStream m1 = (Ret ref, m2) ∧ streams m2 !! id = Some ref
    ∧ heap m2 !! ref = Some (mkStream id [] false false).
Proof.
  intros Hw Ho Hid Hr. set (m1 := set_readCh [mkFrame MuxOpen id []] m).
  assert (H1 : dispatch (mkFrame MuxOpen id []) m = (Ret (), m1)).
  { unfold dispatch. rewrite get_bind. cbn. unfold modify. by rewrite Hr. }
  assert (H2 : dispatch (mkFrame MuxData id d) m1 = (Ret (), m1)).
  { unfold dispatch. rewrite get_bind. cbn [fType fStream]. change (MuxData =? MuxData) with true. cbv iota.
    change (streams m1) with (streams m). by rewrite Hid. }
  set (m2 := set_readCh [] m1). destruct (wf_store id m2) as (m3&H3&_&Ht&Hh); [by apply (wf_same m)|].
  exists m1, m3, (length (heap m2)). split_and!.
  - by rewrite (bind_ret _ _ _ _ _ H1).
  - exact H3.
  - by rewrite Ht, lookup_insert_eq.
  - by rewrite Hh, lookup_app_r, Nat.sub_diag by lia.
Qed.

Lemma data_before_accept_lost_witness :
  ∃ m1 m2 ref, (dispatch (mkFrame MuxOpen 5 []);; dispatch (mkFrame MuxData 5 [x41])) (NewMux (reader_of []) (mkWriter [] []))
      = (Ret (), m1) ∧ AcceptStream m1 = (Ret ref, m2) ∧ heap m2 !! ref = Some (mkStream 5 [] false false).
Proof.
  destruct (data_before_accept_lost 5 [x41] (NewMux (reader_of []) (mkWriter [] []))) as (m1&m2&ref&H1&H2&_&H3).
  - split; [by intros id ref|constructor].
  - done.
  - done.
  - done.
  - exists m1, m2, ref. split_and!; [exact H1|exact H2|exact H3].
Defined.

(** Inside one turn of [readLoop] this does not hold: between looking a stream up and
    sending to it, [Stream.Close] of another goroutine may close the channel, and the
    send then panics; the deferred [recover] ends [readLoop] without closing the mux. *)
Theorem close_during_dispatch_panics m id ref s d :
  mux_wf m → streams m !! id = Some ref → heap m !! ref = Some s → ms_closed s = false →
  (length (writeCh m) < muxCap)%nat →
  ∃ m1, Stream_Close ref m = (Ret (), m1) ∧ offer ref d m1 = (Panic ClosedChannel, m1) ∧ mux_closed m1 = mux_closed m.
Proof.
  intros Hw Hr Hs Hc Hlen. pose proof (lookup_lt_Some _ _ _ Hs) as Hlt.
  pose proof (Forall_lookup_1 _ _ _ _ (wf_heap _ Hw) Hs) as [_ Hcl].
  assert (Hch : ms_ch_closed s = false) by (destruct (ms_ch_closed s); [rewrite Hcl in Hc by done; done|done]).
  unfold Stream_Close. set (s1 := mkStream (ms_id s) (ms_ch s) (ms_ch_closed s) true).
  set (m1 := set_heap (<[ref := s1]> (heap m)) m). rewrite (bind_ret _ _ _ true m1) by (by apply swap_closed_open).
  rewrite get_bind. set (m2 := set_writeCh (writeCh m1 ++ [mkFrame MuxClose (stream_id ref m1) []]) m1).
  rewrite (bind_ret _ _ _ () m2) by (unfold send; by rewrite (proj2 (Nat.ltb_lt (length (writeCh m1)) muxCap)) by done).
  set (m3 := set_streams (delete (stream_id ref m1) (streams m2)) m2). rewrite (bind_ret _ _ _ () m3) by done.
  assert (Hs3 : heap m3 !! ref = Some s1) by (cbn; by rewrite list_lookup_insert_eq).
  rewrite (close_readCh_open ref s1 m3) by done. eexists. split; [done|]. unfold offer. cbn. rewrite list_insert_insert_eq.
  by rewrite list_lookup_insert_eq.
Qed.

Lemma close_during_dispatch_panics_witness :
  let m := (OpenStream (NewMux (reader_of []) (mkWriter [] []))).2 in
  ∃ m1, Stream_Close 0 m = (Ret (), m1) ∧ offer 0 [x41] m1 = (Panic ClosedChannel, m1).
Proof.
  intros m. destruct (close_during_dispatch_panics m 1 0 (mkStream 1 [] false false) [x41]) as (m1&H1&H2&_).
  - apply OpenStream_safe. split; [by intros id ref|constructor].
  - done.
  - done.
  - done.
  - unfold muxCap. simpl. lia.
  - exists m1. split; [exact H1|exact H2].
Defined.

(** Both ends number their streams from 1: when each opens its first stream, the
    peer's open frame, once accepted, takes over identifier 1, and what the peer sends
    on it reaches the accepted stream and no longer the one opened here. *)
Theorem stream_ids_collide r w d :
  ∃ m1 m2 m3, OpenStream (NewMux r w) = (Ret 0%nat, m1)
    ∧ (dispatch (mkFrame MuxOpen 1 []);; AcceptStream) m1 = (Ret 1%nat, m2)
    ∧ dispatch (mkFrame MuxData 1 d) m2 = (Ret (), m3)
    ∧ heap m3 = [mkStream 1 [] false false; mkStream 1 [d] false false].
Proof.
  set (m1 := (OpenStream (NewMux r w)).2).
  set (m2 := ((dispatch (mkFrame MuxOpen 1 []);; AcceptStream) m1).2).
  exists m1, m2, (dispatch (mkFrame MuxData 1 d) m2).2. split_and!; by vm_compute.
Qed.

(** A read with a buffer shorter than the message at hand loses the rest of the
    message: the next read continues with the next message. *)
Theorem short_read_loses m ref s data rest n :
  heap m !! ref = Some s → ms_ch s = data :: rest → (n < length data)%nat →
  ∃ m1 s1, Stream_Read ref n m = (Ret (take n data), m1) ∧ heap m1 !! ref = Some s1 ∧ ms_ch s1 = rest.
Proof.
  intros Hs Hc Hn. unfold Stream_Read. rewrite Hs, Hc.
  eexists _, (mkStream (ms_id s) rest (ms_ch_closed s) (ms_closed s)). split; [done|]. split; [|done]. cbn. by rewrite list_lookup_insert_eq by (by eapply lookup_lt_Some).
Qed.

Lemma short_read_loses_witness :
  let m := set_heap [mkStream 1 [[x41; x42; x43]; [x44]] false false] (NewMux (reader_of []) (mkWriter [] [])) in
  ∃ m1 s1, Stream_Read 0 2 m = (Ret [x41; x42], m1) ∧ heap m1 !! 0%nat = Some s1 ∧ ms_ch s1 = [[x44]].
Proof.
  intros m. destruct (short_read_loses m 0 (mkStream 1 [[x41; x42; x43]; [x44]] false false) [x41; x42; x43] [[x44]] 2)
    as (m1&s1&H1&H2&H3); [done|done|simpl; lia|].
  exists m1, s1. split_and!; [exact H1|exact H2|exact H3].
Defined.
