(* ===== verification/MuxSys.v ===== *)
(** * The goroutines of a multiplexer ([tunnel/mux.go])

    [Mux.v] takes each method as one step.  Here the methods are split at their visible
    actions: loads, stores and compare-and-swaps, operations on the stream table, sends,
    receives and closes of channels.  Any number of goroutines run the methods of the mux
    and its streams, next to the two of [NewMux], in any interleaving; a goroutine that
    waits on a channel goes on when it can.  The reader and the writer of the
    connection are arbitrary: they deliver any bytes and fail at any call, which covers the
    calls that fail because the connection was closed. *)

From S2P Require Export Mux.
#[local] Open Scope Z_scope.

(** ** Program counters *)

Inductive pc :=
(* [OpenStream]: the test of [closed], [nextID.Add], [streams.Store], the send *)
| OpenCheck | OpenAdd | OpenStore (id : Z) | OpenSend (id : Z)
(* [AcceptStream]: the receive, [streams.Store] *)
| AcceptRecv | AcceptStore (id : Z)
(* [Read]; [Write]: the test of [closed], the send *)
| ReadRecv (ref n : nat) | WriteCheck (ref : nat) (b : list byte) | WriteSend (ref : nat) (b : list byte)
(* [MuxStream.Close]: the swap, the send, [streams.Delete], [close(readCh)] *)
| CloseSwap (ref : nat) | CloseSend (ref : nat) | CloseDelete (ref : nat) | CloseCh (ref : nat)
(* [Mux.Close]: the swap, [streams.Range], the swap and the [close(readCh)] of a stream's
   [close], [close(stopCh)], [conn.Close] *)
| MuxSwap | MuxRange | MuxSwapOne (ref : nat) | MuxCloseOne (ref : nat) | MuxStop | MuxConn
(* [readLoop]: the test of [closed], [readFrame], the [switch], the send to a stream, the
   swap and the [close(readCh)] of a stream's [close], the send of a pong *)
| LoopCheck | LoopRead | LoopFrame (f : MuxFrame) | LoopOffer (ref : nat) (d : list byte)
| LoopSwap (ref : nat) | LoopCloseOne (ref : nat) | LoopPong
(* [writeLoop]: the [select], the test of [closed], [writeFrame] *)
| WaitFrame | WriteTest (f : MuxFrame) | WriteOut (f : MuxFrame)
(* returned, or stopped by a panic *)
| Done | Panicked (p : panic).



(** ** The system *)









(** ** What the invariant counts *)


(** Between the swap of the mux's [closed] and the close of [stopCh], or of the connection. *)
Definition stopping (p : pc) : Z :=
  match p with MuxRange | MuxSwapOne _ | MuxCloseOne _ | MuxStop => 1 | _ => 0 end.
Definition conning (p : pc) : Z := match p with MuxConn => 1 | _ => stopping p end.







(** ** Lemmas: one action *)
















(** ** Lemmas: all the goroutines *)


Lemma conning_nonneg p : 0 ≤ conning p.
Proof. destruct p; cbn; lia. Qed.













(** ** The properties of the component *)






