(* ===== verification/MuxLink.v ===== *)
(** * Two multiplexers on one connection ([tunnel/mux.go])

    One end writes to its streams while its [writeLoop] runs; the other end's [readLoop]
    receives.  The schedule of the writing end is arbitrary: writes to any streams and turns of
    the loop, in any order; a write that finds the channel full waits and is tried again. *)

From S2P Require Export Mux.
#[local] Open Scope Z_scope.

(** ** The writing end *)

(** An action: a call of [Write] on a stream, or a turn of [writeLoop]. *)
Inductive link_op := LWrite (ref : nat) (data : list byte) | LTurn.

(** The frame of a write that has been accepted. *)
Definition data_frame (m : Mux) (ref : nat) (data : list byte) : list MuxFrame :=
  match heap m !! ref with Some s => [mkFrame MuxData (ms_id s) data] | None => [] end.

(** Runs the actions; beside the state, the frames of the writes that returned. *)
Fixpoint link_run (ops : list link_op) (m : Mux) : Mux * list MuxFrame :=
  match ops with
  | [] => (m, [])
  | LWrite ref data :: ops' =>
      match Stream_Write ref data m with
      | (Ret _, m') => let '(m2, fs) := link_run ops' m' in (m2, data_frame m ref data ++ fs)
      | (_, m') => link_run ops' m'
      end
  | LTurn :: ops' => link_run ops' (writeLoop_step m).2
  end.

(** ** Lemmas *)

(** An open mux on a connection that does not fail, whose streams have 32-bit numbers. *)
Definition sender_ok (m : Mux) : Prop :=
  mux_closed m = false ∧ wplan (conn_out m) = [] ∧ Forall (λ s, is_uint 32 (ms_id s)) (heap m).

(** What is on the wire and in the channel. *)
Definition in_line (m : Mux) : list byte := wout (conn_out m) ++ concat (wire <$> writeCh m).

Lemma turn_line m : sender_ok m → sender_ok (writeLoop_step m).2 ∧ in_line (writeLoop_step m).2 = in_line m
  ∧ heap (writeLoop_step m).2 = heap m.
Proof.
  intros (Hc&Hp&Hh). unfold writeLoop_step. destruct (writeCh m) as [|f fs] eqn:Ew; [done|].
  set (m1 := set_writeCh fs m). rewrite (bind_ret _ _ _ () m1) by done. rewrite get_bind.
  change (mux_closed m1) with (mux_closed m). rewrite Hc.
  set (m2 := mkMux (nextID m) (streams m) (heap m) (mux_closed m) (readCh m) fs (conn_in m) (mkWriter (wlog (conn_out m) ++ [wire f]) [])).
  rewrite (bind_ret _ _ _ None m2).
  2:{ unfold on_out, zoom. change (conn_out m1) with (conn_out m). rewrite writeFrame_wire. unfold mbind, M_bind, Write. by rewrite Hp. }
  cbn [snd mret M_ret]. unfold in_line, sender_ok, m2. cbn [mux_closed conn_out writeCh heap wplan]. split_and!; [done|done|done| |done].
  rewrite wout_snoc, Ew, fmap_cons. cbn [concat]. by rewrite <- app_assoc.
Qed.

Lemma write_line ref data m :
  sender_ok m →
  match Stream_Write ref data m with
  | (Ret _, m') => sender_ok m' ∧ in_line m' = in_line m ++ concat (wire <$> data_frame m ref data) ∧ heap m' = heap m
  | (_, m') => m' = m
  end.
Proof.
  intros (Hc&Hp&Hh). unfold Stream_Write, data_frame. destruct (heap m !! ref) as [s|] eqn:Es; [|done].
  destruct (ms_closed s); [done|]. unfold mbind, M_bind, send. destruct (_ <? muxCap)%nat; [|done].
  cbn. unfold in_line, sender_ok. cbn [set_writeCh mux_closed conn_out writeCh heap]. split_and!; try done.
  rewrite fmap_app, concat_app. by rewrite app_assoc.
Qed.

Lemma link_run_line ops : ∀ m, sender_ok m →
  let '(m', fs) := link_run ops m in sender_ok m' ∧ in_line m' = in_line m ++ concat (wire <$> fs) ∧ heap m' = heap m.
Proof.
  induction ops as [|[ref data|] ops IH]; intros m Hm; cbn [link_run].
  - cbn. by rewrite app_nil_r.
  - pose proof (write_line ref data m Hm) as Hw. destruct (Stream_Write ref data m) as [[n| | |] m1].
    + destruct Hw as (H1&H2&H3). specialize (IH m1 H1). destruct (link_run ops m1) as [m2 fs]. destruct IH as (I1&I2&I3).
      split_and!; [done| |congruence]. by rewrite I2, H2, fmap_app, concat_app, app_assoc.
    + subst m1. by apply IH.
    + subst m1. by apply IH.
    + subst m1. by apply IH.
  - destruct (turn_line m Hm) as (H1&H2&H3). specialize (IH _ H1). destruct (link_run ops (writeLoop_step m).2) as [m2 fs].
    destruct IH as (I1&I2&I3). split_and!; [done|congruence|congruence].
Qed.

(** The payloads are those of [Write] calls, whose length a frame can carry. *)
Lemma link_run_frames ops : ∀ m,
  sender_ok m → Forall (λ op, match op with LWrite _ d => Z.of_nat (length d) < 2 ^ 32 | LTurn => True end) ops →
  Forall (λ f, frame_ok f ∧ fType f = MuxData) (link_run ops m).2.
Proof.
  induction ops as [|[ref data|] ops IH]; intros m Hm Hops; cbn [link_run]; [constructor|..];
    apply Forall_cons in Hops as [Hd Hops].
  - pose proof (write_line ref data m Hm) as Hw. destruct (Stream_Write ref data m) as [[n| | |] m1];
      [|subst m1; by apply IH..].
    destruct Hw as (H1&_). specialize (IH m1 H1 Hops). destruct (link_run ops m1) as [m2 fs]. cbn [snd] in *. apply Forall_app. split; [|done].
    unfold data_frame. destruct (heap m !! ref) as [s|] eqn:Es; [|constructor]. apply Forall_singleton.
    destruct Hm as (_&_&Hh). pose proof (Forall_lookup_1 _ _ _ _ Hh Es) as Hid. split; [|done]. unfold frame_ok. by split_and!.
  - apply IH; [apply (turn_line m Hm)|done].
Qed.

(** ** The property *)

(** C33. End to end: whatever writes to whatever streams are made at one end, interleaved with its
    [writeLoop] in any way, once the channel has drained, the other end's [readLoop], over
    any fragmentation of the bytes, delivers to each stream it knows exactly the data of
    the writes that returned on the stream of that number, in their order, message by
    message; of what exceeds the 64 slots the newest is dropped. *)
Theorem mux_end_to_end ops a b :
  sender_ok a → wout (conn_out a) = [] → writeCh a = [] →
  Forall (λ op, match op with LWrite _ d => Z.of_nat (length d) < 2 ^ 32 | LTurn => True end) ops →
  mux_wf b → mux_closed b = false → is_reader (conn_in b) = true →
  let '(a', fs) := link_run ops a in
  writeCh a' = [] → rflat (conn_in b) = wout (conn_out a') →
  ∃ b', readLoop (length fs) b = (Ret (), b') ∧ rflat (conn_in b') = []
    ∧ ∀ id ref s, streams b !! id = Some ref → heap b !! ref = Some s →
        heap b' !! ref = Some (mkStream id (take 64 (ms_ch s ++ payloads id fs)) false (ms_closed s)).
Proof.
  intros Ha Ho Hw0 Hops Hb Hob Hi. pose proof (link_run_line ops a Ha) as Hline. pose proof (link_run_frames ops a Ha Hops) as Hfs.
  destruct (link_run ops a) as [a' fs]. cbn [snd] in Hfs. destruct Hline as (_&Hl&_). intros Hw Hin.
  unfold in_line in Hl. rewrite Hw, Hw0, Ho in Hl. cbn [fmap list_fmap concat app] in Hl. rewrite app_nil_r in Hl.
  rewrite Hl in Hin. rewrite <- (app_nil_r (concat _)) in Hin.
  destruct (readLoop_delivers fs b [] Hb Hob Hi Hfs Hin) as (b'&Ht&_&_&(Hf&_)&Hd). exists b'. unfold readLoop. rewrite Ht.
  split_and!; [done| |exact Hd]. by rewrite Hf, rflat_rest.
Qed.

(** Two streams at the sending end, two at the receiving one. *)
Lemma mux_end_to_end_witness :
  let two r := (OpenStream (OpenStream (NewMux r (mkWriter [] []))).2).2 in
  let a := set_writeCh [] (two (mkReader [] EOF true)) in
  let ops := [LWrite 0 [x41]; LWrite 1 [x42]; LTurn; LWrite 0 [x43]; LTurn; LTurn] in
  let b := two (mkReader [wout (conn_out (link_run ops a).1)] EOF true) in
  ∃ b', readLoop 3 b = (Ret (), b') ∧ heap b' !! 0%nat = Some (mkStream 1 [[x41]; [x43]] false false).
Proof.
  intros two a ops b.
  assert (Hwf : mux_wf b) by (apply OpenStream_safe, OpenStream_safe; split; [by intros id ref|constructor]).
  pose proof (mux_end_to_end ops a b) as H.
  destruct H as (b'&H1&_&H2).
  - split; [reflexivity|]. split; [reflexivity|]. repeat constructor; vm_compute; intros; congruence.
  - reflexivity.
  - reflexivity.
  - repeat constructor.
  - exact Hwf.
  - reflexivity.
  - reflexivity.
  - reflexivity.
  - vm_compute. reflexivity.
  - exists b'. split; [exact H1|]. exact (H2 1 0%nat (mkStream 1 [] false false) eq_refl eq_refl).
Defined.
