(* ===== verification/Relay.v ===== *)
(** * Relays ([tunnel/relay.go])

    The packet relay is written against the interface [PacketRW], the Go interface
    [packetReaderWriter]; [MineConn] implements it.  The byte relays copy between a
    reader and a writer.  Here is one direction by itself, the one from client to server;
    [RelaySys.v] has both, over the same connections. *)

From S2P Require Export MineConn.
#[local] Open Scope Z_scope.

(** ** The interface *)

(** A connection of type [C]: its operations, the frame it will deliver next, the
    output it has produced, and what the relay relies on. *)
Class PacketRW (C : Type) := {
  rw_ReadRawPacket : M C RawPacket;
  rw_WritePacket : Packet → M C ();
  rw_Close : M C ();
  rw_Release : RawPacket → M C ();
}.

#[export] Instance MineConn_RW `{Zlib} `{BlockCipher} : PacketRW MineConn := {|
  rw_ReadRawPacket := MC_ReadRawPacket;
  rw_WritePacket := MC_WritePacket;
  rw_Close := MC_Close;
  rw_Release rp := on_world (on_pool (RawPacket_Release rp));; mret ();
|}.

(** ** The packet relay *)

Record Relay (A B : Type) := mkRelay {
  rl_src : A;
  rl_dst : B;
  rl_closed : bool;
  rl_counter : Z;
  rl_errors : Z;
}.
Arguments mkRelay {A B}.
Arguments rl_src {A B}.
Arguments rl_dst {A B}.
Arguments rl_closed {A B}.
Arguments rl_counter {A B}.
Arguments rl_errors {A B}.

Section relay.
Context {A B : Type} `{PacketRW A} `{PacketRW B}.

Definition on_src_conn {X} : M A X → M (Relay A B) X :=
  zoom rl_src (λ a r, mkRelay a (rl_dst r) (rl_closed r) (rl_counter r) (rl_errors r)).
Definition on_dst_conn {X} : M B X → M (Relay A B) X :=
  zoom rl_dst (λ b r, mkRelay (rl_src r) b (rl_closed r) (rl_counter r) (rl_errors r)).
Definition count_error : M (Relay A B) () := modify (λ r,
  mkRelay (rl_src r) (rl_dst r) (rl_closed r) (rl_counter r) (s64 (rl_errors r + 1))).
Definition count_packet : M (Relay A B) () := modify (λ r,
  mkRelay (rl_src r) (rl_dst r) (rl_closed r) (s64 (rl_counter r + 1)) (rl_errors r)).

Definition closeBoth : M (Relay A B) () :=
  r ← get;
  if rl_closed r then mret ()
  else
    modify (λ r, mkRelay (rl_src r) (rl_dst r) true (rl_counter r) (rl_errors r));;
    attempt (on_src_conn rw_Close);;
    attempt (on_dst_conn rw_Close);;
    mret ().

(** One turn of the loop of [relay]: whether it goes on. *)
Definition relay_step : M (Relay A B) bool :=
  r ← get;
  if rl_closed r then mret false
  else
    x ← attempt (on_src_conn rw_ReadRawPacket);
    match x with
    | inr e =>
        r ← get;
        (if bool_decide (e ≠ EOF) && negb (rl_closed r) then count_error else mret ());; mret false
    | inl rp =>
        match RawPacket_bytes rp with
        | [] => crash IndexOutOfRange
        | b :: data =>
            y ← attempt (on_dst_conn (rw_WritePacket (mkPacket (ubyte b) data)));
            match y with
            | inr _ =>
                r ← get;
                (if negb (rl_closed r) then count_error else mret ());;
                on_src_conn (rw_Release rp);; mret false
            | inl _ => count_packet;; on_src_conn (rw_Release rp);; mret true
            end
        end
    end.

(** At most [n] turns, then the deferred [closeBoth] when the loop has ended. *)
Fixpoint relay (n : nat) : M (Relay A B) () :=
  match n with
  | O => mret ()
  | S n' => go ← relay_step; if (go : bool) then relay n' else closeBoth
  end.
End relay.

(** ** The byte relays *)

Inductive side := Client | Server.

(** The state of one direction: the source (the client), the destination (the server)
    and the byte counts reported to [onByte]. *)
Record Copy := mkCopy { cp_src : Reader; cp_dst : Writer; cp_counts : list Z }.

Definition copyBuf : nat := Z.to_nat 32768.

(** The loop of [RelayWithMetrics]: read up to 32768 bytes, write them, report them;
    until an error of either side. [io.Copy] is the same loop without the report. *)
Fixpoint copy_loop (fuel : nat) : M Copy () := λ c,
  match fuel with
  | O => (Block, c)
  | S fuel' =>
      match Read copyBuf (cp_src c) with
      | (Ret [], r) => copy_loop fuel' (mkCopy r (cp_dst c) (cp_counts c))
      | (Ret bs, r) =>
          match Write bs (cp_dst c) with
          | (Ret (_, Some _), w) => (Ret (), mkCopy r w (cp_counts c))
          | (Ret (_, None), w) => copy_loop fuel' (mkCopy r w (cp_counts c ++ [Z.of_nat (length bs)]))
          | (_, w) => (Block, mkCopy r w (cp_counts c))
          end
      | (Err _, r) => (Ret (), mkCopy r (cp_dst c) (cp_counts c))
      | (_, r) => (Block, mkCopy r (cp_dst c) (cp_counts c))
      end
  end.

(** Every turn but the last uses up a byte or a chunk. *)
Definition copy_fuel (r : Reader) : nat := S (length (rflat r) + length (chunks r)).

(** The goroutine from client to server: the connections it closes at its end, in order. *)
Definition RelayWithMetrics_c2s : M Copy (list side) :=
  c ← get;
  copy_loop (copy_fuel (cp_src c));;
  mret [Server; Client].

(** ** Lemmas *)

Lemma copy_loop_ok fuel : ∀ c,
  wplan (cp_dst c) = [] → (length (rflat (cp_src c)) + length (chunks (cp_src c)) < fuel)%nat →
  ∃ c', copy_loop fuel c = (Ret (), c') ∧ rflat (cp_src c') = []
    ∧ wout (cp_dst c') = wout (cp_dst c) ++ rflat (cp_src c)
    ∧ zsum id (cp_counts c') = zsum id (cp_counts c) + Z.of_nat (length (rflat (cp_src c))).
Proof.
  pose proof zsum_snoc as Hsum.
  assert (Hpos : (0 < copyBuf)%nat) by (unfold copyBuf; lia).
  induction fuel as [|fuel IH]; intros c Hp Hf; [lia|]. cbn [copy_loop].
  destruct (chunks (cp_src c)) as [|ch cs] eqn:Hc.
  { unfold Read. rewrite Hc. eexists. split; [done|]. cbn [cp_src cp_dst cp_counts].
    assert (rflat (cp_src c) = []) as -> by (unfold rflat; by rewrite Hc). rewrite app_nil_r. split_and!; [done|done|simpl; lia]. }
  destruct (Read_spec copyBuf (cp_src c) ch cs Hc) as (r'&Hr&Hfl&Hlen&Hall&_). rewrite Hr.
  assert (Hrf : rflat (cp_src c) = ch ++ concat cs) by (unfold rflat; by rewrite Hc).
  assert (Hsp : rflat (cp_src c) = take copyBuf ch ++ rflat r').
  { rewrite Hrf, Hfl, app_assoc, take_drop. done. }
  destruct (take copyBuf ch) as [|b bs] eqn:Ht.
  - assert (ch = []) as -> by (destruct ch as [|x ch]; [done|]; destruct copyBuf; [lia|done]).
    destruct (IH (mkCopy r' (cp_dst c) (cp_counts c))) as (c'&Hl&H1&H2&H3); [done| |].
    { cbn [cp_src]. rewrite Hall by (simpl; lia). rewrite Hsp in Hf. cbn [length app] in Hf. lia. }
    exists c'. cbn [cp_src cp_dst cp_counts] in *. rewrite Hsp. cbn [app]. by split_and!.
  - unfold Write. rewrite Hp. set (w := mkWriter _ _).
    destruct (IH (mkCopy r' w (cp_counts c ++ [Z.of_nat (length (b :: bs))]))) as (c'&Hl&H1&H2&H3); [done| |].
    { cbn [cp_src]. rewrite Hsp in Hf. rewrite length_app in Hf. cbn [length] in *. lia. }
    exists c'. cbn [cp_src cp_dst cp_counts] in *. split_and!; [done|done| |].
    + rewrite H2. unfold w. rewrite wout_snoc, Hsp. by rewrite <- app_assoc.
    + rewrite H3, Hsum, Hsp, length_app. lia.
Qed.

Lemma RawPacket_Release_ok rp p : ∃ rp' p', RawPacket_Release rp p = (Ret rp', p').
Proof.
  unfold RawPacket_Release. destruct (rbuf rp) as [b|]; [|by eexists _, _].
  unfold mbind, M_bind, PutBuffer. repeat case_decide; by eexists _, _.
Qed.

(** The packet the relay makes of a frame. *)
Definition relayed (fr : list byte) : Packet :=
  match fr with b :: data => mkPacket (ubyte b) data | [] => mkPacket 0 [] end.

Section relay_lemmas.
Context `{Z0 : Zlib} `{!ZlibOk Z0} `{B : BlockCipher} `{!BlockCipherOk B}.

Lemma MC_ReadRawPacket_plain c fr rest :
  mc_closed c = false → pool_wf (wpool (mc_world c)) → mc_decrypt c = None →
  parse_raw (rend (wsrc (mc_world c))) (rflat (wsrc (mc_world c))) = (Ret fr, rest) →
  ∃ rp c', MC_ReadRawPacket c = (Ret rp, c') ∧ RawPacket_bytes rp = fr ∧ mc_closed c' = false
    ∧ mc_decrypt c' = None ∧ wsrc (mc_world c') ≡ rest_of (wsrc (mc_world c)) rest.
Proof.
  intros Ho Hp Hd Hpar. destruct (ReadRawPacket_refines (mc_world c) Hp) as (o&w1&Hrd&Hout&Hs&_&Hp1&Hown).
  rewrite Hpar in Hout, Hs. destruct o as [rp| | |]; cbn [mbind outcome_bind fst snd] in Hout, Hs; [|done..].
  injection Hout as Hb. set (c1 := mkMC w1 (mc_reader c) (mc_writer c) (mc_threshold c) (mc_encrypt c) (mc_decrypt c)
    (readBuf c) (writeBuf c) (mc_closed c) (flow c) (prio c) (conn_closes c)).
  exists rp, c1. split_and!; [|done..]. unfold MC_ReadRawPacket. rewrite get_bind. unfold IsClosed. rewrite Ho.
  rewrite (bind_ret _ _ _ rp c1) by (unfold on_error, on_world, zoom; by rewrite Hrd).
  rewrite get_bind. cbn [mc_decrypt c1]. by rewrite Hd.
Qed.

(** One packet through the relay. *)
Lemma relay_step_frame (r : Relay MineConn MineConn) fr rest t :
  rl_closed r = false → mc_closed (rl_src r) = false → pool_wf (wpool (mc_world (rl_src r))) →
  mc_decrypt (rl_src r) = None → mc_ready (rl_dst r) → mc_encrypt (rl_dst r) = None →
  pw_threshold (mc_writer (rl_dst r)) = t →
  parse_raw (rend (wsrc (mc_world (rl_src r)))) (rflat (wsrc (mc_world (rl_src r)))) = (Ret fr, rest) →
  fr ≠ [] → packet_ok t (relayed fr) →
  ∃ r', relay_step r = (Ret true, r') ∧ rl_counter r' = s64 (rl_counter r + 1) ∧ rl_errors r' = rl_errors r
    ∧ wout (wdst (mc_world (rl_dst r'))) = wout (wdst (mc_world (rl_dst r))) ++ frame t (relayed fr)
    ∧ wsrc (mc_world (rl_src r')) ≡ rest_of (wsrc (mc_world (rl_src r))) rest.
Proof.
  destruct r as [a b cl cnt er]. cbn [rl_src rl_dst rl_closed rl_counter rl_errors].
  intros -> Ho Hp Hd Hr He Ht Hpar Hne Hok.
  destruct (MC_ReadRawPacket_plain a fr rest Ho Hp Hd Hpar) as (rp&a1&Hra&Hb&_&_&Hsrc).
  destruct fr as [|b0 data]; [done|]. cbn [relayed] in *.
  destruct (MC_WritePacket_ok t (mkPacket (ubyte b0) data) b None (mkPacket (ubyte b0) data)) as (b1&Hwb&_&_&_&Hout);
    [done|done|by rewrite He|done|].
  destruct (RawPacket_Release_ok rp (wpool (mc_world a1))) as (rp'&p'&Hrel).
  unfold relay_step. rewrite get_bind. cbn [rl_closed].
  rewrite (bind_ret _ _ _ (inl rp) (mkRelay a1 b false cnt er))
    by (unfold attempt, on_src_conn, zoom; cbn [rl_src rw_ReadRawPacket MineConn_RW]; by rewrite Hra).
  rewrite Hb. rewrite (bind_ret _ _ _ (inl ()) (mkRelay a1 b1 false cnt er))
    by (unfold attempt, on_dst_conn, zoom; cbn [rl_dst rw_WritePacket MineConn_RW]; by rewrite Hwb).
  rewrite (bind_ret _ _ _ () (mkRelay a1 b1 false (s64 (cnt + 1)) er)) by done.
  set (a2 := mkMC (mkWorld p' (wz (mc_world a1)) (wsrc (mc_world a1)) (wdst (mc_world a1))) (mc_reader a1) (mc_writer a1)
    (mc_threshold a1) (mc_encrypt a1) (mc_decrypt a1) (readBuf a1) (writeBuf a1) (mc_closed a1) (flow a1) (prio a1) (conn_closes a1)).
  rewrite (bind_ret _ _ _ () (mkRelay a2 b1 false (s64 (cnt + 1)) er)).
  2:{ unfold on_src_conn, zoom. cbn [rl_src rw_Release MineConn_RW]. unfold mbind, M_bind, on_world, on_pool, zoom.
      by rewrite Hrel. }
  eexists. split; [done|]. by split_and!.
Qed.
End relay_lemmas.

(** ** The properties of the component *)

(** The byte relays are transparent: one direction ends after finitely many turns,
    when the source is exhausted, having written exactly the source's bytes in order,
    and the counts reported to [onByte] add up to their number; it then closes both
    connections, which ends the other direction. *)
Theorem byte_relay_transparent c :
  wplan (cp_dst c) = [] →
  ∃ c', RelayWithMetrics_c2s c = (Ret [Server; Client], c') ∧ rflat (cp_src c') = []
    ∧ wout (cp_dst c') = wout (cp_dst c) ++ rflat (cp_src c)
    ∧ zsum id (cp_counts c') = zsum id (cp_counts c) + Z.of_nat (length (rflat (cp_src c))).
Proof.
  intros Hp. destruct (copy_loop_ok (copy_fuel (cp_src c)) c Hp) as (c'&H1&H2); [unfold copy_fuel; lia|].
  exists c'. split; [|exact H2]. unfold RelayWithMetrics_c2s. rewrite get_bind. by rewrite (bind_ret _ _ _ () c').
Qed.

Lemma byte_relay_transparent_witness :
  ∃ c', RelayWithMetrics_c2s (mkCopy (mkReader [[x41]; []; [x42; x43]] EOF true) (mkWriter [] []) [])
      = (Ret [Server; Client], c')
    ∧ wout (cp_dst c') = [x41; x42; x43].
Proof.
  destruct (byte_relay_transparent (mkCopy (mkReader [[x41]; []; [x42; x43]] EOF true) (mkWriter [] []) []) eq_refl)
    as (c'&H1&_&H2&_). exists c'. split; [exact H1|exact H2].
Defined.

(** The packet relay does not forward packets: of the frame of a packet it takes the
    first byte, part of the length prefix, for the packet ID and the rest for the data,
    and writes that as a new packet. The receiver decodes a different packet, never
    the one that was sent. *)
Theorem relay_corrupts `{Z0 : Zlib} `{!ZlibOk Z0} `{B : BlockCipher} `{!BlockCipherOk B}
    (r : Relay MineConn MineConn) p rest e :
  rl_closed r = false → mc_closed (rl_src r) = false → pool_wf (wpool (mc_world (rl_src r))) →
  mc_decrypt (rl_src r) = None → mc_ready (rl_dst r) → mc_encrypt (rl_dst r) = None →
  pw_threshold (mc_writer (rl_dst r)) = -1 →
  is_int 32 (ID p) → Z.of_nat (length (Data p)) ≤ 2 ^ 20 →
  rflat (wsrc (mc_world (rl_src r))) = frame (-1) p ++ rest →
  ∃ r' q out, relay_step r = (Ret true, r')
    ∧ wout (wdst (mc_world (rl_dst r'))) = wout (wdst (mc_world (rl_dst r))) ++ out
    ∧ parse_packet (-1) e out = (Ret q, []) ∧ q ≠ p ∧ Data q = drop 1 (frame (-1) p).
Proof.
  intros Hcl Ho Hp Hd Hr He Ht Hid Hlen Hin.
  assert (Hpay : length (payload p) = (VarIntLen (ID p) + length (Data p))%nat) by apply length_payload.
  pose proof (VarIntLen_bounds (ID p)) as Hb1. assert (Hmax : 2 ^ 20 < 2097000) by done.
  assert (Hbody : body_of (-1) p = payload p) by done.
  assert (Hokp : packet_ok (-1) p).
  { split_and!; [done|rewrite Hbody|]; rewrite Hpay; unfold MaxPacketSize, MaxCompressedSize; lia. }
  set (n := s32 (Z.of_nat (length (payload p)))).
  assert (Hfr : frame (-1) p = varint n ++ payload p) by done.
  pose proof (VarIntLen_bounds n) as Hb2.
  assert (Hfl : length (frame (-1) p) = (VarIntLen n + length (payload p))%nat) by (by rewrite Hfr, length_app, length_varint).
  destruct (frame (-1) p) as [|b0 data] eqn:Ef; [simpl in Hfl; lia|].
  assert (Hpar : parse_raw (rend (wsrc (mc_world (rl_src r)))) (rflat (wsrc (mc_world (rl_src r)))) = (Ret (b0 :: data), rest)).
  { destruct (parse_raw_packet (-1) (rend (wsrc (mc_world (rl_src r)))) (rflat (wsrc (mc_world (rl_src r))))) as [E1 E2].
    pose proof (parse_frame (-1) (rend (wsrc (mc_world (rl_src r)))) p rest Hokp) as Hpf. rewrite Ef in Hpf.
    rewrite Hin in *. rewrite Hpf in E1, E2. cbn [fst snd] in E1, E2.
    destruct (parse_raw _ _) as [[bs| | |] rest'] eqn:Epr; cbn [fst snd] in E1, E2; [|done..].
    subst rest'. destruct E2 as [E2 _]. apply app_inv_tail in E2. by rewrite E2. }
  assert (Hokq : packet_ok (-1) (relayed (b0 :: data))).
  { pose proof (ubyte_range b0). pose proof (VarIntLen_bounds (ubyte b0)). simpl in Hfl.
    split_and!; [cbn; unfold is_int; simpl; lia|change (body_of (-1) (relayed (b0 :: data))) with (payload (relayed (b0 :: data)))|];
      rewrite length_payload; cbn [relayed ID Data]; unfold MaxPacketSize, MaxCompressedSize; lia. }
  destruct (relay_step_frame r (b0 :: data) rest (-1) Hcl Ho Hp Hd Hr He Ht Hpar) as (r'&Hs&_&_&Hout&_); [done|done|].
  exists r', (relayed (b0 :: data)), (frame (-1) (relayed (b0 :: data))). split_and!; [done|done| | |done].
  - pose proof (parse_frame (-1) e (relayed (b0 :: data)) [] Hokq) as Hq. by rewrite app_nil_r in Hq.
  - intros E. apply (f_equal (λ x, length (Data x))) in E. cbn [relayed Data] in E. simpl in Hfl. lia.
Qed.

Lemma relay_corrupts_witness :
  let Z0 := stored_zlib in let B := toy_cipher in
  match NewMineConn (demo_world [[x03; x07; x41; x42]]), NewMineConn (demo_world []) with
  | (Ret a, _), (Ret b, _) => ∃ r' q, relay_step (mkRelay a b false 0 0) = (Ret true, r')
      ∧ q ≠ mkPacket 7 [x41; x42] ∧ Data q = [x07; x41; x42]
  | _, _ => False
  end.
Proof.
  intros Z0 B.
  destruct (NewMineConn_ok (demo_world [[x03; x07; x41; x42]]) (demo_world_wf _))
    as (a&wa&->&Hwa&Hpa&[Hsa _]&Hoa&_&Hda&_).
  destruct (NewMineConn_ok (demo_world []) (demo_world_wf _)) as (b&wb&->&Hwb&Hpb&[_ Hsb]&Hob&Heb&_&_&_&Htb&Hfb&_).
  destruct (relay_corrupts (ZlibOk0 := stored_zlib_ok) (BlockCipherOk0 := toy_cipher_ok) (mkRelay a b false 0 0)
    (mkPacket 7 [x41; x42]) [] EOF) as (r'&q&out&H1&_&_&H2&H3); cbn [rl_src rl_dst rl_closed].
  - reflexivity.
  - exact Hoa.
  - by rewrite Hwa.
  - exact Hda.
  - split; rewrite ?Hwb; [exact Hob|exact Hpb|by rewrite Hsb|by rewrite Hfb].
  - exact Heb.
  - exact Htb.
  - done.
  - simpl. lia.
  - by rewrite Hwa, Hsa.
  - exists r', q. split; [exact H1|]. split; [exact H2|exact H3].
Defined.
