(* ===== verification/RelaySys.v ===== *)
(** * The two directions of a relay ([tunnel/relay.go])

    A relay runs two goroutines, one per direction, over the same two connections: each one
    reads from one connection and writes to the other, and closes both when it ends.  They
    are transition systems here whose steps are the actions of the goroutines, one call on
    a connection each, in any interleaving, and those of the two peers. *)

From S2P Require Export Relay.
#[local] Open Scope Z_scope.
#[local] Opaque copyBuf.

(** ** Pairs indexed by the two sides *)

#[export] Instance side_eq_dec : EqDecision side.
Proof. solve_decision. Defined.

Definition other (d : side) : side := match d with Client => Server | Server => Client end.

Record two (A : Type) := mkTwo { of_client : A; of_server : A }.
Arguments mkTwo {A}. Arguments of_client {A}. Arguments of_server {A}.

Section two.
Context {A : Type}.

Definition at_side (d : side) (t : two A) : A := match d with Client => of_client t | Server => of_server t end.
Definition set_side (d : side) (a : A) (t : two A) : two A :=
  match d with Client => mkTwo a (of_server t) | Server => mkTwo (of_client t) a end.

Lemma at_set d a t : at_side d (set_side d a t) = a.
Proof. by destruct d. Qed.
Lemma at_set_other d a t : at_side (other d) (set_side d a t) = at_side (other d) t.
Proof. by destruct d. Qed.
Lemma at_other_set d a t : at_side d (set_side (other d) a t) = at_side d t.
Proof. by destruct d. Qed.
Lemma set_at d t : set_side d (at_side d t) t = t.
Proof. by destruct d, t. Qed.
Lemma set_set d a b t : set_side d a (set_side d b t) = set_side d a t.
Proof. by destruct d. Qed.
End two.

Lemma other_other d : other (other d) = d.
Proof. by destruct d. Qed.

Lemma side_cases (d e : side) : e = d ∨ e = other d.
Proof. destruct d, e; auto. Qed.

Create Rewrite HintDb sides.
#[export] Hint Rewrite @at_set @at_set_other @at_other_set @set_set other_other : sides.

(** ** The byte relays: [DirectRelay] and [RelayWithMetrics] *)

(** A connection as the relay sees it: what has arrived and not been read, whether the peer
    has finished sending, whether it has been closed, and what was written to it. *)
Record End := mkEnd { inbox : list (list byte); ended : bool; is_closed : bool; outbox : list byte }.

(** The goroutine that reads from a side: in [Read], about to write what it read, with the
    error [Read] returned along with it if there was one, about to close its destination,
    its source, and finished.  [eof] and [Some true] stand for the end of the source, the
    other value for another error. *)
Inductive copy_pc := PRead | PWrite (bs : list byte) (err : option bool) | PCloseDst (eof : bool) | PCloseSrc (eof : bool) | PDone (eof : bool).

(** [sent_by] is everything the peer of a side has sent, [counts] what was reported to
    [onByte] for the direction from a side. *)
Record RelaySys := mkRelaySys {
  conns : two End;
  pcs : two copy_pc;
  counts : two (list Z);
  sent_by : two (list byte);
}.

Definition goto (d : side) (p : copy_pc) (x : RelaySys) : RelaySys :=
  mkRelaySys (conns x) (set_side d p (pcs x)) (counts x) (sent_by x).
Definition set_conn (d : side) (e : End) (x : RelaySys) : RelaySys :=
  mkRelaySys (set_side d e (conns x)) (pcs x) (counts x) (sent_by x).
Definition count (d : side) (n : Z) (x : RelaySys) : RelaySys :=
  mkRelaySys (conns x) (pcs x) (set_side d (at_side d (counts x) ++ [n]) (counts x)) (sent_by x).

Definition close_end (e : End) : End := mkEnd (inbox e) (ended e) true (outbox e).
Definition write_end (bs : list byte) (e : End) : End := mkEnd (inbox e) (ended e) (is_closed e) (outbox e ++ bs).
Definition read_end (cs : list (list byte)) (e : End) : End := mkEnd cs (ended e) (is_closed e) (outbox e).

(** How a call goes: without trouble; a [Read] that reports the end of the source together
    with its last bytes; or one that fails after [n] bytes, of [Read] or of [Write]. *)
Inductive call := Smooth | WithEOF | Fails (n : nat).

(** The bytes a [Read] into the 32768 bytes of the buffer takes from the first chunk, at
    most. *)
Definition read_size (f : call) : nat := match f with Fails n => Nat.min n copyBuf | _ => copyBuf end.

(** What a [Read] of [k] bytes leaves of the first chunk and the others. *)
Definition rest_chunks (k : nat) (ch : list byte) (cs : list (list byte)) : list (list byte) :=
  match drop k ch with [] => cs | r => r :: cs end.

(** The error of a [Read] that leaves the connection as [e]. *)
Definition read_error (f : call) (e : End) : option bool :=
  match f with
  | Smooth => None
  | WithEOF => if ended e && bool_decide (inbox e = []) then Some true else None
  | Fails _ => Some false
  end.

(** [if err != nil { break }] *)
Definition after_error (err : option bool) : copy_pc := match err with None => PRead | Some eof => PCloseDst eof end.

(** The next action of the goroutine that reads from [d]; [f] says how its call goes.
    A call on a closed connection fails.  [None]: it is blocked in [Read], or has finished. *)
Definition copy_turn (d : side) (f : call) (x : RelaySys) : option RelaySys :=
  let src := at_side d (conns x) in
  let dst := at_side (other d) (conns x) in
  match at_side d (pcs x) with
  | PRead =>
      if is_closed src then Some (goto d (PCloseDst false) x)
      else
        match inbox src with
        | ch :: cs =>
            let src' := read_end (rest_chunks (read_size f) ch cs) src in
            let x' := set_conn d src' x in
            let err := read_error f src' in
            match take (read_size f) ch with
            | [] => Some (goto d (after_error err) x')
            | bs => Some (goto d (PWrite bs err) x')
            end
        | [] =>
            match f with
            | Fails _ => Some (goto d (PCloseDst false) x)
            | _ => if ended src then Some (goto d (PCloseDst true) x) else None
            end
        end
  | PWrite bs err =>
      if is_closed dst then Some (goto d (PCloseDst false) x)
      else
        match f with
        | Fails n => Some (goto d (PCloseDst false) (set_conn (other d) (write_end (take n bs) dst) x))
        | _ => Some (goto d (after_error err) (count d (Z.of_nat (length bs)) (set_conn (other d) (write_end bs dst) x)))
        end
  | PCloseDst eof => Some (goto d (PCloseSrc eof) (set_conn (other d) (close_end dst) x))
  | PCloseSrc eof => Some (goto d (PDone eof) (set_conn d (close_end src) x))
  | PDone _ => None
  end.

Inductive relay_sys_step : RelaySys → RelaySys → Prop :=
| rs_turn d f x y : copy_turn d f x = Some y → relay_sys_step x y
| rs_send d bs x :
    ended (at_side d (conns x)) = false →
    relay_sys_step x (mkRelaySys
      (set_side d (mkEnd (inbox (at_side d (conns x)) ++ [bs]) false (is_closed (at_side d (conns x))) (outbox (at_side d (conns x)))) (conns x))
      (pcs x) (counts x) (set_side d (at_side d (sent_by x) ++ bs) (sent_by x)))
| rs_finish d x :
    relay_sys_step x (set_conn d (mkEnd (inbox (at_side d (conns x))) true (is_closed (at_side d (conns x))) (outbox (at_side d (conns x)))) x).

(** [wg.Add(2)] and the two [go] statements, on connections with some bytes waiting. *)
Definition relay_start (c s : list (list byte)) : RelaySys :=
  mkRelaySys (mkTwo (mkEnd c false false []) (mkEnd s false false [])) (mkTwo PRead PRead) (mkTwo [] [])
    (mkTwo (concat c) (concat s)).

(** [wg.Wait()] returns. *)
Definition finished (x : RelaySys) : Prop := ∀ d, ∃ eof, at_side d (pcs x) = PDone eof.

(** ** Lemmas *)

(** What the goroutine holds between [Read] and [Write]. *)
Definition in_flight (p : copy_pc) : list byte := match p with PWrite bs _ => bs | _ => [] end.

(** The loop has ended with an error other than the end of the source. *)
Definition broken (p : copy_pc) : Prop := p = PCloseDst false ∨ p = PCloseSrc false ∨ p = PDone false.

(** The stream from [d]: while its goroutine copies, and when it has ended with the source,
    no byte is missing and every byte written is counted; always, what was written is a
    prefix. *)
Definition stream_inv (x : RelaySys) (d : side) : Prop :=
  let src := at_side d (conns x) in
  let dst := at_side (other d) (conns x) in
  outbox dst `prefix_of` at_side d (sent_by x)
  ∧ zsum id (at_side d (counts x)) ≤ Z.of_nat (length (outbox dst))
  ∧ (¬ broken (at_side d (pcs x)) → zsum id (at_side d (counts x)) = Z.of_nat (length (outbox dst)))
  ∧ match at_side d (pcs x) with
    | PRead => at_side d (sent_by x) = outbox dst ++ concat (inbox src)
    | PWrite bs err =>
        at_side d (sent_by x) = outbox dst ++ bs ++ concat (inbox src)
        ∧ (err = Some true → ended src = true ∧ inbox src = [])
    | PCloseDst true | PCloseSrc true | PDone true => ended src = true ∧ at_side d (sent_by x) = outbox dst
    | _ => True
    end.

(** What a goroutine has closed. *)
Definition close_inv (x : RelaySys) (d : side) : Prop :=
  match at_side d (pcs x) with
  | PCloseSrc _ => is_closed (at_side (other d) (conns x)) = true
  | PDone _ => is_closed (at_side (other d) (conns x)) = true ∧ is_closed (at_side d (conns x)) = true
  | _ => True
  end.

Definition relay_inv (x : RelaySys) : Prop := ∀ d, stream_inv x d ∧ close_inv x d.

Lemma take_chunk k ch cs : ch ++ concat cs = take k ch ++ concat (rest_chunks k ch cs).
Proof.
  unfold rest_chunks. rewrite <- (take_drop k ch) at 1. rewrite <- app_assoc. f_equal. by destruct (drop k ch).
Qed.

Lemma read_error_eof f e : read_error f e = Some true → ended e = true ∧ inbox e = [].
Proof.
  destruct f; cbn; try done. destruct (ended e); [|done]. case_bool_decide; done.
Qed.

(** A turn of the goroutine [d] leaves the other one's program counter and the bytes in its
    stream alone; it can only close connections. *)
Definition other_kept (x y : RelaySys) (d : side) : Prop :=
  at_side (other d) (pcs y) = at_side (other d) (pcs x)
  ∧ at_side (other d) (counts y) = at_side (other d) (counts x)
  ∧ sent_by y = sent_by x
  ∧ (∀ e, ended (at_side e (conns y)) = ended (at_side e (conns x)))
  ∧ (∀ e, is_closed (at_side e (conns x)) = true → is_closed (at_side e (conns y)) = true)
  ∧ inbox (at_side (other d) (conns y)) = inbox (at_side (other d) (conns x))
  ∧ outbox (at_side d (conns y)) = outbox (at_side d (conns x)).

Ltac sides := autorewrite with sides in *.

Lemma copy_turn_other d f x y : copy_turn d f x = Some y → other_kept x y d.
Proof.
  unfold copy_turn, other_kept, goto, set_conn, count. intros H.
  generalize dependent (read_size f). intros k H.
  repeat case_match; simplify_eq; cbn [conns pcs counts sent_by]; sides.
  all: split_and!; try done; intros e; destruct (side_cases d e) as [-> | ->]; sides; cbn; done.
Qed.

Lemma other_inv x y d : other_kept x y d → stream_inv x (other d) ∧ close_inv x (other d) → stream_inv y (other d) ∧ close_inv y (other d).
Proof.
  intros (Hp&Hc&Hs&He&Hcl&Hi&Ho) [H1 H2]. unfold stream_inv, close_inv in *. sides. rewrite Hp, Hc, Hs, Hi, Ho.
  rewrite !He. split; [done|]. destruct (at_side (other d) (pcs x)); try done; [by apply Hcl|]. destruct H2; split; by apply Hcl.
Qed.

(** After a call that returned [err]. *)
Lemma after_error_inv x d err :
  let p := after_error err in
  let src := at_side d (conns x) in
  let dst := at_side (other d) (conns x) in
  at_side d (sent_by x) = outbox dst ++ concat (inbox src) →
  zsum id (at_side d (counts x)) = Z.of_nat (length (outbox dst)) →
  (err = Some true → ended src = true ∧ inbox src = []) →
  stream_inv (goto d p x) d ∧ close_inv (goto d p x) d.
Proof.
  intros p src dst Hs Hc He. unfold stream_inv, close_inv, goto. cbn [conns pcs counts sent_by]. sides.
  fold src dst. rewrite Hs, Hc. unfold p. destruct err as [[]|]; cbn [after_error]; (split; [|done]); split_and!; try done;
    try (by eexists); try lia.
  - by apply He.
  - destruct (He eq_refl) as [_ ->]. cbn. by rewrite app_nil_r.
Qed.

(** [Read] has returned the bytes [bs] and [err]. *)
Lemma read_inv x d f ch cs :
  inbox (at_side d (conns x)) = ch :: cs → at_side d (pcs x) = PRead →
  stream_inv x d →
  let src' := read_end (rest_chunks (read_size f) ch cs) (at_side d (conns x)) in
  let y := match take (read_size f) ch with
           | [] => goto d (after_error (read_error f src')) (set_conn d src' x)
           | bs => goto d (PWrite bs (read_error f src')) (set_conn d src' x)
           end in
  stream_inv y d ∧ close_inv y d.
Proof.
  intros Ein Epc Hst src'. unfold stream_inv in Hst. rewrite Epc, Ein in Hst.
  destruct Hst as (Hpre&Hle&Hcnt&Hst). cbn [concat] in Hst. rewrite (take_chunk (read_size f)) in Hst.
  assert (Hb : ¬ broken PRead) by (by intros [|[]]). specialize (Hcnt Hb).
  pose proof (read_error_eof f src') as He. destruct (take (read_size f) ch) as [|b bs].
  - apply after_error_inv; unfold set_conn; cbn [conns pcs counts sent_by]; sides; done.
  - unfold stream_inv, close_inv, goto, set_conn. cbn [conns pcs counts sent_by]. sides. by split_and!.
Qed.

(** [Write] of all the bytes, or of some of them with an error. *)
Lemma write_inv x d f bs err :
  at_side d (pcs x) = PWrite bs err → stream_inv x d →
  let dst := at_side (other d) (conns x) in
  let y := match f with
           | Fails n => goto d (PCloseDst false) (set_conn (other d) (write_end (take n bs) dst) x)
           | _ => goto d (after_error err) (count d (Z.of_nat (length bs)) (set_conn (other d) (write_end bs dst) x))
           end in
  stream_inv y d ∧ close_inv y d.
Proof.
  intros Epc Hst dst. unfold stream_inv in Hst. rewrite Epc in Hst. fold dst in Hst.
  destruct Hst as (Hpre&Hle&Hcnt&Hst&Herr).
  assert (Hb : ¬ broken (PWrite bs err)) by (by intros [|[]]). specialize (Hcnt Hb).
  assert (Hok : let y := goto d (after_error err) (count d (Z.of_nat (length bs)) (set_conn (other d) (write_end bs dst) x)) in
    stream_inv y d ∧ close_inv y d).
  { apply after_error_inv; unfold count, set_conn; cbn [conns pcs counts sent_by]; sides; cbn [write_end outbox].
    - by rewrite <- app_assoc.
    - rewrite zsum_snoc, Hcnt, length_app. lia.
    - done. }
  destruct f as [| |n]; [exact Hok..|].
  unfold stream_inv, close_inv, goto, set_conn. cbn [conns pcs counts sent_by]. sides. cbn [write_end outbox].
  split; [|done]. split_and!; [| | |done].
  - rewrite Hst. rewrite <- (take_drop n bs) at 2. rewrite <- !app_assoc. rewrite app_assoc. by eexists.
  - rewrite length_app. lia.
  - intros Hn. destruct Hn. by left.
Qed.

Lemma copy_turn_inv d f x y : stream_inv x d ∧ close_inv x d → copy_turn d f x = Some y → stream_inv y d ∧ close_inv y d.
Proof.
  intros [Hst Hcl] H. unfold copy_turn in H.
  assert (Hbreak : stream_inv (goto d (PCloseDst false) x) d ∧ close_inv (goto d (PCloseDst false) x) d).
  { unfold stream_inv, close_inv, goto in *. cbn [conns pcs counts sent_by]. sides. destruct Hst as (?&?&?&_).
    split; [|done]. split_and!; try done. intros Hn. destruct Hn. by left. }
  destruct (at_side d (pcs x)) as [|bs err|eof|eof|eof] eqn:Epc; [| | | |done].
  - destruct (is_closed _); [by injection H as <-|].
    destruct (inbox (at_side d (conns x))) as [|ch cs] eqn:Ein.
    + assert (Hend : ended (at_side d (conns x)) = true →
        stream_inv (goto d (PCloseDst true) x) d ∧ close_inv (goto d (PCloseDst true) x) d).
      { intros He. unfold stream_inv in Hst. rewrite Epc, Ein in Hst. destruct Hst as (_&_&Hc&Hs).
        apply (after_error_inv x d (Some true)); [by rewrite Ein|apply Hc; by intros [|[]]|done]. }
      destruct f; [destruct (ended _); [|done]; injection H as <-; by apply Hend..|by injection H as <-].
    + pose proof (read_inv x d f ch cs Ein Epc Hst) as Hr. cbv zeta in Hr.
      generalize dependent (take (read_size f) ch). intros t H Hr. destruct t; by injection H as <-.
  - destruct (is_closed _); [by injection H as <-|].
    pose proof (write_inv x d f bs err Epc Hst) as Hw. cbv zeta in Hw. destruct f; by injection H as <-.
  - injection H as <-. unfold stream_inv, close_inv, goto, set_conn, broken in *. rewrite Epc in Hst.
    cbn [conns pcs counts sent_by]. sides. destruct Hst as (?&?&Hc&?). cbn [close_end outbox].
    split; [|done]. split_and!; try done. intros Hn. apply Hc. intros [[= ->]|[|]]; [|done..]. apply Hn. auto.
  - injection H as <-. unfold stream_inv, close_inv, goto, set_conn, broken in *. rewrite Epc in Hst, Hcl.
    cbn [conns pcs counts sent_by]. sides. destruct Hst as (?&?&Hc&?). cbn [close_end outbox].
    split; [|done]. split_and!; try done. intros Hn. apply Hc. intros [|[[= ->]|]]; [done| |done]. apply Hn. auto.
Qed.

Lemma relay_step_inv x y : relay_inv x → relay_sys_step x y → relay_inv y.
Proof.
  intros Hx Hs. destruct Hs as [d f x y Ht|d bs x He|d x]; intros e.
  - destruct (side_cases d e) as [-> | ->]; [by eapply copy_turn_inv|]. eapply other_inv; [by eapply copy_turn_other|done].
  - specialize (Hx e) as [(H1&H2&H3&H4) H5]. unfold stream_inv, close_inv in *. cbn [conns pcs counts sent_by].
    destruct (side_cases d e) as [-> | ->]; sides; cbn [inbox ended is_closed outbox]; [|by split_and!].
    split; [|done]. split_and!; [by apply prefix_app_r|done|done|].
    destruct (at_side d (pcs x)) as [|? ?|[]|[]|[]]; try done; try (destruct H4; congruence).
    + rewrite concat_snoc, H4. by rewrite <- !app_assoc.
    + destruct H4 as [H4 H6]. split; [rewrite concat_snoc, H4; by rewrite <- !app_assoc|].
      intros E. destruct (H6 E). congruence.
  - specialize (Hx e) as [(H1&H2&H3&H4) H5]. unfold stream_inv, close_inv, set_conn in *. cbn [conns pcs counts sent_by].
    destruct (side_cases d e) as [-> | ->]; sides; cbn [inbox ended is_closed outbox]; [|by split_and!].
    split; [|done]. split_and!; [done|done|done|].
    destruct (at_side d (pcs x)) as [|? ?|[]|[]|[]]; try done; destruct H4 as [H4 H6]; [|by split..].
    split; [done|]. intros E. by destruct (H6 E).
Qed.

Lemma relay_reachable_inv c s x : rtc relay_sys_step (relay_start c s) x → relay_inv x.
Proof.
  intros Hr. assert (H0 : relay_inv (relay_start c s)).
  { intros []; unfold stream_inv, close_inv; cbn; (split; [split_and!; [apply prefix_nil|lia|done|done]|done]). }
  induction Hr as [|x y z Hxy _ IH]; [done|]. by apply IH, (relay_step_inv x).
Qed.

(** Turns of a goroutine until it ends, at most. *)
Definition rank (p : copy_pc) : nat :=
  match p with PRead | PWrite _ _ => 3 | PCloseDst _ => 2 | PCloseSrc _ => 1 | PDone _ => 0 end.

Lemma closed_turn d f x :
  is_closed (at_side d (conns x)) = true → is_closed (at_side (other d) (conns x)) = true →
  match copy_turn d f x with
  | Some y => (rank (at_side d (pcs y)) < rank (at_side d (pcs x)))%nat
  | None => ∃ eof, at_side d (pcs x) = PDone eof
  end.
Proof.
  intros H1 H2. unfold copy_turn, goto, set_conn. rewrite H1, H2. destruct (at_side d (pcs x)) as [|? ?|?|?|eof] eqn:E;
    [..|by exists eof]; cbn [pcs conns]; sides; cbn [rank]; lia.
Qed.

(** Actions of the peers and of the other goroutine leave a program counter alone. *)
Definition moves (d : side) (x y : RelaySys) : Prop := ∃ f, copy_turn d f x = Some y.

Lemma step_moves d x y : relay_sys_step x y → moves d x y ∨ at_side d (pcs y) = at_side d (pcs x).
Proof.
  intros [e f x' y' H|e bs x' He|e x']; [|by right..]. destruct (side_cases e d) as [-> | ->]; [left; by exists f|].
  right. by destruct (copy_turn_other _ _ _ _ H) as [? _].
Qed.

(** ** The properties of the byte relays *)

(** C34. Both directions of a byte relay, under every interleaving of the two goroutines, the
    arrival of data, closing and failing calls (a [Read] may return bytes together with an
    error or the end of its source, a failing [Write] may have written some of its bytes):
    what has been written to each side is at every moment a prefix of what the peer of the
    other side sent; the counts reported to [onByte] never exceed its length, and fall
    short of it only after a call of that direction has failed; a direction that ended with
    its source has delivered all of it; and when [wg.Wait] returns, both connections are
    closed. *)
Theorem relay_streams c s x :
  rtc relay_sys_step (relay_start c s) x →
  (∀ d, let out := outbox (at_side (other d) (conns x)) in
     out `prefix_of` at_side d (sent_by x)
     ∧ zsum id (at_side d (counts x)) ≤ Z.of_nat (length out)
     ∧ (¬ broken (at_side d (pcs x)) → zsum id (at_side d (counts x)) = Z.of_nat (length out))
     ∧ (at_side d (pcs x) = PDone true → out = at_side d (sent_by x)))
  ∧ (finished x → ∀ d, is_closed (at_side d (conns x)) = true).
Proof.
  intros Hr%relay_reachable_inv. split.
  - intros d. destruct (Hr d) as [(H1&H2&H3&H4) _]. split_and!; [done|done|done|]. intros E. rewrite E in H4. by destruct H4.
  - intros Hf d. destruct (Hf d) as [eof E], (Hr d) as [_ Hc]. unfold close_inv in Hc. rewrite E in Hc. by destruct Hc.
Qed.

(** The client sends two bytes and finishes; both goroutines run to their end. *)
Definition play (moves : list (side * call)) (x : RelaySys) : option RelaySys :=
  foldl (λ ox '(d, f), ox ≫= copy_turn d f) (Some x) moves.

Lemma play_steps ms : ∀ x y, play ms x = Some y → rtc relay_sys_step x y.
Proof.
  induction ms as [|[d f] ms IH] using rev_ind; intros x y; unfold play; [by intros [= ->]; apply rtc_refl|].
  rewrite foldl_app. cbn. fold (play ms x). destruct (play ms x) as [z|] eqn:E; [|done]. cbn. intros H.
  eapply rtc_r; [by apply IH|by eapply rs_turn].
Qed.

Definition demo_moves : list (side * call) :=
  [(Client, Smooth); (Client, Smooth); (Client, Smooth); (Client, Smooth); (Client, Smooth); (Server, Smooth); (Server, Smooth); (Server, Smooth)].

Lemma relay_streams_witness :
  ∃ x, rtc relay_sys_step (relay_start [[x41; x42]] []) x ∧ outbox (of_server (conns x)) = [x41; x42]
    ∧ is_closed (of_client (conns x)) = true.
Proof.
  set (x0 := relay_start [[x41; x42]] []).
  set (x1 := set_conn Client (mkEnd [[x41; x42]] true false []) x0).
  destruct (play demo_moves x1) as [y|] eqn:Hp; [|vm_compute in Hp; discriminate Hp].
  assert (Hr : rtc relay_sys_step x0 y)
    by (eapply rtc_l; [exact (rs_finish Client x0)|exact (play_steps demo_moves x1 y Hp)]).
  vm_compute in Hp. injection Hp as Hy. exists y. split; [exact Hr|].
  destruct (relay_streams [[x41; x42]] [] y Hr) as [H1 H2]. split.
  - destruct (H1 Client) as (_&_&_&H). change (of_server (conns y)) with (at_side (other Client) (conns y)).
    rewrite H by (rewrite <- Hy; reflexivity). rewrite <- Hy. reflexivity.
  - apply (H2 ltac:(intros []; eexists; rewrite <- Hy; reflexivity) Client).
Defined.

(** C35. A direction that ends takes the other one with it: once one goroutine has finished,
    the other is never blocked again, whatever the peers do; each of its turns brings it
    closer to its end, which is at most three turns away, and no other step moves it
    back. *)
Theorem relay_ends_both c s x d :
  rtc relay_sys_step (relay_start c s) x → (∃ eof, at_side d (pcs x) = PDone eof) →
  (rank (at_side (other d) (pcs x)) ≤ 3)%nat
  ∧ (∀ f, match copy_turn (other d) f x with
          | Some y => (rank (at_side (other d) (pcs y)) < rank (at_side (other d) (pcs x)))%nat
          | None => finished x
          end)
  ∧ (∀ y, relay_sys_step x y → (rank (at_side (other d) (pcs y)) ≤ rank (at_side (other d) (pcs x)))%nat).
Proof.
  intros Hr [eof E]. destruct (relay_reachable_inv _ _ _ Hr d) as [_ Hc]. unfold close_inv in Hc. rewrite E in Hc. destruct Hc as [C1 C2].
  assert (Ht : ∀ f, match copy_turn (other d) f x with
    | Some y => (rank (at_side (other d) (pcs y)) < rank (at_side (other d) (pcs x)))%nat
    | None => ∃ eof, at_side (other d) (pcs x) = PDone eof end) by (intros f; apply closed_turn; by rewrite ?other_other).
  split_and!.
  - by destruct (at_side (other d) (pcs x)); cbn; lia.
  - intros f. specialize (Ht f). destruct (copy_turn (other d) f x); [done|]. intros e.
    destruct (side_cases d e) as [-> | ->]; [by exists eof|done].
  - intros y [[f Hf]|Hk]%(step_moves (other d)); [|by rewrite Hk]. specialize (Ht f). rewrite Hf in Ht. lia.
Qed.

Lemma relay_ends_both_witness :
  ∃ x, rtc relay_sys_step (relay_start [[x41; x42]] []) x ∧ (∃ eof, of_client (pcs x) = PDone eof)
    ∧ match copy_turn Server Smooth x with Some y => (rank (of_server (pcs y)) < rank (of_server (pcs x)))%nat | None => False end.
Proof.
  set (x0 := relay_start [[x41; x42]] []).
  set (x1 := set_conn Client (mkEnd [[x41; x42]] true false []) x0).
  destruct (play (take 5 demo_moves) x1) as [y|] eqn:Hp; [|vm_compute in Hp; discriminate Hp].
  assert (Hr : rtc relay_sys_step x0 y)
    by (eapply rtc_l; [exact (rs_finish Client x0)|exact (play_steps (take 5 demo_moves) x1 y Hp)]).
  vm_compute in Hp. injection Hp as Hy. exists y.
  assert (Hd : ∃ eof, of_client (pcs y) = PDone eof) by (exists true; rewrite <- Hy; reflexivity).
  split; [exact Hr|]. split; [exact Hd|].
  destruct (relay_ends_both [[x41; x42]] [] y Client Hr Hd) as (_&H&_). specialize (H Smooth). cbn [other at_side] in H.
  destruct (copy_turn Server Smooth y) as [z|] eqn:Ez; [exact H|]. rewrite <- Hy in Ez. vm_compute in Ez. discriminate Ez.
Defined.

(** A client that has finished sending and still receives, a half-closed connection, is cut
    off: there are runs in which the client ends without an error, both goroutines finish,
    and bytes the server had sent before are never delivered. *)
Theorem half_close_cuts_off :
  ∃ x, rtc relay_sys_step (relay_start [] [[x58]]) x ∧ finished x
    ∧ at_side Client (pcs x) = PDone true ∧ of_server (sent_by x) = [x58] ∧ outbox (of_client (conns x)) = [].
Proof.
  set (x0 := relay_start [] [[x58]]). set (x1 := set_conn Client (mkEnd [] true false []) x0).
  destruct (play [(Client, Smooth); (Client, Smooth); (Client, Smooth); (Server, Smooth); (Server, Smooth); (Server, Smooth)] x1) as [y|] eqn:Hp;
    [|by vm_compute in Hp].
  exists y. split; [eapply rtc_l; [exact (rs_finish Client x0)|exact (play_steps _ x1 y Hp)]|].
  vm_compute in Hp. injection Hp as <-. split; [intros []; by eexists|done].
Qed.

(** ** The packet relay: [NewRelay], [Start], [Wait], [relay] and [closeBoth] *)

(** Where the goroutine of a direction is: at the test of [closed], in [ReadRawPacket], about
    to write a packet, in the deferred [closeBoth] before the compare-and-swap, about to
    close the client and the server, finished, or stopped by a panic, which nothing recovers
    and which ends the process; its deferred calls are left out.  The test of [closed] after
    a failed call is taken together with the call. *)
Inductive rpc := RCheck | RRead | RWrite (rp : RawPacket) | RExit | RCloseClient | RCloseServer | RDone | RPanic.

(** [rs_closes] counts the calls of [Close] on each connection. *)
Record PacketSys (C : Type) := mkPacketSys {
  rs_conns : two C;
  rs_closed : bool;
  rs_counters : two Z;
  rs_errors : Z;
  rs_pcs : two rpc;
  rs_closes : two nat;
}.
Arguments mkPacketSys {C}. Arguments rs_conns {C}. Arguments rs_closed {C}. Arguments rs_counters {C}.
Arguments rs_errors {C}. Arguments rs_pcs {C}. Arguments rs_closes {C}.

Section packet_relay.
Context {C : Type} `{PacketRW C}.

(** [NewRelay] and [Start]. *)
Definition Relay_Start (client server : C) : PacketSys C :=
  mkPacketSys (mkTwo client server) false (mkTwo 0 0) 0 (mkTwo RCheck RCheck) (mkTwo 0%nat 0%nat).

Definition at_rpc (d : side) (p : rpc) (x : PacketSys C) : PacketSys C :=
  mkPacketSys (rs_conns x) (rs_closed x) (rs_counters x) (rs_errors x) (set_side d p (rs_pcs x)) (rs_closes x).
Definition with_conn (d : side) (c : C) (x : PacketSys C) : PacketSys C :=
  mkPacketSys (set_side d c (rs_conns x)) (rs_closed x) (rs_counters x) (rs_errors x) (rs_pcs x) (rs_closes x).
Definition add_error (x : PacketSys C) : PacketSys C :=
  mkPacketSys (rs_conns x) (rs_closed x) (rs_counters x) (s64 (rs_errors x + 1)) (rs_pcs x) (rs_closes x).
Definition add_packet (d : side) (x : PacketSys C) : PacketSys C :=
  mkPacketSys (rs_conns x) (rs_closed x) (set_side d (s64 (at_side d (rs_counters x) + 1)) (rs_counters x)) (rs_errors x) (rs_pcs x) (rs_closes x).
Definition set_closed (x : PacketSys C) : PacketSys C :=
  mkPacketSys (rs_conns x) true (rs_counters x) (rs_errors x) (rs_pcs x) (rs_closes x).
Definition close_side (e : side) (x : PacketSys C) : PacketSys C :=
  mkPacketSys (set_side e (rw_Close (at_side e (rs_conns x))).2 (rs_conns x)) (rs_closed x) (rs_counters x) (rs_errors x) (rs_pcs x)
    (set_side e (S (at_side e (rs_closes x))) (rs_closes x)).

(** [rp.Release()], then on to [p]. *)
Definition release_to (d : side) (rp : RawPacket) (p : rpc) (x : PacketSys C) : PacketSys C :=
  at_rpc d p (with_conn d (rw_Release rp (at_side d (rs_conns x))).2 x).

(** The next action of the goroutine of direction [d]; [None] when a call blocks or the
    goroutine is over. *)
Definition packet_turn (d : side) (x : PacketSys C) : option (PacketSys C) :=
  match at_side d (rs_pcs x) with
  | RCheck => Some (at_rpc d (if rs_closed x then RExit else RRead) x)
  | RRead =>
      let '(o, c') := rw_ReadRawPacket (at_side d (rs_conns x)) in
      let x := with_conn d c' x in
      match o with
      | Ret rp => Some (at_rpc d (match RawPacket_bytes rp with [] => RPanic | _ => RWrite rp end) x)
      | Err e => Some (at_rpc d RExit (if bool_decide (e ≠ EOF) && negb (rs_closed x) then add_error x else x))
      | Panic _ => Some (at_rpc d RPanic x)
      | Block => None
      end
  | RWrite rp =>
      let '(o, c') := rw_WritePacket (relayed (RawPacket_bytes rp)) (at_side (other d) (rs_conns x)) in
      let x := with_conn (other d) c' x in
      match o with
      | Ret _ => Some (release_to d rp RCheck (add_packet d x))
      | Err _ => Some (release_to d rp RExit (if negb (rs_closed x) then add_error x else x))
      | Panic _ => Some (at_rpc d RPanic x)
      | Block => None
      end
  | RExit => Some (if rs_closed x then at_rpc d RDone x else at_rpc d RCloseClient (set_closed x))
  | RCloseClient => Some (at_rpc d RCloseServer (close_side Client x))
  | RCloseServer => Some (at_rpc d RDone (close_side Server x))
  | RDone | RPanic => None
  end.

(** The goroutines take turns; between them the peers change what the connections hold. *)
Inductive packet_step : PacketSys C → PacketSys C → Prop :=
| ps_turn d x y : packet_turn d x = Some y → packet_step x y
| ps_peer d c x : packet_step x (with_conn d c x).

(** [Wait] returns. *)
Definition joined (x : PacketSys C) : Prop := rs_pcs x = mkTwo RDone RDone.

(** *** Lemmas *)

Definition closing (p : rpc) : bool := match p with RCloseClient | RCloseServer => true | _ => false end.
Definition left_loop (p : rpc) : Z := match p with RExit | RCloseClient | RCloseServer | RDone => 1 | _ => 0 end.
Definition in_loop (p : rpc) : bool := match p with RCheck | RRead | RWrite _ | RPanic | RExit => true | _ => false end.

(** The flag, who is closing, and what has been closed. *)
Inductive close_phase (x : PacketSys C) : Prop :=
| ph_open : rs_closed x = false → (∀ d, in_loop (at_side d (rs_pcs x)) = true) → rs_closes x = mkTwo 0%nat 0%nat → close_phase x
| ph_client d : rs_closed x = true → at_side d (rs_pcs x) = RCloseClient → closing (at_side (other d) (rs_pcs x)) = false →
    rs_closes x = mkTwo 0%nat 0%nat → close_phase x
| ph_server d : rs_closed x = true → at_side d (rs_pcs x) = RCloseServer → closing (at_side (other d) (rs_pcs x)) = false →
    rs_closes x = mkTwo 1%nat 0%nat → close_phase x
| ph_shut : rs_closed x = true → (∀ d, closing (at_side d (rs_pcs x)) = false) → rs_closes x = mkTwo 1%nat 1%nat → close_phase x.

Definition errors_inv (x : PacketSys C) : Prop :=
  0 ≤ rs_errors x ≤ left_loop (of_client (rs_pcs x)) + left_loop (of_server (rs_pcs x)).

(** Turns inside the loop leave the flag and the closes alone. *)
Lemma loop_turn d x y :
  packet_turn d x = Some y → in_loop (at_side d (rs_pcs x)) = true → at_side d (rs_pcs x) ≠ RExit →
  rs_closed y = rs_closed x ∧ rs_closes y = rs_closes x
  ∧ in_loop (at_side d (rs_pcs y)) = true ∧ at_side (other d) (rs_pcs y) = at_side (other d) (rs_pcs x)
  ∧ (rs_errors y = rs_errors x ∨ (rs_errors y = s64 (rs_errors x + 1) ∧ left_loop (at_side d (rs_pcs y)) = 1)).
Proof.
  unfold packet_turn. intros Ht Hin Hne. destruct (at_side d (rs_pcs x)) as [| |rp| | | | |]; try done.
  - injection Ht as <-. cbn. sides. by destruct (rs_closed x); split_and!; auto.
  - destruct (rw_ReadRawPacket _) as [[rp|e|p|] c']; simplify_eq; cbn [with_conn rs_closed];
      [|case_match|]; cbn; sides; split_and!; auto. by destruct (RawPacket_bytes rp).
  - destruct (rw_WritePacket _ _) as [[u|e|p|] c']; simplify_eq; cbn [with_conn rs_closed];
      [|case_match|]; cbn; sides; split_and!; auto.
Qed.

Lemma phase_ext x y :
  rs_closed y = rs_closed x → rs_pcs y = rs_pcs x → rs_closes y = rs_closes x → close_phase x → close_phase y.
Proof.
  intros E1 E2 E3 [H1 H2 H3|e H1 H2 H3 H4|e H1 H2 H3 H4|H1 H2 H3].
  - apply ph_open; rewrite ?E1, ?E2, ?E3; done.
  - apply (ph_client _ e); rewrite ?E1, ?E2, ?E3; done.
  - apply (ph_server _ e); rewrite ?E1, ?E2, ?E3; done.
  - apply ph_shut; rewrite ?E1, ?E2, ?E3; done.
Qed.

Lemma phase_loop d x y :
  close_phase x → rs_closed y = rs_closed x → rs_closes y = rs_closes x →
  in_loop (at_side d (rs_pcs x)) = true → in_loop (at_side d (rs_pcs y)) = true →
  at_side (other d) (rs_pcs y) = at_side (other d) (rs_pcs x) → close_phase y.
Proof.
  intros Hp Hc Hs Hx Hy Ho. assert (Hcl : closing (at_side d (rs_pcs y)) = false) by (by destruct (at_side d (rs_pcs y))).
  destruct Hp as [H1 H2 H3|e H1 H2 H3 H4|e H1 H2 H3 H4|H1 H2 H3].
  - apply ph_open; [congruence| |congruence]. intros e. destruct (side_cases d e) as [-> | ->]; [done|by rewrite Ho].
  - destruct (side_cases d e) as [-> | ->]; [by rewrite H2 in Hx|].
    apply (ph_client _ (other d)); [congruence|congruence|by sides|congruence].
  - destruct (side_cases d e) as [-> | ->]; [by rewrite H2 in Hx|].
    apply (ph_server _ (other d)); [congruence|congruence|by sides|congruence].
  - apply ph_shut; [congruence| |congruence]. intros e. destruct (side_cases d e) as [-> | ->]; [done|by rewrite Ho].
Qed.

Lemma phase_step x y : close_phase x → packet_step x y → close_phase y.
Proof.
  intros Hp Hs. destruct Hs as [d x' y' Ht|d c x']; [|by apply (phase_ext x')].
  destruct (in_loop (at_side d (rs_pcs x'))) eqn:Hin.
  - destruct (at_side d (rs_pcs x')) eqn:Epc; try done; try (
      destruct (loop_turn d x' y' Ht) as (H1&H2&H3&H4&_); [by rewrite Epc..|]; by eapply (phase_loop d x'); try done; rewrite Epc).
    unfold packet_turn in Ht. rewrite Epc in Ht. injection Ht as <-. destruct (rs_closed x') eqn:Ec.
    + destruct Hp as [H1 H2 H3|e H1 H2 H3 H4|e H1 H2 H3 H4|H1 H2 H3]; [congruence|..].
      * destruct (side_cases d e) as [-> | ->]; [congruence|]. apply (ph_client _ (other d)); cbn; sides; done.
      * destruct (side_cases d e) as [-> | ->]; [congruence|]. apply (ph_server _ (other d)); cbn; sides; done.
      * apply ph_shut; [done| |done]. intros e. destruct (side_cases d e) as [-> | ->]; cbn; sides; [done|apply H2].
    + destruct Hp as [H1 H2 H3|? ?|? ?|?]; [|congruence..]. apply (ph_client _ d); cbn; sides; [done..| |done].
      specialize (H2 (other d)). by destruct (at_side (other d) (rs_pcs x')).
  - destruct Hp as [H1 H2 H3|e H1 H2 H3 H4|e H1 H2 H3 H4|H1 H2 H3]; [by rewrite H2 in Hin|..];
      try (destruct (side_cases d e) as [-> | ->]; sides).
    + unfold packet_turn in Ht. rewrite H2 in Ht. injection Ht as <-. apply (ph_server _ d); cbn; sides; try done. by rewrite H4.
    + unfold packet_turn in Ht. destruct (at_side d (rs_pcs x')); done.
    + unfold packet_turn in Ht. rewrite H2 in Ht. injection Ht as <-. apply ph_shut; cbn; [done| |by rewrite H4].
      intros e. destruct (side_cases d e) as [-> | ->]; sides; done.
    + unfold packet_turn in Ht. destruct (at_side d (rs_pcs x')); done.
    + specialize (H2 d). unfold packet_turn in Ht. destruct (at_side d (rs_pcs x')); done.
Qed.

Lemma left_loop_sum (d : side) (t : two rpc) :
  left_loop (of_client t) + left_loop (of_server t) = left_loop (at_side d t) + left_loop (at_side (other d) t).
Proof. destruct d; cbn; lia. Qed.

Lemma left_loop_range p : 0 ≤ left_loop p ≤ 1.
Proof. destruct p; cbn; lia. Qed.

Lemma errors_step x y : errors_inv x → packet_step x y → errors_inv y.
Proof.
  unfold errors_inv. intros Hx Hs. destruct Hs as [d x' y' Ht|d c x']; [|done]. rewrite (left_loop_sum d) in *.
  pose proof (left_loop_range (at_side (other d) (rs_pcs x'))) as Hr. pose proof (left_loop_range (at_side d (rs_pcs y'))) as Hr'.
  destruct (in_loop (at_side d (rs_pcs x'))) eqn:Hin.
  - destruct (at_side d (rs_pcs x')) eqn:Epc; try done; try (
      destruct (loop_turn d x' y' Ht) as (_&_&_&Ho&He); [by rewrite Epc..|]; rewrite Ho; cbn [left_loop] in Hx;
      destruct He as [-> | [-> ->]]; [lia|rewrite swrap_id by (unfold is_int; lia); lia]).
    unfold packet_turn in Ht. rewrite Epc in Ht. injection Ht as <-. destruct (rs_closed x'); cbn; sides; cbn in *; lia.
  - unfold packet_turn in Ht. destruct (at_side d (rs_pcs x')) eqn:Epc; try done; injection Ht as <-; cbn; sides; cbn in *; lia.
Qed.

Lemma packet_reachable c s x : rtc packet_step (Relay_Start c s) x → close_phase x ∧ errors_inv x.
Proof.
  intros Hr. assert (H0 : close_phase (Relay_Start c s) ∧ errors_inv (Relay_Start c s)).
  { split; [apply ph_open; [done|by intros []|done]|]. unfold errors_inv. cbn. lia. }
  induction Hr as [|x y z Hxy _ IH]; [done|]. destruct H0 as [H1 H2]. apply IH. split; [by apply (phase_step x)|by apply (errors_step x)].
Qed.
End packet_relay.

(** A connection without input, for the examples. *)
#[export] Instance silent_conn : PacketRW () := {|
  rw_ReadRawPacket := fail EOF; rw_WritePacket _ := mret (); rw_Close := mret (); rw_Release _ := mret () |}.

(** ** The property of the packet relay *)

(** C36. The packet relay over any two connections, under every interleaving of its two
    goroutines: [Close] is called at most once on each connection, by whichever direction
    ends first; when [Wait] returns it has been called exactly once on each; and each
    direction counts at most one error. *)
Theorem packet_relay_closes_once {C : Type} `{PacketRW C} (c s : C) x :
  rtc packet_step (Relay_Start c s) x →
  (∀ d, (at_side d (rs_closes x) ≤ 1)%nat)
  ∧ (joined x → rs_closes x = mkTwo 1%nat 1%nat ∧ rs_closed x = true)
  ∧ 0 ≤ rs_errors x ≤ 2.
Proof.
  intros Hr. destruct (packet_reachable c s x Hr) as [Hp He]. split_and!.
  - intros []; destruct Hp as [_ _ ->|? _ _ _ ->|? _ _ _ ->|_ _ ->]; cbn; lia.
  - unfold joined. intros J. destruct Hp as [_ Hd _|d _ Hd _ _|d _ Hd _ _|Hc _ E]; [| | |done].
    + specialize (Hd Client). by rewrite J in Hd.
    + rewrite J in Hd. by destruct d.
    + rewrite J in Hd. by destruct d.
  - apply He.
  - pose proof (left_loop_range (of_client (rs_pcs x))). pose proof (left_loop_range (of_server (rs_pcs x))). unfold errors_inv in He. lia.
Qed.

(** Turns of the goroutines in a given order. *)
Definition packet_turns {C : Type} `{PacketRW C} (ds : list side) (x : PacketSys C) : option (PacketSys C) :=
  foldl (λ ox d, ox ≫= packet_turn d) (Some x) ds.

Lemma packet_turns_steps {C : Type} `{PacketRW C} ds (x y : PacketSys C) : packet_turns ds x = Some y → rtc packet_step x y.
Proof.
  revert y. induction ds as [|d ds IH] using rev_ind; intros y; unfold packet_turns; [by intros [= ->]; apply rtc_refl|].
  rewrite foldl_app. cbn. fold (packet_turns ds x). destruct (packet_turns ds x) as [z|] eqn:E; [|done]. cbn. intros Ht.
  eapply rtc_r; [by apply IH|by eapply ps_turn].
Qed.

Lemma packet_relay_closes_once_witness :
  let x := mkPacketSys (mkTwo () ()) true (mkTwo 0 0) 0 (mkTwo RDone RDone) (mkTwo 1%nat 1%nat) in
  rtc packet_step (Relay_Start () ()) x ∧ joined x ∧ rs_closes x = mkTwo 1%nat 1%nat.
Proof.
  intros x. assert (Hr : rtc packet_step (Relay_Start () ()) x)
    by (apply (packet_turns_steps [Client; Client; Client; Server; Client; Server; Client]); vm_compute; reflexivity).
  split; [exact Hr|]. split; [reflexivity|].
  exact (proj1 (proj1 (proj2 (packet_relay_closes_once () () x Hr)) eq_refl)).
Defined.
