(* ===== verification/Transport.v ===== *)
(** * Transports ([transport/*.go], [tunnel/dialer.go], [tunnel/listener.go])

    The code opens and closes sockets, TLS sessions, websockets, KCP sessions and QUIC
    connections of libraries outside the repository.  They are a parameter, the class
    [NetLib]: a state [S], the set [live] of the handles open in it, and the calls the
    program makes; [NetLibOk] states what the program relies on: a call that opens either
    gives a new handle or fails and opens nothing, a close releases its handle, a TLS
    handshake that fails may have closed the connection below it, and the
    other calls open and close nothing.  One call of the program runs by itself: handles
    other goroutines open meanwhile are not counted. *)

From S2P Require Export Proxy.
#[local] Open Scope Z_scope.

(** ** Types and the factory *)

(** [transport.Type], an [int]. *)
Definition TransportType : Type := Z.
Definition TCP : TransportType := 0.
Definition TLS : TransportType := 1.
Definition WebSocket : TransportType := 2.
Definition KCP : TransportType := 3.
Definition QUIC : TransportType := 4.
Definition SOCKS5 : TransportType := 5.

Definition Type_String (t : TransportType) : string :=
  if t =? TCP then "tcp" else if t =? TLS then "tls" else if t =? WebSocket then "ws"
  else if t =? KCP then "kcp" else if t =? QUIC then "quic" else if t =? SOCKS5 then "socks5" else "unknown".

Section factory.
Context {T : Type}.

(** [TransportFactory], for transports of any type [T]. *)
Record TransportFactory := mkFactory { transports : gmap TransportType T }.

Definition NewTransportFactory : TransportFactory := mkFactory ∅.
Definition Register (t : TransportType) (tr : T) (tf : TransportFactory) : TransportFactory :=
  mkFactory (<[t := tr]> (transports tf)).
Definition Factory_Get (t : TransportType) (tf : TransportFactory) : option T := transports tf !! t.
Definition MustGet (t : TransportType) (tf : TransportFactory) : outcome T :=
  match transports tf !! t with
  | Some tr => Ret tr
  | None => Panic (PanicMsg ("transport: " +:+ Type_String t +:+ " not registered"))
  end.
End factory.
Arguments TransportFactory : clear implicits.

(** ** What the libraries provide *)

(** A context: the time left, if there is a deadline. *)
Definition Ctx : Type := option Z.
Definition Second : Z := 1000000000.

Record Addr := mkAddr { Network : list byte; Address : list byte }.

(** [tls.Config], the fields the program sets and those a server needs. *)
Record Config := mkConfig { InsecureSkipVerify : bool; NextProtos : list (list byte); Certificates : list (list byte) }.

(** Connections. A handle names a socket, a session or a stream of a library. *)
Inductive Conn :=
| SocketConn (h : nat)
| TlsConn (conn : Conn)
| wsConn (c : nat) (laddr raddr : option Addr)
| UDPSession (h : nat)
| QUICConn (stream : nat) (laddr raddr : option Addr).

Inductive KcpOption :=
| SetStreamMode (enable : bool)
| SetWriteDelay (delay : bool)
| SetNoDelay (nodelay interval resend nc : Z)
| SetWindowSize (sndwnd rcvwnd : Z)
| SetMtu (mtu : Z)
| SetACKNoDelay (nodelay : bool).

(** The server inside a websocket listener: [connCh] with capacity 64, and [closeCh]. *)
Record http_Server := mkServer { srv_TLSConfig : option Config }.
Record wsListener := mkWsListener {
  tcpLn : nat;
  server : http_Server;
  wl_path : list byte;
  connCh : list Conn;
  closeCh : bool;          (* closed *)
  serving : bool;          (* the goroutine is in [Serve] *)
}.

Class NetLib (S : Type) := {
  BlockCrypt : Type;
  live : S → gset nat;
  pick : S → bool;                                        (* which ready case [select] takes *)
  (* sockets *)
  net_Dial : Z → Ctx → list byte → M S nat;
  net_Listen : Ctx → list byte → M S nat;
  net_Accept : nat → M S nat;
  net_Close : nat → M S ();
  net_Read : nat → nat → M S (list byte);
  net_Write : nat → list byte → M S Z;
  net_SetDeadline : nat → Z → M S ();
  net_SetReadDeadline : nat → Z → M S ();
  net_SetWriteDeadline : nat → Z → M S ();
  net_LocalAddr : nat → S → option Addr;
  net_RemoteAddr : nat → S → option Addr;
  net_ResolveUDPAddr : list byte → M S Addr;
  net_ListenUDP : option Addr → M S nat;
  net_sock : nat → S → Sock;                              (* the two ends of a socket *)
  net_set_sock : nat → Sock → S → S;
  (* crypto/tls *)
  tls_Handshake : Ctx → option Config → Conn → M S ();
  tls_Read : Conn → nat → M S (list byte);
  tls_Write : Conn → list byte → M S Z;
  (* websocket and net/http *)
  ws_Dial : Z → option Config → Ctx → list byte → M S nat;
  ws_Upgrade : M S nat;
  ws_ReadMessage : nat → M S (list byte);
  ws_WriteMessage : nat → list byte → M S ();
  http_pattern_ok : list byte → bool;                     (* [HandleFunc] panics otherwise *)
  ws_listener : nat → S → wsListener;                     (* the listener on a socket *)
  ws_set_listener : nat → wsListener → S → S;
  (* kcp *)
  kcp_DialWithOptions : list byte → option BlockCrypt → Z → Z → M S nat;
  kcp_ListenWithOptions : list byte → option BlockCrypt → Z → Z → M S nat;
  kcp_set : nat → KcpOption → M S ();
  (* quic *)
  quic_Dial : Ctx → nat → Addr → Config → M S nat;
  quic_OpenStreamSync : Ctx → nat → M S nat;
  quic_CloseWithError : nat → Z → string → M S ();
  quic_Listen : nat → Config → M S nat;
  quic_Accept : nat → M S nat;
  quic_AcceptStream : nat → M S nat;
}.

(** The interfaces [net.Listener] and [Transport]. *)
Record NetListener (S : Type) := mkListener {
  ln_Accept : M S Conn;
  ln_Close : M S ();
  ln_Addr : S → option Addr;
}.
Arguments mkListener {S}. Arguments ln_Accept {S}. Arguments ln_Close {S}. Arguments ln_Addr {S}.

Record Transport (S : Type) := mkTransport {
  Dial : Ctx → list byte → M S Conn;
  Listen : Ctx → list byte → M S (NetListener S);
}.
Arguments mkTransport {S}. Arguments Dial {S}. Arguments Listen {S}.

(** A call whose error is not looked at. *)
Definition unchecked {S A} (m : M S A) : M S () := attempt m;; mret ().

Section transports.
Context {S : Type} `{L : NetLib S}.

(** ** Connections *)

Fixpoint Conn_Close (c : Conn) : M S () :=
  match c with
  | SocketConn h | UDPSession h | wsConn h _ _ => net_Close h
  | TlsConn c => Conn_Close c
  | QUICConn stream _ _ => net_Close stream
  end.

Definition conn_Read (c : Conn) (n : nat) : M S (list byte) :=
  match c with
  | SocketConn h | UDPSession h => net_Read h n
  | TlsConn c => tls_Read c n
  | wsConn h _ _ => msg ← ws_ReadMessage h; mret (take n msg)
  | QUICConn stream _ _ => net_Read stream n
  end.

Definition conn_Write (c : Conn) (b : list byte) : M S Z :=
  match c with
  | SocketConn h | UDPSession h => net_Write h b
  | TlsConn c => tls_Write c b
  | wsConn h _ _ => ws_WriteMessage h b;; mret (Z.of_nat (length b))
  | QUICConn stream _ _ => net_Write stream b
  end.

Fixpoint conn_LocalAddr (c : Conn) (s : S) : option Addr :=
  match c with
  | SocketConn h | UDPSession h => net_LocalAddr h s
  | TlsConn c => conn_LocalAddr c s
  | wsConn _ laddr _ | QUICConn _ laddr _ => laddr
  end.

Fixpoint conn_RemoteAddr (c : Conn) (s : S) : option Addr :=
  match c with
  | SocketConn h | UDPSession h => net_RemoteAddr h s
  | TlsConn c => conn_RemoteAddr c s
  | wsConn _ _ raddr | QUICConn _ _ raddr => raddr
  end.

(** [SetDeadline] of a websocket: both deadlines, the first error ends it. *)
Definition wsConn_SetDeadline (c : nat) (t : Z) : M S () := net_SetReadDeadline c t;; net_SetWriteDeadline c t.

(** The deadlines of a QUIC connection are those of its stream. *)
Definition QUICConn_SetDeadline (stream : nat) (t : Z) : M S () := net_SetDeadline stream t.
Definition QUICConn_SetReadDeadline (stream : nat) (t : Z) : M S () := net_SetReadDeadline stream t.
Definition QUICConn_SetWriteDeadline (stream : nat) (t : Z) : M S () := net_SetWriteDeadline stream t.

(** ** TCP *)

Record TCPTransport := mkTCP { tcp_DialTimeout : Z }.

Definition TCP_Dial (t : TCPTransport) (ctx : Ctx) (addr : list byte) : M S Conn :=
  let timeout := if tcp_DialTimeout t =? 0 then 30 * Second else tcp_DialTimeout t in
  h ← net_Dial timeout ctx addr; mret (SocketConn h).

Definition tcp_listener (h : nat) : NetListener S :=
  mkListener (c ← net_Accept h; mret (SocketConn c)) (net_Close h) (net_LocalAddr h).

Definition TCP_Listen (ctx : Ctx) (addr : list byte) : M S (NetListener S) :=
  h ← net_Listen ctx addr; mret (tcp_listener h).

Definition of_TCP (t : TCPTransport) : Transport S := mkTransport (TCP_Dial t) TCP_Listen.

(** [init] *)
Definition DefaultFactory : TransportFactory (Transport S) := Register TCP (of_TCP (mkTCP 0)) NewTransportFactory.

(** ** TLS *)

Record TLSTransport := mkTLS { tls_Config : option Config; tls_DialTimeout : Z; Next : Transport S }.

Definition NewTLSTransport (config : option Config) (next : option (Transport S)) : TLSTransport :=
  mkTLS config (30 * Second) (default (of_TCP (mkTCP (30 * Second))) next).

Definition TLS_Dial (t : TLSTransport) (ctx : Ctx) (addr : list byte) : M S Conn :=
  conn ← Dial (Next t) ctx addr;
  on_error (tls_Handshake ctx (tls_Config t) conn) (unchecked (Conn_Close conn));;
  mret (TlsConn conn).

(** [tls.NewListener] *)
Definition tls_listener (ln : NetListener S) : NetListener S :=
  mkListener (c ← ln_Accept ln; mret (TlsConn c)) (ln_Close ln) (ln_Addr ln).

Definition TLS_Listen (t : TLSTransport) (ctx : Ctx) (addr : list byte) : M S (NetListener S) :=
  ln ← Listen (Next t) ctx addr; mret (tls_listener ln).

Definition of_TLS (t : TLSTransport) : Transport S := mkTransport (TLS_Dial t) (TLS_Listen t).

(** ** WebSocket *)

Record WSTransport := mkWS { ws_DialTimeout : Z; ws_TLSConfig : option Config; Path : list byte }.

Definition NewWSTransport : WSTransport := mkWS (30 * Second) None (str "/").

Definition addrWrapper (addr : list byte) : Addr := mkAddr (str "ws") addr.

Definition ws_url (w : WSTransport) (addr : list byte) : list byte :=
  str (if ws_TLSConfig w is Some _ then "wss" else "ws") ++ str "://" ++ addr ++ Path w.

Definition WS_Dial (w : WSTransport) (ctx : Ctx) (addr : list byte) : M S Conn :=
  c ← ws_Dial (ws_DialTimeout w) (ws_TLSConfig w) ctx (ws_url w addr);
  s ← get;
  let lc := default (addrWrapper (str "ws-local")) (net_LocalAddr c s) in
  let rc := default (addrWrapper addr) (net_RemoteAddr c s) in
  mret (wsConn c (Some lc) (Some rc)).

(** [http.Server.ServeTLS]: without a certificate in the configuration it loads one from
    the files, and returns the error when it cannot; no file has the empty name. *)
Definition ServeTLS_runs (srv : http_Server) (certFile keyFile : list byte) : bool :=
  match srv_TLSConfig srv with
  | Some (mkConfig _ _ (_ :: _)) => true
  | _ => bool_decide (certFile ≠ [] ∧ keyFile ≠ [])
  end.

(** The goroutine [Listen] starts: whether it serves. *)
Definition serve_goroutine (w : WSTransport) (srv : http_Server) : bool :=
  match ws_TLSConfig w with Some _ => ServeTLS_runs srv [] [] | None => true end.

Definition connCap : nat := 64.

(** The two [select] statements; [p] is the choice when both cases are ready. *)
Definition serve_select (p : bool) (c : Conn) : M wsListener bool :=
  wl ← get;
  let room := (length (connCh wl) <? connCap)%nat in
  if room && (p || negb (closeCh wl)) then
    put (mkWsListener (tcpLn wl) (server wl) (wl_path wl) (connCh wl ++ [c]) (closeCh wl) (serving wl));; mret true
  else if closeCh wl then mret false else block.

Definition accept_select (p : bool) : M wsListener Conn :=
  wl ← get;
  match connCh wl with
  | c :: cs =>
      if p || negb (closeCh wl) then
        put (mkWsListener (tcpLn wl) (server wl) (wl_path wl) cs (closeCh wl) (serving wl));; mret c
      else fail ErrClosed
  | [] => if closeCh wl then fail ErrClosed else block
  end.

(** [close(wl.closeCh)] *)
Definition close_closeCh : M wsListener () :=
  wl ← get;
  if closeCh wl then crash ClosedChannel
  else put (mkWsListener (tcpLn wl) (server wl) (wl_path wl) (connCh wl) true (serving wl)).

Definition on_listener {A} (h : nat) : M wsListener A → M S A := zoom (ws_listener h) (ws_set_listener h).

Definition serveWS (h : nat) : M S () :=
  x ← attempt ws_Upgrade;
  match x with
  | inr _ => mret ()
  | inl c =>
      s ← get;
      sent ← on_listener h (serve_select (pick s) (wsConn c (net_LocalAddr c s) (net_RemoteAddr c s)));
      if (sent : bool) then mret () else unchecked (net_Close c)
  end.

Definition wsListener_Accept (h : nat) : M S Conn := s ← get; on_listener h (accept_select (pick s)).

(** [http.Server.Close] closes the listeners it serves. *)
Definition wsListener_Close (h : nat) : M S () :=
  on_listener h close_closeCh;;
  s ← get;
  if serving (ws_listener h s) then net_Close h else mret ().

Definition ws_netListener (h : nat) : NetListener S :=
  mkListener (wsListener_Accept h) (wsListener_Close h) (net_LocalAddr h).

Definition WS_Listen (w : WSTransport) (ctx : Ctx) (addr : list byte) : M S (NetListener S) :=
  h ← net_Listen ctx addr;
  let srv := mkServer None in
  if http_pattern_ok (Path w) then
    modify (ws_set_listener h (mkWsListener h srv (Path w) [] false (serve_goroutine w srv)));;
    mret (ws_netListener h)
  else crash (PanicMsg "http: invalid pattern").

Definition of_WS (w : WSTransport) : Transport S := mkTransport (WS_Dial w) (WS_Listen w).

(** ** KCP *)

Record KCPTransport := mkKCP { kcp_DialTimeout : Z; kcp_Block : option BlockCrypt; DataShard : Z; ParityShard : Z }.

Definition NewKCPTransport : KCPTransport := mkKCP (30 * Second) None 10 3.

(** The options every session gets; the window differs. *)
Definition kcp_tune (h : nat) (window : Z) : M S () :=
  unchecked (kcp_set h (SetStreamMode true));;
  unchecked (kcp_set h (SetWriteDelay false));;
  unchecked (kcp_set h (SetNoDelay 1 10 2 1));;
  unchecked (kcp_set h (SetWindowSize window window));;
  unchecked (kcp_set h (SetMtu 1400));;
  unchecked (kcp_set h (SetACKNoDelay true)).

Definition KCP_Dial (k : KCPTransport) (ctx : Ctx) (addr : list byte) : M S Conn :=
  h ← (match kcp_Block k with
       | Some b => kcp_DialWithOptions addr (Some b) (DataShard k) (ParityShard k)
       | None => kcp_DialWithOptions addr None (DataShard k) (ParityShard k)
       end);
  kcp_tune h 1024;;
  mret (UDPSession h).

(** [kcpListener.Accept] *)
Definition kcpListener_Accept (h : nat) : M S Conn :=
  c ← net_Accept h; kcp_tune c 1024;; mret (UDPSession c).

Definition kcpListener (h : nat) : NetListener S := mkListener (kcpListener_Accept h) (net_Close h) (net_LocalAddr h).

Definition KCP_Listen (k : KCPTransport) (ctx : Ctx) (addr : list byte) : M S (NetListener S) :=
  h ← (match kcp_Block k with
       | Some b => kcp_ListenWithOptions addr (Some b) (DataShard k) (ParityShard k)
       | None => kcp_ListenWithOptions addr None (DataShard k) (ParityShard k)
       end);
  mret (kcpListener h).

Definition KCPDialSession (addr : list byte) (block : option BlockCrypt) : M S nat :=
  h ← kcp_DialWithOptions addr block 10 3; kcp_tune h 512;; mret h.

Definition of_KCP (k : KCPTransport) : Transport S := mkTransport (KCP_Dial k) (KCP_Listen k).

(** ** QUIC *)

Record QUICTransport := mkQUIC { quic_TLSConfig : option Config; quic_DialTimeout : Z }.

Definition NewQUICTransport (tlsConfig : option Config) : QUICTransport := mkQUIC tlsConfig (30 * Second).

Definition quic_config (q : QUICTransport) : Config := default (mkConfig true [str "minegate"] []) (quic_TLSConfig q).

Definition QUIC_Dial (q : QUICTransport) (ctx : Ctx) (addr : list byte) : M S Conn :=
  udpAddr ← net_ResolveUDPAddr addr;
  udpConn ← net_ListenUDP None;
  conn ← on_error (quic_Dial ctx udpConn udpAddr (quic_config q)) (unchecked (net_Close udpConn));
  stream ← on_error (quic_OpenStreamSync ctx conn)
             (unchecked (quic_CloseWithError conn 0 "stream error");; unchecked (net_Close udpConn));
  s ← get;
  mret (QUICConn stream (net_LocalAddr udpConn s) (Some udpAddr)).

Definition quicListener_Accept (ln : nat) (laddr : Addr) : M S Conn :=
  conn ← quic_Accept ln;
  stream ← on_error (quic_AcceptStream conn) (unchecked (quic_CloseWithError conn 0 "stream error"));
  s ← get;
  mret (QUICConn stream (Some laddr) (net_RemoteAddr conn s)).

Definition quicListener (ln : nat) (laddr : Addr) : NetListener S :=
  mkListener (quicListener_Accept ln laddr) (net_Close ln) (net_LocalAddr ln).

Definition QUIC_Listen (q : QUICTransport) (ctx : Ctx) (addr : list byte) : M S (NetListener S) :=
  udpAddr ← net_ResolveUDPAddr addr;
  udpConn ← net_ListenUDP (Some udpAddr);
  ln ← on_error (quic_Listen udpConn (quic_config q)) (unchecked (net_Close udpConn));
  mret (quicListener ln udpAddr).

Definition of_QUIC (q : QUICTransport) : Transport S := mkTransport (QUIC_Dial q) (QUIC_Listen q).

(** ** SOCKS5 *)

(** [fmt.Errorf("msg: %w", err)], without the argument. *)
Definition with_msg {A} (msg : string) (m : M S A) : M S A :=
  x ← attempt m; match x with inl a => mret a | inr _ => fail (ErrOther msg) end.

Definition on_sock {A} (h : nat) : M Sock A → M S A := zoom (net_sock h) (net_set_sock h).

(** The whole [Dial]: the connection to the proxy is opened here. *)
Definition SOCKS5_DialContext (s : SOCKS5Transport) (ctx : Ctx) (targetAddr : list byte) : M S Conn :=
  proxyConn ← with_msg "socks5: proxy connection failed" (net_Dial (DialTimeout s) ctx (ProxyAddr s));
  on_error (on_sock proxyConn (handshake s)) (unchecked (net_Close proxyConn));;
  on_error (on_sock proxyConn (request targetAddr)) (unchecked (net_Close proxyConn));;
  mret (SocketConn proxyConn).

Definition of_SOCKS5 (s : SOCKS5Transport) : Transport S :=
  mkTransport (SOCKS5_DialContext s) (λ _ _, fail (ErrOther "socks5: listen not supported")).
End transports.
Arguments TLSTransport S : clear implicits.
Arguments KCPTransport S {L} : rename.

(** ** The tunnel's dialer and listener *)

(** [MineConnWrapper] over a connection of a transport. *)
Record ConnWrapper := mkConnWrapper { cw_Reader : PacketReader; cw_Writer : PacketWriter; cw_Conn : Conn }.

Definition wrap (conn : Conn) : ConnWrapper := mkConnWrapper (NewPacketReader (-1)) (NewPacketWriter (-1)) conn.

Section tunnel.
Context {S : Type} `{L : NetLib S}.

Record Dialer := mkDialer { dl_transport : Transport S; dl_timeout : Z }.

Definition NewDialer (tr : option (Transport S)) : Dialer :=
  mkDialer (default (of_TCP (mkTCP (30 * Second))) tr) (30 * Second).

(** [context.WithTimeout(context.Background(), d.timeout)] *)
Definition Dialer_Dial (d : Dialer) (addr : list byte) : M S Conn := Dial (dl_transport d) (Some (dl_timeout d)) addr.
Definition Dialer_DialContext (d : Dialer) (ctx : Ctx) (addr : list byte) : M S Conn := Dial (dl_transport d) ctx addr.
Definition DialMinecraft (d : Dialer) (addr : list byte) : M S ConnWrapper := conn ← Dialer_Dial d addr; mret (wrap conn).
Definition Dialer_SetTransport (tr : Transport S) (d : Dialer) : Dialer := mkDialer tr (dl_timeout d).

Definition Dialer_Transport (d : Dialer) : Transport S := dl_transport d.

Record Listener := mkTunnelListener { l_transport : Transport S; l_ln : option (NetListener S) }.

Definition NewListener (tr : Transport S) : Listener := mkTunnelListener tr None.

Definition on_net {A} : M S A → M (S * Listener) A := zoom fst (λ s x, (s, x.2)).

Definition Listener_Listen (addr : list byte) : M (S * Listener) () :=
  x ← get;
  ln ← on_net (Listen (l_transport x.2) None addr);
  modify (λ x, (x.1, mkTunnelListener (l_transport x.2) (Some ln))).

Definition Listener_Accept : M (S * Listener) ConnWrapper :=
  x ← get;
  match l_ln x.2 with
  | None => fail ErrClosed
  | Some ln => conn ← on_net (ln_Accept ln); mret (wrap conn)
  end.

Definition Listener_Close : M (S * Listener) () :=
  x ← get; match l_ln x.2 with Some ln => on_net (ln_Close ln) | None => mret () end.

Definition Listener_Addr (x : S * Listener) : option Addr := ln ← l_ln x.2; ln_Addr ln x.1.

Definition Listener_SetTransport (tr : Transport S) : M (S * Listener) () :=
  modify (λ x, (x.1, mkTunnelListener tr (l_ln x.2))).
End tunnel.

(** ** What the program relies on *)

(** The handle that [Close] gives back. *)
Fixpoint conn_handle (c : Conn) : nat :=
  match c with
  | SocketConn h | UDPSession h | wsConn h _ _ | QUICConn h _ _ => h
  | TlsConn c => conn_handle c
  end.

Section laws.
Context {S : Type} `{L : NetLib S}.

(** [m] started with the handles [l]: what holds of its value and the handles when it
    returns and, in [E], of the handles when it fails; it never panics. *)
Definition triple {A} (l : gset nat) (m : M S A) (Q : A → gset nat → Prop) (E : gset nat → Prop) : Prop :=
  ∀ s, live s = l →
  match m s with
  | (Ret a, s') => Q a (live s')
  | (Err _, s') => E (live s')
  | (Panic _, _) => False
  | (Block, _) => True
  end.

Definition opens (m : M S nat) : Prop := ∀ l, triple l m (λ h l', (h ∉ l) ∧ l' = {[h]} ∪ l) (eq l).
Definition closes (h : nat) (m : M S ()) : Prop := ∀ l, triple l m (λ _, eq (l ∖ {[h]})) (eq (l ∖ {[h]})).
Definition steady {A} (m : M S A) : Prop := ∀ l, triple l m (λ _, eq l) (eq l).

Class NetLibOk : Prop := {
  net_Dial_opens t ctx a : opens (net_Dial t ctx a);
  net_Listen_opens ctx a : opens (net_Listen ctx a);
  net_Accept_opens h : opens (net_Accept h);
  net_ListenUDP_opens a : opens (net_ListenUDP a);
  ws_Dial_opens t c ctx a : opens (ws_Dial t c ctx a);
  ws_Upgrade_opens : opens ws_Upgrade;
  kcp_DialWithOptions_opens a b d p : opens (kcp_DialWithOptions a b d p);
  kcp_ListenWithOptions_opens a b d p : opens (kcp_ListenWithOptions a b d p);
  quic_Dial_opens ctx h a c : opens (quic_Dial ctx h a c);
  quic_OpenStreamSync_opens ctx h : opens (quic_OpenStreamSync ctx h);
  quic_Listen_opens h c : opens (quic_Listen h c);
  quic_Accept_opens h : opens (quic_Accept h);
  quic_AcceptStream_opens h : opens (quic_AcceptStream h);
  net_Close_closes h : closes h (net_Close h);
  quic_CloseWithError_closes h n msg : closes h (quic_CloseWithError h n msg);
  net_ResolveUDPAddr_steady a : steady (net_ResolveUDPAddr a);
  (* [HandshakeContext] opens nothing; when its context ends during the handshake it has
     closed the connection below, otherwise it leaves it to the caller. *)
  tls_Handshake_fails ctx c conn l :
    triple l (tls_Handshake ctx c conn) (λ _, eq l) (λ l', l' = l ∨ l' = l ∖ {[conn_handle conn]});
  kcp_set_steady h o : steady (kcp_set h o);
  net_set_sock_live h k s : live (net_set_sock h k s) = live s;
  ws_set_listener_live h wl s : live (ws_set_listener h wl s) = live s;
  ws_set_listener_get h wl s : ws_listener h (ws_set_listener h wl s) = wl;
}.
End laws.
Arguments NetLibOk S {L}.

(** ** Lemmas: reasoning about handles *)

Section triples.
Context {S : Type} `{L : NetLib S}.

Lemma triple_weaken {A} l (m : M S A) (Q Q' : A → gset nat → Prop) (E E' : gset nat → Prop) :
  triple l m Q E → (∀ a l', Q a l' → Q' a l') → (∀ l', E l' → E' l') → triple l m Q' E'.
Proof. intros Hm HQ HE s Hs. specialize (Hm s Hs). destruct (m s) as [[] s']; eauto. Qed.

Lemma triple_ret {A} l (a : A) (Q : A → gset nat → Prop) E : Q a l → triple l (mret a) Q E.
Proof. by intros ? s <-. Qed.

Lemma triple_fail {A} l e (Q : A → gset nat → Prop) (E : gset nat → Prop) : E l → triple l (fail e) Q E.
Proof. by intros ? s <-. Qed.

Lemma triple_get l (Q : S → gset nat → Prop) E : (∀ s, live s = l → Q s l) → triple l get Q E.
Proof. intros H s Hs. cbn. rewrite Hs. by apply H. Qed.

Lemma triple_bind {A B} l (m : M S A) (k : A → M S B) Q R E :
  triple l m Q E → (∀ a l', Q a l' → triple l' (k a) R E) → triple l (m ≫= k) R E.
Proof.
  intros Hm Hk s Hs. specialize (Hm s Hs). unfold mbind, M_bind. destruct (m s) as [[a| | |] s']; [|done..].
  by apply (Hk a (live s')).
Qed.

Lemma triple_unchecked {A} l (m : M S A) Q : triple l m (λ _, Q) Q → triple l (unchecked m) (λ _, Q) (λ _, False).
Proof. intros Hm s Hs. specialize (Hm s Hs). unfold unchecked, attempt, mbind, M_bind. by destruct (m s) as [[] s']. Qed.

(** The clean-up handler runs on the handles the failed call leaves. *)
Lemma triple_on_error {A} l (m : M S A) h Q E E' :
  triple l m Q E' → (∀ l', E' l' → triple l' h (λ _, E) (λ _, False)) → triple l (on_error m h) Q E.
Proof.
  intros Hm Hh s Hs. specialize (Hm s Hs). unfold on_error. destruct (m s) as [[] s'] eqn:?; [done| |done..].
  specialize (Hh (live s') Hm s' eq_refl). by destruct (h s') as [[] ?].
Qed.

Lemma triple_attempt {A} l (m : M S A) Q E :
  triple l m Q E → triple l (attempt m) (λ x l', match x with inl a => Q a l' | inr _ => E l' end) (λ _, False).
Proof. intros Hm s Hs. specialize (Hm s Hs). unfold attempt. by destruct (m s) as [[] ?]. Qed.

Lemma triple_with_msg {A} l msg (m : M S A) Q E : triple l m Q E → triple l (with_msg msg m) Q E.
Proof.
  intros Hm. eapply triple_bind; [eapply triple_weaken; [by apply triple_attempt|eauto|done]|].
  intros [a|e] l' H; [by apply triple_ret|by apply triple_fail].
Qed.

Context `{!NetLibOk S}.

Lemma triple_close l h : triple l (unchecked (net_Close h)) (λ _, eq (l ∖ {[h]})) (λ _, False).
Proof. apply triple_unchecked, net_Close_closes. Qed.

Lemma triple_on_sock {A} l h (m : M Sock A) : tame m → triple l (on_sock h m) (λ _, eq l) (eq l).
Proof.
  intros Hm s Hs. unfold on_sock, zoom. destruct (Hm (net_sock h s)) as (c'&[[a ->]|[e ->]]&_); by rewrite net_set_sock_live.
Qed.

Lemma kcp_tune_steady h w l : triple l (kcp_tune h w) (λ _, eq l) (λ _, False).
Proof.
  unfold kcp_tune. repeat (eapply triple_bind; [apply triple_unchecked, kcp_set_steady|intros _ ? <-]).
  apply triple_unchecked, kcp_set_steady.
Qed.

Lemma Conn_Close_closes c l : triple l (Conn_Close c) (λ _, eq (l ∖ {[conn_handle c]})) (eq (l ∖ {[conn_handle c]})).
Proof. induction c as [h|c IH|c la ra|h|st la ra]; cbn; [apply net_Close_closes|apply IH|apply net_Close_closes..]. Qed.

(** Dialing that, when it succeeds, opens the handle of the connection and [k] more, and
    when it fails leaves at most [f] handles behind. *)
Definition opened (k : nat) (l : gset nat) (c : Conn) (l' : gset nat) : Prop :=
  ∃ left, size left = k ∧ (conn_handle c ∉ left ∪ l) ∧ (left ## l) ∧ l' = {[conn_handle c]} ∪ (left ∪ l).
Definition left_behind (f : nat) (l l' : gset nat) : Prop :=
  ∃ left, (size left ≤ f)%nat ∧ (left ## l) ∧ l' = left ∪ l.
Definition dials (f k : nat) (m : M S Conn) : Prop := ∀ l, triple l m (opened k l) (left_behind f l).

Lemma open_close (l : gset nat) h : h ∉ l → ({[h]} ∪ l) ∖ {[h]} = l.
Proof. set_solver. Qed.

Lemma left_none l l' : l = l' → left_behind 0 l l'.
Proof. intros <-. exists ∅. rewrite size_empty. split_and!; [lia|set_solver|set_solver]. Qed.

Lemma left_more f f' l l' : (f ≤ f')%nat → left_behind f l l' → left_behind f' l l'.
Proof. intros Hf (x&Hx&?). exists x. split; [lia|done]. Qed.

(** One handle, that of the connection. *)
Lemma opened_one l c h l' : conn_handle c = h → (h ∉ l) ∧ l' = {[h]} ∪ l → opened 0 l c l'.
Proof. intros <- [Hh ->]. exists ∅. rewrite size_empty, (left_id_L ∅ (∪)). split_and!; [done|done|set_solver|done]. Qed.

Lemma close_opened k l c l' : opened k l c l' → ∃ left, size left = k ∧ (left ## l) ∧ l' ∖ {[conn_handle c]} = left ∪ l.
Proof. intros (x&Hx&Hc&Hd&->). exists x. by rewrite open_close. Qed.

Lemma opens_left (m : M S nat) l : opens m → triple l m (λ h l', (h ∉ l) ∧ l' = {[h]} ∪ l) (left_behind 0 l).
Proof. intros Hm. eapply triple_weaken; [apply Hm|done|apply left_none]. Qed.

Lemma TCP_Dial_dials t ctx addr : dials 0 0 (TCP_Dial t ctx addr).
Proof.
  intros l. eapply triple_bind; [apply opens_left, net_Dial_opens|]. intros h l' H.
  apply triple_ret. by eapply opened_one.
Qed.

Lemma WS_Dial_dials w ctx addr : dials 0 0 (WS_Dial w ctx addr).
Proof.
  intros l. eapply triple_bind; [apply opens_left, ws_Dial_opens|]. intros h l' H.
  eapply triple_bind; [apply (triple_get l' (λ _ l2, l2 = l')); done|]. intros s ? ->.
  apply triple_ret. by eapply opened_one.
Qed.

Lemma KCP_Dial_dials k ctx addr : dials 0 0 (KCP_Dial k ctx addr).
Proof.
  intros l. eapply triple_bind; [destruct (kcp_Block k); apply opens_left, kcp_DialWithOptions_opens|]. intros h l' H.
  eapply triple_bind; [eapply triple_weaken; [apply kcp_tune_steady|eauto|done]|].
  intros [] ? <-. apply triple_ret. by eapply opened_one.
Qed.

(** TLS adds no handle of its own.  When the handshake fails it closes the connection
    below, which leaves what closing such a connection leaves. *)
Lemma TLS_Dial_dials f k t ctx addr :
  dials f k (Dial (Next t) ctx addr) → dials (Nat.max f k) k (TLS_Dial t ctx addr).
Proof.
  intros Hn l. eapply triple_bind; [eapply triple_weaken; [apply Hn|done|]|].
  { intros l'. apply left_more. lia. }
  intros c l' Hc. destruct (close_opened _ _ _ _ Hc) as (x&Hx&Hd&Hl).
  eapply triple_bind; [eapply triple_on_error; [apply tls_Handshake_fails|]|].
  - intros l2 H2. assert (E : l2 ∖ {[conn_handle c]} = x ∪ l).
    { destruct H2 as [-> | ->]; [done|]. rewrite <- Hl. set_solver. }
    assert (Hx' : left_behind (Nat.max f k) l (x ∪ l)) by (exists x; split_and!; [lia|done|done]).
    eapply triple_unchecked, triple_weaken; [apply Conn_Close_closes|intros _ ? <-|intros ? <-]; by rewrite E.
  - intros [] ? <-. by apply triple_ret.
Qed.

Lemma SOCKS5_Dial_dials s ctx addr : dials 0 0 (SOCKS5_DialContext s ctx addr).
Proof.
  intros l. eapply triple_bind; [apply triple_with_msg, opens_left, net_Dial_opens|]. intros h l' [Hh ->].
  assert (Hcl : ∀ l2, {[h]} ∪ l = l2 → triple l2 (unchecked (net_Close h)) (λ _, left_behind 0 l) (λ _, False)).
  { intros ? <-. eapply triple_weaken; [apply triple_close|intros _ ? <-|done]. apply left_none. by rewrite open_close. }
  eapply triple_bind; [eapply triple_on_error; [apply triple_on_sock, handshake_tame|apply Hcl]|]. intros [] ? <-.
  eapply triple_bind; [eapply triple_on_error; [apply triple_on_sock, request_tame|apply Hcl]|]. intros [] ? <-.
  apply triple_ret. by eapply opened_one.
Qed.

(** The QUIC dialer opens three handles, or none. *)
Lemma QUIC_Dial_opens q ctx addr l :
  triple l (QUIC_Dial q ctx addr)
    (λ c l', ∃ udp conn, NoDup [conn_handle c; conn; udp] ∧ ({[conn_handle c; conn; udp]} ## l) ∧ l' = {[conn_handle c; conn; udp]} ∪ l)
    (eq l).
Proof.
  eapply triple_bind; [apply net_ResolveUDPAddr_steady|]. intros udpAddr ? <-.
  eapply triple_bind; [apply net_ListenUDP_opens|]. intros udp ? [Hu ->].
  eapply triple_bind; [eapply triple_on_error; [apply quic_Dial_opens|]|].
  { intros ? <-. eapply triple_weaken; [apply triple_close|intros _ ? <-; by rewrite open_close|done]. }
  intros conn ? [Hc ->]. eapply triple_bind; [eapply triple_on_error; [apply quic_OpenStreamSync_opens|]|].
  { intros ? <-. eapply triple_bind; [apply triple_unchecked, quic_CloseWithError_closes|]. intros [] ? <-.
    eapply triple_weaken; [apply triple_close|intros _ ? <-; by rewrite !open_close|done]. }
  intros stream ? [Hs ->]. eapply triple_bind; [apply (triple_get _ (λ _ l2, l2 = {[stream]} ∪ ({[conn]} ∪ ({[udp]} ∪ l)))); done|].
  intros s ? ->. apply triple_ret. exists udp, conn. cbn [conn_handle]. split_and!; [|set_solver|set_solver].
  repeat constructor; set_solver.
Qed.

Lemma QUIC_Dial_dials q ctx addr : dials 0 2 (QUIC_Dial q ctx addr).
Proof.
  intros l. eapply triple_weaken; [apply QUIC_Dial_opens| |apply left_none].
  intros c l' (udp&conn&Hn&Hd&->). apply NoDup_cons in Hn as [Hn1 [Hn2 _]%NoDup_cons].
  rewrite !not_elem_of_cons in Hn1. rewrite list_elem_of_singleton in Hn2. destruct Hn1 as (?&?&_).
  exists {[conn; udp]}. split_and!; [|set_solver|set_solver|set_solver].
  rewrite size_union by set_solver. by rewrite !size_singleton.
Qed.
End triples.

(** ** Lemmas: listening *)

Section listen.
Context {S : Type} `{L : NetLib S} `{!NetLibOk S}.

(** Listening that opens one handle, which closing the listener gives back, or nothing. *)
Definition tidy_listen (m : M S (NetListener S)) : Prop := ∀ s,
  match m s with
  | (Ret ln, s') =>
      (∃ h, (h ∉ live s) ∧ live s' = {[h]} ∪ live s) ∧
      match ln_Close ln s' with
      | (Ret _, s'') | (Err _, s'') => live s'' = live s
      | (Panic _, _) => False
      | (Block, _) => True
      end
  | (Err _, s') => live s' = live s
  | (Panic _, _) => False
  | (Block, _) => True
  end.

Lemma socket_listen_tidy (m : M S nat) (k : nat → NetListener S) :
  opens m → (∀ h, ln_Close (k h) = net_Close h) → tidy_listen (h ← m; mret (k h)).
Proof.
  intros Hm Hk s. pose proof (Hm (live s) s eq_refl) as H. unfold mbind, M_bind.
  destruct (m s) as [[h| | |] s']; [|done..]. destruct H as [Hh Hl]. cbn. split; [eauto|].
  rewrite Hk. pose proof (net_Close_closes h (live s') s' eq_refl) as Hc. rewrite Hl, open_close in Hc by done.
  by destruct (net_Close h s') as [[] ?].
Qed.

Lemma TLS_Listen_tidy t ctx addr : tidy_listen (Listen (Next t) ctx addr) → tidy_listen (TLS_Listen t ctx addr).
Proof.
  intros Hn s. specialize (Hn s). unfold TLS_Listen, mbind, M_bind.
  destruct (Listen (Next t) ctx addr s) as [[ln| | |] s']; done.
Qed.

Lemma WS_Listen_tidy w ctx addr :
  ws_TLSConfig w = None → http_pattern_ok (Path w) = true → tidy_listen (WS_Listen w ctx addr).
Proof.
  intros Ht Hp s. pose proof (net_Listen_opens ctx addr (live s) s eq_refl) as H. unfold WS_Listen.
  rewrite Hp. unfold mbind at 1, M_bind at 1. destruct (net_Listen ctx addr s) as [[h| | |] s']; [|done..].
  destruct H as [Hh Hl]. unfold serve_goroutine. rewrite Ht. unfold mbind, M_bind, modify, mret, M_ret. rewrite ws_set_listener_live. split; [eauto|].
  cbn [ws_netListener ln_Close]. unfold wsListener_Close, on_listener, zoom, mbind, M_bind, get.
  rewrite ws_set_listener_get. unfold close_closeCh, mbind, M_bind, get, put.
  cbn [closeCh tcpLn server wl_path connCh serving]. rewrite ws_set_listener_get. cbn [serving].
  set (s2 := ws_set_listener _ _ _). assert (Hs : live s2 = {[h]} ∪ live s) by (unfold s2; by rewrite !ws_set_listener_live).
  pose proof (net_Close_closes h (live s2) s2 eq_refl) as Hc. rewrite Hs, open_close in Hc by done.
  by destruct (net_Close h s2) as [[] ?].
Qed.
End listen.

(** ** Reading from a websocket *)

Section ws_stream.
Context {S : Type} `{L : NetLib S}.

(** Reads with buffers of the sizes [ns]: the bytes they deliver. *)
Fixpoint reads_with (c : Conn) (ns : list nat) : M S (list byte) :=
  match ns with
  | [] => mret []
  | n :: ns' => bs ← conn_Read c n; rest ← reads_with c ns'; mret (bs ++ rest)
  end.

(** The next messages of a websocket. *)
Fixpoint delivers (h : nat) (msgs : list (list byte)) (s : S) : Prop :=
  match msgs with
  | [] => True
  | m :: ms => ∃ s', ws_ReadMessage h s = (Ret m, s') ∧ delivers h ms s'
  end.

Lemma reads_with_messages h la ra msgs : ∀ ns s,
  length ns = length msgs → delivers h msgs s →
  ∃ s', reads_with (wsConn h la ra) ns s = (Ret (concat (zip_with take ns msgs)), s').
Proof.
  induction msgs as [|m ms IH]; intros [|n ns] s Hl Hd; try done; [by exists s|].
  destruct Hd as (s1&H1&Hd). destruct (IH ns s1) as [s' Hs]; [by injection Hl|done|]. exists s'.
  cbn [reads_with zip_with concat]. rewrite (bind_ret _ _ _ (take n m) s1).
  2:{ cbn. by rewrite (bind_ret _ _ _ _ _ H1). }
  by rewrite (bind_ret _ _ _ _ _ Hs).
Qed.

Lemma takes_whole (msgs : list (list byte)) : ∀ ns,
  length ns = length msgs →
  (concat (zip_with take ns msgs) = concat msgs ↔ Forall2 (λ n m, length m ≤ n)%nat ns msgs).
Proof.
  assert (Hle : ∀ (ms : list (list byte)) ns, (length (concat (zip_with take ns ms)) ≤ length (concat ms))%nat).
  { induction ms as [|m ms IH]; intros [|n ns]; cbn; [lia..|]. rewrite !length_app, length_take. specialize (IH ns). lia. }
  induction msgs as [|m ms IH]; intros [|n ns] Hl; try done.
  cbn [zip_with concat]. injection Hl as Hl. specialize (IH ns Hl). split.
  - intros E. assert (Hn : (length m ≤ n)%nat).
    { apply (f_equal length) in E. rewrite !length_app, length_take in E. specialize (Hle ms ns). lia. }
    constructor; [done|]. apply IH. rewrite take_ge in E by done. by apply app_inv_head in E.
  - intros H. inversion H as [|? ? ? ? Hn Hr]; subst. rewrite take_ge by done. f_equal. by apply IH.
Qed.
End ws_stream.

(** ** The websocket listener under concurrent requests *)

(** The listener, the connections whose handlers are in the [select], those [Accept]
    has returned, those the handlers have closed, and, as a record of the past, all that
    were upgraded and all that were sent to [connCh], in order. *)
Record WsSys := mkWsSys {
  sys_ln : wsListener;
  waiting : list Conn;
  accepted : list Conn;
  dropped : list Conn;
  upgraded : list Conn;
  sent : list Conn;
}.

Inductive ws_step : WsSys → WsSys → Prop :=
| ws_upgrade c x :
    serving (sys_ln x) = true →
    ws_step x (mkWsSys (sys_ln x) (c :: waiting x) (accepted x) (dropped x) (upgraded x ++ [c]) (sent x))
| ws_send p c w1 w2 x ln' :
    waiting x = w1 ++ c :: w2 → serve_select p c (sys_ln x) = (Ret true, ln') →
    ws_step x (mkWsSys ln' (w1 ++ w2) (accepted x) (dropped x) (upgraded x) (sent x ++ [c]))
| ws_drop p c w1 w2 x ln' :
    waiting x = w1 ++ c :: w2 → serve_select p c (sys_ln x) = (Ret false, ln') →
    ws_step x (mkWsSys ln' (w1 ++ w2) (accepted x) (c :: dropped x) (upgraded x) (sent x))
| ws_accept p c x ln' :
    accept_select p (sys_ln x) = (Ret c, ln') →
    ws_step x (mkWsSys ln' (waiting x) (accepted x ++ [c]) (dropped x) (upgraded x) (sent x))
| ws_close x ln' :
    close_closeCh (sys_ln x) = (Ret (), ln') →
    ws_step x (mkWsSys ln' (waiting x) (accepted x) (dropped x) (upgraded x) (sent x)).

(** The listener [Listen] returns. *)
Definition ws_init (w : WSTransport) (h : nat) : WsSys :=
  let srv := mkServer None in
  mkWsSys (mkWsListener h srv (Path w) [] false (serve_goroutine w srv)) [] [] [] [] [].

Definition ws_inv (srv : bool) (x : WsSys) : Prop :=
  serving (sys_ln x) = srv
  ∧ upgraded x ≡ₚ waiting x ++ sent x ++ dropped x
  ∧ sent x = accepted x ++ connCh (sys_ln x)
  ∧ (length (connCh (sys_ln x)) ≤ connCap)%nat
  ∧ (dropped x ≠ [] → closeCh (sys_ln x) = true)
  ∧ (srv = false → upgraded x = []).

Lemma serve_select_cases p c ln b ln' :
  serve_select p c ln = (Ret b, ln') →
  serving ln' = serving ln ∧ closeCh ln' = closeCh ln ∧
  (if b then connCh ln' = connCh ln ++ [c] ∧ (length (connCh ln) < connCap)%nat else ln' = ln ∧ closeCh ln = true).
Proof.
  unfold serve_select. rewrite get_bind.
  destruct (Nat.ltb_spec (length (connCh ln)) connCap), p, (closeCh ln) eqn:Ec; cbn; intros [= <- <-]; by rewrite ?Ec.
Qed.

Lemma accept_select_cases p c ln ln' :
  accept_select p ln = (Ret c, ln') → serving ln' = serving ln ∧ closeCh ln' = closeCh ln ∧ connCh ln = c :: connCh ln'.
Proof.
  unfold accept_select. rewrite get_bind. destruct (connCh ln) as [|c' cs]; [by destruct (closeCh ln)|].
  destruct p, (closeCh ln) eqn:Ec; cbn; try done; by intros [= <- <-].
Qed.

Lemma close_closeCh_cases ln ln' :
  close_closeCh ln = (Ret (), ln') → serving ln' = serving ln ∧ closeCh ln = false ∧ closeCh ln' = true ∧ connCh ln' = connCh ln.
Proof. unfold close_closeCh. rewrite get_bind. destruct (closeCh ln); [done|]. cbn. by intros [= <-]. Qed.

(** A handler leaves the [select]. *)
Lemma leave_waiting (c : Conn) w1 w2 s d : (w1 ++ c :: w2) ++ s ++ d ≡ₚ (w1 ++ w2) ++ s ++ c :: d.
Proof. rewrite <- Permutation_middle, !app_assoc, <- (Permutation_middle (_ ++ s)). cbn [app]. by rewrite <- app_assoc. Qed.

Lemma ws_step_inv srv x y : ws_inv srv x → ws_step x y → ws_inv srv y.
Proof.
  intros (H1&H2&H3&H4&H5&H6) Hs. unfold ws_inv.
  destruct Hs as [c x Hv|p c w1 w2 x ln' Hw Hs|p c w1 w2 x ln' Hw Hs|p c x ln' Hs|x ln' Hs]; cbn -[app].
  - split_and!; try done; [|intros ->; congruence]. rewrite H2. cbn [app]. by rewrite <- Permutation_cons_append.
  - destruct (serve_select_cases _ _ _ _ _ Hs) as (->&->&->&Hl). split_and!; try done.
    + rewrite H2, Hw, leave_waiting. by rewrite <- (app_assoc (sent x)).
    + by rewrite H3, app_assoc.
    + rewrite length_app. simpl. lia.
  - destruct (serve_select_cases _ _ _ _ _ Hs) as (_&_&->&Hc). split_and!; try done.
    by rewrite H2, Hw, leave_waiting.
  - destruct (accept_select_cases _ _ _ _ Hs) as (->&->&Hc). rewrite Hc in *. split_and!; try done.
    + by rewrite H3, <- app_assoc.
    + simpl in H4. lia.
  - destruct (close_closeCh_cases _ _ Hs) as (->&_&->&->). by split_and!.
Qed.

Lemma ws_reachable_inv w h x : rtc ws_step (ws_init w h) x → ws_inv (serve_goroutine w (mkServer None)) x.
Proof.
  intros Hr. assert (H0 : ws_inv (serve_goroutine w (mkServer None)) (ws_init w h))
    by (unfold ws_inv; cbn; split_and!; try done; unfold connCap; lia).
  induction Hr as [|x y z Hxy _ IH]; [done|]. by apply IH, (ws_step_inv _ _ _ H0).
Qed.

(** ** A concrete network *)

(** Opening takes the next planned outcome, success when the plan is used up; messages
    come from one list. *)
Record Sim := mkSim {
  sim_live : gset nat;
  sim_plan : list bool;
  sim_msgs : list (list byte);
  sim_listeners : nat → wsListener;
  sim_socks : nat → Sock;
}.

Definition sim_set (l : gset nat) (p : list bool) (x : Sim) : Sim := mkSim l p (sim_msgs x) (sim_listeners x) (sim_socks x).

Definition sim_open : M Sim nat := λ x,
  let h := fresh (sim_live x) in
  match sim_plan x with
  | false :: p => (Err (ErrOther "refused"), sim_set (sim_live x) p x)
  | true :: p => (Ret h, sim_set ({[h]} ∪ sim_live x) p x)
  | [] => (Ret h, sim_set ({[h]} ∪ sim_live x) [] x)
  end.

Definition sim_call : M Sim () := λ x,
  match sim_plan x with
  | false :: p => (Err (ErrOther "refused"), sim_set (sim_live x) p x)
  | p => (Ret (), sim_set (sim_live x) (tail p) x)
  end.

Definition sim_close (h : nat) : M Sim () := λ x, (Ret (), sim_set (sim_live x ∖ {[h]}) (sim_plan x) x).

#[export] Instance sim_net : NetLib Sim := {|
  BlockCrypt := ();
  live := sim_live;
  pick _ := true;
  net_Dial _ _ _ := sim_open;
  net_Listen _ _ := sim_open;
  net_Accept _ := sim_open;
  net_Close := sim_close;
  net_Read _ _ := fail EOF;
  net_Write _ _ := fail ErrClosed;
  net_SetDeadline _ _ := mret ();
  net_SetReadDeadline _ _ := mret ();
  net_SetWriteDeadline _ _ := mret ();
  net_LocalAddr _ _ := None;
  net_RemoteAddr _ _ := None;
  net_ResolveUDPAddr a := sim_call;; mret (mkAddr (str "udp") a);
  net_ListenUDP _ := sim_open;
  net_sock h x := sim_socks x h;
  net_set_sock h k x := mkSim (sim_live x) (sim_plan x) (sim_msgs x) (sim_listeners x) (λ i, if decide (i = h) then k else sim_socks x i);
  tls_Handshake _ _ _ := sim_call;
  tls_Read _ _ := fail EOF;
  tls_Write _ _ := fail ErrClosed;
  ws_Dial _ _ _ _ := sim_open;
  ws_Upgrade := sim_open;
  ws_ReadMessage _ := λ x, match sim_msgs x with
    | m :: ms => (Ret m, mkSim (sim_live x) (sim_plan x) ms (sim_listeners x) (sim_socks x))
    | [] => (Err EOF, x) end;
  ws_WriteMessage _ _ := mret ();
  http_pattern_ok p := bool_decide (p ≠ []);
  ws_listener h x := sim_listeners x h;
  ws_set_listener h wl x := mkSim (sim_live x) (sim_plan x) (sim_msgs x) (λ i, if decide (i = h) then wl else sim_listeners x i) (sim_socks x);
  kcp_DialWithOptions _ _ _ _ := sim_open;
  kcp_ListenWithOptions _ _ _ _ := sim_open;
  kcp_set _ _ := mret ();
  quic_Dial _ _ _ _ := sim_open;
  quic_OpenStreamSync _ _ := sim_open;
  quic_CloseWithError h _ _ := sim_close h;
  quic_Listen _ _ := sim_open;
  quic_Accept _ := sim_open;
  quic_AcceptStream _ := sim_open;
|}.

Lemma sim_open_opens : opens sim_open.
Proof.
  intros l x <-. unfold sim_open. assert (Hf : fresh (live x) ∉ live x) by apply is_fresh.
  destruct (sim_plan x) as [|[] p]; cbn in *; [by split|by split|done].
Qed.

Lemma sim_call_steady : steady sim_call.
Proof. intros l x <-. unfold sim_call. by destruct (sim_plan x) as [|[] p]. Qed.

#[export] Instance sim_net_ok : NetLibOk Sim.
Proof.
  split; intros; try apply sim_open_opens; try (by intros ? x <-); try apply sim_call_steady; try done.
  - intros l. eapply triple_bind; [apply sim_call_steady|]. intros [] ? <-. by apply triple_ret.
  - eapply triple_weaken; [apply sim_call_steady|done|by left].
  - cbn. by rewrite decide_True.
Qed.

Definition sim_start (plan : list bool) (msgs : list (list byte)) : Sim :=
  mkSim {[7%nat]} plan msgs (λ _, mkWsListener 0 (mkServer None) [] [] false false)
    (λ _, mkSock (mkReader [] EOF true) (mkWriter [] []) 0).

(** ** The properties of the component *)

(** The transports of the package, with the number of handles a failed [Dial] may leave
    and the number closing a connection leaves: none, but for QUIC, whose connections do
    not close the UDP socket and the QUIC connection below their stream.  TLS may wrap
    any of them. *)
Inductive package_transport {S : Type} `{NetLib S} : nat → nat → Transport S → Prop :=
| pt_tcp t : package_transport 0 0 (of_TCP t)
| pt_ws w : package_transport 0 0 (of_WS w)
| pt_kcp k : package_transport 0 0 (of_KCP k)
| pt_socks5 s : package_transport 0 0 (of_SOCKS5 s)
| pt_quic q : package_transport 0 2 (of_QUIC q)
| pt_tls f k config timeout next :
    package_transport f k next → package_transport (Nat.max f k) k (of_TLS (mkTLS config timeout next)).

(** C22. Handles and dialing, over any behaviour of the libraries.  [Dial] never panics.
    Of a TCP, websocket, KCP or SOCKS5 transport, and of TLS over them, a [Dial] that
    fails, at whatever stage, leaves the open handles as they were, and closing the
    connection of one that succeeds gives back all that was opened ([f] and [k] are 0).
    A QUIC [Dial] that fails leaves nothing either, but closing a QUIC connection leaves
    exactly two handles open, and so may a TLS handshake that fails over QUIC. *)
Theorem dial_no_leak {S : Type} `{NetLib S} `{!NetLibOk S} f k (tr : Transport S) ctx addr s :
  package_transport f k tr →
  match Dial tr ctx addr s with
  | (Ret c, s') =>
      match Conn_Close c s' with
      | (Ret _, s'') | (Err _, s'') =>
          ∃ left : gset nat, size left = k ∧ (left ## live s) ∧ live s'' = left ∪ live s
      | (Panic _, _) => False
      | (Block, _) => True
      end
  | (Err _, s') => ∃ left : gset nat, (size left ≤ f)%nat ∧ (left ## live s) ∧ live s' = left ∪ live s
  | (Panic _, _) => False
  | (Block, _) => True
  end.
Proof.
  intros Hp. assert (Ht : dials f k (Dial tr ctx addr)).
  { induction Hp; cbn [Dial of_TCP of_WS of_KCP of_SOCKS5 of_QUIC of_TLS];
      [apply TCP_Dial_dials|apply WS_Dial_dials|apply KCP_Dial_dials|apply SOCKS5_Dial_dials|
       apply QUIC_Dial_dials|by apply TLS_Dial_dials]. }
  specialize (Ht (live s) s eq_refl). destruct (Dial tr ctx addr s) as [[c| | |] s']; [|done..].
  destruct (close_opened _ _ _ _ Ht) as (x&Hx&Hd&Hl).
  pose proof (Conn_Close_closes c (live s') s' eq_refl) as Hc. rewrite Hl in Hc.
  destruct (Conn_Close c s') as [[] ?]; [by exists x|by exists x|done..].
Qed.

(** TLS over TCP: the connection is opened, then the handshake fails. *)
Lemma dial_no_leak_witness :
  let tr := of_TLS (NewTLSTransport None None) in
  ∃ e s', Dial tr None (str "mc:1") (sim_start [true; false] []) = (Err e, s') ∧ live s' = {[7%nat]}.
Proof.
  intros tr.
  pose proof (dial_no_leak _ _ tr None (str "mc:1") (sim_start [true; false] []) (pt_tls _ _ None (30 * Second) _ (pt_tcp _))) as H.
  destruct (Dial tr None (str "mc:1") (sim_start [true; false] [])) as [[c|e|p|] s'] eqn:E;
    [vm_compute in E; discriminate E| |destruct H|vm_compute in E; discriminate E].
  exists e, s'. split; [reflexivity|]. destruct H as (x&Hx&_&Hl). cbn in Hx.
  assert (x = ∅) as -> by (apply leibniz_equiv, size_empty_inv; lia).
  rewrite Hl. by rewrite (left_id_L ∅ (∪)).
Defined.

(** The QUIC dialer gives back everything when it fails, too; but a connection it returns
    closes its stream only: the UDP socket and the QUIC connection stay open, and nothing
    refers to them any more. *)
Theorem quic_conn_leaks {S : Type} `{NetLib S} `{!NetLibOk S} q ctx addr (s : S) :
  match QUIC_Dial q ctx addr s with
  | (Ret c, s') => ∃ udp conn, udp ≠ conn ∧ ({[udp; conn]} ## live s) ∧
      match Conn_Close c s' with
      | (Ret _, s'') | (Err _, s'') => live s'' = {[conn; udp]} ∪ live s
      | (Panic _, _) => False
      | (Block, _) => True
      end
  | (Err _, s') => live s' = live s
  | (Panic _, _) => False
  | (Block, _) => True
  end.
Proof.
  pose proof (QUIC_Dial_opens q ctx addr (live s) s eq_refl) as Ht. destruct (QUIC_Dial q ctx addr s) as [[c| | |] s']; [|done..].
  destruct Ht as (udp&conn&Hn&Hd&Hl). exists udp, conn.
  apply NoDup_cons in Hn as [Hn1 [Hn2 _]%NoDup_cons]. rewrite !not_elem_of_cons in Hn1. rewrite list_elem_of_singleton in Hn2.
  split_and!; [done|set_solver|]. pose proof (Conn_Close_closes c (live s') s' eq_refl) as Hc.
  assert (E : live s' ∖ {[conn_handle c]} = {[conn; udp]} ∪ live s) by (rewrite Hl; destruct Hn1 as (?&?&_); set_solver).
  rewrite E in Hc. by destruct (Conn_Close c s') as [[] ?].
Qed.

(** No leaks in listening, likewise, for TCP, KCP, websockets without TLS on a path the
    server accepts, and TLS over them. *)
Inductive package_listener {S : Type} `{NetLib S} : Transport S → Prop :=
| pl_tcp t : package_listener (of_TCP t)
| pl_ws w : ws_TLSConfig w = None → http_pattern_ok (Path w) = true → package_listener (of_WS w)
| pl_kcp k : package_listener (of_KCP k)
| pl_tls config timeout next : package_listener next → package_listener (of_TLS (mkTLS config timeout next)).

Theorem listen_no_leak {S : Type} `{NetLib S} `{!NetLibOk S} (tr : Transport S) ctx addr :
  package_listener tr → tidy_listen (Listen tr ctx addr).
Proof.
  intros Hp. induction Hp as [t|w Ht Hw|k|cfg tmo next _ IH]; cbn [Listen of_TCP of_WS of_KCP of_TLS].
  - by apply socket_listen_tidy; [apply net_Listen_opens|].
  - by apply WS_Listen_tidy.
  - unfold KCP_Listen. by apply socket_listen_tidy; [destruct (kcp_Block k); apply kcp_ListenWithOptions_opens|].
  - by apply TLS_Listen_tidy.
Qed.

(** Reading from a websocket: each [Read] takes one whole message and delivers as much of it
    as fits the buffer. The bytes delivered are those of the stream exactly when every
    buffer is at least as long as the message it meets; otherwise the rest of the message
    is lost. The packet reader begins each packet with a buffer of one byte. *)
Theorem ws_read_stream {S : Type} `{NetLib S} h la ra msgs ns (s : S) :
  delivers h msgs s → length ns = length msgs →
  ∃ bs s', reads_with (wsConn h la ra) ns s = (Ret bs, s')
    ∧ bs = concat (zip_with take ns msgs)
    ∧ (bs = concat msgs ↔ Forall2 (λ n m, length m ≤ n)%nat ns msgs).
Proof.
  intros Hd Hl. destruct (reads_with_messages h la ra msgs ns s Hl Hd) as [s' Hs].
  eexists _, s'. split; [exact Hs|]. split; [done|]. by apply takes_whole.
Qed.

(** A frame and a message that follows it, read as the packet reader does: the body of the
    packet is the next message. *)
Lemma ws_read_stream_witness :
  ∃ bs s', reads_with (wsConn 3 None None) [1; 2]%nat (sim_start [] [[x02; x00; x41]; [x58; x59]]) = (Ret bs, s')
    ∧ bs = [x02; x58; x59].
Proof.
  destruct (ws_read_stream 3 None None [[x02; x00; x41]; [x58; x59]] [1; 2]%nat (sim_start [] [[x02; x00; x41]; [x58; x59]]))
    as (bs&s'&H1&H2&_); [eexists; split; [reflexivity|]; eexists; split; [reflexivity|exact I]|reflexivity|].
  exists bs, s'. split; [exact H1|rewrite H2; reflexivity].
Defined.

(** C23. The websocket listener, under every interleaving of requests, [Accept] and [Close]:
    every upgraded connection is in exactly one place, the handler that waits, the
    channel, the accepting program, or closed by its handler, which happens only after
    [Close]; connections are accepted in the order they were sent, at most 64 queue up;
    and a listener with a TLS configuration never has a connection, because its server
    is given no certificate and the error is ignored. *)
Theorem ws_listener_accounts w h x :
  rtc ws_step (ws_init w h) x →
  upgraded x ≡ₚ waiting x ++ connCh (sys_ln x) ++ accepted x ++ dropped x
  ∧ accepted x `prefix_of` sent x
  ∧ (length (connCh (sys_ln x)) ≤ 64)%nat
  ∧ (dropped x ≠ [] → closeCh (sys_ln x) = true)
  ∧ (is_Some (ws_TLSConfig w) → upgraded x = []).
Proof.
  intros (H1&H2&H3&H4&H5&H6)%ws_reachable_inv. split_and!; [| |done|done|].
  - rewrite H2, H3. apply Permutation_app_head. rewrite <- !app_assoc. rewrite !app_assoc. apply Permutation_app_tail, Permutation_app_comm.
  - rewrite H3. by eexists.
  - intros [cfg Hc]. apply H6. unfold serve_goroutine. by rewrite Hc.
Qed.

Lemma ws_listener_accounts_witness :
  let c := wsConn 5 None None in
  let ln cs cl := mkWsListener 3 (mkServer None) (str "/") cs cl true in
  let x := mkWsSys (ln [] true) [] [c] [] [c] [c] in
  rtc ws_step (ws_init NewWSTransport 3) x ∧ upgraded x ≡ₚ waiting x ++ connCh (sys_ln x) ++ accepted x ++ dropped x.
Proof.
  intros c ln x. assert (Hr : rtc ws_step (ws_init NewWSTransport 3) x).
  { eapply rtc_l; [exact (ws_upgrade c (ws_init NewWSTransport 3) eq_refl)|].
    eapply rtc_l; [exact (ws_send true c [] [] (mkWsSys (ln [] false) [c] [] [] [c] []) (ln [c] false) eq_refl eq_refl)|].
    eapply rtc_l; [exact (ws_accept true c (mkWsSys (ln [c] false) [] [] [] [c] [c]) (ln [] false) eq_refl)|].
    eapply rtc_l; [exact (ws_close (mkWsSys (ln [] false) [] [c] [] [c] [c]) (ln [] true) eq_refl)|]. apply rtc_refl. }
  split; [exact Hr|]. exact (proj1 (ws_listener_accounts NewWSTransport 3 x Hr)).
Defined.

(** The factory: [Get] gives the transport registered last for a type, [MustGet] the same or
    a panic that names the type, and only TCP is registered by default. *)
Theorem factory_lookup {S : Type} `{NetLib S} (regs : list (TransportType * Transport S)) t :
  let tf := foldl (λ tf '(t, tr), Register t tr tf) DefaultFactory regs in
  let found := list_find (λ x, x.1 = t) (reverse regs) in
  Factory_Get t tf = match found with
    | Some (_, (_, tr)) => Some tr
    | None => if decide (t = TCP) then Some (of_TCP (mkTCP 0)) else None
    end
  ∧ MustGet t tf = match Factory_Get t tf with
    | Some tr => Ret tr
    | None => Panic (PanicMsg ("transport: " +:+ Type_String t +:+ " not registered"))
    end.
Proof.
  intros tf found. split; [|done]. subst tf found. induction regs as [|[t' tr] regs IH] using rev_ind; cbn.
  - case_decide as E; subst; [done|]. unfold Factory_Get. cbn. by rewrite lookup_insert_ne.
  - rewrite foldl_app, reverse_snoc. cbn [foldl list_find]. unfold Factory_Get, Register in *. cbn [transports].
    destruct (decide (t' = t)) as [->|E].
    + rewrite lookup_insert_eq. by rewrite decide_True.
    + rewrite lookup_insert_ne, IH by done. rewrite (decide_False (P := (t', tr).1 = t)) by done.
      by destruct (list_find _ _) as [[? [? ?]]|].
Qed.
