(* ===== verification/ProxyServer.v ===== *)
(** * The proxy server ([proxy/proxy.go])

    [Start] accepts connections in a loop and runs a goroutine per client, [Stop] sets a
    flag, closes the listener and waits for the goroutines.  They run concurrently: the
    server is a transition system whose steps are the single actions of [Start], of [Stop],
    of the client goroutines and of the clients.  What one goroutine does with its client
    is in [Proxy.v]. *)

From S2P Require Export Transport.
#[local] Open Scope Z_scope.

(** ** The default handler *)

Section default_handler.
Context {S : Type} `{NetLib S}.
(** [tunnel.DirectRelay], with its own model. *)
Variable relay : Conn → Conn → M S ().

(** The method [Dial] of the dynamic type of a connection, if it has one: no connection of
    the transports does. *)
Definition Dial_method (c : Conn) : option (list byte → M S Conn) :=
  match c with SocketConn _ | TlsConn _ | wsConn _ _ _ | UDPSession _ | QUICConn _ _ _ => None end.

Definition defaultHandler (client : Conn) (hc : HandlerContext) : M S () :=
  hedef ← liftO (dial_target hc);
  match Dial_method client with
  | None => crash TypeAssertion
  | Some dial =>
      x ← attempt (dial hedef);
      match x with
      | inr _ => mret ()
      | inl server => relay client server;; unchecked (Conn_Close server)
      end
  end.
End default_handler.

(** ** The state *)

(** [Start]: at the test of [closed], in [Accept], before [active.Add], before the [go]
    statement, or returned. *)
Inductive start_pc := SCheck | SAccept | SAdd (c : nat) | SGo (c : nat) | SReturned (err : option error).

(** [Stop]: not called, before closing the listener, before waiting, or returned. *)
Inductive stop_pc := TIdle | TClose | TWait | TReturned.

(** A client goroutine: reading the handshake, in the handler it was given, or after the
    deferred [client.Close()], before [active.Done()]. *)
Inductive client_pc := CReading | CHandling | CClosed.

(** Clients are numbered. [H] is the type of handlers. *)
Record ProxySrv (H : Type) := mkSrv {
  px_closed : bool;
  px_active : Z;                       (* the counter of the wait group *)
  px_handler : H;
  px_ln_closed : bool;
  px_backlog : list nat;               (* connected, not yet accepted *)
  px_start : start_pc;
  px_stop : stop_pc;
  px_running : list (nat * client_pc);
  px_calls : list (nat * H);           (* the calls of handlers *)
  px_client_closes : list nat;         (* the deferred [client.Close] calls *)
  px_connected : list nat;             (* a record of all clients *)
}.
Arguments mkSrv {H}. Arguments px_closed {H}. Arguments px_active {H}. Arguments px_handler {H}.
Arguments px_ln_closed {H}. Arguments px_backlog {H}. Arguments px_start {H}. Arguments px_stop {H}.
Arguments px_running {H}. Arguments px_calls {H}. Arguments px_client_closes {H}. Arguments px_connected {H}.

Section server.
Context {H : Type}.
Implicit Types (x y : ProxySrv H).

Definition NewProxy (defaultH : H) : ProxySrv H := mkSrv false 0 defaultH false [] SCheck TIdle [] [] [] [].

Definition SetHandler (h : H) x : ProxySrv H :=
  mkSrv (px_closed x) (px_active x) h (px_ln_closed x) (px_backlog x) (px_start x) (px_stop x) (px_running x) (px_calls x) (px_client_closes x) (px_connected x).

Definition start_at (p : start_pc) (active : Z) (backlog : list nat) (running : list (nat * client_pc)) x : ProxySrv H :=
  mkSrv (px_closed x) active (px_handler x) (px_ln_closed x) backlog p (px_stop x) running (px_calls x) (px_client_closes x) (px_connected x).

(** The next action of [Start]; [None] when it waits in [Accept] or has returned.  [Accept]
    may fail at any time, it fails when the listener is closed and no connection waits, and
    it may return a waiting connection even then: the websocket listener selects between
    its queue and its [closeCh]. *)
Definition start_turn (accept_error : option error) x : option (ProxySrv H) :=
  let stay := λ p, start_at p (px_active x) (px_backlog x) (px_running x) x in
  match px_start x with
  | SCheck => Some (stay (if px_closed x then SReturned None else SAccept))
  | SAccept =>
      match accept_error, px_backlog x with
      | Some e, _ => Some (stay (SReturned (Some e)))
      | None, c :: cs => Some (start_at (SAdd c) (px_active x) cs (px_running x) x)
      | None, [] => if px_ln_closed x then Some (stay (SReturned (Some ErrClosed))) else None
      end
  | SAdd c => Some (start_at (SGo c) (px_active x + 1) (px_backlog x) (px_running x) x)
  | SGo c => Some (start_at SCheck (px_active x) (px_backlog x) (px_running x ++ [(c, CReading)]) x)
  | SReturned _ => None
  end.

Definition stop_at (closed ln_closed : bool) (p : stop_pc) x : ProxySrv H :=
  mkSrv closed (px_active x) (px_handler x) ln_closed (px_backlog x) (px_start x) p (px_running x) (px_calls x) (px_client_closes x) (px_connected x).

(** The next action of [Stop]; [None] when it waits or has returned. *)
Definition stop_turn x : option (ProxySrv H) :=
  match px_stop x with
  | TIdle => Some (stop_at true (px_ln_closed x) TClose x)
  | TClose => Some (stop_at (px_closed x) true TWait x)
  | TWait => if px_active x =? 0 then Some (stop_at (px_closed x) (px_ln_closed x) TReturned x) else None
  | TReturned => None
  end.

(** The client goroutine at a position of the list: the handshake is read and the handler
    called; then, or when the handshake is not valid, the two deferred calls. *)
Definition client_turn (i : nat) (valid : bool) x : option (ProxySrv H) :=
  '(c, p) ← px_running x !! i;
  let at_ := λ active running calls closes, Some (mkSrv (px_closed x) active (px_handler x) (px_ln_closed x) (px_backlog x)
    (px_start x) (px_stop x) running calls closes (px_connected x)) in
  match p, valid with
  | CReading, true => at_ (px_active x) (<[i := (c, CHandling)]> (px_running x)) (px_calls x ++ [(c, px_handler x)]) (px_client_closes x)
  | CReading, false | CHandling, _ => at_ (px_active x) (<[i := (c, CClosed)]> (px_running x)) (px_calls x) (px_client_closes x ++ [c])
  | CClosed, _ => at_ (px_active x - 1) (delete i (px_running x)) (px_calls x) (px_client_closes x)
  end.

Inductive srv_step : ProxySrv H → ProxySrv H → Prop :=
| sv_start e x y : start_turn e x = Some y → srv_step x y
| sv_stop x y : stop_turn x = Some y → srv_step x y
| sv_client i valid x y : client_turn i valid x = Some y → srv_step x y
| sv_handler h x : srv_step x (SetHandler h x)
| sv_connect c x : c ∉ px_connected x →
    srv_step x (mkSrv (px_closed x) (px_active x) (px_handler x) (px_ln_closed x) (px_backlog x ++ [c]) (px_start x) (px_stop x)
      (px_running x) (px_calls x) (px_client_closes x) (px_connected x ++ [c])).

(** ** Lemmas *)

(** The client between [Accept] and its goroutine. *)
Definition in_transit (p : start_pc) : list nat := match p with SAdd c | SGo c => [c] | _ => [] end.
Definition counted (p : start_pc) : Z := match p with SGo _ => 1 | _ => 0 end.

(** The clients whose goroutine runs and has not closed them yet. *)
Definition open_clients (l : list (nat * client_pc)) : list nat :=
  omap (λ '(c, p), match p with CClosed => None | _ => Some c end) l.

(** The clients that are, or can still come to be, with [Start] or a goroutine once the
    server was told to stop: those that are there, and one for an [Accept] under way. *)
Definition to_serve x : nat :=
  length (px_running x) + length (in_transit (px_start x)) + match px_start x with SAccept => 1 | _ => 0 end.

Definition srv_inv x : Prop :=
  px_active x = Z.of_nat (length (px_running x)) + counted (px_start x)
  ∧ (px_stop x ≠ TIdle → px_closed x = true)
  ∧ (px_stop x = TWait ∨ px_stop x = TReturned → px_ln_closed x = true)
  ∧ (px_stop x = TReturned → (to_serve x ≤ 1)%nat).

Lemma start_turn_serve e x y : px_closed x = true → start_turn e x = Some y → (to_serve y ≤ to_serve x)%nat.
Proof.
  unfold start_turn, to_serve. intros Hc Ht. rewrite Hc in Ht.
  destruct (px_start x) as [| |c|c|err] eqn:Ep; [|destruct e as [e|], (px_backlog x), (px_ln_closed x)|..];
    simplify_eq; cbn; rewrite ?length_app; cbn; lia.
Qed.

Lemma client_turn_serve i v x y : client_turn i v x = Some y → (to_serve y ≤ to_serve x)%nat.
Proof.
  unfold client_turn, to_serve. destruct (px_running x !! i) as [[c p]|] eqn:Ei; [|done]. cbn [mbind option_bind].
  pose proof (length_delete (px_running x) i ltac:(by eexists)) as Hd.
  destruct p, v; intros [= <-]; cbn; rewrite ?length_insert; lia.
Qed.

Lemma serve_step x y : px_closed x = true → srv_step x y → (to_serve y ≤ to_serve x)%nat.
Proof.
  intros Hc Hs. destruct Hs as [e x y Ht|x y Ht|i v x y Ht|h x|c x Hn];
    [by eapply start_turn_serve| |by eapply client_turn_serve|done|done].
  unfold stop_turn in Ht. destruct (px_stop x); [..|done]; [by simplify_eq..|]. by destruct (_ =? 0); simplify_eq.
Qed.

Lemma start_turn_inv e x y : srv_inv x → start_turn e x = Some y → srv_inv y.
Proof.
  intros (Ha&Hc&Hl&Hs) Ht. unfold srv_inv.
  assert (Hserve : px_stop x = TReturned → (to_serve y ≤ 1)%nat).
  { intros E. specialize (Hs E). pose proof (start_turn_serve e x y ltac:(apply Hc; by rewrite E) Ht). lia. }
  assert (px_stop y = px_stop x ∧ px_closed y = px_closed x ∧ px_ln_closed y = px_ln_closed x
    ∧ px_active y = Z.of_nat (length (px_running y)) + counted (px_start y)) as (->&->&->&?); [|done].
  revert Ht. unfold start_turn. destruct (px_start x) as [| |c|c|err]; cbn [counted] in Ha;
    [|destruct e as [e|], (px_backlog x), (px_ln_closed x) eqn:El|..]; intros; simplify_eq; cbn;
    rewrite ?length_app; cbn; (split_and!; [done|done|done|]); try lia. by destruct (px_closed x); cbn; lia.
Qed.

Lemma stop_turn_inv x y : srv_inv x → stop_turn x = Some y → srv_inv y.
Proof.
  intros (Ha&Hc&Hl&Hs) Ht. unfold stop_turn in Ht. unfold srv_inv, to_serve.
  destruct (px_stop x) eqn:Ep; [..|done].
  - injection Ht as <-. cbn. split_and!; [done|done|by intros []|done].
  - injection Ht as <-. cbn. split_and!; [done|by intros; apply Hc|done|done].
  - destruct (Z.eqb_spec (px_active x) 0) as [E|]; [|done]. injection Ht as <-. cbn.
    split_and!; [done|by intros; apply Hc|by intros; apply Hl; left|]. intros _.
    rewrite E in Ha. destruct (px_start x); cbn in *; lia.
Qed.

Lemma client_turn_inv i v x y : srv_inv x → client_turn i v x = Some y → srv_inv y.
Proof.
  intros (Ha&Hc&Hl&Hs) Ht. pose proof (client_turn_serve i v x y Ht) as Hle. unfold client_turn in Ht.
  destruct (px_running x !! i) as [[c p]|] eqn:Ei; [|done]. cbn [mbind option_bind] in Ht.
  pose proof (length_delete (px_running x) i ltac:(by eexists)) as Hd. pose proof (lookup_lt_Some _ _ _ Ei).
  unfold srv_inv. destruct p, v; injection Ht as <-; cbn [px_active px_running px_start px_stop px_closed px_ln_closed];
    rewrite ?length_insert; (split_and!; [lia|done|done|]); intros E; specialize (Hs E); lia.
Qed.

(** Where the clients are: in the backlog, with [Start], open with their goroutine, or
    closed by it. *)
Definition clients_inv x : Prop :=
  NoDup (px_connected x)
  ∧ px_connected x ≡ₚ px_client_closes x ++ open_clients (px_running x) ++ in_transit (px_start x) ++ px_backlog x
  ∧ (∀ c h, (c, h) ∈ px_calls x → c ∈ px_connected x).

Lemma open_middle l1 c p l2 :
  open_clients (l1 ++ (c, p) :: l2) = open_clients l1 ++ match p with CClosed => [] | _ => [c] end ++ open_clients l2.
Proof. unfold open_clients. rewrite omap_app. by destruct p. Qed.

Lemma clients_start e x y : clients_inv x → start_turn e x = Some y → clients_inv y.
Proof.
  unfold clients_inv. intros (Hn&Hp&Hc) Ht. unfold start_turn in Ht.
  destruct (px_start x) as [| |c|c|err] eqn:Ep; cbn [in_transit] in *.
  - injection Ht as <-. cbn. by destruct (px_closed x).
  - destruct e as [e|]; [by injection Ht as <-|].
    destruct (px_backlog x) as [|c cs] eqn:Eb; [destruct (px_ln_closed x); [|done]|]; injection Ht as <-; cbn;
      rewrite ?Eb; by split_and!.
  - injection Ht as <-. by cbn.
  - injection Ht as <-. cbn. split_and!; [done| |done]. rewrite Hp. unfold open_clients.
    rewrite omap_app, <- !app_assoc. by cbn.
  - done.
Qed.

Lemma clients_client i v x y : clients_inv x → client_turn i v x = Some y → clients_inv y.
Proof.
  unfold clients_inv. intros (Hn&Hp&Hc) Ht. unfold client_turn in Ht.
  destruct (px_running x !! i) as [[c p]|] eqn:Ei; [|done]. cbn [mbind option_bind] in Ht.
  destruct (list_elem_of_split_length _ _ _ Ei) as (l1&l2&El&Hi). rewrite El in Hp. rewrite open_middle in Hp.
  assert (Hins : ∀ q, <[i:=(c, q)]> (px_running x) = l1 ++ (c, q) :: l2).
  { intros q. rewrite El, Hi. by rewrite insert_app_r_alt, Nat.sub_diag by lia. }
  assert (Hdel : delete i (px_running x) = l1 ++ l2) by (rewrite El, Hi; apply delete_middle).
  assert (Hop : ∀ k, px_client_closes x ++ (open_clients l1 ++ [c] ++ open_clients l2) ++ k
    ≡ₚ (px_client_closes x ++ [c]) ++ (open_clients l1 ++ [] ++ open_clients l2) ++ k).
  { intros k. rewrite <- !app_assoc. apply Permutation_app_head. cbn. by rewrite <- Permutation_middle. }
  destruct p, v; injection Ht as <-; cbn [px_connected px_client_closes px_running px_start px_backlog px_calls];
    rewrite ?Hins, ?Hdel, ?open_middle; (split_and!; [done| |try done]).
  - done.
  - intros c' h' [?|[= -> _]%list_elem_of_singleton]%elem_of_app; [by eapply Hc|]. rewrite Hp. set_solver.
  - by rewrite Hp, Hop.
  - by rewrite Hp, Hop.
  - by rewrite Hp, Hop.
  - rewrite Hp. unfold open_clients. by rewrite omap_app.
  - rewrite Hp. unfold open_clients. by rewrite omap_app.
Qed.

Lemma clients_step x y : clients_inv x → srv_step x y → clients_inv y.
Proof.
  intros Hx Hs. destruct Hs as [e x y Ht|x y Ht|i v x y Ht|h x|c x Hnew].
  - by eapply clients_start.
  - unfold stop_turn in Ht. destruct (px_stop x); [..|done]; [by injection Ht as <-..|].
    destruct (_ =? 0); [by injection Ht as <-|done].
  - by eapply clients_client.
  - done.
  - destruct Hx as (Hn&Hp&Hc). unfold clients_inv. cbn. split_and!.
    + apply NoDup_app. split_and!; [done|set_solver|apply NoDup_singleton].
    + by rewrite Hp, <- !app_assoc.
    + intros c' h' Hin. apply elem_of_app. left. by eapply Hc.
Qed.

Lemma srv_step_inv x y : srv_inv x → srv_step x y → srv_inv y.
Proof.
  intros Hx Hs. destruct Hs as [e x y Ht|x y Ht|i v x y Ht|h x|c x Hn];
    [by eapply start_turn_inv|by eapply stop_turn_inv|by eapply client_turn_inv|done|done].
Qed.

Lemma srv_reachable h x : rtc srv_step (NewProxy h) x → srv_inv x ∧ clients_inv x.
Proof.
  intros Hr. assert (H0 : srv_inv (NewProxy h) ∧ clients_inv (NewProxy h)).
  { split; [unfold srv_inv; cbn; split_and!; try done; by intros []|]. unfold clients_inv. cbn. split_and!; [constructor|done|set_solver]. }
  induction Hr as [|x y z Hxy _ IH]; [done|]. destruct H0. apply IH. split; [by apply (srv_step_inv x)|by apply (clients_step x)].
Qed.

(** Runs given by what moves next. *)
Inductive mover := MStart | MStop | MClient (i : nat) (valid : bool).

Definition move (m : mover) x : option (ProxySrv H) :=
  match m with MStart => start_turn None x | MStop => stop_turn x | MClient i v => client_turn i v x end.

Definition moves_of (ms : list mover) x : option (ProxySrv H) := foldl (λ ox m, ox ≫= move m) (Some x) ms.

Lemma moves_steps ms x y : moves_of ms x = Some y → rtc srv_step x y.
Proof.
  revert y. induction ms as [|m ms IH] using rev_ind; intros y; unfold moves_of; [by intros [= ->]; apply rtc_refl|].
  rewrite foldl_app. cbn. fold (moves_of ms x). destruct (moves_of ms x) as [z|]; [|done]. cbn. intros Hm.
  eapply rtc_r; [by apply IH|]. destruct m; [by eapply sv_start|by eapply sv_stop|by eapply sv_client].
Qed.
End server.

(** ** The properties of the component *)

(** C20. The proxy server, under every interleaving of [Start], one call of [Stop], the client
    goroutines, [SetHandler] and new connections, on a listener that may still deliver
    waiting connections after it was closed: the wait group counts exactly the goroutines
    that run or are about to; every client that connected is in exactly one place, waiting,
    with [Start], open with its goroutine, or closed by it, so that the goroutine's deferred
    [Close] runs at most once per client; and once [Stop] has returned, the flag is set, the
    listener is closed, and the clients being served together with the [Accept] under way
    are at most one, which no step increases. *)
Theorem proxy_lifecycle {H : Type} (h : H) x :
  rtc srv_step (NewProxy h) x →
  px_active x = Z.of_nat (length (px_running x)) + counted (px_start x)
  ∧ NoDup (px_connected x)
  ∧ px_connected x ≡ₚ px_client_closes x ++ open_clients (px_running x) ++ in_transit (px_start x) ++ px_backlog x
  ∧ (px_stop x = TReturned → px_closed x = true ∧ px_ln_closed x = true ∧ (to_serve x ≤ 1)%nat)
  ∧ (px_closed x = true → ∀ y, srv_step x y → (to_serve y ≤ to_serve x)%nat).
Proof.
  intros Hr. destruct (srv_reachable h x Hr) as [(Ha&Hc&Hl&Hs) (Hn&Hp&_)]. split_and!; [done|done|done| |].
  - intros E. split_and!; [apply Hc; by rewrite E|apply Hl; by right|by apply Hs].
  - intros E y. by apply serve_step.
Qed.

Definition one_client : ProxySrv nat := mkSrv false 0 0%nat false [1%nat] SCheck TIdle [] [] [] [1%nat].

Lemma one_client_reached : rtc srv_step (NewProxy 0%nat) one_client.
Proof. eapply rtc_l; [by apply (sv_connect 1 (NewProxy 0%nat)); set_solver|]. apply rtc_refl. Qed.

Lemma proxy_lifecycle_witness :
  ∃ x, rtc srv_step (NewProxy 0%nat) x ∧ px_stop x = TReturned ∧ px_ln_closed x = true ∧ px_client_closes x = [1%nat].
Proof.
  destruct (moves_of [MStart; MStart; MStart; MStart; MStart; MStop; MClient 0 true; MStop; MClient 0 true; MStart;
    MClient 0 true; MStop] one_client) as [x|] eqn:Hm; [|vm_compute in Hm; discriminate Hm].
  assert (Hr : rtc srv_step (NewProxy 0%nat) x)
    by (exact (transitivity one_client_reached (moves_steps _ _ _ Hm))).
  vm_compute in Hm. injection Hm as Hx. exists x. split; [exact Hr|]. assert (Hs : px_stop x = TReturned) by (rewrite <- Hx; reflexivity).
  split; [exact Hs|]. split; [|rewrite <- Hx; reflexivity].
  exact (proj1 (proj2 (proj1 (proj2 (proj2 (proj2 (proxy_lifecycle 0%nat x Hr)))) Hs))).
Defined.

(** [Stop] can return while a client is served: the client was accepted before the listener
    was closed and is counted only after [Stop] has found the counter at zero.  On a listener
    that still delivers a waiting connection, it may even be accepted after [Stop] has
    returned. *)
Theorem stop_misses_client :
  (∃ x, rtc srv_step (NewProxy 0%nat) x ∧ px_stop x = TReturned ∧ px_running x = [(1%nat, CHandling)])
  ∧ ∃ x y, rtc srv_step (NewProxy 0%nat) x ∧ px_stop x = TReturned ∧ px_backlog x = [1%nat]
      ∧ rtc srv_step x y ∧ px_running y = [(1%nat, CHandling)].
Proof.
  split.
  - destruct (moves_of [MStart; MStart; MStop; MStop; MStop; MStart; MStart; MClient 0 true] one_client) as [x|] eqn:Hm; [|by vm_compute in Hm].
    exists x. split; [exact (transitivity one_client_reached (moves_steps _ _ _ Hm))|].
    vm_compute in Hm. by injection Hm as <-.
  - destruct (moves_of [MStart; MStop; MStop; MStop] one_client) as [x|] eqn:Hm; [|by vm_compute in Hm].
    destruct (moves_of [MStart; MStart; MStart; MClient 0 true] x) as [y|] eqn:Hm2;
      [|vm_compute in Hm; injection Hm as <-; by vm_compute in Hm2].
    exists x, y. split; [exact (transitivity one_client_reached (moves_steps _ _ _ Hm))|].
    pose proof (moves_steps _ _ _ Hm2) as Hr2. vm_compute in Hm. injection Hm as <-.
    split_and!; [done|done|exact Hr2|]. vm_compute in Hm2. by injection Hm2 as <-.
Qed.

(** The default handler panics on every handshake of a client of the package's transports: no
    connection has the method [Dial] it asks for. *)
Theorem default_handler_panics {S : Type} `{NetLib S} relay client hc (s : S) :
  is_uint 16 (Port hc) → defaultHandler relay client hc s = (Panic TypeAssertion, s).
Proof.
  intros Hp. assert (2 ^ 16 < 2 ^ 63) by done. destruct (itoa_spec (Port hc)) as (ds&Hi&_); [unfold is_uint in Hp; lia|].
  unfold defaultHandler. rewrite (bind_ret _ _ _ (Host hc ++ [x3a] ++ ds) s) by (unfold liftO, dial_target; by rewrite Hi).
  by destruct client.
Qed.
