(* ===== verification/ClassFile.v ===== *)
(** * Java class files ([tools/mcproto/classfile.go], [pickPacketID] of [extract.go])

    The parser of the tool that extracts packet identifiers from the server's class
    files.  It reads from a slice; past the length of the slice, reads panic, except
    that re-slicing reaches up to the capacity of the slice. *)

From S2P Require Export GoInt.
#[local] Open Scope Z_scope.

(** ** The reader *)

(** The slice [data], the memory between its length and its capacity, and the offset. *)
Record classReader := mkCR { cr_data : list byte; cr_spare : list byte; cr_off : nat }.

Definition advance (n : nat) (r : classReader) : classReader := mkCR (cr_data r) (cr_spare r) (cr_off r + n).

Definition cr_u1 : M classReader byte := λ r,
  match cr_data r !! cr_off r with
  | Some b => (Ret b, advance 1 r)
  | None => (Panic IndexOutOfRange, r)
  end.

(** [binary.BigEndian.Uint16(r.data[r.off:])] and [Uint32], of [n] bytes. *)
Definition cr_uint (n : nat) : M classReader Z := λ r,
  if (length (cr_data r) <? cr_off r)%nat then (Panic SliceOutOfRange, r)
  else
    let b := drop (cr_off r) (cr_data r) in
    if (length b <? n)%nat then (Panic IndexOutOfRange, r) else (Ret (be_get (take n b)), advance n r).

Definition cr_u2 : M classReader Z := cr_uint 2.
Definition cr_u4 : M classReader Z := cr_uint 4.

Definition cr_bytes (n : nat) : M classReader (list byte) := λ r,
  let mem := cr_data r ++ cr_spare r in
  if (cr_off r + n <=? length mem)%nat then (Ret (take n (drop (cr_off r) mem)), advance n r)
  else (Panic SliceOutOfRange, r).

(** ** The data *)

Inductive cpParsed := PNone | PString (s : list byte) | PInt (z : Z).

Record cpEntry := mkCp { cp_tag : Z; cp_info : list byte; cp_parsed : cpParsed }.

Record memberInfo := mkMember { accessFlags : Z; nameIdx : Z; descIdx : Z }.

Record javaClass := mkClass {
  minorVersion : Z; majorVersion : Z; constantPool : list cpEntry; thisClass : Z; superClass : Z;
  interfaces : list Z; fields : list memberInfo; methods : list memberInfo;
}.

Definition zero_cp : cpEntry := mkCp 0 [] PNone.

Definition constantUtf8 : Z := 1.
Definition constantInteger : Z := 3.
Definition constantFloat : Z := 4.
Definition constantLong : Z := 5.
Definition constantDouble : Z := 6.
Definition constantClass : Z := 7.
Definition constantString : Z := 8.
Definition constantFieldref : Z := 9.
Definition constantMethodref : Z := 10.
Definition constantIMethodref : Z := 11.
Definition constantNameAndType : Z := 12.
Definition constantMethodHandle : Z := 15.
Definition constantMethodType : Z := 16.
Definition constantInvokeDynamic : Z := 18.

(** ** The parser *)

Definition is_wide (tag : Z) : bool := (tag =? constantLong) || (tag =? constantDouble).

(** The [switch] over the tags. *)
Definition read_constant (tag : Z) : M classReader cpEntry :=
  if tag =? constantUtf8 then
    length_ ← cr_u2; info ← cr_bytes (Z.to_nat length_); mret (mkCp tag info (PString info))
  else if (tag =? constantInteger) || (tag =? constantFloat) then
    info ← cr_bytes 4;
    mret (mkCp tag info (if tag =? constantInteger then PInt (s32 (be_get info)) else PNone))
  else if is_wide tag then info ← cr_bytes 8; mret (mkCp tag info PNone)
  else if (tag =? constantClass) || (tag =? constantString) || (tag =? constantMethodType) then
    info ← cr_bytes 2; mret (mkCp tag info PNone)
  else if (tag =? constantFieldref) || (tag =? constantMethodref) || (tag =? constantIMethodref)
          || (tag =? constantNameAndType) || (tag =? constantMethodHandle) || (tag =? constantInvokeDynamic) then
    info ← cr_bytes (if tag =? constantMethodHandle then 3 else 4); mret (mkCp tag info PNone)
  else fail (ErrOther "unknown constant pool tag").

(** The loop over the constant pool from index [i]: a long or double takes two slots and
    is stored in the second. Each turn advances [i], so [fuel = count] is enough. *)
Fixpoint read_pool (fuel i count : nat) (pool : list cpEntry) : M classReader (list cpEntry) :=
  match fuel with
  | O => mret pool
  | S fuel' =>
      if (i <? count)%nat then
        tag ← cr_u1;
        entry ← read_constant (ubyte tag);
        let i := if is_wide (ubyte tag) then S i else i in
        if (i <? length pool)%nat then read_pool fuel' (S i) count (<[i := entry]> pool)
        else crash IndexOutOfRange
      else mret pool
  end.

Fixpoint read_u2s (n : nat) : M classReader (list Z) :=
  match n with
  | O => mret []
  | S n' => x ← cr_u2; xs ← read_u2s n'; mret (x :: xs)
  end.

Fixpoint skip_attributes (n : nat) : M classReader () :=
  match n with
  | O => mret ()
  | S n' => cr_u2;; len ← cr_u4; cr_bytes (Z.to_nat len);; skip_attributes n'
  end.

(** The loops over fields and methods are the same. *)
Fixpoint read_members (n : nat) : M classReader (list memberInfo) :=
  match n with
  | O => mret []
  | S n' =>
      a ← cr_u2; nm ← cr_u2; d ← cr_u2;
      attrCount ← cr_u2;
      skip_attributes (Z.to_nat attrCount);;
      ms ← read_members n';
      mret (mkMember a nm d :: ms)
  end.

Definition read_class : M classReader javaClass :=
  magic ← cr_u4;
  if negb (magic =? 0xCAFEBABE) then fail (ErrOther "bad magic")
  else
    minor ← cr_u2; major ← cr_u2;
    cpCount ← cr_u2;
    pool ← read_pool (Z.to_nat cpCount) 1 (Z.to_nat cpCount) (replicate (Z.to_nat cpCount) zero_cp);
    this ← cr_u2; super ← cr_u2;
    intCount ← cr_u2; ints ← read_u2s (Z.to_nat intCount);
    fieldCount ← cr_u2; fs ← read_members (Z.to_nat fieldCount);
    methodCount ← cr_u2; ms ← read_members (Z.to_nat methodCount);
    mret (mkClass minor major pool this super ints fs ms).

(** [parseClass(data)], with [spare] the memory behind [data]. *)
Definition parseClass (data spare : list byte) : outcome javaClass := (read_class (mkCR data spare 0)).1.

(** ** Queries *)



Definition integerConstants (jc : javaClass) : list Z :=
  omap (λ e, if cp_tag e =? constantInteger then match cp_parsed e with PInt v => Some v | _ => None end else None)
    (constantPool jc).

(** The loop of [pickPacketID]. *)
Definition pick_step (best v : Z) : Z :=
  if (0 <=? v) && (v <=? 255) then if (best =? -1) || (v <? best) then v else best else best.

Definition pickPacketID (ints : list Z) : Z := foldl pick_step (-1) ints.

(** ** Reference: the layout of a class file *)

(** A constant: a string, an integer, or another tag with its bytes. *)
Inductive constant := KUtf8 (s : list byte) | KInteger (z : Z) | KOther (tag : byte) (info : list byte).

(** The number of bytes of the other constants, for the tags the parser knows. *)
Definition other_size (tag : Z) : option nat :=
  if decide (tag = 4 ∨ tag = 9 ∨ tag = 10 ∨ tag = 11 ∨ tag = 12 ∨ tag = 18) then Some 4%nat
  else if decide (tag = 5 ∨ tag = 6) then Some 8%nat
  else if decide (tag = 7 ∨ tag = 8 ∨ tag = 16) then Some 2%nat
  else if decide (tag = 15) then Some 3%nat else None.


Definition constant_ok (k : constant) : Prop :=
  match k with
  | KUtf8 s => Z.of_nat (length s) < 2 ^ 16
  | KInteger z => is_int 32 z
  | KOther tag info => other_size (ubyte tag) = Some (length info)
  end.

Definition constant_bytes (k : constant) : list byte :=
  match k with
  | KUtf8 s => x01 :: be_put 2 (Z.of_nat (length s)) ++ s
  | KInteger z => x03 :: be_put 4 z
  | KOther tag info => tag :: info
  end.

Definition constant_entry (k : constant) : cpEntry :=
  match k with
  | KUtf8 s => mkCp constantUtf8 s (PString s)
  | KInteger z => mkCp constantInteger (be_put 4 z) (PInt z)
  | KOther tag info => mkCp (ubyte tag) info PNone
  end.

(** The slots of a constant, in the order of the parser. *)
Definition constant_slots (k : constant) : list cpEntry :=
  if is_wide (cp_tag (constant_entry k)) then [zero_cp; constant_entry k] else [constant_entry k].

Definition pool_of (ks : list constant) : list cpEntry := zero_cp :: concat (constant_slots <$> ks).

Record attribute := mkAttr { at_name : Z; at_info : list byte }.
Record member := mkMem { mb_info : memberInfo; mb_attrs : list attribute }.
Record classDesc := mkDesc {
  d_minor : Z; d_major : Z; d_consts : list constant; d_this : Z; d_super : Z;
  d_interfaces : list Z; d_fields : list member; d_methods : list member;
}.

Definition attr_bytes (a : attribute) : list byte :=
  be_put 2 (at_name a) ++ be_put 4 (Z.of_nat (length (at_info a))) ++ at_info a.
Definition member_bytes (m : member) : list byte :=
  be_put 2 (accessFlags (mb_info m)) ++ be_put 2 (nameIdx (mb_info m)) ++ be_put 2 (descIdx (mb_info m))
  ++ be_put 2 (Z.of_nat (length (mb_attrs m))) ++ concat (attr_bytes <$> mb_attrs m).
Definition counted {A} (f : A → list byte) (l : list A) : list byte := be_put 2 (Z.of_nat (length l)) ++ concat (f <$> l).
Definition class_bytes (d : classDesc) : list byte :=
  be_put 4 0xCAFEBABE ++ be_put 2 (d_minor d) ++ be_put 2 (d_major d)
  ++ be_put 2 (Z.of_nat (length (pool_of (d_consts d)))) ++ concat (constant_bytes <$> d_consts d)
  ++ be_put 2 (d_this d) ++ be_put 2 (d_super d)
  ++ counted (be_put 2) (d_interfaces d) ++ counted member_bytes (d_fields d) ++ counted member_bytes (d_methods d).

Definition attr_ok (a : attribute) : Prop := is_uint 16 (at_name a) ∧ is_uint 32 (Z.of_nat (length (at_info a))).
Definition member_ok (m : member) : Prop :=
  is_uint 16 (accessFlags (mb_info m)) ∧ is_uint 16 (nameIdx (mb_info m)) ∧ is_uint 16 (descIdx (mb_info m))
  ∧ is_uint 16 (Z.of_nat (length (mb_attrs m))) ∧ Forall attr_ok (mb_attrs m).
Record desc_ok (d : classDesc) : Prop := {
  ok_minor : is_uint 16 (d_minor d); ok_major : is_uint 16 (d_major d);
  ok_pool : is_uint 16 (Z.of_nat (length (pool_of (d_consts d)))); ok_consts : Forall constant_ok (d_consts d);
  ok_this : is_uint 16 (d_this d); ok_super : is_uint 16 (d_super d);
  ok_ints : is_uint 16 (Z.of_nat (length (d_interfaces d))); ok_ints' : Forall (is_uint 16) (d_interfaces d);
  ok_fields : is_uint 16 (Z.of_nat (length (d_fields d))); ok_fields' : Forall member_ok (d_fields d);
  ok_methods : is_uint 16 (Z.of_nat (length (d_methods d))); ok_methods' : Forall member_ok (d_methods d);
}.

#[export] Instance constant_ok_dec k : Decision (constant_ok k).
Proof. destruct k; apply _. Defined.
#[export] Instance attr_ok_dec a : Decision (attr_ok a).
Proof. unfold attr_ok. apply _. Defined.
#[export] Instance member_ok_dec m : Decision (member_ok m).
Proof. unfold member_ok. apply _. Defined.

Definition class_of (d : classDesc) : javaClass :=
  mkClass (d_minor d) (d_major d) (pool_of (d_consts d)) (d_this d) (d_super d) (d_interfaces d)
    (mb_info <$> d_fields d) (mb_info <$> d_methods d).


(** ** Lemmas: formats *)

(** [format m bs v]: [m] reads [bs] as [v], whatever follows and whatever lies behind
    the slice; on a slice that ends within [bs] it panics. *)
Record format {A} (m : M classReader A) (bs : list byte) (v : A) : Prop := {
  fmt_ok : ∀ d sp off rest, (off ≤ length d)%nat → drop off d = bs ++ rest →
    m (mkCR d sp off) = (Ret v, mkCR d sp (off + length bs));
  fmt_cut : ∀ d off pre x t, (off ≤ length d)%nat → drop off d = pre → bs = pre ++ x :: t →
    ∃ p r', m (mkCR d [] off) = (Panic p, r');
}.

Lemma drop_rest (d b rest : list byte) off :
  (off ≤ length d)%nat → drop off d = b ++ rest → drop (off + length b) d = rest ∧ (off + length b ≤ length d)%nat.
Proof.
  intros Ho Hd. split.
  - rewrite <- drop_drop, Hd. apply drop_app_length.
  - apply (f_equal length) in Hd. rewrite length_drop, length_app in Hd. lia.
Qed.

Lemma format_ret {A} (v : A) : format (mret v) [] v.
Proof. split; [intros d sp off rest _ _; simpl; by rewrite Nat.add_0_r|]. intros d off [|] ? ? _ _ [=]. Qed.

Lemma format_bind {A B} (m : M classReader A) (k : A → M classReader B) b1 b2 a v :
  format m b1 a → format (k a) b2 v → format (m ≫= k) (b1 ++ b2) v.
Proof.
  intros [H1 H1c] [H2 H2c]. split.
  - intros d sp off rest Ho Hd. rewrite <- app_assoc in Hd. destruct (drop_rest _ _ _ _ Ho Hd) as [Hd' Ho'].
    rewrite (bind_ret _ _ _ _ _ (H1 d sp off _ Ho Hd)), (H2 d sp _ rest Ho' Hd'), length_app. by rewrite Nat.add_assoc.
  - intros d off pre x t Ho Hd Hb.
    assert (Hsecond : ∀ k0, pre = b1 ++ k0 → b2 = k0 ++ x :: t → ∃ p r', (m ≫= k) (mkCR d [] off) = (Panic p, r')).
    { intros k0 -> ->. destruct (drop_rest _ _ _ _ Ho Hd) as [Hd' Ho'].
      rewrite (bind_ret _ _ _ _ _ (H1 d [] off _ Ho Hd)). by apply (H2c _ _ k0 x t). }
    destruct (app_eq_inv _ _ _ _ Hb) as [(k0&E1&E2)|(k0&E1&E2)]; [|by apply (Hsecond k0)].
    destruct k0 as [|y k0]; [apply (Hsecond []); [by rewrite E1, !app_nil_r|by rewrite E2]|].
    destruct (H1c d off pre y k0 Ho Hd E1) as (p&r'&Hp). exists p, r'. by rewrite (bind_panic _ _ _ _ _ Hp).
Qed.

Lemma format_bind_last {A B} (m : M classReader A) (k : A → M classReader B) b a v :
  format m b a → format (k a) [] v → format (m ≫= k) b v.
Proof. intros H1 H2. rewrite <- (app_nil_r b). by apply (format_bind m k b [] a). Qed.

Lemma format_u1 b : format cr_u1 [b] b.
Proof.
  split.
  - intros d sp off rest Ho Hd. unfold cr_u1. cbn [cr_data cr_off].
    rewrite <- (Nat.add_0_r off) at 1. rewrite <- lookup_drop, Hd. done.
  - intros d off pre x t Ho Hd Hb. destruct pre as [|y [|z pre]]; [|done..]. eexists _, _. unfold cr_u1. cbn [cr_data cr_off].
    by rewrite (proj2 (lookup_ge_None d off)) by (apply (f_equal length) in Hd; rewrite length_drop in Hd; simpl in Hd; lia).
Qed.

Lemma format_uint n z : is_uint (8 * Z.of_nat n) z → format (cr_uint n) (be_put n z) z.
Proof.
  intros Hz. split.
  - intros d sp off rest Ho Hd. unfold cr_uint. cbn [cr_data cr_off]. rewrite (proj2 (Nat.ltb_ge _ _)) by lia.
    rewrite Hd, length_app, length_be_put, (proj2 (Nat.ltb_ge _ _)) by lia.
    rewrite take_app_exact by (by rewrite length_be_put). rewrite be_get_put. unfold is_uint in Hz.
    by rewrite Z.mod_small.
  - intros d off pre x t Ho Hd Hb. apply (f_equal length) in Hb. rewrite length_be_put, length_app in Hb. simpl in Hb.
    unfold cr_uint. cbn [cr_data cr_off]. rewrite (proj2 (Nat.ltb_ge _ _)) by lia.
    rewrite Hd, (proj2 (Nat.ltb_lt _ _)) by lia. by eexists _, _.
Qed.

Lemma format_u2 z : is_uint 16 z → format cr_u2 (be_put 2 z) z.
Proof. apply (format_uint 2). Qed.
Lemma format_u4 z : is_uint 32 z → format cr_u4 (be_put 4 z) z.
Proof. apply (format_uint 4). Qed.

Lemma format_bytes n l : length l = n → format (cr_bytes n) l l.
Proof.
  intros <-. split.
  - intros d sp off rest Ho Hd. unfold cr_bytes. cbn [cr_data cr_spare cr_off].
    destruct (drop_rest _ _ _ _ Ho Hd) as [_ Hl].
    rewrite (proj2 (Nat.leb_le _ _)) by (rewrite length_app; lia). rewrite drop_app_le, Hd, <- app_assoc by lia.
    by rewrite take_app_length.
  - intros d off pre x t Ho Hd Hb. unfold cr_bytes. cbn [cr_data cr_spare cr_off]. rewrite app_nil_r.
    rewrite (proj2 (Nat.leb_gt _ _)); [by eexists _, _|]. subst l. rewrite <- Hd, length_app, length_drop. simpl. lia.
Qed.

Create HintDb format.
#[local] Hint Resolve format_ret format_u1 format_u2 format_u4 format_bytes : format.

Lemma read_constant_format k :
  constant_ok k →
  ∃ tag tl, constant_bytes k = tag :: tl ∧ cp_tag (constant_entry k) = ubyte tag
    ∧ format (read_constant (ubyte tag)) tl (constant_entry k).
Proof.
  destruct k as [s|z|tag info]; cbn [constant_ok constant_bytes constant_entry cp_tag]; intros Hk; eexists _, _; (split; [done|]);
    (split; [done|]).
  - change (read_constant (ubyte x01)) with
      (length_ ← cr_u2; info ← cr_bytes (Z.to_nat length_); mret (mkCp constantUtf8 info (PString info))).
    eapply format_bind; [apply format_u2; split; [lia|done]|].
    eapply format_bind_last; [apply format_bytes; lia|apply format_ret].
  - change (read_constant (ubyte x03)) with
      (info ← cr_bytes 4; mret (mkCp constantInteger info (PInt (s32 (be_get info))))).
    eapply format_bind_last; [apply format_bytes, length_be_put|].
    rewrite be_get_put. change (8 * Z.of_nat 4) with 32. change (z mod 2 ^ 32) with (uwrap 32 z).
    rewrite swrap_uwrap, swrap_id by done. apply format_ret.
  - unfold other_size in Hk. unfold read_constant, is_wide, constantUtf8, constantInteger, constantFloat, constantLong,
      constantDouble, constantClass, constantString, constantFieldref, constantMethodref, constantIMethodref,
      constantNameAndType, constantMethodHandle, constantMethodType, constantInvokeDynamic.
    set (g := ubyte tag) in *. clearbody g.
    repeat case_decide; simplify_eq; destruct_or?; subst; cbn -[cr_bytes];
      (eapply format_bind_last; [apply format_bytes; congruence|apply format_ret]).
Qed.

Lemma constant_slots_length k : length (constant_slots k) = if is_wide (cp_tag (constant_entry k)) then 2%nat else 1%nat.
Proof. unfold constant_slots. by destruct (is_wide _). Qed.

Lemma read_pool_format ks : ∀ fuel done_,
  Forall constant_ok ks → (length ks ≤ fuel)%nat →
  let todo := concat (constant_slots <$> ks) in
  format (read_pool fuel (length done_) (length done_ + length todo) (done_ ++ replicate (length todo) zero_cp))
    (concat (constant_bytes <$> ks)) (done_ ++ todo).
Proof.
  induction ks as [|k ks IH]; intros fuel done_ Hok Hf todo.
  { unfold todo. cbn [fmap list_fmap concat length replicate]. rewrite Nat.add_0_r.
    destruct fuel; cbn [read_pool]; [apply format_ret|]. rewrite (proj2 (Nat.ltb_ge _ _)) by lia. apply format_ret. }
  apply Forall_cons_1 in Hok as [Hk Hok]. destruct fuel as [|fuel]; [simpl in Hf; lia|].
  destruct (read_constant_format k Hk) as (tag&tl&Hb&Ht&Hr). unfold todo. clear todo. rewrite !fmap_cons. cbn [concat].
  set (todo := concat (constant_slots <$> ks)). rewrite length_app, constant_slots_length.
  cbn [read_pool]. rewrite (proj2 (Nat.ltb_lt _ _)) by (destruct (is_wide _); lia). rewrite Hb.
  apply (format_bind _ _ [tag] (tl ++ _) tag); [apply format_u1|].
  apply (format_bind _ _ tl _ (constant_entry k)); [done|]. cbv zeta. rewrite <- Ht.
  assert (Hlen : ∀ n, length (done_ ++ replicate n zero_cp) = (length done_ + n)%nat) by (intros; by rewrite length_app, length_replicate).
  unfold constant_slots at 1. destruct (is_wide (cp_tag (constant_entry k))); rewrite Hlen, (proj2 (Nat.ltb_lt _ _)) by lia.
  - replace (S (length done_)) with (length done_ + 1)%nat by lia. rewrite insert_app_r. cbn [replicate Nat.add insert list_insert].
    specialize (IH fuel (done_ ++ [zero_cp; constant_entry k]) Hok ltac:(simpl in Hf; lia)). cbv zeta in IH. fold todo in IH.
    rewrite length_app, <- !app_assoc in IH. cbn [length app] in IH.
    replace (S (length done_ + 1)) with (length done_ + 2)%nat by lia.
    replace (length done_ + S (S (length todo)))%nat with (length done_ + 2 + length todo)%nat by lia. exact IH.
  - rewrite <- (Nat.add_0_r (length done_)) at 3. rewrite insert_app_r. cbn [replicate Nat.add insert list_insert].
    specialize (IH fuel (done_ ++ [constant_entry k]) Hok ltac:(simpl in Hf; lia)). cbv zeta in IH. fold todo in IH.
    rewrite length_app, <- !app_assoc in IH. cbn [length app] in IH.
    replace (S (length done_)) with (length done_ + 1)%nat by lia.
    replace (length done_ + S (length todo))%nat with (length done_ + 1 + length todo)%nat by lia. exact IH.
Qed.

Lemma read_u2s_format zs : Forall (is_uint 16) zs → format (read_u2s (length zs)) (concat (be_put 2 <$> zs)) zs.
Proof.
  induction 1 as [|z zs Hz _ IH]; [apply format_ret|]. eapply format_bind; [by apply format_u2|].
  eapply format_bind_last; [exact IH|apply format_ret].
Qed.

Lemma skip_attributes_format ats :
  Forall attr_ok ats → format (skip_attributes (length ats)) (concat (attr_bytes <$> ats)) ().
Proof.
  induction 1 as [|a ats [Hn Hl] _ IH]; [apply format_ret|]. rewrite fmap_cons. cbn [concat]. unfold attr_bytes at 1.
  rewrite <- !app_assoc. eapply format_bind; [by apply format_u2|]. eapply format_bind; [by apply format_u4|].
  eapply format_bind; [apply format_bytes; lia|exact IH].
Qed.

Lemma read_members_format ms :
  Forall member_ok ms → format (read_members (length ms)) (concat (member_bytes <$> ms)) (mb_info <$> ms).
Proof.
  induction 1 as [|[[a n d] ats] ms (Ha&Hn&Hd&Hl&Hats) _ IH]; [apply format_ret|].
  rewrite !fmap_cons. cbn [concat]. unfold member_bytes at 1. cbn [mb_info mb_attrs accessFlags nameIdx descIdx] in *.
  rewrite <- !app_assoc. do 4 (eapply format_bind; [by apply format_u2|]). rewrite Nat2Z.id.
  eapply format_bind; [by apply skip_attributes_format|]. eapply format_bind_last; [exact IH|apply format_ret].
Qed.

Lemma constants_le_slots ks : (length ks ≤ length (concat (constant_slots <$> ks)))%nat.
Proof.
  induction ks as [|k ks IH]; [done|]. rewrite fmap_cons. cbn [concat length]. rewrite length_app, constant_slots_length.
  destruct (is_wide _); lia.
Qed.

Lemma read_class_format d : desc_ok d → format read_class (class_bytes d) (class_of d).
Proof.
  intros [Hmi Hma Hp Hk Ht Hs Hi Hi' Hf Hf' Hm Hm']. unfold class_bytes, counted, read_class. rewrite <- !app_assoc.
  eapply format_bind; [apply format_u4; by vm_compute|]. change (negb (3405691582 =? 3405691582)) with false. cbv iota.
  do 3 (eapply format_bind; [by apply format_u2|]). rewrite Nat2Z.id.
  eapply format_bind.
  { apply (read_pool_format (d_consts d) (length (pool_of (d_consts d))) [zero_cp] Hk). unfold pool_of.
    pose proof (constants_le_slots (d_consts d)). simpl. lia. }
  do 3 (eapply format_bind; [by apply format_u2|]). rewrite Nat2Z.id. eapply format_bind; [by apply read_u2s_format|].
  eapply format_bind; [by apply format_u2|]. rewrite Nat2Z.id. eapply format_bind; [by apply read_members_format|].
  eapply format_bind; [by apply format_u2|]. rewrite Nat2Z.id. eapply format_bind_last; [by apply read_members_format|].
  apply format_ret.
Qed.

(** ** Lemmas: files that are cut off, in slices with any capacity

    A slice expression reaches into the memory behind the slice, so that a cut inside the
    bytes of a constant or attribute goes unnoticed at first; but then the offset is past
    the length, and the next integer that is read panics. *)

Definition panics {A} (m : M classReader A) (r : classReader) : Prop := ∃ p r', m r = (Panic p, r').

(** [m] on a slice that ends within [bs], and on an offset past the slice: it panics, or
    returns a value in [V] with the offset past the slice. *)
Definition past {A} (m : M classReader A) (d sp : list byte) (off : nat) (V : A → Prop) : Prop :=
  panics m (mkCR d sp off) ∨ ∃ a off', V a ∧ (length d < off')%nat ∧ m (mkCR d sp off) = (Ret a, mkCR d sp off').
Definition overs {A} (m : M classReader A) (V : A → Prop) : Prop :=
  ∀ d sp off, (length d < off)%nat → past m d sp off V.







Definition any_value {A} (_ : A) : Prop := True.



Lemma bytes_overs n : overs (cr_bytes n) any_value.
Proof.
  intros d sp off Ho. unfold past, panics, cr_bytes. cbn [cr_data cr_spare cr_off]. destruct (_ <=? _)%nat; [right|left; by eexists _, _].
  eexists _, (off + n)%nat. split_and!; [done|lia|done].
Qed.












(** ** Lemmas: a tag the parser does not know *)





(** The integers of the constants. *)
Definition integers (ks : list constant) : list Z := omap (λ k, match k with KInteger z => Some z | _ => None end) ks.

Lemma integers_pool d : Forall constant_ok (d_consts d) → integerConstants (class_of d) = integers (d_consts d).
Proof.
  unfold integerConstants, class_of, integers. cbn [constantPool]. generalize (d_consts d).
  set (f := λ e : cpEntry, _). intros ks Hk. change (omap f (pool_of ks)) with (omap f (concat (constant_slots <$> ks))).
  induction Hk as [|k ks Hk _ IH]; [done|]. rewrite fmap_cons. cbn [concat]. rewrite omap_app, IH.
  unfold constant_slots. destruct k as [s|z|tag info]; [done|done|]. cbn [constant_ok constant_entry cp_tag] in *.
  assert (Hf : f (mkCp (ubyte tag) info PNone) = None) by (unfold f; simpl; by case_match).
  destruct (is_wide (ubyte tag)); cbn [omap list_omap]; rewrite Hf; done.
Qed.

Lemma pick_fold ints : ∀ best,
  best = -1 ∨ 0 ≤ best ≤ 255 →
  let r := foldl pick_step best ints in
  (r = best ∨ r ∈ ints ∧ 0 ≤ r ≤ 255) ∧ (best ≠ -1 → r ≠ -1 ∧ r ≤ best)
  ∧ ∀ v, v ∈ ints → 0 ≤ v ≤ 255 → r ≠ -1 ∧ r ≤ v.
Proof.
  induction ints as [|v ints IH]; intros best Hb; cbn [foldl].
  { split_and!; [by left|lia|]. by intros v ?%not_elem_of_nil. }
  assert (Hs : pick_step best v = best ∧ (0 ≤ v ≤ 255 → best ≠ -1 ∧ best ≤ v)
    ∨ pick_step best v = v ∧ 0 ≤ v ≤ 255 ∧ (best ≠ -1 → v < best)).
  { unfold pick_step. destruct (Z.leb_spec 0 v), (Z.leb_spec v 255); simpl; try (left; split; [done|lia]).
    destruct (Z.eqb_spec best (-1)), (Z.ltb_spec v best); simpl; (right; split; [done|lia]) || (left; split; [done|lia]). }
  destruct (IH (pick_step best v)) as (H1&H2&H3); [destruct Hs as [[-> _]|[-> ?]]; lia|].
  set (r := foldl pick_step (pick_step best v) ints) in *. split_and!.
  - destruct H1 as [->|[? ?]]; [|right; split; [by right|done]].
    destruct Hs as [[-> _]|[-> [? _]]]; [by left|right; split; [by left|done]].
  - intros Hn. destruct Hs as [[E _]|[E Hv]]; rewrite E in H2; lia.
  - intros u [->|Hu]%elem_of_cons Hr; [|by apply H3].
    destruct Hs as [[E Hv]|[E Hv]]; rewrite E in H2; lia.
Qed.

(** ** The properties of the component *)


Definition demo_class : classDesc :=
  mkDesc 0 61 [KUtf8 [x41]; KOther x05 (replicate 8 x01); KInteger 38; KOther x07 [x00; x01]; KInteger 1000; KInteger (-5)] 5 5 [5]
    [mkMem (mkMember 1 1 1) [mkAttr 1 [x00; x02]]] [].

Lemma demo_class_ok : desc_ok demo_class.
Proof. split; apply (bool_decide_eq_true_1 _); by vm_compute. Qed.


(** A cut that goes unnoticed: a method whose last attribute lacks a byte, with a byte of
    spare capacity behind the slice. *)
Example cut_class_parses :
  let d := mkDesc 0 61 [] 0 0 [] [] [mkMem (mkMember 1 1 1) [mkAttr 1 [x00; x02]]] in
  let cut := take (length (class_bytes d) - 1) (class_bytes d) in
  parseClass cut [xff] = Ret (class_of d) ∧ parseClass cut [] = Panic SliceOutOfRange.
Proof. by vm_compute. Qed.

(** The packet identifier taken from a class file is the smallest of its integer
    constants between 0 and 255, or -1 when it has none; long and double constants do
    not disturb it. *)
Theorem packet_id_extracted d spare :
  desc_ok d →
  ∃ jc, parseClass (class_bytes d) spare = Ret jc ∧ integerConstants jc = integers (d_consts d)
    ∧ let id := pickPacketID (integerConstants jc) in
      if decide (id = -1) then ∀ v, v ∈ integers (d_consts d) → ¬ 0 ≤ v ≤ 255
      else id ∈ integers (d_consts d) ∧ 0 ≤ id ≤ 255 ∧ ∀ v, v ∈ integers (d_consts d) → 0 ≤ v ≤ 255 → id ≤ v.
Proof.
  intros Hd. exists (class_of d). pose proof (fmt_ok _ _ _ (read_class_format d Hd) (class_bytes d) spare 0%nat []) as Hp.
  split; [unfold parseClass; rewrite Hp by (rewrite ?app_nil_r; done || lia); done|].
  rewrite (integers_pool d (ok_consts d Hd)). split; [done|]. cbv zeta.
  destruct (pick_fold (integers (d_consts d)) (-1) (or_introl eq_refl)) as (H1&_&H3). fold (pickPacketID (integers (d_consts d))) in *.
  case_decide as E.
  - intros v Hv Hr. by destruct (H3 v Hv Hr).
  - destruct H1 as [?|[? ?]]; [done|]. split_and!; [done|lia|lia|]. intros v Hv Hr. by apply H3.
Qed.

Lemma packet_id_extracted_witness :
  ∃ jc, parseClass (class_bytes demo_class) [] = Ret jc ∧ integerConstants jc = [38; 1000; -5]
    ∧ pickPacketID (integerConstants jc) = 38.
Proof.
  destruct (packet_id_extracted demo_class [] demo_class_ok) as (jc&H1&H2&_). exists jc.
  split; [exact H1|]. split; [exact H2|]. rewrite H2. reflexivity.
Defined.
