(* ===== verification/Mappings.v ===== *)
(** * The inputs of the packet identifier tool ([tools/mcproto/jar.go])

    Downloads with their cache on disk, the parser of the name mappings, the
    classification of packet classes and the reading of the server's JAR.  The HTTP
    service, the JSON decoder and the ZIP library are parameters. *)

From S2P Require Export GoStrings.
#[local] Open Scope Z_scope.

(** ** The services *)

Record versionEntry := mkVersion { v_ID : list byte; v_URL : list byte; v_Type : list byte }.
Record versionManifest := mkManifest { m_release : list byte; m_snapshot : list byte; m_versions : list versionEntry }.
Record versionMeta := mkMeta { meta_server : list byte; meta_mappings : option (list byte) }.

(** A response: its status and body, and the error that cuts the body off, if any. *)
Inductive httpResult := HttpError (e : error) | HttpResponse (status : Z) (body : list byte) (cut : option error).

Record zipFile := mkZipFile { zf_name : list byte; zf_dir : bool; zf_data : outcome (list byte) }.

Class Web := {
  Get : list byte → httpResult;
  decode_manifest : list byte → option error → option versionManifest;
  decode_meta : list byte → option error → option versionMeta;
  zip_reader : list byte → option (list zipFile);            (* the entries of an archive *)
  zip_open : list byte → list byte → outcome (list byte);    (* a named file of an archive *)
}.

(** The temporary directory: the files of the cache, and whether new ones can be made. *)
Record Disk := mkDisk { files : gmap (list byte) (list byte); writable : bool }.

Definition manifestURL : list byte := str "https://piston-meta.mojang.com/mc/game/version_manifest_v2.json".

(** The status check and decoding shared by the two JSON requests. *)
Definition get_json {A} (r : httpResult) (decode : list byte → option error → option A) (m1 m2 m3 : string) : outcome A :=
  match r with
  | HttpError _ => Err (ErrOther m1)
  | HttpResponse status body cut =>
      if negb (status =? 200) then Err (ErrOther m2)
      else match decode body cut with Some a => Ret a | None => Err (ErrOther m3) end
  end.

Section web.
Context `{Web}.

Definition fetchManifest : outcome versionManifest :=
  get_json (Get manifestURL) decode_manifest "fetch manifest" "manifest HTTP" "decode manifest".

Fixpoint find_version (vs : list versionEntry) (version : list byte) : outcome versionMeta :=
  match vs with
  | [] => Err (ErrOther "version not found in manifest")
  | v :: vs' =>
      if decide (v_ID v = version)
      then get_json (Get (v_URL v)) decode_meta "fetch version" "version HTTP" "decode version meta"
      else find_version vs' version
  end.

Definition getVersionMeta (manifest : versionManifest) (version : list byte) : outcome versionMeta :=
  find_version (m_versions manifest) version.

(** [downloadFile]: nothing when the file is there; a body that breaks off stays on disk. *)
Definition downloadFile (url path : list byte) : M Disk () :=
  d ← get;
  match files d !! path with
  | Some _ => mret ()
  | None =>
      match Get url with
      | HttpError _ => fail (ErrOther "download")
      | HttpResponse status body cut =>
          if negb (status =? 200) then fail (ErrOther "HTTP")
          else if negb (writable d) then fail (ErrOther "create")
          else
            put (mkDisk (<[path := body]> (files d)) true);;
            match cut with Some e => fail e | None => mret () end
      end
  end.

(** Below [os.TempDir()]. *)
Definition cachePath (name : list byte) : list byte := str "mcproto-cache/" ++ name.

Definition os_ReadFile (path : list byte) : M Disk (list byte) :=
  d ← get; match files d !! path with Some data => mret data | None => fail (ErrOther "no such file") end.

(** ** The mappings *)

(** One turn of the loop of [loadMappings]. *)
Definition map_line (m : gmap (list byte) (list byte)) (line : list byte) : gmap (list byte) (list byte) :=
  match line with
  | [] => m
  | b :: _ =>
      if decide (b = x23) then m
      else if decide (b = x20 ∨ b = x09) then m
      else match Index line (str " -> ") with
           | Some (S i) =>
               let clean := take (S i) line in
               let rest := drop (S i + 4) line in
               if HasSuffix rest (str ":") then <[clean := TrimSuffix rest (str ":")]> m else m
           | _ => m
           end
  end.

(** The error of the scanner is not looked at. *)
Definition parse_mappings (data : list byte) : gmap (list byte) (list byte) := foldl map_line ∅ (Lines data).1.

Definition loadMappings (url : list byte) : M Disk (gmap (list byte) (list byte)) :=
  let cp := cachePath (str "server.txt") in
  downloadFile url cp;;
  data ← os_ReadFile cp;
  mret (parse_mappings data).

(** ** Classification *)

Definition protocolSubpackages : list (list byte) :=
  str <$> ["handshake"; "status"; "login"; "configuration"; "common"; "game"; "ping"].

(** The last part that names a subpackage decides. *)
Definition package_state (parts : list (list byte)) : list byte :=
  foldl (λ state p, if decide (p ∈ protocolSubpackages) then p else state) (str "play") parts.

Definition classifyClean (clean : list byte) : list byte * list byte :=
  let parts := Split clean x2e in
  let state := package_state parts in
  let state := if decide (state = str "common") then str "play" else state in
  let state := if decide (state = str "ping") then str "status" else state in
  let simple := default [] (last parts) in
  let bound :=
    if Contains simple (str "Clientbound") || Contains simple (str "Client") then str "clientbound"
    else if Contains simple (str "Serverbound") || Contains simple (str "Server") then str "serverbound"
    else str "serverbound" in
  (state, bound).

Fixpoint trim_first (s : list byte) (prefixes : list (list byte)) : list byte :=
  match prefixes with
  | [] => s
  | p :: ps => if HasPrefix s p then TrimPrefix s p else trim_first s ps
  end.

Definition extractCleanName (clean : list byte) : list byte :=
  let simple := default [] (last (Split clean x2e)) in
  let cleanName := trim_first simple (str <$> ["Clientbound"; "Serverbound"; "Client"; "Server"]) in
  let cleanName := TrimSuffix cleanName (str "Packet") in
  if decide (cleanName = []) then simple else cleanName.

Record packetInfo := mkInfo { pi_state : list byte; pi_bound : list byte; pi_name : list byte; pi_obf : list byte }.

(** What the body of the loop of [protocolPackets] makes of one entry. *)
Definition packet_of (e : list byte * list byte) : option packetInfo :=
  let '(clean, obf) := e in
  if negb (HasPrefix clean (str "net.minecraft.network.protocol.")) then None
  else if negb (HasSuffix clean (str "Packet")) then None
  else if Contains clean (str "$") then None
  else
    let '(state, bound) := classifyClean clean in
    let name := extractCleanName clean in
    if decide (state = [] ∨ name = []) then None else Some (mkInfo state bound name obf).

(** The loop over the entries in the order [es], which Go leaves open. *)
Definition protocolPackets (es : list (list byte * list byte)) : gmap (list byte) packetInfo :=
  foldl (λ result e, match packet_of e with Some pi => <[e.2 := pi]> result | None => result end) ∅ es.

(** ** The JAR *)

Definition downloadJar (url version : list byte) : M Disk (list byte) :=
  let cp := cachePath (str "server-" ++ version ++ str ".jar") in
  downloadFile url cp;; mret cp.

Record jarEntry := mkJar { j_name : list byte; j_data : list byte }.

(** Directories and files that cannot be read are left out. *)
Definition readZip (fs : list zipFile) : list jarEntry :=
  omap (λ f, if zf_dir f then None else match zf_data f with Ret d => Some (mkJar (zf_name f) d) | _ => None end) fs.

Definition is_nested (f : zipFile) : bool :=
  HasPrefix (zf_name f) (str "META-INF/versions/") && HasSuffix (zf_name f) (str ".jar") && negb (zf_dir f).

Definition readJar (path : list byte) : M Disk (list jarEntry) :=
  d ← get;
  match files d !! path with
  | None => fail (ErrOther "open JAR")
  | Some data =>
      match zip_reader data with
      | None => fail (ErrOther "open JAR")
      | Some fs =>
          match list_find (λ f, is_nested f = true) fs with
          | Some (_, f) =>
              match zip_open data (zf_name f) with
              | Ret nested =>
                  match zip_reader nested with
                  | Some nfs => mret (readZip nfs)
                  | None => fail (ErrOther "parse nested JAR")
                  end
              | _ => fail (ErrOther "open nested JAR")
              end
          | None => mret (readZip fs)
          end
      end
  end.
End web.

(** ** Reference: a mappings file *)

(** Its lines: comments, empty lines, members of a class (indented), classes. *)
Inductive map_entry :=
| MComment (t : list byte) | MBlank | MMember (t : list byte) | MClass (clean obf : list byte).

Definition render (e : map_entry) : list byte :=
  match e with
  | MComment t => x23 :: t
  | MBlank => []
  | MMember t => x20 :: t
  | MClass clean obf => clean ++ str " -> " ++ obf ++ str ":"
  end.

(** Class names have no blanks and start with neither a tab nor a comment sign. *)
Definition entry_ok (e : map_entry) : Prop :=
  line_ok (render e) ∧ match e with MClass clean _ => clean ≠ [] ∧ (x20 ∉ clean) ∧ head clean ≠ Some x09 ∧ head clean ≠ Some x23 | _ => True end.

#[export] Instance entry_ok_dec e : Decision (entry_ok e).
Proof. unfold entry_ok, line_ok. destruct e; apply _. Defined.

Definition classes (es : list map_entry) : list (list byte * list byte) :=
  omap (λ e, match e with MClass clean obf => Some (clean, obf) | _ => None end) es.

Definition mapping_text (es : list map_entry) : list byte := unlines (render <$> es).

(** ** Lemmas *)

Lemma map_line_class m clean obf :
  entry_ok (MClass clean obf) → map_line m (render (MClass clean obf)) = <[clean := obf]> m.
Proof.
  intros [_ (Hne&Hsp&Htab&Hhash)]. cbn [render]. destruct clean as [|b clean]; [done|].
  apply not_elem_of_cons in Hsp as [Hb Hsp]. unfold map_line. cbn [app].
  rewrite decide_False by (intros ->; done). rewrite decide_False by (intros [-> | ->]; done).
  change (b :: clean ++ str " -> " ++ obf ++ str ":") with ((b :: clean) ++ str " -> " ++ obf ++ str ":").
  assert (E : Index ((b :: clean) ++ str " -> " ++ obf ++ str ":") (str " -> ") = Some (S (length clean))).
  { apply (Index_skip (b :: clean) x20 (str "-> ")). by apply not_elem_of_cons. }
  rewrite E. cbv zeta. rewrite (take_app_exact (b :: clean)) by done.
  rewrite app_assoc, (drop_app_exact ((b :: clean) ++ str " -> ")) by (rewrite length_app; simpl; lia).
  by rewrite HasSuffix_app, TrimSuffix_app.
Qed.

Lemma map_line_entry m e :
  entry_ok e → map_line m (render e) = match e with MClass clean obf => <[clean := obf]> m | _ => m end.
Proof. destruct e as [t| |t|clean obf]; [done..|]. apply map_line_class. Qed.

Lemma fold_entries es : ∀ m, Forall entry_ok es →
  foldl map_line m (render <$> es) = foldl (λ m e, <[e.1 := e.2]> m) m (classes es).
Proof.
  induction es as [|e es IH]; intros m Hok; [done|]. apply Forall_cons_1 in Hok as [He Hok].
  rewrite fmap_cons. cbn [foldl]. rewrite map_line_entry, IH by done. by destruct e.
Qed.

Lemma fold_insert {V} (l : list (list byte * V)) :
  foldl (λ (m : gmap (list byte) V) e, <[e.1 := e.2]> m) ∅ l = list_to_map (reverse l).
Proof.
  induction l as [|[k v] l IH] using rev_ind; [done|]. rewrite foldl_app, reverse_snoc. cbn [foldl list_to_map foldr fst snd].
  unfold list_to_map in *. cbn [foldr]. by rewrite IH.
Qed.

Lemma fold_insert_lookup {V} (l : list (list byte * V)) k v :
  NoDup l.*1 → foldl (λ (m : gmap (list byte) V) e, <[e.1 := e.2]> m) ∅ l !! k = Some v ↔ (k, v) ∈ l.
Proof.
  intros Hn. rewrite fold_insert, <- elem_of_list_to_map.
  - apply elem_of_reverse.
  - by rewrite fmap_reverse, reverse_Permutation.
Qed.

Lemma parse_mapping_text es :
  Forall entry_ok es → parse_mappings (mapping_text es) = foldl (λ m e, <[e.1 := e.2]> m) ∅ (classes es).
Proof.
  intros Hok. unfold parse_mappings, mapping_text. rewrite Lines_unlines; [by apply fold_entries|].
  apply Forall_fmap. eapply Forall_impl; [exact Hok|]. by intros e [? _].
Qed.

Lemma downloadFile_fresh `{Web} url path d body :
  files d !! path = None → writable d = true → Get url = HttpResponse 200 body None →
  downloadFile url path d = (Ret (), mkDisk (<[path := body]> (files d)) true).
Proof. intros Hn Hw Hg. unfold downloadFile. rewrite get_bind, Hn, Hg, Hw. done. Qed.

Lemma downloadFile_cached `{Web} url path d data : files d !! path = Some data → downloadFile url path d = (Ret (), d).
Proof. intros Hd. unfold downloadFile. by rewrite get_bind, Hd. Qed.

Lemma loadMappings_cached `{Web} url d data :
  files d !! cachePath (str "server.txt") = Some data → loadMappings url d = (Ret (parse_mappings data), d).
Proof.
  intros Hd. unfold loadMappings. rewrite (bind_ret _ _ _ _ _ (downloadFile_cached _ _ _ _ Hd)).
  unfold os_ReadFile. rewrite bind_assoc, get_bind, Hd. done.
Qed.

Lemma loadMappings_fresh `{Web} url d body :
  files d !! cachePath (str "server.txt") = None → writable d = true → Get url = HttpResponse 200 body None →
  loadMappings url d = (Ret (parse_mappings body), mkDisk (<[cachePath (str "server.txt") := body]> (files d)) true).
Proof.
  intros Hn Hw Hg. unfold loadMappings. rewrite (bind_ret _ _ _ _ _ (downloadFile_fresh _ _ _ _ Hn Hw Hg)).
  unfold os_ReadFile. rewrite bind_assoc, get_bind. cbn [files]. by rewrite lookup_insert_eq.
Qed.

(** The accepted entries. *)
Definition accepted (es : list (list byte * list byte)) : list (list byte * packetInfo) :=
  omap (λ e, (λ pi, (e.2, pi)) <$> packet_of e) es.

Lemma protocolPackets_fold es : protocolPackets es = foldl (λ m e, <[e.1 := e.2]> m) ∅ (accepted es).
Proof.
  unfold protocolPackets, accepted. generalize (∅ : gmap (list byte) packetInfo).
  induction es as [|e es IH]; intros m; [done|]. cbn [foldl omap list_omap]. rewrite IH. by destruct (packet_of e).
Qed.

(** The bytes of the names in this file. *)
Lemma package_parts sub simple :
  sub ∈ protocolSubpackages → x2e ∉ simple →
  Split (str "net.minecraft.network.protocol." ++ sub ++ str "." ++ simple) x2e
  = [str "net"; str "minecraft"; str "network"; str "protocol"; sub; simple].
Proof.
  intros Hsub Hdot.
  assert (Hs : x2e ∉ sub).
  { assert (Forall (λ s, x2e ∉ s) protocolSubpackages) as Hall by (apply (bool_decide_eq_true_1 _); by vm_compute).
    by rewrite Forall_forall in Hall; apply Hall. }
  assert (E : ∀ r, Split (str "net.minecraft.network.protocol." ++ r) x2e = [str "net"; str "minecraft"; str "network"; str "protocol"] ++ Split r x2e) by done.
  rewrite E. change (str "." ++ simple) with (x2e :: simple). rewrite Split_app by done. by rewrite Split_none.
Qed.

Lemma Serverbound_Contains r p : Contains (str "Serverbound" ++ r) (x43 :: p) = Contains r (x43 :: p).
Proof. change (str "Serverbound") with [x53; x65; x72; x76; x65; x72; x62; x6f; x75; x6e; x64]. cbn [app]. by rewrite !Contains_head. Qed.

Lemma Clientbound_Contains r : Contains (str "Clientbound" ++ r) (str "Clientbound") = true.
Proof. apply Contains_prefix. Qed.

(** The state of the packets of a subpackage. *)
Definition state_of (sub : list byte) : list byte :=
  if decide (sub = str "common") then str "play" else if decide (sub = str "ping") then str "status" else sub.

Lemma package_state_last ps sub simple :
  sub ∈ protocolSubpackages → simple ∉ protocolSubpackages → package_state (ps ++ [sub; simple]) = sub.
Proof.
  intros Hsub Hno. unfold package_state. rewrite foldl_app. generalize (foldl (λ state p, if decide (p ∈ protocolSubpackages) then p else state) (str "play") ps).
  intros st. cbn [foldl]. by rewrite decide_False, decide_True.
Qed.

Lemma classify_state sub simple :
  sub ∈ protocolSubpackages → x2e ∉ simple → simple ∉ protocolSubpackages →
  (classifyClean (str "net.minecraft.network.protocol." ++ sub ++ str "." ++ simple)).1 = state_of sub.
Proof.
  intros Hsub Hdot Hno. unfold classifyClean. rewrite package_parts by done. cbn [fst].
  pose proof (package_state_last [str "net"; str "minecraft"; str "network"; str "protocol"] sub simple Hsub Hno) as E.
  cbn [app] in E. rewrite E.
  unfold state_of. destruct (decide (sub = str "common")); [|done]. by rewrite decide_False.
Qed.

(** The full name of a packet class. *)
Definition packet_class (sub : list byte) (clientbound : bool) (name : list byte) : list byte :=
  str "net.minecraft.network.protocol." ++ sub ++ str "."
  ++ str (if clientbound then "Clientbound" else "Serverbound") ++ name ++ str "Packet".

Definition simple_name (clientbound : bool) (name : list byte) : list byte :=
  str (if clientbound then "Clientbound" else "Serverbound") ++ name ++ str "Packet".

(** A byte that does not occur in the fixed parts. *)
Lemma simple_name_no cb name c :
  c ∉ name → c ∉ str "ClientboundServerboundPacket" → c ∉ simple_name cb name.
Proof.
  intros Hn Hc. unfold simple_name. rewrite !elem_of_app. intros [Hp|[?|Hp]]; [|done|];
    apply Hc; change (str "ClientboundServerboundPacket") with (str "Clientbound" ++ str "Serverbound" ++ str "Packet");
    rewrite !elem_of_app; destruct cb; auto.
Qed.

Lemma simple_not_package cb name : simple_name cb name ∉ protocolSubpackages.
Proof.
  intros Hin. assert (Forall (λ s, HasSuffix s (str "Packet") = false) protocolSubpackages) as Hall by (by vm_compute; repeat constructor).
  rewrite Forall_forall in Hall. specialize (Hall _ Hin). unfold simple_name in Hall. by rewrite app_assoc, HasSuffix_app in Hall.
Qed.

Lemma packet_class_dollar sub cb name :
  sub ∈ protocolSubpackages → x24 ∉ name → Contains (packet_class sub cb name) (str "$") = false.
Proof.
  intros Hsub Hn. unfold Contains. change (str "$") with [x24]. rewrite Index_none; [done|].
  unfold packet_class. change (str (if cb then _ else _) ++ name ++ str "Packet") with (simple_name cb name).
  assert (Forall (λ s, x24 ∉ s) protocolSubpackages) as Hall by (apply (bool_decide_eq_true_1 _); by vm_compute).
  rewrite Forall_forall in Hall. rewrite !elem_of_app. intros [Hx|[Hx|[Hx|Hx]]].
  - by revert Hx; apply (bool_decide_eq_true_1 _); vm_compute.
  - by apply (Hall sub).
  - by revert Hx; apply (bool_decide_eq_true_1 _); vm_compute.
  - revert Hx. apply simple_name_no; [done|]. apply (bool_decide_eq_true_1 _). by vm_compute.
Qed.

Lemma clean_name sub cb name :
  sub ∈ protocolSubpackages → name ≠ [] → x2e ∉ simple_name cb name → extractCleanName (packet_class sub cb name) = name.
Proof.
  intros Hsub Hne Hdot. unfold extractCleanName, packet_class.
  change (str (if cb then _ else _) ++ name ++ str "Packet") with (simple_name cb name). rewrite package_parts by done.
  change (default [] (last [str "net"; str "minecraft"; str "network"; str "protocol"; sub; simple_name cb name])) with (simple_name cb name).
  assert (E : trim_first (simple_name cb name) (str <$> ["Clientbound"; "Serverbound"; "Client"; "Server"]) = name ++ str "Packet").
  { unfold simple_name. destruct cb; cbn [fmap list_fmap trim_first].
    - by rewrite HasPrefix_app, TrimPrefix_app.
    - assert (Hf : HasPrefix (str "Serverbound" ++ name ++ str "Packet") (str "Clientbound") = false) by (by apply (HasPrefix_head x53 _ x43)).
      by rewrite Hf, HasPrefix_app, TrimPrefix_app. }
  rewrite E, TrimSuffix_app. by rewrite decide_False.
Qed.

Lemma class_bound sub cb name :
  sub ∈ protocolSubpackages → x2e ∉ simple_name cb name →
  (classifyClean (packet_class sub cb name)).2
  = str (if cb || Contains (name ++ str "Packet") (str "Client") then "clientbound" else "serverbound").
Proof.
  intros Hsub Hdot. unfold classifyClean, packet_class.
  change (str (if cb then _ else _) ++ name ++ str "Packet") with (simple_name cb name). rewrite package_parts by done.
  change (default [] (last [str "net"; str "minecraft"; str "network"; str "protocol"; sub; simple_name cb name])) with (simple_name cb name).
  cbn [snd]. unfold simple_name. destruct cb; [by rewrite Clientbound_Contains|]. cbn [orb].
  set (r := name ++ str "Packet"). change (str "Clientbound") with (x43 :: str "lientbound").
  change (str "Client") with (x43 :: str "lient"). rewrite !Serverbound_Contains.
  change (x43 :: str "lientbound") with (str "Client" ++ str "bound"). change (x43 :: str "lient") with (str "Client").
  destruct (Contains r (str "Client" ++ str "bound")) eqn:E.
  - by rewrite (Contains_weaken _ _ _ E).
  - cbn [orb]. destruct (Contains r (str "Client")); [done|]. by destruct (_ || _).
Qed.

(** ** The properties of the component *)

(** C38. The mappings file: whatever comments, blank lines and members it interleaves, loading
    it over an empty cache gives exactly the map from class names to obfuscated names,
    and keeps the file on disk. *)
Theorem mappings_loaded `{Web} es url d :
  Forall entry_ok es → NoDup (classes es).*1 →
  files d !! cachePath (str "server.txt") = None → writable d = true →
  Get url = HttpResponse 200 (mapping_text es) None →
  ∃ m d', loadMappings url d = (Ret m, d') ∧ files d' !! cachePath (str "server.txt") = Some (mapping_text es)
    ∧ ∀ clean obf, m !! clean = Some obf ↔ (clean, obf) ∈ classes es.
Proof.
  intros Hok Hn Hf Hw Hg. eexists _, _. split; [by apply loadMappings_fresh|]. cbn [files]. rewrite lookup_insert_eq.
  split; [done|]. intros clean obf. rewrite parse_mapping_text by done. by apply fold_insert_lookup.
Qed.

(** A service with one page, for the witnesses. *)
Definition one_page (page : list byte) : Web := {|
  Get _ := HttpResponse 200 page None; decode_manifest _ _ := None; decode_meta _ _ := None;
  zip_reader _ := None; zip_open _ _ := Err (ErrOther "no archive") |}.

Definition demo_mappings : list map_entry :=
  [MComment (str " (c) mappings"); MClass (str "net.minecraft.A") (str "a"); MMember (str "   int x -> a"); MBlank;
   MClass (str "net.minecraft.network.protocol.login.ClientboundHelloPacket") (str "abc")].

Lemma demo_mappings_ok : Forall entry_ok demo_mappings.
Proof. apply (bool_decide_eq_true_1 _). by vm_compute. Qed.

Lemma mappings_loaded_witness :
  ∃ m d', loadMappings (H := one_page (mapping_text demo_mappings)) (str "url") (mkDisk ∅ true) = (Ret m, d')
    ∧ m !! str "net.minecraft.A" = Some (str "a").
Proof.
  destruct (mappings_loaded (H := one_page (mapping_text demo_mappings)) demo_mappings (str "url") (mkDisk ∅ true))
    as (m&d'&H1&_&H2).
  - exact demo_mappings_ok.
  - apply (bool_decide_eq_true_1 _). vm_compute. reflexivity.
  - reflexivity.
  - reflexivity.
  - reflexivity.
  - exists m, d'. split; [exact H1|]. apply H2. apply (bool_decide_eq_true_1 _). vm_compute. reflexivity.
Defined.

(** A line longer than the scanner's buffer ends the parsing without an error: what follows
    it is missing from the map. *)
Theorem mappings_cut_off es long rest :
  Forall entry_ok es → x0a ∉ long → (MaxScanTokenSize ≤ length long)%nat →
  parse_mappings (mapping_text es ++ long ++ rest) = parse_mappings (mapping_text es).
Proof.
  intros Hok Hn Hl. unfold parse_mappings, mapping_text. 
  assert (Hls : Forall line_ok (render <$> es)) by (apply Forall_fmap; eapply Forall_impl; [exact Hok|]; by intros e [? _]).
  rewrite Lines_unlines by done. unfold Lines. rewrite scan_too_long by (done || (rewrite length_app; lia)). done.
Qed.

(** The cache has one file for the mappings of all versions: once one version's are there,
    every other version gets them; a download that breaks off stays as well, and the
    next run takes the part for the whole. *)
Theorem mappings_cached `{Web} url1 url2 d body cut :
  files d !! cachePath (str "server.txt") = None → writable d = true → Get url1 = HttpResponse 200 body cut →
  ∃ o d', loadMappings url1 d = (o, d') ∧ o = match cut with Some e => Err e | None => Ret (parse_mappings body) end
    ∧ loadMappings url2 d' = (Ret (parse_mappings body), d').
Proof.
  intros Hn Hw Hg. set (d' := mkDisk (<[cachePath (str "server.txt") := body]> (files d)) true).
  assert (Hc : loadMappings url2 d' = (Ret (parse_mappings body), d')).
  { apply loadMappings_cached. cbn [files d']. by rewrite lookup_insert_eq. }
  destruct cut as [e|]; eexists _, d'; (split; [|by split]).
  - unfold loadMappings. apply bind_err. unfold downloadFile. rewrite get_bind, Hn, Hg, Hw. done.
  - by apply loadMappings_fresh.
Qed.

(** The classification of a packet class with a directional prefix: its state is the
    subpackage (with [common] as [play] and [ping] as [status]), its name is what is
    left without prefix and suffix, and a clientbound class is clientbound; a
    serverbound one is so exactly when [Client] does not occur in its name. *)
Theorem packet_classified sub name obf cb :
  sub ∈ protocolSubpackages → name ≠ [] → x2e ∉ name → x24 ∉ name →
  packet_of (packet_class sub cb name, obf)
  = Some (mkInfo (state_of sub)
      (str (if cb || Contains (name ++ str "Packet") (str "Client") then "clientbound" else "serverbound")) name obf).
Proof.
  intros Hsub Hne Hdot Hdol. assert (Hs : x2e ∉ simple_name cb name).
  { apply simple_name_no; [done|]. apply (bool_decide_eq_true_1 _). by vm_compute. }
  assert (Hsuf : HasSuffix (packet_class sub cb name) (str "Packet") = true).
  { unfold packet_class. rewrite !(app_assoc _ _ (str "Packet")). apply HasSuffix_app. }
  pose proof (classify_state sub (simple_name cb name) Hsub Hs (simple_not_package cb name)) as H1.
  change (str "net.minecraft.network.protocol." ++ sub ++ str "." ++ simple_name cb name) with (packet_class sub cb name) in H1.
  pose proof (class_bound sub cb name Hsub Hs) as H2.
  pose proof (HasPrefix_app (str "net.minecraft.network.protocol.") (sub ++ str "." ++ simple_name cb name)) as Hpre.
  change (str "net.minecraft.network.protocol." ++ sub ++ str "." ++ simple_name cb name) with (packet_class sub cb name) in Hpre.
  unfold packet_of. rewrite Hpre, Hsuf, packet_class_dollar by done. cbn [negb].
  destruct (classifyClean _) as [st bd]. cbn [fst snd] in H1, H2. subst st bd. rewrite clean_name by done.
  rewrite decide_False; [done|]. intros [Hst|?]; [|done]. revert Hst. unfold state_of.
  repeat case_decide; [done|done|]. intros ->. revert Hsub. apply (bool_decide_eq_true_1 _). by vm_compute.
Qed.

Lemma packet_classified_witness :
  packet_of (str "net.minecraft.network.protocol.common.ServerboundClientInformationPacket", str "xy")
  = Some (mkInfo (str "play") (str "clientbound") (str "ClientInformation") (str "xy")).
Proof.
  exact (packet_classified (str "common") (str "ClientInformation") (str "xy") false
    ltac:(apply (bool_decide_eq_true_1 _); vm_compute; reflexivity) ltac:(done)
    ltac:(apply (bool_decide_eq_true_1 _); vm_compute; reflexivity) ltac:(apply (bool_decide_eq_true_1 _); vm_compute; reflexivity)).
Defined.

(** The order in which Go walks the map of classes does not matter: as long as no two
    packet classes have the same obfuscated name, the table of packets has exactly the
    packets of the accepted classes, in every order. *)
Theorem packets_any_order es es' :
  es ≡ₚ es' → NoDup (accepted es).*1 →
  protocolPackets es = protocolPackets es'
  ∧ ∀ obf pi, protocolPackets es !! obf = Some pi ↔ ∃ clean, (clean, obf) ∈ es ∧ packet_of (clean, obf) = Some pi.
Proof.
  intros Hp Hn. assert (Hl : ∀ l obf pi, NoDup (accepted l).*1 →
    protocolPackets l !! obf = Some pi ↔ ∃ clean, (clean, obf) ∈ l ∧ packet_of (clean, obf) = Some pi).
  { intros l obf pi Hl. rewrite protocolPackets_fold, fold_insert_lookup by done. unfold accepted. rewrite list_elem_of_omap. split.
    - intros ([c o]&Hin&Hs). destruct (packet_of (c, o)) eqn:E; [|done]. injection Hs as <- <-. by exists c.
    - intros (c&Hin&Hs). exists (c, obf). split; [done|]. by rewrite Hs. }
  split; [|intros; by apply Hl]. apply map_eq. intros obf. apply option_eq. intros pi.
  assert (Hn' : NoDup (accepted es').*1).
  { unfold accepted in *. by rewrite <- Hp. }
  rewrite !Hl by done. by setoid_rewrite Hp.
Qed.

Lemma packets_any_order_witness :
  let es := classes demo_mappings in
  protocolPackets es = protocolPackets (reverse es)
  ∧ protocolPackets es !! str "abc" = Some (mkInfo (str "login") (str "clientbound") (str "Hello") (str "abc")).
Proof.
  intros es. destruct (packets_any_order es (reverse es)) as [H1 H2].
  - by rewrite reverse_Permutation.
  - apply (bool_decide_eq_true_1 _). vm_compute. reflexivity.
  - split; [exact H1|]. apply H2. eexists (str "net.minecraft.network.protocol.login.ClientboundHelloPacket").
    split; [|reflexivity]. apply (bool_decide_eq_true_1 _). vm_compute. reflexivity.
Defined.
