(* ===== verification/Extract.v ===== *)
(** * The packet identifier tool ([tools/mcproto/extract.go], [main.go], [fallback.go])

    Extraction of packet identifiers from the classes of the server, the built-in
    definitions, and the generation of the Go file of constants, with the file that is
    checked in ([protocol/packetid/v1_21_4/types.go]).  The order in which Go walks a
    map is a parameter. *)

From stdpp Require Import sorting.
From S2P Require Export Mappings ClassFile.
#[local] Open Scope Z_scope.

(** ** Data *)

Record PacketDef := mkDef { pd_Name : list byte; pd_ID : Z; pd_State : list byte; pd_Bound : list byte }.

#[export] Instance PacketDef_eq_dec : EqDecision PacketDef.
Proof. solve_decision. Defined.

(** Some order for every map. *)
Class MapOrder := {
  walk {V : Type} : gmap (list byte) V → list (list byte * V);
  walk_perm {V : Type} (m : gmap (list byte) V) : walk m ≡ₚ map_to_list m;
}.

(** ** [sort.Slice] with the order of [extractPacketIDs] *)

(** Go compares strings byte by byte. *)
Fixpoint str_cmp (a b : list byte) : comparison :=
  match a, b with
  | [], [] => Eq
  | [], _ => Lt
  | _, [] => Gt
  | x :: a', y :: b' => match (ubyte x ?= ubyte y) with Eq => str_cmp a' b' | c => c end
  end.

Definition str_ltb (a b : list byte) : bool := match str_cmp a b with Lt => true | _ => false end.

Definition less (x y : PacketDef) : bool :=
  if negb (bool_decide (pd_State x = pd_State y)) then str_ltb (pd_State x) (pd_State y)
  else if negb (bool_decide (pd_Bound x = pd_Bound y)) then str_ltb (pd_Bound x) (pd_Bound y)
  else pd_ID x <? pd_ID y.

Definition not_after (x y : PacketDef) : Prop := less y x = false.

#[export] Instance not_after_dec x y : Decision (not_after x y).
Proof. unfold not_after. apply _. Defined.

(** A stable sort; the order of equal elements is not specified by Go. *)
Definition sort_Slice (l : list PacketDef) : list PacketDef := merge_sort not_after l.

(** ** [extractPacketIDs] *)

(** The class files by obfuscated name. *)
Definition dataByObf (entries : list jarEntry) : gmap (list byte) (list byte) :=
  foldl (λ m e, if HasSuffix (j_name e) (str ".class") then <[TrimSuffix (j_name e) (str ".class") := j_data e]> m else m)
    ∅ entries.

Definition packet_key (pi : packetInfo) : list byte :=
  pi_state pi ++ str "/" ++ pi_bound pi ++ str "/" ++ pi_name pi.

Section extract.
Context `{Web} `{MapOrder}.

(** What lies in memory behind the bytes of a class file. *)
Variable spare : list byte → list byte.

(** One turn of the loop over the packets. *)
Definition extract_step (classes : gmap (list byte) (list byte)) (obf : list byte) (pi : packetInfo)
    (acc : gset (list byte) * list PacketDef) : outcome (gset (list byte) * list PacketDef) :=
  let '(seen, found) := acc in
  match classes !! obf with
  | None => Ret acc
  | Some data =>
      match parseClass data (spare data) with
      | Ret jc =>
          let id := pickPacketID (integerConstants jc) in
          if id =? -1 then Ret acc
          else if decide (packet_key pi ∈ seen) then Ret acc
          else Ret ({[packet_key pi]} ∪ seen, found ++ [mkDef (pi_name pi) id (pi_state pi) (pi_bound pi)])
      | Err _ => Ret acc
      | Panic p => Panic p
      | Block => Block
      end
  end.

Fixpoint extract_loop (classes : gmap (list byte) (list byte)) (ps : list (list byte * packetInfo))
    (acc : gset (list byte) * list PacketDef) : outcome (gset (list byte) * list PacketDef) :=
  match ps with
  | [] => Ret acc
  | (obf, pi) :: ps' => acc ← extract_step classes obf pi acc; extract_loop classes ps' acc
  end.

Definition extractPacketIDs (version : list byte) : M Disk (list PacketDef) :=
  manifest ← liftO fetchManifest;
  meta ← liftO (getVersionMeta manifest version);
  match meta_mappings meta with
  | None | Some [] => fail (ErrOther "version has no server_mappings")
  | Some url =>
      mappings ← loadMappings url;
      let packets := protocolPackets (walk mappings) in
      if decide (packets = ∅) then fail (ErrOther "no protocol packets found in mappings")
      else
        jarPath ← downloadJar (meta_server meta) version;
        entries ← readJar jarPath;
        '(_, found) ← liftO (extract_loop (dataByObf entries) (walk packets) (∅, []));
        match found with
        | [] => fail (ErrOther "no packet IDs extracted from JAR classes")
        | _ => mret (sort_Slice found)
        end
  end.

(** ** The definitions *)

Definition fallbackDefinitions : list PacketDef :=
  (λ '(n, id, s, b), mkDef (str n) id (str s) (str b)) <$>
  [("Handshake", 0x00, "handshake", "serverbound");
   ("StatusRequest", 0x00, "status", "serverbound");
   ("StatusPing", 0x01, "status", "serverbound");
   ("StatusResponse", 0x00, "status", "clientbound");
   ("StatusPong", 0x01, "status", "clientbound");
   ("LoginStart", 0x00, "login", "serverbound");
   ("EncryptionResponse", 0x01, "login", "serverbound");
   ("LoginPluginResponse", 0x02, "login", "serverbound");
   ("LoginDisconnect", 0x00, "login", "clientbound");
   ("LoginSuccess", 0x02, "login", "clientbound");
   ("SetCompression", 0x03, "login", "clientbound");
   ("LoginPluginRequest", 0x04, "login", "clientbound");
   ("ConfigAck", 0x00, "configuration", "serverbound");
   ("ConfigPluginResponse", 0x01, "configuration", "serverbound");
   ("ConfigPluginRequest", 0x00, "configuration", "clientbound");
   ("ConfigDisconnect", 0x01, "configuration", "clientbound");
   ("FinishConfiguration", 0x02, "configuration", "clientbound");
   ("ConfigKeepAlive", 0x03, "configuration", "clientbound");
   ("ConfigSyncData", 0x04, "configuration", "clientbound");
   ("KeepAlive", 0x18, "play", "serverbound");
   ("ChatMessage", 0x05, "play", "serverbound");
   ("PlayerPosition", 0x1a, "play", "serverbound");
   ("PlayerPositionRotation", 0x1b, "play", "serverbound");
   ("PlayerRotation", 0x1c, "play", "serverbound");
   ("PlayerMovement", 0x1d, "play", "serverbound");
   ("ClientCommand", 0x07, "play", "serverbound");
   ("PluginMessage", 0x11, "play", "serverbound");
   ("KeepAlive", 0x26, "play", "clientbound");
   ("JoinGame", 0x2e, "play", "clientbound");
   ("ChatMessage", 0x37, "play", "clientbound");
   ("SystemChat", 0x66, "play", "clientbound");
   ("Disconnect", 0x1d, "play", "clientbound");
   ("PluginMessage", 0x25, "play", "clientbound");
   ("ServerData", 0x47, "play", "clientbound");
   ("Respawn", 0x44, "play", "clientbound");
   ("ChunkData", 0x24, "play", "clientbound");
   ("ChunkDataUpdate", 0x5b, "play", "clientbound");
   ("BlockUpdate", 0x0a, "play", "clientbound");
   ("PlayerInfo", 0x3d, "play", "clientbound");
   ("PlayerInfoRemove", 0x42, "play", "clientbound");
   ("SynchronizePosition", 0x40, "play", "clientbound");
   ("UpdateRecipes", 0x7e, "play", "clientbound")].

Definition getDefinitions (version : list byte) : M Disk (list PacketDef) :=
  x ← attempt (extractPacketIDs version);
  match x with
  | inr _ => mret fallbackDefinitions
  | inl [] => mret fallbackDefinitions
  | inl packets => mret packets
  end.

(** ** [generate] *)

Definition add_group (groups : gmap (list byte) (list PacketDef)) (p : PacketDef) : gmap (list byte) (list PacketDef) :=
  let key := pd_State p ++ str "_" ++ pd_Bound p in
  <[key := default [] (groups !! key) ++ [p]]> groups.

Definition group_all (packets : list PacketDef) : gmap (list byte) (list PacketDef) := foldl add_group ∅ packets.

(** [d.Bound[:1] + d.Name]; an empty [Bound] panics. *)
Definition constName (d : PacketDef) : outcome (list byte) :=
  match pd_Bound d with [] => Panic SliceOutOfRange | b :: _ => Ret (b :: pd_Name d) end.

Fixpoint const_lines (defs : list PacketDef) : outcome (list byte) :=
  match defs with
  | [] => Ret []
  | d :: ds =>
      name ← constName d;
      rest ← const_lines ds;
      Ret ([x09] ++ name ++ str " PacketID = 0x" ++ fmt_02X (pd_ID d) ++ [x0a] ++ rest)
  end.

Fixpoint group_lines (gs : list (list byte * list PacketDef)) : outcome (list byte) :=
  match gs with
  | [] => Ret []
  | (key, defs) :: gs' =>
      ls ← const_lines defs;
      rest ← group_lines gs';
      Ret ([x09] ++ str "// " ++ key ++ [x0a] ++ ls ++ [x0a] ++ rest)
  end.

Definition nl : list byte := [x0a].

(** The text of the file for the groups in the order [gs]. *)
Definition generate_text (gs : list (list byte * list PacketDef)) (version : list byte) : outcome (list byte) :=
  let pkgName := str "v" ++ ReplaceAll version x2e x5f in
  let pkgName := ReplaceAll pkgName x2d x5f in
  body ← group_lines gs;
  Ret (str "// Package " ++ pkgName ++ str " - Auto-generated packet IDs for Minecraft " ++ version ++ nl
       ++ str "// Code generated by tools/mcproto; DO NOT EDIT." ++ nl ++ nl
       ++ str "package " ++ pkgName ++ nl ++ nl
       ++ str "const (" ++ nl ++ body ++ str ")" ++ nl ++ nl ++ str "type PacketID int32" ++ nl).

(** [generate]: a file that cannot be written ends the program. *)
Definition generate (packets : list PacketDef) (version output : list byte) : M Disk () :=
  text ← liftO (generate_text (walk (group_all packets)) version);
  d ← get;
  if writable d then put (mkDisk (<[output := text]> (files d)) true) else fail (ErrOther "exit status 1").

(** [main]: the output defaults to the package of the version. *)
Definition output_path (version output : list byte) : list byte :=
  match output with
  | [] => str "../../protocol/packetid/v" ++ ReplaceAll version x2e x5f ++ str "/types.go"
  | _ => output
  end.

Definition mcproto_main (version output : list byte) : M Disk () :=
  packets ← getDefinitions version;
  generate packets version (output_path version output).
End extract.

(** The checked-in file. *)
Definition types_go : list byte := str
"// Package v1_21_4 - Auto-generated packet IDs for Minecraft 1.21.4
// Code generated by tools/mcproto; DO NOT EDIT.

package v1_21_4

const (
	// handshake_serverbound
	sHandshake PacketID = 0x00

	// status_serverbound
	sStatusRequest PacketID = 0x00
	sStatusPing PacketID = 0x01

	// status_clientbound
	cStatusResponse PacketID = 0x00
	cStatusPong PacketID = 0x01

	// configuration_serverbound
	sConfigAck PacketID = 0x00
	sConfigPluginResponse PacketID = 0x01

	// configuration_clientbound
	cConfigPluginRequest PacketID = 0x00
	cConfigDisconnect PacketID = 0x01
	cFinishConfiguration PacketID = 0x02
	cConfigKeepAlive PacketID = 0x03
	cConfigSyncData PacketID = 0x04

	// login_serverbound
	sLoginStart PacketID = 0x00
	sEncryptionResponse PacketID = 0x01
	sLoginPluginResponse PacketID = 0x02

	// login_clientbound
	cLoginDisconnect PacketID = 0x00
	cLoginSuccess PacketID = 0x02
	cSetCompression PacketID = 0x03
	cLoginPluginRequest PacketID = 0x04

	// play_serverbound
	sKeepAlive PacketID = 0x18
	sChatMessage PacketID = 0x05
	sPlayerPosition PacketID = 0x1A
	sPlayerPositionRotation PacketID = 0x1B
	sPlayerRotation PacketID = 0x1C
	sPlayerMovement PacketID = 0x1D
	sClientCommand PacketID = 0x07
	sPluginMessage PacketID = 0x11

	// play_clientbound
	cKeepAlive PacketID = 0x26
	cJoinGame PacketID = 0x2E
	cChatMessage PacketID = 0x37
	cSystemChat PacketID = 0x66
	cDisconnect PacketID = 0x1D
	cPluginMessage PacketID = 0x25
	cServerData PacketID = 0x47
	cRespawn PacketID = 0x44
	cChunkData PacketID = 0x24
	cChunkDataUpdate PacketID = 0x5B
	cBlockUpdate PacketID = 0x0A
	cPlayerInfo PacketID = 0x3D
	cPlayerInfoRemove PacketID = 0x42
	cSynchronizePosition PacketID = 0x40
	cUpdateRecipes PacketID = 0x7E

)

type PacketID int32
".

(** ** Reference: the order of the definitions, and what the jar says of a packet *)

(** Dictionary order of strings of bytes: a proper prefix comes first, else the first byte
    in which they differ decides. *)
Definition str_before (a b : list byte) : Prop :=
  (∃ y c, b = a ++ y :: c)
  ∨ ∃ p x y a' b', a = p ++ x :: a' ∧ b = p ++ y :: b' ∧ ubyte x < ubyte y.

(** By state, then by bound, then by identifier. *)
Definition def_before (x y : PacketDef) : Prop :=
  str_before (pd_State x) (pd_State y)
  ∨ pd_State x = pd_State y ∧ (str_before (pd_Bound x) (pd_Bound y) ∨ pd_Bound x = pd_Bound y ∧ pd_ID x ≤ pd_ID y).

(** [data] is the content of the class file of the class [obf]: the last of that name. *)
Definition class_data (entries : list jarEntry) (obf data : list byte) : Prop :=
  ∃ pre post, entries = pre ++ mkJar (obf ++ str ".class") data :: post
    ∧ ((obf ++ str ".class") ∉ (j_name <$> post)).

(** [v] is an integer constant of the class. *)
Definition has_integer (jc : javaClass) (v : Z) : Prop :=
  ∃ e, e ∈ constantPool jc ∧ cp_tag e = 3 ∧ cp_parsed e = PInt v.

(** [id] is the least integer constant from 0 to 255. *)
Definition identifies (jc : javaClass) (id : Z) : Prop :=
  has_integer jc id ∧ 0 ≤ id ≤ 255 ∧ ∀ v, has_integer jc v → 0 ≤ v ≤ 255 → id ≤ v.

(** The class file of the packet parses, and identifies it. *)
Definition defines (spare : list byte → list byte) (entries : list jarEntry) (obf : list byte) (pi : packetInfo)
    (d : PacketDef) : Prop :=
  ∃ data jc, class_data entries obf data ∧ parseClass data (spare data) = Ret jc ∧ identifies jc (pd_ID d)
    ∧ pd_Name d = pi_name pi ∧ pd_State d = pi_state pi ∧ pd_Bound d = pi_bound pi.

(** The downloads before the loop succeed, with the table [packets] and the jar [entries]. *)
Definition fetched `{Web} `{MapOrder} (version : list byte) (d : Disk) (packets : gmap (list byte) packetInfo)
    (entries : list jarEntry) (d' : Disk) : Prop :=
  ∃ manifest meta url mappings d1 jarPath d2,
    fetchManifest = Ret manifest ∧ getVersionMeta manifest version = Ret meta
    ∧ meta_mappings meta = Some url ∧ url ≠ [] ∧ loadMappings url d = (Ret mappings, d1)
    ∧ packets = protocolPackets (walk mappings)
    ∧ downloadJar (meta_server meta) version d1 = (Ret jarPath, d2) ∧ readJar jarPath d2 = (Ret entries, d').

(** ** Reference: reading the constants back from a Go file *)






(** Definitions that can be printed: a bound and a name without blanks and slashes, a state
    on one line, and an identifier that is not negative. *)
Definition plain (s : list byte) : Prop := (x0a ∉ s) ∧ (x20 ∉ s) ∧ (x2f ∉ s).
Definition printable (d : PacketDef) : Prop :=
  pd_Bound d ≠ [] ∧ plain (pd_Bound d) ∧ plain (pd_Name d) ∧ (x0a ∉ pd_State d) ∧ 0 ≤ pd_ID d < 2 ^ 31.

#[export] Instance printable_dec d : Decision (printable d).
Proof. unfold printable, plain. apply _. Defined.


(** ** Lemmas: the order *)

Lemma str_cmp_refl a : str_cmp a a = Eq.
Proof. induction a as [|x a IH]; [done|]. cbn [str_cmp]. by rewrite Z.compare_refl. Qed.

Lemma str_cmp_eq a : ∀ b, str_cmp a b = Eq → a = b.
Proof.
  induction a as [|x a IH]; intros [|y b]; [done..|]. cbn [str_cmp]. destruct (ubyte x ?= ubyte y) eqn:E; [|done..].
  intros H%IH. apply Z.compare_eq in E. subst. f_equal. rewrite <- (to_byte_ubyte x), E. apply to_byte_ubyte.
Qed.

Lemma str_cmp_antisym a : ∀ b, str_cmp b a = CompOpp (str_cmp a b).
Proof.
  induction a as [|x a IH]; intros [|y b]; [done..|]. cbn [str_cmp]. rewrite (Z.compare_antisym (ubyte x) (ubyte y)).
  destruct (ubyte x ?= ubyte y); simpl; [apply IH|done..].
Qed.

Lemma str_cmp_trans a : ∀ b c, str_cmp a b = Lt → str_cmp b c = Lt → str_cmp a c = Lt.
Proof.
  induction a as [|x a IH]; intros [|y b] [|z c]; try done. cbn [str_cmp].
  destruct (Z.compare_spec (ubyte x) (ubyte y)), (Z.compare_spec (ubyte y) (ubyte z)); intros H1 H2; try done;
    destruct (Z.compare_spec (ubyte x) (ubyte z)); try lia; try done. by apply (IH b).
Qed.

Lemma str_trichotomy a b : a = b ∨ str_cmp a b = Lt ∨ str_cmp b a = Lt.
Proof.
  destruct (str_cmp a b) eqn:E; [left; by apply str_cmp_eq|by right; left|right; right].
  by rewrite str_cmp_antisym, E.
Qed.

(** Lexicographic by state, bound and identifier. *)
Lemma not_after_spec x y :
  not_after x y ↔ str_cmp (pd_State x) (pd_State y) = Lt
    ∨ pd_State x = pd_State y ∧ (str_cmp (pd_Bound x) (pd_Bound y) = Lt ∨ pd_Bound x = pd_Bound y ∧ pd_ID x ≤ pd_ID y).
Proof.
  unfold not_after, less, str_ltb.
  assert (Hlt : ∀ a b, a ≠ b → match str_cmp b a with Lt => true | _ => false end = false ↔ str_cmp a b = Lt).
  { intros a b Hne. destruct (str_cmp b a) eqn:E.
    - apply str_cmp_eq in E. congruence.
    - split; [done|]. intros H. rewrite str_cmp_antisym, H in E. done.
    - split; [|done]. intros _. by rewrite str_cmp_antisym, E. }
  assert (Hirr : ∀ a, str_cmp a a ≠ Lt) by (intros a; by rewrite str_cmp_refl).
  destruct (decide (pd_State y = pd_State x)) as [E|E].
  - rewrite bool_decide_eq_true_2 by done. cbn [negb]. rewrite E. destruct (decide (pd_Bound y = pd_Bound x)) as [F|F].
    + rewrite bool_decide_eq_true_2 by done. cbn [negb]. rewrite F, Z.ltb_ge. split; [auto|].
      intros [?|[_ [?|[_ ?]]]]; [by destruct (Hirr (pd_State x))|by destruct (Hirr (pd_Bound x))|done].
    + rewrite bool_decide_eq_false_2 by done. cbn [negb]. rewrite Hlt by congruence. split; [auto|].
      intros [?|[_ [?|[? _]]]]; [by destruct (Hirr (pd_State x))|done|congruence].
  - rewrite bool_decide_eq_false_2 by done. cbn [negb]. rewrite Hlt by congruence. split; [auto|].
    intros [?|[? _]]; [done|congruence].
Qed.

Lemma str_cmp_before a : ∀ b, str_cmp a b = Lt ↔ str_before a b.
Proof.
  induction a as [|x a IH]; intros [|y b]; cbn [str_cmp].
  - split; [done|]. intros [(y&c&[=])|(p&x&y&a'&b'&E&_)]. by destruct p.
  - split; [|done]. intros _. left. by exists y, b.
  - split; [done|]. intros [(y&c&[=])|(p&x'&y&a'&b'&_&E&_)]. by destruct p.
  - unfold str_before. destruct (Z.compare_spec (ubyte x) (ubyte y)) as [E|E|E].
    + assert (x = y) as <- by (by apply (inj ubyte)). rewrite IH. split.
      * intros [(z&c&->)|(p&u&v&a'&b'&->&->&Hl)]; [left; by exists z, c|right; by exists (x :: p), u, v, a', b'].
      * intros [(z&c&[= ->])|(p&u&v&a'&b'&Ea&Eb&Hl)]; [left; by exists z, c|].
        destruct p as [|w p]; simplify_eq/=; [lia|]. right. by exists p, u, v, a', b'.
    + split; [|done]. intros _. right. by exists [], x, y, a, b.
    + split; [done|]. intros [(z&c&[= -> _])|(p&u&v&a'&b'&Ea&Eb&Hl)]; [lia|].
      destruct p; simplify_eq/=; lia.
Qed.

Lemma not_after_before x y : not_after x y ↔ def_before x y.
Proof. rewrite not_after_spec. unfold def_before. by rewrite !str_cmp_before. Qed.

Lemma sorted_weaken {A} (R R' : A → A → Prop) l : (∀ x y, R x y → R' x y) → StronglySorted R l → StronglySorted R' l.
Proof. intros HR. induction 1 as [|x l _ IH Hx]; constructor; [done|]. eapply Forall_impl; [exact Hx|]. apply HR. Qed.

#[export] Instance not_after_total : Total not_after.
Proof.
  intros x y. rewrite !not_after_spec.
  destruct (str_trichotomy (pd_State x) (pd_State y)) as [E|[?|?]]; [|auto..]. rewrite E.
  destruct (str_trichotomy (pd_Bound x) (pd_Bound y)) as [F|[?|?]]; [|auto..]. rewrite F.
  destruct (Z.le_gt_cases (pd_ID x) (pd_ID y)); [auto 10|]. right. right. split; [done|]. right. split; [done|lia].
Qed.

#[export] Instance not_after_trans : Transitive not_after.
Proof.
  intros x y z. rewrite !not_after_spec. intros [H1|[E1 [H1|[F1 H1]]]] [H2|[E2 [H2|[F2 H2]]]];
    rewrite ?E1, ?F1, ?E2, ?F2 in *; eauto using str_cmp_trans.
  right. split; [done|]. right. split; [done|]. lia.
Qed.

(** ** Lemmas: the loop *)

Definition def_key (d : PacketDef) : list byte := pd_State d ++ str "/" ++ pd_Bound d ++ str "/" ++ pd_Name d.

Section loop.
Context (spare : list byte → list byte) (cls : gmap (list byte) (list byte)).

(** The class file of a packet parses and has a candidate for the identifier. *)
Definition yields (e : list byte * packetInfo) (d : PacketDef) : Prop :=
  ∃ data jc, cls !! e.1 = Some data ∧ parseClass data (spare data) = Ret jc
    ∧ pickPacketID (integerConstants jc) ≠ -1
    ∧ d = mkDef (pi_name e.2) (pickPacketID (integerConstants jc)) (pi_state e.2) (pi_bound e.2).

(** No class file is cut off. *)
Definition readable : Prop :=
  ∀ obf data, cls !! obf = Some data → (∃ jc, parseClass data (spare data) = Ret jc) ∨ ∃ e, parseClass data (spare data) = Err e.

Lemma yields_key e d : yields e d → def_key d = packet_key e.2.
Proof. by intros (data&jc&_&_&_&->). Qed.

(** One turn: the packet's definition is added unless its key is there. *)
Lemma extract_step_ok e found :
  readable →
  ∃ new, extract_step spare cls e.1 e.2 (list_to_set (def_key <$> found), found)
         = Ret (list_to_set (def_key <$> (found ++ new)), found ++ new)
    ∧ (∀ d, yields e d → def_key d ∈ def_key <$> (found ++ new))
    ∧ (new = [] ∨ ∃ d, new = [d] ∧ yields e d ∧ def_key d ∉ def_key <$> found).
Proof.
  intros Hr. unfold extract_step. destruct (cls !! e.1) as [data|] eqn:Hd.
  2:{ exists []. rewrite app_nil_r. split_and!; [done| |by left]. intros d (data&jc&Hc&_). congruence. }
  destruct (Hr _ _ Hd) as [[jc Hp]|[er Hp]]; rewrite Hp.
  2:{ exists []. rewrite app_nil_r. split_and!; [done| |by left]. intros d (data'&jc&Hc&Hp'&_). cbn in Hc. rewrite Hd in Hc. injection Hc as ->. congruence. }
  destruct (Z.eqb_spec (pickPacketID (integerConstants jc)) (-1)) as [E|E].
  { exists []. rewrite app_nil_r. split_and!; [done| |by left]. intros d (data'&jc'&Hc&Hp'&Hid&_). rewrite Hd in Hc. injection Hc as ->. congruence. }
  set (d0 := mkDef (pi_name e.2) (pickPacketID (integerConstants jc)) (pi_state e.2) (pi_bound e.2)).
  assert (Hy : yields e d0) by (by exists data, jc).
  case_decide as Hin.
  - exists []. rewrite app_nil_r. split_and!; [done| |by left]. intros d Hyd. rewrite (yields_key _ _ Hyd). by rewrite elem_of_list_to_set in Hin.
  - exists [d0]. rewrite elem_of_list_to_set in Hin. split_and!.
    + do 2 f_equal. rewrite fmap_app, list_to_set_app_L. cbn [fmap list_fmap list_to_set]. rewrite union_empty_r_L. apply union_comm_L.
    + intros d Hyd. rewrite (yields_key _ _ Hyd), fmap_app, elem_of_app. right. by apply list_elem_of_singleton.
    + right. exists d0. by split_and!.
Qed.

Lemma extract_loop_ok ps : ∀ found,
  readable → NoDup (def_key <$> found) →
  ∃ new, extract_loop spare cls ps (list_to_set (def_key <$> found), found)
         = Ret (list_to_set (def_key <$> (found ++ new)), found ++ new)
    ∧ NoDup (def_key <$> (found ++ new))
    ∧ (∀ d, d ∈ new → ∃ e, e ∈ ps ∧ yields e d)
    ∧ (∀ e d, e ∈ ps → yields e d → def_key d ∈ def_key <$> (found ++ new)).
Proof.
  induction ps as [|[obf pi] ps IH]; intros found Hr Hn.
  { exists []. rewrite app_nil_r. split_and!; [done|done| |]; [by intros d ?%not_elem_of_nil|by intros e d ?%not_elem_of_nil]. }
  destruct (extract_step_ok (obf, pi) found Hr) as (new1&Hs&Hall&Hnew). cbn [fst snd] in Hs.
  assert (Hn1 : NoDup (def_key <$> (found ++ new1))).
  { destruct Hnew as [->|(d&->&_&Hd)]; [by rewrite app_nil_r|]. rewrite fmap_app. apply NoDup_app. split_and!; [done| |apply NoDup_singleton].
    intros x Hx Hx'. apply list_elem_of_singleton in Hx'. by subst. }
  destruct (IH (found ++ new1) Hr Hn1) as (new2&Hl&Hn2&Hsound&Hcomp). rewrite <- app_assoc in *.
  exists (new1 ++ new2). split_and!; [|done| |].
  - cbn [extract_loop]. rewrite Hs. exact Hl.
  - intros d [Hd|Hd]%elem_of_app.
    + destruct Hnew as [->|(d'&->&Hy&_)]; [by apply not_elem_of_nil in Hd|]. apply list_elem_of_singleton in Hd as ->.
      exists (obf, pi). split; [by left|done].
    + destruct (Hsound d Hd) as (e&He&Hy). exists e. split; [by right|done].
  - intros e d [->|He]%elem_of_cons Hy; [|by apply (Hcomp e d)].
    specialize (Hall d Hy). rewrite app_assoc, fmap_app, elem_of_app. by left.
Qed.
End loop.

(** *** The class files and their identifiers *)

Lemma dataByObf_lookup entries obf data : dataByObf entries !! obf = Some data ↔ class_data entries obf data.
Proof.
  unfold class_data. induction entries as [|[name dt] es IH] using rev_ind.
  { split; [done|]. by intros ([|]&?&?&_). }
  assert (Hsplit : ∀ P, (∃ pre post, es ++ [mkJar name dt] = pre ++ mkJar (obf ++ str ".class") data :: post
      ∧ ((obf ++ str ".class") ∉ (j_name <$> post)) ∧ P) ↔
    (name = obf ++ str ".class" ∧ dt = data ∧ P
     ∨ name ≠ obf ++ str ".class" ∧ ∃ pre post, es = pre ++ mkJar (obf ++ str ".class") data :: post
        ∧ ((obf ++ str ".class") ∉ (j_name <$> post)) ∧ P)).
  { intros P. split.
    - intros (pre&post&E&Hn&HP). destruct post as [|e post _] using rev_ind.
      + apply app_inj_tail in E as [_ [= -> ->]]. by left.
      + rewrite fmap_app, elem_of_app in Hn. cbn [fmap list_fmap] in Hn. rewrite list_elem_of_singleton in Hn.
        change (pre ++ mkJar (obf ++ str ".class") data :: post ++ [e])
          with (pre ++ (mkJar (obf ++ str ".class") data :: post) ++ [e]) in E.
        rewrite app_assoc in E. apply app_inj_tail in E as [-> <-]. right. cbn in Hn. split; [naive_solver|].
        exists pre, post. naive_solver.
    - intros [(->&->&HP)|(Hne&pre&post&->&Hn&HP)].
      + exists es, []. split_and!; [done|apply not_elem_of_nil|done].
      + exists pre, (post ++ [mkJar name dt]). split_and!; [by rewrite <- app_assoc| |done].
        rewrite fmap_app, elem_of_app. cbn [fmap list_fmap]. rewrite list_elem_of_singleton. naive_solver. }
  specialize (Hsplit True). unfold dataByObf. rewrite foldl_app. cbn [foldl j_name j_data]. fold (dataByObf es).
  assert (Hkey : HasSuffix name (str ".class") = true ∧ TrimSuffix name (str ".class") = obf ↔ name = obf ++ str ".class").
  { split; [|intros ->; by rewrite HasSuffix_app, TrimSuffix_app].
    intros [[r0 ->]%HasSuffix_true <-]. by rewrite TrimSuffix_app. }
  setoid_rewrite (right_id True (∧)) in Hsplit. rewrite Hsplit. clear Hsplit.
  destruct (HasSuffix name (str ".class")) eqn:Es.
  - destruct (decide (TrimSuffix name (str ".class") = obf)) as [Et|Et].
    + rewrite Et, lookup_insert_eq. rewrite <- Hkey, Et. naive_solver.
    + rewrite lookup_insert_ne, IH by done. rewrite <- Hkey. naive_solver.
  - rewrite IH, <- Hkey. naive_solver.
Qed.

Lemma integerConstants_spec jc v : v ∈ integerConstants jc ↔ has_integer jc v.
Proof.
  unfold integerConstants, has_integer. rewrite list_elem_of_omap. change constantInteger with 3.
  split; intros (e&He&H); exists e; (split; [done|]).
  - destruct (Z.eqb_spec (cp_tag e) 3); [|done]. destruct (cp_parsed e); by simplify_eq.
  - destruct H as [-> ->]. done.
Qed.

Lemma pickPacketID_spec jc id :
  id ≠ -1 ∧ pickPacketID (integerConstants jc) = id ↔ identifies jc id.
Proof.
  unfold identifies. setoid_rewrite <- integerConstants_spec.
  destruct (pick_fold (integerConstants jc) (-1) (or_introl eq_refl)) as (H1&_&H3).
  fold (pickPacketID (integerConstants jc)) in *. split.
  - intros [Hne <-]. destruct H1 as [?|[? ?]]; [done|]. split_and!; [done|lia|lia|]. intros v Hv Hr. by apply H3.
  - intros (Hin&Hr&Hmin). destruct (H3 id Hin Hr) as [Hne Hle]. split; [lia|].
    destruct H1 as [?|[Hp Hpr]]; [done|]. specialize (Hmin _ Hp Hpr). lia.
Qed.

Lemma yields_defines spare entries obf pi d :
  yields spare (dataByObf entries) (obf, pi) d ↔ defines spare entries obf pi d.
Proof.
  unfold yields, defines. cbn [fst snd]. split.
  - intros (data&jc&Hc&Hp&Hid&->). exists data, jc. cbn. split_and!; [by apply dataByObf_lookup|done|by apply pickPacketID_spec|done..].
  - intros (data&jc&Hc&Hp&[Hne Hid]%pickPacketID_spec&Hn&Hs&Hb). exists data, jc.
    split_and!; [by apply dataByObf_lookup|done|by rewrite Hid|]. destruct d. cbn in *. by subst.
Qed.

(** The part of [extractPacketIDs] before the loop. *)
Lemma extract_fetched `{Web} `{MapOrder} spare version d packets entries d' :
  fetched version d packets entries d' → packets ≠ ∅ →
  extractPacketIDs spare version d
  = ('(_, found) ← liftO (extract_loop spare (dataByObf entries) (walk packets) (∅, []));
     match found with
     | [] => fail (ErrOther "no packet IDs extracted from JAR classes")
     | _ => mret (sort_Slice found)
     end) d'.
Proof.
  intros (manifest&meta&url&mappings&d1&jarPath&d2&H1&H2&H3&H4&H5&->&H6&H7) Hne. unfold extractPacketIDs.
  rewrite (bind_ret _ _ _ manifest d) by (unfold liftO; by rewrite H1).
  rewrite (bind_ret _ _ _ meta d) by (unfold liftO; by rewrite H2). rewrite H3. destruct url as [|b url]; [done|].
  rewrite (bind_ret _ _ _ _ _ H5). cbv zeta. rewrite decide_False by done.
  by rewrite (bind_ret _ _ _ _ _ H6), (bind_ret _ _ _ _ _ H7).
Qed.

(** ** Lemmas: generation *)

Lemma group_all_Forall (P : PacketDef → Prop) ps : Forall P ps → map_Forall (λ _ ds, Forall P ds) (group_all ps).
Proof.
  intros Hps. unfold group_all. assert (H0 : map_Forall (λ _ ds, Forall P ds) (∅ : gmap (list byte) (list PacketDef))) by apply map_Forall_empty.
  revert H0. generalize (∅ : gmap (list byte) (list PacketDef)). induction Hps as [|p ps Hp _ IH]; intros m Hm; [done|].
  cbn [foldl]. apply IH. apply map_Forall_insert_2; [|done]. apply Forall_app. split; [|by apply Forall_singleton].
  destruct (m !! _) as [ds|] eqn:E; [by apply (Hm _ _ E)|constructor].
Qed.


Lemma const_lines_ok ds : Forall (λ d, pd_Bound d ≠ []) ds → ∃ l, const_lines ds = Ret l.
Proof.
  induction 1 as [|d ds Hd _ [l IH]]; [by eexists|]. cbn [const_lines]. unfold constName. destruct (pd_Bound d); [done|].
  rewrite IH. by eexists.
Qed.

(** *** Reading the file back *)










Lemma generate_text_ok `{MapOrder} ps version :
  Forall (λ d, pd_Bound d ≠ []) ps → ∃ text, generate_text (walk (group_all ps)) version = Ret text.
Proof.
  intros Hps. assert (Hgs : Forall (λ g, Forall (λ d, pd_Bound d ≠ []) g.2) (walk (group_all ps))).
  { apply Forall_forall. intros [k ds]. rewrite walk_perm, elem_of_map_to_list. by apply (group_all_Forall _ _ Hps). }
  assert (Hl : ∃ l, group_lines (walk (group_all ps)) = Ret l).
  { induction Hgs as [|[k ds] gs Hd _ [l IH]]; [by eexists|]. cbn [group_lines]. destruct (const_lines_ok ds Hd) as [ls ->].
    rewrite IH. by eexists. }
  destruct Hl as [l Hl]. unfold generate_text. rewrite Hl. by eexists.
Qed.

(** ** The properties of the component *)

(** C39. The extraction: once the manifest, the mappings and the jar are there, for every
    order in which Go walks its maps and when no class file makes the parser panic,
    [extractPacketIDs] returns definitions in the order of state, bound and identifier,
    without two of the same key of state, bound and name.  Each is a packet of the table
    with the least integer constant between 0 and 255 of its class file in the jar (the last
    of that name), and every packet whose class file parses and has such a constant is
    represented.  When there is no such packet it returns an error. *)
Theorem packet_ids_found `{Web} `{MapOrder} spare version d packets entries d' :
  fetched version d packets entries d' → packets ≠ ∅ →
  (∀ obf data, class_data entries obf data →
     (∃ jc, parseClass data (spare data) = Ret jc) ∨ ∃ e, parseClass data (spare data) = Err e) →
  (∃ found, extractPacketIDs spare version d = (Ret found, d') ∧ found ≠ []
     ∧ StronglySorted def_before found ∧ NoDup (def_key <$> found)
     ∧ (∀ df, df ∈ found → ∃ obf pi, packets !! obf = Some pi ∧ defines spare entries obf pi df)
     ∧ (∀ obf pi df, packets !! obf = Some pi → defines spare entries obf pi df → def_key df ∈ def_key <$> found))
  ∨ (extractPacketIDs spare version d = (Err (ErrOther "no packet IDs extracted from JAR classes"), d')
     ∧ ∀ obf pi df, packets !! obf = Some pi → ¬ defines spare entries obf pi df).
Proof.
  intros Hf Hne Hread. rewrite (extract_fetched spare version d packets entries d' Hf Hne).
  assert (Hr : readable spare (dataByObf entries)) by (intros obf data ?%dataByObf_lookup; by apply (Hread obf)).
  destruct (extract_loop_ok spare (dataByObf entries) (walk packets) [] Hr) as (found&Hl&Hn&Hsound&Hcomp); [constructor|].
  cbn [app] in *. assert (Hw : ∀ obf pi, (obf, pi) ∈ walk packets ↔ packets !! obf = Some pi).
  { intros obf pi. rewrite walk_perm. apply elem_of_map_to_list. }
  rewrite (bind_ret _ _ _ (list_to_set (def_key <$> found), found) d') by (unfold liftO; by rewrite <- Hl).
  assert (Hall : ∀ obf pi df, packets !! obf = Some pi → defines spare entries obf pi df → def_key df ∈ def_key <$> found).
  { intros obf pi df Hp Hd. apply (Hcomp (obf, pi)); [by apply Hw|by apply yields_defines]. }
  destruct found as [|d0 found0] eqn:Ef.
  - right. split; [done|]. intros obf pi df Hp Hd. by apply (not_elem_of_nil (def_key df)), (Hall obf pi).
  - rewrite <- Ef in *. left. exists (sort_Slice found).
    assert (Hperm : sort_Slice found ≡ₚ found) by apply merge_sort_Permutation.
    assert (Hkeys : ∀ k, k ∈ def_key <$> sort_Slice found ↔ k ∈ def_key <$> found) by (intros k; by rewrite Hperm).
    split_and!; [by subst found|..].
    + intros E. rewrite E in Hperm. apply Permutation_nil_l in Hperm. congruence.
    + apply (sorted_weaken not_after); [|apply StronglySorted_merge_sort; apply _]. intros x y. apply not_after_before.
    + by rewrite Hperm.
    + intros df. rewrite Hperm. intros Hd. destruct (Hsound df Hd) as ([obf pi]&He&Hy). exists obf, pi.
      split; [by apply Hw|by apply yields_defines].
    + intros obf pi df Hp Hd. apply Hkeys. by apply (Hall obf pi).
Qed.

#[export] Instance some_order : MapOrder := {| walk V m := map_to_list m; walk_perm V m := reflexivity _ |}.

(** A service with one version, whose jar has one class; the mappings and the jar are in
    the cache. *)
Definition demo_web : Web := {|
  Get _ := HttpResponse 200 [] None;
  decode_manifest _ _ := Some (mkManifest [] [] [mkVersion (str "1.21.4") (str "u") []]);
  decode_meta _ _ := Some (mkMeta (str "s") (Some (str "m")));
  zip_reader _ := Some [mkZipFile (str "abc.class") false (Ret (class_bytes demo_class))];
  zip_open _ _ := Err (ErrOther "no such file") |}.

Definition demo_disk : Disk := mkDisk
  (<[cachePath (str "server.txt") := mapping_text demo_mappings]> {[cachePath (str "server-1.21.4.jar") := []]}) true.

Lemma packet_ids_found_witness :
  ∃ found, extractPacketIDs (H := demo_web) (λ _, []) (str "1.21.4") demo_disk = (Ret found, demo_disk)
    ∧ str "login/clientbound/Hello" ∈ def_key <$> found.
Proof.
  set (packets := protocolPackets (walk (parse_mappings (mapping_text demo_mappings)))).
  set (entries := [mkJar (str "abc" ++ str ".class") (class_bytes demo_class)]).
  set (pi := mkInfo (str "login") (str "clientbound") (str "Hello") (str "abc")).
  assert (Hpi : packets !! str "abc" = Some pi) by (vm_compute; reflexivity).
  assert (Hcls : ∀ obf data, class_data entries obf data → data = class_bytes demo_class).
  { intros obf data (pre&post&E&_). destruct pre as [|? [|? ?]]; [|discriminate E..]. by injection E as _ ->. }
  assert (Hd : defines (λ _, []) entries (str "abc") pi (mkDef (str "Hello") 38 (str "login") (str "clientbound"))).
  { exists (class_bytes demo_class), (class_of demo_class). split; [by exists [], []; split; [|apply not_elem_of_nil]|].
    split; [vm_compute; reflexivity|]. split; [|by split_and!].
    apply (proj1 (pickPacketID_spec (class_of demo_class) 38)). split; [done|vm_compute; reflexivity]. }
  destruct (packet_ids_found (H := demo_web) (λ _, []) (str "1.21.4") demo_disk packets entries demo_disk)
    as [(found&H1&_&_&_&_&H2)|[_ H2]].
  - exists (mkManifest [] [] [mkVersion (str "1.21.4") (str "u") []]), (mkMeta (str "s") (Some (str "m"))), (str "m"),
      (parse_mappings (mapping_text demo_mappings)), demo_disk, (cachePath (str "server-1.21.4.jar")), demo_disk.
    split_and!; [reflexivity|reflexivity|reflexivity|discriminate|reflexivity|reflexivity|reflexivity|reflexivity].
  - intros E. rewrite E in Hpi. discriminate Hpi.
  - intros obf data ->%Hcls. left. eexists. vm_compute. reflexivity.
  - exists found. split; [exact H1|]. exact (H2 _ _ _ Hpi Hd).
  - destruct (H2 _ _ _ Hpi Hd).
Defined.





(** The checked-in constants are the output of the generator: for some order of the
    groups, [generate] makes [types.go], byte for byte, from the built-in definitions
    and version 1.21.4; the names of its constants are distinct. *)
Theorem types_go_generated :
  (∃ gs, gs ≡ₚ map_to_list (group_all fallbackDefinitions) ∧ generate_text gs (str "1.21.4") = Ret types_go)
  ∧ NoDup (constName <$> fallbackDefinitions).
Proof.
  split; [|apply (bool_decide_eq_true_1 _); by vm_compute].
  set (g k := (str k, default [] (group_all fallbackDefinitions !! str k))).
  exists (g <$> ["handshake_serverbound"; "status_serverbound"; "status_clientbound"; "configuration_serverbound";
    "configuration_clientbound"; "login_serverbound"; "login_clientbound"; "play_serverbound"; "play_clientbound"]).
  split; [apply (bool_decide_eq_true_1 _); by vm_compute|]. by vm_compute.
Qed.

(** The tool always has definitions to write: when a step of the extraction fails it
    takes the built-in ones, and never an empty list; without a network it writes the
    file it generates from them, for every order of the groups. *)
Theorem definitions_available `{Web} `{MapOrder} spare version output d :
  (∀ e d', extractPacketIDs spare version d = (Err e, d') → getDefinitions spare version d = (Ret fallbackDefinitions, d'))
  ∧ (∀ ps d', getDefinitions spare version d = (Ret ps, d') → ps ≠ [])
  ∧ ((∃ e, Get manifestURL = HttpError e) → writable d = true →
     ∃ text d', mcproto_main spare version output d = (Ret (), d')
       ∧ generate_text (walk (group_all fallbackDefinitions)) version = Ret text
       ∧ files d' = <[output_path version output := text]> (files d)).
Proof.
  assert (Hfall : ∀ e d', extractPacketIDs spare version d = (Err e, d') → getDefinitions spare version d = (Ret fallbackDefinitions, d')).
  { intros e d' E. unfold getDefinitions. by rewrite (bind_ret _ _ _ (inr e) d') by (unfold attempt; by rewrite E). }
  split_and!; [exact Hfall| |].
  - intros ps d'. unfold getDefinitions, mbind, M_bind, attempt. destruct (extractPacketIDs spare version d) as [[ps0|e0|p|] d0]; [|intros [= <- _]; done|done|done].
    destruct ps0; intros [= <- _]; done.
  - intros [e He] Hw. destruct (generate_text_ok fallbackDefinitions version) as [text Ht].
    { apply (bool_decide_eq_true_1 _). by vm_compute. }
    exists text. eexists. split_and!; [|done|].
    + unfold mcproto_main. rewrite (bind_ret _ _ _ fallbackDefinitions d).
      * unfold generate. rewrite (bind_ret _ _ _ text d) by (unfold liftO; by rewrite Ht). rewrite get_bind, Hw. done.
      * apply (Hfall (ErrOther "fetch manifest")). unfold extractPacketIDs. apply bind_err. unfold liftO, fetchManifest. by rewrite He.
    + done.
Qed.
