(* ===== verification/Protocol.v ===== *)
(** * Protocol constants ([protocol/state.go], [protocol/direction.go])

    The states of a connection and the directions of a packet, with their names. *)

From S2P Require Export Extract.
#[local] Open Scope Z_scope.

(** [State] and [Direction] are [int] types. *)
Definition StateHandshake : Z := -1.
Definition StateStatus : Z := 1.
Definition StateLogin : Z := 2.
Definition StatePlay : Z := 3.
Definition StateConfiguration : Z := 4.

Definition State_String (s : Z) : list byte :=
  if s =? StateHandshake then str "handshake" else if s =? StateStatus then str "status"
  else if s =? StateLogin then str "login" else if s =? StatePlay then str "play"
  else if s =? StateConfiguration then str "configuration" else str "unknown".

Definition Serverbound : Z := 0.
Definition Clientbound : Z := 1.

Definition Direction_String (d : Z) : list byte :=
  if d =? Serverbound then str "serverbound" else if d =? Clientbound then str "clientbound" else str "unknown".

(** The names tell the states apart, and the directions, and ["unknown"] is none of them. *)
Theorem names_injective :
  NoDup (str "unknown" :: (State_String <$> [StateHandshake; StateStatus; StateLogin; StatePlay; StateConfiguration]))
  ∧ NoDup (str "unknown" :: (Direction_String <$> [Serverbound; Clientbound])).
Proof. split; apply (bool_decide_eq_true_1 _); by vm_compute. Qed.

(** The packet definitions that are compiled into the tool speak the vocabulary of the
    protocol package: each names a state and a direction of it, and within a state and a
    direction no two packets share an identifier; the identifiers are bytes. *)
Theorem fallback_well_formed :
  Forall (λ d, pd_State d ∈ State_String <$> [StateHandshake; StateStatus; StateLogin; StatePlay; StateConfiguration]
             ∧ pd_Bound d ∈ Direction_String <$> [Serverbound; Clientbound] ∧ 0 ≤ pd_ID d < 256) fallbackDefinitions
  ∧ NoDup ((λ d, (pd_State d, pd_Bound d, pd_ID d)) <$> fallbackDefinitions)
  ∧ NoDup ((λ d, (pd_Bound d, pd_Name d)) <$> fallbackDefinitions).
Proof. split_and!; apply (bool_decide_eq_true_1 _); by vm_compute. Qed.
